(* ===== verification/_CoqProject ===== *)
-Q . S2P
Prelude.v
Labgob.v
LabgobCheck.v
GoStrings.v
Labrpc.v
LabrpcWorld.v
LabrpcCalls.v
LabrpcRuns.v
RaftTypes.v
Raft.v
RaftNode.v
RaftCluster.v
RaftElection.v
RaftLog.v
RaftApply.v
RaftSnapshots.v
RaftGhost.v
RaftView.v
RaftEffects.v
RaftSafety.v
RaftAgreement.v
RaftIntegrity.v
RaftDelivery.v
RaftHarness.v
RaftHarnessApply.v
RaftHarnessNet.v
RaftHarnessChecks.v
RaftHarnessEnd.v
RaftRuns.v
RaftAgreeRuns.v
RaftHarnessRuns.v
ServiceHarness.v
ServiceNet.v
ServiceLife.v
ServiceTests.v
Dedup.v
KvSrv.v
KvSrvHarness.v
KvRaft.v
KvReplica.v
KvHistory.v
KvCluster.v
KvClusterSteps.v
KvRuns.v
KvraftHarness.v
ServiceRuns.v
ShardCtrler.v
ShardKv.v
CtrlHarness.v
ShardHarness.v
ShardLife.v
ShardTests.v
ShardRuns.v
MrCoordinator.v
MrScheduling.v
MrWorker.v
MrResult.v
MrApps.v
MrProbes.v
MrJob.v
MrJobResult.v
MrJobRuns.v
Bitset.v
Porcupine.v
PorcupineHeap.v
PorcupinePaths.v
PorcupineSearch.v
PorcupineCheck.v
PorcupineCorrect.v
PorcupinePoints.v
PorcupineOps.v
PorcupineEvents.v
PorcupineVis.v
PorcupineDraws.v
KvModel.v
KvLinear.v
KvClusterLinear.v
PorcupineRuns.v
KvClusterRuns.v
KvSrvLinear.v
