(* ===== verification/Prelude.v ===== *)
(** * A verification library for the 6.5840 distributed-systems labs

    The repository holds the labs of the course in Go: MapReduce, a key/value
    server, Raft, a key/value service on Raft, the clerks of a sharded service,
    and the linearizability checker the tests use.  This library models them as
    functions on explicit states and proves what each part promises.  All paths
    below are under [src/src/].

    ** The parts and their files

    - Raft ([raft/raft.go], [raft/persister.go]).  [RaftTypes] has the structs
      and the persister, [Raft] one function per critical section: the RPC
      handlers, the code after each reply, [ticker], [heartbeatWorker],
      [applyCommitted], [Start], [Snapshot], [Kill] and [Make].  [RaftCluster]
      joins peers by a network that delays, reorders and loses packets, with
      crashes and restarts.  [RaftNode] has what every step of a peer keeps:
      what is persistent can be restored, nothing is indexed out of range, the
      indices are ordered, the applier is awake when there is work.
      [RaftElection] shows that a term has one leader; [RaftLog] what the log
      operations do, by logical index; [RaftApply] what reaches the service and
      in which order; [RaftSnapshots] where the snapshots of a cluster come from.
      [RaftGhost], [RaftView], [RaftEffects], [RaftSafety] and [RaftAgreement]
      show that logs match and that no two peers hand over different commands
      for one index: the first is the argument about histories of leaders, logs
      and votes, the second has the full log behind a snapshot, the third says
      which operations touch the log, the fourth ties peers and packets to a
      history, the last goes through the events.  [RaftIntegrity] shows that what
      is handed over was proposed, [RaftDelivery] that all of it is one growing
      log, in which each service is led from place to place without a gap.
      [RaftRuns] and [RaftAgreeRuns] are concrete runs.
    - The harness of the Raft tests ([raft/config.go]).  [RaftHarness] has its
      operations, on the tables of [Labrpc] and the peers of [Raft];
      [RaftHarnessApply] shows that its checks of what was committed pass in
      every run of [RaftAgreement] without snapshots, [RaftHarnessNet] who is connected to whom
      and what a restart brings back, [RaftHarnessChecks] that the check for one
      leader passes and what [one] promises, [RaftHarnessEnd] the statistics and
      the end of a test.  [RaftHarnessRuns] has examples.
    - The harnesses of the service tests.  [ServiceHarness] has the functions of
      [kvraft/config.go] for any service of the class [Service]; the file of
      [shardctrler] is a copy of it.  [KvraftHarness] and [CtrlHarness] are the
      two instances, with the [Leader] of each.  [ServiceNet] says what the loops
      over ends do to the network, [ServiceLife] what starting and stopping a
      server does in every state of a test, for any instance with the laws
      [ServiceLaws], and [ServiceTests] what tests get from [make_config],
      [make_partition] and [partition].  [KvSrvHarness] is [kvsrv/config.go],
      with one server and clerks.  [ShardHarness] is [shardkv/config.go], groups
      of servers beside the controllers; [ShardLife] has the states its tests
      reach, [ShardTests] what they may rely on.  [ServiceRuns] and [ShardRuns]
      have examples.
    - The simulated network ([labrpc/labrpc.go]).  [Labrpc] has the tables of
      the network and the lookup of methods, [LabrpcWorld] the goroutines of
      its calls as steps, [LabrpcCalls] what callers may rely on, with runs in
      [LabrpcRuns].
    - The wrapper of gob ([labgob/labgob.go]).  [Labgob] is its codec as the
      other parts use it; [LabgobCheck] models what the wrapper adds, the walks
      over types and values that print warnings, for calls made one after the
      other.
    - Key/value servers ([kvsrv/], [kvraft/]).  [Dedup] is the request cache of
      both.  [KvSrv] models the single server with its clerk and shows that a
      write takes effect once, whatever the network loses; [KvSrvLinear] has any
      number of clerks with it and what the checker says.  [KvRaft] models the
      replicated server on the [Raft] of its peer; [KvReplica] shows that
      servers that consume one log, by commands or by snapshots, hold the state
      of that log, and what handlers and clerks answer.  [KvRuns] has runs.
    - The key/value service as a whole.  [KvCluster] puts the servers of [KvRaft]
      on the peers of a [RaftCluster], with channels, waiting handlers, replies
      and clerks; [KvHistory] has the history the clerks see and what it means
      that a log explains it.  [KvClusterSteps] shows, with [RaftDelivery], that
      servers and history follow one log in every run.  [PorcupinePoints] and
      [KvLinear] order the operations of such a history by their places in the
      log, and [KvClusterLinear] puts everything together: the history passes
      the checker with [models/kv.go].  [KvClusterRuns] has a run.
    - Sharded service ([shardctrler/], [shardkv/]).  [ShardCtrler] and [ShardKv]
      model the clerks: the first controller that answers, and the group that
      owns a key's shard in the configuration in use.  The servers of both are
      skeletons in the repository and are modelled as such.
    - MapReduce ([mr/], [mrapps/], [main/mrsequential.go]).  [MrCoordinator] is
      the coordinator and [MrScheduling] what it guarantees; [MrWorker] the
      worker's files, hash and grouping and the sequential program, [MrResult]
      that buckets reduced apart give the lines of the whole; [MrJob] has the
      loop of the worker processes as single steps on shared files, with the
      coordinator, and [MrJobResult] shows what a job leaves behind and that it
      can be finished; [MrApps] the applications, with word count end to end,
      and [MrProbes] those that watch the workers by files in the shared
      directory, with bounds for what they count while others come and go.  [MrJobRuns] has concrete jobs.
    - The checker ([porcupine/], [models/kv.go]).  [Bitset] is the set of
      operations; [Porcupine] the checker, its linked entries on a heap.
      [PorcupineHeap] shows that [unlift] undoes [lift]; [PorcupinePaths] says
      what is searched for, [PorcupineSearch] that the loop finds it,
      [PorcupineCheck] that [checkSingle] ends with the right answer,
      [PorcupineCorrect] that this answer is linearizability, [PorcupineOps] what
      the entry points return for operations and [PorcupineEvents] for calls and
      returns.  [PorcupineVis] computes what the
      visualization draws and puts it on its page, and [PorcupineDraws] shows that
      it is true.
      [KvModel] is the key/value model the tests use.  [PorcupineRuns] has
      concrete histories.
    - This file has what all share: record update, Go slices, the database [go]
      and the tactic [go_lia], outcomes.  [GoStrings] has what is used of
      package [strings].

    ** How the code is modelled

    Code between [Lock] and [Unlock] is one function from the state to the new
    state and what it returns; a method that unlocks in the middle is one
    function per locked part.  A read out of range, a [nil] dereference or a
    failed type assertion is [None] or [Panicked].  Goroutines that are started
    are returned as values, and the transition systems ([RaftCluster], [NodeOp]
    in [RaftNode], the steps of [LabrpcWorld], the events of [MrJob]) run
    them at any later time.  [RaftCluster] is Raft over the outside view of
    [labrpc]: a packet arrives at any later time or never, a reply at most once.
    [log.Fatalf] and [t.Fatal] are values that end a run.  Package [reflect] is a
    table of types, with values that lead to locations of a memory.  Time
    is an argument in nanoseconds.  Words that wrap are reduced where wrapping
    matters ([rpc_key] of [KvSrv], [ihash] of [MrWorker], the 64-bit words of
    [Bitset]); terms, indices and counters are unbounded.

    What is not in the repository is a parameter with its documented behaviour:
    gob ([GobStream] with [GobLaws]), JSON ([JsonCodec] with [JsonLaws]), sorting
    ([Sorter], [TimeSorter] and [LongestFirst] with their laws),
    [unicode.IsLetter], [fmt], the
    order of ranging over a map, and the network of each clerk.  Each has an
    instance with the laws, with which the witnesses compute.

    ** Fuel

    Loops without a structural measure take fuel.  [commitLoop] gets as many
    steps as there are indices to look at, and the walk [node_length] as many as
    there are nodes; both never run out.  For [checkLoop] the theorems state
    that some amount of fuel is enough and every larger amount gives the same
    result; for the clerks they state how many rounds are enough once somebody
    answers, since a clerk nobody answers does not return.

    ** The properties

    The single server.  Every run of any number of clerks with their server is
    linearizable, whatever the network loses, delays or repeats, if the replies to
    appends can be found again ([safe_appends], with two runs in [KvSrvLinear] that
    the checker rejects otherwise).

    The composition.  Every run of a key/value cluster is linearizable, through
    partitions, crashes, restarts and snapshots, and the checker says so; its
    servers hold states of one log of requests and never panic.  The runs are
    those in which no peer votes twice and no leader sends its dummy entry, see
    below; that snapshots are of what is committed is proved there.  Values
    written to a key must not spell ErrNoKey together, because a stored [ErrNoKey]
    reads as a missing key, and every clerk must have returned, since the tests
    record only calls that did.

    Safety of Raft.  One leader per term, in every run of a cluster in which no
    peer votes for two candidates in one term ([reach]); [keeping_reach] shows
    that only [Kill] and a snapshot installed in the term of its receiver can
    lead to a second vote, and [RaftRuns] that each of them does.  Matching logs,
    leaders that have all that was committed, and agreement of everything that
    is handed to the services, in those of these runs ([reach_log]) in which
    services take snapshots of what is committed and no leader sends the dummy
    entry of its log ([RaftRuns] has a run where one does).  A snapshot that
    a peer holds, stores, sends or hands over is one that a service made for that
    index.  In the runs of [reach_log] each service gets command after command, from
    any moment until its peer is restarted.  Further recovery after a crash, ordered
    indices, and the functional behaviour of the log
    operations on every branch: acceptance, conflict hints, merging,
    retransmission, the commit rule, snapshots on both sides.  The harness: its
    checks pass in these runs, its wiring, its restarts.  The harnesses of the
    services: a restarted server has what was stored when the old one was shut
    down, the leader is cut off with a minority, clerks reach the servers of a
    group by the names its [joinm] published.  The network: a call
    runs its handler at most once, a deleted server is silent, a reliable
    network answers, and what ends the process.  Refinement: replicated servers
    against a log, the single server against its history, bit sets against sets,
    snapshots and restarts.  Equivalence: a MapReduce job, step by step with workers that
    may be killed at any point, with the sequential program, [CheckOperations]
    and [CheckEvents] with linearizability.  Termination and
    liveness: the clerks, the checker, the commit loop.

    The history in [RaftGhost] is not part of the program: it remembers the log
    of the leader of each term, what each peer accepted in a term, and the log a
    candidate stood with, which the proofs need and the peers forget.

    ** Not modelled

    Real time beyond the timeouts; the text of the page of HTML and JavaScript
    around the data of the visualization, which is an argument; the draws of
    names and seeds, the test for one CPU and the printed lines of the
    harnesses; how plugins are loaded, and files and processes beyond their
    names, contents and order. *)
From stdpp Require Import base gmap list strings fin_maps.
From Stdlib Require Import ZArith Lia.
From Stdlib Require Import Strings.Byte.

Declare Scope go_scope.
Delimit Scope go_scope with go.
Open Scope Z_scope.

(** ** Record update

    Go assigns the fields of a struct one by one.  [Upd get] says how the
    field read by [get] is assigned; [r <| get := v |>] is the assignment
    [r.get = v]. *)
Class Upd {R E : Type} (get : R → E) := upd : E → R → R.
Arguments upd {R E} get {_} _ _.

Notation "r <| get := v |>" := (upd get v r)
  (at level 12, left associativity, get at next level, v at level 200,
   format "r  <| get  :=  v |>") : go_scope.
Open Scope go_scope.

(** ** Go slices

    A slice is a list; [len] is its length as an [int].  Reading out of range
    panics in Go, so a read is an [option]. *)
Definition len {A} (l : list A) : Z := Z.of_nat (length l).

Definition at_index {A} (l : list A) (i : Z) : option A :=
  if decide (i < 0) then None else l !! Z.to_nat i.

Definition slice_to {A} (l : list A) (i : Z) : list A := take (Z.to_nat i) l.
Definition slice_from {A} (l : list A) (i : Z) : list A := drop (Z.to_nat i) l.

(** Bytes, as [encoding/gob] writes them. *)
Notation bytes := (list Byte.byte).

Lemma at_index_Some {A} (l : list A) i x :
  at_index l i = Some x ↔ 0 <= i ∧ l !! Z.to_nat i = Some x.
Proof.
  unfold at_index. case_decide.
  - split; [done|lia].
  - split; [intros; split; [lia|done]|by intros [_ ?]].
Qed.

Lemma at_index_lt {A} (l : list A) i : 0 <= i < len l → is_Some (at_index l i).
Proof.
  intros [? ?]. unfold at_index, len in *. rewrite decide_False by lia.
  apply lookup_lt_is_Some. lia.
Qed.

Lemma at_index_inv {A} (l : list A) i x : at_index l i = Some x → 0 <= i < len l.
Proof. intros [? Hl%lookup_lt_Some]%at_index_Some. unfold len. lia. Qed.

Lemma at_index_slice_from {A} (l : list A) k i :
  0 <= k → 0 <= i → at_index (slice_from l k) i = at_index l (k + i).
Proof.
  intros. unfold at_index, slice_from. rewrite !decide_False by lia.
  rewrite lookup_drop. f_equal. lia.
Qed.

Lemma at_index_cons {A} (x : A) l i :
  0 < i → at_index (x :: l) i = at_index l (i - 1).
Proof.
  intros. unfold at_index. rewrite !decide_False by lia.
  replace (Z.to_nat i) with (S (Z.to_nat (i - 1))) by lia. done.
Qed.

Lemma len_app {A} (l1 l2 : list A) : len (l1 ++ l2) = len l1 + len l2.
Proof. unfold len. rewrite length_app. lia. Qed.

Lemma len_cons {A} (x : A) l : len (x :: l) = 1 + len l.
Proof. unfold len. cbn [length]. lia. Qed.

Lemma len_nonneg {A} (l : list A) : 0 <= len l.
Proof. unfold len. lia. Qed.

Lemma len_slice_from_list {A} (l : list A) k :
  0 <= k <= len l → len (slice_from l k) = len l - k.
Proof. unfold len, slice_from. intros. rewrite length_drop. lia. Qed.

Create HintDb go discriminated.
#[export] Hint Resolve at_index_lt len_nonneg : go.
#[export] Hint Rewrite @len_app @len_cons : go.

(** Arithmetic after the lengths of the slices were computed. *)
Ltac go_lia := autorewrite with go in *; unfold len in *; cbn [length] in *; lia.

(** ** Machine integers *)
Definition wrap64 (z : Z) : Z :=
  (z + 2 ^ 63) mod 2 ^ 64 - 2 ^ 63.

(** Integer division of Go truncates toward zero. *)
Definition go_div (a b : Z) : Z := Z.quot a b.

(** ** Filters *)
Lemma filter_ext_in {A} (P Q : A → Prop) `{∀ x, Decision (P x), ∀ x, Decision (Q x)} (l : list A) :
  (∀ x, x ∈ l → P x ↔ Q x) → filter P l = filter Q l.
Proof.
  induction l as [|x l IH]; intros Hl; [done|].
  rewrite !filter_cons, IH by (intros; apply Hl; by right).
  assert (P x ↔ Q x) as Hx by (apply Hl; left). repeat case_decide; tauto.
Qed.

(** ** Outcomes *)

(** What running a piece of code gives: a result, a panic, or not yet anything. *)
Inductive outcome (A : Type) := Returned (a : A) | Panicked | Running.
Arguments Returned {A} a.
Arguments Panicked {A}.
Arguments Running {A}.

Definition outcome_bind {A B} (o : outcome A) (f : A → outcome B) : outcome B :=
  match o with Returned a => f a | Panicked => Panicked | Running => Running end.

Definition or_panic {A} (o : option A) : outcome A :=
  match o with Some a => Returned a | None => Panicked end.
