(* ===== verification/Labgob.v ===== *)
(** * Labgob: the codec interface of [src/src/labgob/labgob.go]

    [labgob] wraps the standard library's [encoding/gob]: [Encode] and
    [Decode] hand the value to gob after printing warnings about field names.
    A buffer to which one encoder wrote the values [v1, ..., vn] in turn is a
    stream of type [A], the tuple of those values.  gob itself is a parameter:
    [GobStream A] gives the two functions, and [GobLaws A] is what the callers
    rely on, that decoding what was encoded gives the values back and that the
    buffer of an encoding is not empty. *)
From S2P Require Import Prelude.
From stdpp Require Import base countable list.
From Stdlib Require Import ZArith Lia.
From Stdlib Require Import Strings.Byte.

Class GobStream (A : Type) := {
  Encode : A → bytes;
  Decode : bytes → option A
}.

Class GobLaws (A : Type) `{GobStream A} : Prop := {
  Decode_Encode : ∀ v : A, Decode (Encode v) = Some v;
  Encode_nonempty : ∀ v : A, Encode v ≠ []
}.

(** ** A concrete codec

    Any countable type has one: the positive that names the value, in binary,
    least significant digit first, after a header byte.  The witnesses run the
    models with it. *)
Section CountableCodec.
Context {A : Type} `{Countable A}.

Fixpoint pos_to_bytes (p : positive) : bytes :=
  match p with
  | xH => []
  | xO p' => Byte.x00 :: pos_to_bytes p'
  | xI p' => Byte.x01 :: pos_to_bytes p'
  end.

Fixpoint bytes_to_pos (b : bytes) : positive :=
  match b with
  | [] => xH
  | Byte.x00 :: b' => xO (bytes_to_pos b')
  | _ :: b' => xI (bytes_to_pos b')
  end.

Definition countable_stream : GobStream A := {|
  Encode v := Byte.x2a :: pos_to_bytes (encode v);
  Decode b := match b with [] => None | _ :: b' => decode (bytes_to_pos b') end
|}.

Lemma bytes_pos_roundtrip p : bytes_to_pos (pos_to_bytes p) = p.
Proof. induction p; simpl; congruence. Qed.

Lemma countable_stream_laws : @GobLaws A countable_stream.
Proof.
  split; simpl; [|done]. intros v. by rewrite bytes_pos_roundtrip, decode_encode.
Qed.
End CountableCodec.
