(* ===== verification/LabgobCheck.v ===== *)
(** * LabgobCheck: the warnings of [src/src/labgob/labgob.go]

    Before a value goes to [encoding/gob], [labgob] walks over its type and
    complains about field names gob would skip ([checkType]); before gob decodes
    into a variable, it walks over the variable and warns when it is not zero
    ([checkDefault1]).  The walk over types ends on recursive types because of
    the package variable [checked], the walk over values, which may be cyclic
    through pointers, because it stops at depth 3.

    Package [reflect] is modelled as far as it is used: the types of the program
    are a table, so that recursive types are finite, memory maps locations to
    values, and a [reflect.Value] comes with the flag that forbids [Interface]
    on what was reached through an unexported field.  A call is one function: [checkType]
    unlocks [mu] before it prints and goes on, so that calls of several goroutines
    could be mixed there; they are taken one after the other.  The tables of
    [unicode.IsUpper] and gob itself are parameters. *)
From S2P Require Import Prelude.
From stdpp Require Import base gmap sets strings option list.
From Stdlib Require Import ZArith Lia Ascii.

#[local] Open Scope Z_scope.
#[local] Open Scope go_scope.

(** ** Types, values and names *)
Notation typ := nat (only parsing).
Notation loc := nat (only parsing).

Record StructField := mkField { Field_Name : string; Field_Type : typ; Anonymous : bool }.

Inductive Kind :=
| Struct (fields : list StructField)
| Slice (elem : typ)
| Array (elem : typ)
| Ptr (elem : typ)
| Map (key elem : typ)
| Basic       (* booleans, integers, floats, strings *)
| OtherKind.  (* interfaces, functions, channels, complex numbers *)

Record Type_ := mkType { Type_Name : string; Type_Kind : Kind }.

(** A basic value; a float by the bits of its 64-bit form. *)
Inductive scalar :=
| SBool (b : bool)
| SInt (z : Z)
| SFloat (bits : Z)
| SString (s : string).

(** [reflect.DeepEqual(reflect.Zero(t).Interface(), value.Interface())] *)
Definition is_zero (s : scalar) : bool :=
  match s with
  | SBool b => negb b
  | SInt z => z =? 0
  | SFloat bits => (bits =? 0) || (bits =? 2 ^ 63)
  | SString s => bool_decide (s = "")
  end.

(** A value with its type.  A struct has its fields in order, an interface the
    value in it; what slices, arrays, maps and the rest hold is not looked at. *)
Inductive value :=
| VStruct (t : typ) (fields : list (StructField * value))
| VPtr (t : typ) (p : option loc)
| VBasic (t : typ) (s : scalar)
| VInterface (t : typ) (dyn : option value)
| VOther (t : typ).

Definition value_Type (v : value) : typ :=
  match v with
  | VStruct t _ | VPtr t _ | VBasic t _ | VInterface t _ | VOther t => t
  end.

(** What an [interface{}] holds; [None] is nil. *)
Notation iface := (option value).

(** [utf8.DecodeRuneInString], the rune only; 0xFFFD is [utf8.RuneError]. *)
Definition byte_in (s : string) (i : nat) (lo hi : Z) : option Z :=
  match String.get i s with
  | Some c => let b := Z.of_nat (nat_of_ascii c) in
              if (lo <=? b) && (b <=? hi) then Some b else None
  | None => None
  end.

Definition RuneError : Z := 65533.

Definition DecodeRune (s : string) : Z :=
  let cont i := Z.land 63 <$> byte_in s i 128 191 in
  let two b := c1 ← cont 1%nat; Some (Z.shiftl (Z.land b 31) 6 + c1) in
  let three b lo hi :=
    c1 ← Z.land 63 <$> byte_in s 1 lo hi; c2 ← cont 2%nat;
    Some (Z.shiftl (Z.land b 15) 12 + Z.shiftl c1 6 + c2) in
  let four b lo hi :=
    c1 ← Z.land 63 <$> byte_in s 1 lo hi; c2 ← cont 2%nat; c3 ← cont 3%nat;
    Some (Z.shiftl (Z.land b 7) 18 + Z.shiftl c1 12 + Z.shiftl c2 6 + c3) in
  match byte_in s 0 0 255 with
  | None => RuneError
  | Some b =>
      default RuneError
        (if b <? 128 then Some b
         else if b <? 194 then None
         else if b <? 224 then two b
         else if b <? 240 then
           three b (if b =? 224 then 160 else 128) (if b =? 237 then 159 else 191)
         else if b <? 245 then
           four b (if b =? 240 then 144 else 128) (if b =? 244 then 143 else 191)
         else None)
  end.

(** ** The state of the package *)
Inductive message :=
| LowerCaseField (field type : string)
| NonDefault (what : string).

Record labgob := mkLabgob {
  errorCount : Z;
  checked : option (gset typ);
  printed : list message
}.

#[export] Instance upd_errorCount : Upd errorCount :=
  fun x r => mkLabgob x (checked r) (printed r).
#[export] Instance upd_checked : Upd checked :=
  fun x r => mkLabgob (errorCount r) x (printed r).
#[export] Instance upd_printed : Upd printed :=
  fun x r => mkLabgob (errorCount r) (checked r) x.

Definition labgob_init : labgob := mkLabgob 0 None [].

(** What a lookup in [checked] sees; a nil map holds nothing. *)
Definition checked_set (st : labgob) : gset typ := default ∅ (checked st).

Section Check.
Context (types : gmap typ Type_) (IsUpper : Z → bool).

Definition lower_case (f : StructField) : bool := negb (IsUpper (DecodeRune (Field_Name f))).

(** ** [checkType] *)
Definition complain (ty : Type_) (f : StructField) (st : labgob) : labgob :=
  if lower_case f then
    st <| printed := printed st ++ [LowerCaseField (Field_Name f) (Type_Name ty)] |>
       <| errorCount := errorCount st + 1 |>
  else st.

Fixpoint checkFields (check : typ → labgob → outcome labgob) (ty : Type_)
    (fields : list StructField) (st : labgob) : outcome labgob :=
  match fields with
  | [] => Returned st
  | f :: fields =>
      outcome_bind (check (Field_Type f) (complain ty f st)) (checkFields check ty fields)
  end.

Fixpoint checkType (fuel : nat) (t : typ) (st : labgob) {struct fuel} : outcome labgob :=
  match fuel with
  | O => Running
  | S fuel =>
      match types !! t with
      | None => Panicked
      | Some ty =>
          if decide (t ∈ checked_set st) then Returned (st <| checked := Some (checked_set st) |>)
          else
            let st := st <| checked := Some ({[t]} ∪ checked_set st) |> in
            match Type_Kind ty with
            | Struct fields => checkFields (checkType fuel) ty fields st
            | Slice elem | Array elem | Ptr elem => checkType fuel elem st
            | Map key elem => outcome_bind (checkType fuel elem st) (checkType fuel key)
            | Basic | OtherKind => Returned st
            end
      end
  end.

(** [reflect.TypeOf(nil)] is a nil [reflect.Type], whose [Kind] panics.  The
    recursion is at most as deep as there are types. *)
Definition check_fuel : nat := S (size types).

Definition checkValue (e : iface) (st : labgob) : outcome labgob :=
  match e with
  | None => Panicked
  | Some v => checkType check_fuel (value_Type v) st
  end.

(** ** [checkDefault] *)

(** The flags a [reflect.Value] gets from an unexported field: lost at the next
    field if the unexported field was embedded, kept otherwise. *)
Inductive flagRO := NotRO | EmbedRO | StickyRO.

Definition Field_flag (fl : flagRO) (f : StructField) : flagRO :=
  match fl with
  | StickyRO => StickyRO
  | NotRO | EmbedRO =>
      if lower_case f then if Anonymous f then EmbedRO else StickyRO else NotRO
  end.

(** [value.Interface()] *)
Definition Interface (fl : flagRO) (v : value) : outcome iface :=
  match fl with
  | NotRO => Returned (match v with VInterface _ dyn => dyn | _ => Some v end)
  | EmbedRO | StickyRO => Panicked
  end.

Definition type_name (t : typ) : string := default "" (Type_Name <$> types !! t).

(** The locked part of the case of the basic kinds. *)
Definition warn_default (t : typ) (name : string) (st : labgob) : labgob :=
  let st := if errorCount st <? 1 then
              let what := if bool_decide (name = "") then type_name t else name in
              st <| printed := printed st ++ [NonDefault what] |>
            else st in
  st <| errorCount := errorCount st + 1 |>.

Definition field_name (name : string) (f : StructField) : string :=
  if bool_decide (name = "") then Field_Name f
  else String.append name (String.append "." (Field_Name f)).

Fixpoint checkDefaultFields (check : flagRO → value → string → labgob → outcome labgob)
    (fl : flagRO) (name : string) (fields : list (StructField * value)) (st : labgob)
    : outcome labgob :=
  match fields with
  | [] => Returned st
  | (f, vv) :: fields =>
      outcome_bind (check (Field_flag fl f) vv (field_name name f) st)
        (checkDefaultFields check fl name fields)
  end.

Fixpoint checkDefault1 (fuel : nat) (mem : loc → value) (depth : Z) (fl : flagRO)
    (v : value) (name : string) (st : labgob) {struct fuel} : outcome labgob :=
  match fuel with
  | O => Running
  | S fuel =>
      if 3 <? depth then Returned st
      else
        match v with
        | VStruct _ fields =>
            checkDefaultFields (checkDefault1 fuel mem (depth + 1)) fl name fields st
        | VPtr _ None => Returned st
        | VPtr _ (Some l) => checkDefault1 fuel mem (depth + 1) fl (mem l) name st
        | VBasic t s =>
            outcome_bind (Interface fl v) (fun _ =>
              Returned (if is_zero s then st else warn_default t name st))
        | VInterface _ _ | VOther _ => Returned st
        end
  end.

Definition default_fuel : nat := 4.

Definition checkDefault (mem : loc → value) (e : iface) (st : labgob) : outcome labgob :=
  match e with
  | None => Returned st
  | Some v => checkDefault1 default_fuel mem 1 NotRO v "" st
  end.

(** ** The exported functions *)
Section Gob.
Context {W EncG DecG Err : Type}.
Context (gob_NewEncoder : W → EncG) (gob_NewDecoder : W → DecG).
Context (gob_Encode : (loc → value) → iface → EncG → EncG * Err).
Context (gob_EncodeValue : (loc → value) → value → EncG → EncG * Err).
Context (gob_Decode : (loc → value) → iface → DecG → DecG * Err).

Record LabEncoder := { enc_gob : EncG }.
Record LabDecoder := { dec_gob : DecG }.

Definition NewEncoder (w : W) : LabEncoder := {| enc_gob := gob_NewEncoder w |}.
Definition NewDecoder (r : W) : LabDecoder := {| dec_gob := gob_NewDecoder r |}.

Definition Encoder_Encode (enc : LabEncoder) (mem : loc → value) (e : iface) (st : labgob)
    : outcome (labgob * LabEncoder * Err) :=
  outcome_bind (checkValue e st) (fun st =>
    let '(g, err) := gob_Encode mem e (enc_gob enc) in Returned (st, {| enc_gob := g |}, err)).

Definition Decoder_Decode (dec : LabDecoder) (mem : loc → value) (e : iface) (st : labgob)
    : outcome (labgob * LabDecoder * Err) :=
  outcome_bind (checkValue e st) (fun st =>
    outcome_bind (checkDefault mem e st) (fun st =>
      let '(g, err) := gob_Decode mem e (dec_gob dec) in Returned (st, {| dec_gob := g |}, err))).

Definition EncodeValue (enc : LabEncoder) (mem : loc → value) (fl : flagRO) (v : value)
    (st : labgob) : outcome (labgob * LabEncoder * Err) :=
  outcome_bind (Interface fl v) (fun e =>
    outcome_bind (checkValue e st) (fun st =>
      let '(g, err) := gob_EncodeValue mem v (enc_gob enc) in
      Returned (st, {| enc_gob := g |}, err))).
End Gob.

(** The registry of gob: names and the values registered under them. *)
Definition Register {G : Type} (gob_Register : iface → G → G) (e : iface) (st : labgob) (g : G)
    : outcome (labgob * G) :=
  outcome_bind (checkValue e st) (fun st => Returned (st, gob_Register e g)).

Definition RegisterName {G : Type} (gob_RegisterName : string → iface → G → G) (name : string)
    (e : iface) (st : labgob) (g : G) : outcome (labgob * G) :=
  outcome_bind (checkValue e st) (fun st => Returned (st, gob_RegisterName name e g)).

(** ** The types a type is made of *)
Definition components (k : Kind) : list typ :=
  match k with
  | Struct fields => Field_Type <$> fields
  | Slice elem | Array elem | Ptr elem => [elem]
  | Map key elem => [elem; key]
  | Basic | OtherKind => []
  end.

Definition component (t t' : typ) : Prop :=
  ∃ ty, types !! t = Some ty ∧ t' ∈ components (Type_Kind ty).

(** The complaints a type deserves. *)
Definition complaints (ty : Type_) : list message :=
  match Type_Kind ty with
  | Struct fields =>
      (fun f => LowerCaseField (Field_Name f) (Type_Name ty)) <$> filter lower_case fields
  | _ => []
  end.

Definition complaints_at (t : typ) : list message :=
  default [] (complaints <$> types !! t).

Definition closed (C : gset typ) : Prop := ∀ t t', t ∈ C → component t t' → t' ∈ C.

(** The program's table has every type that occurs in one of its types. *)
Definition table_closed : Prop := ∀ t t', component t t' → is_Some (types !! t').

(** *** What one walk does

    [walked extra ts st st']: from [st] to [st'] the types [ts] were looked at,
    and the messages [extra] were printed besides those of new types. *)
Record walked (extra : list message) (ts : list typ) (st st' : labgob) : Prop := {
  walked_keeps : checked_set st ⊆ checked_set st';
  walked_roots : ∀ t, t ∈ ts → t ∈ checked_set st';
  walked_reach : ∀ t, t ∈ checked_set st' →
    t ∈ checked_set st ∨ ∃ r, r ∈ ts ∧ rtc component r t;
  walked_closed : ∀ t t', t ∈ checked_set st' → t ∉ checked_set st →
    component t t' → t' ∈ checked_set st';
  walked_messages : ∃ ms, printed st' = printed st ++ ms ∧
    ms ≡ₚ extra ++ (elements (checked_set st' ∖ checked_set st) ≫= complaints_at);
  walked_count : errorCount st' - errorCount st = len (printed st') - len (printed st)
}.

Lemma elements_difference_split (A B C : gset typ) :
  A ⊆ B → B ⊆ C → elements (C ∖ A) ≡ₚ elements (B ∖ A) ++ elements (C ∖ B).
Proof.
  intros HAB HBC. replace (C ∖ A) with ((B ∖ A) ∪ (C ∖ B)).
  - apply elements_disj_union. set_solver.
  - apply set_eq. intros x. destruct (decide (x ∈ B)); set_solver.
Qed.

Lemma walked_refl st st' :
  checked_set st' = checked_set st → printed st' = printed st → errorCount st' = errorCount st →
  walked [] [] st st'.
Proof.
  intros Hc Hp He. split; rewrite ?Hc, ?Hp, ?He; try set_solver; try lia.
  exists []. rewrite app_nil_r, difference_diag_L, elements_empty. done.
Qed.

Lemma walked_more x ts st st' :
  walked x [] st st' → (∀ t, t ∈ ts → t ∈ checked_set st') → walked x ts st st'.
Proof.
  intros [] Hts. split; try done.
  intros t Ht. destruct (walked_reach0 t Ht) as [|(r & ? & ?)]; [by left|set_solver].
Qed.

Lemma walked_trans x1 x2 ts1 ts2 st1 st2 st3 :
  walked x1 ts1 st1 st2 → walked x2 ts2 st2 st3 → walked (x1 ++ x2) (ts1 ++ ts2) st1 st3.
Proof.
  intros W1 W2. pose proof (walked_keeps _ _ _ _ W1). pose proof (walked_keeps _ _ _ _ W2). split.
  - set_solver.
  - intros t [Ht|Ht]%elem_of_app; [|by apply (walked_roots _ _ _ _ W2)].
    pose proof (walked_roots _ _ _ _ W1 t Ht). set_solver.
  - intros t [[?|(r & ? & ?)]%(walked_reach _ _ _ _ W1)|(r & ? & ?)]%(walked_reach _ _ _ _ W2);
      [by left| |]; right; exists r; rewrite elem_of_app; tauto.
  - intros t t' Ht Hn Hc. destruct (decide (t ∈ checked_set st2)) as [H2|H2].
    + pose proof (walked_closed _ _ _ _ W1 t t' H2 Hn Hc). set_solver.
    + by apply (walked_closed _ _ _ _ W2 t).
  - destruct (walked_messages _ _ _ _ W1) as (m1 & E1 & P1).
    destruct (walked_messages _ _ _ _ W2) as (m2 & E2 & P2).
    exists (m1 ++ m2). rewrite E2, E1, app_assoc. split; [done|].
    rewrite P1, P2, (elements_difference_split (checked_set st1) (checked_set st2) (checked_set st3)) by done.
    rewrite bind_app, <- !app_assoc. 
    apply Permutation_app_head, Permutation_app_swap_app.
  - pose proof (walked_count _ _ _ _ W1). pose proof (walked_count _ _ _ _ W2). lia.
Qed.

Lemma walked_complain ty f st :
  walked (if lower_case f then [LowerCaseField (Field_Name f) (Type_Name ty)] else []) []
    st (complain ty f st).
Proof.
  unfold complain. destruct (lower_case f); [|by apply walked_refl].
  split; cbn; try set_solver; [|rewrite len_app; unfold len; cbn; lia].
  eexists. rewrite difference_diag_L, elements_empty. done.
Qed.

(** A type that was marked, whose components were then walked over. *)
Lemma walked_mark t ty st st' :
  types !! t = Some ty → t ∉ checked_set st →
  walked (complaints ty) (components (Type_Kind ty))
    (st <| checked := Some ({[t]} ∪ checked_set st) |>) st' →
  walked [] [t] st st'.
Proof.
  intros Hty Hn W. destruct W as [Wk Wr Wre Wc (ms & Hp & Hm) We]; cbn in *.
  split; try done.
  - set_solver.
  - set_solver.
  - intros x Hx. destruct (Wre x Hx) as [[->%elem_of_singleton|?]%elem_of_union|(r & Hr & Hrx)].
    + right. exists t. split; [left|]; reflexivity.
    + by left.
    + right. exists t. split; [left|]. eapply rtc_l; [|done]. by exists ty.
  - intros x x' Hx Hnx Hc. destruct (decide (x = t)) as [->|].
    + destruct Hc as (ty' & ? & ?). simplify_eq. by apply Wr.
    + apply (Wc x); [done|set_solver|done].
  - exists ms. split; [done|]. rewrite Hm.
    rewrite (elements_difference_split (checked_set st) ({[t]} ∪ checked_set st) (checked_set st')) by set_solver.
    replace (({[t]} ∪ checked_set st) ∖ checked_set st) with ({[t]} : gset typ) by set_solver.
    assert (complaints_at t = complaints ty) as Hct by (unfold complaints_at; by rewrite Hty).
    rewrite elements_singleton, bind_app. cbn. by rewrite Hct, app_nil_r.
Qed.

(** *** The walk ends and does this

    Each nested call marks one more type. *)
Definition unchecked (st : labgob) : nat := size (dom types ∖ checked_set st).

Definition check_ok (fuel : nat) (check : typ → labgob → outcome labgob) : Prop :=
  ∀ t st, is_Some (types !! t) → (unchecked st < fuel)%nat →
  ∃ st', check t st = Returned st' ∧ walked [] [t] st st'.

Lemma unchecked_le st st' : checked_set st ⊆ checked_set st' → (unchecked st' ≤ unchecked st)%nat.
Proof. intros. unfold unchecked. apply subseteq_size. set_solver. Qed.

Lemma unchecked_mark t st :
  is_Some (types !! t) → t ∉ checked_set st →
  (unchecked (st <| checked := Some ({[t]} ∪ checked_set st) |>) < unchecked st)%nat.
Proof.
  intros Ht Hn. unfold unchecked. cbn. apply subset_size.
  apply elem_of_dom in Ht. set_solver.
Qed.

Lemma checkFields_walked fuel check ty fields st :
  check_ok fuel check → (unchecked st < fuel)%nat →
  (∀ f, f ∈ fields → is_Some (types !! Field_Type f)) →
  ∃ st', checkFields check ty fields st = Returned st' ∧
    walked ((fun f => LowerCaseField (Field_Name f) (Type_Name ty)) <$> filter lower_case fields)
      (Field_Type <$> fields) st st'.
Proof.
  intros Hck. revert st. induction fields as [|f fields IH]; intros st Hst Hf.
  - exists st. split; [done|]. by apply walked_refl.
  - pose proof (walked_complain ty f st) as W1.
    destruct (Hck (Field_Type f) (complain ty f st)) as (st1 & E1 & W2).
    { apply Hf. left. }
    { eapply Nat.le_lt_trans; [|exact Hst]. apply unchecked_le, W1. }
    pose proof (walked_trans _ _ _ _ _ _ _ W1 W2) as W12.
    destruct (IH st1) as (st' & E2 & W3).
    { eapply Nat.le_lt_trans; [|exact Hst]. apply unchecked_le, W12. }
    { intros g Hg. apply Hf. by right. }
    exists st'. cbn [checkFields]. rewrite E1. cbn [outcome_bind]. split; [done|].
    pose proof (walked_trans _ _ _ _ _ _ _ W12 W3) as W. rewrite !app_nil_r in W.
    rewrite filter_cons, fmap_cons. destruct (lower_case f); cbn in *; done.
Qed.

Lemma checkType_walked fuel : table_closed → check_ok fuel (checkType fuel).
Proof.
  intros Htab. induction fuel as [|fuel IH]; intros t st [ty Hty] Hfuel; [lia|].
  cbn [checkType]. rewrite Hty. case_decide as Ht.
  - eexists. split; [done|]. apply walked_more; [by apply walked_refl|]. cbn. set_solver.
  - pose proof (unchecked_mark t st (mk_is_Some _ _ Hty) Ht) as Hm.
    set (st1 := st <| checked := _ |>) in *.
    assert (∀ t', t' ∈ components (Type_Kind ty) → is_Some (types !! t')) as Hc
      by (intros; eapply Htab; by exists ty).
    assert (unchecked st1 < fuel)%nat as Hf1 by lia.
    cut (∃ st', match Type_Kind ty with
      | Struct fields => checkFields (checkType fuel) ty fields st1
      | Slice elem | Array elem | Ptr elem => checkType fuel elem st1
      | Map key elem => outcome_bind (checkType fuel elem st1) (checkType fuel key)
      | Basic | OtherKind => Returned st1 end = Returned st' ∧
      walked (complaints ty) (components (Type_Kind ty)) st1 st').
    { intros (st' & E & W). exists st'. split; [done|]. by eapply walked_mark. }
    unfold complaints. destruct (Type_Kind ty) as [fields|e|e|e|key e| |]; cbn in Hc.
    + apply (checkFields_walked fuel); [done..|]. intros f Hf. apply Hc, list_elem_of_fmap. eauto.
    + apply IH; [apply Hc; left|done].
    + apply IH; [apply Hc; left|done].
    + apply IH; [apply Hc; left|done].
    + destruct (IH e st1) as (st2 & E2 & W2); [apply Hc; left|done|].
      destruct (IH key st2) as (st3 & E3 & W3); [apply Hc; right; left| |].
      { pose proof (unchecked_le _ _ (walked_keeps _ _ _ _ W2)). lia. }
      exists st3. rewrite E2. cbn. split; [done|]. apply (walked_trans _ _ _ _ _ _ _ W2 W3).
    + exists st1. split; [done|]. by apply walked_refl.
    + exists st1. split; [done|]. by apply walked_refl.
Qed.

Lemma unchecked_fuel st : (unchecked st < check_fuel)%nat.
Proof.
  unfold unchecked, check_fuel. pose proof (size_dom (D := gset typ) types) as Hs.
  pose proof (subseteq_size (dom types ∖ checked_set st) (dom types)
    (subseteq_difference_l _ _ _ (reflexivity _))). lia.
Qed.

Lemma checkValue_walked v st :
  table_closed → is_Some (types !! value_Type v) →
  ∃ st', checkValue (Some v) st = Returned st' ∧ walked [] [value_Type v] st st'.
Proof. intros Ht Hv. apply (checkType_walked _ Ht); [done|apply unchecked_fuel]. Qed.

(** From a closed set of checked types, the new ones are those reachable. *)
Lemma walked_checked t st st' :
  closed (checked_set st) → walked [] [t] st st' →
  closed (checked_set st') ∧
  ∀ x, x ∈ checked_set st' ↔ x ∈ checked_set st ∨ rtc component t x.
Proof.
  intros Hc W. assert (closed (checked_set st')) as Hc'.
  { intros x x' Hx Hxx'. destruct (decide (x ∈ checked_set st)) as [Hin|Hout].
    - apply (walked_keeps _ _ _ _ W). by eapply Hc.
    - by eapply (walked_closed _ _ _ _ W). }
  split; [done|]. intros x. split.
  - intros [?|(r & ->%list_elem_of_singleton & ?)]%(walked_reach _ _ _ _ W); auto.
  - intros [Hx|Hx]; [by apply (walked_keeps _ _ _ _ W)|].
    assert (t ∈ checked_set st') as Ht by (apply (walked_roots _ _ _ _ W); left).
    clear W. induction Hx as [|a b c Hab _ IH]; [done|]. by apply IH, (Hc' a).
Qed.

(** *** The walk over a value

    The basic values at most three levels deep, in the order of the walk, with
    the flag and the name each is reached with. *)
Record leaf := mkLeaf { leaf_flag : flagRO; leaf_type : typ; leaf_name : string; leaf_scalar : scalar }.

Fixpoint leaves (levels : nat) (mem : loc → value) (fl : flagRO) (v : value) (name : string)
    : list leaf :=
  match levels with
  | O => []
  | S levels =>
      match v with
      | VStruct _ fields =>
          fields ≫= fun fv => leaves levels mem (Field_flag fl fv.1) fv.2 (field_name name fv.1)
      | VPtr _ (Some l) => leaves levels mem fl (mem l) name
      | VBasic t s => [mkLeaf fl t name s]
      | VPtr _ None | VInterface _ _ | VOther _ => []
      end
  end.

Definition visit (l : leaf) (st : labgob) : outcome labgob :=
  match leaf_flag l with
  | NotRO => Returned (if is_zero (leaf_scalar l) then st
                       else warn_default (leaf_type l) (leaf_name l) st)
  | EmbedRO | StickyRO => Panicked
  end.

Fixpoint visit_all (ls : list leaf) (st : labgob) : outcome labgob :=
  match ls with
  | [] => Returned st
  | l :: ls => outcome_bind (visit l st) (visit_all ls)
  end.

Lemma visit_all_app l1 l2 st :
  visit_all (l1 ++ l2) st = outcome_bind (visit_all l1 st) (visit_all l2).
Proof.
  revert st. induction l1 as [|l l1 IH]; intros st; [done|]. cbn.
  destruct (visit l st); cbn; [apply IH|done|done].
Qed.

Lemma checkDefault1_leaves levels mem depth fl v name st :
  depth = 4 - Z.of_nat levels →
  checkDefault1 (S levels) mem depth fl v name st = visit_all (leaves levels mem fl v name) st.
Proof.
  revert depth fl v name st. induction levels as [|n IH]; intros depth fl v name st Hd.
  - cbn. by rewrite (proj2 (Z.ltb_lt 3 depth)) by lia.
  - change (checkDefault1 (S (S n)) mem depth fl v name st) with
      (if 3 <? depth then Returned st
       else match v with
        | VStruct _ fields =>
            checkDefaultFields (checkDefault1 (S n) mem (depth + 1)) fl name fields st
        | VPtr _ None => Returned st
        | VPtr _ (Some l) => checkDefault1 (S n) mem (depth + 1) fl (mem l) name st
        | VBasic t s =>
            outcome_bind (Interface fl v) (fun _ =>
              Returned (if is_zero s then st else warn_default t name st))
        | VInterface _ _ | VOther _ => Returned st
        end).
    rewrite (proj2 (Z.ltb_ge 3 depth)) by lia.
    destruct v as [t fields|t [l|]|t s|t d|t]; cbn [leaves]; try done.
    + revert st. induction fields as [|[f vv] fields IHf]; intros st; [done|].
      cbn [checkDefaultFields]. rewrite bind_cons, visit_all_app, IH by lia. cbn [fst snd].
      destruct (visit_all (leaves n mem (Field_flag fl f) vv (field_name name f)) st); [|done..].
      apply IHf.
    + apply IH. lia.
    + cbn. by destruct fl.
Qed.

(** What the leaves have to do with the value: one step goes to a field or to
    what a pointer points to. *)
Inductive look (mem : loc → value) : flagRO * value → flagRO * value → Prop :=
| look_field fl t fields f vv :
    (f, vv) ∈ fields → look mem (fl, VStruct t fields) (Field_flag fl f, vv)
| look_ptr fl t l : look mem (fl, VPtr t (Some l)) (fl, mem l).

Lemma leaves_look levels mem fl v name fl' t s :
  (∃ name', mkLeaf fl' t name' s ∈ leaves levels mem fl v name) ↔
  ∃ k, (k < levels)%nat ∧ nsteps (look mem) k (fl, v) (fl', VBasic t s).
Proof.
  revert fl v name. induction levels as [|n IH]; intros fl v name; cbn [leaves].
  { split; [intros (? & []%not_elem_of_nil)|intros (? & ? & _); lia]. }
  split.
  - destruct v as [t0 fields|t0 [l|]|t0 s0|t0 d|t0]; intros (name' & Hin);
      try by apply not_elem_of_nil in Hin.
    + apply list_elem_of_bind in Hin as ([f vv] & Hin & Hf). cbn in Hin.
      destruct (proj1 (IH (Field_flag fl f) vv (field_name name f)) (ex_intro (fun x => mkLeaf fl' t x s ∈ _) name' Hin)) as (k & ? & ?).
      exists (S k). split; [lia|]. econstructor; [by apply look_field|done].
    + destruct (proj1 (IH fl (mem l) name) (ex_intro (fun x => mkLeaf fl' t x s ∈ _) name' Hin)) as (k & ? & ?).
      exists (S k). split; [lia|]. econstructor; [by apply look_ptr|done].
    + apply list_elem_of_singleton in Hin. simplify_eq. exists O. split; [lia|constructor].
  - intros (k & Hk & Hs). destruct k as [|k].
    + inversion Hs; subst. exists name. by left.
    + inversion Hs as [|? ? y ? Hl Hr]; subst. inversion Hl as [? ? ? f vv Hf|]; subst.
      * destruct (proj2 (IH (Field_flag fl f) vv (field_name name f))) as (name' & Hin);
          [exists k; split; [lia|done]|].
        exists name'. apply list_elem_of_bind. by exists (f, vv).
      * apply IH. exists k. split; [lia|done].
Qed.

(** What is warned about a leaf. *)
Definition leaf_what (l : leaf) : string :=
  if bool_decide (leaf_name l = "") then type_name (leaf_type l) else leaf_name l.

Definition nonzero (ls : list leaf) : list leaf := filter (fun l => is_zero (leaf_scalar l) = false) ls.

(** One warning, about the first, if nothing was found before. *)
Definition warning (count : Z) (bad : list leaf) : list message :=
  match bad with
  | l :: _ => if count <? 1 then [NonDefault (leaf_what l)] else []
  | [] => []
  end.

Lemma visit_all_spec ls st :
  (∀ l, l ∈ ls → leaf_flag l = NotRO) → 0 <= errorCount st →
  visit_all ls st =
    Returned (mkLabgob (errorCount st + len (nonzero ls)) (checked st)
                (printed st ++ warning (errorCount st) (nonzero ls))).
Proof.
  revert st. induction ls as [|l ls IH]; intros st Hro Hst.
  { cbn. rewrite app_nil_r, Z.add_0_r. by destruct st. }
  assert (leaf_flag l = NotRO) as Hl by (apply Hro; left).
  cbn [visit_all]. unfold visit at 1. rewrite Hl. cbn [outcome_bind].
  unfold nonzero. rewrite filter_cons. fold (nonzero ls).
  destruct (is_zero (leaf_scalar l)) eqn:Hz; case_decide; try done.
  - apply IH; [|done]. intros l' Hl'. apply Hro. by right.
  - rewrite IH; [|intros l' Hl'; apply Hro; by right|unfold warn_default; destruct (_ <? 1); cbn; lia].
    rewrite len_cons. cbn [warning]. unfold warn_default. fold (leaf_what l).
    destruct (Z.ltb_spec (errorCount st) 1); cbn [errorCount checked printed upd_errorCount upd_printed upd].
    + do 2 f_equal; [lia|]. rewrite <- app_assoc. f_equal. cbn [app]. f_equal.
      unfold warning. destruct (nonzero ls); [done|].
      by rewrite (proj2 (Z.ltb_ge _ 1)) by lia.
    + do 2 f_equal; [lia|]. f_equal.
      unfold warning. destruct (nonzero ls); [done|].
      by rewrite (proj2 (Z.ltb_ge _ 1)) by lia.
Qed.

Lemma visit_all_panics ls st :
  (∃ l, l ∈ ls ∧ leaf_flag l ≠ NotRO) → visit_all ls st = Panicked.
Proof.
  revert st. induction ls as [|l ls IH]; intros st (l' & Hin & Hl').
  { by apply not_elem_of_nil in Hin. }
  cbn [visit_all]. unfold visit. destruct (leaf_flag l) eqn:Hf; [|done..].
  apply IH. apply elem_of_cons in Hin as [->|]; [congruence|by exists l'].
Qed.

(** [reflect] refuses a basic value at depth at most 3, reached through an
    unexported field. *)
Definition refused (mem : loc → value) (v : value) : Prop :=
  ∃ k fl t s, (k < 3)%nat ∧ nsteps (look mem) k (NotRO, v) (fl, VBasic t s) ∧ fl ≠ NotRO.

Definition default_leaves (mem : loc → value) (v : value) : list leaf := leaves 3 mem NotRO v "".

Lemma checkDefault_panics mem v st : refused mem v → checkDefault mem (Some v) st = Panicked.
Proof.
  intros (k & fl & t & s & Hk & Hs & Hfl). unfold checkDefault, default_fuel.
  rewrite checkDefault1_leaves by lia. apply visit_all_panics.
  destruct (proj2 (leaves_look 3 mem NotRO v "" fl t s)) as (n & Hn);
    [by exists k|]. by exists (mkLeaf fl t n s).
Qed.

Lemma checkDefault_returns mem v st :
  ¬ refused mem v → 0 <= errorCount st →
  checkDefault mem (Some v) st =
    Returned (mkLabgob (errorCount st + len (nonzero (default_leaves mem v))) (checked st)
                (printed st ++ warning (errorCount st) (nonzero (default_leaves mem v)))).
Proof.
  intros Hr Hst. unfold checkDefault, default_fuel. rewrite checkDefault1_leaves by lia.
  apply visit_all_spec; [|done]. intros [fl t n s] Hl. cbn.
  destruct (proj1 (leaves_look 3 mem NotRO v "" fl t s)) as (k & Hk & Hs); [by exists n|].
  destruct fl; [done| |]; (destruct Hr; eexists k, _, t, s; split; [done|]; split; [exact Hs|done]).
Qed.

(** ** The package in use *)
Section Use.
Context {EncG DecG Err : Type}.
Context (gob_Encode : (loc → value) → iface → EncG → EncG * Err).
Context (gob_EncodeValue : (loc → value) → value → EncG → EncG * Err).
Context (gob_Decode : (loc → value) → iface → DecG → DecG * Err).
Context {G : Type} (gob_Register : iface → G → G) (gob_RegisterName : string → iface → G → G).

(** [ran ts st]: calls of the exported functions on values of the types [ts]
    returned and left the package in the state [st]. *)
Inductive ran : list typ → labgob → Prop :=
| ran_init : ran [] labgob_init
| ran_Encode ts st enc mem v st' enc' err :
    ran ts st → Encoder_Encode gob_Encode enc mem (Some v) st = Returned (st', enc', err) →
    ran (value_Type v :: ts) st'
| ran_EncodeValue ts st enc mem fl v w st' enc' err :
    ran ts st → Interface fl v = Returned (Some w) →
    EncodeValue gob_EncodeValue enc mem fl v st = Returned (st', enc', err) →
    ran (value_Type w :: ts) st'
| ran_Decode ts st dec mem v st' dec' err :
    ran ts st → Decoder_Decode gob_Decode dec mem (Some v) st = Returned (st', dec', err) →
    ran (value_Type v :: ts) st'
| ran_Register ts st v g st' g' :
    ran ts st → Register gob_Register (Some v) st g = Returned (st', g') →
    ran (value_Type v :: ts) st'
| ran_RegisterName ts st name v g st' g' :
    ran ts st → RegisterName gob_RegisterName name (Some v) st g = Returned (st', g') →
    ran (value_Type v :: ts) st'.

(** At most one warning, before all complaints; every type made of the types
    seen is checked, and its lower-case fields were complained about once. *)
Definition labgob_ok (ts : list typ) (st : labgob) : Prop :=
  (∀ x, x ∈ checked_set st ↔ ∃ r, r ∈ ts ∧ rtc component r x) ∧
  len (printed st) <= errorCount st ∧
  ∃ ws cs, printed st = ws ++ cs ∧ (length ws ≤ 1)%nat ∧
    (∀ m, m ∈ ws → ∃ what, m = NonDefault what) ∧
    cs ≡ₚ elements (checked_set st) ≫= complaints_at.

Lemma labgob_ok_closed ts st : labgob_ok ts st → closed (checked_set st).
Proof.
  intros (Hc & _) x x' (r & Hr & Hrx)%Hc Hxx'. apply Hc. exists r. split; [done|].
  by eapply rtc_r.
Qed.

Lemma labgob_ok_checkValue ts v st st' :
  table_closed → labgob_ok ts st → checkValue (Some v) st = Returned st' →
  labgob_ok (value_Type v :: ts) st'.
Proof.
  intros Ht Hok E.
  assert (is_Some (types !! value_Type v)) as Hv.
  { cbn in E. destruct (types !! value_Type v); [done|discriminate]. }
  destruct (checkValue_walked v st Ht Hv) as (st2 & E2 & W).
  rewrite E in E2. injection E2 as <-.
  destruct (walked_checked _ _ _ (labgob_ok_closed _ _ Hok) W) as [_ Hin].
  destruct Hok as (Hc & Hn & ws & cs & Hp & Hw & Hwm & Hcs).
  destruct (walked_messages _ _ _ _ W) as (ms & Hp' & Hms).
  pose proof (walked_count _ _ _ _ W) as He. split; [|split].
  - intros x. rewrite Hin, Hc. split.
    + intros [(r & ? & ?)|?]; [exists r; split; [by right|done]|].
      exists (value_Type v). split; [left|done].
    + intros (r & [->|?]%elem_of_cons & ?); [by right|left; by exists r].
  - lia.
  - exists ws, (cs ++ ms). rewrite Hp', Hp, app_assoc. repeat split; try done.
    rewrite Hcs, Hms. cbn [app]. rewrite <- bind_app. apply bind_Permutation.
    pose proof (walked_keeps _ _ _ _ W).
    assert (checked_set st ∪ checked_set st' ∖ checked_set st = checked_set st') as Hu.
    { apply set_eq. intros x. destruct (decide (x ∈ checked_set st)); set_solver. }
    rewrite <- Hu at 2. symmetry. apply elements_disj_union. set_solver.
Qed.

Lemma labgob_ok_checkDefault ts mem v st st' :
  labgob_ok ts st → checkDefault mem (Some v) st = Returned st' → labgob_ok ts st'.
Proof.
  intros (Hc & Hn & ws & cs & Hp & Hw & Hwm & Hcs) E. pose proof (len_nonneg (printed st)).
  assert (checkDefault mem (Some v) st ≠ Panicked → ¬ refused mem v) as Hr
    by (intros Hp1 Hr; by apply Hp1, checkDefault_panics).
  rewrite checkDefault_returns in E by (try lia; apply Hr; by rewrite E).
  injection E as <-. split; [done|]. cbn [errorCount printed checked].
  unfold warning. destruct (nonzero _) as [|l bad].
  { rewrite app_nil_r, Z.add_0_r. split; [done|]. by exists ws, cs. }
  rewrite len_app, len_cons. pose proof (len_nonneg bad).
  destruct (Z.ltb_spec (errorCount st) 1) as [H1|H1].
  - assert (printed st = []) as Hnil by (apply nil_length_inv; unfold len in *; lia).
    rewrite Hnil in Hp |- *. symmetry in Hp. apply app_eq_nil in Hp as [-> ->].
    split; [unfold len in *; cbn in *; lia|].
    eexists _, []. cbn [app]. rewrite app_nil_r. split; [done|]. split; [cbn; lia|].
    split; [|done]. intros m ->%list_elem_of_singleton. eauto.
  - rewrite app_nil_r. split; [unfold len in *; cbn in *; lia|]. by exists ws, cs.
Qed.

(** C34: After any calls of the exported functions that returned, one after the
    other, the checked
    types are exactly those the seen types are made of, recursive ones included;
    each of their lower-case fields was complained about exactly once; and at
    most one warning about a non-default value was printed, before everything
    else. *)
Theorem complaints_exact ts st : table_closed → ran ts st → labgob_ok ts st.
Proof.
  intros Ht. induction 1 as [|ts st ? ? v st' ? ? _ IH E|ts st ? ? fl v w st' ? ? _ IH HI E
    |ts st ? ? v st' ? ? _ IH E|ts st v ? st' ? _ IH E|ts st ? v ? st' ? _ IH E].
  - split; [|split; [done|exists [], []; split; [done|split; [cbn; lia|
      split; [intros m []%not_elem_of_nil|done]]]]].
    intros x. split; [intros []%not_elem_of_empty|intros (? & []%not_elem_of_nil & _)].
  - unfold Encoder_Encode in E. destruct (checkValue (Some v) st) eqn:E1; try done.
    cbn in E. destruct (gob_Encode _ _ _). simplify_eq. by eapply labgob_ok_checkValue.
  - unfold EncodeValue in E. rewrite HI in E. cbn [outcome_bind] in E.
    destruct (checkValue (Some w) st) eqn:E1; try done.
    cbn in E. destruct (gob_EncodeValue _ _ _). simplify_eq. by eapply labgob_ok_checkValue.
  - unfold Decoder_Decode in E. destruct (checkValue (Some v) st) as [st1| |] eqn:E1; try done.
    cbn [outcome_bind] in E. destruct (checkDefault _ (Some v) st1) eqn:E2; try done.
    cbn in E. destruct (gob_Decode _ _ _). simplify_eq.
    eapply labgob_ok_checkDefault; [|done]. by eapply labgob_ok_checkValue.
  - unfold Register in E. destruct (checkValue (Some v) st) eqn:E1; try done.
    cbn in E. simplify_eq. by eapply labgob_ok_checkValue.
  - unfold RegisterName in E. destruct (checkValue (Some v) st) eqn:E1; try done.
    cbn in E. simplify_eq. by eapply labgob_ok_checkValue.
Qed.

(** C35: Decode always ends.  It panics for a nil interface, which gob would
    accept, and for a variable with a basic value behind an unexported field at
    depth at most 3; for any other variable it walks over its type, counts the
    values that are not zero, warns about the first one if nothing was counted
    before, and hands the variable to gob. *)
Theorem Decode_spec dec mem e st :
  table_closed → (∀ v, e = Some v → is_Some (types !! value_Type v)) → 0 <= errorCount st →
  match e with
  | None => Decoder_Decode gob_Decode dec mem e st = Panicked
  | Some v =>
      (refused mem v → Decoder_Decode gob_Decode dec mem e st = Panicked) ∧
      (¬ refused mem v → ∃ st1, walked [] [value_Type v] st st1 ∧
        let bad := nonzero (default_leaves mem v) in
        let '(g, err) := gob_Decode mem e (dec_gob dec) in
        Decoder_Decode gob_Decode dec mem e st =
          Returned (mkLabgob (errorCount st1 + len bad) (checked st1)
                      (printed st1 ++ warning (errorCount st1) bad),
                    {| dec_gob := g |}, err))
  end.
Proof.
  intros Ht Hv Hst. destruct e as [v|]; [|done].
  destruct (checkValue_walked v st Ht (Hv v eq_refl)) as (st1 & E1 & W).
  assert (0 <= errorCount st1) as Hst1.
  { pose proof (walked_count _ _ _ _ W). destruct (walked_messages _ _ _ _ W) as (ms & Hp & _).
    rewrite Hp, len_app in *. pose proof (len_nonneg ms). lia. }
  unfold Decoder_Decode. rewrite E1. cbn [outcome_bind]. split; intros Hr.
  - by rewrite checkDefault_panics.
  - exists st1. split; [done|]. rewrite checkDefault_returns by done. cbn [outcome_bind].
    by destruct (gob_Decode mem (Some v) (dec_gob dec)).
Qed.
End Use.
End Check.

(** ** Concrete types

    [type node struct { Value int; next *node }], [type box struct { n int }]
    and [*int], with ASCII capitals. *)
Module Node.
Definition upper (r : Z) : bool := (65 <=? r) && (r <=? 90).

Definition Value : StructField := mkField "Value" 0%nat false.
Definition next : StructField := mkField "next" 2%nat false.
Definition n : StructField := mkField "n" 0%nat false.

Definition types : gmap nat Type_ :=
  {[ 0%nat := mkType "int" Basic;
     1%nat := mkType "node" (Struct [Value; next]);
     2%nat := mkType "" (Ptr 1%nat);
     3%nat := mkType "box" (Struct [n]);
     4%nat := mkType "" (Ptr 0%nat) ]}.

(** A list of one node that is its own successor, at location 0; an [int] at 1. *)
Definition node (z : Z) (p : option nat) : value :=
  VStruct 1%nat [(Value, VBasic 0%nat (SInt z)); (next, VPtr 2%nat p)].

Definition mem (l : nat) : value :=
  match l with O => node 0 (Some 0%nat) | _ => VBasic 0%nat (SInt 7) end.

Definition gob (m : nat → value) (e : option value) (g : unit) : unit * unit := (g, tt).
Definition gob_value (m : nat → value) (v : value) (g : unit) : unit * unit := (g, tt).
Definition reg (e : option value) (g : unit) : unit := g.
Definition reg_name (name : string) (e : option value) (g : unit) : unit := g.

Definition complaint : labgob := mkLabgob 1 (Some {[0; 1; 2]}%nat) [LowerCaseField "next" "node"].

Lemma table : table_closed types.
Proof.
  assert (map_Forall (fun _ ty => Forall (fun t => is_Some (types !! t)) (components (Type_Kind ty))) types)
    as H by (apply (bool_decide_eq_true _); vm_compute; reflexivity).
  intros t t' (ty & Hty & Hin). specialize (H t ty Hty). rewrite Forall_forall in H. by apply H.
Defined.

(** The walk over the recursive type ends with one complaint, and a second
    registration prints nothing. *)
Example recursive_type :
  Register types upper reg (Some (VPtr 2%nat (Some 0%nat))) labgob_init tt = Returned (complaint, tt) ∧
  Register types upper reg (Some (node 0 None)) complaint tt = Returned (complaint, tt).
Proof. split; vm_compute; reflexivity. Qed.

(** A warning names the field; the cycle is cut at depth 3. *)
Example warns_once :
  Decoder_Decode types upper gob (Build_LabDecoder tt) mem (Some (VPtr 4%nat (Some 1%nat))) labgob_init =
    Returned (mkLabgob 1 (Some {[0; 4]}%nat) [NonDefault "int"], Build_LabDecoder tt, tt).
Proof. vm_compute. reflexivity. Qed.

(** [Decode(nil)], which [checkDefault] provides for, panics in [checkValue]. *)
Example Decode_nil_panics :
  Decoder_Decode types upper gob (Build_LabDecoder tt) mem None labgob_init = Panicked ∧
  checkDefault types upper mem None labgob_init = Returned labgob_init.
Proof. split; reflexivity. Qed.

(** A lower-case field of a basic type is complained about, and then the walk
    over the variable panics. *)
Example Decode_lower_case_panics :
  Decoder_Decode types upper gob (Build_LabDecoder tt) mem
    (Some (VStruct 3%nat [(n, VBasic 0%nat (SInt 0))])) labgob_init = Panicked.
Proof. vm_compute. reflexivity. Qed.

Lemma complaints_exact_witness :
  table_closed types ∧
  ran types upper gob gob_value gob reg reg_name [2%nat] complaint ∧
  labgob_ok types upper [2%nat] complaint.
Proof.
  assert (ran types upper gob gob_value gob reg reg_name [2%nat] complaint) as Hr.
  { eapply (ran_Register _ _ _ _ _ _ _ [] _ (VPtr 2%nat (Some 0%nat)) tt complaint tt); [constructor|].
    vm_compute. reflexivity. }
  split; [exact table|]. split; [exact Hr|].
  exact (complaints_exact types upper gob gob_value gob reg reg_name _ _ table Hr).
Defined.

Lemma not_refused : ¬ refused upper mem (VPtr 4%nat (Some 1%nat)).
Proof.
  intros (k & fl & t & s & _ & Hs & Hfl). inversion Hs as [|? ? y ? Hl Hr]; subst.
  inversion Hl; subst. inversion Hr as [|? ? ? ? Hl2 _]; subst; [done|inversion Hl2].
Qed.

Lemma Decode_spec_witness :
  ∃ st1, walked types upper [] [4%nat] labgob_init st1 ∧
  Decoder_Decode types upper gob (Build_LabDecoder tt) mem (Some (VPtr 4%nat (Some 1%nat))) labgob_init =
    Returned (mkLabgob (errorCount st1 + 1) (checked st1)
                (printed st1 ++ warning types (errorCount st1) [mkLeaf NotRO 0%nat "" (SInt 7)]),
              Build_LabDecoder tt, tt).
Proof.
  refine (proj2 (Decode_spec types upper gob (Build_LabDecoder tt) mem
    (Some (VPtr 4%nat (Some 1%nat))) labgob_init table _ _) not_refused); [|done].
  intros v [= <-]. by eexists.
Defined.
End Node.
