(* ===== verification/GoStrings.v ===== *)
(** * GoStrings: what the code uses of package [strings]

    Strings are byte strings; positions are [int]s, -1 for no position. *)
From S2P Require Import Prelude.
From stdpp Require Import base strings list.
From Stdlib Require Import ZArith Lia Ascii.
#[local] Open Scope Z_scope.
#[local] Open Scope string_scope.

(** [strings.LastIndex]: the start of the last occurrence, or -1. *)
Fixpoint LastIndex (str substr : string) : Z :=
  match str with
  | EmptyString => if String.prefix substr "" then 0 else -1
  | String _ str' =>
      let i := LastIndex str' substr in
      if decide (i ≠ -1) then i + 1
      else if String.prefix substr str then 0 else -1
  end.

Lemma prefix_longer str substr :
  (String.length str < String.length substr)%nat → String.prefix substr str = false.
Proof.
  revert str. induction substr as [|c substr IH]; intros [|c' str] Hl; cbn in *; try lia.
  destruct (ascii_dec c c'); [apply IH; lia|done].
Qed.

Lemma prefix_refl str : String.prefix str str = true.
Proof. induction str as [|c str IH]; [done|]. cbn. by destruct (ascii_dec c c). Qed.

Lemma LastIndex_longer str substr :
  (String.length str < String.length substr)%nat → LastIndex str substr = -1.
Proof.
  induction str as [|c str IH]; intros Hl; cbn [LastIndex].
  - by rewrite prefix_longer.
  - cbn in Hl. rewrite IH by lia. rewrite decide_False by lia. rewrite prefix_longer; [done|]. cbn. lia.
Qed.

Lemma LastIndex_ge str substr : -1 <= LastIndex str substr.
Proof.
  induction str as [|c str IH]; cbn [LastIndex]; [by destruct String.prefix|].
  case_decide; [lia|]. by destruct String.prefix.
Qed.

(** What was appended last is found last. *)
Lemma LastIndex_app old v : LastIndex (old +:+ v) v = Z.of_nat (String.length old).
Proof.
  induction old as [|c old IH].
  - destruct v as [|c v]; [done|]. change ("" +:+ String c v) with (String c v).
    cbn [LastIndex]. rewrite LastIndex_longer by (cbn; lia). rewrite decide_False by lia.
    by rewrite prefix_refl.
  - change (String c old +:+ v) with (String c (old +:+ v)). cbn [LastIndex].
    rewrite IH, decide_True by lia. cbn [String.length]. lia.
Qed.

Lemma substring_app old v : String.substring 0 (String.length old) (old +:+ v) = old.
Proof.
  induction old as [|c old IH]; [by destruct v|].
  change (String c old +:+ v) with (String c (old +:+ v)). cbn. by rewrite IH.
Qed.


(** Text before does not matter once the text is found. *)
Lemma LastIndex_later old str substr :
  LastIndex str substr ≠ -1 →
  LastIndex (old +:+ str) substr = Z.of_nat (String.length old) + LastIndex str substr.
Proof.
  intros Hs. assert (-1 <= LastIndex str substr) as Hge by apply LastIndex_ge.
  induction old as [|c old IH]; [cbn [String.length]; change ("" +:+ str) with str; lia|].
  change (String c old +:+ str) with (String c (old +:+ str)). cbn [LastIndex String.length].
  rewrite IH, decide_True by lia. lia.
Qed.

(** The text after the last dot has no dot. *)
Lemma LastIndex_dot before after :
  LastIndex after "." = -1 →
  LastIndex (before +:+ String "." after) "." = Z.of_nat (String.length before).
Proof.
  intros Ha. assert (LastIndex (String "." after) "." = 0) as H0.
  { cbn [LastIndex]. rewrite Ha. by destruct after. }
  rewrite LastIndex_later; rewrite H0; lia.
Qed.

(** Go's [s[:i]] and [s[i:]], for [0 <= i <= len(s)]. *)
Definition string_to (s : string) (i : Z) : string := String.substring 0 (Z.to_nat i) s.
Definition string_from (s : string) (i : Z) : string :=
  String.substring (Z.to_nat i) (String.length s - Z.to_nat i) s.

Lemma string_to_app old v : string_to (old +:+ v) (Z.of_nat (String.length old)) = old.
Proof. unfold string_to. rewrite Nat2Z.id. apply substring_app. Qed.

Lemma string_app_length s1 s2 :
  String.length (s1 +:+ s2) = (String.length s1 + String.length s2)%nat.
Proof.
  induction s1 as [|c s1 IH]; [done|].
  change (S (String.length (s1 +:+ s2)) = S (String.length s1 + String.length s2))%nat.
  by rewrite IH.
Qed.

Lemma string_from_app old c v :
  string_from (old +:+ String c v) (Z.of_nat (String.length old) + 1) = v.
Proof.
  unfold string_from. rewrite string_app_length. cbn [String.length].
  replace (Z.to_nat (Z.of_nat (String.length old) + 1)) with (S (String.length old)) by lia.
  replace (String.length old + S (String.length v) - S (String.length old))%nat
    with (String.length v) by lia.
  induction old as [|c' old IH]; [|exact IH].
  change ("" +:+ String c v) with (String c v). cbn. clear. induction v as [|c' v IH]; [done|].
  cbn. by rewrite IH.
Qed.

(** What is found is there, and nothing of it begins later. *)
Lemma prefix_true p s : String.prefix p s = true → ∃ z, s = p +:+ z.
Proof.
  revert s. induction p as [|c p IH]; intros s Hp; [by exists s; destruct s|]. destruct s as [|c' s]; [done|]. cbn in Hp.
  destruct (ascii_dec c c') as [<-|]; [|done]. destruct (IH s Hp) as [z ->]. by exists z.
Qed.

Lemma prefix_of_app p z : String.prefix p (p +:+ z) = true.
Proof.
  induction p as [|c p IH]; [by destruct z|]. change (String c p +:+ z) with (String c (p +:+ z)). cbn.
  by destruct (ascii_dec c c).
Qed.

Lemma LastIndex_found str substr :
  LastIndex str substr ≠ -1 → ∃ a z, str = a +:+ (substr +:+ z) ∧ LastIndex str substr = Z.of_nat (String.length a).
Proof.
  induction str as [|c str IH]; cbn [LastIndex].
  - destruct (String.prefix substr "") eqn:Hp; [|done]. intros _. apply prefix_true in Hp as [z E]. by exists "", z.
  - case_decide as Hi.
    + intros _. destruct (IH Hi) as (a & z & E & ->). exists (String c a), z. split; [by rewrite E|]. cbn. lia.
    + destruct (String.prefix substr (String c str)) eqn:Hp; [|done]. intros _. apply prefix_true in Hp as [z E]. by exists "", z.
Qed.

Lemma LastIndex_not_before a substr z : Z.of_nat (String.length a) <= LastIndex (a +:+ (substr +:+ z)) substr.
Proof.
  induction a as [|c a IH].
  - change ("" +:+ (substr +:+ z)) with (substr +:+ z). pose proof (prefix_of_app substr z) as Hp.
    destruct (substr +:+ z) as [|c s]; cbn [LastIndex]; rewrite Hp; [done|].
    pose proof (LastIndex_ge s substr). cbn. case_decide; lia.
  - change (String c a +:+ (substr +:+ z)) with (String c (a +:+ (substr +:+ z))). cbn [LastIndex String.length].
    rewrite decide_True by lia. lia.
Qed.

Lemma list_ascii_app (a b : string) :
  String.list_ascii_of_string (a +:+ b) = (String.list_ascii_of_string a ++ String.list_ascii_of_string b)%list.
Proof. induction a as [|c a IH]; [done|]. change (String c a +:+ b) with (String c (a +:+ b)). cbn. by rewrite IH. Qed.

(** ** Texts that mark where they begin and end *)
Section Marked.
Context {A : Type} (x y : A) (Hxy : x ≠ y).
Implicit Types (u v a b z : list A) (ts : list (list A)).
#[local] Open Scope list_scope.

Definition enclosed v : Prop := ∃ b, v = x :: b ++ [y] ∧ x ∉ b ∧ y ∉ b.

Lemma before_first b b' z z' : y ∉ b → y ∉ b' → b ++ y :: z = b' ++ y :: z' → b = b'.
Proof.
  revert b'. induction b as [|c b IH]; intros [|c' b'] Hb Hb' E; cbn in E; try done.
  - injection E as -> _. destruct Hb'. by left.
  - injection E as <- _. destruct Hb. by left.
  - injection E as <- E. f_equal. apply IH; [intros ?; apply Hb; by right|intros ?; apply Hb'; by right|done].
Qed.

(** In a sequence of such texts one is found only where it is an element. *)
Lemma enclosed_at ts v a z :
  Forall enclosed ts → enclosed v → mjoin ts = a ++ v ++ z → ∃ ts1 ts2, ts = ts1 ++ v :: ts2 ∧ mjoin ts1 = a.
Proof.
  intros Hts Hv. revert a. induction Hts as [|u ts Hu _ IH]; intros a E; cbn in E.
  { destruct Hv as (b & -> & _). by destruct a. }
  destruct (app_eq_inv _ _ _ _ E) as [(k & Eu & Ek)|(k & -> & Ek)].
  2: { destruct (IH k Ek) as (ts1 & ts2 & -> & <-). by exists (u :: ts1), ts2. }
  destruct Hv as (b & -> & Hx & Hy), Hu as (bu & -> & Hux & Huy).
  destruct k as [|c k].
  { rewrite app_nil_r in Eu. subst a. destruct (IH [] (eq_sym Ek)) as (ts1 & ts2 & -> & E1).
    exists ((x :: bu ++ [y]) :: ts1), ts2. split; [done|].
    transitivity ((x :: bu ++ [y]) ++ mjoin ts1); [done|]. by rewrite E1, app_nil_r. }
  injection Ek as <- Ek. destruct a as [|c a].
  - injection Eu as Eu. rewrite <- Eu, <- !app_assoc in Ek. apply before_first in Ek as ->; [|done..].
    by exists [], ts.
  - injection Eu as _ Eu. assert (x ∈ bu ++ [y]) as Hin by (rewrite Eu; apply elem_of_app; right; by left).
    apply elem_of_app in Hin as [?|?%list_elem_of_singleton]; done.
Qed.
End Marked.

(** A text such as those the tests append: an x, something, a y. *)
Definition marker (v : string) : Prop := enclosed "x"%char "y"%char (String.list_ascii_of_string v).

Fixpoint concat_all (vs : list string) : string :=
  match vs with nil => "" | cons v vs => v +:+ concat_all vs end.

Lemma list_ascii_concat vs :
  String.list_ascii_of_string (concat_all vs) = mjoin (String.list_ascii_of_string <$> vs).
Proof. induction vs as [|v vs IH]; [done|]. cbn. by rewrite list_ascii_app, IH. Qed.

Lemma list_ascii_inj (a b : string) : String.list_ascii_of_string a = String.list_ascii_of_string b → a = b.
Proof.
  intros E. rewrite <- (String.string_of_list_ascii_of_string a), E. apply String.string_of_list_ascii_of_string.
Qed.

(** It is found where it was put, if it is not among what was added later. *)
Lemma LastIndex_marker old v vs :
  (∀ u, u ∈ vs → marker v ∧ marker u ∧ u ≠ v) →
  LastIndex (old +:+ (v +:+ concat_all vs)) v = Z.of_nat (String.length old).
Proof.
  intros Hvs. destruct vs as [|u0 vs'] eqn:Evs.
  { cbn. replace (v +:+ "") with v; [apply LastIndex_app|]. symmetry. apply list_ascii_inj.
    by rewrite list_ascii_app, app_nil_r. }
  rewrite <- Evs in *. assert (marker v) as Hv by (apply (Hvs u0); rewrite Evs; by left). clear Evs.
  pose proof (LastIndex_not_before old v (concat_all vs)) as Hge.
  destruct (LastIndex_found (old +:+ (v +:+ concat_all vs)) v) as (a & z & E & Hi); [lia|]. rewrite Hi in Hge |- *.
  f_equal. apply (f_equal String.list_ascii_of_string) in E. rewrite !list_ascii_app, list_ascii_concat in E.
  assert (∀ s : string, String.length s = length (String.list_ascii_of_string s)) as Hlen
    by (intros s; induction s as [|c s IH]; [done|]; cbn; by rewrite IH).
  rewrite !Hlen in *. destruct (app_eq_inv _ _ _ _ E) as [(k & Ek & Er)|(k & Ek & Er)].
  - rewrite Ek, length_app in *. destruct k; cbn in *; lia.
  - destruct (enclosed_at "x"%char "y"%char ltac:(done) (String.list_ascii_of_string <$> cons v vs)
      (String.list_ascii_of_string v) k (String.list_ascii_of_string z)) as (ts1 & ts2 & Ets & Ek1); [|done|exact Er|].
    { apply Forall_fmap, Forall_forall. intros u [->|Hin]%elem_of_cons; [done|]. by apply Hvs. }
    destruct ts1 as [|t ts1]; [cbn in Ek1; subst k; by rewrite Ek, app_nil_r|exfalso].
    injection Ets as _ Ets. assert (String.list_ascii_of_string v ∈ String.list_ascii_of_string <$> vs) as Hin.
    { apply (eq_ind_r (λ l, _ ∈ l)) with (2 := Ets). apply elem_of_app. right. by left. }
    apply list_elem_of_fmap in Hin as (u & Eu%list_ascii_inj & Hu). destruct (Hvs u Hu) as (_ & _ & Hne). by destruct Hne.
Qed.
