(* ===== verification/Labrpc.v ===== *)
(** * Labrpc: the simulated network of [src/src/labrpc/labrpc.go]

    The tests connect clients and servers through a [Network] that can lose,
    delay and reorder.  Its tables are a record with one function per method;
    [Server.dispatch] and [Service.dispatch] find the handler of a request;
    [World] and [step] run the goroutines: each call has the goroutine of its
    caller, the one of [processReq] and the one that runs the handler, and the
    network has one that takes requests from [endCh].  One step is one critical
    section, or one send on a channel with the receive that meets it, since all
    channels are unbuffered.

    What ends the process, [log.Fatalf] and panics, is a value of [result].
    Random draws are arguments of the steps, times are not modelled: a sleep or
    a timer may end at any later step.  [labgob], the values it encodes and the
    handlers, which are code of other packages, are parameters. *)
From S2P Require Import Prelude GoStrings.
From stdpp Require Import base gmap strings option list.
From Stdlib Require Import ZArith Lia.
#[local] Open Scope Z_scope.
#[local] Open Scope go_scope.

(** What a call returns if it returns, and how it ends the process. *)
Inductive result (A : Type) := Ok (a : A) | Fatal (msg : string) | Panic.
Arguments Ok {A} a.
Arguments Fatal {A} msg.
Arguments Panic {A}.

(** [int32] addition. *)
Definition wrap32 (z : Z) : Z := (z + 2 ^ 31) mod 2 ^ 32 - 2 ^ 31.

(** ** Messages and end points *)
Record reqMsg {Name rtype : Type} := mkReqMsg {
  endname : Name;
  svcMeth : string;
  argsType : rtype;
  args : bytes;
  replyCh : nat            (* the call the channel was made for *)
}.
Arguments reqMsg : clear implicits.

Record replyMsg := mkReplyMsg { ok : bool; reply : bytes }.

Record ClientEnd {Name : Type} := mkClientEnd { end_endname : Name }.
Arguments ClientEnd : clear implicits.

(** ** The tables of the network

    A server is a pointer, a [nat] into the heap of servers; [None] is nil. *)
Record Network {Name : Type} `{Countable Name} := mkNetwork {
  reliable : bool;
  longDelays : bool;
  longReordering : bool;
  ends : gmap Name (ClientEnd Name);
  enabled : gmap Name bool;
  servers : gmap Name (option nat);
  connections : gmap Name (option Name);
  count : Z;
  nbytes : Z
}.
Arguments Network Name {_ _}.

Section Updates.
Context {Name : Type} `{Countable Name}.
Notation Network := (Network Name).
#[export] Instance upd_reliable : Upd (R := Network) reliable := fun x r =>
  mkNetwork _ _ _ x (longDelays r) (longReordering r) (ends r) (enabled r) (servers r) (connections r) (count r) (nbytes r).
#[export] Instance upd_longDelays : Upd (R := Network) longDelays := fun x r =>
  mkNetwork _ _ _ (reliable r) x (longReordering r) (ends r) (enabled r) (servers r) (connections r) (count r) (nbytes r).
#[export] Instance upd_longReordering : Upd (R := Network) longReordering := fun x r =>
  mkNetwork _ _ _ (reliable r) (longDelays r) x (ends r) (enabled r) (servers r) (connections r) (count r) (nbytes r).
#[export] Instance upd_ends : Upd (R := Network) ends := fun x r =>
  mkNetwork _ _ _ (reliable r) (longDelays r) (longReordering r) x (enabled r) (servers r) (connections r) (count r) (nbytes r).
#[export] Instance upd_enabled : Upd (R := Network) enabled := fun x r =>
  mkNetwork _ _ _ (reliable r) (longDelays r) (longReordering r) (ends r) x (servers r) (connections r) (count r) (nbytes r).
#[export] Instance upd_servers : Upd (R := Network) servers := fun x r =>
  mkNetwork _ _ _ (reliable r) (longDelays r) (longReordering r) (ends r) (enabled r) x (connections r) (count r) (nbytes r).
#[export] Instance upd_connections : Upd (R := Network) connections := fun x r =>
  mkNetwork _ _ _ (reliable r) (longDelays r) (longReordering r) (ends r) (enabled r) (servers r) x (count r) (nbytes r).
#[export] Instance upd_count : Upd (R := Network) count := fun x r =>
  mkNetwork _ _ _ (reliable r) (longDelays r) (longReordering r) (ends r) (enabled r) (servers r) (connections r) x (nbytes r).
#[export] Instance upd_nbytes : Upd (R := Network) nbytes := fun x r =>
  mkNetwork _ _ _ (reliable r) (longDelays r) (longReordering r) (ends r) (enabled r) (servers r) (connections r) (count r) x.
End Updates.

Section Tables.
Context {Name : Type} `{Countable Name}.
Notation Network := (Network Name).
Implicit Types (rn : Network) (endname servername : Name).

Definition MakeNetwork : Network :=
  mkNetwork _ _ _ true false false ∅ ∅ ∅ ∅ 0 0.

Definition Reliable (yes : bool) rn : Network := rn <| reliable := yes |>.
Definition LongReordering (yes : bool) rn : Network := rn <| longReordering := yes |>.
Definition LongDelays (yes : bool) rn : Network := rn <| longDelays := yes |>.

(** [rn.servers[servername]]; a missing server is nil. *)
Definition server_at rn servername : option nat := default None (servers rn !! servername).

Record EndnameInfo := mkEndnameInfo {
  i_enabled : bool;
  i_servername : option Name;
  i_server : option nat;
  i_reliable : bool;
  i_longreordering : bool
}.

Definition readEndnameInfo endname rn : EndnameInfo :=
  let servername := default None (connections rn !! endname) in
  {| i_enabled := default false (enabled rn !! endname);
     i_servername := servername;
     i_server := match servername with Some s => server_at rn s | None => None end;
     i_reliable := reliable rn;
     i_longreordering := longReordering rn |}.

Definition isServerDead endname servername (server : nat) rn : bool :=
  negb (default false (enabled rn !! endname)) ||
  bool_decide (server_at rn servername ≠ Some server).

Definition MakeEnd endname rn : result (Network * ClientEnd Name) :=
  match ends rn !! endname with
  | Some _ => Fatal "MakeEnd: already exists"
  | None =>
      let e := mkClientEnd _ endname in
      let rn := rn <| ends := <[endname := e]> (ends rn) |> in
      let rn := rn <| enabled := <[endname := false]> (enabled rn) |> in
      Ok (rn <| connections := <[endname := None]> (connections rn) |>, e)
  end.

Definition DeleteEnd endname rn : result Network :=
  match ends rn !! endname with
  | None => Fatal "MakeEnd: doesn't exists"
  | Some _ =>
      let rn := rn <| ends := delete endname (ends rn) |> in
      let rn := rn <| enabled := delete endname (enabled rn) |> in
      Ok (rn <| connections := delete endname (connections rn) |>)
  end.

Definition AddServer servername (rs : nat) rn : Network :=
  rn <| servers := <[servername := Some rs]> (servers rn) |>.
Definition DeleteServer servername rn : Network :=
  rn <| servers := <[servername := None]> (servers rn) |>.
Definition Connect endname servername rn : Network :=
  rn <| connections := <[endname := Some servername]> (connections rn) |>.
Definition Enable endname (yes : bool) rn : Network :=
  rn <| enabled := <[endname := yes]> (enabled rn) |>.

Definition GetTotalCount rn : Z := count rn.
Definition GetTotalBytes rn : Z := nbytes rn.

(** The goroutine of [MakeNetwork], when it takes a request. *)
Definition take_request {rtype} (xreq : reqMsg Name rtype) rn : Network :=
  let rn := rn <| count := wrap32 (count rn + 1) |> in
  rn <| nbytes := wrap64 (nbytes rn + len (args xreq)) |>.

Definition count_reply (rep : replyMsg) rn : Network :=
  rn <| nbytes := wrap64 (nbytes rn + len (reply rep)) |>.
End Tables.

(** ** Servers and services

    [rtype] is [reflect.Type].  A method has its parameter types in order, the
    receiver first; [in_Ptr] gives the element type of a pointer. *)
Record Param {rtype : Type} := mkParam { in_type : rtype; in_Ptr : option rtype }.
Arguments Param : clear implicits.

Record Method {rtype : Type} := mkMethod {
  Method_Name : string;
  PkgPath : string;
  Ins : list (Param rtype);
  NumOut : Z
}.
Arguments Method : clear implicits.

(** The receiver of a service: which object, the name of its type after
    [reflect.Indirect], and the methods [reflect] lists. *)
Record Rcvr {rtype : Type} := mkRcvr {
  object : nat;
  Indirect_Name : string;
  Methods : list (Method rtype)
}.
Arguments Rcvr : clear implicits.

Record Service {rtype : Type} := mkService {
  svc_name : string;
  rcvr : Rcvr rtype;
  methods : gmap string (Method rtype)
}.
Arguments Service : clear implicits.

Record Server {rtype : Type} := mkServer {
  services : gmap string (Service rtype);
  s_count : Z
}.
Arguments Server : clear implicits.

Section Dispatch.
Context {Name rtype : Type}.
Notation Server := (Server rtype).
Notation Service := (Service rtype).
Notation reqMsg := (reqMsg Name rtype).

(** The condition of [MakeService], whose tests run from left to right: the
    third parameter is asked for its kind only if there are three. *)
Definition looks_like_handler (method : Method rtype) : bool :=
  negb (negb (bool_decide (PkgPath method = ""))
        || negb (len (Ins method) =? 3)
        || match Ins method !! 2%nat with
           | Some p => bool_decide (in_Ptr p = None)
           | None => true
           end
        || negb (NumOut method =? 0)).

Definition add_method (ms : gmap string (Method rtype)) (method : Method rtype)
    : gmap string (Method rtype) :=
  if looks_like_handler method then <[Method_Name method := method]> ms else ms.

Definition MakeService (r : Rcvr rtype) : Service :=
  mkService _ (Indirect_Name r) r (foldl add_method ∅ (Methods r)).

Definition MakeServer : Server := mkServer _ ∅ 0.

Definition AddService (svc : Service) (rs : Server) : Server :=
  mkServer _ (<[svc_name svc := svc]> (services rs)) (s_count rs).

(** [GetCount] of a nil server panics when it locks the mutex. *)
Definition Server_GetCount (rs : Server) : Z := s_count rs.

Definition GetCount `{Countable Name} (heap : gmap nat Server) (servername : Name) (rn : Network Name)
    : result Z :=
  match server_at rn servername with
  | None => Panic
  | Some sid => match heap !! sid with Some rs => Ok (Server_GetCount rs) | None => Panic end
  end.

(** [req.svcMeth[:dot]] panics without a dot. *)
Definition split_svcMeth (svcMeth : string) : result (string * string) :=
  let dot := LastIndex svcMeth "." in
  if decide (dot < 0) then Panic
  else Ok (string_to svcMeth dot, string_from svcMeth (dot + 1)).

(** The locked part of [Server.dispatch], with the service it found. *)
Definition Server_dispatch (req : reqMsg) (rs : Server) : result (Server * Service * string) :=
  let rs := mkServer _ (services rs) (s_count rs + 1) in
  match split_svcMeth (svcMeth req) with
  | Panic => Panic
  | Fatal msg => Fatal msg
  | Ok (serviceName, methodName) =>
      match services rs !! serviceName with
      | Some service => Ok (rs, service, methodName)
      | None => Fatal "labrpc.Server.dispatch(): unknown service"
      end
  end.

(** The lookup of [Service.dispatch], which gives the method with the type its
    reply points to. *)
Definition Service_dispatch (methname : string) (svc : Service)
    : result (Method rtype * rtype) :=
  match methods svc !! methname with
  | None => Fatal "labrpc.Service.dispatch(): unknown method"
  | Some method =>
      match Ins method !! 2%nat with
      | Some p => match in_Ptr p with Some t => Ok (method, t) | None => Panic end
      | None => Panic
      end
  end.
End Dispatch.
