(* ===== verification/LabrpcWorld.v ===== *)
(** * LabrpcWorld: the goroutines of [src/src/labrpc/labrpc.go]

    A [World] is a network with its servers and the calls in progress.  A call
    has three goroutines: the caller ([Client]), [processReq] ([Proc]) and the
    handler ([Handler]).  [step] runs one of them up to its next critical
    section or channel operation, or lets the test change the network. *)
From S2P Require Import Prelude GoStrings Labrpc.
From stdpp Require Import base gmap strings option list.
From Stdlib Require Import ZArith Lia.
#[local] Open Scope Z_scope.
#[local] Open Scope go_scope.

(** Where a request goes, as [processReq] read it. *)
Record Target {Name : Type} := mkTarget {
  t_servername : Name;
  t_server : nat;
  t_reliable : bool;
  t_longreordering : bool
}.
Arguments Target : clear implicits.

(** The caller: before the first [select], waiting on [replyCh], returned. *)
Inductive Client {Value : Type} :=
| CSending
| CWaiting
| CReturned (okay : bool) (v : Value).
Arguments Client : clear implicits.

(** [processReq]: started; about to execute the request; in its loop; after the
    loop with what it received; waiting for a timer set to [ms], after which the
    reply is sent and, if [counts], its bytes are counted; about to count;
    sending on [replyCh]; ended. *)
Inductive Proc {Name : Type} :=
| PNone
| PStart
| PSend (t : Target Name)
| PWait (t : Target Name)
| PLeft (t : Target Name) (rep : option replyMsg)
| PTimer (ms : Z) (rep : replyMsg) (counts : bool)
| PCount (rep : replyMsg)
| PReply (rep : replyMsg)
| PDone.
Arguments Proc : clear implicits.

(** The goroutine of [dispatch]: started, in the handler, sending on [ech],
    ended. *)
Inductive Handler {rtype Value : Type} :=
| HNone
| HStart (sid : nat)
| HRunning (sid : nat) (r : Rcvr rtype) (m : Method rtype) (argv replyv : Value)
| HReturned (rep : replyMsg)
| HDone.
Arguments Handler : clear implicits.

Record Call {Name rtype Value : Type} := mkCall {
  c_req : reqMsg Name rtype;
  c_reply0 : Value;              (* the caller's reply variable *)
  c_client : Client Value;
  c_proc : Proc Name;
  c_handler : Handler rtype Value;
  c_drain : bool                 (* a goroutine waits to drain [ech] *)
}.
Arguments Call : clear implicits.

Section CallUpdates.
Context {Name rtype Value : Type}.
Notation Call := (Call Name rtype Value).
#[export] Instance upd_c_client : Upd (R := Call) c_client := fun x r =>
  mkCall _ _ _ (c_req r) (c_reply0 r) x (c_proc r) (c_handler r) (c_drain r).
#[export] Instance upd_c_proc : Upd (R := Call) c_proc := fun x r =>
  mkCall _ _ _ (c_req r) (c_reply0 r) (c_client r) x (c_handler r) (c_drain r).
#[export] Instance upd_c_handler : Upd (R := Call) c_handler := fun x r =>
  mkCall _ _ _ (c_req r) (c_reply0 r) (c_client r) (c_proc r) x (c_drain r).
#[export] Instance upd_c_drain : Upd (R := Call) c_drain := fun x r =>
  mkCall _ _ _ (c_req r) (c_reply0 r) (c_client r) (c_proc r) (c_handler r) x.
End CallUpdates.

Section World.
Context {Name : Type} `{Countable Name} {rtype Value : Type}.
Notation Network := (Network Name).
Notation Server := (Server rtype).
Notation reqMsg := (reqMsg Name rtype).
Notation Target := (Target Name).
Notation Proc := (Proc Name).
Notation Call := (Call Name rtype Value).

(** [reflect.TypeOf], a new zero value, and labgob: what is written and whether
    there was no error; the variable after decoding into it and whether there
    was no error. *)
Context (TypeOf : Value → rtype) (New : rtype → Value).
Context (gob_Encode : Value → bytes * bool) (gob_Decode : Value → bytes → Value * bool).

(** [handles r m argv replyv v]: the method [m] of the receiver [r], called with
    [argv] and a pointer to [replyv], may return with [v] there. *)
Context (handles : Rcvr rtype → Method rtype → Value → Value → Value → Prop).

Record World := mkWorld {
  w_net : Network;
  w_heap : gmap nat Server;
  w_calls : gmap nat Call;
  w_done : bool;                 (* [rn.done] is closed *)
  w_taking : bool                (* the goroutine of [MakeNetwork] runs *)
}.

#[local] Instance upd_w_net : Upd w_net := fun x r =>
  mkWorld x (w_heap r) (w_calls r) (w_done r) (w_taking r).
#[local] Instance upd_w_heap : Upd w_heap := fun x r =>
  mkWorld (w_net r) x (w_calls r) (w_done r) (w_taking r).
#[local] Instance upd_w_calls : Upd w_calls := fun x r =>
  mkWorld (w_net r) (w_heap r) x (w_done r) (w_taking r).
#[local] Instance upd_w_done : Upd w_done := fun x r =>
  mkWorld (w_net r) (w_heap r) (w_calls r) x (w_taking r).
#[local] Instance upd_w_taking : Upd w_taking := fun x r =>
  mkWorld (w_net r) (w_heap r) (w_calls r) (w_done r) x.

Definition World_init : World := mkWorld MakeNetwork ∅ ∅ false true.

Definition set_call (c : nat) (cs : Call) (w : World) : World :=
  w <| w_calls := <[c := cs]> (w_calls w) |>.

(** ** [Call] *)
Definition Call_request (en : Name) (meth : string) (argv : Value) (c : nat) : result reqMsg :=
  let '(b, okay) := gob_Encode argv in
  if okay then Ok (mkReqMsg _ _ en meth (TypeOf argv) b c) else Panic.

Definition Call_reply (rep : replyMsg) (reply0 : Value) : result (bool * Value) :=
  if ok rep then
    let '(v, okay) := gob_Decode reply0 (reply rep) in
    if okay then Ok (true, v) else Fatal "ClientEnd.Call(): decode reply"
  else Ok (false, reply0).

Definition new_call (req : reqMsg) (reply0 : Value) : Call :=
  mkCall _ _ _ req reply0 CSending PNone HNone false.

(** ** [processReq]

    [draw] stands for what [rand.Int] or [rand.Intn] gives. *)
Definition failed : replyMsg := mkReplyMsg false [].

(** Up to the [if] on the information read. *)
Definition after_read (i : EndnameInfo) (longDelays : bool) (draw : Z) : Proc :=
  match i_servername i, i_server i with
  | Some sn, Some sid =>
      if i_enabled i then PSend (mkTarget _ sn sid (i_reliable i) (i_longreordering i))
      else PTimer (if longDelays then draw mod 7000 else draw mod 100) failed false
  | _, _ => PTimer (if longDelays then draw mod 7000 else draw mod 100) failed false
  end.

Definition drops (rel : bool) (draw : Z) : bool := negb rel && (draw mod 1000 <? 100).

(** After the loop, and the second [isServerDead]. *)
Definition after_loop (t : Target) (rep : option replyMsg) (serverDead : bool)
    (draw draw2 draw3 draw4 : Z) : Proc :=
  match rep with
  | None => PReply failed
  | Some r =>
      if serverDead then PReply failed
      else if drops (t_reliable t) draw then PReply failed
      else if t_longreordering t && (draw2 mod 900 <? 600) then
        PTimer (200 + draw4 mod (1 + draw3 mod 2000)) r true
      else PCount r
  end.

(** ** The handler *)

(** [Server.dispatch] and [Service.dispatch] up to the call of the method. *)
Definition dispatch (req : reqMsg) (sid : nat) (rs : Server) : result (Server * Handler rtype Value) :=
  match Server_dispatch req rs with
  | Panic => Panic
  | Fatal msg => Fatal msg
  | Ok (rs, service, methodName) =>
      match Service_dispatch methodName service with
      | Panic => Panic
      | Fatal msg => Fatal msg
      | Ok (method, replyType) =>
          let '(argv, _) := gob_Decode (New (argsType req)) (args req) in
          Ok (rs, HRunning sid (rcvr service) method argv (New replyType))
      end
  end.

(** From the return of the method to the return of [dispatch]. *)
Definition dispatch_reply (replyv : Value) : replyMsg := mkReplyMsg true (fst (gob_Encode replyv)).

(** ** The test *)
Inductive Admin :=
| AReliable (yes : bool)
| ALongReordering (yes : bool)
| ALongDelays (yes : bool)
| AMakeEnd (en : Name)
| ADeleteEnd (en : Name)
| AAddServer (sn : Name) (sid : nat)
| ADeleteServer (sn : Name)
| AConnect (en sn : Name)
| AEnable (en : Name) (yes : bool)
| AMakeServer (sid : nat)
| AAddService (sid : nat) (r : Rcvr rtype).

(** A new server is a new pointer; a pointer to a server has a server. *)
Definition admin (a : Admin) (w : World) : result World :=
  let set rn := Ok (w <| w_net := rn |>) in
  match a with
  | AReliable yes => set (Reliable yes (w_net w))
  | ALongReordering yes => set (LongReordering yes (w_net w))
  | ALongDelays yes => set (LongDelays yes (w_net w))
  | AMakeEnd en =>
      match MakeEnd en (w_net w) with
      | Ok (rn, _) => set rn | Fatal msg => Fatal msg | Panic => Panic
      end
  | ADeleteEnd en =>
      match DeleteEnd en (w_net w) with
      | Ok rn => set rn | Fatal msg => Fatal msg | Panic => Panic
      end
  | AAddServer sn sid =>
      match w_heap w !! sid with Some _ => set (AddServer sn sid (w_net w)) | None => Panic end
  | ADeleteServer sn => set (DeleteServer sn (w_net w))
  | AConnect en sn => set (Connect en sn (w_net w))
  | AEnable en yes => set (Enable en yes (w_net w))
  | AMakeServer sid =>
      match w_heap w !! sid with
      | Some _ => Panic
      | None => Ok (w <| w_heap := <[sid := MakeServer]> (w_heap w) |>)
      end
  | AAddService sid r =>
      match w_heap w !! sid with
      | Some rs => Ok (w <| w_heap := <[sid := AddService (MakeService r) rs]> (w_heap w) |>)
      | None => Panic
      end
  end.

(** ** Steps *)
Inductive Event :=
| ECall (c : nat) (en : Name) (meth : string) (argv : Value)
| ETake (c : nat) | EDestroyed (c : nat)
| ERead (c : nat) | EDropRequest (c : nat) | EExecute (c : nat)
| EInvoke (c : nat) (sid : nat) (r : Rcvr rtype) (m : Method rtype) (argv : Value)
| EHandled (c : nat) (v : Value)
| EReceive (c : nat) | EPoll (c : nat) | EDrain (c : nat) | ELeave (c : nat)
| EFire (c : nat) | ECount (c : nat) | EReturn (c : nat)
| ECleanup | EExit
| EAdmin (a : Admin).

Inductive step (w : World) : Event → World → Prop :=
| step_call c en meth argv reply0 req :
    w_calls w !! c = None → Call_request en meth argv c = Ok req →
    step w (ECall c en meth argv) (set_call c (new_call req reply0) w)
| step_take c cs :
    w_calls w !! c = Some cs → c_client cs = CSending → w_taking w = true →
    step w (ETake c)
      (set_call c (cs <| c_client := CWaiting |> <| c_proc := PStart |>)
         (w <| w_net := take_request (c_req cs) (w_net w) |>))
| step_destroyed c cs :
    w_calls w !! c = Some cs → c_client cs = CSending → w_done w = true →
    step w (EDestroyed c) (set_call c (cs <| c_client := CReturned false (c_reply0 cs) |>) w)
| step_read c cs draw :
    w_calls w !! c = Some cs → c_proc cs = PStart → 0 <= draw →
    step w (ERead c)
      (set_call c (cs <| c_proc :=
         after_read (readEndnameInfo (endname (c_req cs)) (w_net w)) (longDelays (w_net w)) draw |>) w)
| step_drop c cs t draw :
    w_calls w !! c = Some cs → c_proc cs = PSend t → 0 <= draw → drops (t_reliable t) draw = true →
    step w (EDropRequest c) (set_call c (cs <| c_proc := PReply failed |>) w)
| step_execute c cs t draw :
    w_calls w !! c = Some cs → c_proc cs = PSend t → 0 <= draw → drops (t_reliable t) draw = false →
    step w (EExecute c)
      (set_call c (cs <| c_proc := PWait t |> <| c_handler := HStart (t_server t) |>) w)
| step_invoke c cs sid rs rs' r m argv replyv :
    w_calls w !! c = Some cs → c_handler cs = HStart sid → w_heap w !! sid = Some rs →
    dispatch (c_req cs) sid rs = Ok (rs', HRunning sid r m argv replyv) →
    step w (EInvoke c sid r m argv)
      (set_call c (cs <| c_handler := HRunning sid r m argv replyv |>)
         (w <| w_heap := <[sid := rs']> (w_heap w) |>))
| step_handled c cs sid r m argv replyv v :
    w_calls w !! c = Some cs → c_handler cs = HRunning sid r m argv replyv →
    handles r m argv replyv v →
    step w (EHandled c v) (set_call c (cs <| c_handler := HReturned (dispatch_reply v) |>) w)
| step_receive c cs t rep :
    w_calls w !! c = Some cs → c_proc cs = PWait t → c_handler cs = HReturned rep →
    step w (EReceive c)
      (set_call c (cs <| c_proc := PLeft t (Some rep) |> <| c_handler := HDone |>) w)
| step_poll c cs t :
    w_calls w !! c = Some cs → c_proc cs = PWait t →
    step w (EPoll c)
      (set_call c
         (if isServerDead (endname (c_req cs)) (t_servername t) (t_server t) (w_net w)
          then cs <| c_proc := PLeft t None |> <| c_drain := true |> else cs) w)
| step_drain c cs rep :
    w_calls w !! c = Some cs → c_drain cs = true → c_handler cs = HReturned rep →
    step w (EDrain c) (set_call c (cs <| c_handler := HDone |> <| c_drain := false |>) w)
| step_leave c cs t rep draw draw2 draw3 draw4 :
    w_calls w !! c = Some cs → c_proc cs = PLeft t rep →
    0 <= draw → 0 <= draw2 → 0 <= draw3 → 0 <= draw4 →
    step w (ELeave c)
      (set_call c (cs <| c_proc :=
         after_loop t rep (isServerDead (endname (c_req cs)) (t_servername t) (t_server t) (w_net w))
           draw draw2 draw3 draw4 |>) w)
| step_fire c cs ms rep counts :
    w_calls w !! c = Some cs → c_proc cs = PTimer ms rep counts →
    step w (EFire c) (set_call c (cs <| c_proc := if counts then PCount rep else PReply rep |>) w)
| step_count c cs rep :
    w_calls w !! c = Some cs → c_proc cs = PCount rep →
    step w (ECount c)
      (set_call c (cs <| c_proc := PReply rep |>) (w <| w_net := count_reply rep (w_net w) |>))
| step_return c cs rep okay v :
    w_calls w !! c = Some cs → c_client cs = CWaiting → c_proc cs = PReply rep →
    Call_reply rep (c_reply0 cs) = Ok (okay, v) →
    step w (EReturn c) (set_call c (cs <| c_client := CReturned okay v |> <| c_proc := PDone |>) w)
| step_cleanup :
    w_done w = false → step w ECleanup (w <| w_done := true |>)
| step_exit :
    w_done w = true → step w EExit (w <| w_taking := false |>)
| step_admin a w' :
    admin a w = Ok w' → step w (EAdmin a) w'.

Inductive run (w : World) : list Event → World → Prop :=
| run_nil : run w [] w
| run_snoc tr w1 e w2 : run w tr w1 → step w1 e w2 → run w (tr ++ [e]) w2.
End World.
