(* ===== verification/LabrpcCalls.v ===== *)
(** * LabrpcCalls: what a call over the simulated network means

    For [Call] of [src/src/labrpc/labrpc.go]: how a request finds its handler
    and when that ends the process; that a handler runs at most once per call,
    and exactly once, with its reply delivered, if the call returns true; that a
    server taken out of the network before its handler returned answers
    nothing; that calls over a reliable, connected network do not fail. *)
From S2P Require Import Prelude GoStrings Labrpc LabrpcWorld.
From stdpp Require Import base gmap strings option list.
From Stdlib Require Import ZArith Lia Ascii.
#[local] Open Scope Z_scope.
#[local] Open Scope go_scope.

(** ** Services *)
Section Services.
Context {Name rtype : Type}.
Notation Server := (Server rtype).
Notation Service := (Service rtype).

(** A server as [MakeServer] and [AddService] build it. *)
Definition services_ok (rs : Server) : Prop :=
  ∀ k svc, services rs !! k = Some svc →
    k = Indirect_Name (rcvr svc) ∧ svc = MakeService (rcvr svc).

Lemma MakeServer_ok : services_ok MakeServer.
Proof. intros k svc Hk. change ((∅ : gmap string Service) !! k = Some svc) in Hk. by rewrite lookup_empty in Hk. Qed.

Lemma AddService_ok r rs : services_ok rs → services_ok (AddService (MakeService r) rs).
Proof.
  intros Hrs k svc Hk. cbn in Hk. apply lookup_insert_Some in Hk as [[<- <-]|[_ Hk]]; [done|].
  by apply Hrs.
Qed.

Lemma handler_methods (ms : list (Method rtype)) acc mn m :
  foldl add_method acc ms !! mn = Some m →
  acc !! mn = Some m ∨ (m ∈ ms ∧ Method_Name m = mn ∧ looks_like_handler m = true).
Proof.
  revert acc. induction ms as [|m0 ms IH]; intros acc Hm; cbn in Hm; [by left|].
  apply IH in Hm as [Hm|(Hin & ? & ?)]; [|right; split; [by right|done]].
  unfold add_method in Hm. destruct (looks_like_handler m0) eqn:Hl; [|by left].
  apply lookup_insert_Some in Hm as [[<- <-]|[_ Hm]]; [|by left].
  right. split; [left|done].
Qed.

Lemma looks_like_handler_Ptr (m : Method rtype) :
  looks_like_handler m = true → ∃ p t, Ins m !! 2%nat = Some p ∧ in_Ptr p = Some t.
Proof.
  unfold looks_like_handler. rewrite negb_true_iff, !orb_false_iff. intros [[[_ Hlen] Hp] _].
  destruct (Ins m !! 2%nat) as [p|]; [|done]. exists p.
  apply bool_decide_eq_false in Hp. destruct (in_Ptr p) as [t|]; [by exists t|done].
Qed.

(** The only methods of a service are those of its receiver that can be called
    with an argument and a pointer to a reply. *)
Lemma MakeService_methods (r : Rcvr rtype) mn m :
  methods (MakeService r) !! mn = Some m →
  m ∈ Methods r ∧ Method_Name m = mn ∧ looks_like_handler m = true.
Proof.
  intros [Hm|Hm]%handler_methods; [by rewrite lookup_empty in Hm|done].
Qed.

Lemma split_no_dot s : LastIndex s "." = -1 → split_svcMeth s = Panic.
Proof. unfold split_svcMeth. intros ->. by rewrite decide_True by lia. Qed.

Lemma split_last_dot sn mn :
  LastIndex mn "." = -1 → split_svcMeth (sn +:+ "." +:+ mn) = Ok (sn, mn).
Proof.
  intros Hm. change ("." +:+ mn) with (String "."%char mn).
  unfold split_svcMeth. rewrite (LastIndex_dot sn mn Hm). rewrite decide_False by lia.
  by rewrite string_to_app, string_from_app.
Qed.
End Services.

(** ** Calls *)
Section Calls.
Context {Name : Type} `{Countable Name} {rtype Value : Type}.
Context (TypeOf : Value → rtype) (New : rtype → Value).
Context (gob_Encode : Value → bytes * bool) (gob_Decode : Value → bytes → Value * bool).
Context (handles : Rcvr rtype → Method rtype → Value → Value → Value → Prop).
Notation World := (@World Name _ _ rtype Value).
Notation Call := (Call Name rtype Value).
Notation Event := (@Event Name rtype Value).
Notation reqMsg := (reqMsg Name rtype).
Notation dispatch := (dispatch New gob_Decode).
Notation dispatch_reply := (dispatch_reply gob_Encode).
Notation step := (step TypeOf New gob_Encode gob_Decode handles).
Notation run := (run TypeOf New gob_Encode gob_Decode handles).
Implicit Types (w : World) (cs : Call) (e : Event) (tr : list Event).

Definition decoded (req : reqMsg) : Value := fst (gob_Decode (New (argsType req)) (args req)).

(** A request whose text has no dot makes the process panic; one for a
    service or a method the server does not have ends it with a message; any
    other is counted and runs the method of that name, of the service named
    before the last dot, on the decoded argument and a new reply. *)
Theorem dispatch_spec (req : reqMsg) (sid : nat) (rs : Server rtype) :
  services_ok rs →
  (LastIndex (svcMeth req) "." = -1 → dispatch req sid rs = Panic) ∧
  (∀ sn mn, svcMeth req = sn +:+ "." +:+ mn → LastIndex mn "." = -1 →
    match services rs !! sn with
    | None => dispatch req sid rs = Fatal "labrpc.Server.dispatch(): unknown service"
    | Some svc =>
        match methods svc !! mn with
        | None => dispatch req sid rs = Fatal "labrpc.Service.dispatch(): unknown method"
        | Some m =>
            Indirect_Name (rcvr svc) = sn ∧ m ∈ Methods (rcvr svc) ∧ Method_Name m = mn ∧
            ∃ p t, Ins m !! 2%nat = Some p ∧ in_Ptr p = Some t ∧
            dispatch req sid rs =
              Ok (mkServer _ (services rs) (s_count rs + 1),
                  HRunning sid (rcvr svc) m (decoded req) (New t))
        end
    end).
Proof.
  intros Hrs. unfold dispatch, Server_dispatch, Service_dispatch, decoded. split.
  - intros Hd. by rewrite split_no_dot.
  - intros sn mn -> Hm. rewrite split_last_dot by done. cbn [services].
    destruct (services rs !! sn) as [svc|] eqn:Hsvc; [|done].
    destruct (Hrs sn svc Hsvc) as [-> Hmk].
    destruct (methods svc !! mn) as [m|] eqn:Hmeth; [|done].
    rewrite Hmk in Hmeth. apply MakeService_methods in Hmeth as (Hin & Hname & Hlike).
    split; [done|]. split; [done|]. split; [done|].
    destruct (looks_like_handler_Ptr m Hlike) as (p & t & Hp & Ht).
    exists p, t. rewrite Hp, Ht. split; [done|]. split; [done|].
    by destruct (gob_Decode _ _).
Qed.

(** What a successful dispatch ran. *)
Lemma dispatch_Ok req sid rs rs' h :
  services_ok rs → dispatch req sid rs = Ok (rs', h) →
  services rs' = services rs ∧ s_count rs' = s_count rs + 1 ∧
  ∃ r m replyv, h = HRunning sid r m (decoded req) replyv ∧
    split_svcMeth (svcMeth req) = Ok (Indirect_Name r, Method_Name m) ∧ m ∈ Methods r.
Proof.
  intros Hrs. unfold dispatch, Server_dispatch, Service_dispatch, decoded.
  destruct (split_svcMeth (svcMeth req)) as [[sn mn]| |]; try done. cbn [services].
  destruct (services rs !! sn) as [svc|] eqn:Hsvc; [|done].
  destruct (Hrs sn svc Hsvc) as [-> Hmk].
  destruct (methods svc !! mn) as [m|] eqn:Hmeth; [|done].
  destruct (Ins m !! 2%nat) as [p|]; [|done]. destruct (in_Ptr p) as [t|]; [|done].
  destruct (gob_Decode _ _) as [argv okay]. intros [= <- <-].
  rewrite Hmk in Hmeth. apply MakeService_methods in Hmeth as (Hin & <- & _).
  split; [done|]. split; [done|]. eexists _, m, _. split; [done|]. done.
Qed.

(** Dispatch depends on the services only. *)
Lemma dispatch_services (req : reqMsg) sid rs rs0 rs' h :
  dispatch req sid rs = Ok (rs', h) → services rs0 = services rs →
  ∃ rs1, dispatch req sid rs0 = Ok (rs1, h) ∧ services rs1 = services rs.
Proof.
  unfold dispatch, Server_dispatch. cbn [services]. intros Hd Hs. rewrite Hs.
  destruct (split_svcMeth (svcMeth req)) as [[sn mn]| |]; try done.
  destruct (services rs !! sn) as [svc|]; [|done].
  destruct (Service_dispatch mn svc) as [[m t]| |]; try done.
  destruct (gob_Decode _ _) as [argv okay]. injection Hd as _ <-. eexists. split; reflexivity.
Qed.

(** *** The history of a call *)
Definition event_call e : option nat :=
  match e with
  | ECall c _ _ _ | ETake c | EDestroyed c | ERead c | EDropRequest c | EExecute c
  | EInvoke c _ _ _ _ | EHandled c _ | EReceive c | EPoll c | EDrain c | ELeave c
  | EFire c | ECount c | EReturn c => Some c
  | ECleanup | EExit | EAdmin _ => None
  end.

(** The runs of handlers for a call, and what handlers left in the reply. *)
Definition invocations (c : nat) tr : list (nat * Rcvr rtype * Method rtype * Value) :=
  omap (fun e => match e with
                 | EInvoke c' sid r m argv => if decide (c' = c) then Some (sid, r, m, argv) else None
                 | _ => None
                 end) tr.
Definition replies (c : nat) tr : list Value :=
  omap (fun e => match e with
                 | EHandled c' v => if decide (c' = c) then Some v else None
                 | _ => None
                 end) tr.

Lemma invocations_other c tr e : event_call e ≠ Some c → invocations c (tr ++ [e]) = invocations c tr.
Proof.
  intros He. unfold invocations. rewrite omap_app.
  destruct e; cbn in *; try (by rewrite app_nil_r); (case_decide; [congruence|by rewrite app_nil_r]).
Qed.

Lemma replies_other c tr e : event_call e ≠ Some c → replies c (tr ++ [e]) = replies c tr.
Proof.
  intros He. unfold replies. rewrite omap_app.
  destruct e; cbn in *; try (by rewrite app_nil_r); (case_decide; [congruence|by rewrite app_nil_r]).
Qed.

(** Where the goroutines of a call are, and its history. *)
Definition handler_ok tr c cs : Prop :=
  match c_handler cs with
  | HNone | HStart _ => invocations c tr = [] ∧ replies c tr = []
  | HRunning sid r m argv _ => invocations c tr = [(sid, r, m, argv)] ∧ replies c tr = []
  | HReturned rep => ∃ i v, invocations c tr = [i] ∧ replies c tr = [v] ∧ rep = dispatch_reply v
  | HDone => ∃ i v, invocations c tr = [i] ∧ replies c tr = [v]
  end.

Definition delivers tr c cs (rep : replyMsg) : Prop :=
  ok rep = true → c_handler cs = HDone ∧ ∃ v, replies c tr = [v] ∧ rep = dispatch_reply v.

Definition proc_ok tr c cs : Prop :=
  match c_proc cs with
  | PNone | PStart | PSend _ => c_handler cs = HNone ∧ c_drain cs = false
  | PWait t =>
      c_drain cs = false ∧
      match c_handler cs with
      | HStart sid | HRunning sid _ _ _ _ => sid = t_server t
      | HReturned _ => True
      | HNone | HDone => False
      end
  | PLeft _ None | PDone => True
  | PLeft _ (Some rep) | PTimer _ rep _ | PCount rep | PReply rep => delivers tr c cs rep
  end.

Definition client_ok tr c cs : Prop :=
  match c_client cs with
  | CSending => c_proc cs = PNone
  | CWaiting => True
  | CReturned false v => v = c_reply0 cs
  | CReturned true v =>
      c_handler cs = HDone ∧
      ∃ rv, replies c tr = [rv] ∧ gob_Decode (c_reply0 cs) (fst (gob_Encode rv)) = (v, true)
  end.

(** What was run is what the request asks for. *)
Definition request_ok tr c cs : Prop :=
  (∃ en meth argv, ECall c en meth argv ∈ tr ∧ svcMeth (c_req cs) = meth ∧
    args (c_req cs) = fst (gob_Encode argv) ∧ argsType (c_req cs) = TypeOf argv) ∧
  ∀ sid r m argv, (sid, r, m, argv) ∈ invocations c tr →
    argv = decoded (c_req cs) ∧ m ∈ Methods r ∧
    split_svcMeth (svcMeth (c_req cs)) = Ok (Indirect_Name r, Method_Name m).

Record call_ok tr c cs : Prop := {
  co_handler : handler_ok tr c cs;
  co_proc : proc_ok tr c cs;
  co_client : client_ok tr c cs;
  co_request : request_ok tr c cs
}.

Record world_ok tr w : Prop := {
  wo_heap : ∀ sid rs, w_heap w !! sid = Some rs → services_ok rs;
  wo_new : ∀ c, w_calls w !! c = None → invocations c tr = [] ∧ replies c tr = [];
  wo_call : ∀ c cs, w_calls w !! c = Some cs → call_ok tr c cs
}.

Lemma call_ok_other tr e c cs : event_call e ≠ Some c → call_ok tr c cs → call_ok (tr ++ [e]) c cs.
Proof.
  intros He [Hh Hp Hc [Hr Hi]]. unfold handler_ok, proc_ok, client_ok, delivers in *.
  split; unfold handler_ok, proc_ok, client_ok, delivers, request_ok;
    rewrite ?invocations_other, ?replies_other by done; try done.
  split; [|done]. destruct Hr as (en & meth & argv & Hin & Hr). exists en, meth, argv.
  split; [|done]. apply elem_of_app. by left.
Qed.

(** Steps of the calls: the others keep what they have. *)
Lemma world_ok_call tr e w w' c cs' :
  world_ok tr w → event_call e = Some c → w_calls w' = <[c := cs']> (w_calls w) →
  (∀ sid rs, w_heap w' !! sid = Some rs → services_ok rs) →
  call_ok (tr ++ [e]) c cs' → world_ok (tr ++ [e]) w'.
Proof.
  intros [_ Hn Hc] He Hw Hheap Hcs. split; [done| |]; intros c' *; rewrite Hw.
  - intros [Hc' Hne]%lookup_insert_None.
    rewrite invocations_other, replies_other by congruence. by apply Hn.
  - intros [[<- <-]|[Hne Hc']]%lookup_insert_Some; [done|].
    apply call_ok_other; [congruence|]. by apply Hc.
Qed.

(** Steps of the network and the test. *)
Lemma world_ok_net tr e w w' :
  world_ok tr w → event_call e = None → w_calls w' = w_calls w →
  (∀ sid rs, w_heap w' !! sid = Some rs → services_ok rs) → world_ok (tr ++ [e]) w'.
Proof.
  intros [_ Hn Hc] He Hw Hheap. split; [done| |]; intros c' *; rewrite Hw.
  - rewrite invocations_other, replies_other by congruence. apply Hn.
  - intros Hc'. apply call_ok_other; [congruence|]. by apply Hc.
Qed.

Lemma admin_ok a w w' :
  (∀ sid rs, w_heap w !! sid = Some rs → services_ok rs) → admin a w = Ok w' →
  w_calls w' = w_calls w ∧ ∀ sid rs, w_heap w' !! sid = Some rs → services_ok rs.
Proof.
  intros Hh Ha. unfold admin in Ha. destruct a; try (by simplify_eq).
  - destruct (MakeEnd _ _) as [[]| |]; by simplify_eq.
  - destruct (DeleteEnd _ _); by simplify_eq.
  - destruct (w_heap w !! sid); by simplify_eq.
  - destruct (w_heap w !! sid) eqn:E; [done|]. simplify_eq. split; [done|].
    intros sid' rs Hrs. cbn in Hrs.
    apply lookup_insert_Some in Hrs as [[_ <-]|[_ Hrs]]; [apply MakeServer_ok|by eapply Hh].
  - destruct (w_heap w !! sid) as [rs0|] eqn:E; [|done]. simplify_eq. split; [done|].
    intros sid' rs Hrs. cbn in Hrs.
    apply lookup_insert_Some in Hrs as [[_ <-]|[_ Hrs]]; [by eapply AddService_ok, Hh|by eapply Hh].
Qed.

(** The history after one more event of the call. *)
Lemma invocations_snoc c tr e :
  invocations c (tr ++ [e]) =
  invocations c tr ++ match e with
    | EInvoke c' sid r m argv => if decide (c' = c) then [(sid, r, m, argv)] else []
    | _ => []
    end.
Proof.
  unfold invocations. rewrite omap_app. f_equal. destruct e; try done. cbn. by case_decide.
Qed.

Lemma replies_snoc c tr e :
  replies c (tr ++ [e]) =
  replies c tr ++ match e with
    | EHandled c' v => if decide (c' = c) then [v] else []
    | _ => []
    end.
Proof. unfold replies. rewrite omap_app. f_equal. destruct e; try done. cbn. by case_decide. Qed.

(** An event of the call that runs no handler keeps the request and the history. *)
Lemma history_same tr c e cs cs' :
  (∀ sid r m argv, e ≠ EInvoke c sid r m argv) → (∀ v, e ≠ EHandled c v) →
  c_req cs' = c_req cs → request_ok tr c cs →
  invocations c (tr ++ [e]) = invocations c tr ∧ replies c (tr ++ [e]) = replies c tr ∧
  request_ok (tr ++ [e]) c cs'.
Proof.
  intros Hi Hv Hr [(en & meth & argv & Hin & Hreq) Hinv].
  assert (invocations c (tr ++ [e]) = invocations c tr) as E1.
  { rewrite invocations_snoc. destruct e; rewrite ?app_nil_r; try done.
    case_decide; [|by rewrite app_nil_r]. subst. by destruct (Hi sid r m argv0). }
  split; [done|]. split.
  { rewrite replies_snoc. destruct e; rewrite ?app_nil_r; try done.
    case_decide; [|by rewrite app_nil_r]. subst. by destruct (Hv v). }
  unfold request_ok. rewrite E1, Hr. split; [|done].
  exists en, meth, argv. split; [|done]. apply elem_of_app. by left.
Qed.

Lemma after_read_shape (i : @EndnameInfo Name) ld draw :
  (∃ t, after_read i ld draw = PSend t) ∨ (∃ ms, after_read i ld draw = PTimer ms failed false).
Proof.
  unfold after_read. destruct (i_servername i), (i_server i); eauto. destruct (i_enabled i); eauto.
Qed.

Lemma after_loop_shape (t : Target Name) rep dead d1 d2 d3 d4 :
  after_loop t rep dead d1 d2 d3 d4 = PReply failed ∨
  ∃ r, rep = Some r ∧ dead = false ∧
    (after_loop t rep dead d1 d2 d3 d4 = PCount r ∨
     ∃ ms, after_loop t rep dead d1 d2 d3 d4 = PTimer ms r true).
Proof.
  unfold after_loop. destruct rep as [r|]; [|by left]. destruct dead; [by left|].
  destruct (drops _ _); [by left|]. right. exists r. destruct (_ && _); eauto.
Qed.

(** One step of a call other than the two of its handler. *)
Ltac call_moves Hok :=
  let Ei := fresh "Ei" in let Er := fresh "Er" in let Hq' := fresh "Hq" in
  let Hh := fresh "Hh" in let Hp := fresh "Hp" in let Hc := fresh "Hc" in let Hq := fresh "Hq" in
  destruct Hok as [Hh Hp Hc Hq];
  match goal with |- call_ok (?tr ++ [?e]) ?c ?cs' =>
    match type of Hq with request_ok _ _ ?cs =>
      destruct (history_same tr c e cs cs') as (Ei & Er & Hq'); [done..|] end end;
  unfold handler_ok, proc_ok, client_ok, delivers in *;
  split; unfold handler_ok, proc_ok, client_ok, delivers; rewrite ?Ei, ?Er; cbn in *; try done.

Ltac call_step Hok :=
  lazymatch type of Hok with call_ok _ _ ?cs => destruct cs; cbn in *; subst end;
  call_moves Hok; try (repeat case_match; naive_solver).

(** The two steps of the handler. *)
Lemma invoke_ok tr c cs sid r m replyv :
  c_handler cs = HStart sid → m ∈ Methods r →
  split_svcMeth (svcMeth (c_req cs)) = Ok (Indirect_Name r, Method_Name m) →
  call_ok tr c cs →
  call_ok (tr ++ [EInvoke c sid r m (decoded (c_req cs))]) c
    (cs <| c_handler := HRunning sid r m (decoded (c_req cs)) replyv |>).
Proof.
  intros Hhd Hm Hsplit [Hh Hp Hc [(en & meth & argv & Hin & Hreq) _]].
  unfold handler_ok, proc_ok, client_ok, delivers in *. rewrite Hhd in Hh, Hp, Hc.
  destruct Hh as [Ei Er].
  assert (invocations c (tr ++ [EInvoke c sid r m (decoded (c_req cs))])
          = [(sid, r, m, decoded (c_req cs))]) as Ei'
    by (rewrite invocations_snoc, Ei, decide_True; done).
  assert (replies c (tr ++ [EInvoke c sid r m (decoded (c_req cs))]) = []) as Er'
    by (rewrite replies_snoc, Er; done).
  split; unfold handler_ok, proc_ok, client_ok, delivers, request_ok; rewrite ?Ei', ?Er'; cbn; [done| | |].
  - destruct (c_proc cs) as [| | | |? []| | | |]; naive_solver.
  - destruct (c_client cs) as [| |[]]; naive_solver.
  - split; [|by intros ? ? ? ? [= -> -> -> ->]%list_elem_of_singleton].
    exists en, meth, argv. split; [|done]. apply elem_of_app. by left.
Qed.

Lemma handled_ok tr c cs sid r m argv replyv v :
  c_handler cs = HRunning sid r m argv replyv → call_ok tr c cs →
  call_ok (tr ++ [EHandled c v]) c (cs <| c_handler := HReturned (dispatch_reply v) |>).
Proof.
  intros Hhd [Hh Hp Hc [(en & meth & argv' & Hin & Hreq) Hinv]].
  unfold handler_ok, proc_ok, client_ok, delivers in *. rewrite Hhd in Hh, Hp, Hc.
  destruct Hh as [Ei Er].
  assert (invocations c (tr ++ [EHandled c v]) = invocations c tr) as Ei'
    by (rewrite invocations_snoc, app_nil_r; done).
  assert (replies c (tr ++ [EHandled c v]) = [v]) as Er'
    by (rewrite replies_snoc, Er, decide_True; done).
  split; unfold handler_ok, proc_ok, client_ok, delivers, request_ok; rewrite ?Ei', ?Er'; cbn.
  - rewrite Ei. eauto.
  - destruct (c_proc cs) as [| | | |? []| | | |]; naive_solver.
  - destruct (c_client cs) as [| |[]]; naive_solver.
  - split; [|done]. exists en, meth, argv'. split; [|done]. apply elem_of_app. by left.
Qed.

Lemma called_ok tr w c en meth argv reply0 req :
  world_ok tr w → w_calls w !! c = None → Call_request TypeOf gob_Encode en meth argv c = Ok req →
  call_ok (tr ++ [ECall c en meth argv]) c (new_call req reply0).
Proof.
  intros Hok Hnone Hreq. destruct (wo_new _ _ Hok c Hnone) as [Ei Er].
  assert (invocations c (tr ++ [ECall c en meth argv]) = []) as Ei'
    by (rewrite invocations_snoc, Ei; done).
  unfold Call_request in Hreq. destruct (gob_Encode argv) as [b okb] eqn:Henc.
  destruct okb; [|done]. injection Hreq as <-. split; cbn; [|done..|].
  - unfold handler_ok. cbn. split; [done|]. by rewrite replies_snoc, Er.
  - split; [|intros * Hin; rewrite Ei' in Hin; by apply not_elem_of_nil in Hin].
    exists en, meth, argv. cbn. rewrite Henc. split; [|done].
    apply elem_of_app. right. left.
Qed.

Lemma step_ok tr w e w' : world_ok tr w → step w e w' → world_ok (tr ++ [e]) w'.
Proof.
  intros Hok Hs. pose proof (wo_heap _ _ Hok) as Hheap.
  destruct Hs as [c en meth argv reply0 req Hnone Hreq|c cs Hl Hcl Ht|c cs Hl Hcl Hd
    |c cs draw Hl Hpr _|c cs t draw Hl Hpr _ _|c cs t draw Hl Hpr _ _
    |c cs sid rs rs' r m argv replyv Hl Hhd Hrs Hdisp|c cs sid r m argv replyv v Hl Hhd _
    |c cs t rep Hl Hpr Hhd|c cs t Hl Hpr|c cs rep Hl Hdr Hhd|c cs t rep d1 d2 d3 d4 Hl Hpr _ _ _ _
    |c cs ms rep counts Hl Hpr|c cs rep Hl Hpr|c cs rep okay v Hl Hcl Hpr Hrep|Hd|Hd|a w' Ha];
    try (eapply world_ok_call; [exact Hok|reflexivity|reflexivity|exact Hheap|];
         pose proof (wo_call _ _ Hok c cs Hl) as Hco).
  - eapply world_ok_call; [exact Hok|reflexivity|reflexivity|exact Hheap|]. by eapply called_ok.
  - call_step Hco.
  - call_step Hco.
  - destruct (after_read_shape (readEndnameInfo (endname (c_req cs)) (w_net w)) (longDelays (w_net w)) draw)
      as [[t ->]|[ms ->]]; call_step Hco.
  - call_step Hco.
  - call_step Hco.
  - destruct (dispatch_Ok _ _ _ _ _ (Hheap sid rs Hrs) Hdisp) as (Hsvc & _ & r' & m' & rv & Heq & Hsplit & Hin).
    injection Heq as <- <- -> <-.
    eapply world_ok_call; [exact Hok|reflexivity|reflexivity| |].
    { intros sid' rs0 Hl'. cbn in Hl'. apply lookup_insert_Some in Hl' as [[_ <-]|[_ Hl']];
        [|by eapply Hheap]. intros k svc. rewrite Hsvc. by apply (Hheap sid rs). }
    by apply invoke_ok, (wo_call _ _ Hok).
  - by eapply handled_ok.
  - call_step Hco.
  - destruct (isServerDead _ _ _ _); call_step Hco.
  - call_step Hco.
  - destruct (after_loop_shape t rep (isServerDead (endname (c_req cs)) (t_servername t) (t_server t) (w_net w))
      d1 d2 d3 d4) as [->|(r & -> & _ & [->|[ms ->]])]; call_step Hco.
  - call_step Hco.
  - call_step Hco.
  - unfold Call_reply in Hrep. destruct (ok rep) eqn:Hrok.
    + destruct (gob_Decode _ _) as [v' [|]] eqn:Hdec; [|done]. call_step Hco.
    + call_step Hco.
  - by eapply world_ok_net.
  - by eapply world_ok_net.
  - destruct (admin_ok a w w' Hheap Ha). by eapply world_ok_net.
Qed.

Lemma run_ok tr w : run World_init tr w → world_ok tr w.
Proof.
  induction 1 as [|tr w1 e w2 _ IH Hs]; [|by eapply step_ok].
  split; cbn.
  - intros sid rs Hs. by rewrite lookup_empty in Hs.
  - done.
  - intros c cs Hc. by rewrite lookup_empty in Hc.
Qed.

(** C31: Whatever the network, the test and the other calls do, a call runs a
    handler at most once.  If it returns true, the handler was the method its
    text names, ran once, on the decoded argument, and returned; and the reply
    variable is what decoding that handler's reply into it gives. *)
Theorem Call_at_most_once tr w c cs :
  run World_init tr w → w_calls w !! c = Some cs →
  (length (invocations c tr) ≤ 1)%nat ∧
  ∀ v, c_client cs = CReturned true v →
    ∃ en meth argv sid r m rv,
      ECall c en meth argv ∈ tr ∧
      split_svcMeth meth = Ok (Indirect_Name r, Method_Name m) ∧ m ∈ Methods r ∧
      invocations c tr =
        [(sid, r, m, fst (gob_Decode (New (TypeOf argv)) (fst (gob_Encode argv))))] ∧
      replies c tr = [rv] ∧
      gob_Decode (c_reply0 cs) (fst (gob_Encode rv)) = (v, true).
Proof.
  intros Hrun Hc. destruct (wo_call _ _ (run_ok _ _ Hrun) c cs Hc) as [Hh _ Hcl [Hreq Hinv]].
  unfold handler_ok in Hh. split.
  { destruct (c_handler cs); [destruct Hh as [-> _]; cbn; lia..| |];
      destruct Hh as (i & v & -> & _); cbn; lia. }
  intros v Hv. unfold client_ok in Hcl. rewrite Hv in Hcl. destruct Hcl as (Hd & rv & Hrv & Hdec).
  rewrite Hd in Hh. destruct Hh as ([[[sid r] m] a] & v' & Ei & _).
  destruct Hreq as (en & meth & argv & Hin & <- & Hargs & Htype).
  destruct (Hinv sid r m a) as (-> & Hm & Hsplit); [rewrite Ei; left|].
  unfold decoded in Ei. rewrite Hargs, Htype in Ei.
  by exists en, (svcMeth (c_req cs)), argv, sid, r, m, rv.
Qed.

(** ** Deleted servers *)
Definition unregistered (sid : nat) w : Prop := ∀ sn, server_at (w_net w) sn ≠ Some sid.

Lemma unregistered_dead sid w en sn : unregistered sid w → isServerDead en sn sid (w_net w) = true.
Proof.
  intros Hu. unfold isServerDead. rewrite bool_decide_eq_true_2 by apply Hu. apply orb_true_r.
Qed.

(** The call cannot return true any more. *)
Definition doomed (sid : nat) cs : Prop :=
  c_client cs ≠ CSending ∧ (∀ v, c_client cs ≠ CReturned true v) ∧
  match c_proc cs with
  | PNone | PStart | PSend _ => False
  | PWait t => t_server t = sid
  | PLeft t (Some rep) => t_server t = sid ∨ ok rep = false
  | PTimer _ rep _ | PCount rep | PReply rep => ok rep = false
  | PLeft _ None | PDone => True
  end.

Lemma servers_of_step w e w' :
  step w e w' →
  servers (w_net w') = servers (w_net w) ∨
  (∃ sn sid, e = EAdmin (AAddServer sn sid) ∧ servers (w_net w') = <[sn := Some sid]> (servers (w_net w))) ∨
  (∃ sn, servers (w_net w') = <[sn := None]> (servers (w_net w))).
Proof.
  destruct 1 as [| | | | | | | | | | | | | | | | |a w' Ha]; try (by left).
  destruct a; cbn in Ha; try (simplify_eq; by left).
  - unfold MakeEnd in Ha. destruct (ends _ !! _); simplify_eq. by left.
  - unfold DeleteEnd in Ha. destruct (ends _ !! _); simplify_eq. by left.
  - destruct (w_heap w !! sid); simplify_eq. right. left. eauto.
  - simplify_eq. right. right. eauto.
  - destruct (w_heap w !! sid); simplify_eq. by left.
  - destruct (w_heap w !! sid); simplify_eq. by left.
Qed.

Lemma unregistered_step sid w e w' :
  unregistered sid w → step w e w' → (∀ sn, e ≠ EAdmin (AAddServer sn sid)) → unregistered sid w'.
Proof.
  intros Hu Hs He sn. specialize (Hu sn). unfold server_at in *.
  destruct (servers_of_step _ _ _ Hs) as [->|[(sn' & sid' & -> & ->)|(sn' & ->)]]; [done| |].
  - destruct (decide (sn' = sn)) as [->|]; [|by rewrite lookup_insert_ne].
    rewrite lookup_insert_eq. cbn. intros [= ->]. by apply (He sn).
  - destruct (decide (sn' = sn)) as [->|]; [by rewrite lookup_insert_eq|by rewrite lookup_insert_ne].
Qed.

(** Steps of other calls do not touch a call. *)
Lemma step_calls w e w' c cs :
  step w e w' → w_calls w !! c = Some cs → event_call e ≠ Some c → w_calls w' !! c = Some cs.
Proof.
  intros Hs Hc He. destruct Hs as [| | | | | | | | | | | | | | | | |a w' Ha];
    try (cbn in *; rewrite lookup_insert_ne by congruence; exact Hc); try exact Hc.
  destruct a; cbn in Ha; try (by simplify_eq).
  - destruct (MakeEnd _ _) as [[]| |]; by simplify_eq.
  - destruct (DeleteEnd _ _); by simplify_eq.
  - destruct (w_heap w !! sid); by simplify_eq.
  - destruct (w_heap w !! sid); by simplify_eq.
  - destruct (w_heap w !! sid); by simplify_eq.
Qed.

Lemma doomed_step sid w e w' c cs :
  unregistered sid w → step w e w' → w_calls w !! c = Some cs → doomed sid cs →
  ∃ cs', w_calls w' !! c = Some cs' ∧ doomed sid cs'.
Proof.
  intros Hu Hs Hc Hd. destruct (decide (event_call e = Some c)) as [He|He];
    [|by exists cs; split; [eapply step_calls|]].
  destruct Hs as [? ? ? ? ? ? Hnone ?|c0 cs0 Hl Hcl Ht|c0 cs0 Hl Hcl Hd'
    |c0 cs0 draw Hl Hpr _|c0 cs0 t draw Hl Hpr _ _|c0 cs0 t draw Hl Hpr _ _
    |c0 cs0 sid0 rs rs' r m argv replyv Hl Hhd Hrs Hdisp|c0 cs0 sid0 r m argv replyv v Hl Hhd _
    |c0 cs0 t rep Hl Hpr Hhd|c0 cs0 t Hl Hpr|c0 cs0 rep Hl Hdr Hhd|c0 cs0 t rep d1 d2 d3 d4 Hl Hpr _ _ _ _
    |c0 cs0 ms rep counts Hl Hpr|c0 cs0 rep Hl Hpr|c0 cs0 rep okay v Hl Hcl Hpr Hrep|? |? |a w' Ha];
    cbn in He; simplify_eq;
    (eexists; split; [apply lookup_insert_eq|]); destruct Hd as (Hns & Hnt & Hp);
    lazymatch type of Hp with context [c_proc ?x] => destruct x end; cbn in *; subst;
    try done; try (split; [done|]; split; [done|]); cbn in *; try done.
  - by left.
  - destruct (isServerDead _ _ _ _); (split; [done|]; split; done).
  - destruct (after_loop_shape t rep (isServerDead (endname c_req) (t_servername t) (t_server t) (w_net w))
      d1 d2 d3 d4) as [->|(r & -> & Hdead & Hr)]; [done|].
    destruct Hp as [Hp|Hp]; [|by destruct Hr as [->|[ms ->]]].
    subst sid.
    by rewrite (unregistered_dead (t_server t) w) in Hdead.
  - by destruct counts.
  - unfold Call_reply in Hrep. rewrite Hp in Hrep. by simplify_eq.
Qed.

Lemma doomed_run sid w1 tr w2 c cs1 :
  unregistered sid w1 → w_calls w1 !! c = Some cs1 → doomed sid cs1 →
  run w1 tr w2 → (∀ sn, EAdmin (AAddServer sn sid) ∉ tr) →
  unregistered sid w2 ∧ ∃ cs2, w_calls w2 !! c = Some cs2 ∧ doomed sid cs2.
Proof.
  intros Hu Hc Hd Hrun. induction Hrun as [|tr w2 e w3 _ IH Hs]; intros Htr; [by eauto|].
  destruct IH as (Hu2 & cs2 & Hc2 & Hd2).
  { intros sn Hin. apply (Htr sn), elem_of_app. by left. }
  split; [|by eapply doomed_step].
  eapply unregistered_step; [done..|]. intros sn ->. apply (Htr sn), elem_of_app. right. left.
Qed.

(** C32: The promise of [processReq]: if a server is not registered while the
    handler of a call runs on it, and that server is not added again, then the
    call never returns true, whatever happens. *)
Theorem deleted_server_silent tr1 w1 tr2 w2 c cs1 cs2 sid :
  run World_init tr1 w1 → w_calls w1 !! c = Some cs1 →
  (c_handler cs1 = HStart sid ∨ ∃ r m argv replyv, c_handler cs1 = HRunning sid r m argv replyv) →
  (∀ sn, server_at (w_net w1) sn ≠ Some sid) →
  run w1 tr2 w2 → (∀ sn, EAdmin (AAddServer sn sid) ∉ tr2) →
  w_calls w2 !! c = Some cs2 → ∀ v, c_client cs2 ≠ CReturned true v.
Proof.
  intros Hrun1 Hc1 Hh Hu Hrun2 Htr Hc2.
  destruct (wo_call _ _ (run_ok _ _ Hrun1) c cs1 Hc1) as [_ Hp Hcl _].
  assert (doomed sid cs1) as Hd.
  { unfold doomed. unfold proc_ok, client_ok, delivers in *.
    assert (c_handler cs1 ≠ HNone ∧ c_handler cs1 ≠ HDone) as [Hn Hdn]
      by (destruct Hh as [->|(r & m & argv & rv & ->)]; done).
    destruct cs1 as [rq r0 cl pr hd dr]; cbn in *.
    split; [destruct cl; [|done..]; subst; by destruct Hp|].
    split; [intros v ->; by destruct Hcl|].
    destruct pr as [| | |t|t [rep|]|ms rep cn|rep|rep|]; try done; try (by destruct Hp).
    - destruct Hp as [_ Hp]. by destruct Hh as [->|(r & m & argv & rv & ->)].
    - right. by apply not_true_is_false; intros [? _]%Hp.
    - by apply not_true_is_false; intros [? _]%Hp.
    - by apply not_true_is_false; intros [? _]%Hp.
    - by apply not_true_is_false; intros [? _]%Hp. }
  destruct (doomed_run sid w1 tr2 w2 c cs1 Hu Hc1 Hd Hrun2 Htr) as (_ & cs & Hcs & [_ [Hnt _]]).
  simplify_eq. exact Hnt.
Qed.

(** ** Calls over a good network

    Between two moments of the test the network is reliable, the end [en] of the
    call enabled and connected to [sn], where the server [sid] is registered,
    whose services resolve the request. *)
Definition quiet tr : Prop := Forall (fun e => event_call e ≠ None) tr.

Record good (en sn : Name) (sid : nat) (svcs : gmap string (Service rtype)) w : Prop := {
  g_reliable : reliable (w_net w) = true;
  g_enabled : enabled (w_net w) !! en = Some true;
  g_connected : connections (w_net w) !! en = Some (Some sn);
  g_registered : server_at (w_net w) sn = Some sid;
  g_done : w_done w = false;
  g_taking : w_taking w = true;
  g_server : ∃ rs, w_heap w !! sid = Some rs ∧ services rs = svcs
}.

Section Good.
Context (req : reqMsg) (reply0 : Value) (sn : Name) (sid : nat) (svcs : gmap string (Service rtype)).
Context (r : Rcvr rtype) (m : Method rtype) (argv replyv : Value).
Notation good := (good (endname req) sn sid svcs).

Hypothesis resolves : ∀ rs, services rs = svcs →
  ∃ rs', dispatch req sid rs = Ok (rs', HRunning sid r m argv replyv) ∧ services rs' = svcs.
Hypothesis decodable : ∀ v, handles r m argv replyv v → snd (gob_Decode reply0 (fst (gob_Encode v))) = true.

Definition decodes (rep : replyMsg) : Prop := ∃ v, Call_reply gob_Decode rep reply0 = Ok (true, v).

Definition on_target (t : Target Name) : Prop :=
  t_servername t = sn ∧ t_server t = sid ∧ t_reliable t = true.

(** What a call can look like on a good network. *)
Definition healthy cs : Prop :=
  c_req cs = req ∧ c_reply0 cs = reply0 ∧ c_drain cs = false ∧
  match c_handler cs with
  | HStart sid' => sid' = sid
  | HRunning sid' r' m' argv' replyv' => r' = r ∧ m' = m ∧ argv' = argv ∧ replyv' = replyv
  | HReturned rep => decodes rep
  | HNone | HDone => True
  end ∧
  match c_client cs, c_proc cs with
  | CSending, PNone | CWaiting, PStart | CReturned true _, PDone => True
  | CWaiting, PSend t => on_target t
  | CWaiting, PWait t => on_target t ∧ c_handler cs ≠ HNone ∧ c_handler cs ≠ HDone
  | CWaiting, PLeft t (Some rep) => on_target t ∧ decodes rep
  | CWaiting, (PTimer _ rep _ | PCount rep | PReply rep) => decodes rep
  | _, _ => False
  end.

Lemma good_step w e w' : good w → step w e w' → event_call e ≠ None → good w'.
Proof.
  intros Hg Hs He. destruct Hs; try (by destruct He); try (by destruct Hg).
  destruct Hg as [? ? ? ? ? ? (rs0 & Hrs0 & Hsv)]. split; try done. cbn.
  destruct (decide (sid0 = sid)) as [->|]; [|rewrite lookup_insert_ne by done; eauto].
  simplify_eq. destruct (resolves rs0 eq_refl) as (rs2 & Hd & Hsv2).
  exists rs'. rewrite lookup_insert_eq. split; [done|].
  unfold LabrpcWorld.dispatch, Server_dispatch in *.
  repeat case_match; by simplify_eq.
Qed.

Lemma good_alive w t : good w → on_target t → isServerDead (endname req) (t_servername t) (t_server t) (w_net w) = false.
Proof.
  intros Hg (-> & -> & _). unfold isServerDead. rewrite (g_enabled _ _ _ _ _ Hg). cbn.
  rewrite bool_decide_eq_false_2; [done|]. intros Hn. apply Hn, Hg.
Qed.

Lemma good_read w draw :
  good w → ∃ t, on_target t ∧
  after_read (readEndnameInfo (endname req) (w_net w)) (longDelays (w_net w)) draw = PSend t.
Proof.
  intros [Hr He Hc Hs _ _ _]. unfold after_read, readEndnameInfo. rewrite He, Hc. cbn.
  rewrite Hs. eexists. by split; [|reflexivity].
Qed.

Lemma good_leave w t rep d1 d2 d3 d4 :
  good w → on_target t →
  let p := after_loop t (Some rep)
             (isServerDead (endname req) (t_servername t) (t_server t) (w_net w)) d1 d2 d3 d4 in
  p = PCount rep ∨ ∃ ms, p = PTimer ms rep true.
Proof.
  intros Hg Ht. rewrite (good_alive w t Hg Ht). unfold after_loop, drops.
  destruct Ht as (_ & _ & ->). cbn. destruct (_ && _); eauto.
Qed.

Lemma handled_decodes v : handles r m argv replyv v → decodes (dispatch_reply v).
Proof.
  intros Hv. apply decodable in Hv. unfold decodes, Call_reply. cbn.
  destruct (gob_Decode reply0 _) as [v' okay]. cbn in Hv. subst. eauto.
Qed.

Lemma resolved w rs rs' r' m' argv' replyv' :
  good w → w_heap w !! sid = Some rs →
  dispatch req sid rs = Ok (rs', HRunning sid r' m' argv' replyv') →
  r' = r ∧ m' = m ∧ argv' = argv ∧ replyv' = replyv.
Proof.
  intros [_ _ _ _ _ _ (rs0 & Hrs0 & Hsv)] Hrs Hd. rewrite Hrs0 in Hrs. injection Hrs as ->.
  destruct (resolves rs Hsv) as (rs2 & Hd2 & _). rewrite Hd2 in Hd. by injection Hd.
Qed.

Lemma healthy_step w e w' c cs :
  good w → step w e w' → event_call e ≠ None → w_calls w !! c = Some cs → healthy cs →
  ∃ cs', w_calls w' !! c = Some cs' ∧ healthy cs'.
Proof.
  intros Hg Hs Hq Hc Hh. destruct (decide (event_call e = Some c)) as [He|He];
    [|by exists cs; split; [eapply step_calls|]].
  destruct Hs as [? ? ? ? ? ? Hnone ?|c0 cs0 Hl Hcl Ht|c0 cs0 Hl Hcl Hd'
    |c0 cs0 draw Hl Hpr _|c0 cs0 t draw Hl Hpr _ Hdrop|c0 cs0 t draw Hl Hpr _ _
    |c0 cs0 sid0 rs rs' r' m' argv' replyv' Hl Hhd Hrs Hdisp|c0 cs0 sid0 r' m' argv' replyv' v Hl Hhd Hv
    |c0 cs0 t rep Hl Hpr Hhd|c0 cs0 t Hl Hpr|c0 cs0 rep Hl Hdr Hhd|c0 cs0 t rep d1 d2 d3 d4 Hl Hpr _ _ _ _
    |c0 cs0 ms rep counts Hl Hpr|c0 cs0 rep Hl Hpr|c0 cs0 rep okay v Hl Hcl Hpr Hrep|? |? |a w' Ha];
    try done; cbn in He; injection He as ->; rewrite Hc in *; simplify_eq;
    (eexists; split; [apply lookup_insert_eq|]); unfold healthy in *;
    lazymatch type of Hc with _ = Some ?x => destruct x as [rq r0 cl pr hd dr] end;
    cbn in *; subst; destruct Hh as (Hrq & Hr0 & Hdrn & Hhd' & Hp);
    try discriminate Hdrn; subst; try destruct cl as [| |[]]; try done.
  all: cbn in *; try (do 3 (split; [done|])).
  - by rewrite (g_done _ _ _ _ _ Hg) in Hd'.
  - destruct (good_read w draw Hg) as (t & Ht & ->). by split.
  - destruct Hp as (_ & _ & Hrel). unfold drops in Hdrop. by rewrite Hrel in Hdrop.
  - destruct Hp as (Hsn & Hsid & Hrel). by repeat split.
  - split; [by eapply resolved|done].
  - split; [by eapply resolved|]. destruct pr as [| | | |? []| | | |]; try done.
    by destruct Hp.
  - split; [by eapply resolved|done].
  - destruct Hhd' as (-> & -> & -> & ->). split; [by apply handled_decodes|done].
  - destruct Hhd' as (-> & -> & -> & ->). split; [by apply handled_decodes|].
    destruct pr as [| | | |? []| | | |]; try done.
    by destruct Hp.
  - destruct Hhd' as (-> & -> & -> & ->). split; [by apply handled_decodes|done].
  - by destruct Hp.
  - destruct Hp as [Ht Hp]. by rewrite (good_alive w t Hg Ht).
  - split; [done|]. destruct rep as [rep|]; [|done]. destruct Hp as [Ht Hp].
    destruct (good_leave w t rep d1 d2 d3 d4 Hg Ht) as [->|[ms ->]]; done.
  - split; [done|]. by destruct counts.
  - split; [done|]. destruct Hp as (v' & Hv'). rewrite Hv' in Hrep. by injection Hrep as <- _.
Qed.

Lemma healthy_run w1 tr w2 c cs1 :
  good w1 → w_calls w1 !! c = Some cs1 → healthy cs1 → run w1 tr w2 → quiet tr →
  good w2 ∧ ∃ cs2, w_calls w2 !! c = Some cs2 ∧ healthy cs2.
Proof.
  intros Hg Hc Hh Hrun. induction Hrun as [|tr w2 e w3 _ IH Hs]; intros Hq;
    [split; [done|by exists cs1]|].
  apply Forall_app in Hq as [Hq He%Forall_cons_1]. destruct He as [He _].
  destruct (IH Hq) as (Hg2 & cs2 & Hc2 & Hh2). split; [exact (good_step _ _ _ Hg2 Hs He)|].
  exact (healthy_step _ _ _ _ _ Hg2 Hs He Hc2 Hh2).
Qed.

(** *** The call can go on to its end *)
Definition returns c w : Prop :=
  ∃ tr w' cs v, run w tr w' ∧ quiet tr ∧ w_calls w' !! c = Some cs ∧ c_client cs = CReturned true v.

Lemma run_cons w e w1 tr w2 : step w e w1 → run w1 tr w2 → run w (e :: tr) w2.
Proof.
  intros Hs Hr. induction Hr as [|tr w2 e' w3 _ IH Hs'].
  - change (run w ([] ++ [e]) w1). eapply run_snoc; [constructor|done].
  - change (run w ((e :: tr) ++ [e']) w3). by eapply run_snoc.
Qed.

Lemma returns_step c w e w' : step w e w' → event_call e ≠ None → returns c w' → returns c w.
Proof.
  intros Hs He (tr & w2 & cs & v & Hr & Hq & Hc & Hv).
  exists (e :: tr), w2, cs, v. split; [by eapply run_cons|]. split; [by constructor|done].
Qed.

(** The phases, from the last to the first. *)
Lemma returns_reply c w cs rep :
  w_calls w !! c = Some cs → c_client cs = CWaiting → c_proc cs = PReply rep →
  c_reply0 cs = reply0 → decodes rep → returns c w.
Proof.
  intros Hc Hcl Hp Hr0 (v & Hv). rewrite <- Hr0 in Hv.
  eapply returns_step; [by eapply step_return|done|].
  do 4 eexists. split; [apply run_nil|]. split; [constructor|].
  split; [apply lookup_insert_eq|done].
Qed.

Lemma returns_count c w cs rep :
  w_calls w !! c = Some cs → c_client cs = CWaiting → c_proc cs = PCount rep →
  c_reply0 cs = reply0 → decodes rep → returns c w.
Proof.
  intros Hc Hcl Hp Hr0 Hd. eapply returns_step; [by eapply step_count|done|].
  eapply returns_reply; [apply lookup_insert_eq|done..].
Qed.

Lemma returns_timer c w cs ms rep counts :
  w_calls w !! c = Some cs → c_client cs = CWaiting → c_proc cs = PTimer ms rep counts →
  c_reply0 cs = reply0 → decodes rep → returns c w.
Proof.
  intros Hc Hcl Hp Hr0 Hd. eapply returns_step; [by eapply step_fire|done|].
  destruct counts; [eapply returns_count|eapply returns_reply]; try apply lookup_insert_eq; done.
Qed.

Lemma returns_left c w cs t rep :
  good w → w_calls w !! c = Some cs → c_client cs = CWaiting → c_proc cs = PLeft t (Some rep) →
  c_req cs = req → on_target t → c_reply0 cs = reply0 → decodes rep → returns c w.
Proof.
  intros Hg Hc Hcl Hp Hrq Ht Hr0 Hd.
  eapply returns_step; [by eapply (step_leave _ _ _ _ _ _ c cs t _ 0 0 0 0)|done|].
  pose proof (good_leave w t rep 0 0 0 0 Hg Ht) as Hl. rewrite Hrq.
  destruct Hl as [->|[ms ->]]; [eapply returns_count|eapply returns_timer];
    try apply lookup_insert_eq; done.
Qed.

Lemma returns_returned c w cs t rep :
  good w → w_calls w !! c = Some cs → c_client cs = CWaiting → c_proc cs = PWait t →
  c_handler cs = HReturned rep →
  c_req cs = req → on_target t → c_reply0 cs = reply0 → decodes rep → returns c w.
Proof.
  intros Hg Hc Hcl Hp Hhd Hrq Ht Hr0 Hd.
  pose proof (step_receive TypeOf New gob_Encode gob_Decode handles w c cs t rep Hc Hp Hhd) as Hs.
  eapply returns_step; [exact Hs|done|].
  eapply returns_left; [by eapply good_step|apply lookup_insert_eq|done..].
Qed.

Hypothesis answers : ∃ v, handles r m argv replyv v.

Lemma returns_wait c w cs t :
  good w → w_calls w !! c = Some cs → healthy cs → c_client cs = CWaiting →
  c_proc cs = PWait t → returns c w.
Proof.
  intros Hg Hc (Hrq & Hr0 & Hdr & Hhd & Hp) Hcl Hpr. rewrite Hcl, Hpr in Hp.
  destruct Hp as (Ht & Hn & Hd). destruct answers as (v & Hv).
  assert (∀ w cs rv, good w → w_calls w !! c = Some cs → c_client cs = CWaiting →
    c_proc cs = PWait t → c_req cs = req → c_reply0 cs = reply0 →
    c_handler cs = HRunning sid r m argv rv → rv = replyv → returns c w) as Hrunning.
  { clear - Hv Ht resolves decodable. intros w cs rv Hg Hc Hcl Hpr Hrq Hr0 Hhd ->.
    pose proof (step_handled TypeOf New gob_Encode gob_Decode handles w c cs _ _ _ _ _ v Hc Hhd Hv) as Hs.
    eapply returns_step; [exact Hs|done|].
    eapply returns_returned; [by eapply good_step|apply lookup_insert_eq|done..|].
    by apply handled_decodes. }
  destruct (c_handler cs) as [|sid'|sid' r' m' argv' rv'|rep|] eqn:Hh; try done.
  - subst sid'. destruct (g_server _ _ _ _ _ Hg) as (rs & Hrs & Hsv).
    destruct (resolves rs Hsv) as (rs' & Hdisp & _).
    assert (step w (EInvoke c sid r m argv)
      (set_call c (cs <| c_handler := HRunning sid r m argv replyv |>)
        (mkWorld (w_net w) (<[sid := rs']> (w_heap w)) (w_calls w) (w_done w) (w_taking w)))) as Hs.
    { eapply step_invoke; [done..|]. by rewrite Hrq. }
    eapply returns_step; [exact Hs|done|].
    eapply Hrunning; [by eapply good_step|apply lookup_insert_eq|done..].
  - destruct Hhd as (-> & -> & -> & ->).
    pose proof (step_handled TypeOf New gob_Encode gob_Decode handles w c cs _ _ _ _ _ v Hc Hh Hv) as Hs.
    eapply returns_step; [exact Hs|done|].
    eapply returns_returned; [by eapply good_step|apply lookup_insert_eq|done..|].
    by apply handled_decodes.
  - by eapply returns_returned.
Qed.

Lemma returns_send c w cs t :
  good w → w_calls w !! c = Some cs → healthy cs → c_client cs = CWaiting →
  c_proc cs = PSend t → returns c w.
Proof.
  intros Hg Hc (Hrq & Hr0 & Hdr & Hhd & Hp) Hcl Hpr. rewrite Hcl, Hpr in Hp.
  assert (drops (t_reliable t) 0 = false) as Hdrop by (destruct Hp as (_ & _ & ->); done).
  pose proof (step_execute TypeOf New gob_Encode gob_Decode handles w c cs t 0 Hc Hpr ltac:(lia) Hdrop) as Hs.
  eapply returns_step; [exact Hs|done|].
  eapply returns_wait; [by eapply good_step|apply lookup_insert_eq| |exact Hcl|reflexivity].
  destruct cs; cbn in *; subst. repeat split; try done; by destruct Hp as (? & ? & ?).
Qed.

Lemma returns_start c w cs :
  good w → w_calls w !! c = Some cs → healthy cs → c_client cs = CWaiting →
  c_proc cs = PStart → returns c w.
Proof.
  intros Hg Hc (Hrq & Hr0 & Hdr & Hhd & Hp) Hcl Hpr.
  pose proof (step_read TypeOf New gob_Encode gob_Decode handles w c cs 0 Hc Hpr ltac:(lia)) as Hs.
  eapply returns_step; [exact Hs|done|]. rewrite Hrq in *.
  destruct (good_read w 0 Hg) as (t & Ht & E). rewrite E in *.
  eapply returns_send; [by eapply good_step|apply lookup_insert_eq| |exact Hcl|reflexivity].
  destruct cs; cbn in *; subst. by repeat split; try apply Ht.
Qed.

Lemma healthy_returns c w cs :
  good w → w_calls w !! c = Some cs → healthy cs → returns c w.
Proof.
  intros Hg Hc Hh. pose proof Hh as (Hrq & Hr0 & Hdr & Hhd & Hp).
  destruct (c_client cs) as [| |[|] v] eqn:Hcl, (c_proc cs) as [| |t|t|t [rep|]|ms rep cn|rep|rep|] eqn:Hpr;
    try done.
  - pose proof (step_take TypeOf New gob_Encode gob_Decode handles w c cs Hc Hcl (g_taking _ _ _ _ _ Hg)) as Hs.
    eapply returns_step; [exact Hs|done|].
    eapply returns_start; [by eapply good_step|apply lookup_insert_eq| |reflexivity..].
    by destruct cs.
  - by eapply returns_start.
  - by eapply returns_send.
  - by eapply returns_wait.
  - destruct Hp. by eapply returns_left.
  - by eapply returns_timer.
  - by eapply returns_count.
  - by eapply returns_reply.
  - exists [], w, cs, v. split; [constructor|]. by split; [constructor|].
Qed.
End Good.

(** C33: Over a reliable network, from an enabled end connected to a registered
    server that resolves the request, a call never returns false while the test
    does nothing; and if the handler can return, with a reply that can be
    decoded, the call can always go on to return true. *)
Theorem reliable_call w1 tr w2 c req reply0 sn sid rs rs' r m argv replyv :
  w_calls w1 !! c = Some (new_call req reply0) →
  good (endname req) sn sid (services rs) w1 →
  dispatch req sid rs = Ok (rs', HRunning sid r m argv replyv) →
  (∃ v, handles r m argv replyv v) →
  (∀ v, handles r m argv replyv v → snd (gob_Decode reply0 (fst (gob_Encode v))) = true) →
  run w1 tr w2 → quiet tr →
  ∃ cs2, w_calls w2 !! c = Some cs2 ∧ (∀ v, c_client cs2 ≠ CReturned false v) ∧
  ∃ tr' w3 cs3 v, run w2 tr' w3 ∧ quiet tr' ∧
    w_calls w3 !! c = Some cs3 ∧ c_client cs3 = CReturned true v.
Proof.
  intros Hc Hg Hd Hans Hdec Hrun Hq.
  assert (∀ rs0, services rs0 = services rs →
    ∃ rs1, dispatch req sid rs0 = Ok (rs1, HRunning sid r m argv replyv) ∧ services rs1 = services rs)
    as Hres.
  { intros rs0 Hs. by eapply dispatch_services. }
  assert (healthy req reply0 sn sid r m argv replyv (new_call req reply0)) as Hh by done.
  destruct (healthy_run _ _ _ _ _ _ _ _ _ Hres Hdec _ _ _ _ _ Hg Hc Hh Hrun Hq) as (Hg2 & cs2 & Hc2 & Hh2).
  exists cs2. split; [done|]. split.
  - intros v Hv. destruct Hh2 as (_ & _ & _ & _ & Hp). rewrite Hv in Hp. by destruct (c_proc cs2).
  - by eapply healthy_returns.
Qed.
End Calls.
