(* ===== verification/LabrpcRuns.v ===== *)
(** * LabrpcRuns: concrete calls over the simulated network

    One server with a service [Counter] that has one method fit for calls, [Inc],
    which puts its argument plus one into the reply, and one that is not, [get];
    numbers are the values that travel. *)
From S2P Require Import Prelude GoStrings Labgob Labrpc LabrpcWorld LabrpcCalls.
From stdpp Require Import base gmap strings option list countable.
From Stdlib Require Import ZArith Lia.
#[local] Open Scope Z_scope.
#[local] Open Scope go_scope.

Definition number (v : nat) : unit := tt.
Definition zero (t : unit) : nat := 0%nat.
Definition enc (v : nat) : bytes * bool := (@Encode nat countable_stream v, true).
Definition dec (old : nat) (b : bytes) : nat * bool :=
  match @Decode nat countable_stream b with Some v => (v, true) | None => (old, false) end.
Definition plain : Param unit := mkParam _ tt None.
Definition pointer : Param unit := mkParam _ tt (Some tt).
Definition Inc : Method unit := mkMethod _ "Inc" "" [pointer; plain; pointer] 0.
Definition get : Method unit := mkMethod _ "get" "" [pointer] 1.
Definition counter : Rcvr unit := mkRcvr _ 0 "Counter" [Inc; get].
Definition adds_one (r : Rcvr unit) (m : Method unit) (argv replyv v : nat) : Prop := v = S argv.

Notation run := (run number zero enc dec adds_one).
Notation step := (step number zero enc dec adds_one).
Notation World := (@World nat _ _ unit nat).

(** Ends and servers are named by numbers: end 7, server name 1, server 0. *)
Definition setup : list (@Event nat unit nat) :=
  EAdmin <$> [AMakeServer 0%nat; AAddService 0%nat counter; AMakeEnd 7%nat; AConnect 7%nat 1%nat;
              AEnable 7%nat true; AAddServer 1%nat 0%nat].

(** Steps whose premises compute. *)
Ltac go_step := first [ vm_compute; reflexivity | lia | reflexivity ].
Ltac run_step := eapply run_cons;
  [ first [ eapply step_admin; go_step | eapply (step_call _ _ _ _ _ _ _ _ _ _ 0%nat); go_step | eapply step_take; go_step
          | eapply (step_read _ _ _ _ _ _ _ _ 0); go_step
          | eapply (step_execute _ _ _ _ _ _ _ _ _ 0); go_step
          | eapply step_invoke; go_step | eapply step_handled; go_step
          | eapply step_receive; go_step | eapply step_poll; go_step
          | eapply (step_leave _ _ _ _ _ _ _ _ _ _ 999 0 0 0); go_step
          | eapply step_count; go_step | eapply step_return; go_step ] | ].

Example call_returns : ∃ w cs,
  run World_init
    (setup ++ [ECall 0 7 "Counter.Inc" 41; ETake 0; ERead 0; EExecute 0; EInvoke 0 0 counter Inc 41;
               EHandled 0 42; EReceive 0; ELeave 0; ECount 0; EReturn 0])%nat w ∧
  w_calls w !! 0%nat = Some cs ∧ c_client cs = CReturned true 42%nat.
Proof.
  do 2 eexists. split.
  { do 16 run_step. apply run_nil. }
  split; vm_compute; reflexivity.
Qed.

(** The call up to the handler, after which the server is taken out: the caller
    learns nothing, although the handler ran. *)
Definition to_handler : list (@Event nat unit nat) :=
  (setup ++ [ECall 0 7 "Counter.Inc" 41; ETake 0; ERead 0; EExecute 0; EInvoke 0 0 counter Inc 41])%nat.

Definition deletion : list (@Event nat unit nat) :=
  (EAdmin <$> [ADeleteServer 1])%nat.

Ltac find_call := vm_compute; reflexivity.

Lemma Call_at_most_once_witness : ∃ (tr : list (@Event nat unit nat)) (w : World) cs,
  run World_init tr w ∧ w_calls w !! 0%nat = Some cs ∧ c_client cs = CReturned true 42%nat ∧
  (length (invocations 0 tr) ≤ 1)%nat ∧
  ∃ en meth argv sid r m rv,
    ECall 0%nat en meth argv ∈ tr ∧
    split_svcMeth meth = Ok (Indirect_Name r, Method_Name m) ∧ m ∈ Methods r ∧
    invocations 0 tr = [(sid, r, m, fst (dec (zero (number argv)) (fst (enc argv))))] ∧
    replies 0 tr = [rv] ∧ dec (c_reply0 cs) (fst (enc rv)) = (42%nat, true).
Proof.
  destruct call_returns as (w & cs & Hrun & Hc & Hv). do 3 eexists.
  destruct (Call_at_most_once _ _ _ _ _ _ _ _ _ Hrun Hc) as [H1 H2].
  split; [exact Hrun|]. split; [exact Hc|]. split; [exact Hv|]. split; [exact H1|].
  exact (H2 _ Hv).
Defined.

Example server_deleted : ∃ (w1 : World) cs1 (w2 : World) cs2,
  run World_init (to_handler ++ deletion) w1 ∧ w_calls w1 !! 0%nat = Some cs1 ∧
  c_handler cs1 = HRunning 0 counter Inc 41%nat 0%nat ∧
  servers (w_net w1) = {[1%nat := None]} ∧
  run w1 [EHandled 0 42; EPoll 0; ELeave 0; EReturn 0]%nat w2 ∧
  w_calls w2 !! 0%nat = Some cs2 ∧ c_client cs2 = CReturned false 0%nat.
Proof.
  do 4 eexists. split.
  { do 12 run_step. apply run_nil. }
  do 3 (split; [find_call|]). split.
  { do 4 run_step. apply run_nil. }
  split; find_call.
Qed.

Lemma deleted_server_silent_witness : ∃ (w1 : World) cs1 (w2 : World) cs2,
  run World_init (to_handler ++ deletion) w1 ∧ w_calls w1 !! 0%nat = Some cs1 ∧
  run w1 [EHandled 0 42; EPoll 0; ELeave 0; EReturn 0]%nat w2 ∧
  w_calls w2 !! 0%nat = Some cs2 ∧ ∀ v, c_client cs2 ≠ CReturned true v.
Proof.
  destruct server_deleted as (w1 & cs1 & w2 & cs2 & H1 & Hc1 & Hh & Hs & H2 & Hc2 & _).
  exists w1, cs1, w2, cs2. do 4 (split; [assumption|]).
  apply (deleted_server_silent number zero enc dec adds_one (to_handler ++ deletion) w1
    [EHandled 0 42; EPoll 0; ELeave 0; EReturn 0]%nat w2 0%nat cs1 cs2 0%nat H1 Hc1).
  - right. by exists counter, Inc, 41%nat, 0%nat.
  - intros sn. unfold server_at. rewrite Hs. destruct (decide (sn = 1%nat)) as [->|Hne].
    + by rewrite lookup_singleton_eq.
    + by rewrite lookup_singleton_ne.
  - exact H2.
  - intros sn Hin. repeat (apply elem_of_cons in Hin as [Hin|Hin]; [discriminate Hin|]).
    by apply not_elem_of_nil in Hin.
  - exact Hc2.
Defined.

Lemma dec_enc old v : dec old (fst (enc v)) = (v, true).
Proof. unfold dec, enc. cbn [fst]. by rewrite (@Decode_Encode _ _ countable_stream_laws). Qed.

Definition counter_server : Server unit := AddService (MakeService counter) MakeServer.
Definition request : reqMsg nat unit := mkReqMsg _ _ 7%nat "Counter.Inc" tt (fst (enc 41%nat)) 0%nat.

Lemma reliable_call_witness : ∃ w1 : World,
  good 7%nat 1%nat 0%nat (services counter_server) w1 ∧
  w_calls w1 !! 0%nat = Some (new_call request 0%nat) ∧
  ∃ tr' w3 cs3 v, run w1 tr' w3 ∧ quiet tr' ∧
    w_calls w3 !! 0%nat = Some cs3 ∧ c_client cs3 = CReturned true v.
Proof.
  exists (set_call 0%nat (new_call request 0%nat)
    (mkWorld (AddServer 1%nat 0%nat (Enable 7%nat true (Connect 7%nat 1%nat MakeNetwork)))
       {[0%nat := counter_server]} ∅ false true)).
  match goal with |- good _ _ _ _ ?w ∧ _ => set (w1 := w) end.
  assert (good 7%nat 1%nat 0%nat (services counter_server) w1) as Hg
    by (split; try reflexivity; by exists counter_server).
  assert (w_calls w1 !! 0%nat = Some (new_call request 0%nat)) as Hc by reflexivity.
  split; [exact Hg|]. split; [exact Hc|].
  destruct (reliable_call number zero enc dec adds_one w1 [] w1 0%nat request 0%nat 1%nat 0%nat
    counter_server (mkServer _ (services counter_server) 1) counter Inc 41%nat 0%nat Hc Hg)
    as (cs2 & _ & _ & Hret).
  - vm_compute. reflexivity.
  - by exists 42%nat.
  - intros v _. by rewrite dec_enc.
  - constructor.
  - constructor.
  - exact Hret.
Defined.

Lemma dispatch_spec_witness :
  services_ok counter_server ∧
  dispatch zero dec request 0%nat counter_server =
    Ok (mkServer _ (services counter_server) 1, HRunning 0%nat counter Inc 41%nat 0%nat).
Proof.
  assert (services_ok counter_server) as Hok by apply AddService_ok, MakeServer_ok.
  split; [exact Hok|].
  destruct (proj2 (dispatch_spec zero dec request 0%nat counter_server Hok) "Counter" "Inc" eq_refl eq_refl)
    as (_ & _ & _ & p & t & Hp & Ht & E).
  rewrite E. injection Hp as <-. injection Ht as <-. vm_compute. reflexivity.
Defined.

(** A method that is not fit for calls is unknown; a text without a dot panics. *)
Example unknown_method :
  dispatch zero dec (mkReqMsg nat _ 7%nat "Counter.get" tt [] 0%nat) 0%nat counter_server =
    Fatal "labrpc.Service.dispatch(): unknown method" ∧
  dispatch zero dec (mkReqMsg nat _ 7%nat "Counter" tt [] 0%nat) 0%nat counter_server = Panic.
Proof. split; vm_compute; reflexivity. Qed.

(** Nothing keeps an end from being connected again. *)
Example connect_twice :
  connections (Connect 7%nat 2%nat (Connect 7%nat 1%nat MakeNetwork)) !! 7%nat = Some (Some 2%nat).
Proof. reflexivity. Qed.

(** The count of a deleted server cannot be asked for. *)
Example GetCount_deleted :
  GetCount {[0%nat := counter_server]} 1%nat
    (DeleteServer 1%nat (AddServer 1%nat 0%nat (MakeNetwork (Name := nat)))) = Panic.
Proof. vm_compute. reflexivity. Qed.
