(* ===== verification/RaftTypes.v ===== *)
(** * RaftTypes: the data of a Raft peer, from [src/src/raft/raft.go] and
    [src/src/raft/persister.go]

    - [Raft] is the struct.  [peers] is [len(rf.peers)], and [me] a peer number.
      [applyCond] stands for the condition variable: it is [false] while the
      [applyCommitted] goroutine sleeps in [Wait()] with no [Signal()] since.
    - [interface{}] commands are a type parameter [C]; a nil command is [None].
    - [go f(...)] statements are returned as a list of [Goroutine]s.
    - [time.Now()] is the argument [now], in nanoseconds.
    - An index out of range panics: the result is [None].  [log.Fatal] when the
      persisted state does not decode is [None] too.
    - Terms and indices are [int]s that only grow by one per election or entry;
      they are unbounded integers here. *)
From S2P Require Import Prelude Labgob.
From stdpp Require Import base list list_numbers countable.
From Stdlib Require Import ZArith Lia.
From Stdlib Require Import Strings.Byte.
#[local] Open Scope Z_scope.

(** ** Persister *)
Record Persister := mkPersister {
  raftstate : bytes;
  ps_snapshot : bytes
}.

Definition MakePersister : Persister := mkPersister [] [].

(** [make] and [copy]: element by element into a new slice of the same length. *)
Definition clone (orig : bytes) : bytes := take (length orig) orig.

Definition Copy (ps : Persister) : Persister :=
  mkPersister (raftstate ps) (ps_snapshot ps).

Definition ReadRaftState (ps : Persister) : bytes := clone (raftstate ps).
Definition RaftStateSize (ps : Persister) : Z := len (raftstate ps).
Definition Save (raftstate snapshot : bytes) (_ : Persister) : Persister :=
  mkPersister (clone raftstate) (clone snapshot).
Definition ReadSnapshot (ps : Persister) : bytes := clone (ps_snapshot ps).
Definition SnapshotSize (ps : Persister) : Z := len (ps_snapshot ps).

(** ** Data *)
Inductive Status := Leader | Candidate | Follower.

#[export] Instance Status_eq_dec : EqDecision Status.
Proof. solve_decision. Defined.

Record LogEntry {C : Type} := mkLogEntry {
  le_Command : option C;
  le_Term : Z
}.
Arguments LogEntry : clear implicits.
Arguments mkLogEntry {C} _ _.

#[export] Instance LogEntry_eq_dec {C} `{EqDecision C} : EqDecision (LogEntry C).
Proof. solve_decision. Defined.

#[export] Instance LogEntry_countable {C} `{Countable C} : Countable (LogEntry C).
Proof.
  refine (inj_countable' (λ e, (le_Command e, le_Term e))
            (λ x, mkLogEntry (fst x) (snd x)) _).
  by intros [].
Defined.

Record ApplyMsg {C : Type} := mkApplyMsg {
  CommandValid : bool;
  msg_Command : option C;
  CommandIndex : Z;
  SnapshotValid : bool;
  msg_Snapshot : bytes;
  SnapshotTerm : Z;
  SnapshotIndex : Z
}.
Arguments ApplyMsg : clear implicits.
Arguments mkApplyMsg {C} _ _ _ _ _ _ _.

Record RequestVoteArgs := mkRequestVoteArgs {
  rva_Term : Z;
  rva_CandidateId : Z;
  rva_LastLogIndex : Z;
  rva_LastLogTerm : Z
}.

Record RequestVoteReply := mkRequestVoteReply {
  rvr_Term : Z;
  rvr_VoteGranted : bool
}.

Record AppendEntriesArgs {C : Type} := mkAppendEntriesArgs {
  aea_Term : Z;
  aea_LeaderId : Z;
  aea_PrevLogIndex : Z;
  aea_PrevLogTerm : Z;
  aea_Entries : list (LogEntry C);
  aea_LeaderCommit : Z
}.
Arguments AppendEntriesArgs : clear implicits.
Arguments mkAppendEntriesArgs {C} _ _ _ _ _ _.

Record AppendEntriesReply := mkAppendEntriesReply {
  aer_Term : Z;
  aer_Success : bool;
  aer_XTerm : Z;
  aer_XIndex : Z;
  aer_XLen : Z
}.

Record InstallSnapshotArgs := mkInstallSnapshotArgs {
  isa_Term : Z;
  isa_LeaderId : Z;
  isa_LastIncludedIndex : Z;
  isa_LastIncludedTerm : Z;
  isa_Data : bytes
}.

Record InstallSnapshotReply := mkInstallSnapshotReply { isr_Term : Z }.

(** The zero values Go allocates for the replies. *)
Definition zeroRVReply := mkRequestVoteReply 0 false.
Definition zeroAEReply := mkAppendEntriesReply 0 false 0 0 0.
Definition zeroISReply := mkInstallSnapshotReply 0.

(** [go] statements. *)
Inductive Goroutine :=
  | GoTicker
  | GoApplyCommitted
  | GoSendHeartbeat
  | GoHeartbeatWorker (peer : nat)
  | GoRequestVote (peer : nat) (args : RequestVoteArgs).

#[projections(primitive)]
Record Raft {C : Type} := mkRaft {
  persister : Persister;
  me : nat;
  peers : nat;
  dead : bool;
  CurrentTerm : Z;
  VotedFor : Z;
  Log : list (LogEntry C);
  commitIndex : Z;
  lastApplied : Z;
  applyCond : bool;
  lastHeartbeat : Z;
  isReplicating : list bool;
  status : Status;
  nextIndex : list Z;
  matchIndex : list Z;
  snapshot : bytes;
  lastIncludedIndex : Z;
  lastIncludedTerm : Z;
  applySnapshot : bool
}.
Arguments Raft : clear implicits.
Arguments mkRaft {C} _ _ _ _ _ _ _ _ _ _ _ _ _ _ _ _ _ _ _.

(** ** Field assignment *)
Section Updates.
Context {C : Type}.
Notation Raft := (Raft C).

#[global] Instance Upd_persister : Upd (R:=Raft) persister := λ v r,
  @mkRaft C v (me r) (peers r) (dead r) (CurrentTerm r) (VotedFor r) (Log r)
    (commitIndex r) (lastApplied r) (applyCond r) (lastHeartbeat r)
    (isReplicating r) (status r) (nextIndex r) (matchIndex r) (snapshot r)
    (lastIncludedIndex r) (lastIncludedTerm r) (applySnapshot r).
#[global] Instance Upd_dead : Upd (R:=Raft) dead := λ v r,
  @mkRaft C (persister r) (me r) (peers r) v (CurrentTerm r) (VotedFor r) (Log r)
    (commitIndex r) (lastApplied r) (applyCond r) (lastHeartbeat r)
    (isReplicating r) (status r) (nextIndex r) (matchIndex r) (snapshot r)
    (lastIncludedIndex r) (lastIncludedTerm r) (applySnapshot r).
#[global] Instance Upd_CurrentTerm : Upd (R:=Raft) CurrentTerm := λ v r,
  @mkRaft C (persister r) (me r) (peers r) (dead r) v (VotedFor r) (Log r)
    (commitIndex r) (lastApplied r) (applyCond r) (lastHeartbeat r)
    (isReplicating r) (status r) (nextIndex r) (matchIndex r) (snapshot r)
    (lastIncludedIndex r) (lastIncludedTerm r) (applySnapshot r).
#[global] Instance Upd_VotedFor : Upd (R:=Raft) VotedFor := λ v r,
  @mkRaft C (persister r) (me r) (peers r) (dead r) (CurrentTerm r) v (Log r)
    (commitIndex r) (lastApplied r) (applyCond r) (lastHeartbeat r)
    (isReplicating r) (status r) (nextIndex r) (matchIndex r) (snapshot r)
    (lastIncludedIndex r) (lastIncludedTerm r) (applySnapshot r).
#[global] Instance Upd_Log : Upd (R:=Raft) Log := λ v r,
  @mkRaft C (persister r) (me r) (peers r) (dead r) (CurrentTerm r) (VotedFor r)
    v (commitIndex r) (lastApplied r) (applyCond r) (lastHeartbeat r)
    (isReplicating r) (status r) (nextIndex r) (matchIndex r) (snapshot r)
    (lastIncludedIndex r) (lastIncludedTerm r) (applySnapshot r).
#[global] Instance Upd_commitIndex : Upd (R:=Raft) commitIndex := λ v r,
  @mkRaft C (persister r) (me r) (peers r) (dead r) (CurrentTerm r) (VotedFor r)
    (Log r) v (lastApplied r) (applyCond r) (lastHeartbeat r) (isReplicating
    r) (status r) (nextIndex r) (matchIndex r) (snapshot r) (lastIncludedIndex
    r) (lastIncludedTerm r) (applySnapshot r).
#[global] Instance Upd_lastApplied : Upd (R:=Raft) lastApplied := λ v r,
  @mkRaft C (persister r) (me r) (peers r) (dead r) (CurrentTerm r) (VotedFor r)
    (Log r) (commitIndex r) v (applyCond r) (lastHeartbeat r) (isReplicating
    r) (status r) (nextIndex r) (matchIndex r) (snapshot r) (lastIncludedIndex
    r) (lastIncludedTerm r) (applySnapshot r).
#[global] Instance Upd_applyCond : Upd (R:=Raft) applyCond := λ v r,
  @mkRaft C (persister r) (me r) (peers r) (dead r) (CurrentTerm r) (VotedFor r)
    (Log r) (commitIndex r) (lastApplied r) v (lastHeartbeat r) (isReplicating
    r) (status r) (nextIndex r) (matchIndex r) (snapshot r) (lastIncludedIndex
    r) (lastIncludedTerm r) (applySnapshot r).
#[global] Instance Upd_lastHeartbeat : Upd (R:=Raft) lastHeartbeat := λ v r,
  @mkRaft C (persister r) (me r) (peers r) (dead r) (CurrentTerm r) (VotedFor r)
    (Log r) (commitIndex r) (lastApplied r) (applyCond r) v (isReplicating r)
    (status r) (nextIndex r) (matchIndex r) (snapshot r) (lastIncludedIndex r)
    (lastIncludedTerm r) (applySnapshot r).
#[global] Instance Upd_isReplicating : Upd (R:=Raft) isReplicating := λ v r,
  @mkRaft C (persister r) (me r) (peers r) (dead r) (CurrentTerm r) (VotedFor r)
    (Log r) (commitIndex r) (lastApplied r) (applyCond r) (lastHeartbeat r) v
    (status r) (nextIndex r) (matchIndex r) (snapshot r) (lastIncludedIndex r)
    (lastIncludedTerm r) (applySnapshot r).
#[global] Instance Upd_status : Upd (R:=Raft) status := λ v r,
  @mkRaft C (persister r) (me r) (peers r) (dead r) (CurrentTerm r) (VotedFor r)
    (Log r) (commitIndex r) (lastApplied r) (applyCond r) (lastHeartbeat r)
    (isReplicating r) v (nextIndex r) (matchIndex r) (snapshot r)
    (lastIncludedIndex r) (lastIncludedTerm r) (applySnapshot r).
#[global] Instance Upd_nextIndex : Upd (R:=Raft) nextIndex := λ v r,
  @mkRaft C (persister r) (me r) (peers r) (dead r) (CurrentTerm r) (VotedFor r)
    (Log r) (commitIndex r) (lastApplied r) (applyCond r) (lastHeartbeat r)
    (isReplicating r) (status r) v (matchIndex r) (snapshot r)
    (lastIncludedIndex r) (lastIncludedTerm r) (applySnapshot r).
#[global] Instance Upd_matchIndex : Upd (R:=Raft) matchIndex := λ v r,
  @mkRaft C (persister r) (me r) (peers r) (dead r) (CurrentTerm r) (VotedFor r)
    (Log r) (commitIndex r) (lastApplied r) (applyCond r) (lastHeartbeat r)
    (isReplicating r) (status r) (nextIndex r) v (snapshot r)
    (lastIncludedIndex r) (lastIncludedTerm r) (applySnapshot r).
#[global] Instance Upd_snapshot : Upd (R:=Raft) snapshot := λ v r,
  @mkRaft C (persister r) (me r) (peers r) (dead r) (CurrentTerm r) (VotedFor r)
    (Log r) (commitIndex r) (lastApplied r) (applyCond r) (lastHeartbeat r)
    (isReplicating r) (status r) (nextIndex r) (matchIndex r) v
    (lastIncludedIndex r) (lastIncludedTerm r) (applySnapshot r).
#[global] Instance Upd_lastIncludedIndex : Upd (R:=Raft) lastIncludedIndex := λ v r,
  @mkRaft C (persister r) (me r) (peers r) (dead r) (CurrentTerm r) (VotedFor r)
    (Log r) (commitIndex r) (lastApplied r) (applyCond r) (lastHeartbeat r)
    (isReplicating r) (status r) (nextIndex r) (matchIndex r) (snapshot r) v
    (lastIncludedTerm r) (applySnapshot r).
#[global] Instance Upd_lastIncludedTerm : Upd (R:=Raft) lastIncludedTerm := λ v r,
  @mkRaft C (persister r) (me r) (peers r) (dead r) (CurrentTerm r) (VotedFor r)
    (Log r) (commitIndex r) (lastApplied r) (applyCond r) (lastHeartbeat r)
    (isReplicating r) (status r) (nextIndex r) (matchIndex r) (snapshot r)
    (lastIncludedIndex r) v (applySnapshot r).
#[global] Instance Upd_applySnapshot : Upd (R:=Raft) applySnapshot := λ v r,
  @mkRaft C (persister r) (me r) (peers r) (dead r) (CurrentTerm r) (VotedFor r)
    (Log r) (commitIndex r) (lastApplied r) (applyCond r) (lastHeartbeat r)
    (isReplicating r) (status r) (nextIndex r) (matchIndex r) (snapshot r)
    (lastIncludedIndex r) (lastIncludedTerm r) v.
End Updates.

#[global] Instance Upd_aer_Term : Upd aer_Term := λ v r, mkAppendEntriesReply v (aer_Success r) (aer_XTerm r) (aer_XIndex r) (aer_XLen r).
#[global] Instance Upd_aer_Success : Upd aer_Success := λ v r, mkAppendEntriesReply (aer_Term r) v (aer_XTerm r) (aer_XIndex r) (aer_XLen r).
#[global] Instance Upd_aer_XTerm : Upd aer_XTerm := λ v r, mkAppendEntriesReply (aer_Term r) (aer_Success r) v (aer_XIndex r) (aer_XLen r).
#[global] Instance Upd_aer_XIndex : Upd aer_XIndex := λ v r, mkAppendEntriesReply (aer_Term r) (aer_Success r) (aer_XTerm r) v (aer_XLen r).
#[global] Instance Upd_aer_XLen : Upd aer_XLen := λ v r, mkAppendEntriesReply (aer_Term r) (aer_Success r) (aer_XTerm r) (aer_XIndex r) v.
#[global] Instance Upd_rvr_Term : Upd rvr_Term := λ v r, mkRequestVoteReply v (rvr_VoteGranted r).
#[global] Instance Upd_rvr_VoteGranted : Upd rvr_VoteGranted := λ v r, mkRequestVoteReply (rvr_Term r) v.
#[global] Instance Upd_isr_Term : Upd isr_Term := λ v r, mkInstallSnapshotReply v.

