(* ===== verification/Raft.v ===== *)
(** * Raft: the operations of one Raft peer, [src/src/raft/raft.go]

    Every critical section of [raft.go] is a function from the peer's state to
    its new state and reply.  Each function runs from [rf.mu.Lock()] to
    [rf.mu.Unlock()], so it is one atomic step of the peer; a method that
    releases the lock in the middle (for an RPC or a channel send) is split
    there.  Conditions, early returns and the order of assignments are those
    of the source; [log.Printf] debugging is left out. *)
From S2P Require Import Prelude Labgob RaftTypes.
From stdpp Require Import base list list_numbers.
From Stdlib Require Import ZArith Lia.
From Stdlib Require Import Strings.Byte.
#[local] Open Scope Z_scope.

(** The values [persist] encodes one after the other into one buffer. *)
Abbreviation PersistentState C := (Z * Z * list (LogEntry C) * Z * Z)%type.

Definition millisecond : Z := 1000000.

Section Raft.
Context {C : Type} `{GobStream (PersistentState C)}.
Notation Raft := (Raft C).
Notation LogEntry := (LogEntry C).
Implicit Types (rf : Raft) (now index term : Z) (peer : nat).

(** ** Reading the state *)

Definition GetState rf : Z * bool :=
  (CurrentTerm rf, bool_decide (status rf = Leader)).

Definition killed rf : bool := dead rf.

Definition toPhysicalIndex rf (logical : Z) : Z := logical - lastIncludedIndex rf.

Definition lastLogIndex rf : Z := len (Log rf) - 1 + lastIncludedIndex rf.

Definition lastLogIndexTerm rf : Z :=
  if decide (len (Log rf) > 1)
  then default 0 (le_Term <$> at_index (Log rf) (len (Log rf) - 1))
  else lastIncludedTerm rf.

Definition termAt rf index (logical : bool) : Z :=
  let physicalIndex := if logical then toPhysicalIndex rf index else index in
  if decide (physicalIndex < 0 ∨ physicalIndex >= len (Log rf)) then -1
  else default 0 (le_Term <$> at_index (Log rf) physicalIndex).

Definition getPrevLogTerm rf (logicalPrevLogIndex : Z) : Z :=
  if decide (logicalPrevLogIndex = lastIncludedIndex rf)
  then lastIncludedTerm rf
  else termAt rf logicalPrevLogIndex true.

Definition isLogUpToDate rf (candidateIndex candidateTerm : Z) : bool :=
  let myLastIndex := lastLogIndex rf in
  let myLastTerm := lastLogIndexTerm rf in
  if decide (candidateTerm ≠ myLastTerm)
  then bool_decide (candidateTerm > myLastTerm)
  else bool_decide (candidateIndex >= myLastIndex).

(** [for i := 1; i < len(rf.Log); i++]: the last index that matches wins. *)
Definition findLastIndexOfTerm rf term : Z :=
  let index :=
    foldl (λ index i,
        if decide (termAt rf i false = term) then i + lastIncludedIndex rf else index)
      (-1) (seqZ 1 (len (Log rf) - 1)) in
  if decide (index = -1 ∧ term = lastIncludedTerm rf)
  then lastIncludedIndex rf
  else index.

(** ** Persistence *)

Definition persist rf : Raft :=
  let raftstate := Encode (CurrentTerm rf, VotedFor rf, Log rf,
                           lastIncludedIndex rf, lastIncludedTerm rf) in
  rf <| persister := Save raftstate (snapshot rf) (persister rf) |>.

Definition readPersist (data : bytes) rf : option Raft :=
  if decide (length data < 1)%nat then Some rf
  else
    '(currentTerm, votedFor, entries, lastIncludedIndex', lastIncludedTerm') ← Decode data;
    let rf := rf <| CurrentTerm := currentTerm |> <| VotedFor := votedFor |>
                 <| Log := entries |>
                 <| lastIncludedIndex := lastIncludedIndex' |>
                 <| lastIncludedTerm := lastIncludedTerm' |> in
    let rf := if decide (lastIncludedIndex rf > lastApplied rf)
              then rf <| lastApplied := lastIncludedIndex rf |> else rf in
    Some (if decide (lastIncludedIndex rf > commitIndex rf)
          then rf <| commitIndex := lastIncludedIndex rf |> else rf).

(** The service's snapshot up to and including [index]. *)
Definition Snapshot index (snapshot' : bytes) rf : Raft :=
  if decide (index <= lastIncludedIndex rf) then rf
  else
    let physicalIndex := toPhysicalIndex rf index in
    if decide (physicalIndex >= len (Log rf)) then
      let rf := rf <| lastIncludedIndex := index |> in
      let rf := if decide (len (Log rf) > 1)
                then rf <| lastIncludedTerm := termAt rf (len (Log rf) - 1) false |>
                else rf in
      let rf := rf <| Log := [mkLogEntry None 0] |> in
      persist (rf <| snapshot := snapshot' |>)
    else
      let rf := rf <| lastIncludedTerm := termAt rf physicalIndex false |> in
      let rf := rf <| lastIncludedIndex := index |> in
      let newLog := mkLogEntry None 0 :: slice_from (Log rf) (physicalIndex + 1) in
      persist (rf <| Log := newLog |> <| snapshot := snapshot' |>).

(** ** Terms *)

Definition stepDown now (newTerm : Z) rf : Raft * bool :=
  if decide (newTerm <= CurrentTerm rf) then (rf, false)
  else
    let rf := rf <| CurrentTerm := newTerm |> <| status := Follower |>
                 <| VotedFor := -1 |> <| lastHeartbeat := now |> in
    let rf := persist rf in
    (rf <| isReplicating := (λ _, false) <$> isReplicating rf |>, true).

(** ** Elections *)

Definition RequestVote now (args : RequestVoteArgs) (reply : RequestVoteReply) rf
  : Raft * RequestVoteReply :=
  if decide (rva_Term args < CurrentTerm rf) then
    (rf, reply <| rvr_Term := CurrentTerm rf |> <| rvr_VoteGranted := false |>)
  else
    let rf := if decide (rva_Term args > CurrentTerm rf)
              then fst (stepDown now (rva_Term args) rf) else rf in
    if decide ((VotedFor rf = -1 ∨ VotedFor rf = rva_CandidateId args)
               ∧ isLogUpToDate rf (rva_LastLogIndex args) (rva_LastLogTerm args) = true)
    then
      let rf := rf <| VotedFor := rva_CandidateId args |> <| lastHeartbeat := now |> in
      let rf := persist rf in
      (rf, reply <| rvr_Term := CurrentTerm rf |> <| rvr_VoteGranted := true |>)
    else
      (rf, reply <| rvr_Term := CurrentTerm rf |> <| rvr_VoteGranted := false |>).

(** The peers other than [me], in the order of [range rf.peers]. *)
Definition others rf : list nat :=
  filter (λ peer, peer ≠ me rf) (seq 0 (peers rf)).

Definition sendHeartbeat rf : list Goroutine :=
  if decide (status rf ≠ Leader) then [] else GoHeartbeatWorker <$> others rf.

Definition becomeLeader rf : Raft * list Goroutine :=
  if decide (status rf = Leader) then (rf, [])
  else
    let rf := rf <| status := Leader |>
                 <| nextIndex := replicate (peers rf) (lastIncludedIndex rf + len (Log rf)) |>
                 <| matchIndex := replicate (peers rf) (lastIncludedIndex rf) |> in
    (rf, [GoSendHeartbeat]).

(** Returns the new state, the new [*votes] and the goroutines started. *)
Definition handleRequestVoteReply now (args : RequestVoteArgs)
    (reply : RequestVoteReply) (votes : Z) rf : Raft * Z * list Goroutine :=
  if decide (CurrentTerm rf ≠ rva_Term args ∨ status rf ≠ Candidate) then (rf, votes, [])
  else if decide (rvr_Term reply > CurrentTerm rf) then
    (fst (stepDown now (rvr_Term reply) rf), votes, [])
  else if decide (rvr_VoteGranted reply = false) then (rf, votes, [])
  else
    let votes := votes + 1 in
    if decide (votes > go_div (Z.of_nat (peers rf)) 2) then
      let '(rf, gs) := becomeLeader rf in (rf, votes, gs)
    else (rf, votes, []).

(** The vote counter of the new election starts at one. *)
Definition startElection now rf : Raft * Z * list Goroutine :=
  let rf := rf <| status := Candidate |>
               <| CurrentTerm := CurrentTerm rf + 1 |> in
  let rf := rf <| VotedFor := Z.of_nat (me rf) |> <| lastHeartbeat := now |> in
  let rf := persist rf in
  let args := mkRequestVoteArgs (CurrentTerm rf) (Z.of_nat (me rf))
                (lastLogIndex rf) (lastLogIndexTerm rf) in
  (rf, 1, (λ peer, GoRequestVote peer args) <$> others rf).

(** [200 + (rand.Int31() % 201)] milliseconds. *)
Definition randomElectionTimeout (rnd : Z) : Z := (200 + Z.rem rnd 201) * millisecond.

(** What one iteration of the loop of [ticker] leads to. *)
Inductive TickResult :=
  | TickHeartbeat                         (* calls sendHeartbeat, lock released *)
  | TickElection (votes : Z) (gs : list Goroutine)
  | TickIdle.

(** The locked part of an iteration, after the sleep: the loop tested
    [killed()] before sleeping. *)
Definition ticker now (rnd electionTimeout : Z) rf : Raft * Z * TickResult :=
  let timeSinceLastHeartbeat := now - lastHeartbeat rf in
  if decide (status rf = Leader ∧ timeSinceLastHeartbeat >= 100 * millisecond) then
    (rf <| lastHeartbeat := now |>, electionTimeout, TickHeartbeat)
  else if decide (timeSinceLastHeartbeat >= electionTimeout) then
    let electionTimeout := randomElectionTimeout rnd in
    let rf := rf <| lastHeartbeat := now |> in
    if decide (Z.of_nat (peers rf) > 1) then
      let '(rf, votes, gs) := startElection now rf in
      (rf, electionTimeout, TickElection votes gs)
    else (rf, electionTimeout, TickIdle)
  else (rf, electionTimeout, TickIdle).

(** After the loop. *)
Definition ticker_exit rf : Raft := rf <| status := Follower |>.

(** [Kill]: the atomic store, then the locked part. *)
Definition Kill rf : Raft :=
  let rf := rf <| dead := true |> in
  persist (rf <| status := Follower |> <| VotedFor := -1 |>).

(** ** Log replication, follower side *)

Definition updateFollowerCommitIndex (leaderCommit lastNewIndex : Z) rf : Raft :=
  if decide (leaderCommit > commitIndex rf) then
    let lastNewEntryIndex := lastNewIndex in
    let rf := if decide (leaderCommit < lastNewEntryIndex)
              then rf <| commitIndex := leaderCommit |>
              else rf <| commitIndex := lastNewEntryIndex |> in
    rf <| applyCond := true |>
  else rf.

(** [for i > rf.lastIncludedIndex && rf.termAt(i, true) == term { i-- }] *)
Fixpoint conflictScan (fuel : nat) rf (term i : Z) : Z :=
  match fuel with
  | O => i
  | S fuel =>
      if decide (i > lastIncludedIndex rf ∧ termAt rf i true = term)
      then conflictScan fuel rf term (i - 1)
      else i
  end.

Definition matchPrevLog (args : AppendEntriesArgs C) (reply : AppendEntriesReply) rf
  : AppendEntriesReply * bool :=
  let lastLogIndex := lastLogIndex rf in
  if decide (aea_PrevLogIndex args > lastLogIndex) then
    (reply <| aer_Success := false |> <| aer_Term := CurrentTerm rf |>
           <| aer_XLen := lastLogIndex + 1 |>, false)
  else if decide (aea_PrevLogIndex args = lastIncludedIndex rf) then
    if decide (lastIncludedTerm rf ≠ aea_PrevLogTerm args) then
      (reply <| aer_Success := false |> <| aer_Term := CurrentTerm rf |>
             <| aer_XTerm := lastIncludedTerm rf |>
             <| aer_XIndex := lastIncludedIndex rf |>, false)
    else (reply, true)
  else
    let term := termAt rf (aea_PrevLogIndex args) true in
    if decide (term ≠ aea_PrevLogTerm args) then
      let i := conflictScan (Z.to_nat (aea_PrevLogIndex args - lastIncludedIndex rf))
                 rf term (aea_PrevLogIndex args) in
      (reply <| aer_Success := false |> <| aer_Term := CurrentTerm rf |>
             <| aer_XTerm := term |> <| aer_XIndex := i + 1 |>, false)
    else (reply, true).

(** [for i, entry := range args.Entries]; [entries] is [args.Entries[i:]]. *)
Fixpoint appendLoop (prevLogIndex i : Z) (entries : list LogEntry) rf : Raft :=
  match entries with
  | [] => rf
  | entry :: rest =>
      let logicalLogIndex := prevLogIndex + 1 + i in
      let physicalLogIndex := toPhysicalIndex rf logicalLogIndex in
      if decide (physicalLogIndex < 1) then appendLoop prevLogIndex (i + 1) rest rf
      else if decide (physicalLogIndex >= len (Log rf)) then
        rf <| Log := Log rf ++ entries |>
      else if decide (termAt rf physicalLogIndex false ≠ le_Term entry) then
        let rf := rf <| Log := slice_to (Log rf) physicalLogIndex |> in
        rf <| Log := Log rf ++ entries |>
      else appendLoop prevLogIndex (i + 1) rest rf
  end.

Definition AppendEntries now (args : AppendEntriesArgs C) (reply : AppendEntriesReply) rf
  : Raft * AppendEntriesReply :=
  if decide (aea_Term args < CurrentTerm rf) then
    (rf, reply <| aer_Success := false |> <| aer_Term := CurrentTerm rf |>)
  else
    let rf := fst (stepDown now (aea_Term args) rf) in
    let rf := rf <| lastHeartbeat := now |> <| status := Follower |> in
    let '(reply, matched) := matchPrevLog args reply rf in
    if matched then
      let rf := appendLoop (aea_PrevLogIndex args) 0 (aea_Entries args) rf in
      let rf := persist rf in
      let rf := updateFollowerCommitIndex (aea_LeaderCommit args)
                  (aea_PrevLogIndex args + len (aea_Entries args)) rf in
      (rf, reply <| aer_Term := CurrentTerm rf |> <| aer_Success := true |>)
    else (rf, reply).

(** [for i := 1; i < len(rf.Log); i++]: the first match sets [appendStart]. *)
Fixpoint retainLoop (fuel : nat) (args : InstallSnapshotArgs) (i : Z) rf : Z :=
  match fuel with
  | O => -1
  | S fuel =>
      if decide (i < len (Log rf)) then
        let logicalIndex := i + lastIncludedIndex rf in
        if decide (logicalIndex = isa_LastIncludedIndex args
                   ∧ termAt rf i false = isa_LastIncludedTerm args)
        then i + 1
        else retainLoop fuel args (i + 1) rf
      else -1
  end.

Definition InstallSnapshot now (args : InstallSnapshotArgs) (reply : InstallSnapshotReply) rf
  : Raft * InstallSnapshotReply :=
  let reply := reply <| isr_Term := CurrentTerm rf |> in
  if decide (isa_Term args < CurrentTerm rf) then (rf, reply)
  else
    let rf := rf <| CurrentTerm := isa_Term args |> <| VotedFor := -1 |>
                 <| status := Follower |> <| lastHeartbeat := now |> in
    if decide (isa_LastIncludedIndex args <= lastIncludedIndex rf) then (persist rf, reply)
    else
      let rf := rf <| snapshot := isa_Data args |> in
      let appendStart := retainLoop (length (Log rf)) args 1 rf in
      let rf := if decide (appendStart > 0)
                then rf <| Log := mkLogEntry None (isa_LastIncludedTerm args)
                                    :: slice_from (Log rf) appendStart |>
                else rf <| Log := [mkLogEntry None (isa_LastIncludedTerm args)] |> in
      let rf := rf <| lastIncludedIndex := isa_LastIncludedIndex args |>
                   <| lastIncludedTerm := isa_LastIncludedTerm args |> in
      let rf := if decide (commitIndex rf < isa_LastIncludedIndex args)
                then rf <| commitIndex := isa_LastIncludedIndex args |> else rf in
      let rf := if decide (lastApplied rf < isa_LastIncludedIndex args)
                then rf <| lastApplied := isa_LastIncludedIndex args |> else rf in
      let rf := persist rf in
      (rf <| applySnapshot := true |> <| applyCond := true |>, reply).

(** ** Log replication, leader side *)

(** Index, term and whether this peer is the leader. *)
Definition Start (command : C) rf : Raft * (Z * Z * bool) * list Goroutine :=
  if decide (status rf ≠ Leader) then (rf, (-1, CurrentTerm rf, false), [])
  else
    let entry := mkLogEntry (Some command) (CurrentTerm rf) in
    let rf := persist (rf <| Log := Log rf ++ [entry] |>) in
    (rf, (lastLogIndex rf, CurrentTerm rf, true), [GoSendHeartbeat]).

(** [count] of the peers whose [matchIndex] has reached [N]. *)
Fixpoint countMatch rf (N : Z) (ps : list nat) (count : Z) : option Z :=
  match ps with
  | [] => Some count
  | i :: ps =>
      if decide (i ≠ me rf) then
        m ← matchIndex rf !! i;
        countMatch rf N ps (if decide (m >= N) then count + 1 else count)
      else countMatch rf N ps count
  end.

(** [for N := rf.lastLogIndex(); N > rf.commitIndex; N--] *)
Fixpoint commitLoop (fuel : nat) (N : Z) rf : option Raft :=
  match fuel with
  | O => Some rf
  | S fuel =>
      if decide (N > commitIndex rf) then
        if decide (termAt rf N true = CurrentTerm rf) then
          count ← countMatch rf N (seq 0 (peers rf)) 1;
          if decide (count > go_div (Z.of_nat (peers rf)) 2)
          then Some (rf <| commitIndex := N |> <| applyCond := true |>)
          else commitLoop fuel (N - 1) rf
        else commitLoop fuel (N - 1) rf
      else Some rf
  end.

Definition updateLeaderCommitIndex rf : option Raft :=
  commitLoop (Z.to_nat (lastLogIndex rf - commitIndex rf)) (lastLogIndex rf) rf.

(** [rf.f[peer] = v] on a slice: out of range panics. *)
Definition set_index {A} (peer : nat) (v : A) (l : list A) : option (list A) :=
  if decide (peer < length l)%nat then Some (<[peer := v]> l) else None.

Definition updateMatchAndNextIndex peer (newMatchIndex : Z) rf : option Raft :=
  m ← matchIndex rf !! peer;
  rf ← (if decide (newMatchIndex > m) then
          l ← set_index peer newMatchIndex (matchIndex rf);
          Some (rf <| matchIndex := l |>)
        else Some rf);
  m ← matchIndex rf !! peer;
  l ← set_index peer (m + 1) (nextIndex rf);
  Some (rf <| nextIndex := l |>).

Definition set_nextIndex peer (v : Z) rf : option Raft :=
  l ← set_index peer v (nextIndex rf);
  Some (rf <| nextIndex := l |>).

(** The part of [handleSendAppendEntries] after a reply arrived. *)
Definition handleSendAppendEntries now peer (args : AppendEntriesArgs C)
    (reply : AppendEntriesReply) rf : option Raft :=
  if decide (status rf ≠ Leader ∨ CurrentTerm rf ≠ aea_Term args) then Some rf
  else
    let '(rf, stepped) := stepDown now (aer_Term reply) rf in
    if stepped then Some rf
    else if aer_Success reply then
      rf ← updateMatchAndNextIndex peer (aea_PrevLogIndex args + len (aea_Entries args)) rf;
      updateLeaderCommitIndex rf
    else if decide (aer_XLen reply ≠ 0) then set_nextIndex peer (aer_XLen reply) rf
    else
      let index := findLastIndexOfTerm rf (aer_XTerm reply) in
      if decide (index = -1) then set_nextIndex peer (aer_XIndex reply) rf
      else set_nextIndex peer (index + 1) rf.

(** The first locked part of [handleInstallSnapshot]: what to send, if anything. *)
Definition handleInstallSnapshot_args peer rf : option (option InstallSnapshotArgs) :=
  if decide (status rf ≠ Leader) then Some None
  else
    logicalNextIndex ← nextIndex rf !! peer;
    if decide (logicalNextIndex > lastIncludedIndex rf) then Some None
    else
      let data := snapshot rf in
      Some (Some (mkInstallSnapshotArgs (CurrentTerm rf) (Z.of_nat (me rf))
                    (lastIncludedIndex rf) (lastIncludedTerm rf) data)).

(** Its second locked part, after a reply arrived. *)
Definition handleInstallSnapshot_reply now peer (args : InstallSnapshotArgs)
    (reply : InstallSnapshotReply) rf : option Raft :=
  if decide (status rf ≠ Leader ∨ CurrentTerm rf ≠ isa_Term args) then Some rf
  else
    let '(rf, stepped) := stepDown now (isr_Term reply) rf in
    if stepped then Some rf
    else updateMatchAndNextIndex peer (isa_LastIncludedIndex args) rf.

(** What the first locked part of [heartbeatWorker] leads to. *)
Inductive WorkerResult :=
  | WorkerReturn
  | WorkerInstall                       (* isReplicating, then handleInstallSnapshot *)
  | WorkerSend (args : AppendEntriesArgs C).

Definition heartbeatWorker peer rf : option WorkerResult :=
  if decide (status rf ≠ Leader) then Some WorkerReturn
  else
    let currentTerm := CurrentTerm rf in
    logicalNextIndex ← nextIndex rf !! peer;
    replicating ← (if decide (logicalNextIndex <= lastIncludedIndex rf)
                   then isReplicating rf !! peer else Some false);
    if decide (logicalNextIndex <= lastIncludedIndex rf ∧ replicating = false)
    then Some WorkerInstall
    else
      let logicalPrevLogIndex := logicalNextIndex - 1 in
      let prevTerm := getPrevLogTerm rf logicalPrevLogIndex in
      let logLength := len (Log rf) in
      let physicalNextIndex := toPhysicalIndex rf logicalNextIndex in
      if decide (physicalNextIndex < 0 ∨ physicalNextIndex > logLength)
      then Some WorkerReturn
      else
        let entries := slice_from (Log rf) physicalNextIndex in
        Some (WorkerSend (mkAppendEntriesArgs currentTerm (Z.of_nat (me rf))
                logicalPrevLogIndex prevTerm entries (commitIndex rf))).

(** [rf.isReplicating[peer] = b]: set before the snapshot is sent, cleared by
    the deferred function when the worker ends. *)
Definition set_isReplicating peer (b : bool) rf : option Raft :=
  l ← set_index peer b (isReplicating rf);
  Some (rf <| isReplicating := l |>).

(** ** Delivering to the service *)

(** What one turn of the outer loop of [applyCommitted] leads to. *)
Inductive ApplyResult :=
  | ApplyWait                           (* sleeps in applyCond.Wait() *)
  | ApplyExit                           (* killed *)
  | ApplySend (msgs : list (ApplyMsg C)).

(** The messages for the indices of [low .. high] the log holds. *)
Definition entriesToApply rf (low high : Z) : list (ApplyMsg C) :=
  omap (λ i,
      let physicalIndex := toPhysicalIndex rf i in
      if decide (physicalIndex > 0 ∧ physicalIndex < len (Log rf)) then
        e ← at_index (Log rf) physicalIndex;
        Some (mkApplyMsg true (le_Command e) i false [] 0 0)
      else None)
    (seqZ low (high - low + 1)).

Definition applyCommitted rf : Raft * ApplyResult :=
  if decide (killed rf = false ∧ commitIndex rf <= lastApplied rf ∧ applySnapshot rf = false)
  then (rf <| applyCond := false |>, ApplyWait)
  else if killed rf then (rf, ApplyExit)
  else if decide (lastApplied rf < lastIncludedIndex rf ∨ applySnapshot rf = true) then
    let rf := rf <| lastApplied := lastIncludedIndex rf |> <| applySnapshot := false |> in
    (rf, ApplySend [mkApplyMsg false None 0 true (snapshot rf)
                      (lastIncludedTerm rf) (lastIncludedIndex rf)])
  else
    let low := lastApplied rf + 1 in
    let high := commitIndex rf in
    let msgs := entriesToApply rf low high in
    (rf <| lastApplied := high |>, ApplySend msgs).

(** ** Construction *)
Definition Make (peers' : nat) (me' : nat) (persister' : Persister) now
  : option (Raft * list Goroutine) :=
  let rf := mkRaft persister' me' peers' false
              0 (-1) [mkLogEntry None 0]
              0 0 true now (replicate peers' false)
              Follower (replicate peers' 1) (replicate peers' 0)
              [] 0 (-1) false in
  rf ← readPersist (ReadRaftState (persister rf)) rf;
  let rf := rf <| snapshot := ReadSnapshot (persister rf) |> in
  Some (rf, [GoTicker; GoApplyCommitted]).
End Raft.
