(* ===== verification/RaftNode.v ===== *)
(** * RaftNode: the invariants every step of one peer keeps

    [NodeOp] lists the critical sections of [raft.go] that write the peer's
    state, and [exec_op] runs one.  The theorems hold for every one of them:
    the persister always holds the current persistent state, terms only grow,
    the peer never panics, votes follow the one-vote-per-term automaton
    [vote_step], and [applyCommitted] never sleeps with work to do. *)
From S2P Require Import Prelude Labgob RaftTypes Raft.
From stdpp Require Import base list list_numbers option.
From Stdlib Require Import ZArith Lia.
From Stdlib Require Import Strings.Byte.
#[local] Open Scope Z_scope.

Section RaftNode.
Context {C : Type} `{GobLaws (PersistentState C)}.
Notation Raft := (Raft C).
Implicit Types (rf : Raft) (now term : Z) (peer : nat).

(** ** The operations *)
Inductive NodeOp :=
  | OpSnapshot (index : Z) (snapshot : bytes)
  | OpRequestVote now (args : RequestVoteArgs)
  | OpAppendEntries now (args : AppendEntriesArgs C)
  | OpInstallSnapshot now (args : InstallSnapshotArgs)
  | OpStart (command : C)
  | OpKill
  | OpTicker now (rnd electionTimeout : Z)
  | OpTickerExit
  | OpVoteReply now (args : RequestVoteArgs) (reply : RequestVoteReply) (votes : Z)
  | OpAppendReply now peer (args : AppendEntriesArgs C) (reply : AppendEntriesReply)
  | OpInstallReply now peer (args : InstallSnapshotArgs) (reply : InstallSnapshotReply)
  | OpSetReplicating peer (b : bool)
  | OpApplyCommitted.

Definition exec_op (op : NodeOp) rf : option Raft :=
  match op with
  | OpSnapshot index snapshot => Some (Snapshot index snapshot rf)
  | OpRequestVote now args => Some (fst (RequestVote now args zeroRVReply rf))
  | OpAppendEntries now args => Some (fst (AppendEntries now args zeroAEReply rf))
  | OpInstallSnapshot now args => Some (fst (InstallSnapshot now args zeroISReply rf))
  | OpStart command => Some (fst (fst (Start command rf)))
  | OpKill => Some (Kill rf)
  | OpTicker now rnd timeout => Some (fst (fst (ticker now rnd timeout rf)))
  | OpTickerExit => Some (ticker_exit rf)
  | OpVoteReply now args reply votes =>
      Some (fst (fst (handleRequestVoteReply now args reply votes rf)))
  | OpAppendReply now peer args reply => handleSendAppendEntries now peer args reply rf
  | OpInstallReply now peer args reply => handleInstallSnapshot_reply now peer args reply rf
  | OpSetReplicating peer b => set_isReplicating peer b rf
  | OpApplyCommitted => Some (fst (applyCommitted rf))
  end.

(** ** What the invariants say *)

Definition persistentState rf : PersistentState C :=
  (CurrentTerm rf, VotedFor rf, Log rf, lastIncludedIndex rf, lastIncludedTerm rf).

(** The state a restart reads back; an empty persister is a first boot. *)
Definition stored (ps : Persister) : option (PersistentState C) :=
  if decide (length (raftstate ps) < 1)%nat
  then Some (0, -1, [mkLogEntry None 0], 0, -1)
  else Decode (raftstate ps).

Definition durable rf : Prop :=
  stored (persister rf) = Some (persistentState rf)
  ∧ ps_snapshot (persister rf) = snapshot rf.

(** Shapes: the slices have one slot per peer and the log its dummy. *)
Record wf rf : Prop := {
  wf_me : (me rf < peers rf)%nat;
  wf_log : Log rf ≠ [];
  wf_nextIndex : length (nextIndex rf) = peers rf;
  wf_matchIndex : length (matchIndex rf) = peers rf;
  wf_isReplicating : length (isReplicating rf) = peers rf;
  wf_snapshot : 0 <= lastIncludedIndex rf
}.

(** The peer an operation indexes the slices with. *)
Definition op_peer_ok (n : nat) (op : NodeOp) : Prop :=
  match op with
  | OpAppendReply _ peer _ _ | OpInstallReply _ peer _ _
  | OpSetReplicating peer _ => (peer < n)%nat
  | _ => True
  end.

(** One step of a voter: its term, the candidate it voted for in that term
    ([-1] for none), and its role. *)
Definition voter : Type := Z * Z * Status.
Definition voter_of rf : voter := (CurrentTerm rf, VotedFor rf, status rf).

(** What a step may do to a vote. *)
Inductive VoteAct := ActGrant | ActStand | ActCount | ActOther.

Definition act_of (op : NodeOp) : VoteAct :=
  match op with
  | OpRequestVote _ _ => ActGrant
  | OpTicker _ _ _ => ActStand
  | OpVoteReply _ _ _ _ => ActCount
  | _ => ActOther
  end.

Inductive vote_step (self : Z) (act : VoteAct) : voter → voter → Prop :=
  | vote_same x : vote_step self act x x
  | vote_follow t v r : vote_step self act (t, v, r) (t, v, Follower)
  | vote_newer t v r t' : t < t' → vote_step self act (t, v, r) (t', -1, Follower)
  | vote_newer_grant t v r t' c :
      act = ActGrant → t < t' → vote_step self act (t, v, r) (t', c, Follower)
  | vote_grant t r c :
      act = ActGrant → vote_step self act (t, -1, r) (t, c, r)
  | vote_stand t v r :
      act = ActStand → vote_step self act (t, v, r) (t + 1, self, Candidate)
  | vote_win t v :
      act = ActCount → vote_step self act (t, v, Candidate) (t, v, Leader).

(** The two operations that clear a vote inside a term. *)
Definition clears_vote rf (op : NodeOp) : Prop :=
  match op with
  | OpKill => True
  | OpInstallSnapshot _ args => isa_Term args = CurrentTerm rf
  | _ => False
  end.

(** [applyCommitted] is asleep only when there is nothing to deliver. *)
Definition no_lost_wakeup rf : Prop :=
  applyCond rf = false → commitIndex rf <= lastApplied rf ∧ applySnapshot rf = false.

(** [lastIncludedIndex], [lastApplied] and [commitIndex]. *)
Definition indices_of rf : Z * Z * Z :=
  (lastIncludedIndex rf, lastApplied rf, commitIndex rf).

Definition ordered (i : Z * Z * Z) : Prop :=
  let '(included, applied, committed) := i in included <= applied <= committed.

(** Still in order, and the commit index has not moved back. *)
Definition advances (i i' : Z * Z * Z) : Prop :=
  ordered i' ∧ snd i <= snd i'.

(** The service snapshots only what was applied, and the leader's commit index
    is covered by the entries sent with it. *)
Definition op_indices_ok rf (op : NodeOp) : Prop :=
  match op with
  | OpSnapshot index _ => index <= lastApplied rf
  | OpAppendEntries _ args =>
      aea_LeaderCommit args <= aea_PrevLogIndex args + len (aea_Entries args)
  | _ => True
  end.

(** The identity of a peer and the size of its cluster never change. *)
Definition static rf rf' : Prop := me rf' = me rf ∧ peers rf' = peers rf.

(** ** How the parts change the state *)

Lemma appendLoop_frame p i es rf :
  ∃ l, appendLoop p i es rf = rf <| Log := l |> ∧ (Log rf ≠ [] → l ≠ []).
Proof.
  revert i. induction es as [|e es IH]; intros i; simpl.
  - exists (Log rf). by destruct rf.
  - repeat case_decide; eauto.
    + eexists. split; [done|]. by destruct (Log rf).
    + eexists. split; [done|]. by destruct (slice_to (Log rf) _).
Qed.

Lemma updateFollowerCommitIndex_cases lc ln rf :
  (updateFollowerCommitIndex lc ln rf = rf ∧ lc <= commitIndex rf) ∨
  (updateFollowerCommitIndex lc ln rf
     = rf <| commitIndex := Z.min lc ln |> <| applyCond := true |>
   ∧ commitIndex rf < lc).
Proof.
  unfold updateFollowerCommitIndex. repeat case_decide; [right|right|left; split; [done|lia]].
  - rewrite Z.min_l by lia. split; [done|lia].
  - rewrite Z.min_r by lia. split; [done|lia].
Qed.

Lemma stepDown_cases now t rf :
  (stepDown now t rf = (rf, false) ∧ t <= CurrentTerm rf) ∨
  (CurrentTerm rf < t ∧
   stepDown now t rf =
     (persist (rf <| CurrentTerm := t |> <| status := Follower |> <| VotedFor := -1 |>
                  <| lastHeartbeat := now |>)
        <| isReplicating := (λ _, false) <$> isReplicating rf |>, true)).
Proof.
  unfold stepDown. case_decide; [left|right]; split; done || lia.
Qed.

Lemma AppendEntries_cases now args reply rf :
  let rf1 := fst (stepDown now (aea_Term args) rf)
               <| lastHeartbeat := now |> <| status := Follower |> in
  (fst (AppendEntries now args reply rf) = rf ∧ aea_Term args < CurrentTerm rf) ∨
  (CurrentTerm rf <= aea_Term args ∧
   (fst (AppendEntries now args reply rf) = rf1 ∨
    ∃ l, (Log rf ≠ [] → l ≠ []) ∧
      fst (AppendEntries now args reply rf) =
        updateFollowerCommitIndex (aea_LeaderCommit args)
          (aea_PrevLogIndex args + len (aea_Entries args)) (persist (rf1 <| Log := l |>)))).
Proof.
  intros rf1. unfold AppendEntries. case_decide; [by left|right].
  split; [lia|]. fold rf1. destruct (matchPrevLog args reply rf1) as [r []]; [right|by left].
  destruct (appendLoop_frame (aea_PrevLogIndex args) 0 (aea_Entries args) rf1)
    as (l & -> & Hl).
  exists l. split; [|done]. intros HL. apply Hl. subst rf1.
  destruct (stepDown_cases now (aea_Term args) rf) as [[-> _]|[_ ->]]; done.
Qed.

Lemma RequestVote_cases now args reply rf :
  let rf1 := fst (stepDown now (rva_Term args) rf) in
  let out := RequestVote now args reply rf in
  (fst out = rf ∧ rvr_VoteGranted (snd out) = false ∧ rva_Term args < CurrentTerm rf) ∨
  (CurrentTerm rf <= rva_Term args ∧
   ((fst out = rf1 ∧ rvr_VoteGranted (snd out) = false) ∨
    (fst out = persist (rf1 <| VotedFor := rva_CandidateId args |> <| lastHeartbeat := now |>)
     ∧ rvr_VoteGranted (snd out) = true
     ∧ (VotedFor rf1 = -1 ∨ VotedFor rf1 = rva_CandidateId args)
     ∧ isLogUpToDate rf1 (rva_LastLogIndex args) (rva_LastLogTerm args) = true))).
Proof.
  intros rf1 out. subst out. unfold RequestVote.
  case_decide as Hlt; [by left|right]. split; [lia|].
  replace (if decide (rva_Term args > CurrentTerm rf) then _ else rf) with rf1.
  2: { subst rf1. case_decide; [done|].
       destruct (stepDown_cases now (rva_Term args) rf) as [[-> _]|[? _]]; [done|lia]. }
  case_decide as Hg; [right|by left]. by destruct Hg.
Qed.

(** The advance of an index that only moves forward. *)
Lemma advance_commitIndex L rf :
  (if decide (commitIndex rf < L) then rf <| commitIndex := L |> else rf)
  = rf <| commitIndex := Z.max (commitIndex rf) L |>.
Proof.
  case_decide.
  - by rewrite Z.max_r by lia.
  - rewrite Z.max_l by lia. by destruct rf.
Qed.

Lemma advance_lastApplied L rf :
  (if decide (lastApplied rf < L) then rf <| lastApplied := L |> else rf)
  = rf <| lastApplied := Z.max (lastApplied rf) L |>.
Proof.
  case_decide.
  - by rewrite Z.max_r by lia.
  - rewrite Z.max_l by lia. by destruct rf.
Qed.

(** The log kept by [InstallSnapshot]: its new dummy and what follows the
    snapshot if the log holds the snapshot's last entry. *)
Definition retainedLog (args : InstallSnapshotArgs) rf : list (LogEntry C) :=
  let appendStart := retainLoop (length (Log rf)) args 1 rf in
  mkLogEntry None (isa_LastIncludedTerm args) ::
    (if decide (appendStart > 0) then slice_from (Log rf) appendStart else []).

Lemma retainLoop_frame fuel args i rf rf' :
  Log rf = Log rf' → lastIncludedIndex rf = lastIncludedIndex rf' →
  retainLoop fuel args i rf = retainLoop fuel args i rf'.
Proof.
  intros Hl Hi. revert i. induction fuel as [|fuel IH]; intros i; simpl; [done|].
  unfold termAt. rewrite Hl, Hi, IH. done.
Qed.

Lemma InstallSnapshot_cases now args reply rf :
  let out := fst (InstallSnapshot now args reply rf) in
  let rf1 := rf <| CurrentTerm := isa_Term args |> <| VotedFor := -1 |>
                <| status := Follower |> <| lastHeartbeat := now |> in
  (out = rf ∧ isa_Term args < CurrentTerm rf) ∨
  (CurrentTerm rf <= isa_Term args ∧
   ((out = persist rf1 ∧ isa_LastIncludedIndex args <= lastIncludedIndex rf) ∨
    (lastIncludedIndex rf < isa_LastIncludedIndex args ∧
     out = persist (rf1 <| snapshot := isa_Data args |> <| Log := retainedLog args rf |>
                        <| lastIncludedIndex := isa_LastIncludedIndex args |>
                        <| lastIncludedTerm := isa_LastIncludedTerm args |>
                        <| commitIndex := Z.max (commitIndex rf) (isa_LastIncludedIndex args) |>
                        <| lastApplied := Z.max (lastApplied rf) (isa_LastIncludedIndex args) |>)
             <| applySnapshot := true |> <| applyCond := true |>))).
Proof.
  intros out rf1. subst out. unfold InstallSnapshot. fold rf1.
  case_decide as Hlt; [by left|right]. split; [lia|].
  change (lastIncludedIndex rf1) with (lastIncludedIndex rf).
  case_decide as Hi; [by left|right]. split; [lia|]. cbv zeta.
  rewrite advance_commitIndex, advance_lastApplied. cbn [fst].
  set (rf2 := rf1 <| snapshot := isa_Data args |>).
  unfold retainedLog.
  rewrite (retainLoop_frame _ args 1 rf rf2) by done.
  change (Log rf2) with (Log rf). by case_decide.
Qed.

Lemma set_index_Some {A} peer (v : A) l :
  (peer < length l)%nat → set_index peer v l = Some (<[peer := v]> l).
Proof. intros. unfold set_index. by rewrite decide_True. Qed.

Lemma set_index_inv {A} peer (v : A) l l' :
  set_index peer v l = Some l' → (peer < length l)%nat ∧ l' = <[peer := v]> l.
Proof. unfold set_index. case_decide; naive_solver. Qed.

Lemma updateMatchAndNextIndex_frame peer m rf rf' :
  updateMatchAndNextIndex peer m rf = Some rf' →
  ∃ ms ns, rf' = rf <| matchIndex := ms |> <| nextIndex := ns |>
    ∧ length ms = length (matchIndex rf) ∧ length ns = length (nextIndex rf).
Proof.
  unfold updateMatchAndNextIndex. intros (m0 & _ & (rf1 & Hrf1 & H1)%bind_Some)%bind_Some.
  assert (∃ ms, rf1 = rf <| matchIndex := ms |> ∧ length ms = length (matchIndex rf))
    as (ms & -> & Hms).
  { case_decide.
    - apply bind_Some in Hrf1 as (l & [_ ->]%set_index_inv & [= <-]).
      eexists. split; [done|]. by rewrite length_insert.
    - injection Hrf1 as <-. exists (matchIndex rf). by destruct rf. }
  apply bind_Some in H1 as (m1 & _ & (l & [_ ->]%set_index_inv & [= <-])%bind_Some).
  eexists _, _. split; [done|]. by rewrite length_insert.
Qed.

Lemma commitLoop_cases fuel N rf rf' :
  commitLoop fuel N rf = Some rf' →
  rf' = rf ∨ ∃ M, commitIndex rf < M
    ∧ rf' = rf <| commitIndex := M |> <| applyCond := true |>.
Proof.
  revert N. induction fuel as [|fuel IH]; simpl; intros N Hl; [naive_solver|].
  repeat case_decide; simplify_eq; eauto.
  apply bind_Some in Hl as (c & _ & Hl). case_decide; simplify_eq; eauto.
  right. exists N. split; [lia|done].
Qed.

(** ** Durability *)

(** Two states a restart cannot tell apart. *)
Definition same_durable rf rf' : Prop :=
  persister rf = persister rf' ∧ persistentState rf = persistentState rf'
  ∧ snapshot rf = snapshot rf'.

#[global] Instance same_durable_equiv : Equivalence same_durable.
Proof.
  split; unfold same_durable; [done|intros ?? (?&?&?)|intros ??? (?&?&?) (?&?&?)];
    split_and!; congruence.
Qed.

#[global] Instance durable_proper : Proper (same_durable ==> iff) durable.
Proof. intros rf rf' (Hp & Hs & Hn). unfold durable. by rewrite Hp, Hs, Hn. Qed.

Lemma clone_id b : clone b = b.
Proof. apply take_ge. lia. Qed.

Lemma durable_persist rf : durable (persist rf).
Proof.
  unfold durable, stored, persist. cbn [upd Upd_persister persister Save raftstate].
  rewrite !clone_id. cbn. rewrite clone_id.
  rewrite decide_False; [|pose proof (Encode_nonempty (persistentState rf)) as Hne;
    unfold persistentState in Hne; destruct (Encode _); simpl; [done|lia]].
  by rewrite Decode_Encode.
Qed.

Lemma durable_Snapshot i s rf : durable rf → durable (Snapshot i s rf).
Proof.
  unfold Snapshot. intros Hd. repeat case_decide; done || apply durable_persist.
Qed.

Lemma durable_frame rf rf' : durable rf → same_durable rf rf' → durable rf'.
Proof. intros Hd Hs. by rewrite <-Hs. Qed.

Lemma same_durable_commit lc ln rf : same_durable rf (updateFollowerCommitIndex lc ln rf).
Proof.
  by destruct (updateFollowerCommitIndex_cases lc ln rf) as [[-> _]|[-> _]].
Qed.

Lemma durable_stepDown now t rf : durable rf → durable (fst (stepDown now t rf)).
Proof.
  intros Hd. destruct (stepDown_cases now t rf) as [[-> _]|[_ ->]]; [done|].
  by eapply durable_frame; [apply durable_persist|].
Qed.

Lemma durable_AppendEntries now args reply rf :
  durable rf → durable (fst (AppendEntries now args reply rf)).
Proof.
  intros Hd. pose proof (AppendEntries_cases now args reply rf) as Hc. simpl in Hc.
  destruct Hc as [[-> _]|[_ [->|(l & _ & ->)]]]; [done| |].
  - by eapply durable_frame; [apply durable_stepDown, Hd|].
  - eapply durable_frame; [apply durable_persist|apply same_durable_commit].
Qed.

Ltac frame_durable :=
  lazymatch goal with
  | |- durable (fst (stepDown _ _ _)) => by apply durable_stepDown
  | |- durable (persist _) => apply durable_persist
  | Hd : durable ?rf |- durable ?rf => exact Hd
  | |- _ =>
      first [ eapply durable_frame; [eassumption|by repeat split]
            | eapply durable_frame; [apply durable_persist|by repeat split] ]
  end.

Lemma durable_handleSendAppendEntries now peer args reply rf rf' :
  durable rf → handleSendAppendEntries now peer args reply rf = Some rf' → durable rf'.
Proof.
  unfold handleSendAppendEntries, set_nextIndex, updateLeaderCommitIndex. intros Hd Hx.
  case_decide; [by simplify_eq|].
  destruct (stepDown_cases now (aer_Term reply) rf) as [[E _]|[_ E]]; rewrite E in Hx.
  2: { simplify_eq. frame_durable. }
  destruct (aer_Success reply).
  { apply bind_Some in Hx as (rf1 & Hu & Hx).
    apply updateMatchAndNextIndex_frame in Hu as (ms & ns & -> & _).
    apply commitLoop_cases in Hx as [->|(M & _ & ->)]; frame_durable. }
  repeat case_decide; apply bind_Some in Hx as (l & _ & [= <-]); frame_durable.
Qed.

Lemma durable_handleInstallSnapshot_reply now peer args reply rf rf' :
  durable rf → handleInstallSnapshot_reply now peer args reply rf = Some rf' → durable rf'.
Proof.
  unfold handleInstallSnapshot_reply. intros Hd Hx.
  case_decide; [by simplify_eq|].
  destruct (stepDown_cases now (isr_Term reply) rf) as [[E _]|[_ E]]; rewrite E in Hx.
  - apply updateMatchAndNextIndex_frame in Hx as (ms & ns & -> & _). frame_durable.
  - simplify_eq. frame_durable.
Qed.

Lemma durable_RequestVote now args reply rf :
  durable rf → durable (fst (RequestVote now args reply rf)).
Proof.
  intros Hd. pose proof (RequestVote_cases now args reply rf) as Hc. simpl in Hc.
  destruct Hc as [[-> _]|[_ [[-> _]|[-> _]]]];
    [done|by apply durable_stepDown|apply durable_persist].
Qed.

Lemma durable_InstallSnapshot now args reply rf :
  durable rf → durable (fst (InstallSnapshot now args reply rf)).
Proof.
  intros Hd. pose proof (InstallSnapshot_cases now args reply rf) as Hc. cbv zeta in Hc.
  destruct Hc as [[-> _]|[_ [[-> _]|[_ ->]]]]; frame_durable.
Qed.

Lemma durable_ticker now rnd timeout rf :
  durable rf → durable (fst (fst (ticker now rnd timeout rf))).
Proof.
  intros Hd. unfold ticker. case_decide; [frame_durable|].
  case_decide; [|done]. case_decide; [apply durable_persist|frame_durable].
Qed.

Lemma durable_handleRequestVoteReply now args reply votes rf :
  durable rf → durable (fst (fst (handleRequestVoteReply now args reply votes rf))).
Proof.
  intros Hd. unfold handleRequestVoteReply, becomeLeader.
  repeat (case_decide; simpl); frame_durable.
Qed.

Lemma durable_applyCommitted rf : durable rf → durable (fst (applyCommitted rf)).
Proof.
  intros Hd. unfold applyCommitted. case_decide; simpl; [frame_durable|].
  destruct (killed rf); simpl; [done|]. case_decide; simpl; frame_durable.
Qed.

(** Every step of a peer leaves its persister holding its persistent state. *)
Lemma exec_op_durable op rf rf' :
  durable rf → exec_op op rf = Some rf' → durable rf'.
Proof.
  intros Hd Hx. destruct op; simpl in Hx; try (injection Hx as <-).
  - by apply durable_Snapshot.
  - by apply durable_RequestVote.
  - by apply durable_AppendEntries.
  - by apply durable_InstallSnapshot.
  - unfold Start. case_decide; simpl; frame_durable.
  - apply durable_persist.
  - by apply durable_ticker.
  - by eapply durable_frame.
  - by apply durable_handleRequestVoteReply.
  - by eapply durable_handleSendAppendEntries.
  - by eapply durable_handleInstallSnapshot_reply.
  - apply bind_Some in Hx as (l & _ & [= <-]). frame_durable.
  - by apply durable_applyCommitted.
Qed.

(** ** Shapes: no operation panics *)

Ltac frame_wf :=
  match goal with
  | Hw : wf ?rf |- wf ?rf => exact Hw
  | Hw : wf _ |- wf _ =>
      destruct Hw; constructor; cbn;
      rewrite ?length_replicate, ?length_fmap, ?length_insert; solve [done | lia | eauto]
  end.

Lemma wf_stepDown now t rf : wf rf → wf (fst (stepDown now t rf)).
Proof.
  intros Hw. destruct (stepDown_cases now t rf) as [[-> _]|[_ ->]]; [done|]. frame_wf.
Qed.

Lemma wf_commit lc ln rf : wf rf → wf (updateFollowerCommitIndex lc ln rf).
Proof.
  intros Hw. destruct (updateFollowerCommitIndex_cases lc ln rf) as [[-> _]|[-> _]]; frame_wf.
Qed.

Lemma wf_AppendEntries now args reply rf :
  wf rf → wf (fst (AppendEntries now args reply rf)).
Proof.
  intros Hw. pose proof (wf_stepDown now (aea_Term args) rf Hw) as Hw1.
  pose proof (AppendEntries_cases now args reply rf) as Hc. simpl in Hc.
  destruct Hc as [[-> _]|[_ [->|(l & Hl & ->)]]]; [done| |].
  - generalize dependent (fst (stepDown now (aea_Term args) rf)). intros. frame_wf.
  - apply wf_commit. specialize (Hl (wf_log _ Hw)).
    generalize dependent (fst (stepDown now (aea_Term args) rf)). intros. frame_wf.
Qed.

Lemma countMatch_total rf N ps count :
  Forall (λ i, (i < length (matchIndex rf))%nat) ps →
  is_Some (countMatch rf N ps count).
Proof.
  intros Hps. revert count. induction Hps as [|i ps Hi Hps IH]; intros count; simpl; [done|].
  case_decide; [|done]. apply lookup_lt_is_Some in Hi as [m ->]. simpl. apply IH.
Qed.

Lemma commitLoop_total fuel N rf : wf rf → is_Some (commitLoop fuel N rf).
Proof.
  intros Hw. revert N. induction fuel as [|fuel IH]; intros N; simpl; [done|].
  repeat case_decide; auto.
  destruct (countMatch_total rf N (seq 0 (peers rf)) 1) as [c ->].
  { apply Forall_forall. intros i Hi%in_seq. rewrite (wf_matchIndex _ Hw). lia. }
  simpl. case_decide; auto.
Qed.

Lemma wf_updateLeaderCommitIndex rf :
  wf rf → ∃ rf', updateLeaderCommitIndex rf = Some rf' ∧ wf rf'.
Proof.
  intros Hw. unfold updateLeaderCommitIndex.
  destruct (commitLoop_total (Z.to_nat (lastLogIndex rf - commitIndex rf)) (lastLogIndex rf)
    rf Hw) as [rf' Hrf']. exists rf'. split; [done|].
  apply commitLoop_cases in Hrf' as [->|(M & _ & ->)]; frame_wf.
Qed.

Lemma wf_updateMatchAndNextIndex peer m rf :
  wf rf → (peer < peers rf)%nat →
  ∃ rf', updateMatchAndNextIndex peer m rf = Some rf' ∧ wf rf' ∧ peers rf' = peers rf.
Proof.
  intros Hw Hp.
  assert (is_Some (updateMatchAndNextIndex peer m rf)) as [rf' Hrf'].
  { unfold updateMatchAndNextIndex.
    pose proof (wf_matchIndex _ Hw) as Hm. pose proof (wf_nextIndex _ Hw) as Hn.
    destruct (lookup_lt_is_Some_2 (matchIndex rf) peer) as [m0 E]; [lia|].
    rewrite E. simpl. case_decide; simpl.
    - rewrite set_index_Some by lia. simpl.
      rewrite list_lookup_insert_eq by lia. simpl. by rewrite set_index_Some by lia.
    - rewrite E. simpl. by rewrite set_index_Some by lia. }
  exists rf'. split; [done|].
  apply updateMatchAndNextIndex_frame in Hrf' as (ms & ns & -> & Hms & Hns).
  split; [|done]. destruct Hw; constructor; cbn; congruence.
Qed.

Lemma wf_set_nextIndex peer v rf :
  wf rf → (peer < peers rf)%nat → ∃ rf', set_nextIndex peer v rf = Some rf' ∧ wf rf'.
Proof.
  intros Hw Hp. unfold set_nextIndex.
  rewrite set_index_Some by (rewrite (wf_nextIndex _ Hw); lia).
  eexists. split; [done|]. frame_wf.
Qed.

Lemma wf_handleSendAppendEntries now peer args reply rf :
  wf rf → (peer < peers rf)%nat →
  ∃ rf', handleSendAppendEntries now peer args reply rf = Some rf' ∧ wf rf'.
Proof.
  intros Hw Hp. unfold handleSendAppendEntries. case_decide; [eauto|].
  destruct (stepDown_cases now (aer_Term reply) rf) as [[E _]|[_ E]]; rewrite E.
  2: { eexists. split; [done|]. frame_wf. }
  destruct (aer_Success reply).
  - destruct (wf_updateMatchAndNextIndex peer
      (aea_PrevLogIndex args + len (aea_Entries args)) rf Hw Hp) as (rf1 & -> & Hw1 & _).
    by apply wf_updateLeaderCommitIndex.
  - repeat case_decide; by apply wf_set_nextIndex.
Qed.

Lemma wf_handleInstallSnapshot_reply now peer args reply rf :
  wf rf → (peer < peers rf)%nat →
  ∃ rf', handleInstallSnapshot_reply now peer args reply rf = Some rf' ∧ wf rf'.
Proof.
  intros Hw Hp. unfold handleInstallSnapshot_reply. case_decide; [eauto|].
  destruct (stepDown_cases now (isr_Term reply) rf) as [[E _]|[_ E]]; rewrite E.
  - destruct (wf_updateMatchAndNextIndex peer (isa_LastIncludedIndex args) rf Hw Hp)
      as (rf1 & -> & Hw1 & _). eauto.
  - eexists. split; [done|]. frame_wf.
Qed.

Lemma wf_Snapshot i s rf : wf rf → wf (Snapshot i s rf).
Proof.
  intros Hw. unfold Snapshot. pose proof (wf_snapshot _ Hw).
  repeat case_decide; frame_wf.
Qed.

Lemma wf_InstallSnapshot now args reply rf :
  wf rf → wf (fst (InstallSnapshot now args reply rf)).
Proof.
  intros Hw. pose proof (wf_snapshot _ Hw).
  pose proof (InstallSnapshot_cases now args reply rf) as Hc. cbv zeta in Hc.
  destruct Hc as [[-> _]|[_ [[-> _]|[Hi ->]]]]; frame_wf.
Qed.

Lemma wf_Start c rf : wf rf → wf (fst (fst (Start c rf))).
Proof.
  intros Hw. unfold Start. case_decide; cbn [fst]; [done|].
  destruct Hw; constructor; cbn; try done. by destruct (Log rf).
Qed.

Lemma wf_ticker now rnd timeout rf : wf rf → wf (fst (fst (ticker now rnd timeout rf))).
Proof. intros Hw. unfold ticker. repeat (case_decide; cbn [fst]); frame_wf. Qed.

Lemma wf_handleRequestVoteReply now args reply votes rf :
  wf rf → wf (fst (fst (handleRequestVoteReply now args reply votes rf))).
Proof.
  intros Hw. unfold handleRequestVoteReply, becomeLeader.
  repeat (case_decide; cbn [fst]); try by apply wf_stepDown. all: frame_wf.
Qed.

Lemma wf_applyCommitted rf : wf rf → wf (fst (applyCommitted rf)).
Proof.
  intros Hw. unfold applyCommitted. case_decide; cbn [fst]; [frame_wf|].
  destruct (killed rf); cbn [fst]; [done|]. case_decide; cbn [fst]; frame_wf.
Qed.

(** No operation indexes a slice out of range, and the shapes are kept. *)
Lemma exec_op_total op rf :
  wf rf → op_peer_ok (peers rf) op → ∃ rf', exec_op op rf = Some rf' ∧ wf rf'.
Proof.
  intros Hw Hp. destruct op; cbn in Hp |- *;
    try (eexists; split; [reflexivity|]).
  - by apply wf_Snapshot.
  - pose proof (RequestVote_cases now args zeroRVReply rf) as Hc. simpl in Hc.
    pose proof (wf_stepDown now (rva_Term args) rf Hw) as Hw1.
    destruct Hc as [[-> _]|[_ [[-> _]|[-> _]]]]; [done|done|].
    generalize dependent (fst (stepDown now (rva_Term args) rf)). intros. frame_wf.
  - by apply wf_AppendEntries.
  - by apply wf_InstallSnapshot.
  - by apply wf_Start.
  - frame_wf.
  - by apply wf_ticker.
  - frame_wf.
  - by apply wf_handleRequestVoteReply.
  - by apply wf_handleSendAppendEntries.
  - by apply wf_handleInstallSnapshot_reply.
  - unfold set_isReplicating.
    rewrite set_index_Some by (rewrite (wf_isReplicating _ Hw); lia).
    eexists. split; [reflexivity|]. frame_wf.
  - by apply wf_applyCommitted.
Qed.

(** ** Votes *)

Abbreviation self rf := (Z.of_nat (me rf)).

Lemma vote_stepDown act now t rf :
  vote_step (self rf) act (voter_of rf) (voter_of (fst (stepDown now t rf))).
Proof.
  destruct (stepDown_cases now t rf) as [[-> _]|[Ht ->]]; [constructor|].
  by apply vote_newer.
Qed.

Lemma vote_AppendEntries act now args reply rf :
  vote_step (self rf) act (voter_of rf) (voter_of (fst (AppendEntries now args reply rf))).
Proof.
  assert (∀ lc ln r, voter_of (updateFollowerCommitIndex lc ln r) = voter_of r) as Hu.
  { intros lc ln r.
    by destruct (updateFollowerCommitIndex_cases lc ln r) as [[-> _]|[-> _]]. }
  pose proof (AppendEntries_cases now args reply rf) as Hc. simpl in Hc.
  destruct Hc as [[-> _]|[_ [->|(l & _ & ->)]]]; [constructor| |rewrite Hu];
    destruct (stepDown_cases now (aea_Term args) rf) as [[-> _]|[Ht ->]];
    solve [apply vote_follow | by apply vote_newer].
Qed.

Lemma vote_RequestVote now args reply rf :
  vote_step (self rf) ActGrant (voter_of rf) (voter_of (fst (RequestVote now args reply rf))).
Proof.
  pose proof (RequestVote_cases now args reply rf) as Hc. simpl in Hc.
  destruct Hc as [[-> _]|[Hle [[-> _]|(-> & _ & Hv & _)]]]; [constructor|apply vote_stepDown|].
  destruct (stepDown_cases now (rva_Term args) rf) as [[E _]|[Ht E]];
    rewrite E in Hv |- *; [|by apply vote_newer_grant].
  unfold voter_of; cbn. cbn in Hv. destruct Hv as [->|<-]; [by apply vote_grant|constructor].
Qed.

Lemma vote_updateMatch peer m rf rf' :
  updateMatchAndNextIndex peer m rf = Some rf' → voter_of rf' = voter_of rf.
Proof. by intros (ms & ns & -> & _)%updateMatchAndNextIndex_frame. Qed.

Lemma vote_handleSendAppendEntries act now peer args reply rf rf' :
  handleSendAppendEntries now peer args reply rf = Some rf' →
  vote_step (self rf) act (voter_of rf) (voter_of rf').
Proof.
  unfold handleSendAppendEntries, set_nextIndex, updateLeaderCommitIndex. intros Hx.
  case_decide; [simplify_eq; constructor|].
  pose proof (vote_stepDown act now (aer_Term reply) rf) as Hsd.
  destruct (stepDown_cases now (aer_Term reply) rf) as [[E _]|[_ E]]; rewrite E in Hx, Hsd.
  2: { by simplify_eq. }
  destruct (aer_Success reply).
  { apply bind_Some in Hx as (rf1 & <-%vote_updateMatch & Hx).
    apply commitLoop_cases in Hx as [->|(M & _ & ->)]; constructor. }
  repeat case_decide; apply bind_Some in Hx as (l & _ & [= <-]); constructor.
Qed.

Lemma vote_handleInstallSnapshot_reply act now peer args reply rf rf' :
  handleInstallSnapshot_reply now peer args reply rf = Some rf' →
  vote_step (self rf) act (voter_of rf) (voter_of rf').
Proof.
  unfold handleInstallSnapshot_reply. intros Hx.
  case_decide; [simplify_eq; constructor|].
  pose proof (vote_stepDown act now (isr_Term reply) rf) as Hsd.
  destruct (stepDown_cases now (isr_Term reply) rf) as [[E _]|[_ E]]; rewrite E in Hx, Hsd.
  - apply vote_updateMatch in Hx as ->. constructor.
  - by simplify_eq.
Qed.

Lemma vote_handleRequestVoteReply now args reply votes rf :
  vote_step (self rf) ActCount (voter_of rf)
    (voter_of (fst (fst (handleRequestVoteReply now args reply votes rf)))).
Proof.
  unfold handleRequestVoteReply, becomeLeader.
  case_decide as Hg; [constructor|]. case_decide; [apply vote_stepDown|].
  assert (status rf = Candidate) as Hs.
  { destruct (decide (status rf = Candidate)); tauto. }
  case_decide; [constructor|]. case_decide; [|constructor].
  rewrite decide_False by congruence. unfold voter_of; cbn. rewrite Hs. by apply vote_win.
Qed.

Lemma voter_InstallSnapshot now args reply rf :
  CurrentTerm rf <= isa_Term args →
  voter_of (fst (InstallSnapshot now args reply rf)) = (isa_Term args, -1, Follower).
Proof.
  intros Ht. pose proof (InstallSnapshot_cases now args reply rf) as Hc. cbv zeta in Hc.
  destruct Hc as [[_ ?]|[_ [[-> _]|[_ ->]]]]; [lia|done|done].
Qed.

Lemma vote_InstallSnapshot act now args reply rf :
  isa_Term args ≠ CurrentTerm rf →
  vote_step (self rf) act (voter_of rf) (voter_of (fst (InstallSnapshot now args reply rf))).
Proof.
  intros Hne. destruct (decide (isa_Term args < CurrentTerm rf)) as [Hlt|Hge].
  - unfold InstallSnapshot. rewrite decide_True by done. constructor.
  - rewrite voter_InstallSnapshot by lia. apply vote_newer. lia.
Qed.

Lemma voter_Snapshot i s rf : voter_of (Snapshot i s rf) = voter_of rf.
Proof. unfold Snapshot. by repeat case_decide. Qed.

Lemma vote_ticker now rnd timeout rf :
  vote_step (self rf) ActStand (voter_of rf) (voter_of (fst (fst (ticker now rnd timeout rf)))).
Proof.
  unfold ticker. case_decide; [constructor|]. case_decide; [|constructor].
  case_decide; [|constructor]. by apply vote_stand.
Qed.

Lemma voter_applyCommitted rf : voter_of (fst (applyCommitted rf)) = voter_of rf.
Proof.
  unfold applyCommitted. case_decide; [done|]. destruct (killed rf); [done|].
  by case_decide.
Qed.

(** Every step follows the voter automaton, apart from the two that forget the
    vote of the current term. *)
Lemma exec_op_votes op rf rf' :
  exec_op op rf = Some rf' →
  (¬ clears_vote rf op → vote_step (self rf) (act_of op) (voter_of rf) (voter_of rf'))
  ∧ (clears_vote rf op → voter_of rf' = (CurrentTerm rf, -1, Follower)).
Proof.
  intros Hx. split; intros Hc; destruct op; cbn in Hx, Hc; try (injection Hx as <-);
    try (by destruct Hc).
  - rewrite voter_Snapshot. constructor.
  - apply vote_RequestVote.
  - apply vote_AppendEntries.
  - by apply vote_InstallSnapshot.
  - unfold Start. case_decide; constructor.
  - apply vote_ticker.
  - constructor.
  - apply vote_handleRequestVoteReply.
  - by eapply vote_handleSendAppendEntries.
  - by eapply vote_handleInstallSnapshot_reply.
  - apply bind_Some in Hx as (l & _ & [= <-]). constructor.
  - rewrite voter_applyCommitted. constructor.
  - rewrite voter_InstallSnapshot by lia. by rewrite Hc.
Qed.

(** Terms only grow, *)
Lemma vote_step_term self act t v r t' v' r' :
  vote_step self act (t, v, r) (t', v', r') → t <= t'.
Proof. inversion 1; subst; lia. Qed.

(** and only counting a vote makes a leader. *)
Lemma vote_step_leader self act t v r t' v' :
  act ≠ ActCount → vote_step self act (t, v, r) (t', v', Leader) → r = Leader ∧ t' = t.
Proof. intros Ha Hs. inversion Hs; subst; done. Qed.

(** Whatever happens to the vote. *)
Lemma exec_op_term op rf rf' :
  exec_op op rf = Some rf' →
  CurrentTerm rf <= CurrentTerm rf'
  ∧ (act_of op ≠ ActCount → status rf' = Leader → status rf = Leader ∧ CurrentTerm rf' = CurrentTerm rf).
Proof.
  intros [Hk Hc]%exec_op_votes.
  assert (Decision (clears_vote rf op)) as Hd by (destruct op; cbn; apply _).
  destruct (decide (clears_vote rf op)) as [Hcl|Hcl].
  - specialize (Hc Hcl). unfold voter_of in Hc. injection Hc as -> _ ->. split; [lia|done].
  - specialize (Hk Hcl). unfold voter_of in Hk. split; [by eapply vote_step_term|].
    intros Ha Hl. rewrite Hl in Hk. by apply vote_step_leader in Hk.
Qed.

(** ** Who a peer is *)

Lemma static_stepDown now t rf : static rf (fst (stepDown now t rf)).
Proof. by destruct (stepDown_cases now t rf) as [[-> _]|[_ ->]]. Qed.

Lemma static_updateMatch peer m rf rf' :
  updateMatchAndNextIndex peer m rf = Some rf' → static rf rf'.
Proof. by intros (ms & ns & -> & _)%updateMatchAndNextIndex_frame. Qed.

Lemma static_trans rf1 rf2 rf3 : static rf1 rf2 → static rf2 rf3 → static rf1 rf3.
Proof. unfold static. intuition congruence. Qed.

Lemma exec_op_static op rf rf' : exec_op op rf = Some rf' → static rf rf'.
Proof.
  intros Hx. destruct op; cbn in Hx; try (injection Hx as <-); try done.
  - unfold Snapshot. by repeat case_decide.
  - pose proof (RequestVote_cases now args zeroRVReply rf) as Hc. simpl in Hc.
    pose proof (static_stepDown now (rva_Term args) rf).
    by destruct Hc as [[-> _]|[_ [[-> _]|[-> _]]]].
  - pose proof (AppendEntries_cases now args zeroAEReply rf) as Hc. simpl in Hc.
    pose proof (static_stepDown now (aea_Term args) rf).
    destruct Hc as [[-> _]|[_ [->|(l & _ & ->)]]]; [done|done|].
    eapply static_trans; [done|].
    by destruct (updateFollowerCommitIndex_cases (aea_LeaderCommit args)
      (aea_PrevLogIndex args + len (aea_Entries args))
      (persist (fst (stepDown now (aea_Term args) rf)
         <| lastHeartbeat := now |> <| status := Follower |> <| Log := l |>)))
      as [[-> _]|[-> _]].
  - pose proof (InstallSnapshot_cases now args zeroISReply rf) as Hc. cbv zeta in Hc.
    by destruct Hc as [[-> _]|[_ [[-> _]|[_ ->]]]].
  - unfold Start. by case_decide.
  - unfold ticker. by repeat (case_decide; cbn [fst]).
  - unfold handleRequestVoteReply, becomeLeader.
    pose proof (static_stepDown now (rvr_Term reply) rf).
    by repeat (case_decide; cbn [fst]).
  - unfold handleSendAppendEntries, set_nextIndex, updateLeaderCommitIndex in Hx.
    case_decide; [by simplify_eq|].
    pose proof (static_stepDown now (aer_Term reply) rf) as Hs.
    destruct (stepDown now (aer_Term reply) rf) as [rf1 []]; [by simplify_eq|].
    eapply static_trans; [exact Hs|]. destruct (aer_Success reply).
    { apply bind_Some in Hx as (rf2 & Hu%static_updateMatch & Hx).
      eapply static_trans; [exact Hu|].
      by apply commitLoop_cases in Hx as [->|(M & _ & ->)]. }
    repeat case_decide; by apply bind_Some in Hx as (l & _ & [= <-]).
  - unfold handleInstallSnapshot_reply in Hx. case_decide; [by simplify_eq|].
    pose proof (static_stepDown now (isr_Term reply) rf) as Hs.
    destruct (stepDown now (isr_Term reply) rf) as [rf1 []]; [by simplify_eq|].
    eapply static_trans; [exact Hs|]. by eapply static_updateMatch.
  - by apply bind_Some in Hx as (l & _ & [= <-]).
  - unfold applyCommitted. case_decide; [done|]. destruct (killed rf); [done|].
    by case_decide.
Qed.

(** ** Restart *)

Lemma Make_stored n me' ps now st :
  stored ps = Some st →
  ∃ r, Make n me' ps now = Some (r, [GoTicker; GoApplyCommitted])
    ∧ persistentState r = st ∧ snapshot r = ps_snapshot ps
    ∧ persister r = ps ∧ status r = Follower ∧ me r = me' ∧ peers r = n.
Proof.
  intros Hst. unfold Make, readPersist, ReadRaftState. rewrite clone_id. cbn [persister].
  unfold stored in Hst. case_decide.
  - injection Hst as <-. eexists. split; [reflexivity|].
    cbn. unfold ReadSnapshot. by rewrite clone_id.
  - rewrite Hst. destruct st as [[[[ct vf] l] li] lt].
    cbn [mbind option_bind]. repeat (case_decide; cbn [mbind option_bind]);
      (eexists; split; [reflexivity|]); cbn -[clone]; unfold ReadSnapshot;
      by rewrite clone_id.
Qed.

(** ** Waking the applier *)

Lemma wake_commit lc ln rf :
  no_lost_wakeup rf → no_lost_wakeup (updateFollowerCommitIndex lc ln rf).
Proof.
  by destruct (updateFollowerCommitIndex_cases lc ln rf) as [[-> _]|[-> _]].
Qed.

Lemma wake_stepDown now t rf :
  no_lost_wakeup rf → no_lost_wakeup (fst (stepDown now t rf)).
Proof. by destruct (stepDown_cases now t rf) as [[-> _]|[_ ->]]. Qed.

Lemma wake_updateMatch peer m rf rf' :
  no_lost_wakeup rf → updateMatchAndNextIndex peer m rf = Some rf' → no_lost_wakeup rf'.
Proof. by intros Hw (ms & ns & -> & _)%updateMatchAndNextIndex_frame. Qed.

Lemma exec_op_wakeup op rf rf' :
  no_lost_wakeup rf → exec_op op rf = Some rf' → no_lost_wakeup rf'.
Proof.
  intros Hw Hx. destruct op; cbn in Hx; try (injection Hx as <-).
  - unfold Snapshot. by repeat case_decide.
  - pose proof (RequestVote_cases now args zeroRVReply rf) as Hc. simpl in Hc.
    pose proof (wake_stepDown now (rva_Term args) rf Hw).
    by destruct Hc as [[-> _]|[_ [[-> _]|[-> _]]]].
  - pose proof (AppendEntries_cases now args zeroAEReply rf) as Hc. simpl in Hc.
    pose proof (wake_stepDown now (aea_Term args) rf Hw).
    destruct Hc as [[-> _]|[_ [->|(l & _ & ->)]]]; [done|done|by apply wake_commit].
  - pose proof (InstallSnapshot_cases now args zeroISReply rf) as Hc. cbv zeta in Hc.
    by destruct Hc as [[-> _]|[_ [[-> _]|[_ ->]]]].
  - unfold Start. by case_decide.
  - done.
  - unfold ticker. by repeat (case_decide; cbn [fst]).
  - done.
  - unfold handleRequestVoteReply, becomeLeader. pose proof (wake_stepDown now (rvr_Term reply) rf Hw).
    by repeat (case_decide; cbn [fst]).
  - unfold handleSendAppendEntries, set_nextIndex, updateLeaderCommitIndex in Hx.
    case_decide; [by simplify_eq|].
    pose proof (wake_stepDown now (aer_Term reply) rf Hw) as Hsd.
    destruct (stepDown now (aer_Term reply) rf) as [rf1 []]; [by simplify_eq|].
    destruct (aer_Success reply).
    { apply bind_Some in Hx as (rf2 & Hu & Hx). apply wake_updateMatch in Hu; [|done].
      by apply commitLoop_cases in Hx as [->|(M & _ & ->)]. }
    repeat case_decide; by apply bind_Some in Hx as (l & _ & [= <-]).
  - unfold handleInstallSnapshot_reply in Hx. case_decide; [by simplify_eq|].
    pose proof (wake_stepDown now (isr_Term reply) rf Hw) as Hsd.
    destruct (stepDown now (isr_Term reply) rf) as [rf1 []]; [by simplify_eq|].
    by eapply wake_updateMatch.
  - by apply bind_Some in Hx as (l & _ & [= <-]).
  - unfold applyCommitted. case_decide as Hg; [intros _; cbn; tauto|].
    destruct (killed rf) eqn:Hk; [done|].
    case_decide; intros [??]%Hw; exfalso; tauto.
Qed.

(** ** The indices of the log *)

Lemma ordered_updateMatch peer m rf rf' :
  updateMatchAndNextIndex peer m rf = Some rf' → indices_of rf' = indices_of rf.
Proof. by intros (ms & ns & -> & _)%updateMatchAndNextIndex_frame. Qed.

Lemma ordered_stepDown now t rf :
  indices_of (fst (stepDown now t rf)) = indices_of rf.
Proof. by destruct (stepDown_cases now t rf) as [[-> _]|[_ ->]]. Qed.

Lemma advances_refl i : ordered i → advances i i.
Proof. destruct i as [[??]?]. unfold advances, ordered. lia. Qed.

Lemma advances_AppendEntries now args reply rf :
  ordered (indices_of rf) →
  aea_LeaderCommit args <= aea_PrevLogIndex args + len (aea_Entries args) →
  advances (indices_of rf) (indices_of (fst (AppendEntries now args reply rf))).
Proof.
  intros Ho Hlc. pose proof (AppendEntries_cases now args reply rf) as Hc. simpl in Hc.
  pose proof (ordered_stepDown now (aea_Term args) rf) as Hs.
  generalize dependent (fst (stepDown now (aea_Term args) rf)).
  intros rf1 Hc Hs. destruct Hc as [[-> _]|[_ [->|(l & _ & ->)]]].
  - by apply advances_refl.
  - change (advances (indices_of rf) (indices_of rf1)). rewrite Hs. by apply advances_refl.
  - set (rf2 := persist _). assert (indices_of rf2 = indices_of rf) as Hs2 by done.
    rewrite <-Hs2 in Ho |- *. unfold indices_of, advances, ordered in *.
    destruct (updateFollowerCommitIndex_cases (aea_LeaderCommit args)
      (aea_PrevLogIndex args + len (aea_Entries args)) rf2) as [[-> _]|[-> ?]]; [lia|].
    cbn -[rf2]. rewrite Z.min_l by lia. lia.
Qed.

Lemma advances_handleSendAppendEntries now peer args reply rf rf' :
  ordered (indices_of rf) → handleSendAppendEntries now peer args reply rf = Some rf' →
  advances (indices_of rf) (indices_of rf').
Proof.
  unfold handleSendAppendEntries, set_nextIndex, updateLeaderCommitIndex. intros Ho Hx.
  case_decide; [simplify_eq; by apply advances_refl|].
  pose proof (ordered_stepDown now (aer_Term reply) rf) as Hs.
  destruct (stepDown now (aer_Term reply) rf) as [rf1 []]; cbn [fst] in Hs.
  { injection Hx as <-. rewrite Hs. by apply advances_refl. }
  rewrite <-Hs in Ho |- *. destruct (aer_Success reply).
  - apply bind_Some in Hx as (rf2 & Hu%ordered_updateMatch & Hx).
    rewrite <-Hu in Ho |- *.
    apply commitLoop_cases in Hx as [->|(M & ? & ->)]; [by apply advances_refl|].
    unfold indices_of, advances, ordered in *. cbn. lia.
  - repeat case_decide; apply bind_Some in Hx as (l & _ & [= <-]); by apply advances_refl.
Qed.

(** The snapshot stays behind [lastApplied], which stays behind [commitIndex],
    and the commit index never moves back. *)
Lemma exec_op_indices op rf rf' :
  ordered (indices_of rf) → op_indices_ok rf op → exec_op op rf = Some rf' →
  advances (indices_of rf) (indices_of rf').
Proof.
  intros Ho Hok Hx. destruct op; cbn in Hx, Hok; try (injection Hx as <-);
    try (by apply advances_refl).
  - unfold Snapshot. case_decide; [by apply advances_refl|].
    unfold indices_of, advances, ordered in *. repeat case_decide; cbn; lia.
  - pose proof (RequestVote_cases now args zeroRVReply rf) as Hc. simpl in Hc.
    pose proof (ordered_stepDown now (rva_Term args) rf) as Hs.
    destruct Hc as [[-> _]|[_ [[-> _]|[-> _]]]]; [by apply advances_refl| |];
      change (advances (indices_of rf) (indices_of (fst (stepDown now (rva_Term args) rf))));
      rewrite Hs; by apply advances_refl.
  - by apply advances_AppendEntries.
  - pose proof (InstallSnapshot_cases now args zeroISReply rf) as Hc. cbv zeta in Hc.
    destruct Hc as [[-> _]|[_ [[-> _]|[Hi ->]]]]; try by apply advances_refl.
    unfold indices_of, advances, ordered in *. cbn. lia.
  - unfold Start. case_decide; by apply advances_refl.
  - unfold ticker. repeat (case_decide; cbn [fst]); by apply advances_refl.
  - unfold handleRequestVoteReply, becomeLeader.
    repeat (case_decide; cbn [fst]); try (by apply advances_refl).
    rewrite ordered_stepDown. by apply advances_refl.
  - by eapply advances_handleSendAppendEntries.
  - unfold handleInstallSnapshot_reply in Hx. case_decide; [simplify_eq; by apply advances_refl|].
    pose proof (ordered_stepDown now (isr_Term reply) rf) as Hs.
    destruct (stepDown now (isr_Term reply) rf) as [rf1 []]; cbn [fst] in Hs.
    + injection Hx as <-. rewrite Hs. by apply advances_refl.
    + apply ordered_updateMatch in Hx as ->. rewrite Hs. by apply advances_refl.
  - apply bind_Some in Hx as (l & _ & [= <-]). by apply advances_refl.
  - unfold applyCommitted. case_decide; [by apply advances_refl|].
    destruct (killed rf) eqn:?; [by apply advances_refl|].
    unfold indices_of, advances, ordered in *. case_decide; cbn; [lia|].
    assert (applySnapshot rf = false) by (destruct (applySnapshot rf); tauto).
    assert (¬ (commitIndex rf <= lastApplied rf)) by tauto. lia.
Qed.

(** ** Runs of one peer *)

Fixpoint run_ops (ops : list NodeOp) rf : option Raft :=
  match ops with
  | [] => Some rf
  | op :: ops => rf' ← exec_op op rf; run_ops ops rf'
  end.

(** [op_indices_ok] at every state of the run. *)
Fixpoint run_indices_ok (ops : list NodeOp) rf : Prop :=
  match ops with
  | [] => True
  | op :: ops =>
      op_indices_ok rf op ∧
      match exec_op op rf with Some rf' => run_indices_ok ops rf' | None => True end
  end.

(** What every operation keeps, a run keeps. *)
Lemma run_ops_ind (P : Raft → Prop) :
  (∀ op rf rf', P rf → exec_op op rf = Some rf' → P rf') →
  ∀ ops rf rf', P rf → run_ops ops rf = Some rf' → P rf'.
Proof.
  intros Hstep. induction ops as [|op ops IH]; intros rf rf' HP Hr; cbn in Hr.
  - by injection Hr as <-.
  - apply bind_Some in Hr as (rf1 & Hx & Hr). eauto.
Qed.


(** C9: A crash at any point of a run loses nothing persistent: [Make] on the
    persister comes back as a follower with the same term, vote, log and
    snapshot, and its persister again holds what it needs. *)
Theorem crash_recovery ops rf rf' now :
  durable rf → run_ops ops rf = Some rf' →
  ∃ r, Make (peers rf') (me rf') (persister rf') now = Some (r, [GoTicker; GoApplyCommitted])
    ∧ persistentState r = persistentState rf' ∧ snapshot r = snapshot rf'
    ∧ status r = Follower ∧ durable r.
Proof.
  intros Hd Hx. apply (run_ops_ind _ exec_op_durable _ _ _ Hd) in Hx as [Hs Hn].
  destruct (Make_stored (peers rf') (me rf') (persister rf') now _ Hs)
    as (r & Hm & Hp & Hsn & Hps & Hst & _).
  exists r. split_and!; [done|done|congruence|done|].
  unfold durable. rewrite Hps, Hp, Hsn. done.
Qed.

(** C25: The applier never sleeps on work: when it waits on the condition variable
    without a signal pending, all that is committed was applied and no snapshot
    is waiting. *)
Theorem no_lost_wakeup_run ops rf rf' :
  no_lost_wakeup rf → run_ops ops rf = Some rf' → no_lost_wakeup rf'.
Proof. exact (run_ops_ind no_lost_wakeup exec_op_wakeup ops rf rf'). Qed.

(** The snapshot stays behind [lastApplied], which stays behind [commitIndex],
    and the commit index never moves back. *)
Theorem indices_advance ops rf rf' :
  ordered (indices_of rf) → run_indices_ok ops rf → run_ops ops rf = Some rf' →
  advances (indices_of rf) (indices_of rf').
Proof.
  revert rf. induction ops as [|op ops IH]; intros rf Ho Hok Hr; cbn in Hr.
  - injection Hr as <-. by apply advances_refl.
  - apply bind_Some in Hr as (rf1 & Hx & Hr). destruct Hok as [Hok1 Hok2].
    rewrite Hx in Hok2. destruct (exec_op_indices _ _ _ Ho Hok1 Hx) as [Ho1 Hle1].
    destruct (IH _ Ho1 Hok2 Hr) as [Ho2 Hle2]. split; [done|lia].
Qed.
End RaftNode.
