(* ===== verification/RaftCluster.v ===== *)
(** * RaftCluster: peers, RPCs in flight and crashes

    A cluster of [raft.go] peers as a transition system.  A [World] holds the
    peers, the RPCs and goroutines in flight, and the vote counters that the
    goroutines of [startElection] share.  [exec] runs one event: each event is
    one critical section of one peer, or the loss of an RPC.  The network
    ([src/src/labrpc/labrpc.go]) delays and reorders at will, because any
    packet may be chosen next, and it loses a request or a reply by [EDrop];
    like labrpc, it delivers a request and its reply at most once.

    [heartbeatWorker] may run at any time ([EWorker]): it tests itself that it
    is on a leader, so this covers every [go] statement that starts one.  A
    restart keeps what is in flight, where the old instance's replies would be
    discarded; this only adds behaviours. *)
From S2P Require Import Prelude Labgob RaftTypes Raft RaftNode.
From stdpp Require Import base list list_numbers gmap option.
From Stdlib Require Import ZArith Lia.
From Stdlib Require Import Strings.Byte.
#[local] Open Scope Z_scope.

(** The history of votes: [ballots !! (p, t) = Some c] when peer [p] voted for
    candidate [c] in term [t]. *)
Abbreviation Ballots := (gmap (nat * Z) Z).

Section RaftCluster.
Context {C : Type} `{GobLaws (PersistentState C)}.
Notation Raft := (Raft C).
Notation NodeOp := (@NodeOp C).
Implicit Types (rf : Raft) (i p c l k : nat) (b : Ballots).

(** ** RPCs and goroutines in flight *)

(** A request is on its way from the caller to [p]; a reply, back to it. *)
Inductive Packet :=
  | RVReq c p (args : RequestVoteArgs)
  | RVRep c p (args : RequestVoteArgs) (reply : RequestVoteReply)
  | AEReq l p (args : AppendEntriesArgs C)
  | AERep l p (args : AppendEntriesArgs C) (reply : AppendEntriesReply)
  | GInstall l p                       (* worker about to call handleInstallSnapshot *)
  | ISReq l p (args : InstallSnapshotArgs)
  | ISRep l p (args : InstallSnapshotArgs) (reply : InstallSnapshotReply)
  | GDone l p.                         (* worker about to run its deferred function *)

Record World := mkWorld {
  nodes : list Raft;
  net : list Packet;
  votes : gmap (nat * Z) Z             (* the counter of the election (candidate, term) *)
}.

Inductive Event :=
  | EStart i (command : C)
  | ESnapshot i (index : Z) (snapshot : bytes)
  | EKill i
  | ETick i (now rnd electionTimeout : Z)
  | ETickExit i
  | EApply i
  | EWorker l p
  | ERestart i (now : Z)
  | EDeliver k (now : Z)
  | EDrop k.

(** ** Steps *)

(** One operation of peer [i]. *)
Definition run_op i (op : NodeOp) (w : World) : option World :=
  rf ← nodes w !! i;
  rf' ← exec_op op rf;
  Some (mkWorld (<[i := rf']> (nodes w)) (net w) (votes w)).

Definition send (pk : list Packet) (w : World) : World :=
  mkWorld (nodes w) (net w ++ pk) (votes w).

Definition take_packet k (w : World) : World :=
  mkWorld (nodes w) (delete k (net w)) (votes w).

(** The vote requests [startElection] sends. *)
Definition vote_requests i (gs : list Goroutine) : list Packet :=
  omap (λ g, match g with GoRequestVote p args => Some (RVReq i p args) | _ => None end) gs.

Definition tick i (now rnd timeout : Z) (w : World) : option World :=
  rf ← nodes w !! i;
  let '(rf', _, result) := ticker now rnd timeout rf in
  w' ← run_op i (OpTicker now rnd timeout) w;
  Some match result with
       | TickElection v gs =>
           mkWorld (nodes w') (net w' ++ vote_requests i gs)
             (<[(i, CurrentTerm rf') := v]> (votes w'))
       | _ => w'
       end.

Definition worker l p (w : World) : option World :=
  if decide (p = l) then None
  else
    rf ← nodes w !! l;
    result ← heartbeatWorker p rf;
    match result with
    | WorkerReturn => Some (send [GDone l p] w)
    | WorkerInstall =>
        w ← run_op l (OpSetReplicating p true) w;
        Some (send [GInstall l p] w)
    | WorkerSend args => Some (send [AEReq l p args] w)
    end.

(** The packet arrives, or the goroutine runs its next critical section. *)
Definition deliver (pk : Packet) (now : Z) (w : World) : option World :=
  match pk with
  | RVReq c p args =>
      rf ← nodes w !! p;
      let reply := snd (RequestVote now args zeroRVReply rf) in
      w ← run_op p (OpRequestVote now args) w;
      Some (send [RVRep c p args reply] w)
  | RVRep c p args reply =>
      rf ← nodes w !! c;
      v ← votes w !! (c, rva_Term args);
      let v' := snd (fst (handleRequestVoteReply now args reply v rf)) in
      w ← run_op c (OpVoteReply now args reply v) w;
      Some (mkWorld (nodes w) (net w) (<[(c, rva_Term args) := v']> (votes w)))
  | AEReq l p args =>
      rf ← nodes w !! p;
      let reply := snd (AppendEntries now args zeroAEReply rf) in
      w ← run_op p (OpAppendEntries now args) w;
      Some (send [AERep l p args reply] w)
  | AERep l p args reply =>
      w ← run_op l (OpAppendReply now p args reply) w;
      Some (send [GDone l p] w)
  | GInstall l p =>
      rf ← nodes w !! l;
      result ← handleInstallSnapshot_args p rf;
      Some (send [match result with Some args => ISReq l p args | None => GDone l p end] w)
  | ISReq l p args =>
      rf ← nodes w !! p;
      let reply := snd (InstallSnapshot now args zeroISReply rf) in
      w ← run_op p (OpInstallSnapshot now args) w;
      Some (send [ISRep l p args reply] w)
  | ISRep l p args reply =>
      w ← run_op l (OpInstallReply now p args reply) w;
      Some (send [GDone l p] w)
  | GDone l p => run_op l (OpSetReplicating p false) w
  end.

(** A lost RPC: [Call] returns false, and the caller's goroutine ends. *)
Definition drop_packet (pk : Packet) (w : World) : option World :=
  match pk with
  | RVReq _ _ _ | RVRep _ _ _ _ => Some w
  | AEReq l p _ | AERep l p _ _ | ISReq l p _ | ISRep l p _ _ => Some (send [GDone l p] w)
  | GInstall _ _ | GDone _ _ => None
  end.

(** The process restarts from its persister. *)
Definition restart i (now : Z) (w : World) : option World :=
  rf ← nodes w !! i;
  r ← Make (peers rf) (me rf) (persister rf) now;
  Some (mkWorld (<[i := fst r]> (nodes w)) (net w) (votes w)).

Definition exec (w : World) (e : Event) : option World :=
  match e with
  | EStart i command => run_op i (OpStart command) w
  | ESnapshot i index snapshot => run_op i (OpSnapshot index snapshot) w
  | EKill i => run_op i OpKill w
  | ETick i now rnd timeout => tick i now rnd timeout w
  | ETickExit i => run_op i OpTickerExit w
  | EApply i => run_op i OpApplyCommitted w
  | EWorker l p => worker l p w
  | ERestart i now => restart i now w
  | EDeliver k now => pk ← net w !! k; deliver pk now (take_packet k w)
  | EDrop k => pk ← net w !! k; drop_packet pk (take_packet k w)
  end.

Definition run (es : list Event) (w : World) : option World :=
  foldl (λ ow e, w ← ow; exec w e) (Some w) es.

(** [n] peers on their first boot. *)
Definition boot (n : nat) : option World :=
  rs ← mapM (λ i, fst <$> Make n i MakePersister 0) (seq 0 n);
  Some (mkWorld rs [] ∅).

(** ** Runs in which nobody votes twice *)

(** One more vote is written down. *)
Definition extend b p (x : voter) : Ballots :=
  let '(t, v, _) := x in if decide (v = -1) then b else <[(p, t) := v]> b.

(** The votes of the peers [rs], the first of which is [p]. *)
Fixpoint record_from p (rs : list Raft) b : Ballots :=
  match rs with
  | [] => b
  | rf :: rs => extend (record_from (S p) rs b) p (voter_of rf)
  end.

Definition record_votes (w : World) b : Ballots := record_from 0 (nodes w) b.

(** Some peer has voted for another candidate in its term before. *)
Definition revotes b (w : World) : Prop :=
  ∃ p rf (c : Z), nodes w !! p = Some rf ∧ VotedFor rf ≠ -1 ∧
    b !! (p, CurrentTerm rf) = Some c ∧ c ≠ VotedFor rf.

(** The code does not rule this out: [Kill], and a snapshot from a leader of
    the peer's own term, clear the vote of the current term. *)
Definition forgets_vote (w : World) (e : Event) : Prop :=
  match e with
  | EKill _ => True
  | EDeliver k _ =>
      match net w !! k with
      | Some (ISReq _ p args) =>
          ∃ rf, nodes w !! p = Some rf ∧ isa_Term args = CurrentTerm rf
      | _ => False
      end
  | _ => False
  end.

Inductive reach (n : nat) : Ballots → World → Prop :=
  | reach_boot w : boot n = Some w → reach n ∅ w
  | reach_exec b w e w' :
      reach n b w → exec w e = Some w' → ¬ revotes b w' → reach n (record_votes w' b) w'.

(** Runs without the two events that clear a vote. *)
Inductive keeping (n : nat) : World → Prop :=
  | keeping_boot w : boot n = Some w → keeping n w
  | keeping_exec w e w' :
      keeping n w → ¬ forgets_vote w e → exec w e = Some w' → keeping n w'.

(** ** Deliveries *)

(** What the event hands to the service of which peer: the messages that
    [applyCommitted] sends on [applyCh]. *)
Definition handed (w : World) (e : Event) : list (nat * ApplyMsg C) :=
  match e with
  | EApply i =>
      match nodes w !! i with
      | Some rf =>
          match snd (applyCommitted rf) with
          | ApplySend msgs => (λ m, (i, m)) <$> msgs
          | _ => []
          end
      | None => []
      end
  | _ => []
  end.

Definition takes_snapshot (e : Event) : bool :=
  match e with ESnapshot _ _ _ => true | _ => false end.

(** What a run has to respect besides.  The service snapshots only what is
    committed.  The worker that finds [nextIndex = lastIncludedIndex = 1] while a
    snapshot is on its way sends the dummy entry of the log as the first command,
    see [RaftRuns.dummy_entry_delivered]. *)
Definition snapshots_ahead (w : World) (e : Event) : Prop :=
  match e with
  | ESnapshot i index _ => ∃ rf, nodes w !! i = Some rf ∧ commitIndex rf < index
  | _ => False
  end.

Definition sends_dummy (w : World) (e : Event) : Prop :=
  match e with
  | EWorker l p => ∃ rf, nodes w !! l = Some rf ∧ lastIncludedIndex rf = 1
      ∧ nextIndex rf !! p = Some 1 ∧ isReplicating rf !! p = Some true
  | _ => False
  end.

(** Runs with everything handed over on the way. *)
Inductive reach_log (n : nat) : Ballots → World → list (nat * ApplyMsg C) → Prop :=
  | reach_log_boot w : boot n = Some w → reach_log n ∅ w []
  | reach_log_exec b w D e w' :
      reach_log n b w D → ¬ snapshots_ahead w e → ¬ sends_dummy w e →
      exec w e = Some w' → ¬ revotes b w' →
      reach_log n (record_votes w' b) w' (D ++ handed w e).

(** ** The invariant *)

(** The vote RPC a packet belongs to: candidate, voter, term. *)
Definition vote_key (pk : Packet) : option (nat * nat * Z) :=
  match pk with
  | RVReq c p args | RVRep c p args _ => Some (c, p, rva_Term args)
  | _ => None
  end.
Definition vote_keys (pks : list Packet) : list (nat * nat * Z) := omap vote_key pks.

Definition ballot_ok (b : Ballots) p (x : voter) : Prop :=
  let '(t, v, _) := x in
  (v ≠ -1 → b !! (p, t) = Some v) ∧
  (∀ (t' c : Z), b !! (p, t') = Some c → c ≠ -1 ∧ t' <= t).

(** At least [v] peers voted for [c] in [t], and their replies were received. *)
Definition backed (n : nat) (b : Ballots) (keys : list (nat * nat * Z)) c (t v : Z) : Prop :=
  ∃ S : gset nat, v <= Z.of_nat (size S)
    ∧ ∀ p, p ∈ S → (p < n)%nat ∧ b !! (p, t) = Some (Z.of_nat c) ∧ (c, p, t) ∉ keys.

Definition majority (n : nat) (v : Z) : Prop := v > go_div (Z.of_nat n) 2.

Definition node_ok (n : nat) (b : Ballots) (vs : gmap (nat * Z) Z) p rf : Prop :=
  me rf = p ∧ peers rf = n ∧ durable rf ∧ ballot_ok b p (voter_of rf) ∧
  (status rf = Leader → ∃ v, vs !! (p, CurrentTerm rf) = Some v ∧ majority n v).

Definition packet_ok (n : nat) (b : Ballots) (rs : list Raft) (pk : Packet) : Prop :=
  match pk with
  | RVReq c p args | RVRep c p args _ =>
      (p < n)%nat ∧ rva_CandidateId args = Z.of_nat c
      ∧ (∀ rf, rs !! c = Some rf → rva_Term args <= CurrentTerm rf)
      ∧ match pk with
        | RVRep _ _ _ reply =>
            rvr_VoteGranted reply = true → b !! (p, rva_Term args) = Some (Z.of_nat c)
        | _ => True
        end
  | _ => True
  end.

Record inv (n : nat) (b : Ballots) (w : World) : Prop := {
  inv_len : length (nodes w) = n;
  inv_node : ∀ p rf, nodes w !! p = Some rf → node_ok n b (votes w) p rf;
  inv_votes : ∀ c t v, votes w !! (c, t) = Some v → backed n b (vote_keys (net w)) c t v;
  inv_keys : NoDup (vote_keys (net w));
  inv_packets : ∀ pk, pk ∈ net w → packet_ok n b (nodes w) pk
}.
End RaftCluster.
