(* ===== verification/RaftElection.v ===== *)
(** * RaftElection: election safety of the cluster

    In every run in which no peer votes for two candidates in one term, two
    leaders of the same term are the same peer.  The proof keeps the history of
    votes: each step of a peer extends it ([ballot_step]), a counter is backed by
    distinct voters, and two majorities of voters meet.  [keeping_reach] adds that
    a second vote needs one of the two operations that clear a vote. *)
From S2P Require Import Prelude Labgob RaftTypes Raft RaftNode RaftCluster.
From stdpp Require Import base list list_numbers gmap option fin_sets.
From Stdlib Require Import ZArith Lia.
#[local] Open Scope Z_scope.

(** Two majorities of [n] peers share one. *)
Lemma majorities_meet n (S1 S2 : gset nat) v1 v2 :
  majority n v1 → majority n v2 → v1 <= Z.of_nat (size S1) → v2 <= Z.of_nat (size S2) →
  (∀ p, p ∈ S1 → (p < n)%nat) → (∀ p, p ∈ S2 → (p < n)%nat) → ∃ p, p ∈ S1 ∧ p ∈ S2.
Proof.
  unfold majority, go_div. rewrite Z.quot_div_nonneg by lia. intros Hv1 Hv2 H1 H2 Hs1 Hs2.
  destruct (decide (S1 ∩ S2 = ∅)) as [He|He].
  - exfalso. assert (size (S1 ∪ S2) <= size (set_seq (C:=gset nat) 0 n))%nat as Hsz.
    { apply subseteq_size. intros p Hp. apply elem_of_set_seq.
      apply elem_of_union in Hp as [Hp|Hp]; [apply Hs1 in Hp|apply Hs2 in Hp]; lia. }
    rewrite size_set_seq, size_union in Hsz by set_solver.
    pose proof (Z.div_mod (Z.of_nat n) 2). pose proof (Z.mod_pos_bound (Z.of_nat n) 2). lia.
  - apply set_choose_L in He as [p Hp]. exists p. set_solver.
Qed.

Section RaftElection.
Context {C : Type} `{GobLaws (PersistentState C)}.
Notation Raft := (Raft C).
Notation World := (@World C).
Notation Packet := (@Packet C).
Implicit Types (rf : Raft) (i p c l k : nat) (w : World) (b : Ballots).

(** ** One voter *)

(** A voter's step that is no second vote. *)
Lemma ballot_step b p t v r t' v' r' :
  ballot_ok b p (t, v, r) → t <= t' → (v' ≠ -1 → ∀ c : Z, b !! (p, t') = Some c → c = v') →
  b ⊆ extend b p (t', v', r') ∧ ballot_ok (extend b p (t', v', r')) p (t', v', r').
Proof.
  intros [_ Hpast] Ht Hone. cbn. case_decide as Hv.
  - split; [done|]. split; [done|]. intros u d Hd. destruct (Hpast _ _ Hd). split; [done|lia].
  - specialize (Hone Hv). split.
    + destruct (b !! (p, t')) as [c|] eqn:Hc; [|by apply insert_subseteq].
      rewrite <- (Hone c eq_refl). by rewrite insert_id.
    + split; [intros _; by rewrite lookup_insert_eq|]. intros u d.
      intros [[[= <-] <-]|[_ Hd]]%lookup_insert_Some; [split; [done|lia]|].
      destruct (Hpast _ _ Hd). split; [done|lia].
Qed.

(** Another peer's history is not touched. *)
Lemma ballot_other b p q x y : p ≠ q → ballot_ok b q y → ballot_ok (extend b p x) q y.
Proof.
  intros Hpq. destruct x as [[t v] r], y as [[t' v'] r']. cbn.
  case_decide; [done|]. intros [Hc Hp]. split.
  - intros Hv. rewrite lookup_insert_ne by congruence. auto.
  - intros u d. rewrite lookup_insert_ne by congruence. auto.
Qed.

(** ** Growth of the history *)

Lemma backed_mono n b b' keys keys' c t v :
  b ⊆ b' → (∀ p, (c, p, t) ∈ keys' → (c, p, t) ∈ keys) →
  backed n b keys c t v → backed n b' keys' c t v.
Proof.
  intros Hb Hk (S & Hv & HS). exists S. split; [done|]. intros p Hp.
  destruct (HS p Hp) as (? & Hbp & ?). split_and!; [done|by eapply lookup_weaken|auto].
Qed.

Lemma packet_ok_mono n b b' w i rf rf' pk :
  b ⊆ b' → nodes w !! i = Some rf → CurrentTerm rf <= CurrentTerm rf' →
  packet_ok n b (nodes w) pk → packet_ok n b' (<[i := rf']> (nodes w)) pk.
Proof.
  intros Hb Hi Ht.
  assert (∀ c u, (∀ r, nodes w !! c = Some r → u <= CurrentTerm r) →
    ∀ r, <[i := rf']> (nodes w) !! c = Some r → u <= CurrentTerm r) as Hterm.
  { intros c u Hu r Hr. apply list_lookup_insert_Some in Hr as [(-> & -> & _)|[_ Hr]]; [|auto].
    specialize (Hu _ Hi). lia. }
  destruct pk; cbn; try done; intros (? & ? & Hu & Hg); split_and!; eauto.
  intros Hgr. eapply lookup_weaken; eauto.
Qed.

Lemma node_ok_other n b vs vs' p q rf x :
  p ≠ q → b ⊆ extend b p x → (∀ t v, vs !! (q, t) = Some v → vs' !! (q, t) = Some v) →
  node_ok n b vs q rf → node_ok n (extend b p x) vs' q rf.
Proof.
  intros Hpq Hb Hvs (? & ? & ? & ? & Hl). split_and!; auto using ballot_other.
  intros Hs. destruct (Hl Hs) as (v & ? & ?). eauto.
Qed.

(** ** Writing down the votes of a world *)

Lemma extend_lookup b p x q (t : Z) :
  extend b p x !! (q, t)
  = if decide (q = p ∧ t = fst (fst x) ∧ snd (fst x) ≠ -1) then Some (snd (fst x)) else b !! (q, t).
Proof.
  destruct x as [[u v] r]. cbn. repeat case_decide; try tauto.
  - destruct_and?. subst. by rewrite lookup_insert_eq.
  - rewrite lookup_insert_ne; [done|]. intros [= -> ->]. tauto.
Qed.

Lemma record_from_lookup p (rs : list Raft) b q (t : Z) :
  record_from p rs b !! (q, t)
  = match (if decide (p ≤ q)%nat then rs !! (q - p)%nat else None) with
    | Some rf => if decide (t = CurrentTerm rf ∧ VotedFor rf ≠ -1) then Some (VotedFor rf) else b !! (q, t)
    | None => b !! (q, t)
    end.
Proof.
  revert p. induction rs as [|rf rs IH]; intros p; [by case_decide|].
  cbn [record_from]. rewrite extend_lookup, IH. cbn [fst snd voter_of].
  destruct (decide (q = p)) as [->|Hne].
  - rewrite Nat.sub_diag, (decide_False (P := (S p ≤ p)%nat)), (decide_True (P := (p ≤ p)%nat)) by lia. cbn.
    repeat case_decide; tauto.
  - rewrite (decide_False (P := q = p ∧ _)) by tauto.
    destruct (decide (S p ≤ q)%nat); [|by rewrite decide_False by lia].
    rewrite decide_True by lia. by replace (q - p)%nat with (S (q - S p)) by lia.
Qed.

Lemma record_lookup w b p (t : Z) :
  record_votes w b !! (p, t)
  = match nodes w !! p with
    | Some rf => if decide (t = CurrentTerm rf ∧ VotedFor rf ≠ -1) then Some (VotedFor rf) else b !! (p, t)
    | None => b !! (p, t)
    end.
Proof.
  unfold record_votes. rewrite record_from_lookup, decide_True by lia. by rewrite Nat.sub_0_r.
Qed.

(** The history grows by votes peers cast in their current terms. *)
Definition grown b b' w : Prop :=
  b ⊆ b' ∧ ∀ p (t c : Z), b' !! (p, t) = Some c →
    b !! (p, t) = Some c ∨ ∃ rf, nodes w !! p = Some rf ∧ CurrentTerm rf = t ∧ VotedFor rf = c.

Lemma record_grown b w : ¬ revotes b w → grown b (record_votes w b) w.
Proof.
  intros Hr. split.
  - apply map_subseteq_spec. intros [p t] c Hc. rewrite record_lookup.
    destruct (nodes w !! p) as [rf|] eqn:Hp; [|done]. case_decide as Hd; [|done]. destruct Hd as [-> Hv].
    destruct (decide (c = VotedFor rf)) as [->|Hne]; [done|]. destruct Hr. by exists p, rf, c.
  - intros p t c. rewrite record_lookup. destruct (nodes w !! p) as [rf|] eqn:Hp; [|by left].
    case_decide as Hd; [|by left]. destruct Hd as [-> Hv]. intros [= <-]. right. by exists rf.
Qed.

(** When the other votes are written down already. *)
Lemma record_step n b w i rf' w' :
  inv n b w → (i < length (nodes w))%nat → nodes w' = <[i := rf']> (nodes w) →
  record_votes w' b = extend b i (voter_of rf').
Proof.
  intros Hinv Hi Hn. apply map_eq. intros [p t]. rewrite record_lookup, extend_lookup, Hn. cbn [voter_of fst snd].
  destruct (decide (p = i)) as [->|Hne].
  - rewrite list_lookup_insert_eq by done. repeat case_decide; tauto.
  - rewrite list_lookup_insert_ne, (decide_False (P := p = i ∧ _)) by naive_solver.
    destruct (nodes w !! p) as [rf|] eqn:Hp; [|done]. case_decide as Hd; [|done]. destruct Hd as [-> Hv].
    destruct (inv_node _ _ _ Hinv _ _ Hp) as (_ & _ & _ & [Hcur _] & _). by rewrite Hcur.
Qed.

Lemma record_same n b w w' : inv n b w → nodes w' = nodes w → record_votes w' b = b.
Proof.
  intros Hinv Hn. apply map_eq. intros [p t]. rewrite record_lookup, Hn.
  destruct (nodes w !! p) as [rf|] eqn:Hp; [|done]. case_decide as Hd; [|done]. destruct Hd as [-> Hv].
  destruct (inv_node _ _ _ Hinv _ _ Hp) as (_ & _ & _ & [Hcur _] & _). by rewrite Hcur.
Qed.

(** One peer steps; what is left to show is about the counters and packets. *)
Lemma inv_update n b w i rf rf' w' :
  let b' := record_votes w' b in
  inv n b w → nodes w !! i = Some rf → nodes w' = <[i := rf']> (nodes w) → ¬ revotes b w' →
  durable rf' → static rf rf' → CurrentTerm rf <= CurrentTerm rf' →
  (∀ q (t v : Z), q ≠ i → votes w !! (q, t) = Some v → votes w' !! (q, t) = Some v) →
  (status rf' = Leader → ∃ v, votes w' !! (i, CurrentTerm rf') = Some v ∧ majority n v) →
  (b ⊆ b' → ∀ c (t v : Z), votes w' !! (c, t) = Some v → backed n b' (vote_keys (net w')) c t v) →
  NoDup (vote_keys (net w')) →
  (b ⊆ b' → ∀ pk, pk ∈ net w' → packet_ok n b' (nodes w') pk) →
  inv n b' w'.
Proof.
  intros b' Hinv Hi Hn Hone Hd [Hme Hpeers] Ht Hvs Hlead Hback Hnd Hpk.
  destruct (inv_node _ _ _ Hinv _ _ Hi) as (Hmei & Hpi & _ & Hbal & _).
  pose proof (lookup_lt_Some _ _ _ Hi) as Hil.
  assert (b' = extend b i (voter_of rf')) as Eb by by eapply record_step.
  destruct (ballot_step b i _ _ _ (CurrentTerm rf') (VotedFor rf') (status rf') Hbal Ht) as [Hsub Hok].
  { intros Hv c Hc. destruct (decide (c = VotedFor rf')) as [|Hne]; [done|].
    destruct Hone. exists i, rf', c. by rewrite Hn, list_lookup_insert_eq. }
  change (b ⊆ extend b i (voter_of rf')) in Hsub. rewrite <- Eb in Hsub.
  constructor; auto.
  - rewrite Hn, length_insert. apply (inv_len _ _ _ Hinv).
  - intros q r Hr. rewrite Hn in Hr. rewrite Eb in Hsub |- *.
    apply list_lookup_insert_Some in Hr as [(<- & -> & _)|[Hne Hr]].
    + split_and!; congruence || auto.
    + eapply node_ok_other; [exact Hne|exact Hsub| |exact (inv_node _ _ _ Hinv _ _ Hr)].
      intros t v. apply Hvs. congruence.
Qed.

(** ** Vote packets *)

Lemma vote_keys_app (xs ys : list Packet) :
  vote_keys (xs ++ ys) = vote_keys xs ++ vote_keys ys.
Proof. apply omap_app. Qed.

Lemma elem_of_vote_keys key (pks : list Packet) :
  key ∈ vote_keys pks ↔ ∃ pk, pk ∈ pks ∧ vote_key pk = Some key.
Proof. apply list_elem_of_omap. Qed.

Lemma vote_keys_delete (pks : list Packet) k pk :
  pks !! k = Some pk →
  vote_keys pks ≡ₚ match vote_key pk with Some key => [key] | None => [] end
                   ++ vote_keys (delete k pks).
Proof.
  intros Hk. unfold vote_keys. rewrite (delete_Permutation pks k pk Hk) at 1. cbn.
  by destruct (vote_key pk).
Qed.

(** ** Steps that are not about votes *)

(** A step of one peer that leaves the counters alone and adds no vote packet. *)
Lemma inv_other n b w i rf rf' w' :
  inv n b w → nodes w !! i = Some rf → nodes w' = <[i := rf']> (nodes w) → ¬ revotes b w' →
  durable rf' → static rf rf' → CurrentTerm rf <= CurrentTerm rf' →
  (status rf' = Leader → status rf = Leader ∧ CurrentTerm rf' = CurrentTerm rf) →
  votes w' = votes w → NoDup (vote_keys (net w')) →
  (∀ pk, pk ∈ net w' → vote_key pk = None ∨ pk ∈ net w) →
  inv n (record_votes w' b) w'.
Proof.
  intros Hinv Hi Hn Hone Hd Hst Ht Hlead Hvs Hnd Hnet.
  assert (∀ key, key ∈ vote_keys (net w') → key ∈ vote_keys (net w)) as Hkeys.
  { intros key (pk & Hpk & Hk)%elem_of_vote_keys. apply elem_of_vote_keys.
    destruct (Hnet _ Hpk); [congruence|eauto]. }
  eapply inv_update; eauto; rewrite ?Hvs.
  - done.
  - destruct (inv_node _ _ _ Hinv _ _ Hi) as (_ & _ & _ & _ & Hl).
    intros Hld. destruct (Hlead Hld) as [? ->]; auto.
  - intros Hb c t v Hv. eapply backed_mono; [exact Hb| |exact (inv_votes _ _ _ Hinv _ _ _ Hv)].
    auto.
  - intros Hb pk Hpk. rewrite Hn. destruct (Hnet _ Hpk) as [Hk|Hin].
    + by destruct pk.
    + eapply packet_ok_mono; eauto. by apply (inv_packets _ _ _ Hinv).
Qed.

(** Removing a packet. *)
Lemma inv_take_packet n b w k pk : inv n b w → net w !! k = Some pk → inv n b (take_packet k w).
Proof.
  intros [Hl Hn Hv Hk Hp] Hpk. pose proof (vote_keys_delete _ _ _ Hpk) as Hperm.
  constructor; cbn [nodes net votes send take_packet]; auto.
  - intros c t v Hcv. eapply backed_mono; [done| |by apply Hv].
    intros p. rewrite Hperm, elem_of_app. auto.
  - rewrite Hperm in Hk. by apply NoDup_app in Hk as (_ & _ & Hk).
  - intros pk' Hin. apply Hp. rewrite (delete_Permutation _ _ _ Hpk). by right.
Qed.

(** Adding packets that are not vote packets. *)
Lemma inv_send n b w pks :
  inv n b w → Forall (λ pk, vote_key pk = None) pks → inv n b (send pks w).
Proof.
  intros [Hl Hn Hv Hk Hp] Hpks.
  assert (vote_keys pks = []) as Hnil.
  { clear -Hpks. induction Hpks as [|pk pks Hpk _ IH]; [done|]. cbn. by rewrite Hpk. }
  constructor; cbn [nodes net votes send take_packet]; auto.
  - intros c t v Hcv. rewrite vote_keys_app, Hnil, app_nil_r. auto.
  - by rewrite vote_keys_app, Hnil, app_nil_r.
  - intros pk [Hin|Hin]%elem_of_app; [auto|].
    rewrite List.Forall_forall in Hpks. apply list_elem_of_In, Hpks in Hin. by destruct pk.
Qed.

(** The world after one operation of peer [i], whatever is sent besides. *)
Lemma run_op_Some i op w w' :
  run_op i op w = Some w' → ∃ rf rf', nodes w !! i = Some rf ∧ exec_op op rf = Some rf' ∧
    w' = mkWorld (<[i := rf']> (nodes w)) (net w) (votes w).
Proof. unfold run_op. intros (rf & ? & (rf' & ? & [= <-])%bind_Some)%bind_Some. by exists rf, rf'. Qed.

Lemma revotes_nodes b w w' : nodes w' = nodes w → revotes b w' → revotes b w.
Proof. intros Hn (p & rf & c & Hp & ?). rewrite Hn in Hp. by exists p, rf, c. Qed.

Lemma record_nodes b w w' : nodes w' = nodes w → record_votes w' b = record_votes w b.
Proof. unfold record_votes. by intros ->. Qed.

Lemma run_op_inv n b w i op w' :
  inv n b w → run_op i op w = Some w' → ¬ revotes b w' → act_of op = ActOther →
  inv n (record_votes w' b) w'.
Proof.
  intros Hinv (rf & rf' & Hi & Hx & ->)%run_op_Some Hone Hact.
  destruct (inv_node _ _ _ Hinv _ _ Hi) as (_ & _ & Hd & _). destruct (exec_op_term _ _ _ Hx) as [Ht Hl].
  eapply inv_other; eauto using exec_op_durable, exec_op_static.
  - apply Hl. by rewrite Hact.
  - apply (inv_keys _ _ _ Hinv).
Qed.

(** ** Standing for election *)

Lemma ticker_cases now rnd timeout rf :
  let '(rf', _, result) := ticker now rnd timeout rf in
  match result with
  | TickElection v gs =>
      v = 1 ∧ voter_of rf' = (CurrentTerm rf + 1, Z.of_nat (me rf), Candidate)
      ∧ ∃ args, gs = (λ p, GoRequestVote p args) <$> others rf
          ∧ rva_Term args = CurrentTerm rf + 1 ∧ rva_CandidateId args = Z.of_nat (me rf)
  | _ => voter_of rf' = voter_of rf
  end.
Proof.
  unfold ticker. case_decide; [done|]. case_decide; [|done]. case_decide; [|done].
  cbn. split_and!; [done|done|]. by eexists.
Qed.

Lemma vote_requests_fmap i ps args :
  vote_requests (C:=C) i ((λ p, GoRequestVote p args) <$> ps) = (λ p, RVReq i p args) <$> ps.
Proof. unfold vote_requests. induction ps; cbn; congruence. Qed.

Lemma vote_keys_requests i ps args :
  vote_keys (C:=C) ((λ p, RVReq i p args) <$> ps) = (λ p, (i, p, rva_Term args)) <$> ps.
Proof. unfold vote_keys. induction ps; cbn; congruence. Qed.

(** Every vote packet of [i] is of a term [i] has reached. *)
Lemma vote_key_term n b w i rf p t :
  inv n b w → nodes w !! i = Some rf → (i, p, t) ∈ vote_keys (net w) → t <= CurrentTerm rf.
Proof.
  intros Hinv Hi (pk & Hpk & Hk)%elem_of_vote_keys. apply (inv_packets _ _ _ Hinv) in Hpk.
  destruct pk; cbn in Hk; simplify_eq; destruct Hpk as (_ & _ & Ht & _); auto.
Qed.

Lemma others_spec rf p : p ∈ others rf ↔ p ≠ me rf ∧ (p < peers rf)%nat.
Proof. unfold others. rewrite list_elem_of_filter, elem_of_seq. split; intros []; lia. Qed.

Lemma stand_keys n b w i rf args :
  inv n b w → nodes w !! i = Some rf → rva_Term args = CurrentTerm rf + 1 →
  NoDup (vote_keys (net w ++ ((λ p, RVReq i p args) <$> others rf))).
Proof.
  intros Hinv Hi Ht. rewrite vote_keys_app, vote_keys_requests. apply NoDup_app.
  split_and!; [apply (inv_keys _ _ _ Hinv)| |].
  - intros key Hk (p & -> & _)%list_elem_of_fmap.
    pose proof (vote_key_term _ _ _ _ _ _ _ Hinv Hi Hk). lia.
  - apply NoDup_fmap_2; [intros ??; congruence|]. apply NoDup_filter, NoDup_seq.
Qed.

Lemma stand_inv n b w i rf rf' args :
  inv n b w → nodes w !! i = Some rf → durable rf' → static rf rf' →
  voter_of rf' = (CurrentTerm rf + 1, Z.of_nat (me rf), Candidate) →
  rva_Term args = CurrentTerm rf + 1 → rva_CandidateId args = Z.of_nat (me rf) →
  let w' := mkWorld (<[i := rf']> (nodes w)) (net w ++ ((λ p, RVReq i p args) <$> others rf))
              (<[(i, CurrentTerm rf') := 1]> (votes w)) in
  ¬ revotes b w' → inv n (record_votes w' b) w'.
Proof.
  intros Hinv Hi Hd Hst Hv Ht Hc w' Hone.
  destruct (inv_node _ _ _ Hinv _ _ Hi) as (Hme & Hpeers & _).
  assert (CurrentTerm rf' = CurrentTerm rf + 1) as Ht' by (unfold voter_of in Hv; congruence).
  assert (i < n)%nat as Hin.
  { rewrite <-(inv_len _ _ _ Hinv). by eapply lookup_lt_Some. }
  assert (record_votes w' b = extend b i (voter_of rf')) as Eb
    by (eapply record_step; [done|by eapply lookup_lt_Some|done]).
  eapply inv_update; eauto; cbn [w' net votes nodes].
  - lia.
  - intros q t v Hq. rewrite lookup_insert_ne by congruence. done.
  - unfold voter_of in Hv. intros. congruence.
  - intros Hb c t v. rewrite vote_keys_app, vote_keys_requests, Ht, Ht'.
    intros [[[= <- <-] <-]|[Hne Hcv]]%lookup_insert_Some.
    + exists {[i]}. split; [by rewrite size_singleton|]. intros p ->%elem_of_singleton.
      split_and!; [done| |].
      * rewrite Eb, Hv. cbn. rewrite decide_False by lia. by rewrite lookup_insert_eq, Hme.
      * intros [Hk|(q & [= <-] & Hq)%list_elem_of_fmap]%elem_of_app.
        -- pose proof (vote_key_term _ _ _ _ _ _ _ Hinv Hi Hk). lia.
        -- apply others_spec in Hq. lia.
    + eapply backed_mono; [exact Hb| |exact (inv_votes _ _ _ Hinv _ _ _ Hcv)].
      intros p [Hk|(q & [= -> _ ->] & Hq)%list_elem_of_fmap]%elem_of_app; [done|].
      by destruct Hne.
  - by eapply stand_keys.
  - intros Hb pk [Hpk|(p & -> & Hp)%list_elem_of_fmap]%elem_of_app.
    + eapply packet_ok_mono; eauto; [lia|]. by apply (inv_packets _ _ _ Hinv).
    + apply others_spec in Hp. cbn. rewrite <-Hme, Hme.
      split_and!; [lia|congruence| |done].
      intros r Hr. rewrite list_lookup_insert_eq in Hr by (eapply lookup_lt_Some; eauto).
      injection Hr as <-. lia.
Qed.

Lemma tick_inv n b w i now rnd timeout w' :
  inv n b w → tick i now rnd timeout w = Some w' → ¬ revotes b w' → inv n (record_votes w' b) w'.
Proof.
  intros Hinv Ht Hone. unfold tick in Ht. apply bind_Some in Ht as (rf & Hi & Ht).
  pose proof (ticker_cases now rnd timeout rf) as Hc.
  assert (exec_op (OpTicker now rnd timeout) rf
    = Some (fst (fst (ticker now rnd timeout rf)))) as Hx by reflexivity.
  unfold run_op in Ht. rewrite Hi in Ht. cbn [mbind option_bind] in Ht. rewrite Hx in Ht.
  destruct (ticker now rnd timeout rf) as [[rf' t'] result]. cbn [fst] in Hx, Ht.
  injection Ht as <-.
  destruct (inv_node _ _ _ Hinv _ _ Hi) as (Hme & _ & Hd & Hb & _).
  destruct (exec_op_term _ _ _ Hx) as [Hle Hl]. specialize (Hl ltac:(done)).
  destruct result as [|v gs|].
  - eapply inv_other; eauto using exec_op_durable, exec_op_static. apply (inv_keys _ _ _ Hinv).
  - destruct Hc as (-> & Hv & args & -> & Hta & Hca). cbn zeta in Hone |- *.
    rewrite vote_requests_fmap in Hone |- *.
    by eapply stand_inv; eauto using exec_op_durable, exec_op_static.
  - eapply inv_other; eauto using exec_op_durable, exec_op_static. apply (inv_keys _ _ _ Hinv).
Qed.

(** ** Granting a vote *)

Lemma RequestVote_granted now args reply rf :
  rvr_VoteGranted (snd (RequestVote now args reply rf)) = true →
  let rf' := fst (RequestVote now args reply rf) in
  CurrentTerm rf' = rva_Term args ∧ VotedFor rf' = rva_CandidateId args.
Proof.
  intros Hg. pose proof (RequestVote_cases now args reply rf) as Hc. cbv zeta in Hc |- *.
  destruct Hc as [(_ & ? & _)|[Hle [[_ ?]|(-> & _)]]]; [congruence|congruence|].
  destruct (stepDown_cases now (rva_Term args) rf) as [[-> ?]|[_ ->]];
    split; try done. cbn. lia.
Qed.

(** A reply takes the place of its request. *)
Lemma vote_keys_reply (w : World) k c p args reply :
  net w !! k = Some (RVReq c p args) →
  vote_keys (delete k (net w) ++ [RVRep c p args reply]) ≡ₚ vote_keys (net w).
Proof.
  intros Hk. rewrite (vote_keys_delete _ _ _ Hk), vote_keys_app. cbn.
  by rewrite Permutation_app_comm.
Qed.

Lemma request_inv n b w k c p args now w' :
  inv n b w → net w !! k = Some (RVReq c p args) →
  deliver (RVReq c p args) now (take_packet k w) = Some w' → ¬ revotes b w' →
  inv n (record_votes w' b) w'.
Proof.
  intros Hinv Hk Hdel Hone. cbn [deliver nodes take_packet] in Hdel.
  apply bind_Some in Hdel as (rf & Hi & (w1 & Hr & [= <-])%bind_Some). cbn [nodes take_packet] in Hi.
  apply run_op_Some in Hr as (rf0 & rf' & Hi0 & Hx & ->). cbn [nodes take_packet] in Hi0. simplify_eq.
  assert (rf' = fst (RequestVote now args zeroRVReply rf)) as E by (by injection Hx).
  set (reply := snd (RequestVote now args zeroRVReply rf)) in *.
  destruct (inv_node _ _ _ Hinv _ _ Hi) as (Hme & _ & Hd & Hb & _).
  pose proof (inv_packets _ _ _ Hinv _ (list_elem_of_lookup_2 _ _ _ Hk)) as Hpk.
  destruct (exec_op_term _ _ _ Hx) as [Hle Hl].
  pose proof (vote_keys_reply w k c p args reply Hk) as Hkeys.
  set (w' := send _ _) in *.
  assert (record_votes w' b = extend b p (voter_of rf')) as Eb
    by (eapply record_step; [done|by eapply lookup_lt_Some|done]).
  eapply inv_update; eauto using exec_op_durable, exec_op_static;
    cbn [w' net votes nodes take_packet send].
  - destruct (inv_node _ _ _ Hinv _ _ Hi) as (_ & _ & _ & _ & Hlv).
    intros Hld. destruct Hl as [? ->]; auto.
  - intros Hsub c' t v Hv.
    eapply backed_mono; [exact Hsub| |exact (inv_votes _ _ _ Hinv _ _ _ Hv)].
    intros q. by rewrite Hkeys.
  - rewrite Hkeys. apply (inv_keys _ _ _ Hinv).
  - intros Hsub pk [Hin|Hin]%elem_of_app.
    + eapply packet_ok_mono; eauto. apply (inv_packets _ _ _ Hinv).
      rewrite (delete_Permutation _ _ _ Hk). by right.
    + apply list_elem_of_singleton in Hin as ->.
      assert (packet_ok n (record_votes w' b) (<[p:=rf']> (nodes w)) (RVReq c p args))
        as (? & Hc & ? & _) by (by eapply packet_ok_mono).
      split_and!; auto. intros Hg. destruct (RequestVote_granted _ _ _ _ Hg) as [Ht Hv].
      rewrite <- E in Ht, Hv. rewrite Eb. unfold voter_of. cbn.
      rewrite decide_False by lia. rewrite Ht, lookup_insert_eq. congruence.
Qed.

(** ** Counting a vote *)

Lemma handleRequestVoteReply_cases now args reply v rf :
  let '(rf', v', _) := handleRequestVoteReply now args reply v rf in
  (v' = v ∧ (status rf' = Leader → status rf = Leader ∧ CurrentTerm rf' = CurrentTerm rf)) ∨
  (v' = v + 1 ∧ rvr_VoteGranted reply = true ∧ CurrentTerm rf = rva_Term args
   ∧ CurrentTerm rf' = CurrentTerm rf
   ∧ (status rf' = Leader → majority (peers rf) v')).
Proof.
  unfold handleRequestVoteReply, becomeLeader.
  case_decide as Hg; [by left|]. case_decide.
  { left. split; [done|]. by destruct (stepDown_cases now (rvr_Term reply) rf) as [[-> _]|[_ ->]]. }
  case_decide as Hr; [by left|]. apply not_false_is_true in Hr.
  assert (status rf = Candidate ∧ CurrentTerm rf = rva_Term args) as [Hs Ht].
  { destruct (decide (status rf = Candidate)), (decide (CurrentTerm rf = rva_Term args)); tauto. }
  case_decide.
  - rewrite decide_False by congruence. right. by split_and!.
  - right. split_and!; try done. congruence.
Qed.

(** The counter after the reply is still backed: a counted vote is the replier's. *)
Lemma reply_backed n b b' w k c p args reply (v v' : Z) :
  inv n b w → net w !! k = Some (RVRep c p args reply) → b ⊆ b' →
  votes w !! (c, rva_Term args) = Some v →
  v' = v ∨ (v' = v + 1 ∧ rvr_VoteGranted reply = true) →
  backed n b' (vote_keys (delete k (net w))) c (rva_Term args) v'.
Proof.
  intros Hinv Hk Hsub Hv Hv'.
  pose proof (inv_packets _ _ _ Hinv _ (list_elem_of_lookup_2 _ _ _ Hk)) as (Hp & _ & _ & Hgr).
  pose proof (vote_keys_delete _ _ _ Hk) as Hkeys. cbn in Hkeys.
  pose proof (inv_keys _ _ _ Hinv) as Hnd. rewrite Hkeys in Hnd.
  apply NoDup_cons in Hnd as [Hfresh _].
  destruct (inv_votes _ _ _ Hinv _ _ _ Hv) as (S & Hsz & HS).
  assert (∀ q, q ∈ S → (q < n)%nat ∧ b' !! (q, rva_Term args) = Some (Z.of_nat c)
    ∧ (c, q, rva_Term args) ∉ vote_keys (delete k (net w))) as HS'.
  { intros q Hq. destruct (HS q Hq) as (? & ? & Hnk). rewrite Hkeys in Hnk.
    split_and!; [done|by eapply lookup_weaken|]. intros ?. apply Hnk. by right. }
  destruct Hv' as [->|(-> & Hg)]; [by exists S|].
  exists ({[p]} ∪ S). split.
  { rewrite size_union, size_singleton; [lia|]. intros q ->%elem_of_singleton Hq.
    apply HS in Hq as (_ & _ & Hq). apply Hq. rewrite Hkeys. by left. }
  intros q [->%elem_of_singleton|Hq]%elem_of_union; [|auto].
  split_and!; [done| |done]. eapply lookup_weaken; eauto.
Qed.

Lemma reply_inv n b w k c p args reply now w' :
  inv n b w → net w !! k = Some (RVRep c p args reply) →
  deliver (RVRep c p args reply) now (take_packet k w) = Some w' → ¬ revotes b w' →
  inv n (record_votes w' b) w'.
Proof.
  intros Hinv Hk Hdel Hone. cbn [deliver nodes take_packet] in Hdel.
  apply bind_Some in Hdel as (rf & Hi & (v & Hv & (w1 & Hr & [= <-])%bind_Some)%bind_Some).
  cbn [nodes votes take_packet] in Hi, Hv.
  apply run_op_Some in Hr as (rf0 & rf' & Hi0 & Hx & ->). cbn [nodes take_packet] in Hi0. simplify_eq.
  destruct (inv_node _ _ _ Hinv _ _ Hi) as (Hme & Hn & Hd & Hb & Hlv).
  destruct (exec_op_term _ _ _ Hx) as [Hle _].
  pose proof (exec_op_durable _ _ _ Hd Hx) as Hd'. pose proof (exec_op_static _ _ _ Hx) as Hst.
  pose proof (vote_keys_delete _ _ _ Hk) as Hkeys. cbn in Hkeys.
  pose proof (handleRequestVoteReply_cases now args reply v rf) as Hc.
  cbn [exec_op] in Hx. destruct (handleRequestVoteReply now args reply v rf) as [[rf1 v'] gs] eqn:E.
  cbn [fst snd] in Hx. injection Hx as ->. cbn [fst snd nodes net votes take_packet] in Hone |- *.
  eapply inv_update; eauto; cbn [nodes net votes take_packet].
  - intros q t u Hq. by rewrite lookup_insert_ne by congruence.
  - intros Hld. destruct Hc as [(-> & Hsame)|(Hv' & _ & Ht & Ht' & Hmaj)].
    + destruct (Hsame Hld) as [Hlrf ->]. rewrite insert_id by done. by apply Hlv.
    + exists v'. rewrite Ht', Ht, lookup_insert_eq, <-Hn. auto.
  - intros Hsub c' t u [[[= <- <-] <-]|[Hne Hcv]]%lookup_insert_Some.
    + eapply reply_backed; eauto. destruct Hc as [[-> _]|(-> & ? & _)]; auto.
    + eapply backed_mono; [exact Hsub| |exact (inv_votes _ _ _ Hinv _ _ _ Hcv)].
      intros q Hq. rewrite Hkeys. by right.
  - pose proof (inv_keys _ _ _ Hinv) as Hnd. rewrite Hkeys in Hnd. by apply NoDup_cons in Hnd as [_ ?].
  - intros Hsub pk Hin. eapply packet_ok_mono; eauto.
    apply (inv_packets _ _ _ Hinv). rewrite (delete_Permutation _ _ _ Hk). by right.
Qed.

(** ** Every event *)

Lemma restart_inv n b w i now w' :
  inv n b w → restart i now w = Some w' → ¬ revotes b w' → inv n (record_votes w' b) w'.
Proof.
  intros Hinv Hr Hone. unfold restart in Hr.
  apply bind_Some in Hr as (rf & Hi & (r & Hm & [= <-])%bind_Some).
  destruct (inv_node _ _ _ Hinv _ _ Hi) as (Hme & _ & [Hst Hsn] & Hb & _).
  destruct (Make_stored (peers rf) (me rf) _ now _ Hst)
    as (r' & Hm' & Hps & Hsnap & Hpr & Hrole & Hmr & Hpeers).
  rewrite Hm' in Hm. injection Hm as <-. cbn [fst] in Hone |- *.
  eapply inv_other; eauto; cbn.
  - unfold durable. by rewrite Hpr, Hst, Hps, Hsnap.
  - done.
  - unfold persistentState in Hps. injection Hps as -> _ _ _ _. lia.
  - congruence.
  - apply (inv_keys _ _ _ Hinv).
Qed.

Lemma inv_send_same n b w pks :
  inv n b w → Forall (λ pk, vote_key pk = None) pks → inv n (record_votes (send pks w) b) (send pks w).
Proof. intros Hinv Hp. rewrite (record_same n b w) by done. by apply inv_send. Qed.

Lemma send_after_run n b w i op w' pks :
  inv n b w → (w0 ← run_op i op w; Some (send pks w0)) = Some w' → ¬ revotes b w' →
  act_of op = ActOther → Forall (λ pk, vote_key pk = None) pks →
  inv n (record_votes w' b) w'.
Proof.
  intros Hinv (w0 & Hrun & [= <-])%bind_Some Hone Hact Hpks.
  apply inv_send; [|done]. exact (run_op_inv _ _ _ _ _ _ Hinv Hrun Hone Hact).
Qed.

Lemma deliver_inv n b w k pk now w' :
  inv n b w → net w !! k = Some pk → deliver pk now (take_packet k w) = Some w' → ¬ revotes b w' →
  inv n (record_votes w' b) w'.
Proof.
  intros Hinv Hk Hdel Hone. pose proof (inv_take_packet _ _ _ _ _ Hinv Hk) as Hinv0.
  destruct pk; [exact (request_inv _ _ _ _ _ _ _ _ _ Hinv Hk Hdel Hone)
    |exact (reply_inv _ _ _ _ _ _ _ _ _ _ Hinv Hk Hdel Hone)|..]; cbn [deliver] in Hdel.
  - apply bind_Some in Hdel as (rf & _ & Hdel). eapply send_after_run; eauto.
  - eapply send_after_run; eauto.
  - apply bind_Some in Hdel as (rf & _ & (result & _ & [= <-])%bind_Some).
    apply (inv_send_same _ _ _ _ Hinv0). by destruct result; repeat constructor.
  - apply bind_Some in Hdel as (rf & _ & Hdel). eapply send_after_run; eauto.
  - eapply send_after_run; eauto.
  - eapply run_op_inv; eauto.
Qed.

Lemma exec_inv n b w e w' :
  inv n b w → exec w e = Some w' → ¬ revotes b w' → inv n (record_votes w' b) w'.
Proof.
  intros Hinv Hx Hone. destruct e; cbn [exec] in Hx;
    try (by eapply run_op_inv; eauto).
  - by eapply tick_inv.
  - unfold worker in Hx. case_decide; [done|].
    apply bind_Some in Hx as (rf & Hi & (result & _ & Hx)%bind_Some).
    destruct result; [| |].
    + injection Hx as <-. apply (inv_send_same _ _ _ _ Hinv). by repeat constructor.
    + eapply send_after_run; eauto.
    + injection Hx as <-. apply (inv_send_same _ _ _ _ Hinv). by repeat constructor.
  - by eapply restart_inv.
  - apply bind_Some in Hx as (pk & Hk & Hx). by eapply deliver_inv.
  - apply bind_Some in Hx as (pk & Hk & Hx).
    pose proof (inv_take_packet _ _ _ _ _ Hinv Hk) as Hinv0.
    destruct pk; cbn in Hx; simplify_eq; try done;
      try (rewrite (record_same n b (take_packet k w)) by done; done);
      (apply (inv_send_same _ _ _ _ Hinv0); by repeat constructor).
Qed.

(** The event that makes peer [p] run an operation, where it matters. *)
Definition caused (w : World) (e : @Event C) p (op : @NodeOp C) : Prop :=
  match op with
  | OpStart command => e = EStart p command
  | OpSnapshot index s => e = ESnapshot p index s
  | OpKill => e = EKill p
  | OpApplyCommitted => e = EApply p
  | OpAppendEntries now args => ∃ k l, e = EDeliver k now ∧ net w !! k = Some (AEReq l p args)
  | OpInstallSnapshot now args => ∃ k l, e = EDeliver k now ∧ net w !! k = Some (ISReq l p args)
  | _ => True
  end.

Lemma caused_forgets w e p rf op :
  caused w e p op → nodes w !! p = Some rf → clears_vote rf op → forgets_vote w e.
Proof.
  destruct op; cbn; try done; [|by intros ->].
  intros (k & l & -> & Hk) Hp Ht. cbn. rewrite Hk. by exists rf.
Qed.

(** Where a peer of the next world comes from. *)
Definition comes_from (w : World) (e : @Event C) p rf rf' : Prop :=
  rf' = rf ∨ (∃ op, exec_op op rf = Some rf' ∧ caused w e p op) ∨
  ∃ now gs, Make (peers rf) (me rf) (persister rf) now = Some (rf', gs) ∧ e = ERestart p now.

Lemma exec_nodes w e w' p rf' :
  exec w e = Some w' → nodes w' !! p = Some rf' →
  ∃ rf, nodes w !! p = Some rf ∧ comes_from w e p rf rf'.
Proof.
  intros Hx Hp.
  assert (∀ i op w0 w1, nodes w0 = nodes w → run_op i op w0 = Some w1 → nodes w1 = nodes w' →
    caused w e i op → ∃ rf, nodes w !! p = Some rf ∧ comes_from w e p rf rf') as Hrun.
  { intros i op w0 w1 E0 (rf & rf1 & Hi & Ho & ->)%run_op_Some E1 Hf. rewrite <- E1, E0 in Hp. rewrite E0 in Hi. cbn in Hp.
    apply list_lookup_insert_Some in Hp as [(-> & <- & _)|[_ Hp]]; [|exists rf'; split; [done|by left]].
    exists rf. split; [done|]. right. left. by exists op. }
  assert (nodes w' = nodes w → ∃ rf, nodes w !! p = Some rf ∧ comes_from w e p rf rf') as Hsame.
  { intros E. rewrite E in Hp. exists rf'. split; [done|by left]. }
  destruct e as [i command|i index sn|i|i now rnd timeout|i|i|c q|i now|k now|k]; cbn [exec] in Hx;
    try (by eapply Hrun).
  - unfold tick in Hx. apply bind_Some in Hx as (rf & Hi & Hx).
    destruct (ticker now rnd timeout rf) as [[rf1 t'] result].
    apply bind_Some in Hx as (w1 & Hr & [= <-]). eapply Hrun; [done|exact Hr|by destruct result|done].
  - unfold worker in Hx. case_decide; [done|].
    apply bind_Some in Hx as (rf & Hi & (result & _ & Hx)%bind_Some).
    destruct result; [by injection Hx as <-; apply Hsame| |by injection Hx as <-; apply Hsame].
    apply bind_Some in Hx as (w1 & Hr & [= <-]). by eapply Hrun.
  - unfold restart in Hx. apply bind_Some in Hx as (rf & Hi & ([r gs] & Hm & [= <-])%bind_Some). cbn in Hp.
    apply list_lookup_insert_Some in Hp as [(-> & <- & _)|[_ Hp]]; [|exists rf'; split; [done|by left]].
    exists rf. split; [done|]. right. right. by exists now, gs.
  - apply bind_Some in Hx as (pk & Hk & Hx).
    destruct pk; cbn [deliver] in Hx;
      repeat match type of Hx with mbind _ _ = _ => apply bind_Some in Hx as (? & ? & Hx) end;
      try injection Hx as <-; try (by apply Hsame); (eapply Hrun; [|eassumption|done|]; [done|]);
      first [exact I|cbn; eauto].
  - apply bind_Some in Hx as (pk & _ & Hx). apply Hsame. destruct pk; cbn in Hx; by simplify_eq.
Qed.

Lemma boot_nodes n w : boot (C:=C) n = Some w →
  length (nodes w) = n ∧ net w = [] ∧ votes w = ∅ ∧
  ∀ p rf, nodes w !! p = Some rf →
    ∃ gs, Make n p MakePersister 0 = Some (rf, gs).
Proof.
  unfold boot. intros (rs & Hrs & [= <-])%bind_Some. cbn.
  apply mapM_Some in Hrs. pose proof (Forall2_length _ _ _ Hrs) as Hlen.
  rewrite length_seq in Hlen. split_and!; [done|done|done|]. intros p rf Hp.
  destruct (Forall2_lookup_r _ _ _ _ _ Hrs Hp) as (q & Hq & Hm).
  apply lookup_seq in Hq as [-> _]. apply fmap_Some in Hm as ([r gs] & Hm & ->). eauto.
Qed.

Lemma boot_inv n w : boot n = Some w → inv n ∅ w.
Proof.
  intros (Hlen & Hnet & Hvotes & Hnodes)%boot_nodes. constructor; rewrite ?Hnet, ?Hvotes.
  - done.
  - intros p rf Hp. destruct (Hnodes _ _ Hp) as [gs Hm].
    assert (stored (C:=C) MakePersister = Some (0, -1, [mkLogEntry None 0], 0, -1)) as Hst by done.
    destruct (Make_stored n p _ 0 _ Hst) as (r & Hm' & Hps & Hsn & Hpr & Hrole & Hme & Hpe).
    rewrite Hm' in Hm. injection Hm as <- _. unfold persistentState in Hps.
    split_and!; [done|done| | |by rewrite Hrole].
    + unfold durable, persistentState. by rewrite Hpr, Hst, Hps, Hsn.
    + unfold voter_of. injection Hps as -> -> _ _ _. split; [done|].
      intros t' c. by rewrite lookup_empty.
  - intros c t v. by rewrite lookup_empty.
  - constructor.
  - intros pk Hin. by apply elem_of_nil in Hin.
Qed.

Lemma reach_inv n b w : reach n b w → inv n b w.
Proof. induction 1 as [w Hb|b w e w' _ IH Hx Hone]; [by apply boot_inv|by eapply exec_inv]. Qed.

(** ** Where a second vote comes from *)

(** A peer still shows the vote that is written down for its term. *)
Definition shows_vote b w : Prop :=
  ∀ p rf (c : Z), nodes w !! p = Some rf → b !! (p, CurrentTerm rf) = Some c → VotedFor rf = c.

Lemma vote_step_shows self act b p (t v t' v' : Z) r r' (c : Z) :
  ballot_ok b p (t, v, r) → (∀ d : Z, b !! (p, t) = Some d → v = d) →
  vote_step self act (t, v, r) (t', v', r') → b !! (p, t') = Some c → v' = c.
Proof.
  intros [_ Hpast] Hshow Hs Hc. destruct (Hpast _ _ Hc) as [Hne Hle].
  inversion Hs; subst; try (by apply Hshow); try lia. by destruct Hne; rewrite <- (Hshow _ Hc).
Qed.

Lemma exec_shows n b w e w' p rf' (c : Z) :
  inv n b w → shows_vote b w → ¬ forgets_vote w e → exec w e = Some w' →
  nodes w' !! p = Some rf' → b !! (p, CurrentTerm rf') = Some c → VotedFor rf' = c.
Proof.
  intros Hinv Hshow Hf Hx Hp Hc. destruct (exec_nodes _ _ _ _ _ Hx Hp) as (rf & Hp0 & Hfrom).
  destruct (inv_node _ _ _ Hinv _ _ Hp0) as (_ & _ & [Hst _] & Hbal & _).
  destruct Hfrom as [->|[(op & Ho & Hca)|(now & gs & Hm & _)]]; [by eapply Hshow| |].
  - destruct (exec_op_votes _ _ _ Ho) as [Hs _].
    specialize (Hs (λ Hcl, Hf (caused_forgets _ _ _ _ _ Hca Hp0 Hcl))).
    eapply vote_step_shows; [exact Hbal| |exact Hs|exact Hc]. intros d. by apply Hshow.
  - destruct (Make_stored (peers rf) (me rf) _ now _ Hst) as (r & Hm' & Hps & _).
    rewrite Hm' in Hm. injection Hm as -> _. unfold persistentState in Hps. injection Hps as Et -> _ _ _.
    rewrite Et in Hc. by eapply Hshow.
Qed.

Lemma keeping_reach_shows n w : keeping n w → ∃ b, reach n b w ∧ shows_vote b w.
Proof.
  induction 1 as [w Hb|w e w' _ (b & Hr & Hshow) Hf Hx].
  - exists ∅. split; [by apply reach_boot|]. intros p rf c _. by rewrite lookup_empty.
  - pose proof (λ p rf (c : Z), exec_shows _ _ _ _ _ p rf c (reach_inv _ _ _ Hr) Hshow Hf Hx) as Hkeep.
    exists (record_votes w' b). split.
    + eapply reach_exec; [done|done|]. intros (p & rf & c & Hp & Hv & Hc & Hne).
      destruct Hne. symmetry. by eapply Hkeep.
    + intros p rf c Hp. rewrite record_lookup, Hp. case_decide; [by intros [= <-]|by eapply Hkeep].
Qed.

(** C7: A peer votes twice in a term only after [Kill] or a snapshot of that term
    cleared its vote: every run without the two is one of [reach]. *)
Theorem keeping_reach n w : keeping n w → ∃ b, reach n b w.
Proof. intros (b & Hr & _)%keeping_reach_shows. by exists b. Qed.

(** C2: Two leaders of one term are the same peer. *)
Theorem election_safety n b w p1 p2 rf1 rf2 :
  reach n b w →
  nodes w !! p1 = Some rf1 → nodes w !! p2 = Some rf2 →
  status rf1 = Leader → status rf2 = Leader → CurrentTerm rf1 = CurrentTerm rf2 →
  p1 = p2.
Proof.
  intros Hinv%reach_inv Hn1 Hn2 Hl1 Hl2 Ht.
  destruct (inv_node _ _ _ Hinv _ _ Hn1) as (_ & _ & _ & _ & Hv1).
  destruct (inv_node _ _ _ Hinv _ _ Hn2) as (_ & _ & _ & _ & Hv2).
  destruct (Hv1 Hl1) as (v1 & Hc1 & Hm1), (Hv2 Hl2) as (v2 & Hc2 & Hm2).
  destruct (inv_votes _ _ _ Hinv _ _ _ Hc1) as (S1 & Hs1 & HS1).
  destruct (inv_votes _ _ _ Hinv _ _ _ Hc2) as (S2 & Hs2 & HS2).
  destruct (majorities_meet n S1 S2 v1 v2) as (p & Hp1 & Hp2);
    [done|done|done|done|intros q [? _]%HS1; done|intros q [? _]%HS2; done|].
  apply HS1 in Hp1 as (_ & Hb1 & _). apply HS2 in Hp2 as (_ & Hb2 & _).
  rewrite Ht, Hb2 in Hb1. injection Hb1. lia.
Qed.
End RaftElection.
