(* ===== verification/RaftLog.v ===== *)
(** * RaftLog: what the operations of a peer do to its log

    [entry_at] is the log by logical index, the view that snapshots do not
    change.  The file proves [AppendEntries] against the reference [merge], the
    rejection hints of [matchPrevLog], the commit rule of the leader, what
    [heartbeatWorker] sends, and the snapshots the service asks for. *)
From S2P Require Import Prelude Labgob RaftTypes Raft RaftNode.
From stdpp Require Import base list list_numbers option sets.
From Stdlib Require Import ZArith Lia.
From Stdlib Require Import Strings.Byte.
#[local] Open Scope Z_scope.

Section RaftLog.
Context {C : Type} `{GobStream (PersistentState C)}.
Notation Raft := (Raft C).
Notation LogEntry := (LogEntry C).
Implicit Types (rf : Raft) (i N prev : Z).

(** The entry of logical index [i]; the dummy at [lastIncludedIndex] is none. *)
Definition entry_at rf i : option LogEntry :=
  if decide (lastIncludedIndex rf < i) then at_index (Log rf) (i - lastIncludedIndex rf)
  else None.

(** The term of logical index [i], the snapshot's last entry included. *)
Definition term_at rf i : option Z :=
  if decide (i = lastIncludedIndex rf) then Some (lastIncludedTerm rf)
  else le_Term <$> entry_at rf i.

(** The log that follows position [prev], after [new] was received for it: an
    entry already there with the same term stays, and the first difference
    replaces the rest. *)
Fixpoint merge (old new : list LogEntry) : list LogEntry :=
  match new, old with
  | [], _ => old
  | _, [] => new
  | n :: new', o :: old' =>
      if decide (le_Term o = le_Term n) then o :: merge old' new' else new
  end.

(** [new] has the terms of [old] wherever both have an entry. *)
Definition agrees (old new : list LogEntry) : Prop :=
  ∀ j o n, old !! j = Some o → new !! j = Some n → le_Term o = le_Term n.

(** Peers other than [me] whose [matchIndex] reached [N], and the leader itself. *)
Definition reached rf N (p : nat) : bool :=
  match matchIndex rf !! p with Some m => bool_decide (N <= m) | None => false end.

Definition replicas rf N : Z :=
  1 + Z.of_nat (length (filter (λ p, reached rf N p = true) (others rf))).

(** The commit rule: a majority holds index [N], and its entry is of this term. *)
Definition committable rf N : Prop :=
  termAt rf N true = CurrentTerm rf ∧ replicas rf N > go_div (Z.of_nat (peers rf)) 2.

(** ** Reading the log *)

(** [termAt] by physical index, in range. *)
Lemma termAt_physical rf i e :
  at_index (Log rf) i = Some e → termAt rf i false = le_Term e.
Proof.
  intros He. pose proof He as [Hi Hl%lookup_lt_Some]%at_index_Some.
  unfold termAt, len. rewrite decide_False by lia. by rewrite He.
Qed.

Lemma termAt_logical rf i :
  lastIncludedIndex rf < i →
  termAt rf i true = default (-1) (le_Term <$> entry_at rf i).
Proof.
  intros Hi. unfold termAt, toPhysicalIndex, entry_at. rewrite (decide_True _ _ Hi).
  case_decide as Hr.
  - destruct (at_index (Log rf) (i - lastIncludedIndex rf)) as [e|] eqn:He; [|done].
    apply at_index_Some in He as [? Hl%lookup_lt_Some]. unfold len in Hr. lia.
  - destruct (at_index_lt (Log rf) (i - lastIncludedIndex rf)) as [e ->]; [lia|done].
Qed.

Lemma entry_at_inv rf i e :
  entry_at rf i = Some e → lastIncludedIndex rf < i <= lastLogIndex rf.
Proof.
  unfold entry_at, lastLogIndex, len. case_decide; [|done].
  intros [? Hl%lookup_lt_Some]%at_index_Some. lia.
Qed.

Lemma entry_at_Some rf i :
  lastIncludedIndex rf < i <= lastLogIndex rf → is_Some (entry_at rf i).
Proof.
  unfold entry_at, lastLogIndex. intros [? ?]. rewrite decide_True by lia.
  apply at_index_lt. lia.
Qed.

(** ** [appendLoop] computes [merge] *)

(** Entries at or before the snapshot are skipped. *)
Lemma appendLoop_skip prev i es rf :
  prev + 1 + i <= lastIncludedIndex rf →
  appendLoop prev i es rf
  = appendLoop prev (lastIncludedIndex rf - prev)
      (drop (Z.to_nat (lastIncludedIndex rf - prev - i)) es) rf.
Proof.
  revert i. induction es as [|e es IH]; intros i Hi; [by rewrite drop_nil|].
  cbn [appendLoop]. unfold toPhysicalIndex. rewrite decide_True by lia.
  replace (Z.to_nat (lastIncludedIndex rf - prev - i))
    with (S (Z.to_nat (lastIncludedIndex rf - prev - (i + 1)))) by lia.
  cbn [drop]. destruct (decide (prev + 1 + (i + 1) <= lastIncludedIndex rf)).
  - by apply IH.
  - replace (lastIncludedIndex rf - prev - (i + 1)) with 0 by lia.
    replace (lastIncludedIndex rf - prev) with (i + 1) by lia. done.
Qed.

Lemma appendLoop_from prev i es rf :
  1 <= prev + 1 + i - lastIncludedIndex rf <= len (Log rf) →
  let ph := Z.to_nat (prev + 1 + i - lastIncludedIndex rf) in
  appendLoop prev i es rf
  = rf <| Log := take ph (Log rf) ++ merge (drop ph (Log rf)) es |>.
Proof.
  revert i. induction es as [|e es IH]; intros i Hi ph; cbn [appendLoop].
  { assert (∀ l, merge l [] = l) as -> by (by intros []).
    rewrite take_drop. by destruct rf. }
  unfold toPhysicalIndex. rewrite decide_False by lia.
  case_decide as Hge.
  { assert (ph = length (Log rf)) as -> by (unfold len in *; lia).
    by rewrite take_ge, drop_ge. }
  destruct (at_index_lt (Log rf) (prev + 1 + i - lastIncludedIndex rf)) as [o Ho]; [lia|].
  rewrite (termAt_physical _ _ _ Ho).
  apply at_index_Some in Ho as [_ Ho]. fold ph in Ho.
  rewrite (drop_S _ _ _ Ho). cbn [merge].
  case_decide as Hd.
  - rewrite decide_False by done. unfold slice_to. cbn. done.
  - rewrite decide_True by done.
    rewrite IH by lia.
    replace (Z.to_nat (prev + 1 + (i + 1) - lastIncludedIndex rf)) with (S ph) by lia.
    rewrite (take_S_r _ _ _ Ho), <-app_assoc. done.
Qed.

(** Where the received entries land: [skip] of them are behind the snapshot. *)
Definition skipped rf prev : nat := Z.to_nat (lastIncludedIndex rf - prev).
Definition landing rf prev : nat :=
  Z.to_nat (Z.max prev (lastIncludedIndex rf) + 1 - lastIncludedIndex rf).

Lemma appendLoop_merge prev es rf :
  Log rf ≠ [] → prev <= lastLogIndex rf →
  appendLoop prev 0 es rf
  = rf <| Log := take (landing rf prev) (Log rf)
                 ++ merge (drop (landing rf prev) (Log rf)) (drop (skipped rf prev) es) |>.
Proof.
  intros Hne Hprev. unfold lastLogIndex in Hprev.
  assert (1 <= len (Log rf)) by (unfold len; destruct (Log rf); simpl; [done|lia]).
  unfold skipped, landing.
  destruct (decide (prev + 1 + 0 <= lastIncludedIndex rf)) as [Hs|Hs].
  - rewrite appendLoop_skip, appendLoop_from by lia.
    replace (lastIncludedIndex rf - prev - 0) with (lastIncludedIndex rf - prev) by lia.
    replace (prev + 1 + (lastIncludedIndex rf - prev) - lastIncludedIndex rf)
      with (Z.max prev (lastIncludedIndex rf) + 1 - lastIncludedIndex rf) by lia. done.
  - rewrite appendLoop_from by lia.
    replace (Z.to_nat (lastIncludedIndex rf - prev)) with 0%nat by lia.
    replace (prev + 1 + 0 - lastIncludedIndex rf)
      with (Z.max prev (lastIncludedIndex rf) + 1 - lastIncludedIndex rf) by lia. done.
Qed.

(** ** What [merge] keeps and adds *)

Lemma merge_lookup old new j n :
  new !! j = Some n → ∃ e, merge old new !! j = Some e ∧ le_Term e = le_Term n.
Proof.
  revert old j. induction new as [|n0 new IH]; intros old j Hj; [done|].
  destruct old as [|o old]; cbn [merge]; [eauto|].
  case_decide; [|eauto]. destruct j as [|j]; cbn in Hj |- *; [naive_solver|eauto].
Qed.

Lemma merge_agrees old new :
  agrees old new → merge old new = old ++ drop (length old) new.
Proof.
  revert old. induction new as [|n new IH]; intros old Ha.
  { rewrite drop_nil, app_nil_r. by destruct old. }
  destruct old as [|o old]; cbn [merge]; [done|].
  rewrite decide_True by (by apply (Ha 0%nat)). cbn. f_equal. apply IH.
  intros j. apply (Ha (S j)).
Qed.

Lemma merge_idem old new : merge (merge old new) new = merge old new.
Proof.
  revert old. induction new as [|n new IH]; intros old; [by destruct old|].
  assert (∀ l, merge (n :: l) (n :: new) = n :: merge l new) as Hn.
  { intros l. cbn. by rewrite decide_True. }
  destruct old as [|o old]; cbn [merge].
  - rewrite decide_True by done. f_equal.
    rewrite merge_agrees; [by rewrite drop_all, app_nil_r|].
    intros j x y Hx Hy. congruence.
  - case_decide as Ho.
    + cbn. rewrite decide_True by done. by rewrite IH.
    + rewrite Hn. f_equal. rewrite merge_agrees; [by rewrite drop_all, app_nil_r|].
      intros j x y Hx Hy. congruence.
Qed.

(** ** [AppendEntries] *)

Lemma updateFollowerCommitIndex_log lc ln rf :
  Log (updateFollowerCommitIndex lc ln rf) = Log rf
  ∧ lastIncludedIndex (updateFollowerCommitIndex lc ln rf) = lastIncludedIndex rf
  ∧ lastIncludedTerm (updateFollowerCommitIndex lc ln rf) = lastIncludedTerm rf
  ∧ CurrentTerm (updateFollowerCommitIndex lc ln rf) = CurrentTerm rf.
Proof. by destruct (updateFollowerCommitIndex_cases lc ln rf) as [[-> _]|[-> _]]. Qed.

Lemma stepDown_log now t rf :
  Log (fst (stepDown now t rf)) = Log rf
  ∧ lastIncludedIndex (fst (stepDown now t rf)) = lastIncludedIndex rf
  ∧ lastIncludedTerm (fst (stepDown now t rf)) = lastIncludedTerm rf
  ∧ CurrentTerm (fst (stepDown now t rf)) = Z.max t (CurrentTerm rf).
Proof.
  destruct (stepDown_cases now t rf) as [[-> ?]|[? ->]]; cbn; split_and!; try done; lia.
Qed.

Lemma matchPrevLog_true args reply rf :
  snd (matchPrevLog args reply rf) = true → fst (matchPrevLog args reply rf) = reply
  ∧ aea_PrevLogIndex args <= lastLogIndex rf.
Proof. unfold matchPrevLog. repeat case_decide; try done; intros _; split; done || lia. Qed.

Lemma matchPrevLog_false args reply rf :
  snd (matchPrevLog args reply rf) = false →
  aer_Success (fst (matchPrevLog args reply rf)) = false.
Proof. unfold matchPrevLog. by repeat case_decide. Qed.

Lemma matchPrevLog_iff args reply rf :
  snd (matchPrevLog args reply rf) = true ↔
  aea_PrevLogIndex args <= lastLogIndex rf
  ∧ getPrevLogTerm rf (aea_PrevLogIndex args) = aea_PrevLogTerm args.
Proof.
  unfold matchPrevLog, getPrevLogTerm.
  case_decide; [cbn; split; [done|lia]|].
  repeat case_decide; cbn [snd];
    (split; [intros Hok; first [done|split; [lia|by apply dec_stable]]|by intros [_ ?]]).
Qed.

(** When an [AppendEntries] is accepted. *)
Lemma AppendEntries_accepts now args rf :
  aer_Success (snd (AppendEntries now args zeroAEReply rf)) = true ↔
  CurrentTerm rf <= aea_Term args ∧ aea_PrevLogIndex args <= lastLogIndex rf
  ∧ getPrevLogTerm rf (aea_PrevLogIndex args) = aea_PrevLogTerm args.
Proof.
  unfold AppendEntries. case_decide as Hlt; [split; [done|lia]|].
  destruct (stepDown_log now (aea_Term args) rf) as (Hl & Hi & Ht & Hc).
  generalize dependent (fst (stepDown now (aea_Term args) rf)). intros rf0 Hl Hi Ht Hc.
  set (rf1 := rf0 <| lastHeartbeat := now |> <| status := Follower |>).
  assert (lastLogIndex rf1 = lastLogIndex rf ∧ ∀ i, getPrevLogTerm rf1 i = getPrevLogTerm rf i)
    as [Hll Hpt].
  { unfold lastLogIndex, getPrevLogTerm, termAt, toPhysicalIndex.
    change (Log rf1) with (Log rf0). change (lastIncludedIndex rf1) with (lastIncludedIndex rf0).
    change (lastIncludedTerm rf1) with (lastIncludedTerm rf0). by rewrite Hl, Hi, Ht. }
  pose proof (matchPrevLog_iff args zeroAEReply rf1) as Hm.
  pose proof (matchPrevLog_false args zeroAEReply rf1) as Hf. rewrite Hll, Hpt in Hm.
  destruct (matchPrevLog args zeroAEReply rf1) as [reply ok]; cbn [fst snd] in Hm, Hf.
  destruct ok; cbn zeta; cbn [snd].
  - split; [intros _|done]. split; [lia|]. by apply Hm.
  - rewrite Hf by done. split; [done|]. intros [_ Hx]. by apply Hm in Hx.
Qed.

(** On success, the new log in terms of the old one. *)
Lemma AppendEntries_success now args rf :
  Log rf ≠ [] →
  let '(rf', reply) := AppendEntries now args zeroAEReply rf in
  let prev := aea_PrevLogIndex args in
  aer_Success reply = true →
  prev <= lastLogIndex rf
  ∧ lastIncludedIndex rf' = lastIncludedIndex rf
  ∧ lastIncludedTerm rf' = lastIncludedTerm rf
  ∧ CurrentTerm rf' = aea_Term args
  ∧ Log rf' = take (landing rf prev) (Log rf)
      ++ merge (drop (landing rf prev) (Log rf)) (drop (skipped rf prev) (aea_Entries args)).
Proof.
  intros Hne. unfold AppendEntries. case_decide as Hlt; [done|].
  destruct (stepDown_log now (aea_Term args) rf) as (Hl & Hi & Ht & Hc).
  generalize dependent (fst (stepDown now (aea_Term args) rf)). intros rf0 Hl Hi Ht Hc.
  set (rf1 := rf0 <| lastHeartbeat := now |> <| status := Follower |>).
  pose proof (matchPrevLog_true args zeroAEReply rf1) as Hm.
  pose proof (matchPrevLog_false args zeroAEReply rf1) as Hf.
  destruct (matchPrevLog args zeroAEReply rf1) as [reply []]; cbn [fst snd] in Hm, Hf; cbn zeta.
  2: { intros Hs. rewrite Hf in Hs; done. }
  intros _. destruct (Hm eq_refl) as [_ Hprev].
  unfold lastLogIndex in Hprev. change (Log rf1) with (Log rf0) in Hprev.
  change (lastIncludedIndex rf1) with (lastIncludedIndex rf0) in Hprev.
  rewrite Hl, Hi in Hprev.
  rewrite appendLoop_merge; [|by change (Log rf1) with (Log rf0); rewrite Hl|].
  2: { unfold lastLogIndex. change (Log rf1) with (Log rf0).
       change (lastIncludedIndex rf1) with (lastIncludedIndex rf0). by rewrite Hl, Hi. }
  set (rf2 := persist _).
  destruct (updateFollowerCommitIndex_log (aea_LeaderCommit args)
    (aea_PrevLogIndex args + len (aea_Entries args)) rf2) as (-> & -> & -> & ->).
  subst rf2 rf1. unfold landing, skipped. cbn. rewrite Hl, Hi, Ht, Hc.
  split_and!; done || lia.
Qed.

Lemma entry_at_take_app rf rf' k new i :
  lastIncludedIndex rf' = lastIncludedIndex rf → Log rf' = take k (Log rf) ++ new →
  i - lastIncludedIndex rf < Z.of_nat k → Z.of_nat k <= len (Log rf) →
  entry_at rf' i = entry_at rf i.
Proof.
  intros Hi Hl Hk Hlen. unfold entry_at, at_index, len in *. rewrite Hi, Hl.
  repeat case_decide; try done.
  rewrite lookup_app_l by (rewrite length_take; lia). apply lookup_take_lt. lia.
Qed.

Lemma entry_at_app_r rf' pre new i j e lii :
  lastIncludedIndex rf' = lii → Log rf' = pre ++ new →
  i - lii = Z.of_nat (length pre + j) → lii < i → new !! j = Some e →
  entry_at rf' i = Some e.
Proof.
  intros Hi Hl Hij Hlt He. unfold entry_at. rewrite Hi, decide_True by done.
  apply at_index_Some. split; [lia|]. rewrite Hl, Hij, Nat2Z.id.
  by rewrite lookup_app_r, Nat.add_sub' by lia.
Qed.

Lemma landing_le rf prev :
  Log rf ≠ [] → prev <= lastLogIndex rf → (landing rf prev <= length (Log rf))%nat.
Proof.
  intros Hne. unfold landing, lastLogIndex, len. destruct (Log rf); [done|]. simpl. lia.
Qed.

(** The entries received past the snapshot are in the log, by term. *)
Lemma AppendEntries_holds now args rf j n :
  Log rf ≠ [] →
  aer_Success (snd (AppendEntries now args zeroAEReply rf)) = true →
  aea_Entries args !! j = Some n →
  lastIncludedIndex rf < aea_PrevLogIndex args + 1 + Z.of_nat j →
  ∃ e, entry_at (fst (AppendEntries now args zeroAEReply rf))
         (aea_PrevLogIndex args + 1 + Z.of_nat j) = Some e ∧ le_Term e = le_Term n.
Proof.
  intros Hne Hok Hn Hj. pose proof (AppendEntries_success now args rf Hne) as Hs.
  destruct (AppendEntries now args zeroAEReply rf) as [rf' reply]. cbn [fst snd] in *.
  destruct (Hs Hok) as (Hprev & Hi & _ & _ & Hl).
  pose proof (landing_le _ _ Hne Hprev) as Hk.
  destruct (merge_lookup (drop (landing rf (aea_PrevLogIndex args)) (Log rf))
    (drop (skipped rf (aea_PrevLogIndex args)) (aea_Entries args))
    (j - skipped rf (aea_PrevLogIndex args)) n) as (e & He & Ht).
  { rewrite lookup_drop. rewrite <-Hn. f_equal. unfold skipped. lia. }
  exists e. split; [|done]. eapply entry_at_app_r; [exact Hi|exact Hl| |done|exact He].
  rewrite length_take, Nat.min_l by done. unfold landing, skipped. lia.
Qed.

(** The log up to [PrevLogIndex] is kept. *)
Lemma AppendEntries_keeps now args rf i :
  Log rf ≠ [] →
  aer_Success (snd (AppendEntries now args zeroAEReply rf)) = true →
  i <= aea_PrevLogIndex args →
  entry_at (fst (AppendEntries now args zeroAEReply rf)) i = entry_at rf i.
Proof.
  intros Hne Hok Hip. pose proof (AppendEntries_success now args rf Hne) as Hs.
  destruct (AppendEntries now args zeroAEReply rf) as [rf' reply]. cbn [fst snd] in *.
  destruct (Hs Hok) as (Hprev & Hi & _ & _ & Hl).
  pose proof (landing_le _ _ Hne Hprev) as Hk.
  eapply entry_at_take_app; [exact Hi|exact Hl| |unfold len; lia]. unfold landing. lia.
Qed.

(** C14: A successful [AppendEntries] makes the log agree with the leader's entries,
    keeps everything up to [PrevLogIndex], and drops nothing if there was no
    conflict. *)
Theorem AppendEntries_log now args rf :
  Log rf ≠ [] →
  let '(rf', reply) := AppendEntries now args zeroAEReply rf in
  let prev := aea_PrevLogIndex args in
  aer_Success reply = true →
  (∀ i, i <= prev → entry_at rf' i = entry_at rf i)
  ∧ (∀ j n, aea_Entries args !! j = Some n → lastIncludedIndex rf < prev + 1 + Z.of_nat j →
      ∃ e, entry_at rf' (prev + 1 + Z.of_nat j) = Some e ∧ le_Term e = le_Term n)
  ∧ (agrees (drop (landing rf prev) (Log rf)) (drop (skipped rf prev) (aea_Entries args)) →
      Log rf `prefix_of` Log rf').
Proof.
  intros Hne. pose proof (AppendEntries_success now args rf Hne) as Hs.
  pose proof (AppendEntries_keeps now args rf) as Hkeep.
  pose proof (λ j n, AppendEntries_holds now args rf j n Hne) as Hnew.
  destruct (AppendEntries now args zeroAEReply rf) as [rf' reply].
  cbv zeta in Hs |- *. intros Hok. destruct (Hs Hok) as (Hprev & Hi & _ & _ & Hl).
  split_and!.
  - intros i. by apply Hkeep.
  - intros j n. by apply Hnew.
  - intros Ha. rewrite Hl, (merge_agrees _ _ Ha), app_assoc, take_drop. by eexists.
Qed.

Lemma take_drop_landing (k : nat) (old new : list LogEntry) :
  (k <= length old)%nat →
  take k (take k old ++ new) = take k old ∧ drop k (take k old ++ new) = new.
Proof.
  intros Hk. assert (length (take k old) = k) as Hl by (rewrite length_take; lia).
  split; [by rewrite take_app_le, take_take, Nat.min_id by lia|].
  rewrite drop_app_ge by lia. by rewrite Hl, Nat.sub_diag.
Qed.

(** The term a leader or follower compares at [prev], on the logical view. *)
Lemma getPrevLogTerm_view rf rf' prev :
  lastIncludedIndex rf' = lastIncludedIndex rf → lastIncludedTerm rf' = lastIncludedTerm rf →
  entry_at rf' prev = entry_at rf prev → getPrevLogTerm rf' prev = getPrevLogTerm rf prev.
Proof.
  intros Hi Ht He. unfold getPrevLogTerm. rewrite Hi, Ht. case_decide; [done|].
  destruct (decide (lastIncludedIndex rf < prev)).
  - by rewrite !termAt_logical, He by lia.
  - unfold termAt, toPhysicalIndex. by rewrite Hi, !decide_True by lia.
Qed.

(** A retransmitted [AppendEntries] is accepted again and leaves the log as the
    first one made it. *)
Theorem AppendEntries_idempotent now now' args rf :
  Log rf ≠ [] →
  let '(rf1, reply1) := AppendEntries now args zeroAEReply rf in
  let '(rf2, reply2) := AppendEntries now' args zeroAEReply rf1 in
  aer_Success reply1 = true → aer_Success reply2 = true ∧ Log rf2 = Log rf1.
Proof.
  intros Hne. pose proof (AppendEntries_success now args rf Hne) as Hs1.
  pose proof (AppendEntries_keeps now args rf (aea_PrevLogIndex args) Hne) as Hkeep.
  pose proof (AppendEntries_accepts now args rf) as [Hacc _].
  destruct (AppendEntries now args zeroAEReply rf) as [rf1 reply1]. cbv zeta in Hs1.
  pose proof (AppendEntries_accepts now' args rf1) as [_ Hacc2].
  destruct (AppendEntries now' args zeroAEReply rf1) as [rf2 reply2] eqn:E2. cbn [fst snd] in *.
  intros Hok1. destruct (Hs1 Hok1) as (Hprev & Hi & Hit & Hct & Hl).
  destruct (Hacc Hok1) as (_ & _ & Hpt). specialize (Hkeep Hok1 ltac:(done)).
  pose proof (landing_le _ _ Hne Hprev) as Hk.
  assert (landing rf (aea_PrevLogIndex args) <= length (Log rf1))%nat as Hk1
    by (rewrite Hl, length_app, length_take; lia).
  assert (Log rf1 ≠ []) as Hne1.
  { intros E. rewrite E in Hk1. unfold landing in Hk1. cbn in Hk1. lia. }
  assert (aer_Success reply2 = true) as Hok2.
  { apply Hacc2. split_and!; [lia| |].
    - unfold lastLogIndex, len. rewrite Hi. unfold landing in Hk1. lia.
    - rewrite <-Hpt. by apply getPrevLogTerm_view. }
  split; [done|].
  pose proof (AppendEntries_success now' args rf1 Hne1) as Hs2. rewrite E2 in Hs2.
  cbv zeta in Hs2. destruct (Hs2 Hok2) as (_ & _ & _ & _ & ->).
  unfold landing, skipped in *. rewrite Hi, Hl.
  set (m := merge _ _). destruct (take_drop_landing _ (Log rf) m Hk) as [-> ->].
  subst m. by rewrite merge_idem.
Qed.

(** ** The hints of a rejection *)

Lemma conflictScan_spec fuel rf term i :
  i - lastIncludedIndex rf <= Z.of_nat fuel →
  let r := conflictScan fuel rf term i in
  r <= i ∧ (lastIncludedIndex rf <= i → lastIncludedIndex rf <= r)
  ∧ (∀ j, r < j <= i → termAt rf j true = term)
  ∧ (r <= lastIncludedIndex rf ∨ termAt rf r true ≠ term).
Proof.
  revert i. induction fuel as [|fuel IH]; intros i Hf; cbn [conflictScan].
  { cbv zeta. split_and!; [lia|lia|intros; lia|left; lia]. }
  case_decide as Hc.
  - destruct (IH (i - 1)) as (H1 & H2 & H3 & H4); [lia|]. cbv zeta.
    split_and!; [lia|lia| |done]. intros j Hj.
    destruct (decide (j = i)) as [->|]; [tauto|]. apply H3. lia.
  - cbv zeta. split_and!; [lia|lia|intros; lia|].
    destruct (decide (i > lastIncludedIndex rf)); [tauto|left; lia].
Qed.

(** [matchPrevLog] accepts exactly when the log holds [PrevLogTerm] at
    [PrevLogIndex]; otherwise its hints are the end of a log that is too short,
    or the first index of the conflicting term. *)
Theorem matchPrevLog_spec args rf :
  let '(reply, ok) := matchPrevLog args zeroAEReply rf in
  let prev := aea_PrevLogIndex args in
  let here := if decide (prev = lastIncludedIndex rf) then lastIncludedTerm rf
              else termAt rf prev true in
  (ok = true ↔ prev <= lastLogIndex rf ∧ here = aea_PrevLogTerm args)
  ∧ (ok = false → aer_Term reply = CurrentTerm rf ∧
      ((lastLogIndex rf < prev ∧ aer_XLen reply = lastLogIndex rf + 1) ∨
       (prev <= lastLogIndex rf ∧ aer_XLen reply = 0 ∧ aer_XTerm reply = here
        ∧ (prev = lastIncludedIndex rf → aer_XIndex reply = prev)
        ∧ (prev ≠ lastIncludedIndex rf → aer_XIndex reply <= prev + 1
           ∧ ∀ j, aer_XIndex reply <= j <= prev → termAt rf j true = here)
        ∧ (lastIncludedIndex rf < prev → lastIncludedIndex rf < aer_XIndex reply
           ∧ (aer_XIndex reply - 1 = lastIncludedIndex rf
              ∨ termAt rf (aer_XIndex reply - 1) true ≠ here))))).
Proof.
  unfold matchPrevLog. case_decide as Hlong; cbv zeta.
  { split; [split; [done|lia]|]. intros _. split; [done|]. left. cbn. lia. }
  case_decide as Hsnap.
  - case_decide as Ht; (split; [split; [done || lia|by intros [_ ?]]|]); [|done].
    intros _. split; [done|right]. cbn. split_and!; intros; lia || done.
  - case_decide as Ht; (split; [split; [done || lia|by intros [_ ?]]|]); [|done].
    intros _. split; [done|right].
    destruct (conflictScan_spec (Z.to_nat (aea_PrevLogIndex args - lastIncludedIndex rf)) rf
      (termAt rf (aea_PrevLogIndex args) true) (aea_PrevLogIndex args)) as (H1 & H2 & H3 & H4);
      [lia|].
    set (r := conflictScan _ _ _ _) in *. clearbody r. cbn.
    split_and!; try done; try lia.
    + intros _. split; [lia|]. intros j Hj. apply H3. lia.
    + intros Hlt. split; [lia|]. replace (r + 1 - 1) with r by lia.
      destruct H4; [left; lia|by right].
Qed.

(** ** The commit rule of the leader *)

Lemma countMatch_spec rf N ps count :
  Forall (λ p, (p < length (matchIndex rf))%nat) ps →
  countMatch rf N ps count
  = Some (count + Z.of_nat (length (filter (λ p, reached rf N p = true)
                                      (filter (λ p, p ≠ me rf) ps)))).
Proof.
  intros Hps. revert count. induction Hps as [|p ps Hp Hps IH]; intros count; cbn [countMatch].
  { f_equal. cbn. lia. }
  rewrite filter_cons. case_decide; [|by apply IH].
  apply lookup_lt_is_Some in Hp as [m Hm]. rewrite Hm. cbn [mbind option_bind].
  rewrite IH, filter_cons. f_equal.
  assert (reached rf N p = true ↔ m >= N) as Hr.
  { unfold reached. rewrite Hm, bool_decide_eq_true. lia. }
  repeat case_decide; simpl; try tauto; lia.
Qed.

Lemma countMatch_replicas rf N :
  wf rf → countMatch rf N (seq 0 (peers rf)) 1 = Some (replicas rf N).
Proof.
  intros Hw. rewrite countMatch_spec; [done|].
  apply List.Forall_forall. intros p Hp%in_seq. rewrite (wf_matchIndex _ Hw). lia.
Qed.

Lemma commitLoop_spec fuel N rf :
  wf rf → N - commitIndex rf <= Z.of_nat fuel →
  ∃ rf', commitLoop fuel N rf = Some rf' ∧
    ((∃ M, commitIndex rf < M <= N ∧ committable rf M ∧ (∀ K, M < K <= N → ¬ committable rf K)
           ∧ rf' = rf <| commitIndex := M |> <| applyCond := true |>)
     ∨ (rf' = rf ∧ ∀ K, commitIndex rf < K <= N → ¬ committable rf K)).
Proof.
  intros Hw. revert N. induction fuel as [|fuel IH]; intros N Hf; cbn [commitLoop].
  { exists rf. split; [done|]. right. split; [done|lia]. }
  case_decide as HN; [|exists rf; split; [done|]; right; split; [done|lia]].
  rewrite (countMatch_replicas _ _ Hw). cbn [mbind option_bind].
  destruct (decide (committable rf N)) as [Hc|Hc].
  - destruct Hc as [Ht Hr]. rewrite !decide_True by done. eexists. split; [done|].
    left. exists N. split_and!; try done; lia.
  - assert (∃ rf', commitLoop fuel (N - 1) rf = Some rf' ∧
      ((∃ M, commitIndex rf < M <= N ∧ committable rf M ∧ (∀ K, M < K <= N → ¬ committable rf K)
           ∧ rf' = rf <| commitIndex := M |> <| applyCond := true |>)
       ∨ (rf' = rf ∧ ∀ K, commitIndex rf < K <= N → ¬ committable rf K))) as Hrec.
    { destruct (IH (N - 1)) as (rf' & Hrf' & Hcase); [lia|]. exists rf'. split; [done|].
      destruct Hcase as [(M & HM & HcM & Hmax & ->)|[-> Hnone]]; [left; exists M|right].
      - split_and!; try done; try lia. intros K HK.
        destruct (decide (K = N)) as [->|]; [done|]. apply Hmax. lia.
      - split; [done|]. intros K HK.
        destruct (decide (K = N)) as [->|]; [done|]. apply Hnone. lia. }
    case_decide as Ht; [|done]. case_decide as Hr; [|done].
    by destruct Hc.
Qed.

(** C15: [updateLeaderCommitIndex] moves to the highest index that a majority holds
    and whose entry is of the current term, and stays put if there is none. *)
Theorem updateLeaderCommitIndex_spec rf :
  wf rf →
  ∃ rf', updateLeaderCommitIndex rf = Some rf' ∧
    ((∃ N, commitIndex rf < N <= lastLogIndex rf ∧ committable rf N
        ∧ (∀ M, N < M <= lastLogIndex rf → ¬ committable rf M)
        ∧ rf' = rf <| commitIndex := N |> <| applyCond := true |>)
     ∨ (rf' = rf ∧ ∀ M, commitIndex rf < M <= lastLogIndex rf → ¬ committable rf M)).
Proof. intros Hw. apply commitLoop_spec; [done|lia]. Qed.

(** ** The last index of a term *)

Lemma foldl_last_match (P : Z → Prop) `{∀ i, Decision (P i)} (f : Z → Z) l a :
  (foldl (λ acc i, if decide (P i) then f i else acc) a l = a ∧ ∀ i, i ∈ l → ¬ P i) ∨
  (∃ l1 i l2, l = l1 ++ i :: l2 ∧ P i ∧ (∀ j, j ∈ l2 → ¬ P j)
     ∧ foldl (λ acc i, if decide (P i) then f i else acc) a l = f i).
Proof.
  induction l as [|x l IH] using rev_ind; [left; split; [done|set_solver]|].
  rewrite foldl_app. cbn. case_decide as Hx.
  - right. exists l, x, []. split_and!; [done|done|set_solver|done].
  - destruct IH as [[-> Hn]|(l1 & i & l2 & -> & Hi & Hl2 & ->)].
    + left. split; [done|]. set_solver.
    + right. exists l1, i, (l2 ++ [x]). rewrite <-app_assoc. split_and!; set_solver.
Qed.

(** The last index of the log with that term; else the snapshot's last index,
    if it has the term; else -1. *)
Theorem findLastIndexOfTerm_spec rf term :
  0 <= lastIncludedIndex rf →
  let r := findLastIndexOfTerm rf term in
  (lastIncludedIndex rf < r <= lastLogIndex rf ∧ termAt rf r true = term
     ∧ ∀ i, r < i <= lastLogIndex rf → termAt rf i true ≠ term) ∨
  ((∀ i, lastIncludedIndex rf < i <= lastLogIndex rf → termAt rf i true ≠ term)
   ∧ r = if decide (term = lastIncludedTerm rf) then lastIncludedIndex rf else -1).
Proof.
  intros Hlii. cbv zeta. unfold findLastIndexOfTerm.
  assert (∀ i, termAt rf i true = termAt rf (i - lastIncludedIndex rf) false) as Hta by done.
  destruct (foldl_last_match (λ i, termAt rf i false = term) (λ i, i + lastIncludedIndex rf)
    (seqZ 1 (len (Log rf) - 1)) (-1)) as [[-> Hn]|(l1 & i & l2 & Hl & Hi & Hl2 & ->)].
  - right. split.
    + intros i Hi. rewrite Hta. apply Hn, elem_of_seqZ. unfold lastLogIndex in Hi. lia.
    + repeat case_decide; tauto.
  - left. assert (i ∈ seqZ 1 (len (Log rf) - 1)) as Hin by (rewrite Hl; set_solver).
    apply elem_of_seqZ in Hin. rewrite decide_False by lia. unfold lastLogIndex.
    rewrite Hta. replace (i + lastIncludedIndex rf - lastIncludedIndex rf) with i by lia.
    split_and!; [lia|lia|done|]. intros j Hj. rewrite Hta. apply Hl2.
    assert (j - lastIncludedIndex rf ∈ seqZ 1 (len (Log rf) - 1)) as Hjin
      by (apply elem_of_seqZ; lia).
    apply list_elem_of_lookup in Hjin as [q Hq].
    assert (seqZ 1 (len (Log rf) - 1) !! length l1 = Some i) as Hpos
      by (by rewrite Hl, lookup_app_r, Nat.sub_diag by lia).
    apply lookup_seqZ in Hq as [Hqv Hqr]. apply lookup_seqZ in Hpos as [Hpv Hpr].
    assert (seqZ 1 (len (Log rf) - 1) !! q = Some (j - lastIncludedIndex rf)) as Hq'
      by (apply lookup_seqZ; lia).
    rewrite Hl, lookup_app_r in Hq' by lia.
    replace (q - length l1)%nat with (S (q - length l1 - 1)) in Hq' by lia.
    cbn in Hq'. by eapply list_elem_of_lookup_2.
Qed.

(** ** What a leader sends *)

(** Ready to send entries from [n]: the follower needs no snapshot. *)
Definition sends_from rf (peer : nat) (n : Z) : Prop :=
  status rf = Leader ∧ nextIndex rf !! peer = Some n
  ∧ lastIncludedIndex rf < n <= lastLogIndex rf + 1.

Lemma drop_entry_at rf n j :
  lastIncludedIndex rf < n →
  slice_from (Log rf) (n - lastIncludedIndex rf) !! j = entry_at rf (n + Z.of_nat j).
Proof.
  intros Hn. unfold slice_from, entry_at, at_index. rewrite lookup_drop.
  rewrite decide_True, decide_False by lia. f_equal. lia.
Qed.

Lemma getPrevLogTerm_term_at rf i t :
  lastIncludedIndex rf <= i → term_at rf i = Some t → getPrevLogTerm rf i = t.
Proof.
  intros Hi. unfold term_at, getPrevLogTerm. case_decide; [congruence|].
  rewrite termAt_logical by lia. by intros ->.
Qed.

Lemma heartbeatWorker_sends rf peer n :
  sends_from rf peer n →
  heartbeatWorker peer rf = Some (WorkerSend
    (mkAppendEntriesArgs (CurrentTerm rf) (Z.of_nat (me rf)) (n - 1)
       (getPrevLogTerm rf (n - 1)) (slice_from (Log rf) (n - lastIncludedIndex rf))
       (commitIndex rf))).
Proof.
  intros (Hl & Hn & Hlo & Hhi). unfold heartbeatWorker, toPhysicalIndex.
  unfold lastLogIndex in Hhi.
  rewrite (decide_False (P := status rf ≠ Leader)) by (by intros []).
  rewrite Hn. cbn [mbind option_bind].
  rewrite (decide_False (P := n <= lastIncludedIndex rf)) by lia. cbn [mbind option_bind].
  rewrite decide_False by (intros [? _]; lia).
  by rewrite decide_False by lia.
Qed.

Lemma len_slice_from rf n :
  lastIncludedIndex rf < n <= lastLogIndex rf + 1 →
  n - 1 + len (slice_from (Log rf) (n - lastIncludedIndex rf)) = lastLogIndex rf.
Proof. intros Hn. unfold lastLogIndex, len, slice_from in *. rewrite length_drop. lia. Qed.

(** A follower that accepts what the leader sent holds the leader's terms from
    [nextIndex] to the end of the leader's log, and the commit index sent is
    covered by the entries. *)
Theorem replication_step now rf peer n f :
  sends_from rf peer n → Log f ≠ [] →
  ∃ args, heartbeatWorker peer rf = Some (WorkerSend args) ∧
    aea_PrevLogIndex args + len (aea_Entries args) = lastLogIndex rf ∧
    let '(f', reply) := AppendEntries now args zeroAEReply f in
    aer_Success reply = true →
    ∀ i, n <= i <= lastLogIndex rf → lastIncludedIndex f < i →
      ∃ e e', entry_at rf i = Some e ∧ entry_at f' i = Some e' ∧ le_Term e' = le_Term e.
Proof.
  intros Hs Hf. pose proof (heartbeatWorker_sends _ _ _ Hs) as Hw.
  destruct Hs as (_ & _ & Hn). eexists. split; [exact Hw|].
  cbn [aea_PrevLogIndex aea_Entries]. split; [by apply len_slice_from|].
  match goal with |- context [AppendEntries now ?a zeroAEReply f] => set (args := a) end.
  pose proof (λ j n, AppendEntries_holds now args f j n Hf) as Hnew.
  destruct (AppendEntries now args zeroAEReply f) as [f' reply]. cbn [fst snd] in Hnew.
  intros Hok i Hi Hfi.
  destruct (entry_at_Some rf i) as [e He]; [lia|].
  destruct (Hnew (Z.to_nat (i - n)) e Hok) as (e' & He' & Ht); cbn [aea_Entries aea_PrevLogIndex args].
  - rewrite drop_entry_at by lia. rewrite <-He. f_equal. lia.
  - lia.
  - exists e, e'. split_and!; [done| |done]. rewrite <-He'. f_equal. cbn. lia.
Qed.

(** ** Snapshots *)

(** The service's own snapshot hides the log up to [index] and nothing else. *)
Theorem Snapshot_view index s rf :
  lastIncludedIndex rf < index <= lastLogIndex rf →
  let rf' := Snapshot index s rf in
  lastIncludedIndex rf' = index ∧ lastLogIndex rf' = lastLogIndex rf ∧ snapshot rf' = s
  ∧ (∀ i, index < i → entry_at rf' i = entry_at rf i)
  ∧ (∀ i, index <= i → term_at rf' i = term_at rf i).
Proof.
  intros Hi rf'. subst rf'. unfold Snapshot, toPhysicalIndex.
  unfold lastLogIndex in Hi.
  rewrite decide_False by lia. rewrite decide_False by lia.
  set (k := index - lastIncludedIndex rf).
  assert (∀ i, index < i →
    at_index (mkLogEntry None 0 :: slice_from (Log rf) (k + 1)) (i - index)
    = at_index (Log rf) (i - lastIncludedIndex rf)) as Hview.
  { intros i Hlt. unfold at_index, slice_from. rewrite !decide_False by lia.
    replace (Z.to_nat (i - index)) with (S (Z.to_nat (i - index - 1))) by lia.
    rewrite <-lookup_tail. cbn [tail]. rewrite lookup_drop. f_equal. lia. }
  destruct (at_index_lt (Log rf) k) as [e He]; [lia|].
  rewrite (termAt_physical _ _ _ He). cbn. split_and!; try done.
  - unfold lastLogIndex. cbn. unfold len, slice_from in *. cbn [length].
    rewrite length_drop. lia.
  - intros i Hlt. unfold entry_at. cbn. rewrite !decide_True by lia. by apply Hview.
  - intros i Hle. unfold term_at, entry_at. cbn.
    destruct (decide (i = index)) as [->|Hne].
    + repeat (case_decide; try lia). fold k. by rewrite He.
    + repeat (case_decide; try lia). by rewrite Hview by lia.
Qed.
End RaftLog.
