(* ===== verification/RaftApply.v ===== *)
(** * RaftApply: snapshots received, and what reaches the service

    [InstallSnapshot] on the logical view of the log, the order in which
    [applyCommitted] delivers commands and snapshots to the service, and the
    voting order of [isLogUpToDate]. *)
From S2P Require Import Prelude Labgob RaftTypes Raft RaftNode RaftLog.
From stdpp Require Import base list list_numbers option.
From Stdlib Require Import ZArith Lia.
#[local] Open Scope Z_scope.

Section RaftApply.
Context {C : Type} `{GobStream (PersistentState C)}.
Notation Raft := (Raft C).
Notation LogEntry := (LogEntry C).
Notation NodeOp := (@NodeOp C).
Notation ApplyMsg := (ApplyMsg C).
Implicit Types (rf : Raft) (i pos : Z) (msgs : list ApplyMsg).

(** One turn of the applier keeps this much: something to deliver is in the log. *)
Definition covered rf : Prop := commitIndex rf <= lastLogIndex rf.

(** How the service's position moves with a message: a command must be the
    next one, a snapshot may jump. *)
Definition next_pos pos (m : ApplyMsg) : option Z :=
  if SnapshotValid m then Some (SnapshotIndex m)
  else if decide (CommandValid m = true ∧ CommandIndex m = pos + 1) then Some (pos + 1)
  else None.

Fixpoint follow pos msgs : option Z :=
  match msgs with
  | [] => Some pos
  | m :: msgs => pos ← next_pos pos m; follow pos msgs
  end.

(** The messages a step of the peer hands to the service. *)
Definition delivered (op : NodeOp) rf : list ApplyMsg :=
  match op with
  | OpApplyCommitted =>
      match snd (applyCommitted rf) with ApplySend msgs => msgs | _ => [] end
  | _ => []
  end.

(** Steps of one peer with everything it delivered on the way. *)
Inductive serves : Raft → Raft → list ApplyMsg → Prop :=
  | serves_nil rf : serves rf rf []
  | serves_step rf rf' rf'' msgs op :
      serves rf rf' msgs → op_indices_ok rf' op → covered rf' →
      exec_op op rf' = Some rf'' →
      serves rf rf'' (msgs ++ delivered op rf').

(** ** [InstallSnapshot] *)

(** Does the log hold the snapshot's last entry at physical index [i] or later? *)
Lemma retainLoop_spec fuel (args : InstallSnapshotArgs) i rf :
  1 <= i → len (Log rf) <= i + Z.of_nat fuel →
  let idx := isa_LastIncludedIndex args in
  retainLoop fuel args i rf
  = if decide (i <= idx - lastIncludedIndex rf ∧ term_at rf idx = Some (isa_LastIncludedTerm args)
               ∧ lastIncludedIndex rf < idx)
    then idx - lastIncludedIndex rf + 1 else -1.
Proof.
  intros Hi Hf idx. revert i Hi Hf. induction fuel as [|fuel IH]; intros i Hi Hf; cbn [retainLoop].
  - rewrite decide_False; [done|]. intros (? & Ht & ?).
    unfold term_at in Ht. case_decide; [lia|].
    apply fmap_Some in Ht as (e & He%entry_at_inv & _). unfold lastLogIndex in He. lia.
  - destruct (decide (i < len (Log rf))) as [Hlt|Hge].
    + assert (∀ e, at_index (Log rf) i = Some e →
        term_at rf (i + lastIncludedIndex rf) = Some (le_Term e)) as Hta.
      { intros e He. unfold term_at, entry_at. rewrite decide_False, decide_True by lia.
        replace (i + lastIncludedIndex rf - lastIncludedIndex rf) with i by lia. by rewrite He. }
      destruct (at_index_lt (Log rf) i) as [e He]; [lia|].
      rewrite (termAt_physical _ _ _ He). specialize (Hta e He). fold idx.
      destruct (decide (i + lastIncludedIndex rf = idx ∧ le_Term e = isa_LastIncludedTerm args))
        as [Hm|Hm].
      * destruct Hm as [<- Ht]. rewrite decide_True; [lia|].
        rewrite Hta, Ht. split_and!; [lia|done|lia].
      * rewrite IH by lia. fold idx. apply decide_ext. split; [naive_solver lia|].
        intros (? & Hti & ?). split_and!; [|done|done].
        destruct (decide (i + lastIncludedIndex rf = idx)) as [Heq|]; [|lia].
        rewrite Heq in Hta. naive_solver congruence.
    + rewrite decide_False; [done|]. intros (? & Ht & ?).
      unfold term_at in Ht. case_decide; [lia|].
      apply fmap_Some in Ht as (e & He%entry_at_inv & _). unfold lastLogIndex in He. lia.
Qed.

(** What [InstallSnapshot] keeps of the log. *)
Lemma retainedLog_spec (args : InstallSnapshotArgs) rf :
  Log rf ≠ [] → lastIncludedIndex rf < isa_LastIncludedIndex args →
  let idx := isa_LastIncludedIndex args in
  retainedLog args rf
  = mkLogEntry None (isa_LastIncludedTerm args) ::
    if decide (term_at rf idx = Some (isa_LastIncludedTerm args))
    then slice_from (Log rf) (idx - lastIncludedIndex rf + 1) else [].
Proof.
  intros Hl Hi idx. unfold retainedLog.
  assert (0 < len (Log rf)) as Hlen
    by (destruct (Log rf) as [|d l]; [done|rewrite len_cons; pose proof (len_nonneg l); lia]).
  rewrite retainLoop_spec by (unfold len; lia). fold idx.
  destruct (decide (term_at rf idx = _)) as [Hta|Hta].
  - rewrite (decide_True (P := _ ∧ _)) by (split_and!; [lia|done|lia]). by rewrite decide_True by lia.
  - rewrite (decide_False (P := _ ∧ _)) by tauto. by rewrite decide_False by lia.
Qed.

(** C23: A newer snapshot becomes the start of the log.  What follows it stays if
    the log holds the snapshot's last entry with the snapshot's term, and goes
    otherwise. *)
Theorem InstallSnapshot_view now (args : InstallSnapshotArgs) rf :
  Log rf ≠ [] → CurrentTerm rf <= isa_Term args →
  lastIncludedIndex rf < isa_LastIncludedIndex args →
  let idx := isa_LastIncludedIndex args in
  let rf' := fst (InstallSnapshot now args zeroISReply rf) in
  lastIncludedIndex rf' = idx ∧ snapshot rf' = isa_Data args
  ∧ term_at rf' idx = Some (isa_LastIncludedTerm args)
  ∧ applySnapshot rf' = true ∧ idx <= lastApplied rf' ∧ idx <= commitIndex rf'
  ∧ if decide (term_at rf idx = Some (isa_LastIncludedTerm args))
    then lastLogIndex rf' = lastLogIndex rf ∧ ∀ i, idx < i → entry_at rf' i = entry_at rf i
    else lastLogIndex rf' = idx.
Proof.
  intros Hl Ht Hi idx rf'. subst rf'.
  pose proof (InstallSnapshot_cases now args zeroISReply rf) as Hc. cbv zeta in Hc.
  destruct Hc as [[_ ?]|[_ [[_ ?]|[_ ->]]]]; [lia|lia|].
  split; [done|]. split; [done|]. split.
  { unfold term_at. cbn. by rewrite decide_True. }
  split; [done|]. split; [cbn; lia|]. split; [cbn; lia|].
  unfold lastLogIndex, entry_at. cbn. rewrite retainedLog_spec by done. fold idx.
  destruct (decide (term_at rf idx = _)) as [Hta|Hta]; [|unfold len; cbn; lia].
  unfold term_at in Hta. rewrite decide_False in Hta by lia.
  apply fmap_Some in Hta as (e & He%entry_at_inv & _). unfold lastLogIndex in He.
  rewrite len_cons, len_slice_from_list by lia. split; [lia|].
  intros i Hlt. rewrite !decide_True by lia.
  rewrite at_index_cons, at_index_slice_from by lia. f_equal. lia.
Qed.

(** ** Delivery *)

Lemma seqZ_lookup_Z low n k : (k < n)%nat → seqZ low (Z.of_nat n) !! k = Some (low + Z.of_nat k).
Proof. intros. apply lookup_seqZ. lia. Qed.

Lemma omap_total {A B} (f : A → option B) (l : list A) :
  (∀ x, x ∈ l → is_Some (f x)) → ∀ k, omap f l !! k = (l !! k) ≫= f.
Proof.
  induction l as [|x l IH]; intros Hf k; [done|].
  destruct (Hf x) as [y Hy]; [apply list_elem_of_here|]. cbn. rewrite Hy. destruct k as [|k].
  - cbn. by rewrite Hy.
  - cbn. apply IH. intros z Hz. apply Hf. by apply list_elem_of_further.
Qed.

Lemma length_omap_le {A B} (f : A → option B) (l : list A) : (length (omap f l) <= length l)%nat.
Proof. induction l as [|x l IH]; [done|]. cbn. destruct (f x); cbn; lia. Qed.

Definition command_msg i (e : LogEntry) : ApplyMsg :=
  mkApplyMsg true (le_Command e) i false [] 0 0.

Lemma entriesToApply_lookup rf low n k :
  lastIncludedIndex rf < low → low + Z.of_nat n - 1 <= lastLogIndex rf → (k < n)%nat →
  ∃ e, entry_at rf (low + Z.of_nat k) = Some e
    ∧ entriesToApply rf low (low + Z.of_nat n - 1) !! k = Some (command_msg (low + Z.of_nat k) e).
Proof.
  intros Hlow Hhi Hk. unfold entriesToApply.
  replace (low + Z.of_nat n - 1 - low + 1) with (Z.of_nat n) by lia.
  assert (∀ i, low <= i < low + Z.of_nat n → ∃ e, entry_at rf i = Some e ∧
    (if decide (toPhysicalIndex rf i > 0 ∧ toPhysicalIndex rf i < len (Log rf)) then
       e ← at_index (Log rf) (toPhysicalIndex rf i);
       Some (mkApplyMsg true (le_Command e) i false [] 0 0)
     else None) = Some (command_msg i e)) as Hin.
  { intros i Hi. destruct (entry_at_Some rf i) as [e He]; [lia|]. exists e. split; [done|].
    unfold lastLogIndex in Hhi. unfold toPhysicalIndex. rewrite decide_True by lia.
    unfold entry_at in He. rewrite decide_True in He by lia. by rewrite He. }
  destruct (Hin (low + Z.of_nat k)) as (e & He & Hm); [lia|]. exists e. split; [done|].
  rewrite omap_total, seqZ_lookup_Z by
    first [done|intros i Hi%elem_of_seqZ; destruct (Hin i) as (? & _ & ->); [lia|done]].
  exact Hm.
Qed.

Lemma entriesToApply_length rf low n :
  lastIncludedIndex rf < low → low + Z.of_nat n - 1 <= lastLogIndex rf →
  length (entriesToApply rf low (low + Z.of_nat n - 1)) = n.
Proof.
  intros Hlow Hhi. set (l := entriesToApply _ _ _).
  assert (length l <= n)%nat as Hle.
  { subst l. unfold entriesToApply. etrans; [apply length_omap_le|].
    rewrite length_seqZ. lia. }
  destruct n as [|n]; [lia|].
  destruct (entriesToApply_lookup rf low (S n) n Hlow Hhi) as (e & _ & Hl%lookup_lt_Some); [lia|].
  fold l in Hl. lia.
Qed.

(** One turn of the applier, on every branch. *)
Lemma applyCommitted_turn rf :
  ordered (indices_of rf) → covered rf → killed rf = false →
  let '(rf', r) := applyCommitted rf in
  match r with
  | ApplyExit => False
  | ApplyWait => commitIndex rf = lastApplied rf ∧ applySnapshot rf = false
      ∧ lastApplied rf' = lastApplied rf ∧ applySnapshot rf' = false
  | ApplySend msgs =>
      applySnapshot rf' = false ∧
      if applySnapshot rf
      then lastApplied rf' = lastIncludedIndex rf ∧
        msgs = [mkApplyMsg false None 0 true (snapshot rf) (lastIncludedTerm rf)
                  (lastIncludedIndex rf)]
      else lastApplied rf' = commitIndex rf ∧ len msgs = commitIndex rf - lastApplied rf ∧
        ∀ k : nat, (k < length msgs)%nat → ∃ e,
          entry_at rf (lastApplied rf + 1 + Z.of_nat k) = Some e ∧
          msgs !! k = Some (command_msg (lastApplied rf + 1 + Z.of_nat k) e)
  end.
Proof.
  unfold ordered, indices_of, covered. intros Ho Hc Hk. unfold applyCommitted. rewrite Hk.
  destruct (decide (false = false ∧ commitIndex rf <= lastApplied rf ∧ applySnapshot rf = false))
    as [(_ & ? & ?)|Hn].
  { cbn. split_and!; try done. lia. }
  destruct (applySnapshot rf) eqn:Hs.
  { rewrite (decide_True (P := _ ∨ _)) by auto. done. }
  assert (lastApplied rf < commitIndex rf) as Hlt.
  { destruct (decide (commitIndex rf <= lastApplied rf)); [|lia]. destruct Hn. done. }
  rewrite (decide_False (P := _ ∨ _)) by (intros [?|?]; [lia|done]).
  split; [done|]. split; [done|].
  set (n := Z.to_nat (commitIndex rf - lastApplied rf)).
  replace (commitIndex rf) with (lastApplied rf + 1 + Z.of_nat n - 1) by lia.
  unfold len. rewrite entriesToApply_length by lia. split; [lia|].
  intros k Hlen. apply entriesToApply_lookup; lia.
Qed.

Lemma follow_app pos msgs1 msgs2 :
  follow pos (msgs1 ++ msgs2) = follow pos msgs1 ≫= λ pos, follow pos msgs2.
Proof.
  revert pos. induction msgs1 as [|m msgs1 IH]; intros pos; [done|].
  cbn [follow app]. destruct (next_pos pos m); cbn; [apply IH|done].
Qed.

Lemma follow_commands pos msgs :
  (∀ k : nat, (k < length msgs)%nat →
     ∃ e, msgs !! k = Some (command_msg (pos + 1 + Z.of_nat k) e)) →
  follow pos msgs = Some (pos + len msgs).
Proof.
  revert pos. induction msgs as [|m msgs IH]; intros pos Hm.
  - cbn. f_equal. unfold len. cbn. lia.
  - destruct (Hm 0%nat) as (e & He); [cbn; lia|]. injection He as ->.
    cbn [follow]. unfold next_pos. cbn [SnapshotValid command_msg CommandValid CommandIndex].
    rewrite decide_True by (split; [done|lia]). cbn [mbind option_bind].
    rewrite IH; [f_equal; rewrite len_cons; lia|].
    intros k Hk. destruct (Hm (S k)) as (e' & He'); [cbn; lia|].
    exists e'. etrans; [exact He'|]. do 2 f_equal. lia.
Qed.

(** What the applier works on stays: a killed peer stays killed, and what was
    applied and whether a snapshot waits does not change. *)
Definition applied_same rf rf' : Prop :=
  (killed rf' = false → killed rf = false) ∧
  lastApplied rf' = lastApplied rf ∧ applySnapshot rf' = applySnapshot rf.

Lemma applied_refl rf : applied_same rf rf.
Proof. done. Qed.

Lemma applied_trans rf1 rf2 rf3 :
  applied_same rf1 rf2 → applied_same rf2 rf3 → applied_same rf1 rf3.
Proof. unfold applied_same. intuition congruence. Qed.

Lemma applied_stepDown now t rf : applied_same rf (fst (stepDown now t rf)).
Proof. by destruct (stepDown_cases now t rf) as [[-> _]|[_ ->]]. Qed.

Lemma applied_commit lc ln rf : applied_same rf (updateFollowerCommitIndex lc ln rf).
Proof. by destruct (updateFollowerCommitIndex_cases lc ln rf) as [[-> _]|[-> _]]. Qed.

Lemma applied_handleSendAppendEntries now peer args reply rf rf' :
  handleSendAppendEntries now peer args reply rf = Some rf' → applied_same rf rf'.
Proof.
  unfold handleSendAppendEntries, set_nextIndex, updateLeaderCommitIndex. intros Hx.
  case_decide; [injection Hx as <-; apply applied_refl|].
  pose proof (applied_stepDown now (aer_Term reply) rf) as Hs.
  destruct (stepDown now (aer_Term reply) rf) as [rf1 []]; [by injection Hx as <-|].
  eapply applied_trans; [exact Hs|]. destruct (aer_Success reply).
  - apply bind_Some in Hx as (rf2 & (ms & ns & -> & _)%updateMatchAndNextIndex_frame & Hx).
    by apply commitLoop_cases in Hx as [->|(M & _ & ->)].
  - repeat case_decide; by apply bind_Some in Hx as (l & _ & [= <-]).
Qed.

(** A snapshot that is included already changes nothing here. *)
Lemma applied_InstallSnapshot now args reply rf :
  applied_same rf (fst (InstallSnapshot now args reply rf)) ∨
  (lastIncludedIndex rf < isa_LastIncludedIndex args ∧
   (killed (fst (InstallSnapshot now args reply rf)) = false → killed rf = false) ∧
   applySnapshot (fst (InstallSnapshot now args reply rf)) = true).
Proof.
  pose proof (InstallSnapshot_cases now args reply rf) as Hc. cbv zeta in Hc.
  destruct Hc as [[-> _]|[_ [[-> _]|[? ->]]]]; [by left|by left|by right].
Qed.

(** Only the applier moves [lastApplied], apart from a snapshot that was
    installed. *)
Lemma exec_op_same op rf rf' :
  match op with OpApplyCommitted | OpInstallSnapshot _ _ => False | _ => True end →
  exec_op op rf = Some rf' → applied_same rf rf'.
Proof.
  intros Hne Hx. destruct op; try done; cbn in Hx; try (injection Hx as <-); try done.
  - unfold Snapshot. by repeat case_decide.
  - pose proof (RequestVote_cases now args zeroRVReply rf) as Hc. cbv zeta in Hc.
    pose proof (applied_stepDown now (rva_Term args) rf) as Hs.
    by destruct Hc as [[-> _]|[_ [[-> _]|[-> _]]]].
  - pose proof (AppendEntries_cases now args zeroAEReply rf) as Hc. cbv zeta in Hc.
    pose proof (applied_stepDown now (aea_Term args) rf) as Hs.
    destruct Hc as [[-> _]|[_ [->|(l & _ & ->)]]]; [done|exact Hs|].
    eapply applied_trans; [exact Hs|]. eapply applied_trans; [|apply applied_commit]. done.
  - unfold Start. by case_decide.
  - unfold ticker. by repeat (case_decide; cbn [fst]).
  - unfold handleRequestVoteReply, becomeLeader.
    pose proof (applied_stepDown now (rvr_Term reply) rf) as Hs.
    by repeat (case_decide; cbn [fst]).
  - by eapply applied_handleSendAppendEntries.
  - unfold handleInstallSnapshot_reply in Hx. case_decide; [by injection Hx as <-|].
    pose proof (applied_stepDown now (isr_Term reply) rf) as Hs.
    destruct (stepDown now (isr_Term reply) rf) as [rf1 []]; [by injection Hx as <-|].
    eapply applied_trans; [exact Hs|].
    by apply updateMatchAndNextIndex_frame in Hx as (ms & ns & -> & _).
  - by apply bind_Some in Hx as (l & _ & [= <-]).
Qed.

Lemma exec_op_applied op rf rf' :
  op ≠ OpApplyCommitted → exec_op op rf = Some rf' →
  (killed rf' = false → killed rf = false) ∧
  ((lastApplied rf' = lastApplied rf ∧ applySnapshot rf' = applySnapshot rf)
   ∨ applySnapshot rf' = true).
Proof.
  intros Hne Hx. pose proof (λ h, exec_op_same op rf rf' h Hx) as Hs.
  destruct op as [| | |t args| | | | | | | | |]; try done; try (by destruct (Hs I) as (? & ? & ?); auto).
  cbn in Hx. injection Hx as <-.
  destruct (applied_InstallSnapshot t args zeroISReply rf) as [[? ?]|(_ & ? & ?)]; auto.
Qed.

Lemma applyCommitted_killed rf : killed (fst (applyCommitted rf)) = false → killed rf = false.
Proof.
  unfold applyCommitted. case_decide; [tauto|].
  destruct (killed rf) eqn:Hk; [cbn; congruence|done].
Qed.

Lemma exec_op_ordered op rf rf' :
  ordered (indices_of rf) → op_indices_ok rf op → exec_op op rf = Some rf' →
  ordered (indices_of rf').
Proof. intros Ho Hok Hx. by destruct (exec_op_indices op rf rf' Ho Hok Hx). Qed.

(** Between two turns of the applier the service is at [lastApplied], or an
    installed snapshot is waiting for it. *)
Definition at_pos pos rf : Prop := applySnapshot rf = true ∨ lastApplied rf = pos.

Lemma serves_pos rf rf' msgs :
  ordered (indices_of rf) → killed rf' = false → applySnapshot rf = false →
  serves rf rf' msgs →
  ordered (indices_of rf') ∧
  ∃ pos, follow (lastApplied rf) msgs = Some pos ∧ at_pos pos rf'.
Proof.
  intros Ho Hk Hs Hserve. revert Ho Hk Hs.
  induction Hserve as [rf|rf rf1 rf2 msgs op _ IH Hok Hc Hx]; intros Ho Hk Hs.
  { split; [done|]. exists (lastApplied rf). split; [done|by right]. }
  assert (op = OpApplyCommitted ∨ op ≠ OpApplyCommitted) as Hop by (destruct op; auto).
  assert (killed rf1 = false) as Hk1.
  { destruct Hop as [->|Hne]; [|by apply (exec_op_applied _ _ _ Hne Hx)].
    injection Hx as <-. by apply applyCommitted_killed. }
  destruct (IH Ho Hk1 Hs) as (Ho1 & pos & Hf & Hp). split; [by eapply exec_op_ordered|].
  rewrite follow_app, Hf. cbn [mbind option_bind].
  destruct Hop as [->|Hne].
  - cbn [delivered]. pose proof (applyCommitted_turn rf1 Ho1 Hc Hk1) as Ht.
    injection Hx as <-. destruct (applyCommitted rf1) as [rf2 []]; cbn [fst snd].
    + destruct Ht as (_ & ? & Hl & _). exists pos. split; [done|]. right.
      destruct Hp; [congruence|by rewrite Hl].
    + done.
    + destruct Ht as (Hs2 & Ht). destruct (applySnapshot rf1) eqn:Hs1.
      * destruct Ht as (Hl & ->). eexists. split; [reflexivity|]. by right.
      * destruct Hp as [?|<-]; [congruence|]. destruct Ht as (Hl & Hlen & Hm).
        exists (lastApplied rf1 + len msgs0). split; [|right; lia].
        apply follow_commands. intros k Hlt. destruct (Hm k Hlt) as (e & _ & He).
        by exists e.
  - exists pos. assert (delivered op rf1 = []) as -> by (by destruct op).
    split; [done|]. destruct (exec_op_applied _ _ _ Hne Hx) as [_ [[Hl Hs2]|Hs2]].
    + destruct Hp as [?|Hp]; [left; congruence|right; congruence].
    + by left.
Qed.

(** What the service receives while a peer runs: the next command every time,
    or a snapshot to continue from.  It ends at [lastApplied], unless a
    snapshot is waiting. *)
Theorem delivery_in_order rf rf' msgs :
  ordered (indices_of rf) → killed rf' = false → applySnapshot rf = false →
  serves rf rf' msgs →
  ∃ pos, follow (lastApplied rf) msgs = Some pos
    ∧ (applySnapshot rf' = false → pos = lastApplied rf').
Proof.
  intros Ho Hk Hs Hserve. destruct (serves_pos _ _ _ Ho Hk Hs Hserve) as (_ & pos & Hf & Hp).
  exists pos. split; [done|]. intros Hs'. destruct Hp; congruence.
Qed.

(** ** Which logs win votes *)

(** The position a vote compares: last term, then last index. *)
Definition last_pos rf : Z * Z := (lastLogIndexTerm rf, lastLogIndex rf).

Definition pos_le (p q : Z * Z) : Prop := p.1 < q.1 ∨ (p.1 = q.1 ∧ p.2 <= q.2).

#[export] Instance pos_le_preorder : PreOrder pos_le.
Proof. split; [intros [??]; unfold pos_le; cbn; lia|intros [??] [??] [??]; unfold pos_le; cbn; lia]. Qed.

(** [isLogUpToDate] compares last terms first and last indices second. *)
Theorem isLogUpToDate_spec rf candidateIndex candidateTerm :
  isLogUpToDate rf candidateIndex candidateTerm = true
  ↔ pos_le (last_pos rf) (candidateTerm, candidateIndex).
Proof.
  unfold isLogUpToDate, pos_le, last_pos. cbn [fst snd].
  case_decide; rewrite bool_decide_eq_true; lia.
Qed.

(** ** Elections are for followers *)

(** C30: Whatever the ticker drew, a leader does not stand against itself: it sends
    its heartbeat or waits, and its term and vote stay.  The timeouts drawn are
    200 to 400 milliseconds, more than the 100 between heartbeats. *)
Theorem leader_never_stands now rnd rnd' rf :
  0 <= rnd' → status rf = Leader →
  let timeout := randomElectionTimeout rnd' in
  200 * millisecond <= timeout <= 400 * millisecond ∧
  let '(rf', timeout', r) := ticker now rnd timeout rf in
  timeout' = timeout ∧ voter_of rf' = voter_of rf
  ∧ ((now - lastHeartbeat rf < 100 * millisecond ∧ rf' = rf ∧ r = TickIdle)
     ∨ (100 * millisecond <= now - lastHeartbeat rf ∧ lastHeartbeat rf' = now ∧ r = TickHeartbeat)).
Proof.
  intros Hr Hs timeout. unfold millisecond.
  assert (200 * 1000000 <= timeout <= 400 * 1000000) as Ht.
  { subst timeout. unfold randomElectionTimeout, millisecond.
    pose proof (Z.rem_bound_pos rnd' 201 Hr). lia. }
  split; [exact Ht|]. clearbody timeout. unfold ticker, millisecond.
  case_decide as Hh.
  - split_and!; [done|done|]. right. split_and!; [lia|done|done].
  - assert (now - lastHeartbeat rf < 100 * 1000000) 
      by (apply Z.nle_gt; intros ?; apply Hh; split; [done|lia]).
    rewrite decide_False by lia. split_and!; [done|done|]. left. split_and!; done.
Qed.
End RaftApply.
