(* ===== verification/RaftSnapshots.v ===== *)
(** * RaftSnapshots: where the snapshots of a cluster come from

    A snapshot that a peer of [src/src/raft/raft.go] holds, stores, sends or hands to
    its service was made by some service, for the index it is kept with, whichever
    way it took: by [handleInstallSnapshot] from another peer, by a restart from the
    persister, or both.  Clusters whose services never make one never install
    or deliver one. *)
From stdpp Require Import base gmap list_numbers option list.
From Stdlib Require Import ZArith Lia.
From S2P Require Import Prelude Labgob RaftTypes Raft RaftNode RaftCluster RaftElection RaftLog RaftApply.
#[local] Open Scope Z_scope.

Section RaftSnapshots.
Context {C : Type} `{GobLaws (PersistentState C)}.
Notation Raft := (Raft C).
Notation World := (@World C).
Notation Packet := (@Packet C).
Notation Event := (@Event C).
Implicit Types (rf : Raft) (w : World) (e : Event) (es : list Event) (i p q k : nat) (now : Z).

(** ** The operations that touch the snapshot of a peer *)

Definition same_snapshot rf rf' : Prop :=
  lastIncludedIndex rf' = lastIncludedIndex rf ∧ snapshot rf' = snapshot rf.

Lemma same_snapshot_stepDown now t rf : same_snapshot rf (fst (stepDown now t rf)).
Proof. by destruct (stepDown_cases now t rf) as [[-> _]|[_ ->]]. Qed.

Lemma same_snapshot_trans rf1 rf2 rf3 :
  same_snapshot rf1 rf2 → same_snapshot rf2 rf3 → same_snapshot rf1 rf3.
Proof. unfold same_snapshot. intuition congruence. Qed.

Lemma same_snapshot_AppendReply now peer args reply rf rf' :
  handleSendAppendEntries now peer args reply rf = Some rf' → same_snapshot rf rf'.
Proof.
  unfold handleSendAppendEntries, set_nextIndex, updateLeaderCommitIndex. intros Hx.
  case_decide; [by injection Hx as <-|].
  pose proof (same_snapshot_stepDown now (aer_Term reply) rf) as Hs.
  destruct (stepDown now (aer_Term reply) rf) as [rf1 []]; [by injection Hx as <-|].
  eapply same_snapshot_trans; [exact Hs|]. destruct (aer_Success reply).
  - apply bind_Some in Hx as (rf2 & (ms & ns & -> & _)%updateMatchAndNextIndex_frame & Hx).
    by apply commitLoop_cases in Hx as [->|(M & _ & ->)].
  - repeat case_decide; by apply bind_Some in Hx as (l & _ & [= <-]).
Qed.

Lemma exec_op_same_snapshot op rf rf' :
  match op with OpSnapshot _ _ | OpInstallSnapshot _ _ => False | _ => True end →
  exec_op op rf = Some rf' → same_snapshot rf rf'.
Proof.
  intros Hne Hx. destruct op; try done; cbn in Hx; try (injection Hx as <-); try done.
  - pose proof (RequestVote_cases now args zeroRVReply rf) as Hc. cbv zeta in Hc.
    pose proof (same_snapshot_stepDown now (rva_Term args) rf) as Hs.
    by destruct Hc as [[-> _]|[_ [[-> _]|[-> _]]]].
  - pose proof (AppendEntries_cases now args zeroAEReply rf) as Hc. cbv zeta in Hc.
    pose proof (same_snapshot_stepDown now (aea_Term args) rf) as Hs.
    destruct Hc as [[-> _]|[_ [->|(l & _ & ->)]]]; [done|exact Hs|].
    eapply same_snapshot_trans; [exact Hs|].
    match goal with |- context [updateFollowerCommitIndex ?a ?b ?r] =>
      by destruct (updateFollowerCommitIndex_cases a b r) as [[-> _]|[-> _]] end.
  - unfold Start. by case_decide.
  - unfold ticker. by repeat (case_decide; cbn [fst]).
  - unfold handleRequestVoteReply, becomeLeader.
    pose proof (same_snapshot_stepDown now (rvr_Term reply) rf) as Hs.
    by repeat (case_decide; cbn [fst]).
  - by eapply same_snapshot_AppendReply.
  - unfold handleInstallSnapshot_reply in Hx. case_decide; [by injection Hx as <-|].
    pose proof (same_snapshot_stepDown now (isr_Term reply) rf) as Hs.
    destruct (stepDown now (isr_Term reply) rf) as [rf1 []]; [by injection Hx as <-|].
    eapply same_snapshot_trans; [exact Hs|].
    by apply updateMatchAndNextIndex_frame in Hx as (ms & ns & -> & _).
  - by apply bind_Some in Hx as (l & _ & [= <-]).
  - unfold applyCommitted. case_decide; [done|]. destruct (killed rf); [done|]. by case_decide.
Qed.

(** A restart applies what the snapshot covers. *)
Lemma Make_applier n me' ps now st gs r :
  stored ps = Some st → Make n me' ps now = Some (r, gs) →
  lastApplied (C:=C) r = Z.max 0 (lastIncludedIndex r) ∧ applySnapshot r = false.
Proof.
  intros Hst Hm. unfold Make, readPersist in Hm. cbn [persister] in Hm.
  case_decide; [by injection Hm as <-|].
  destruct (Decode _) as [[[[[ct vf] l] li] lt]|]; [|done]. cbn [mbind option_bind] in Hm.
  repeat (case_decide; cbn in Hm); injection Hm as <-; cbn in *; split; done || lia.
Qed.

(** ** What the services made *)

(** Some service made the snapshot for the index. *)
Definition made es (index : Z) (s : bytes) : Prop := ∃ i, ESnapshot i index s ∈ es.

Definition origin_ok es rf : Prop :=
  durable rf ∧ 0 <= lastIncludedIndex rf ∧ 0 <= lastApplied rf ∧
  (applySnapshot rf = true → 0 < lastIncludedIndex rf) ∧
  (0 < lastIncludedIndex rf → made es (lastIncludedIndex rf) (snapshot rf)).

(** A snapshot on its way comes from the services. *)
Definition carried_ok es (pk : Packet) : Prop :=
  match pk with
  | ISReq _ _ args => 0 < isa_LastIncludedIndex args → made es (isa_LastIncludedIndex args) (isa_Data args)
  | _ => True
  end.

Definition origins es w : Prop :=
  (∀ p rf, nodes w !! p = Some rf → origin_ok es rf) ∧ ∀ pk, pk ∈ net w → carried_ok es pk.

Lemma made_snoc es e index s : made es index s → made (es ++ [e]) index s.
Proof. intros [i Hi]. exists i. apply elem_of_app. by left. Qed.

Lemma carried_snoc es e pk : carried_ok es pk → carried_ok (es ++ [e]) pk.
Proof. destruct pk; try done. cbn. eauto using made_snoc. Qed.

Lemma origin_snoc es e rf : origin_ok es rf → origin_ok (es ++ [e]) rf.
Proof. intros (? & ? & ? & ? & ?). split_and!; eauto using made_snoc. Qed.

Lemma origin_Snapshot es p index s rf :
  origin_ok es rf → origin_ok (es ++ [ESnapshot p index s]) (Snapshot index s rf).
Proof.
  intros Ho. pose proof Ho as (Hd & Hi & Ha & Hs & Hm).
  assert (Snapshot index s rf = rf ∨ (lastIncludedIndex (Snapshot index s rf) = index ∧
    snapshot (Snapshot index s rf) = s ∧ lastIncludedIndex rf < index)) as [->|(Ei & Es & Hlt)].
  { unfold Snapshot. repeat case_decide; cbn; auto; right; split_and!; done || lia. }
  { by apply origin_snoc. }
  assert (lastApplied (Snapshot index s rf) = lastApplied rf) as Ea
    by (unfold Snapshot; by repeat case_decide).
  split; [by apply durable_Snapshot|]. rewrite Ei, Es, Ea. split; [lia|]. split; [done|]. split; [lia|].
  intros _. exists p. apply elem_of_app. right. by left.
Qed.

Lemma origin_install es now args rf :
  origin_ok es rf → (0 < isa_LastIncludedIndex args → made es (isa_LastIncludedIndex args) (isa_Data args)) →
  origin_ok es (fst (InstallSnapshot now args zeroISReply rf)).
Proof.
  intros (Hd & Hi & Ha & Hs & Hm) Hargs.
  pose proof (exec_op_durable (OpInstallSnapshot now args) rf _ Hd eq_refl) as Hd'.
  pose proof (InstallSnapshot_cases now args zeroISReply rf) as Hc. cbv zeta in Hc.
  split; [exact Hd'|]. clear Hd'.
  destruct Hc as [[-> _]|[_ [[-> _]|[? ->]]]]; cbn; [done|done|]. split_and!; try lia. intros _. apply Hargs. lia.
Qed.

Lemma origin_applied es rf : origin_ok es rf → origin_ok es (fst (applyCommitted rf)).
Proof.
  intros Ho. pose proof Ho as (Hd & Hi & Ha & Hs & Hm).
  pose proof (exec_op_durable OpApplyCommitted rf _ Hd eq_refl) as Hd'. split; [exact Hd'|]. clear Hd'.
  unfold applyCommitted. case_decide; [done|].
  destruct (killed rf) eqn:Hk; [done|]. case_decide as Hc; cbn; split_and!; try done.
  destruct (decide (commitIndex rf <= lastApplied rf)); [|lia].
  destruct (applySnapshot rf) eqn:E; [destruct Hc; by right|tauto].
Qed.

Lemma origin_op es w e p op rf rf' :
  origins es w → nodes w !! p = Some rf → exec_op op rf = Some rf' → caused w e p op →
  origin_ok (es ++ [e]) rf'.
Proof.
  intros [Hn Hpk] Hp Hx Hca. pose proof (Hn _ _ Hp) as Ho.
  pose proof (λ h, exec_op_same_snapshot op rf rf' h Hx) as Hss. pose proof (λ h, exec_op_same op rf rf' h Hx) as Has.
  pose proof (exec_op_durable _ _ _ (proj1 Ho) Hx) as Hd'.
  destruct op as [index s| | |t args| | | | | | | | |];
    try (destruct (Hss I) as [Ei Es], (Has I) as (_ & Ea & Eap);
         destruct (origin_snoc _ e _ Ho) as (_ & ? & ? & ? & ?); split; [exact Hd'|]; rewrite Ei, Es, Ea, Eap; done).
  - cbn in Hca, Hx. subst e. injection Hx as <-. by apply origin_Snapshot.
  - destruct Hca as (k & l & -> & Hk). cbn in Hx. injection Hx as <-. apply origin_snoc, origin_install; [done|].
    apply (Hpk _ (list_elem_of_lookup_2 _ _ _ Hk)).
  - cbn in Hx. injection Hx as <-. by apply origin_snoc, origin_applied.
Qed.

Lemma origin_restart es w p rf rf' now gs :
  origins es w → nodes w !! p = Some rf →
  Make (peers rf) (me rf) (persister rf) now = Some (rf', gs) → origin_ok es rf'.
Proof.
  intros [Hn _] Hp Hm. destruct (Hn _ _ Hp) as ([Hst Hsn] & Hi & Ha & Hs & Hmade).
  destruct (Make_applier _ _ _ _ _ _ _ Hst Hm) as [Ea Eap].
  destruct (Make_stored (peers rf) (me rf) _ now _ Hst) as (r & Hm' & Hps & Hsnap & Hpr & _).
  rewrite Hm' in Hm. injection Hm as -> _.
  assert (durable rf') as Hd by (unfold durable; by rewrite Hpr, Hst, Hps, Hsnap).
  unfold persistentState in Hps. injection Hps as _ _ _ Ei _.
  split; [done|]. rewrite Ea, Eap, Ei, Hsnap, Hsn. split_and!; try done; lia.
Qed.

Lemma take_packet_sub w k pk x : net w !! k = Some pk → x ∈ net (take_packet k w) → x ∈ net w.
Proof. intros Hk Hx. rewrite (delete_Permutation (net w) k pk Hk). by right. Qed.

(** What an event sends: entries are those a worker of the sender made ready, a
    snapshot is that of the sender. *)
Definition carries_log (pk : Packet) : Prop :=
  match pk with AEReq _ _ _ | ISReq _ _ _ => True | _ => False end.

Lemma exec_net w e w' pk :
  exec w e = Some w' → pk ∈ net w' →
  pk ∈ net w ∨
  match pk with
  | AEReq l p args => e = EWorker l p ∧ ∃ rf, nodes w !! l = Some rf ∧ heartbeatWorker p rf = Some (WorkerSend args)
  | ISReq l p args => ∃ rf, nodes w !! l = Some rf ∧ isa_LastIncludedIndex args = lastIncludedIndex rf
                        ∧ isa_Data args = snapshot rf
  | _ => True
  end.
Proof.
  intros Hx Hin. assert (carries_log pk ∨ ¬ carries_log pk) as [Hc|Hn] by (destruct pk; cbn; tauto);
    [|by right; destruct pk; try done; destruct Hn].
  assert (∀ w0 x, (pk ∈ net w0 → pk ∈ net w) → ¬ carries_log x → pk ∈ net (send [x] w0) → pk ∈ net w) as Hone.
  { intros w0 x Hw0 Hn [?|E%list_elem_of_singleton]%elem_of_app; [auto|by subst pk]. }
  destruct e as [i command|i index sn|i|i now rnd timeout|i|i|c q|i now|k now|k]; cbn [exec] in Hx;
    try (apply run_op_Some in Hx as (rf & rf' & _ & _ & ->); by left).
  - left. unfold tick in Hx. apply bind_Some in Hx as (rf & Hi & Hx).
    destruct (ticker now rnd timeout rf) as [[rf1 t'] result].
    apply bind_Some in Hx as (w1 & (? & ? & _ & _ & ->)%run_op_Some & [= <-]).
    destruct result as [|v gs|]; try done. apply elem_of_app in Hin as [?|Hg]; [done|].
    apply list_elem_of_omap in Hg as (g & _ & Hg). by destruct g; simplify_eq.
  - unfold worker in Hx. case_decide; [done|].
    apply bind_Some in Hx as (rf & Hi & (result & Hr & Hx)%bind_Some). destruct result as [| |a].
    + left. injection Hx as <-. eapply (Hone w); [done| |exact Hin]. by intros [].
    + left. apply bind_Some in Hx as (w1 & (? & ? & _ & _ & ->)%run_op_Some & [= <-]).
      eapply (Hone w); [done| |exact Hin]. by intros [].
    + injection Hx as <-. apply elem_of_app in Hin as [?| ->%list_elem_of_singleton]; [by left|right].
      split; [done|]. by exists rf.
  - left. unfold restart in Hx. apply bind_Some in Hx as (rf & Hi & ([r gs] & Hm & [= <-])%bind_Some). done.
  - apply bind_Some in Hx as (x & Hk & Hx). pose proof (λ y, take_packet_sub w k x y Hk) as Htake.
    destruct x as [c q a|c q a r|c q a|c q a r|c q|c q a|c q a r|c q]; cbn [deliver] in Hx;
      try (left; repeat match type of Hx with mbind _ _ = _ => apply bind_Some in Hx as (? & ? & Hx) end;
        repeat match goal with E : run_op _ _ _ = _ |- _ => apply run_op_Some in E as (? & ? & _ & _ & ->) end;
        try injection Hx as <-; first [exact (Htake _ Hin)|eapply Hone; [exact (Htake _)| |exact Hin]; by intros []]).
    apply bind_Some in Hx as (rf & Hi & (result & Hr & [= <-])%bind_Some).
    destruct result as [args'|]; [|left; eapply Hone; [exact (Htake _)| |exact Hin]; by intros []].
    apply elem_of_app in Hin as [?| ->%list_elem_of_singleton]; [left; by apply Htake|right].
    exists rf. split; [done|]. unfold handleInstallSnapshot_args in Hr. case_decide; [done|].
    apply bind_Some in Hr as (m & _ & Hr). case_decide; [done|]. by injection Hr as <-.
  - left. apply bind_Some in Hx as (x & Hk & Hx). pose proof (λ y, take_packet_sub w k x y Hk) as Htake.
    destruct x; cbn in Hx; simplify_eq; try (by apply Htake);
      (eapply Hone; [exact (Htake _)| |exact Hin]; by intros []).
Qed.

Lemma origins_step es w e w' : origins es w → exec w e = Some w' → origins (es ++ [e]) w'.
Proof.
  intros Ho Hx. split.
  - intros p rf' Hp. destruct (exec_nodes _ _ _ _ _ Hx Hp) as (rf & Hp0 & Hfrom).
    destruct Hfrom as [->|[(op & Hop & Hca)|(now & gs & Hm & _)]].
    + by apply origin_snoc, (proj1 Ho p).
    + by eapply origin_op.
    + by eapply origin_snoc, origin_restart.
  - intros pk Hin. destruct (exec_net _ _ _ _ Hx Hin) as [Hold|Hnew]; [by apply carried_snoc, Ho|].
    destruct pk as [| | | | |l p args| |]; try done. destruct Hnew as (rf & Hl & Ei & Ed). cbn. rewrite Ei, Ed.
    destruct (proj1 Ho _ _ Hl) as (_ & _ & _ & _ & Hm). intros Hpos. by apply made_snoc, Hm.
Qed.

Lemma run_world_snoc es e (w : World) : run (es ++ [e]) w = (w' ← run es w; exec w' e).
Proof. unfold run. by rewrite foldl_app. Qed.

Lemma origins_run n w0 es w : boot n = Some w0 → run es w0 = Some w → origins es w.
Proof.
  intros Hb. revert w. induction es as [|e es IH] using rev_ind; intros w Hr.
  - injection Hr as <-. apply boot_nodes in Hb as (_ & Hnet & _ & Hnodes). split.
    + intros p rf Hp. destruct (Hnodes _ _ Hp) as [gs Hm].
      assert (stored (C:=C) MakePersister = Some (0, -1, [mkLogEntry None 0], 0, -1)) as Hst by done.
      destruct (Make_stored n p _ 0 _ Hst) as (r & Hm' & Hps & Hsn & Hpr & _).
      rewrite Hm' in Hm. injection Hm as -> _. destruct (Make_applier _ _ _ _ _ _ _ Hst Hm') as [Ea Eap].
      assert (durable rf) as Hd by (unfold durable; by rewrite Hpr, Hst, Hps, Hsn).
      unfold persistentState in Hps. injection Hps as _ _ _ Ei _.
      split; [done|]. rewrite Ea, Eap, Ei. split_and!; try done; lia.
    + intros pk Hin. rewrite Hnet in Hin. by apply elem_of_nil in Hin.
  - rewrite run_world_snoc in Hr. apply bind_Some in Hr as (w1 & Hr & Hx). by eapply origins_step; [apply IH|].
Qed.

(** What an applier hands over is what its peer holds. *)
Lemma handed_snapshot w e p m :
  (p, m) ∈ handed w e → SnapshotValid m = true →
  ∃ rf, nodes w !! p = Some rf ∧ SnapshotIndex m = lastIncludedIndex rf ∧ msg_Snapshot m = snapshot rf ∧
    (lastApplied rf < lastIncludedIndex rf ∨ applySnapshot rf = true).
Proof.
  intros Hin Hv. destruct e as [| | | | |i| | | |]; cbn in Hin; try (by apply elem_of_nil in Hin).
  destruct (nodes w !! i) as [rf|] eqn:Hi; [|by apply elem_of_nil in Hin]. unfold applyCommitted in Hin.
  case_decide; [by apply elem_of_nil in Hin|]. destruct (killed rf); [by apply elem_of_nil in Hin|].
  case_decide as Hc; cbn in Hin.
  - apply list_elem_of_singleton in Hin. injection Hin as -> ->. by exists rf.
  - apply list_elem_of_fmap in Hin as (m' & [= -> ->] & (j & _ & Hj)%list_elem_of_omap).
    cbv zeta in Hj. destruct (decide _) in Hj; [|done]. by apply bind_Some in Hj as (x & _ & [= <-]).
Qed.

(** C8: In every run, a snapshot for an index above 0 (which stands for none) was made by
    some service for that index: the one a peer holds, the one in its persister with
    the index that is stored there, the one in a request on its way, and the one
    handed to a service. *)
Theorem snapshot_origin n w0 es w :
  boot n = Some w0 → run es w0 = Some w →
  (∀ p rf, nodes w !! p = Some rf → 0 < lastIncludedIndex rf → made es (lastIncludedIndex rf) (snapshot rf)) ∧
  (∀ p rf ct vf log index term, nodes w !! p = Some rf →
    stored (persister rf) = Some (ct, vf, log, index, term) → 0 < index → made es index (ps_snapshot (persister rf))) ∧
  (∀ l p args, ISReq l p args ∈ net w → 0 < isa_LastIncludedIndex args →
    made es (isa_LastIncludedIndex args) (isa_Data args)) ∧
  (∀ e p m, (p, m) ∈ handed w e → SnapshotValid m = true →
    0 < SnapshotIndex m ∧ made es (SnapshotIndex m) (msg_Snapshot m)).
Proof.
  intros Hb Hr. destruct (origins_run _ _ _ _ Hb Hr) as [Hn Hpk]. split_and!.
  - intros p rf Hp. by apply (Hn _ _ Hp).
  - intros p rf ct vf log index term Hp Hst Hpos. destruct (Hn _ _ Hp) as ([Hst' ->] & _ & _ & _ & Hm).
    rewrite Hst in Hst'. unfold persistentState in Hst'. injection Hst' as -> -> -> -> ->. by apply Hm.
  - intros l p args Hin. apply (Hpk _ Hin).
  - intros e p m Hin Hv. destruct (handed_snapshot _ _ _ _ Hin Hv) as (rf & Hp & -> & -> & Hs).
    destruct (Hn _ _ Hp) as (_ & Hlii & Hla & Has & Hm).
    assert (0 < lastIncludedIndex rf) as Hpos by (destruct Hs; [lia|auto]). auto.
Qed.
End RaftSnapshots.
