(* ===== verification/RaftGhost.v ===== *)
(** * RaftGhost: why a committed entry is never lost

    The argument for the safety of [src/src/raft/raft.go], about histories only.
    A [Ghost] remembers what the peers' states forget: the log of the leader of
    each term, who won it, the log each candidate stood with, how much of a
    term's log each peer has accepted in that term, and each peer's term.  [GI]
    says how these fit together; [GI_evolve] that every growth of the history
    keeps them; [elected_log] is the heart: the log of a candidate that a
    majority voted for holds every entry that could have been committed in an
    earlier term.  [RaftSafety] ties the peers to a ghost. *)
From S2P Require Import Prelude Labgob RaftTypes Raft RaftNode RaftCluster RaftElection.
From stdpp Require Import base gmap fin_sets option list.
From Stdlib Require Import ZArith Lia.
#[local] Open Scope Z_scope.

Section RaftGhost.
Context {C : Type}.
Notation Entry := (LogEntry C).
Implicit Types (l L : list Entry) (T : Z) (i j p : nat) (b : Ballots).

(** ** Logs, from the dummy at index 0 on *)
Notation same_upto i l1 l2 := (take (S i) l1 = take (S i) l2).

Definition dummy : Entry := mkLogEntry None 0.

Definition sorted L : Prop :=
  ∀ i j ei ej, (0 < i ≤ j)%nat → L !! i = Some ei → L !! j = Some ej → le_Term ei <= le_Term ej.

Definition terms_upto T L : Prop := ∀ i e, (0 < i)%nat → L !! i = Some e → le_Term e <= T.

(** What [lastLogIndexTerm] gives for a log without a snapshot. *)
Definition last_term L : Z :=
  if decide (1 < length L)%nat then default 0 (le_Term <$> L !! (length L - 1)%nat) else -1.

(** Position [(T, i)] is not behind the end of [L], in the order of votes. *)
Definition reaches T i L : Prop := T < last_term L ∨ (T = last_term L ∧ (i ≤ length L - 1)%nat).

(** ** The history *)
Record Ghost := mkGhost {
  gl : gmap Z (list Entry);          (* the log of the leader of a term *)
  wn : gmap Z nat;                   (* the leader of a term *)
  cl : gmap (nat * Z) (list Entry);  (* the log of a candidate in a term *)
  acc : nat → Z → nat;               (* the last index a peer accepted in a term *)
  ct : nat → Z                       (* the term of a peer *)
}.
Implicit Types (g : Ghost).

Definition quorum (n : nat) (Q : gset nat) : Prop :=
  (∀ p, p ∈ Q → (p < n)%nat) ∧ majority n (Z.of_nat (size Q)).

(** The leader of [T] put an entry of its term at index [i]. *)
Definition has_entry g T i : Prop :=
  ∃ L e, gl g !! T = Some L ∧ L !! i = Some e ∧ le_Term e = T ∧ (0 < i)%nat.

(** A majority holds it, or still might. *)
Definition could_choose n g T i : Prop :=
  ∃ Q, quorum n Q ∧ ∀ p, p ∈ Q → (i ≤ acc g p T)%nat ∨ ct g p <= T.

Definition chosen n g T i : Prop :=
  has_entry g T i ∧ ∃ Q, quorum n Q ∧ ∀ p, p ∈ Q → (i ≤ acc g p T)%nat.

(** Each entry, with all before it, comes from the leader of its term. *)
Definition log_ok g l : Prop :=
  l !! 0%nat = Some dummy ∧
  ∀ i e, (0 < i)%nat → l !! i = Some e → ∃ L, gl g !! le_Term e = Some L ∧ same_upto i l L.

(** A vote of [p] in [t] for the candidate with log [L]: what [p] accepted
    before, as far as it could be chosen, is not behind [L]. *)
Definition vote_good n g p (t : Z) L : Prop :=
  ∀ T i, T < t → has_entry g T i → could_choose n g T i → (i ≤ acc g p T)%nat → reaches T i L.

Record GI (n : nat) b g : Prop := {
  gi_log T L : gl g !! T = Some L → 0 < T ∧ log_ok g L ∧ sorted L ∧ terms_upto T L;
  gi_cl c (t : Z) L : cl g !! (c, t) = Some L → t <= ct g c ∧ log_ok g L ∧ terms_upto t L;
  gi_acc p T : (0 < acc g p T)%nat →
    T <= ct g p ∧ ∃ L, gl g !! T = Some L ∧ (acc g p T < length L)%nat;
  gi_vote p (t c : Z) : b !! (p, t) = Some c →
    t <= ct g p ∧ ∃ L, cl g !! (Z.to_nat c, t) = Some L ∧ vote_good n g p t L;
  gi_won T L : gl g !! T = Some L → ∃ c, wn g !! T = Some c ∧ T <= ct g c ∧
    ∃ Q, quorum n Q ∧ ∀ p, p ∈ Q → b !! (p, T) = Some (Z.of_nat c);
  gi_wn T c : wn g !! T = Some c → is_Some (gl g !! T);
  gi_lc T T' L L' i : gl g !! T = Some L → gl g !! T' = Some L' → T < T' →
    has_entry g T i → could_choose n g T i → same_upto i L' L
}.

(** ** Prefixes *)
Lemma upto_lookup i j l1 l2 : (j ≤ i)%nat → same_upto i l1 l2 → l1 !! j = l2 !! j.
Proof.
  intros Hj Hs. rewrite <- (lookup_take_lt l1 (S i)), <- (lookup_take_lt l2 (S i)) by lia.
  by rewrite Hs.
Qed.

Lemma upto_le i j l1 l2 : (j ≤ i)%nat → same_upto i l1 l2 → same_upto j l1 l2.
Proof.
  intros Hj Hs. apply (f_equal (take (S j))) in Hs. rewrite !take_take in Hs.
  by replace (S j `min` S i)%nat with (S j) in Hs by lia.
Qed.

Lemma upto_length i l1 l2 : same_upto i l1 l2 → (i < length l1)%nat → (i < length l2)%nat.
Proof. intros Hs Hi. apply (f_equal length) in Hs. rewrite !length_take in Hs. lia. Qed.

Lemma upto_prefix i L L' : L `prefix_of` L' → (i < length L)%nat → same_upto i L' L.
Proof. intros [k ->] Hi. by rewrite take_app_le by lia. Qed.

Lemma prefix_lookup L L' i e : L `prefix_of` L' → L !! i = Some e → L' !! i = Some e.
Proof. intros [k ->] He. by apply lookup_app_l_Some. Qed.

(** ** Logs of the history *)
Lemma log_ok_sorted n b g l : GI n b g → log_ok g l → sorted l.
Proof.
  intros Hg [_ Hl] i j ei ej Hij Hi Hj. destruct (Hl j ej) as (L & HL & Hs); [lia|done|].
  destruct (gi_log _ _ _ Hg _ _ HL) as (_ & _ & Hsort & _).
  apply (Hsort i j); [done| |].
  - by rewrite <- (upto_lookup j i l L) by (done || lia).
  - by rewrite <- (upto_lookup j j l L) by (done || lia).
Qed.

(** Log matching: two logs with an entry of one term at one index are the same
    up to there. *)
Lemma log_match g l1 l2 i e1 e2 :
  log_ok g l1 → log_ok g l2 → l1 !! i = Some e1 → l2 !! i = Some e2 →
  le_Term e1 = le_Term e2 → same_upto i l1 l2.
Proof.
  intros [H01 H1] [H02 H2] Hi1 Hi2 Ht. destruct i as [|i].
  - by rewrite (take_S_r l1 0 dummy), (take_S_r l2 0 dummy).
  - destruct (H1 (S i) e1) as (L1 & HL1 & Hs1); [lia|done|].
    destruct (H2 (S i) e2) as (L2 & HL2 & Hs2); [lia|done|].
    rewrite Ht, HL2 in HL1. injection HL1 as ->. by rewrite Hs1, Hs2.
Qed.

Lemma has_entry_upto g T i L l :
  gl g !! T = Some L → has_entry g T i → same_upto i l L →
  ∃ e, l !! i = Some e ∧ le_Term e = T ∧ (0 < i)%nat.
Proof.
  intros HL (L0 & e & HL0 & He & Ht & Hi) Hs. rewrite HL in HL0. injection HL0 as <-.
  exists e. by rewrite (upto_lookup i i l L) by done.
Qed.

(** A log that holds the entry is not behind it, *)
Lemma holds_reaches n b g T i L l :
  GI n b g → log_ok g l → gl g !! T = Some L → has_entry g T i → same_upto i l L → reaches T i l.
Proof.
  intros Hg Hl HL He Hs. destruct (has_entry_upto _ _ _ _ _ HL He Hs) as (e & Hie & Ht & Hi).
  pose proof (lookup_lt_Some _ _ _ Hie) as Hlen.
  destruct (lookup_lt_is_Some_2 l (length l - 1)) as [x Hx]; [lia|].
  pose proof (log_ok_sorted _ _ _ _ Hg Hl i (length l - 1)%nat e x ltac:(lia) Hie Hx) as Hle.
  unfold reaches, last_term. rewrite decide_True by lia. rewrite Hx. cbn.
  destruct (decide (le_Term e = le_Term x)); [right; split; [congruence|lia]|left; lia].
Qed.

(** and a log of the history that is not behind it holds it. *)
Lemma reaches_holds n b g T i L l :
  GI n b g → log_ok g l → gl g !! T = Some L → has_entry g T i → could_choose n g T i →
  reaches T i l → same_upto i l L.
Proof.
  intros Hg Hl HL He Hch Hr. destruct (gi_log _ _ _ Hg _ _ HL) as (HT & _).
  unfold reaches, last_term in Hr. case_decide as Hlen; [|lia].
  destruct (lookup_lt_is_Some_2 l (length l - 1)) as [x Hx]; [lia|]. rewrite Hx in Hr. cbn in Hr.
  destruct Hl as [_ Hl]. destruct (Hl (length l - 1)%nat x) as (L' & HL' & Hs); [lia|done|].
  destruct Hr as [Hlt|[-> Hi]]; [|rewrite HL in HL'; injection HL' as <-; by eapply upto_le].
  pose proof (gi_lc _ _ _ Hg _ _ _ _ _ HL HL' Hlt He Hch) as Hlc.
  destruct (has_entry_upto _ _ _ _ _ HL He Hlc) as (e & Hie & Ht & Hi).
  assert (i ≤ length l - 1)%nat as Him.
  { destruct (decide (i ≤ length l - 1)%nat) as [|Hgt]; [done|].
    destruct (gi_log _ _ _ Hg _ _ HL') as (_ & _ & Hsort & _).
    assert (L' !! (length l - 1)%nat = Some x) as Hx'
      by (by rewrite <- (upto_lookup (length l - 1) (length l - 1) l L')).
    specialize (Hsort (length l - 1)%nat i x e ltac:(lia) Hx' Hie). lia. }
  rewrite (upto_le _ _ _ _ Him Hs). done.
Qed.

(** ** Majorities *)
Lemma quorums_meet n Q1 Q2 : quorum n Q1 → quorum n Q2 → ∃ p, p ∈ Q1 ∧ p ∈ Q2.
Proof.
  intros [Hn1 Hm1] [Hn2 Hm2]. exact (majorities_meet n Q1 Q2 _ _ Hm1 Hm2 (Z.le_refl _) (Z.le_refl _) Hn1 Hn2).
Qed.

Lemma chosen_could n g T i : chosen n g T i → has_entry g T i ∧ could_choose n g T i.
Proof. intros (He & Q & HQ & Ha). split; [done|]. exists Q. split; [done|]. intros p Hp. left. auto. Qed.

(** A candidate that a majority voted for holds what could have been chosen. *)
Lemma elected_log n b g c (t : Z) Lc Q T i L :
  GI n b g → cl g !! (c, t) = Some Lc →
  quorum n Q → (∀ p, p ∈ Q → b !! (p, t) = Some (Z.of_nat c)) →
  T < t → gl g !! T = Some L → has_entry g T i → could_choose n g T i → same_upto i Lc L.
Proof.
  intros Hg Hc HQ Hb HT HL He Hch. pose proof Hch as (Q' & HQ' & Ha).
  destruct (quorums_meet _ _ _ HQ HQ') as (p & Hp & Hp').
  destruct (gi_vote _ _ _ Hg _ _ _ (Hb _ Hp)) as (Htp & Lv & HLv & Hv).
  rewrite Nat2Z.id, Hc in HLv. injection HLv as <-.
  destruct (Ha _ Hp') as [Hacc|]; [|lia].
  eapply reaches_holds; [done| |done..|by apply Hv]. by destruct (gi_cl _ _ _ Hg _ _ _ Hc) as (_ & ? & _).
Qed.

(** ** Growth of the history *)
Record evolves g g' : Prop := {
  ev_gl T L : gl g !! T = Some L → ∃ L', gl g' !! T = Some L' ∧ L `prefix_of` L';
  ev_wn : wn g ⊆ wn g';
  ev_cl : cl g ⊆ cl g';
  ev_acc p T : (acc g p T ≤ acc g' p T)%nat;
  ev_ct p : ct g p <= ct g' p;
  ev_late p T : T < ct g p → acc g' p T = acc g p T
}.

Lemma evolves_refl g : evolves g g.
Proof. split; [by eauto|done..]. Qed.

Lemma evolves_trans g1 g2 g3 : evolves g1 g2 → evolves g2 g3 → evolves g1 g3.
Proof.
  intros He1 He2. split.
  - intros T L HL. destruct (ev_gl _ _ He1 _ _ HL) as (L' & HL' & ?).
    destruct (ev_gl _ _ He2 _ _ HL') as (L2 & ? & ?). exists L2. split; [done|by etrans].
  - etrans; [apply He1|apply He2].
  - etrans; [apply He1|apply He2].
  - intros p T. pose proof (ev_acc _ _ He1 p T). pose proof (ev_acc _ _ He2 p T). lia.
  - intros p. pose proof (ev_ct _ _ He1 p). pose proof (ev_ct _ _ He2 p). lia.
  - intros p T HT. pose proof (ev_ct _ _ He1 p).
    rewrite (ev_late _ _ He2), (ev_late _ _ He1) by lia. done.
Qed.

Lemma evolves_upto g g' T L i l :
  evolves g g' → gl g !! T = Some L → same_upto i l L → (i < length l)%nat →
  ∃ L', gl g' !! T = Some L' ∧ same_upto i l L'.
Proof.
  intros He HL Hs Hi. destruct (ev_gl _ _ He _ _ HL) as (L' & HL' & Hp).
  exists L'. split; [done|]. rewrite Hs. symmetry. apply upto_prefix; [done|].
  by eapply upto_length.
Qed.

Lemma log_ok_evolves g g' l : evolves g g' → log_ok g l → log_ok g' l.
Proof.
  intros He [H0 Hl]. split; [done|]. intros i e Hi Hie. destruct (Hl i e Hi Hie) as (L & HL & Hs).
  eapply evolves_upto; [done..|]. by eapply lookup_lt_Some.
Qed.

Lemma has_entry_evolves g g' T i : evolves g g' → has_entry g T i → has_entry g' T i.
Proof.
  intros He (L & e & HL & Hi & Ht & H0). destruct (ev_gl _ _ He _ _ HL) as (L' & HL' & Hp).
  exists L', e. split; [done|]. split; [by eapply prefix_lookup|done].
Qed.

(** Whoever accepts later did not before, so the choice only narrows. *)
Lemma could_choose_evolves n g g' T i : evolves g g' → could_choose n g' T i → could_choose n g T i.
Proof.
  intros He (Q & HQ & Ha). exists Q. split; [done|]. intros p Hp. destruct (decide (T < ct g p)) as [Hlt|]; [|right; lia].
  rewrite <- (ev_late _ _ He _ _ Hlt). destruct (Ha p Hp) as [?|Hct]; [by left|].
  pose proof (ev_ct _ _ He p). lia.
Qed.

Lemma chosen_evolves n g g' T i : evolves g g' → chosen n g T i → chosen n g' T i.
Proof.
  intros He [Hen (Q & HQ & Ha)]. split; [by eapply has_entry_evolves|].
  exists Q. split; [done|]. intros p Hp. pose proof (ev_acc _ _ He p T). specialize (Ha p Hp). lia.
Qed.

(** An entry that was accepted was there before. *)
Lemma has_entry_back g g' T i L :
  evolves g g' → gl g !! T = Some L → (i < length L)%nat → has_entry g' T i → has_entry g T i.
Proof.
  intros He HL Hi (L' & e & HL' & Hie & Ht & H0).
  destruct (ev_gl _ _ He _ _ HL) as (L2 & HL2 & Hp). rewrite HL2 in HL'. injection HL' as ->.
  exists L, e. split; [done|]. split; [|done].
  destruct (lookup_lt_is_Some_2 L i Hi) as [e' He']. rewrite He'. f_equal.
  rewrite (prefix_lookup _ _ _ _ Hp He') in Hie. by injection Hie.
Qed.

Lemma accepted_back n b g g' p T i :
  GI n b g → evolves g g' → (i ≤ acc g p T)%nat → has_entry g' T i → has_entry g T i.
Proof.
  intros Hg He Hi Hen. assert (0 < i)%nat as H0 by (by destruct Hen as (? & ? & _ & _ & _ & ?)).
  destruct (gi_acc _ _ _ Hg p T) as (_ & L & HL & Hlen); [lia|].
  eapply has_entry_back; [done..| |done]. lia.
Qed.

Lemma vote_good_evolves n b g g' p t L :
  GI n b g → evolves g g' → t <= ct g p → vote_good n g p t L → vote_good n g' p t L.
Proof.
  intros Hg He Ht Hv T i HT Hen Hch Hacc. rewrite (ev_late _ _ He) in Hacc by lia.
  apply Hv; [done| |by eapply could_choose_evolves|done]. by eapply accepted_back.
Qed.

(** The entries of a term with a known successor are fixed. *)
Lemma lc_evolves n b g g' T T' L L' i :
  GI n b g → evolves g g' → gl g' !! T = Some L → gl g !! T' = Some L' → T < T' →
  has_entry g' T i → could_choose n g' T i →
  ∃ L0, gl g !! T = Some L0 ∧ same_upto i L L0 ∧ same_upto i L' L0 ∧ (i < length L0)%nat.
Proof.
  intros Hg He HL HL' HT Hen Hch. pose proof Hch as (Q & HQ & Ha).
  destruct (gi_won _ _ _ Hg _ _ HL') as (c & _ & _ & Q' & HQ' & Hb).
  destruct (quorums_meet _ _ _ HQ HQ') as (p & Hp & Hp').
  destruct (gi_vote _ _ _ Hg _ _ _ (Hb _ Hp')) as [Htp _].
  pose proof (ev_ct _ _ He p) as Hct.
  destruct (Ha _ Hp) as [Hacc|]; [|lia]. rewrite (ev_late _ _ He) in Hacc by lia.
  pose proof (accepted_back _ _ _ _ _ _ _ Hg He Hacc Hen) as Hen0.
  assert (0 < i)%nat as H0 by (by destruct Hen as (? & ? & _ & _ & _ & ?)).
  destruct (gi_acc _ _ _ Hg p T) as (_ & L0 & HL0 & Hlen); [lia|].
  exists L0. split; [done|]. destruct (ev_gl _ _ He _ _ HL0) as (L1 & HL1 & Hpre).
  rewrite HL1 in HL. injection HL as ->. split; [apply upto_prefix; [done|lia]|]. split; [|lia].
  eapply (gi_lc _ _ _ Hg); [done..|]. by eapply could_choose_evolves.
Qed.

Lemma GI_evolve n b b' g g' :
  GI n b g → evolves g g' → b ⊆ b' →
  (∀ T L, gl g' !! T = Some L → gl g !! T = Some L ∨
    0 < T ∧ log_ok g' L ∧ sorted L ∧ terms_upto T L) →
  (∀ c (t : Z) L, cl g' !! (c, t) = Some L → cl g !! (c, t) = Some L ∨
    t <= ct g' c ∧ log_ok g' L ∧ terms_upto t L) →
  (∀ p T, (0 < acc g' p T)%nat → acc g' p T = acc g p T ∨
    T <= ct g' p ∧ ∃ L, gl g' !! T = Some L ∧ (acc g' p T < length L)%nat) →
  (∀ p (t c : Z), b' !! (p, t) = Some c → b !! (p, t) = Some c ∨
    t <= ct g' p ∧ ∃ L, cl g' !! (Z.to_nat c, t) = Some L ∧ vote_good n g' p t L) →
  (∀ T c, wn g' !! T = Some c → is_Some (gl g' !! T)) →
  (∀ T' L', gl g !! T' = None → gl g' !! T' = Some L' →
    (∃ c, wn g' !! T' = Some c ∧ T' <= ct g' c ∧
      ∃ Q, quorum n Q ∧ ∀ p, p ∈ Q → b' !! (p, T') = Some (Z.of_nat c)) ∧
    ∀ T L i, T < T' → gl g' !! T = Some L → has_entry g' T i → could_choose n g' T i →
      same_upto i L' L) →
  GI n b' g'.
Proof.
  intros Hg He Hb Hlog Hcl Hacc Hvote Hwn Hwin.
  assert (∀ c, ct g c <= ct g' c) as Hct by apply He. split.
  - intros T L HL. destruct (Hlog T L HL) as [HL0|?]; [|done].
    destruct (gi_log _ _ _ Hg _ _ HL0) as (? & ? & ? & ?). split; [done|].
    split; [by eapply log_ok_evolves|done].
  - intros c t L HL. destruct (Hcl c t L HL) as [HL0|?]; [|done].
    destruct (gi_cl _ _ _ Hg _ _ _ HL0) as (? & ? & ?).
    split; [specialize (Hct c); lia|]. split; [by eapply log_ok_evolves|done].
  - intros p T Hp. destruct (Hacc p T Hp) as [Heq|?]; [|done].
    destruct (gi_acc _ _ _ Hg p T) as (Ht & L & HL & Hlen); [lia|].
    split; [specialize (Hct p); lia|]. destruct (ev_gl _ _ He _ _ HL) as (L' & HL' & Hp'%prefix_length).
    exists L'. split; [done|]. lia.
  - intros p t c Hp. destruct (Hvote p t c Hp) as [Hp0|?]; [|done].
    destruct (gi_vote _ _ _ Hg _ _ _ Hp0) as (Ht & L & HL & Hv).
    split; [specialize (Hct p); lia|]. exists L.
    split; [by eapply lookup_weaken, He|by eapply vote_good_evolves].
  - intros T L HL. destruct (gl g !! T) as [L0|] eqn:HL0; [|by apply (Hwin T L)].
    destruct (gi_won _ _ _ Hg _ _ HL0) as (c & Hc & Ht & Q & HQ & Hq). exists c.
    split; [by eapply lookup_weaken, He|]. split; [specialize (Hct c); lia|].
    exists Q. split; [done|]. intros p Hp. by eapply lookup_weaken; [apply Hq|].
  - exact Hwn.
  - intros T T' L L' i HL HL' HT Hen Hch.
    destruct (gl g !! T') as [L0'|] eqn:HL0'; [|by eapply Hwin].
    destruct (lc_evolves _ _ _ _ _ _ _ _ _ Hg He HL HL0' HT Hen Hch) as (L0 & HL0 & Hs & Hs' & Hi).
    destruct (ev_gl _ _ He _ _ HL0') as (L1 & HL1 & Hp). rewrite HL1 in HL'. injection HL' as ->.
    rewrite Hs, <- Hs'. apply upto_prefix; [done|]. by eapply upto_length.
Qed.

(** ** The ways it grows *)
Definition set_ct p (t : Z) (f : nat → Z) : nat → Z := fun q => if decide (q = p) then t else f q.
Definition set_acc p T (k : nat) (f : nat → Z → nat) : nat → Z → nat :=
  fun q U => if decide (q = p ∧ U = T) then k else f q U.

(** A peer reaches term [t]. *)
Definition g_turn p (t : Z) g : Ghost :=
  mkGhost (gl g) (wn g) (cl g) (acc g) (set_ct p t (ct g)).
(** A peer stands in term [t] with log [L]. *)
Definition g_stand p (t : Z) L g : Ghost :=
  mkGhost (gl g) (wn g) (<[(p, t) := L]> (cl g)) (acc g) (set_ct p t (ct g)).
(** A peer wins term [T] with log [L]. *)
Definition g_win p T L g : Ghost :=
  mkGhost (<[T := L]> (gl g)) (<[T := p]> (wn g)) (cl g) (set_acc p T (length L - 1) (acc g)) (ct g).
(** The leader of [T] makes its log [L]. *)
Definition g_append p T L g : Ghost :=
  mkGhost (<[T := L]> (gl g)) (wn g) (cl g) (set_acc p T (length L - 1) (acc g)) (ct g).
(** A peer accepts the log of [T] up to [k]. *)
Definition g_accept p T (k : nat) g : Ghost :=
  mkGhost (gl g) (wn g) (cl g) (set_acc p T (acc g p T `max` k) (acc g)) (set_ct p T (ct g)).

Lemma set_ct_eq p t f : set_ct p t f p = t.
Proof. unfold set_ct. by rewrite decide_True. Qed.
Lemma set_ct_ne p t f q : q ≠ p → set_ct p t f q = f q.
Proof. intros. unfold set_ct. by rewrite decide_False. Qed.
Lemma set_ct_le p t f q : f p <= t → f q <= set_ct p t f q.
Proof. intros. unfold set_ct. case_decide; subst; lia. Qed.
Lemma set_acc_eq p T k f : set_acc p T k f p T = k.
Proof. unfold set_acc. by rewrite decide_True. Qed.
Lemma set_acc_ne p T k f q U : ¬ (q = p ∧ U = T) → set_acc p T k f q U = f q U.
Proof. intros. unfold set_acc. by rewrite decide_False. Qed.

Lemma evolves_turn p t g : ct g p <= t → evolves g (g_turn p t g).
Proof. intros Ht. split; cbn; try done; eauto using set_ct_le. Qed.

Lemma evolves_stand p t L g :
  ct g p <= t → cl g !! (p, t) = None → evolves g (g_stand p t L g).
Proof.
  intros Ht Hn. split; cbn; try done; eauto using set_ct_le. by apply insert_subseteq.
Qed.

Lemma evolves_win n b p T L g :
  GI n b g → gl g !! T = None → T = ct g p → evolves g (g_win p T L g).
Proof.
  intros Hg Hn Ht.
  assert (∀ q, acc g q T = 0%nat) as H0.
  { intros q. destruct (decide (acc g q T = 0%nat)) as [|Hne]; [done|].
    destruct (gi_acc _ _ _ Hg q T) as (_ & L0 & HL0 & _); [lia|congruence]. }
  split; cbn; try done.
  - intros U L0 HL0. exists L0. split; [|done]. rewrite lookup_insert_ne; [done|congruence].
  - apply insert_subseteq. destruct (wn g !! T) as [c|] eqn:Hc; [|done].
    destruct (gi_wn _ _ _ Hg _ _ Hc). congruence.
  - intros q U. unfold set_acc. case_decide as Hq; [|done]. destruct Hq as [-> ->]. rewrite H0. lia.
  - intros q U HU. apply set_acc_ne. intros [-> ->]. lia.
Qed.

Lemma evolves_append p T L0 L g :
  gl g !! T = Some L0 → L0 `prefix_of` L → T = ct g p → acc g p T = (length L0 - 1)%nat →
  evolves g (g_append p T L g).
Proof.
  intros HL0 Hp Ht Ha. split; cbn; try done.
  - intros U L1 HL1. destruct (decide (U = T)) as [->|].
    + exists L. rewrite lookup_insert_eq. by simplify_eq.
    + exists L1. by rewrite lookup_insert_ne.
  - intros q U. unfold set_acc. case_decide as Hq; [|done]. destruct Hq as [-> ->].
    rewrite Ha. apply prefix_length in Hp. lia.
  - intros q U HU. apply set_acc_ne. intros [-> ->]. lia.
Qed.

Lemma evolves_accept p T k g : ct g p <= T → evolves g (g_accept p T k g).
Proof.
  intros Ht. split; cbn; try done; eauto using set_ct_le.
  - intros q U. unfold set_acc. case_decide as Hq; [|done]. destruct Hq as [-> ->]. lia.
  - intros q U HU. apply set_acc_ne. intros [-> ->]. lia.
Qed.

(** The condition on new votes. *)
Definition votes_good n b b' g' : Prop :=
  b ⊆ b' ∧ ∀ p (t c : Z), b' !! (p, t) = Some c → b !! (p, t) = Some c ∨
    t <= ct g' p ∧ ∃ L, cl g' !! (Z.to_nat c, t) = Some L ∧ vote_good n g' p t L.

Lemma GI_turn n b b' g p t :
  GI n b g → ct g p <= t → votes_good n b b' (g_turn p t g) → GI n b' (g_turn p t g).
Proof.
  intros Hg Ht [Hb Hv]. eapply GI_evolve; [exact Hg|by apply evolves_turn|done|..]; cbn; auto.
  - apply Hg.
  - intros T' L'. congruence.
Qed.

Lemma GI_stand n b b' g p t L :
  GI n b g → ct g p < t → log_ok g L → terms_upto t L →
  votes_good n b b' (g_stand p t L g) → GI n b' (g_stand p t L g).
Proof.
  intros Hg Ht HL Hup [Hb Hv].
  assert (cl g !! (p, t) = None) as Hn.
  { destruct (cl g !! (p, t)) as [L0|] eqn:E; [|done].
    destruct (gi_cl _ _ _ Hg _ _ _ E). lia. }
  eapply GI_evolve; [exact Hg|apply evolves_stand; [lia|done]|done|..]; cbn; auto.
  - intros c u L1 [[[= -> ->] ->]|[_ HL1]]%lookup_insert_Some; [right|by left].
    by rewrite set_ct_eq.
  - apply Hg.
  - intros T' L'. congruence.
Qed.

Lemma GI_accept n b b' g p T k L :
  GI n b g → ct g p <= T → gl g !! T = Some L → (k < length L)%nat →
  votes_good n b b' (g_accept p T k g) → GI n b' (g_accept p T k g).
Proof.
  intros Hg Ht HL Hk [Hb Hv].
  eapply GI_evolve; [exact Hg|by apply evolves_accept|done|..]; cbn; auto.
  - intros q U. unfold set_acc. case_decide as Hq; [|by left]. destruct Hq as [-> ->]. intros Hpos.
    right. rewrite set_ct_eq. split; [done|]. exists L. split; [done|].
    destruct (decide (acc g p T = 0%nat)); [lia|].
    destruct (gi_acc _ _ _ Hg p T) as (_ & L0 & HL0 & Hlen); [lia|]. simplify_eq. lia.
  - apply Hg.
  - intros T' L'. congruence.
Qed.

Lemma GI_append n b g p T L0 e :
  GI n b g → gl g !! T = Some L0 → le_Term e = T → T = ct g p →
  acc g p T = (length L0 - 1)%nat → GI n b (g_append p T (L0 ++ [e]) g).
Proof.
  intros Hg HL0 He Ht Ha. destruct (gi_log _ _ _ Hg _ _ HL0) as (HT & Hok & Hsort & Hup).
  assert (evolves g (g_append p T (L0 ++ [e]) g)) as Hev
    by (eapply evolves_append; [done| |done..]; by apply prefix_app_r).
  eapply GI_evolve; [exact Hg|exact Hev|done|..]; cbn; auto.
  - intros U L [[<- <-]|[_ HL]]%lookup_insert_Some; [right|by left]. split; [done|].
    assert (∀ i x, (L0 ++ [e]) !! i = Some x → L0 !! i = Some x ∨ (i = length L0 ∧ x = e)) as Hcase.
    { intros i x [Hx|[Hi Hx]]%lookup_app_Some; [by left|].
      apply list_lookup_singleton_Some in Hx as [Hx <-]. right. split; [lia|done]. }
    split; [|split].
    + split; [by apply lookup_app_l_Some; apply Hok|]. intros i x Hi [Hx|[-> ->]]%Hcase.
      * destruct (proj2 (log_ok_evolves _ _ _ Hev Hok) i x Hi Hx) as (L & HL & Hs).
        exists L. split; [done|]. rewrite <- Hs. apply take_app_le.
        apply lookup_lt_Some in Hx. lia.
      * exists (L0 ++ [e]). split; [|done]. cbn. rewrite He. by rewrite lookup_insert_eq.
    + intros i j ei ej Hij [Hei|[-> ->]]%Hcase [Hej|[-> ->]]%Hcase.
      * by eapply (Hsort i j).
      * rewrite He. by eapply Hup; [|done]; lia.
      * apply lookup_lt_Some in Hej. lia.
      * lia.
    + intros i x Hi [Hx|[-> ->]]%Hcase; [by eapply Hup|lia].
  - intros q U. unfold set_acc. case_decide as Hq; [|by left]. destruct Hq as [-> ->]. intros Hpos.
    right. split; [lia|]. eexists. rewrite lookup_insert_eq. split; [done|].
    rewrite length_app in *. cbn in *. lia.
  - intros U c Hc. destruct (gi_wn _ _ _ Hg _ _ Hc). destruct (decide (U = T)) as [->|].
    + rewrite lookup_insert_eq. eauto.
    + by rewrite lookup_insert_ne.
  - intros U L Hn [[<- <-]|[_ HL]]%lookup_insert_Some; congruence.
Qed.

(** A candidate becomes the leader: what any earlier term could have chosen is
    in its log, since a majority voted for it. *)
Lemma GI_win n b g p T L Q :
  GI n b g → gl g !! T = None → 0 < T → T = ct g p → cl g !! (p, T) = Some L →
  quorum n Q → (∀ q, q ∈ Q → b !! (q, T) = Some (Z.of_nat p)) →
  GI n b (g_win p T L g).
Proof.
  intros Hg Hn HT Ht Hc HQ Hb. destruct (gi_cl _ _ _ Hg _ _ _ Hc) as (_ & Hok & Hup).
  pose proof (evolves_win n b p T L g Hg Hn Ht) as Hev.
  assert (1 ≤ length L)%nat as Hlen by (destruct Hok as [H0%lookup_lt_Some _]; lia).
  eapply GI_evolve; [exact Hg|exact Hev|done|..]; cbn; auto.
  - intros U L' [[<- <-]|[_ HL]]%lookup_insert_Some; [right|by left]. split; [done|].
    split; [by eapply log_ok_evolves|]. split; [by eapply log_ok_sorted|done].
  - intros q U. unfold set_acc. case_decide as Hq; [|by left]. destruct Hq as [-> ->].
    right. split; [lia|]. exists L. rewrite lookup_insert_eq. split; [done|]. lia.
  - intros U c [[<- <-]|[Hne Hc']]%lookup_insert_Some; [rewrite lookup_insert_eq; eauto|].
    rewrite lookup_insert_ne by done. by eapply gi_wn.
  - intros T' L' Hn' [[<- <-]|[_ HL]]%lookup_insert_Some; [|congruence]. split.
    + exists p. rewrite lookup_insert_eq. split; [done|]. split; [lia|]. by exists Q.
    + intros U LU i HU HLU Hen Hch. rewrite lookup_insert_ne in HLU by lia.
      eapply (elected_log n b g p T L Q); [done..| |by eapply could_choose_evolves].
      destruct Hen as (L1 & e & HL1 & He). cbn in HL1. rewrite lookup_insert_ne in HL1 by lia.
      by exists L1, e.
Qed.
End RaftGhost.
