(* ===== verification/RaftView.v ===== *)
(** * RaftView: the whole log behind a peer's snapshot

    A peer that took a snapshot holds the end of its log only.  [view rf F] says
    that [rf] holds the end of the log [F], which starts with the dummy entry at
    index 0: from [lastIncludedIndex] on, whose entry it remembers by its term.
    The file gives what the peer reads of [F], and what each operation on the log
    does to [F]: appending, accepting entries, the service's snapshot, a snapshot
    received, a restart.  Commands never depend on where the log was cut. *)
From stdpp Require Import base gmap list_numbers option list.
From Stdlib Require Import ZArith Lia.
From S2P Require Import Prelude Labgob RaftTypes Raft RaftNode RaftCluster RaftElection RaftLog RaftApply RaftGhost.
#[local] Open Scope Z_scope.

Section RaftView.
Context {C : Type} `{GobLaws (PersistentState C)}.
Notation Raft := (Raft C).
Notation Entry := (LogEntry C).
Implicit Types (rf : Raft) (F L : list Entry) (now i : Z) (k : nat).

Record view rf F : Prop := {
  v_pos : 0 <= lastIncludedIndex rf;
  v_len : lastIncludedIndex rf < len F;
  v_log : Log rf ≠ [] ∧ drop 1 (Log rf) = drop (S (Z.to_nat (lastIncludedIndex rf))) F;
  v_boot : lastIncludedIndex rf = 0 → Log rf = F ∧ lastIncludedTerm rf = -1;
  v_term : 0 < lastIncludedIndex rf →
    ∃ e, F !! Z.to_nat (lastIncludedIndex rf) = Some e ∧ lastIncludedTerm rf = le_Term e
}.

Lemma view_same rf rf' F :
  Log rf' = Log rf → lastIncludedIndex rf' = lastIncludedIndex rf →
  lastIncludedTerm rf' = lastIncludedTerm rf → view rf F → view rf' F.
Proof. intros El Ei Et [Hp Hl Hg Hb Ht]. split; rewrite ?El, ?Ei, ?Et; done. Qed.

(** ** What the peer reads of the log *)

Lemma view_size rf F : view rf F → len (Log rf) + lastIncludedIndex rf = len F.
Proof.
  intros [Hp Hl [Hne Hd] _ _]. apply (f_equal length) in Hd. rewrite !length_drop in Hd.
  unfold len in *. destruct (Log rf); [done|]. cbn in *. lia.
Qed.

Lemma view_last rf F : view rf F → lastLogIndex rf = len F - 1.
Proof. intros Hv. pose proof (view_size _ _ Hv). unfold lastLogIndex. lia. Qed.

(** The log from physical index [k] on. *)
Lemma view_drop rf F k :
  view rf F → (0 < k)%nat → drop k (Log rf) = drop (k + Z.to_nat (lastIncludedIndex rf)) F.
Proof.
  intros [_ _ [_ Hd] _ _] Hk. replace k with (1 + (k - 1))%nat at 1 by lia.
  rewrite <- drop_drop, Hd, drop_drop. f_equal. lia.
Qed.

Lemma view_entry rf F i :
  view rf F → lastIncludedIndex rf < i → entry_at rf i = F !! Z.to_nat i.
Proof.
  intros Hv Hi. pose proof (v_pos _ _ Hv). unfold entry_at, at_index. rewrite decide_True, decide_False by lia.
  pose proof (view_drop _ _ (Z.to_nat (i - lastIncludedIndex rf)) Hv ltac:(lia)) as Hd.
  apply (f_equal (.!! 0%nat)) in Hd. rewrite !lookup_drop in Hd.
  by replace (Z.to_nat (i - lastIncludedIndex rf) + Z.to_nat (lastIncludedIndex rf) + 0)%nat with (Z.to_nat i) in Hd by lia;
    rewrite Nat.add_0_r in Hd.
Qed.

Lemma view_term_at rf F i :
  view rf F → 0 < i → lastIncludedIndex rf <= i → term_at rf i = le_Term <$> F !! Z.to_nat i.
Proof.
  intros Hv Hpos Hi. unfold term_at. case_decide as Heq; [|by rewrite (view_entry _ F) by (done || lia)].
  subst i. destruct (v_term _ _ Hv Hpos) as (e & -> & ->). done.
Qed.

Lemma view_termAt rf F i :
  view rf F → lastIncludedIndex rf < i → termAt rf i true = default (-1) (le_Term <$> F !! Z.to_nat i).
Proof. intros Hv Hi. rewrite termAt_logical by done. by rewrite (view_entry _ F). Qed.

(** The term of the entry before index [i + 1], if the peer still has one. *)
Lemma view_prev rf F i e :
  view rf F → 0 < i → lastIncludedIndex rf <= i → F !! Z.to_nat i = Some e →
  getPrevLogTerm rf i = le_Term e.
Proof.
  intros Hv Hpos Hi He. apply getPrevLogTerm_term_at; [done|].
  rewrite (view_term_at _ F) by done. by rewrite He.
Qed.

Lemma prev_below rf i : i < lastIncludedIndex rf → getPrevLogTerm rf i = -1.
Proof.
  intros Hi. unfold getPrevLogTerm, termAt, toPhysicalIndex.
  rewrite decide_False by lia. by rewrite decide_True by lia.
Qed.

Lemma view_last_term rf F : view rf F → lastLogIndexTerm rf = last_term F.
Proof.
  intros Hv. pose proof (view_size _ _ Hv) as Hs. pose proof (v_pos _ _ Hv). pose proof (v_len _ _ Hv).
  unfold lastLogIndexTerm, last_term. case_decide as Hl.
  - unfold len in *. rewrite decide_True by lia.
    pose proof (view_entry rf F (Z.of_nat (length F) - 1) Hv ltac:(lia)) as He.
    unfold entry_at in He. rewrite decide_True in He by lia.
    replace (Z.of_nat (length F) - 1 - lastIncludedIndex rf) with (Z.of_nat (length (Log rf)) - 1) in He by lia.
    rewrite He. do 3 f_equal. lia.
  - assert (len (Log rf) = 1) as Hone by (destruct (v_log _ _ Hv) as [Hne _]; unfold len in *; destruct (Log rf); [done|cbn in *; lia]).
    unfold len in *. destruct (decide (lastIncludedIndex rf = 0)) as [E|].
    + rewrite decide_False by lia. by apply (v_boot _ _ Hv).
    + rewrite decide_True by lia. destruct (v_term _ _ Hv) as (e & He & ->); [lia|].
      replace (length F - 1)%nat with (Z.to_nat (lastIncludedIndex rf)) by lia. by rewrite He.
Qed.

(** ** What the operations do to it *)

Lemma view_append rf F e : view rf F → view (persist (rf <| Log := Log rf ++ [e] |>)) (F ++ [e]).
Proof.
  intros Hv. pose proof (view_size _ _ Hv) as Hs. pose proof Hv as [Hp Hl [Hne Hd] Hb Ht]. unfold len in *.
  split; cbn.
  - done.
  - unfold len. rewrite length_app. lia.
  - split; [by destruct (Log rf)|].
    assert (1 ≤ length (Log rf))%nat as Hlen by (destruct (Log rf); [done|cbn; lia]).
    rewrite !drop_app_le by lia. by rewrite Hd.
  - intros Hi. destruct (Hb Hi) as [-> ?]. done.
  - intros Hi. destruct (Ht Hi) as (x & Hx & ?). exists x. split; [by apply lookup_app_l_Some|done].
Qed.

(** Accepted entries land behind [PrevLogIndex], and behind the snapshot. *)
Lemma view_accept now args rf F :
  view rf F → aer_Success (snd (AppendEntries now args zeroAEReply rf)) = true →
  let K := S (Z.to_nat (Z.max (aea_PrevLogIndex args) (lastIncludedIndex rf))) in
  (K ≤ length F)%nat ∧
  view (fst (AppendEntries now args zeroAEReply rf))
    (take K F ++ merge (drop K F) (drop (skipped rf (aea_PrevLogIndex args)) (aea_Entries args))).
Proof.
  intros Hv Hok K. pose proof (view_size _ _ Hv) as Hs. pose proof Hv as [Hp Hl [Hne Hd] Hb Ht].
  pose proof (AppendEntries_success now args rf Hne) as Hsc.
  destruct (AppendEntries now args zeroAEReply rf) as [rf' reply]. cbn [fst snd] in *.
  destruct (Hsc Hok) as (Hprev & Hi & Hit & _ & HL). clear Hsc.
  rewrite (view_last _ _ Hv) in Hprev. set (m := merge _ _) in *.
  set (ph := landing rf (aea_PrevLogIndex args)) in *.
  assert (ph + Z.to_nat (lastIncludedIndex rf) = K ∧ 0 < ph)%nat as [EK Hph] by (unfold ph, K, landing; lia).
  assert (K ≤ length F)%nat as HK by (unfold K, len in *; lia).
  assert (m = merge (drop K F) (drop (skipped rf (aea_PrevLogIndex args)) (aea_Entries args))) as Em.
  { unfold m. rewrite (view_drop rf F ph) by done. by rewrite EK. }
  split; [done|]. rewrite <- Em. clearbody m. clear Em. unfold len in *. split; rewrite ?Hi, ?Hit, ?HL.
  - done.
  - unfold len. rewrite length_app, length_take. lia.
  - split; [intros E%(f_equal length); rewrite length_app, length_take in E; cbn in E; lia|].
    rewrite !drop_app_le by (rewrite length_take; lia). f_equal.
    rewrite !skipn_firstn_comm, Hd. f_equal. lia.
  - intros E. destruct (Hb E) as [<- ?]. split; [|done]. do 2 f_equal. lia.
  - intros Hpos. destruct (Ht Hpos) as (e & He & ?). exists e. split; [|done].
    apply lookup_app_l_Some. rewrite lookup_take_lt by lia. done.
Qed.

(** The service's snapshot of an index the log has. *)
Lemma view_Snapshot index s rf F : view rf F → index < len F → view (Snapshot index s rf) F.
Proof.
  intros Hv Hlast. pose proof (view_size _ _ Hv) as Hs. pose proof Hv as [Hp Hl _ _ _].
  unfold Snapshot, toPhysicalIndex. case_decide; [done|]. rewrite decide_False by lia.
  destruct (at_index_lt (Log rf) (index - lastIncludedIndex rf)) as [e He]; [lia|].
  pose proof (view_entry rf F index Hv ltac:(lia)) as HeF. unfold entry_at in HeF.
  rewrite decide_True, He in HeF by lia. rewrite (termAt_physical _ _ _ He).
  split; cbn.
  - lia.
  - done.
  - split; [done|]. unfold slice_from. rewrite drop_0, (view_drop rf F) by (done || lia). f_equal. lia.
  - lia.
  - intros _. by exists e.
Qed.

(** A snapshot received: what follows it stays if the log has its last entry. *)
Lemma view_install now args reply rf F F' e :
  view rf F → CurrentTerm rf <= isa_Term args → lastIncludedIndex rf < isa_LastIncludedIndex args →
  let idx := Z.to_nat (isa_LastIncludedIndex args) in
  F' !! idx = Some e → isa_LastIncludedTerm args = le_Term e →
  (if decide (le_Term <$> F !! idx = Some (le_Term e)) then F' = F else length F' = S idx) →
  view (fst (InstallSnapshot now args reply rf)) F'.
Proof.
  intros Hv Ht Hi idx He Het HF'. pose proof Hv as [Hp Hl [Hne _] _ _].
  pose proof (InstallSnapshot_cases now args reply rf) as Hc. cbv zeta in Hc.
  destruct Hc as [[_ ?]|[_ [[_ ?]|[_ ->]]]]; [lia|lia|].
  rewrite retainedLog_spec, (view_term_at _ F) by (done || lia). fold idx. rewrite Het.
  apply lookup_lt_Some in He as Hlen. split; cbn.
  - lia.
  - unfold len. lia.
  - split; [done|]. rewrite drop_0. fold idx. case_decide.
    + subst F'. unfold slice_from. rewrite (view_drop rf F) by (done || lia). f_equal. lia.
    + rewrite drop_ge; [done|lia].
  - lia.
  - intros _. fold idx. by exists e.
Qed.

(** A restart brings back what was stored. *)
Lemma view_Make n me' now gs rf rf' F :
  durable rf → Make n me' (persister rf) now = Some (rf', gs) → view rf F → view rf' F.
Proof.
  intros [Hst _] Hm. destruct (Make_stored n me' _ now _ Hst) as (r & Hm' & Hps & _).
  rewrite Hm' in Hm. injection Hm as -> _. unfold persistentState in Hps. injection Hps as _ _ El Ei Et.
  by apply view_same.
Qed.
End RaftView.
