(* ===== verification/RaftEffects.v ===== *)
(** * RaftEffects: which operations of a peer touch its log

    Every operation of [Raft] either is [quiet], it keeps the log behind the
    peer's snapshot and at most gives up a role, or is one of six: standing for
    election, winning it, appending a command, accepting entries, counting an
    acknowledgement, and taking over a snapshot.  This file says what each of
    these does to the indices and the role of a peer, for [RaftSafety]. *)
From stdpp Require Import base gmap fin_sets list_numbers option list.
From Stdlib Require Import ZArith Lia.
From S2P Require Import Prelude Labgob RaftTypes Raft RaftNode RaftCluster RaftElection RaftLog RaftGhost RaftView.
#[local] Open Scope Z_scope.

Section RaftEffects.
Context {C : Type} `{GobLaws (PersistentState C)}.
Notation Raft := (Raft C).
Notation Entry := (LogEntry C).
Implicit Types (rf : Raft) (l L : list Entry) (now : Z) (peer p q : nat).

(** Moves that only reach a term, keeping the log. *)
Record quiet rf rf' : Prop := {
  q_view F : view rf F → view rf' F;
  q_low : lastIncludedIndex rf <= commitIndex rf → lastIncludedIndex rf' <= commitIndex rf';
  q_term : CurrentTerm rf <= CurrentTerm rf';
  q_status : status rf' ≠ Follower → status rf' = status rf ∧ CurrentTerm rf' = CurrentTerm rf;
  q_commit : commitIndex rf' = commitIndex rf ∨ (status rf' = Follower ∧ commitIndex rf' <= commitIndex rf);
  q_match p (m : Z) : status rf' = Leader → matchIndex rf' !! p = Some m → matchIndex rf !! p = Some m
}.

Lemma quiet_refl rf : quiet rf rf.
Proof. split; auto. lia. Qed.

Lemma quiet_trans rf1 rf2 rf3 : quiet rf1 rf2 → quiet rf2 rf3 → quiet rf1 rf3.
Proof.
  intros [Hv1 Hl1 Hc1 Hs1 Hm1 Hq1] [Hv2 Hl2 Hc2 Hs2 Hm2 Hq2]. split; [auto|auto|lia| | |].
  - intros Hs. destruct (Hs2 Hs) as [E ?]. rewrite E in Hs |- *. destruct (Hs1 Hs). split; [done|lia].
  - destruct Hm2 as [->|[? ?]]; [|right; split; [done|destruct Hm1 as [|[_ ?]]; lia]].
    destruct Hm1 as [->|[Hf ?]]; [by left|]. right. split; [|done].
    destruct (decide (status rf3 = Follower)) as [|Hn]; [done|]. destruct (Hs2 Hn). congruence.
  - intros p m Hs Hp. apply Hq1; [|by apply Hq2]. destruct Hs2 as [? _]; congruence.
Qed.

(** Quiet, and no vote is given. *)
Definition calm rf rf' : Prop :=
  quiet rf rf' ∧ (VotedFor rf' = -1 ∨ (VotedFor rf' = VotedFor rf ∧ CurrentTerm rf' = CurrentTerm rf)).

Lemma calm_refl rf : calm rf rf.
Proof. split; [apply quiet_refl|by right]. Qed.

(** ** Quiet operations *)
Ltac quiet_fields := split; cbn; solve [done | by auto | lia | intros ?; by apply view_same].

Lemma quiet_stepDown now t rf : quiet rf (fst (stepDown now t rf)).
Proof.
  destruct (stepDown_cases now t rf) as [[-> _]|[Ht ->]]; [apply quiet_refl|]. quiet_fields.
Qed.

Lemma calm_stepDown now t rf : calm rf (fst (stepDown now t rf)).
Proof.
  split; [apply quiet_stepDown|].
  destruct (stepDown_cases now t rf) as [[-> _]|[_ ->]]; auto.
Qed.

(** Becoming a follower of the term one is in. *)
Lemma quiet_follow now rf : quiet rf (rf <| lastHeartbeat := now |> <| status := Follower |>).
Proof. quiet_fields. Qed.

Lemma quiet_RequestVote now args reply rf : quiet rf (fst (RequestVote now args reply rf)).
Proof.
  pose proof (RequestVote_cases now args reply rf) as Hc. cbv zeta in Hc.
  destruct Hc as [(-> & _)|(_ & [(-> & _)|(-> & _)])].
  - apply quiet_refl.
  - apply quiet_stepDown.
  - eapply quiet_trans; [apply (quiet_stepDown now (rva_Term args))|]. quiet_fields.
Qed.

(** A snapshot of an index that is included already. *)
Lemma calm_InstallSnapshot now args reply rf :
  isa_LastIncludedIndex args <= lastIncludedIndex rf →
  calm rf (fst (InstallSnapshot now args reply rf)).
Proof.
  intros Hi. pose proof (InstallSnapshot_cases now args reply rf) as Hc. cbv zeta in Hc.
  destruct Hc as [[-> _]|[Ht [[-> _]|[? _]]]]; [apply calm_refl| |lia].
  split; [quiet_fields|by left].
Qed.

(** The service's snapshot of what is committed. *)
Lemma Snapshot_frame index s rf :
  let rf' := Snapshot index s rf in
  lastIncludedIndex rf' = Z.max (lastIncludedIndex rf) index ∧ CurrentTerm rf' = CurrentTerm rf ∧
  status rf' = status rf ∧ VotedFor rf' = VotedFor rf ∧ commitIndex rf' = commitIndex rf ∧
  matchIndex rf' = matchIndex rf.
Proof. cbv zeta. unfold Snapshot. repeat case_decide; cbn; split_and!; done || lia. Qed.

Lemma calm_Snapshot index s rf :
  index <= commitIndex rf → (∀ F, view rf F → index < len F) → calm rf (Snapshot index s rf).
Proof.
  intros Hc Hlen. destruct (Snapshot_frame index s rf) as (Ei & Et & Es & Ev & Ec & Em). split; [|by right].
  split; rewrite ?Ei, ?Et, ?Es, ?Ec, ?Em; try done; [|lia|by left].
  intros F Hv. apply view_Snapshot; auto.
Qed.

Lemma calm_Kill rf : calm rf (Kill rf).
Proof. split; [quiet_fields|by left]. Qed.

Lemma calm_applyCommitted rf : calm rf (fst (applyCommitted rf)).
Proof.
  unfold applyCommitted. case_decide; [split; [quiet_fields|by right]|].
  destruct (killed rf); [apply calm_refl|]. case_decide; (split; [quiet_fields|by right]).
Qed.

Lemma calm_ticker_exit rf : calm rf (ticker_exit rf).
Proof. split; [quiet_fields|by right]. Qed.

Lemma calm_set_isReplicating peer b rf rf' : set_isReplicating peer b rf = Some rf' → calm rf rf'.
Proof. intros (l & _ & [= <-])%bind_Some. split; [quiet_fields|by right]. Qed.

(** A restart, of a peer that stored its state. *)
Lemma Make_commitIndex n me' ps now gs rf' :
  Make n me' ps now = Some (rf', gs) → commitIndex (C:=C) rf' = Z.max 0 (lastIncludedIndex rf').
Proof.
  intros Hm. unfold Make, readPersist in Hm. cbn [persister] in Hm. case_decide; [by injection Hm as <-|].
  destruct (Decode _) as [[[[[ct vf] l] li] lt]|]; [|done]. cbn [mbind option_bind] in Hm.
  repeat (case_decide; cbn in Hm); injection Hm as <-; cbn in *; lia.
Qed.

Lemma calm_Make n me' now gs rf rf' :
  durable rf → 0 <= lastIncludedIndex rf <= commitIndex rf →
  Make n me' (persister rf) now = Some (rf', gs) → calm rf rf'.
Proof.
  intros Hd Hi Hm. pose proof (λ F, view_Make _ _ _ _ _ _ F Hd Hm) as Hv. pose proof (Make_commitIndex _ _ _ _ _ _ Hm) as Hc.
  destruct Hd as [Hst _]. destruct (Make_stored n me' _ now _ Hst) as (r & Hm' & Hps & _ & _ & Hrole & _).
  rewrite Hm' in Hm. injection Hm as -> _. unfold persistentState in Hps. injection Hps as Ht Hvf Hl Hli Hlt.
  split; [|by right]. split; rewrite ?Hrole; try done; [lia|lia|]. right. split; [done|lia].
Qed.

Lemma updateMatch_spec peer (m : Z) rf rf' :
  updateMatchAndNextIndex peer m rf = Some rf' →
  ∃ ms ns, rf' = rf <| matchIndex := ms |> <| nextIndex := ns |> ∧
    ∀ p x, ms !! p = Some x → matchIndex rf !! p = Some x ∨ (p = peer ∧ x = m).
Proof.
  unfold updateMatchAndNextIndex. intros (m0 & _ & (rf1 & Hrf1 & H1)%bind_Some)%bind_Some.
  assert (∃ ms, rf1 = rf <| matchIndex := ms |> ∧
    ∀ p x, ms !! p = Some x → matchIndex rf !! p = Some x ∨ (p = peer ∧ x = m)) as (ms & -> & Hms).
  { case_decide.
    - apply bind_Some in Hrf1 as (l & [_ ->]%set_index_inv & [= <-]). eexists. split; [done|].
      intros p x [(-> & <- & _)|[_ Hp]]%list_lookup_insert_Some; auto.
    - injection Hrf1 as <-. exists (matchIndex rf). split; [by destruct rf|auto]. }
  apply bind_Some in H1 as (m1 & _ & (l & [_ ->]%set_index_inv & [= <-])%bind_Some).
  eexists _, _. by split.
Qed.

(** The reply to a snapshot: calm, or it raises one [matchIndex]. *)
Lemma installReply_effect now peer args reply rf rf' :
  handleInstallSnapshot_reply now peer args reply rf = Some rf' →
  calm rf rf' ∨
  (status rf = Leader ∧ CurrentTerm rf = isa_Term args ∧
   updateMatchAndNextIndex peer (isa_LastIncludedIndex args) rf = Some rf').
Proof.
  unfold handleInstallSnapshot_reply. intros Hx.
  case_decide as Hg; [simplify_eq; left; apply calm_refl|].
  assert (status rf = Leader ∧ CurrentTerm rf = isa_Term args) as [Hs Ht]
    by (destruct (decide (status rf = Leader)), (decide (CurrentTerm rf = isa_Term args)); tauto).
  pose proof (quiet_stepDown now (isr_Term reply) rf) as Hq.
  destruct (stepDown_cases now (isr_Term reply) rf) as [[E _]|[_ E]]; rewrite E in Hx, Hq; cbn in Hq.
  - by right.
  - simplify_eq. left. split; [done|by left].
Qed.

(** ** Elections *)
(** The ticker is calm or stands for election. *)
Lemma ticker_effect now rnd timeout rf :
  let '(rf', _, result) := ticker now rnd timeout rf in
  match result with
  | TickElection v gs =>
      Log rf' = Log rf ∧ lastIncludedIndex rf' = lastIncludedIndex rf ∧
      lastIncludedTerm rf' = lastIncludedTerm rf ∧ commitIndex rf' = commitIndex rf ∧
      CurrentTerm rf' = CurrentTerm rf + 1 ∧ VotedFor rf' = Z.of_nat (me rf) ∧ status rf' = Candidate ∧
      gs = (λ p, GoRequestVote p (mkRequestVoteArgs (CurrentTerm rf + 1) (Z.of_nat (me rf))
                                    (lastLogIndex rf) (lastLogIndexTerm rf))) <$> others rf
  | _ => calm rf rf'
  end.
Proof.
  unfold ticker. case_decide; [split; [quiet_fields|by right]|].
  case_decide; [|apply calm_refl].
  case_decide; [|split; [quiet_fields|by right]]. cbn. split_and!; done.
Qed.

(** A vote reply is calm or wins the election. *)
Lemma voteReply_effect now args reply v rf :
  let rf' := fst (fst (handleRequestVoteReply now args reply v rf)) in
  calm rf rf' ∨
  (status rf = Candidate ∧
   rf' = rf <| status := Leader |>
            <| nextIndex := replicate (peers rf) (lastIncludedIndex rf + len (Log rf)) |>
            <| matchIndex := replicate (peers rf) (lastIncludedIndex rf) |>).
Proof.
  unfold handleRequestVoteReply, becomeLeader. cbv zeta.
  case_decide as Hg; [left; apply calm_refl|].
  assert (status rf = Candidate) as Hs by (destruct (decide (status rf = Candidate)); tauto).
  case_decide; [left; apply calm_stepDown|].
  case_decide; [left; apply calm_refl|].
  case_decide; [|left; apply calm_refl].
  rewrite decide_False by congruence. by right.
Qed.

(** The candidate's log is not behind the voter's. *)
Lemma RequestVote_effect now args reply rf :
  let rf' := fst (RequestVote now args reply rf) in
  VotedFor rf' = -1 ∨ (VotedFor rf' = VotedFor rf ∧ CurrentTerm rf' = CurrentTerm rf) ∨
  (VotedFor rf' = rva_CandidateId args ∧ CurrentTerm rf' = rva_Term args ∧
   isLogUpToDate rf (rva_LastLogIndex args) (rva_LastLogTerm args) = true).
Proof.
  pose proof (RequestVote_cases now args reply rf) as Hc. cbv zeta in Hc |- *.
  destruct Hc as [(-> & _)|(Hle & [(-> & _)|(-> & _ & _ & Hup)])]; [auto| |];
    destruct (stepDown_cases now (rva_Term args) rf) as [[E ?]|[? E]]; rewrite E in *; cbn; auto.
  right. right. split_and!; [done|lia|done].
Qed.

(** ** Commands *)
Lemma Start_effect command rf :
  let rf' := fst (fst (Start command rf)) in
  (status rf ≠ Leader ∧ rf' = rf) ∨
  (status rf = Leader ∧
   rf' = persist (rf <| Log := Log rf ++ [mkLogEntry (Some command) (CurrentTerm rf)] |>)).
Proof.
  unfold Start. destruct (decide (status rf ≠ Leader)) as [Hs|Hs]; [by left|right].
  split; [|done]. by destruct (decide (status rf = Leader)).
Qed.

(** ** Acknowledgements *)
Lemma countMatch_set rf (N : Z) ps (count total : Z) :
  countMatch rf N ps count = Some total → NoDup ps →
  ∃ S : gset nat, total = count + Z.of_nat (size S) ∧
    ∀ p, p ∈ S → p ∈ ps ∧ p ≠ me rf ∧ ∃ m, matchIndex rf !! p = Some m ∧ N <= m.
Proof.
  revert count. induction ps as [|p ps IH]; intros count Hc Hnd; cbn [countMatch] in Hc.
  { injection Hc as <-. exists ∅. rewrite size_empty. split; [lia|]. set_solver. }
  apply NoDup_cons in Hnd as [Hp Hnd]. case_decide as Hme.
  - apply bind_Some in Hc as (m & Hm & Hc).
    destruct (IH _ Hc Hnd) as (S & -> & HS). destruct (decide (m >= N)) as [HN|HN].
    + exists ({[p]} ∪ S). split.
      * rewrite size_union, size_singleton; [lia|]. intros q ->%elem_of_singleton Hq.
        by apply HS in Hq as [? _].
      * intros q [->%elem_of_singleton|Hq]%elem_of_union.
        -- split; [by left|]. split; [done|]. exists m. split; [done|lia].
        -- destruct (HS q Hq) as (? & ?). split; [by right|done].
    + exists S. split; [done|]. intros q Hq. destruct (HS q Hq). split; [by right|done].
  - destruct (IH _ Hc Hnd) as (S & -> & HS). exists S. split; [done|].
    intros q Hq. destruct (HS q Hq). split; [by right|done].
Qed.

(** The commit index moves only to an index of the current term that a majority
    has acknowledged, the leader included. *)
Lemma commitLoop_quorum fuel (N : Z) rf rf' :
  commitLoop fuel N rf = Some rf' → (me rf < peers rf)%nat →
  rf' = rf ∨ ∃ M, rf' = rf <| commitIndex := M |> <| applyCond := true |> ∧
    commitIndex rf < M ∧ termAt rf M true = CurrentTerm rf ∧
    ∃ Q, quorum (peers rf) Q ∧
      ∀ p, p ∈ Q → p = me rf ∨ ∃ m, p ≠ me rf ∧ matchIndex rf !! p = Some m ∧ M <= m.
Proof.
  intros Hl Hme. revert N Hl. induction fuel as [|fuel IH]; simpl; intros N Hl; [naive_solver|].
  case_decide; [|naive_solver]. case_decide as Ht; [|by eapply IH].
  apply bind_Some in Hl as (count & Hc & Hl). case_decide as Hmaj; [|by eapply IH].
  injection Hl as <-. right. exists N. split; [done|]. split; [lia|]. split; [done|].
  destruct (countMatch_set _ _ _ _ _ Hc (NoDup_seq _ _)) as (S & -> & HS).
  exists ({[me rf]} ∪ S). split; [split|].
  - intros p [->%elem_of_singleton|Hp]%elem_of_union; [done|].
    destruct (HS p Hp) as (Hin%elem_of_seq & _). lia.
  - unfold majority. rewrite size_union, size_singleton; [lia|].
    intros p ->%elem_of_singleton Hp. by apply HS in Hp as (_ & ? & _).
  - intros p [->%elem_of_singleton|Hp]%elem_of_union; [by left|right].
    destruct (HS p Hp) as (_ & ? & m & ? & ?). by exists m.
Qed.

(** The reply to entries: calm, or it raises one [matchIndex] and then maybe
    the commit index. *)
Lemma appendReply_effect now peer args reply rf rf' :
  handleSendAppendEntries now peer args reply rf = Some rf' →
  calm rf rf' ∨
  (status rf = Leader ∧ CurrentTerm rf = aea_Term args ∧ aer_Success reply = true ∧
   ∃ rf1, updateMatchAndNextIndex peer (aea_PrevLogIndex args + len (aea_Entries args)) rf = Some rf1 ∧
     updateLeaderCommitIndex rf1 = Some rf').
Proof.
  unfold handleSendAppendEntries. intros Hx.
  case_decide as Hg; [simplify_eq; left; apply calm_refl|].
  assert (status rf = Leader ∧ CurrentTerm rf = aea_Term args) as [Hs Ht]
    by (destruct (decide (status rf = Leader)), (decide (CurrentTerm rf = aea_Term args)); tauto).
  pose proof (quiet_stepDown now (aer_Term reply) rf) as Hq.
  destruct (stepDown_cases now (aer_Term reply) rf) as [[E _]|[_ E]]; rewrite E in Hx, Hq; cbn in Hq.
  2: { simplify_eq. left. split; [done|by left]. }
  destruct (aer_Success reply) eqn:Hok.
  { right. apply bind_Some in Hx as (rf1 & ? & ?). split_and!; [done|done|done|by exists rf1]. }
  left. repeat case_decide; apply bind_Some in Hx as (l & _ & [= <-]);
    (split; [quiet_fields|by right]).
Qed.

(** ** Entries *)

(** When equal terms mean equal entries up to there, [merge] keeps the old
    entries if they start with the new ones, and else takes the new ones. *)
Lemma merge_match l L :
  (∀ j o e, l !! j = Some o → L !! j = Some e → le_Term o = le_Term e → take (S j) l = take (S j) L) →
  (merge l L = l ∧ L `prefix_of` l) ∨ (merge l L = L ∧ ¬ L `prefix_of` l).
Proof.
  revert l. induction L as [|e L IH]; intros l Hm.
  { left. split; [by destruct l|apply prefix_nil]. }
  destruct l as [|o l]; cbn [merge].
  { right. split; [done|]. by intros [? ?]. }
  case_decide as Ht.
  - assert (o = e) as -> by (by injection (Hm 0%nat o e eq_refl eq_refl Ht)).
    destruct (IH l) as [[-> ?]|[-> Hn]].
    + intros j o' e' Ho He Ht'. by injection (Hm (S j) o' e' Ho He Ht').
    + left. split; [done|by apply prefix_cons].
    + right. split; [done|]. intros Hp. by apply prefix_cons_inv_2 in Hp.
  - right. split; [done|]. intros Hp%prefix_cons_inv_1. by subst.
Qed.

(** What the worker sends: the log from [prev + 1] on, or from the dummy entry
    in the place of the last one of the snapshot. *)
Lemma heartbeatWorker_effect peer rf F args :
  view rf F → heartbeatWorker peer rf = Some (WorkerSend args) →
  status rf = Leader ∧ aea_Term args = CurrentTerm rf ∧ aea_LeaderCommit args = commitIndex rf ∧
  let prev := aea_PrevLogIndex args in
  (0 <= prev + 1 <= len F ∧ aea_Entries args = drop (Z.to_nat (prev + 1)) F ∧
   (0 < prev → ∃ e, F !! Z.to_nat prev = Some e ∧ aea_PrevLogTerm args = le_Term e)) ∨
  (0 < lastIncludedIndex rf ∧ prev + 1 = lastIncludedIndex rf ∧ nextIndex rf !! peer = Some (lastIncludedIndex rf) ∧
   isReplicating rf !! peer = Some true ∧ aea_PrevLogTerm args = -1 ∧
   ∃ x, aea_Entries args = x :: drop (Z.to_nat (prev + 2)) F).
Proof.
  intros Hv. pose proof (view_size _ _ Hv) as Hs. pose proof Hv as [Hp Hl [Hne Hd] Hb _].
  unfold heartbeatWorker, toPhysicalIndex.
  destruct (decide (status rf ≠ Leader)) as [|Hst]; [done|].
  intros (next & Hnext & (r & Hrep & Hx)%bind_Some)%bind_Some.
  case_decide as Hi; [done|]. case_decide as Hr; [done|]. injection Hx as <-. cbn.
  split; [by destruct (decide (status rf = Leader))|]. split; [done|]. split; [done|].
  unfold slice_from. destruct (decide (lastIncludedIndex rf < next ∨ lastIncludedIndex rf = 0)) as [Hn|Hn].
  - left. split; [lia|]. split.
    + destruct (decide (lastIncludedIndex rf < next)).
      * rewrite (view_drop rf F) by (done || lia). f_equal. lia.
      * destruct (Hb ltac:(lia)) as [-> _]. f_equal. lia.
    + intros Hprev. destruct (lookup_lt_is_Some_2 F (Z.to_nat (next - 1))) as [e He]; [unfold len in *; lia|].
      exists e. split; [done|]. eapply view_prev; [exact Hv|lia|lia|done].
  - assert (next = lastIncludedIndex rf) as -> by lia. right.
    rewrite decide_True in Hrep by lia. assert (r = true) as -> by (destruct r; [done|destruct Hi; split; [lia|done]]).
    split; [lia|]. split; [lia|]. split; [done|]. split; [done|].
    split; [apply prev_below; lia|]. rewrite Z.sub_diag. change (drop (Z.to_nat 0) (Log rf)) with (Log rf).
    destruct (Log rf) as [|x l]; [done|]. exists x. f_equal. cbn in Hd. rewrite drop_0 in Hd. rewrite Hd. f_equal. lia.
Qed.

(** A rejected request is calm. *)
Lemma AppendEntries_rejected now args rf :
  aer_Success (snd (AppendEntries now args zeroAEReply rf)) = false →
  calm rf (fst (AppendEntries now args zeroAEReply rf)).
Proof.
  unfold AppendEntries. case_decide; [intros _; apply calm_refl|].
  set (rf1 := fst (stepDown now (aea_Term args) rf) <| lastHeartbeat := now |> <| status := Follower |>).
  destruct (matchPrevLog args zeroAEReply rf1) as [reply []]; [done|]. intros _. cbn [fst].
  split; [eapply quiet_trans; [apply quiet_stepDown|apply quiet_follow]|].
  subst rf1. destruct (stepDown_cases now (aea_Term args) rf) as [[-> _]|[_ ->]]; auto.
Qed.

(** Accepted entries: apart from the log, only term, role and commit index move. *)
Lemma AppendEntries_accepted now args rf :
  aer_Success (snd (AppendEntries now args zeroAEReply rf)) = true →
  let rf' := fst (AppendEntries now args zeroAEReply rf) in
  CurrentTerm rf <= aea_Term args ∧ CurrentTerm rf' = aea_Term args ∧ status rf' = Follower ∧
  lastIncludedIndex rf' = lastIncludedIndex rf ∧ lastIncludedTerm rf' = lastIncludedTerm rf ∧
  (commitIndex rf' = commitIndex rf ∨ commitIndex rf < aea_LeaderCommit args ∧
   commitIndex rf' = Z.min (aea_LeaderCommit args) (aea_PrevLogIndex args + len (aea_Entries args))) ∧
  (VotedFor rf' = -1 ∨ VotedFor rf' = VotedFor rf ∧ CurrentTerm rf' = CurrentTerm rf).
Proof.
  intros Hok. pose proof (proj1 (AppendEntries_accepts now args rf) Hok) as (Ht & _).
  pose proof (AppendEntries_cases now args zeroAEReply rf) as Hc. cbv zeta in Hc |- *.
  destruct Hc as [[_ ?]|[_ Hc]]; [lia|].
  destruct (stepDown_cases now (aea_Term args) rf) as [[E ?]|[? E]]; rewrite E in Hc;
    destruct Hc as [->|(l & _ & ->)];
    try (match goal with |- context [updateFollowerCommitIndex ?a ?b ?r] =>
           destruct (updateFollowerCommitIndex_cases a b r) as [[-> Hlc]|[-> Hlc]] end);
    cbn in *; split_and!; auto; lia.
Qed.
End RaftEffects.
