(* ===== verification/RaftSafety.v ===== *)
(** * RaftSafety: what ties the peers of a cluster to its history

    [NI] ties the state of a peer to the history of [RaftGhost]: the log [F]
    behind its snapshot comes from the leaders of the history, it holds what the
    peer accepted, and everything up to the commit index was chosen.  [PI] does so
    for a packet.  Both survive the growth of the history, and the lemmas of the
    file say what a quiet step, accepted entries and a snapshot taken over do to
    them.  [RaftAgreement] goes through the events. *)
From stdpp Require Import base gmap fin_sets list_numbers option list.
From Stdlib Require Import ZArith Lia.
From S2P Require Import Prelude Labgob RaftTypes Raft RaftNode RaftCluster RaftElection RaftLog RaftGhost RaftView RaftEffects.
#[local] Open Scope Z_scope.

Section RaftSafety.
Context {C : Type} `{GobLaws (PersistentState C)}.
Notation Raft := (Raft C).
Notation World := (@World C).
Notation Packet := (@Packet C).
Notation Event := (@Event C).
Notation Entry := (LogEntry C).
Notation Ghost := (@Ghost C).
Implicit Types (rf : Raft) (w : World) (b : Ballots) (g : Ghost) (l L F : list Entry) (T : Z) (i p q c k : nat).

Notation same_upto i l1 l2 := (take (S i) l1 = take (S i) l2).

(** ** Peers and packets of a history *)

(** The log up to [ci] was chosen, in a term up to [T]. *)
Definition commit_ok n g T l (ci : Z) : Prop :=
  ci <= 0 ∨ ∃ T0 N L0, T0 <= T ∧ chosen n g T0 N ∧ gl g !! T0 = Some L0 ∧ ci <= Z.of_nat N ∧
    same_upto (Z.to_nat ci) l L0.

Record NI (n : nat) g p F rf : Prop := {
  ni_view : view rf F;
  ni_low : lastIncludedIndex rf <= commitIndex rf;
  ni_pos : 0 <= CurrentTerm rf;
  ni_log : log_ok g F;
  ni_terms : terms_upto (CurrentTerm rf) F;
  ni_ct : ct g p = CurrentTerm rf;
  ni_keeps : ∀ T i L, gl g !! T = Some L → has_entry g T i → could_choose n g T i →
    (i ≤ acc g p T)%nat → same_upto i F L;
  ni_cand : status rf = Candidate → 0 < CurrentTerm rf ∧
    cl g !! (p, CurrentTerm rf) = Some F ∧ wn g !! CurrentTerm rf ≠ Some p;
  ni_lead : status rf = Leader → wn g !! CurrentTerm rf = Some p ∧
    gl g !! CurrentTerm rf = Some F ∧ acc g p (CurrentTerm rf) = (length F - 1)%nat ∧
    ∀ q m, q ≠ p → matchIndex rf !! q = Some m →
      m <= Z.of_nat (acc g q (CurrentTerm rf)) ∨ commit_ok n g (CurrentTerm rf) F m;
  ni_commit : commit_ok n g (CurrentTerm rf) F (commitIndex rf)
}.

(** The entries a leader with log [L0] sends: from [prev + 1] on, or, while a
    snapshot is on its way, from the dummy entry in the place of [prev + 1]. *)
Definition sent_from (args : AppendEntriesArgs C) L0 : Prop :=
  let prev := aea_PrevLogIndex args in
  (0 <= prev + 1 <= len L0 ∧ aea_Entries args = drop (Z.to_nat (prev + 1)) L0 ∧
   (0 < prev → ∃ e, L0 !! Z.to_nat prev = Some e ∧ aea_PrevLogTerm args = le_Term e)) ∨
  (0 < prev ∧ prev + 1 < len L0 ∧ aea_PrevLogTerm args = -1 ∧
   ∃ x, aea_Entries args = x :: drop (Z.to_nat (prev + 2)) L0).

Definition sent_log g (args : AppendEntriesArgs C) L0 : Prop :=
  L0 ≠ [] ∧ (∃ L, gl g !! aea_Term args = Some L ∧ L0 `prefix_of` L) ∧ sent_from args L0.

(** A snapshot up to an index that was chosen, in a term up to that of its leader. *)
Definition covers_chosen n g (args : InstallSnapshotArgs) : Prop :=
  isa_LastIncludedIndex args <= 0 ∨
  ∃ T0 N L0 e, T0 <= isa_Term args ∧ chosen n g T0 N ∧ gl g !! T0 = Some L0 ∧
    isa_LastIncludedIndex args <= Z.of_nat N ∧
    L0 !! Z.to_nat (isa_LastIncludedIndex args) = Some e ∧ isa_LastIncludedTerm args = le_Term e.

Definition PI (n : nat) g (pk : Packet) : Prop :=
  match pk with
  | RVReq c p args => ∃ L, cl g !! (c, rva_Term args) = Some L ∧
      rva_LastLogIndex args = len L - 1 ∧ rva_LastLogTerm args = last_term L
  | AEReq _ p args => ∃ L0, sent_log g args L0 ∧ commit_ok n g (aea_Term args) L0 (aea_LeaderCommit args)
  | AERep _ p args reply => aer_Success reply = true →
      aea_PrevLogIndex args + len (aea_Entries args) <= Z.of_nat (acc g p (aea_Term args))
  | ISReq _ _ args | ISRep _ _ args _ => covers_chosen n g args
  | RVRep _ _ _ _ | GInstall _ _ | GDone _ _ => True
  end.

Record SI (n : nat) b g w : Prop := {
  si_inv : inv n b w;
  si_g : GI n b g;
  si_node p rf : nodes w !! p = Some rf → ∃ F, NI n g p F rf;
  si_net pk : pk ∈ net w → PI n g pk
}.

(** ** They survive the growth of the history *)
Lemma chosen_length n g T N L : chosen n g T N → gl g !! T = Some L → (N < length L)%nat.
Proof.
  intros [(L1 & e & HL1 & He & _) _] HL. rewrite HL in HL1. injection HL1 as <-.
  by eapply lookup_lt_Some.
Qed.

Lemma commit_ok_evolves n g g' T T' l ci :
  evolves g g' → T <= T' → commit_ok n g T l ci → commit_ok n g' T' l ci.
Proof.
  intros He HT [?|(T0 & N & L0 & HT0 & Hch & HL0 & Hci & Hs)]; [by left|right].
  pose proof (chosen_length _ _ _ _ _ Hch HL0) as Hlen.
  destruct (ev_gl _ _ He _ _ HL0) as (L' & HL' & Hp). exists T0, N, L'.
  split; [lia|]. split; [by eapply chosen_evolves|]. split; [done|]. split; [done|].
  rewrite Hs. symmetry. apply upto_prefix; [done|]. lia.
Qed.

Lemma commit_ok_same n g T l l' ci :
  same_upto (Z.to_nat ci) l' l → commit_ok n g T l ci → commit_ok n g T l' ci.
Proof.
  intros Hs [?|(T0 & N & L0 & HT0 & Hch & HL0 & Hci & Hs0)]; [by left|right].
  exists T0, N, L0. by rewrite Hs.
Qed.

Lemma commit_ok_mono n g T l (ci ci' : Z) : ci' <= ci → commit_ok n g T l ci → commit_ok n g T l ci'.
Proof.
  intros Hle [?|(T0 & N & L0 & HT0 & Hch & HL0 & Hci & Hs0)]; [left; lia|right].
  exists T0, N, L0. split_and!; [done|done|done|lia|]. eapply upto_le; [|exact Hs0]. lia.
Qed.

(** A commit index that was chosen is inside the log. *)
Lemma commit_ok_length n g T l ci :
  commit_ok n g T l ci → 0 < ci → (Z.to_nat ci < length l)%nat.
Proof.
  intros [?|(T0 & N & L0 & HT0 & Hch & HL0 & Hci & Hs)] Hpos; [lia|].
  pose proof (chosen_length _ _ _ _ _ Hch HL0) as Hlen.
  eapply upto_length; [symmetry; exact Hs|]. lia.
Qed.

Lemma commit_ok_prefix n g T l l' ci : l `prefix_of` l' → commit_ok n g T l ci → commit_ok n g T l' ci.
Proof.
  intros Hp Hc. destruct (decide (0 < ci)); [|left; lia].
  eapply commit_ok_same; [|exact Hc]. apply upto_prefix; [done|]. by eapply commit_ok_length.
Qed.

Lemma covers_chosen_evolves n g g' args : evolves g g' → covers_chosen n g args → covers_chosen n g' args.
Proof.
  intros He [?|(T0 & N & L0 & e & HT0 & Hch & HL0 & Hi & Hle & Ht)]; [by left|right].
  destruct (ev_gl _ _ He _ _ HL0) as (L' & HL' & Hp). exists T0, N, L', e.
  split; [done|]. split; [by eapply chosen_evolves|]. split; [done|]. split; [done|].
  split; [by eapply prefix_lookup|done].
Qed.

Lemma sent_log_evolves g g' args L0 : evolves g g' → sent_log g args L0 → sent_log g' args L0.
Proof.
  intros He (Hne & (L & HL & Hp) & Hrest). split; [done|]. split; [|done].
  destruct (ev_gl _ _ He _ _ HL) as (L' & HL' & Hp'). exists L'. split; [done|]. by etrans.
Qed.

Lemma PI_evolves n g g' pk : evolves g g' → PI n g pk → PI n g' pk.
Proof.
  intros He. destruct pk as [c p args|c p args r|l p args|l p args r|l p|l p args|l p args r|l p]; cbn; try done.
  - intros (L & HL & Hrest). exists L. split; [by eapply lookup_weaken, He|done].
  - intros (L0 & Hs & Hc). exists L0. split; [by eapply sent_log_evolves|].
    by eapply commit_ok_evolves; [| |exact Hc].
  - intros Hr Hs. specialize (Hr Hs). pose proof (ev_acc _ _ He p (aea_Term args)). lia.
  - by apply covers_chosen_evolves.
  - by apply covers_chosen_evolves.
Qed.

Lemma keeps_evolves n b g g' p l :
  GI n b g → evolves g g' → (∀ T, acc g' p T = acc g p T) →
  (∀ T i L, gl g !! T = Some L → has_entry g T i → could_choose n g T i →
    (i ≤ acc g p T)%nat → same_upto i l L) →
  ∀ T i L, gl g' !! T = Some L → has_entry g' T i → could_choose n g' T i →
    (i ≤ acc g' p T)%nat → same_upto i l L.
Proof.
  intros Hg He Hacc Hk T i L' HL' Hen Hch Hi. rewrite Hacc in Hi.
  assert (0 < i)%nat as Hpos by (by destruct Hen as (? & ? & _ & _ & _ & ?)).
  destruct (gi_acc _ _ _ Hg p T) as (_ & L & HL & Hlen); [lia|].
  destruct (ev_gl _ _ He _ _ HL) as (L1 & HL1 & Hp). rewrite HL1 in HL'. injection HL' as ->.
  rewrite (Hk T i L HL); [|by eapply accepted_back|by eapply could_choose_evolves|done].
  symmetry. apply upto_prefix; [done|lia].
Qed.

(** What a leader knows of its followers. *)
Lemma match_evolves n g g' T T' F q (m : Z) :
  evolves g g' → T <= T' → m <= Z.of_nat (acc g q T) ∨ commit_ok n g T F m →
  m <= Z.of_nat (acc g' q T) ∨ commit_ok n g' T' F m.
Proof.
  intros He HT [Hm|Hc]; [left; pose proof (ev_acc _ _ He q T); lia|right].
  by eapply commit_ok_evolves; [| |exact Hc].
Qed.

(** A peer that does not move. *)
Lemma NI_other n b g g' p F rf :
  GI n b g → evolves g g' → ct g' p = ct g p → (∀ T, acc g' p T = acc g p T) →
  (∀ T, wn g' !! T = Some p → wn g !! T = Some p ∧ gl g' !! T = gl g !! T) →
  NI n g p F rf → NI n g' p F rf.
Proof.
  intros Hg He Hct Hacc Hwn [Hvw Hlw Hps Hlg Htm Hcu Hk Hcd Hld Hcm]. split; try done.
  - by eapply log_ok_evolves.
  - by rewrite Hct.
  - by eapply keeps_evolves.
  - intros Hs. destruct (Hcd Hs) as (? & Hcl & Hw). split; [done|].
    split; [by eapply lookup_weaken, He|]. by intros [? _]%Hwn.
  - intros Hs. destruct (Hld Hs) as (Hw & Hgl & Ha & Hm).
    assert (wn g' !! CurrentTerm rf = Some p) as Hw' by (by eapply lookup_weaken, He).
    split; [done|]. destruct (Hwn _ Hw') as [_ ->]. split; [done|]. rewrite Hacc. split; [done|].
    intros q m Hq Hqm. eapply match_evolves; [exact He|reflexivity|by apply Hm].
  - by eapply commit_ok_evolves; [| |exact Hcm].
Qed.

(** ** One peer moves *)

(** New votes are the mover's, in its new term. *)
Lemma new_vote n b b' w w' i rf rf' p (t v : Z) :
  inv n b w → inv n b' w' → grown b b' w' →
  nodes w !! i = Some rf → nodes w' = <[i := rf']> (nodes w) →
  b' !! (p, t) = Some v →
  b !! (p, t) = Some v ∨
  (p = i ∧ t = CurrentTerm rf' ∧ v = VotedFor rf' ∧ v ≠ -1 ∧
   (CurrentTerm rf' ≠ CurrentTerm rf ∨ VotedFor rf' ≠ VotedFor rf)).
Proof.
  intros Hinv Hinv' [_ Hgr] Hi Hn Hb. destruct (Hgr _ _ _ Hb) as [?|(r & Hr & <- & <-)]; [by left|].
  destruct (inv_node _ _ _ Hinv' _ _ Hr) as (_ & _ & _ & [_ Hbal] & _).
  destruct (Hbal _ _ Hb) as [Hv _]. rewrite Hn in Hr.
  assert (∀ r0, nodes w !! p = Some r0 → CurrentTerm r = CurrentTerm r0 → VotedFor r = VotedFor r0 →
    b !! (p, CurrentTerm r) = Some (VotedFor r)) as Hold.
  { intros r0 Hr0 E1 E2. destruct (inv_node _ _ _ Hinv _ _ Hr0) as (_ & _ & _ & [Hcur _] & _).
    rewrite E1, E2. apply Hcur. by rewrite <- E2. }
  apply list_lookup_insert_Some in Hr as [(-> & <- & _)|[_ Hr]]; [|left; by eapply Hold].
  destruct (decide (CurrentTerm rf' = CurrentTerm rf)) as [Et|Et].
  - destruct (decide (VotedFor rf' = VotedFor rf)) as [Ev|Ev]; [left; by eapply Hold|].
    right. split_and!; auto.
  - right. split_and!; auto.
Qed.

(** The mover votes well: for nobody new, or for a candidate not behind it. *)
Definition votes_well n g' i rf rf' : Prop :=
  VotedFor rf' = -1 ∨ (CurrentTerm rf' = CurrentTerm rf ∧ VotedFor rf' = VotedFor rf) ∨
  ∃ L, cl g' !! (Z.to_nat (VotedFor rf'), CurrentTerm rf') = Some L ∧
    vote_good n g' i (CurrentTerm rf') L.

Lemma votes_well_good n b b' w w' g' i rf rf' :
  inv n b w → inv n b' w' → grown b b' w' →
  nodes w !! i = Some rf → nodes w' = <[i := rf']> (nodes w) →
  ct g' i = CurrentTerm rf' → votes_well n g' i rf rf' → votes_good n b b' g'.
Proof.
  intros Hinv Hinv' Hgr Hi Hn Hct Hv. split; [apply Hgr|]. intros p t c Hb.
  destruct (new_vote _ _ _ _ _ _ _ _ _ _ _ Hinv Hinv' Hgr Hi Hn Hb)
    as [?|(-> & -> & -> & Hne & Hch)]; [by left|right]. split; [lia|].
  destruct Hv as [?|[[? ?]|?]]; [done|by destruct Hch|done].
Qed.

(** What the history of the others must not lose when peer [i] moves. *)
Record moves_only g g' i : Prop := {
  mo_ct q : q ≠ i → ct g' q = ct g q;
  mo_acc q T : q ≠ i → acc g' q T = acc g q T;
  mo_wn q T : q ≠ i → wn g' !! T = Some q → wn g !! T = Some q ∧ gl g' !! T = gl g !! T
}.

Lemma moves_trans g1 g2 g3 i : moves_only g1 g2 i → moves_only g2 g3 i → moves_only g1 g3 i.
Proof.
  intros [Hc1 Ha1 Hw1] [Hc2 Ha2 Hw2]. split.
  - intros q Hq. by rewrite Hc2, Hc1.
  - intros q T Hq. by rewrite Ha2, Ha1.
  - intros q T Hq Hw. destruct (Hw2 _ _ Hq Hw) as [Hw' ->]. by apply Hw1 in Hw'.
Qed.

Lemma SI_move n b b' g g' w w' i rf' F :
  SI n b g w → inv n b' w' → GI n b' g' → evolves g g' → moves_only g g' i →
  nodes w' = <[i := rf']> (nodes w) → NI n g' i F rf' →
  (∀ pk, pk ∈ net w' → pk ∈ net w ∨ PI n g' pk) → SI n b' g' w'.
Proof.
  intros [Hinv Hg Hnode Hnet] Hinv' Hg' Hev [Hct Hacc Hwn] Hn HNI Hpk. split; [done|done| |].
  - intros p rf Hp. rewrite Hn in Hp.
    apply list_lookup_insert_Some in Hp as [(-> & <- & _)|[Hne Hp]]; [by exists F|].
    destruct (Hnode _ _ Hp) as [F0 HN]. exists F0.
    eapply NI_other; [exact Hg|exact Hev| | | |exact HN]; auto.
  - intros pk Hin. destruct (Hpk _ Hin) as [Hold|]; [|done].
    eapply PI_evolves; [exact Hev|by apply Hnet].
Qed.

Lemma moves_turn i t g : moves_only g (g_turn i t g) i.
Proof. split; cbn; [by intros; apply set_ct_ne|done|done]. Qed.

Lemma NI_quiet n b g i F rf rf' :
  GI n b g → NI n g i F rf → quiet rf rf' → NI n (g_turn i (CurrentTerm rf') g) i F rf'.
Proof.
  intros Hg [Hvw Hlw Hps Hlg Htm Hcu Hk Hcd Hld Hcm] [Hqv Hql Ht Hs Hm Hq].
  assert (evolves g (g_turn i (CurrentTerm rf') g)) as Hev by (apply evolves_turn; lia).
  split; cbn [g_turn gl wn cl acc ct].
  - auto.
  - auto.
  - lia.
  - done.
  - intros j e Hj He. specialize (Htm j e Hj He). lia.
  - apply set_ct_eq.
  - exact (keeps_evolves n b g (g_turn i (CurrentTerm rf') g) i F Hg Hev (λ _, eq_refl) Hk).
  - intros Hst. destruct Hs as [E ->]; [by rewrite Hst|]. apply Hcd. congruence.
  - intros Hst. destruct Hs as [E Et]; [by rewrite Hst|]. rewrite Et.
    destruct Hld as (? & ? & ? & Hmi); [congruence|].
    split; [done|]. split; [done|]. split; [done|]. intros q m Hq' Hqm.
    by apply Hmi, Hq.
  - eapply (commit_ok_evolves _ g); [exact Hev|exact Ht|].
    eapply commit_ok_mono; [|exact Hcm]. destruct Hm as [->|[_ ?]]; lia.
Qed.

(** The mover first reaches its new term, and then does the rest. *)
Lemma turn_first n b b' g w w' i F rf rf1 rf' :
  SI n b g w → nodes w !! i = Some rf → NI n g i F rf → nodes w' = <[i := rf']> (nodes w) →
  inv n b' w' → grown b b' w' → quiet rf rf1 → CurrentTerm rf' = CurrentTerm rf1 →
  let g1 := g_turn i (CurrentTerm rf1) g in
  votes_well n g1 i rf rf' →
  GI n b' g1 ∧ NI n g1 i F rf1 ∧ evolves g g1 ∧ moves_only g g1 i.
Proof.
  intros HSI Hi HNI Hn Hinv' Hgr Hq Ht g1 Hv.
  assert (ct g i <= CurrentTerm rf1) as Hct by (rewrite (ni_ct _ _ _ _ _ HNI); apply Hq).
  split; [|split; [|split]].
  - apply (GI_turn n b); [apply HSI|done|].
    eapply votes_well_good; [apply HSI|done..| |exact Hv]. cbn. by rewrite set_ct_eq.
  - eapply NI_quiet; [apply HSI|done|done].
  - by apply evolves_turn.
  - apply moves_turn.
Qed.

(** The history goes on to one for the next world. *)
Definition goes_on n b' g w' : Prop := ∃ g', evolves g g' ∧ SI n b' g' w'.

Lemma SI_quiet n b b' g w w' i rf rf' :
  SI n b g w → nodes w !! i = Some rf → nodes w' = <[i := rf']> (nodes w) →
  inv n b' w' → grown b b' w' → quiet rf rf' →
  votes_well n (g_turn i (CurrentTerm rf') g) i rf rf' →
  (∀ pk, pk ∈ net w' → pk ∈ net w ∨ PI n g pk) → goes_on n b' g w'.
Proof.
  intros HSI Hi Hn Hinv' Hgr Hq Hv Hpk. destruct (si_node _ _ _ _ HSI _ _ Hi) as [F HF].
  destruct (turn_first _ _ _ _ _ _ _ _ _ _ _ HSI Hi HF Hn Hinv' Hgr Hq eq_refl Hv) as (Hg & HN & Hev & Hmo).
  eexists. split; [exact Hev|]. eapply SI_move; [exact HSI|exact Hinv'|exact Hg|done..|].
  intros pk [?|?]%Hpk; [by left|right; by eapply PI_evolves].
Qed.

Lemma calm_votes n g i rf rf' : calm rf rf' → votes_well n g i rf rf'.
Proof. intros [_ [?|[? ?]]]; [by left|right; by left]. Qed.

Lemma SI_calm n b b' g w w' i rf rf' :
  SI n b g w → nodes w !! i = Some rf → nodes w' = <[i := rf']> (nodes w) →
  inv n b' w' → grown b b' w' → calm rf rf' →
  (∀ pk, pk ∈ net w' → pk ∈ net w ∨ PI n g pk) → goes_on n b' g w'.
Proof. intros ????? Hc ?. eapply SI_quiet; [done..|apply Hc|by apply calm_votes|done]. Qed.

(** After its turn the mover does one more thing. *)
Lemma SI_then n b b' g g1 g2 w w' i F rf' :
  SI n b g w → inv n b' w' → nodes w' = <[i := rf']> (nodes w) →
  evolves g g1 → moves_only g g1 i →
  evolves g1 g2 → moves_only g1 g2 i → GI n b' g2 → NI n g2 i F rf' →
  (∀ pk, pk ∈ net w' → pk ∈ net w ∨ PI n g2 pk) → goes_on n b' g w'.
Proof.
  intros HSI Hinv' Hn He1 Hm1 He2 Hm2 Hg HN Hpk.
  exists g2. split; [by eapply evolves_trans|].
  eapply SI_move; [exact HSI|exact Hinv'|exact Hg| |by eapply moves_trans|done..].
  by eapply evolves_trans.
Qed.

(** ** Accepting entries *)

Lemma log_ok_prefix g L0 L : L0 ≠ [] → L0 `prefix_of` L → log_ok g L → log_ok g L0.
Proof.
  intros Hne Hp [Hd Hl]. split.
  - destruct L0 as [|x L0]; [done|]. destruct Hp as [k ->]. done.
  - intros i e Hi He. destruct (Hl i e Hi (prefix_lookup _ _ _ _ Hp He)) as (L' & HL' & Hs).
    exists L'. split; [done|]. rewrite <- Hs. symmetry. apply upto_prefix; [done|].
    by eapply lookup_lt_Some.
Qed.

Lemma sent_log_ok n b g args L0 : GI n b g → sent_log g args L0 → log_ok g L0.
Proof.
  intros Hg (Hne & (L & HL & Hp) & _). eapply log_ok_prefix; [done|done|].
  by destruct (gi_log _ _ _ Hg _ _ HL) as (_ & ? & _).
Qed.

Lemma sent_last args L0 :
  sent_from args L0 → aea_PrevLogIndex args + len (aea_Entries args) = len L0 - 1.
Proof.
  unfold sent_from, len. intros [(? & -> & _)|(? & ? & _ & x & ->)]; cbn [length]; rewrite length_drop; lia.
Qed.

Lemma log_ok_term n b g F j e : GI n b g → log_ok g F → (0 < j)%nat → F !! j = Some e → 0 < le_Term e.
Proof.
  intros Hg [_ Hl] Hj He. destruct (Hl j e Hj He) as (L & HL & _). by destruct (gi_log _ _ _ Hg _ _ HL).
Qed.

(** What follows the snapshot of the receiver, whichever way it was sent. *)
Lemma sent_skipped n b g args rf F L0 :
  GI n b g → view rf F → log_ok g F → sent_from args L0 → aea_PrevLogIndex args < len F →
  getPrevLogTerm rf (aea_PrevLogIndex args) = aea_PrevLogTerm args →
  drop (skipped rf (aea_PrevLogIndex args)) (aea_Entries args)
  = drop (S (Z.to_nat (Z.max (aea_PrevLogIndex args) (lastIncludedIndex rf)))) L0.
Proof.
  intros Hg Hv HF Hs Hlast Hterm. pose proof (v_pos _ _ Hv). unfold skipped.
  destruct Hs as [(? & -> & _)|(? & ? & Hpt & x & ->)]; [rewrite drop_drop; f_equal; lia|].
  assert (aea_PrevLogIndex args < lastIncludedIndex rf) as Hlt.
  { destruct (decide (aea_PrevLogIndex args < lastIncludedIndex rf)) as [|Hge]; [done|].
    destruct (lookup_lt_is_Some_2 F (Z.to_nat (aea_PrevLogIndex args))) as [e He]; [unfold len in *; lia|].
    rewrite (view_prev rf F _ e) in Hterm by (done || lia).
    pose proof (log_ok_term n b g F (Z.to_nat (aea_PrevLogIndex args)) e Hg HF ltac:(lia) He). lia. }
  replace (Z.to_nat (lastIncludedIndex rf - aea_PrevLogIndex args))
    with (S (Z.to_nat (lastIncludedIndex rf - aea_PrevLogIndex args - 1))) by lia.
  cbn [drop]. rewrite drop_drop. f_equal. lia.
Qed.

(** Up to there, the receiver has the leader's log. *)
Lemma sent_agrees g args rf F L0 LT :
  view rf F → log_ok g F → log_ok g L0 → L0 `prefix_of` LT → sent_from args L0 →
  same_upto (Z.to_nat (lastIncludedIndex rf)) F LT → aea_PrevLogIndex args < len F →
  getPrevLogTerm rf (aea_PrevLogIndex args) = aea_PrevLogTerm args →
  let K := S (Z.to_nat (Z.max (aea_PrevLogIndex args) (lastIncludedIndex rf))) in
  (K ≤ length L0)%nat → (aea_PrevLogTerm args ≠ -1 ∨ aea_PrevLogIndex args <= lastIncludedIndex rf) →
  take K F = take K L0.
Proof.
  intros Hv HF HL0 Hp Hs Hlow Hlast Hterm K HK Hcase. pose proof (v_pos _ _ Hv).
  destruct (decide (aea_PrevLogIndex args <= lastIncludedIndex rf)) as [Hle|Hgt].
  - assert (K = S (Z.to_nat (lastIncludedIndex rf))) as -> by (unfold K; lia). rewrite Hlow.
    apply upto_prefix; [done|lia].
  - assert (K = S (Z.to_nat (aea_PrevLogIndex args))) as -> by (unfold K; lia).
    destruct Hs as [(_ & _ & Hpt)|(_ & _ & ? & _)]; [|by destruct Hcase].
    destruct Hpt as (e & He & Het); [lia|].
    destruct (lookup_lt_is_Some_2 F (Z.to_nat (aea_PrevLogIndex args))) as [e' He']; [unfold len in *; lia|].
    eapply log_match; [exact HF|exact HL0|exact He'|exact He|].
    rewrite (view_prev rf F _ e') in Hterm by (done || lia). congruence.
Qed.

(** The accepted log starts with the one the leader sent. *)
Lemma accept_log n b now args rf g F L0 LT :
  GI n b g → view rf F → log_ok g F → sent_log g args L0 →
  gl g !! aea_Term args = Some LT → same_upto (Z.to_nat (lastIncludedIndex rf)) F LT →
  aer_Success (snd (AppendEntries now args zeroAEReply rf)) = true →
  ∃ F', view (fst (AppendEntries now args zeroAEReply rf)) F' ∧ L0 `prefix_of` F' ∧
    (F' = F ∨ (F' = L0 ∧ ¬ L0 `prefix_of` F)).
Proof.
  intros Hg Hv HF Hsent HLT Hlow Hok. pose proof (sent_log_ok _ _ _ _ _ Hg Hsent) as HL0.
  destruct Hsent as (_ & (LT' & HLT' & Hp) & Hs). assert (LT' = LT) as -> by congruence.
  destruct (proj1 (AppendEntries_accepts now args rf) Hok) as (_ & Hlast & Hterm).
  rewrite (view_last _ _ Hv) in Hlast.
  destruct (view_accept now args rf F Hv Hok) as [HK Hv'].
  rewrite (sent_skipped n b g args rf F L0) in Hv' by (done || lia).
  pose proof (sent_agrees g args rf F L0 LT Hv HF HL0 Hp Hs Hlow ltac:(lia) Hterm) as Hag. cbv zeta in Hag.
  set (K := S (Z.to_nat (Z.max (aea_PrevLogIndex args) (lastIncludedIndex rf)))) in *.
  pose proof (v_pos _ _ Hv) as Hpos.
  destruct (decide (K ≤ length L0)%nat) as [HKL|HKL].
  - assert (take K F = take K L0) as Htake.
    { apply Hag; [done|]. destruct (decide (aea_PrevLogIndex args <= lastIncludedIndex rf)); [by right|left].
      destruct (lookup_lt_is_Some_2 F (Z.to_nat (aea_PrevLogIndex args))) as [e He]; [unfold len in *; lia|].
      rewrite <- Hterm, (view_prev rf F _ e) by (done || lia).
      pose proof (log_ok_term n b g F (Z.to_nat (aea_PrevLogIndex args)) e Hg HF ltac:(lia) He). lia. }
    destruct (merge_match (drop K F) (drop K L0)) as [[Em [k Hpk]]|[Em Hpk]].
    { intros j o e. rewrite !lookup_drop. intros Ho He Ht.
      pose proof (log_match _ _ _ _ _ _ HF HL0 Ho He Ht) as Hm.
      apply (f_equal (drop K)) in Hm. rewrite !skipn_firstn_comm in Hm.
      by replace (S (K + j) - K)%nat with (S j) in Hm by lia. }
    + rewrite Em, take_drop in Hv'. exists F. split; [done|]. split; [|by left].
      exists k. rewrite <- (take_drop K F), Hpk, Htake, app_assoc. by rewrite take_drop.
    + rewrite Em, Htake, take_drop in Hv'. exists L0. split; [done|]. split; [done|right]. split; [done|].
      intros [k Hk]. apply Hpk. rewrite Hk. exists (drop (K - length L0) k). apply skipn_app.
  - rewrite (drop_ge L0) in Hv' by lia.
    assert (∀ l, merge l ([] : list Entry) = l) as Em by (by intros []). rewrite Em, take_drop in Hv'.
    exists F. split; [done|]. split; [|by left].
    assert (K = S (Z.to_nat (lastIncludedIndex rf))) as EK.
    { unfold K. destruct Hs as [(? & _)|(? & ? & _)]; unfold K, len in *; lia. }
    destruct Hp as [k ->]. rewrite EK in HKL.
    apply (f_equal (take (length L0))) in Hlow. rewrite !take_take, Nat.min_l in Hlow by lia.
    rewrite take_app_length in Hlow. exists (drop (length L0) F). by rewrite <- Hlow at 1; rewrite take_drop.
Qed.

(** It keeps what agrees with the leader's log. *)
Lemma accept_keeps i l l' L0 LT :
  L0 `prefix_of` LT → (l' = l ∨ (l' = L0 ∧ ¬ L0 `prefix_of` l)) → same_upto i l LT → same_upto i l' l.
Proof.
  intros Hp [->|[-> Hn]] Hs; [done|]. destruct (decide (i < length L0)%nat) as [Hi|Hi].
  - rewrite Hs. symmetry. by apply upto_prefix.
  - destruct Hn. destruct Hp as [k ->]. exists (drop (length L0) l).
    rewrite <- (take_drop (length L0) l) at 1. f_equal.
    apply (f_equal (take (length L0))) in Hs. rewrite !take_take in Hs.
    replace (length L0 `min` S i)%nat with (length L0) in Hs by lia. rewrite Hs. apply take_app_length.
Qed.

Lemma chosen_in_later n b g T0 N L T L' :
  GI n b g → T0 <= T → chosen n g T0 N → gl g !! T0 = Some L → gl g !! T = Some L' → same_upto N L' L.
Proof.
  intros Hg HT [He Hc]%chosen_could HL HL'. destruct (decide (T0 = T)) as [->|].
  - rewrite HL in HL'. by injection HL' as ->.
  - eapply (gi_lc _ _ _ Hg); [done|done|lia|done|done].
Qed.

Lemma moves_accept i T k g : moves_only g (g_accept i T k g) i.
Proof.
  split; cbn; [by intros; apply set_ct_ne| |done].
  intros q U Hq. apply set_acc_ne. by intros [? _].
Qed.

(** What was committed before stays when the log changes. *)
Lemma commit_ok_accept n b g T l l' L0 LT (ci : Z) T1 :
  GI n b g → T1 <= T → gl g !! T = Some LT → L0 `prefix_of` LT →
  (l' = l ∨ (l' = L0 ∧ ¬ L0 `prefix_of` l)) → commit_ok n g T1 l ci → commit_ok n g T l' ci.
Proof.
  intros Hg HT HLT Hp Hl' [?|(T0 & N & Lc & HT0 & Hch & HLc & Hci & Hs)]; [by left|].
  assert (T0 <= T) as HT2 by lia.
  pose proof (chosen_in_later _ _ _ _ _ _ _ _ Hg HT2 Hch HLc HLT) as Hlater.
  apply (upto_le _ (Z.to_nat ci)) in Hlater; [|lia].
  eapply commit_ok_same.
  - eapply accept_keeps; [exact Hp|exact Hl'|]. by rewrite Hlater.
  - right. exists T0, N, Lc. split_and!; done || lia.
Qed.

(** The commit index of an accepted request. *)
Lemma commit_ok_sent n g T l' L0 (lc last : Z) :
  L0 ≠ [] → L0 `prefix_of` l' → last = len L0 - 1 →
  commit_ok n g T L0 lc → commit_ok n g T l' (Z.min lc last).
Proof.
  intros Hne Hp -> [?|(T0 & N & Lc & HT0 & Hch & HLc & Hci & Hs)]; [left; lia|].
  assert (0 < length L0)%nat by (destruct L0; [done|cbn; lia]).
  eapply (commit_ok_same _ _ _ L0).
  - apply upto_prefix; [done|]. unfold len. lia.
  - right. exists T0, N, Lc. split_and!; [done|done|done|lia|].
    eapply upto_le; [|exact Hs]. lia.
Qed.

Lemma NI_accept n b g p F F' rf rf' T L0 LT :
  GI n b g → NI n g p F rf → CurrentTerm rf <= T → CurrentTerm rf' = T → status rf' = Follower →
  view rf' F' → lastIncludedIndex rf' <= commitIndex rf' →
  gl g !! T = Some LT → L0 ≠ [] → L0 `prefix_of` LT → L0 `prefix_of` F' →
  (F' = F ∨ (F' = L0 ∧ ¬ L0 `prefix_of` F)) →
  commit_ok n g T F' (commitIndex rf') →
  NI n (g_accept p T (length L0 - 1) g) p F' rf'.
Proof.
  intros Hg [_ _ Hps Hlg Htm Hcu Hk _ _ _] Hle Ht Hs Hvw Hlw HLT Hne Hp0 Hp1 Hl' Hcm.
  assert (evolves g (g_accept p T (length L0 - 1) g)) as Hev by (apply evolves_accept; lia).
  assert (0 < length L0)%nat as Hlen by (destruct L0; [done|cbn; lia]).
  destruct (gi_log _ _ _ Hg _ _ HLT) as (HT & Hlok & _ & Hup).
  split; rewrite ?Ht; try congruence; try done.
  - apply (log_ok_evolves g); [done|]. destruct Hl' as [->|[-> _]]; [done|exact (log_ok_prefix _ _ _ Hne Hp0 Hlok)].
  - destruct Hl' as [->|[-> _]]; intros j e Hj He.
    + specialize (Htm j e Hj He). lia.
    + eapply Hup; [done|]. by eapply prefix_lookup.
  - apply set_ct_eq.
  - cbn. intros U i L HL Hen Hch Hacc.
    assert (0 < i)%nat as Hpos by (by destruct Hen as (? & ? & _ & _ & _ & ?)).
    apply (could_choose_evolves _ _ _ _ _ Hev) in Hch.
    assert ((i ≤ acc g p U)%nat → same_upto i F' L) as Hold.
    { intros Ha. destruct (gi_acc _ _ _ Hg p U) as [HU _]; [lia|]. rewrite Hcu in HU.
      pose proof (Hk U i L HL Hen Hch Ha) as Hs1. rewrite <- Hs1. eapply accept_keeps; [exact Hp0|exact Hl'|].
      rewrite Hs1. destruct (decide (U = T)) as [->|]; [rewrite HL in HLT; by injection HLT as ->|].
      symmetry. eapply (gi_lc _ _ _ Hg U T); [done|done|lia|done|done]. }
    unfold set_acc in Hacc. case_decide as Hd; [|by apply Hold]. destruct Hd as [_ ->].
    destruct (decide (i ≤ acc g p T)%nat) as [|Hn]; [by apply Hold|].
    rewrite HL in HLT. injection HLT as <-.
    rewrite (upto_prefix i L0 F') by (done || lia). symmetry. apply upto_prefix; [done|lia].
  - by eapply commit_ok_evolves; [| |exact Hcm].
Qed.

(** ** Taking over a snapshot *)

(** What a term's leader could have chosen, next to what was chosen in another. *)
Lemma chosen_meets n b g T0 N L0 U i L :
  GI n b g → chosen n g T0 N → gl g !! T0 = Some L0 →
  gl g !! U = Some L → has_entry g U i → could_choose n g U i → same_upto (i `min` N)%nat L0 L.
Proof.
  intros Hg Hch HL0 HL Hen Hco. destruct (decide (U < T0)) as [Hlt|Hge].
  - eapply upto_le; [|eapply (gi_lc _ _ _ Hg U T0); [exact HL|exact HL0|done|done|done]]. lia.
  - symmetry. eapply upto_le; [|eapply chosen_in_later; [exact Hg| |exact Hch|exact HL0|exact HL]]; lia.
Qed.

Lemma NI_install n b g p F F' rf rf' T T0 N L0 (idx : nat) :
  GI n b g → NI n g p F rf → CurrentTerm rf <= T → CurrentTerm rf' = T → status rf' = Follower →
  T0 <= T → chosen n g T0 N → gl g !! T0 = Some L0 → (idx ≤ N)%nat →
  view rf' F' → lastIncludedIndex rf' = Z.of_nat idx →
  commitIndex rf' = Z.max (commitIndex rf) (Z.of_nat idx) → same_upto idx F' L0 →
  (F' = F ∨ (F' = take (S idx) L0 ∧ ¬ same_upto idx F L0)) →
  NI n (g_turn p T g) p F' rf'.
Proof.
  intros Hg [_ _ Hps Hlg Htm Hcu Hk _ _ Hcm] Hle Ht Hs HT0 Hch HL0 Hidx Hvw Hi Hci Hsame HF'.
  assert (evolves g (g_turn p T g)) as Hev by (apply evolves_turn; lia).
  destruct (gi_log _ _ _ Hg _ _ HL0) as (_ & HokL0 & _ & HupL0).
  assert (commit_ok n g T L0 (Z.of_nat idx)) as HcL0
    by (right; exists T0, N, L0; split_and!; done || lia).
  split; rewrite ?Ht; try congruence; cbn [g_turn gl wn cl acc ct].
  - lia.
  - lia.
  - destruct HF' as [->|[-> _]]; [done|]. eapply log_ok_prefix; [|apply prefix_take|done].
    destruct HokL0 as [Hd _]. by destruct L0.
  - destruct HF' as [->|[-> _]]; intros j e Hj He; [specialize (Htm j e Hj He); lia|].
    apply lookup_take_Some in He as [He _]. specialize (HupL0 j e Hj He). lia.
  - apply set_ct_eq.
  - intros U i L HL Hen Hco Hacc.
    apply (could_choose_evolves _ _ _ _ _ Hev) in Hco.
    pose proof (Hk U i L HL Hen Hco Hacc) as HFL. destruct HF' as [->|[-> Hn]]; [done|].
    pose proof (chosen_meets _ _ _ _ _ _ _ _ _ Hg Hch HL0 HL Hen Hco) as Hm.
    destruct (decide (i ≤ idx)%nat) as [Hii|Hii].
    + rewrite Nat.min_l in Hm by lia. rewrite <- Hm, take_take. f_equal. lia.
    + destruct Hn. rewrite (upto_le i idx F L) by (done || lia). symmetry.
      eapply upto_le; [|exact Hm]. lia.
  - rewrite Hci. destruct (decide (commitIndex rf <= Z.of_nat idx)) as [Hc|Hc].
    + rewrite Z.max_r by lia. eapply (commit_ok_evolves _ g); [exact Hev|reflexivity|].
      eapply commit_ok_same; [|exact HcL0]. by rewrite Nat2Z.id.
    + rewrite Z.max_l by lia. eapply (commit_ok_evolves _ g); [exact Hev|exact Hle|].
      destruct HF' as [->|[_ Hn]]; [exact Hcm|]. destruct Hn.
      destruct Hcm as [?|(T1 & N1 & L1 & HT1 & Hch1 & HL1 & Hci1 & Hs1)]; [lia|].
      rewrite (upto_le (Z.to_nat (commitIndex rf)) idx F L1) by (exact Hs1 || lia). symmetry.
      destruct (chosen_could _ _ _ _ Hch1) as [Hen1 Hco1].
      eapply upto_le; [|exact (chosen_meets _ _ _ _ _ _ _ _ _ Hg Hch HL0 HL1 Hen1 Hco1)]. lia.
Qed.
End RaftSafety.
