(* ===== verification/RaftAgreement.v ===== *)
(** * RaftAgreement: no two peers deliver different commands for one index

    The events of [RaftCluster], one by one, with the history they lead to, and
    the theorems: log matching, leader completeness, and the agreement of
    everything peers hand to their services.  The runs of [reach_log] include
    crashes, [Kill], snapshots of the service and their installation. *)
From stdpp Require Import base gmap fin_sets list_numbers option list.
From Stdlib Require Import ZArith Lia.
From S2P Require Import Prelude Labgob RaftTypes Raft RaftNode RaftCluster RaftElection RaftLog RaftApply RaftGhost RaftView RaftEffects RaftSafety.
#[local] Open Scope Z_scope.

Section RaftAgreement.
Context {C : Type} `{GobLaws (PersistentState C)}.
Notation Raft := (Raft C).
Notation World := (@World C).
Notation Packet := (@Packet C).
Notation Event := (@Event C).
Notation Entry := (LogEntry C).
Notation Ghost := (@Ghost C).
Implicit Types (rf : Raft) (w : World) (b : Ballots) (g : Ghost) (l L F : list Entry) (T : Z) (i p q c k : nat).

Notation same_upto i l1 l2 := (take (S i) l1 = take (S i) l2).

Lemma node_me n b g w i rf :
  SI n b g w → nodes w !! i = Some rf → me rf = i ∧ peers rf = n ∧ (i < n)%nat ∧ durable rf.
Proof.
  intros HSI Hi. destruct (inv_node _ _ _ (si_inv _ _ _ _ HSI) _ _ Hi) as (? & ? & ? & _).
  split_and!; [done|done| |done]. rewrite <- (inv_len _ _ _ (si_inv _ _ _ _ HSI)).
  by eapply lookup_lt_Some.
Qed.

(** ** Votes *)

(** A vote for a log that is not behind the voter's. *)
Lemma vote_good_log n b g g' p F rf (t : Z) L :
  GI n b g → NI n g p F rf → evolves g g' → gl g' = gl g → acc g' = acc g →
  (∀ T i, reaches T i F → reaches T i L) → vote_good n g' p t L.
Proof.
  intros Hg HN Hev Egl Eacc HL T i _ Hen Hch Ha. unfold has_entry in Hen. rewrite Egl in Hen.
  rewrite Eacc in Ha. pose proof Hen as (LT & e & HLT & _).
  apply HL. eapply holds_reaches; [exact Hg|apply HN|exact HLT|exact Hen|].
  eapply (ni_keeps _ _ _ _ _ HN); [done|exact Hen|by eapply could_choose_evolves|done].
Qed.

Lemma isLogUpToDate_reaches g rf F (L : list Entry) (li lt : Z) T i :
  view rf F → log_ok g F → li = len L - 1 → lt = last_term L → isLogUpToDate rf li lt = true →
  reaches T i F → reaches T i L.
Proof.
  intros Hv [Hd%lookup_lt_Some _] -> ->. unfold isLogUpToDate.
  rewrite (view_last_term _ _ Hv), (view_last _ _ Hv). unfold len, reaches. cbv zeta.
  case_decide; intros Hup%bool_decide_eq_true_1; lia.
Qed.

(** ** Standing for election *)
Lemma moves_stand i (t : Z) L g : moves_only g (g_stand i t L g) i.
Proof. split; cbn; [by intros; apply set_ct_ne|done|done]. Qed.

Lemma NI_stand n b g i F rf rf' :
  GI n b g → NI n g i F rf → view rf' F → lastIncludedIndex rf' <= commitIndex rf' →
  commitIndex rf' = commitIndex rf → CurrentTerm rf' = CurrentTerm rf + 1 → status rf' = Candidate →
  NI n (g_stand i (CurrentTerm rf') F g) i F rf' ∧ evolves g (g_stand i (CurrentTerm rf') F g) ∧
  terms_upto (CurrentTerm rf') F.
Proof.
  intros Hg HN Hvw Hlw Hci Ht Hst. pose proof HN as [_ _ Hps Hlg Htm Hcu Hk _ _ Hcm].
  assert (cl g !! (i, CurrentTerm rf') = None) as Hfresh.
  { destruct (cl g !! (i, CurrentTerm rf')) as [L0|] eqn:E; [|done].
    destruct (gi_cl _ _ _ Hg _ _ _ E). lia. }
  set (g' := g_stand i (CurrentTerm rf') F g).
  assert (evolves g g') as Hev by (apply evolves_stand; [lia|done]).
  assert (terms_upto (CurrentTerm rf') F) as Htm'.
  { intros j e Hj He. specialize (Htm j e Hj He). lia. }
  split; [|done]. split; rewrite ?Hci; try congruence.
  - lia.
  - by eapply log_ok_evolves.
  - done.
  - cbn. apply set_ct_eq.
  - by eapply (keeps_evolves n b g).
  - intros _. split; [lia|]. cbn. rewrite lookup_insert_eq. split; [done|]. intros Hw.
    destruct (gi_wn _ _ _ Hg _ _ Hw) as [L HL]. destruct (gi_won _ _ _ Hg _ _ HL) as (c & Hc & Hle & _).
    rewrite Hw in Hc. injection Hc as <-. lia.
  - eapply commit_ok_evolves; [exact Hev| |exact Hcm]. lia.
Qed.

Lemma SI_stand n b b' g w w' i F rf rf' :
  SI n b g w → nodes w !! i = Some rf → NI n g i F rf → nodes w' = <[i := rf']> (nodes w) →
  inv n b' w' → grown b b' w' →
  view rf' F → lastIncludedIndex rf' <= commitIndex rf' → commitIndex rf' = commitIndex rf →
  CurrentTerm rf' = CurrentTerm rf + 1 → VotedFor rf' = Z.of_nat i → status rf' = Candidate →
  (∀ pk, pk ∈ net w' → pk ∈ net w ∨ PI n (g_stand i (CurrentTerm rf') F g) pk) →
  goes_on n b' g w'.
Proof.
  intros HSI Hi HN Hn Hinv' Hgr Hvw Hlw Hci Ht Hv Hst Hpk. pose proof (si_g _ _ _ _ HSI) as Hg.
  destruct (NI_stand _ _ _ _ _ _ _ Hg HN Hvw Hlw Hci Ht Hst) as (HN' & Hev & Htm).
  pose proof (ni_ct _ _ _ _ _ HN) as Hct.
  eexists. split; [exact Hev|]. eapply SI_move; [exact HSI|exact Hinv'| |done|apply moves_stand|exact Hn|exact HN'|exact Hpk].
  apply (GI_stand n b); [done|lia|apply HN|done|]. eapply (votes_well_good n b); [apply HSI|done..| |].
  - cbn. apply set_ct_eq.
  - right. right. exists F. cbn. rewrite Hv, Nat2Z.id, lookup_insert_eq. split; [done|].
    by eapply (vote_good_log n b g).
Qed.

(** ** Winning *)
Lemma moves_win i T L g : gl g !! T = None → moves_only g (g_win i T L g) i.
Proof.
  intros Hn. split; cbn; [done| |].
  - intros q U Hq. apply set_acc_ne. by intros [? _].
  - intros q U Hq [[_ ->]|[Hne Hw]]%lookup_insert_Some; [done|]. by rewrite lookup_insert_ne.
Qed.

(** The votes a leader has counted are those of a majority. *)
Lemma leader_quorum n b w i rf :
  inv n b w → nodes w !! i = Some rf → status rf = Leader →
  ∃ Q, quorum n Q ∧ ∀ q, q ∈ Q → b !! (q, CurrentTerm rf) = Some (Z.of_nat i).
Proof.
  intros Hinv Hi Hs. destruct (inv_node _ _ _ Hinv _ _ Hi) as (_ & _ & _ & _ & Hl).
  destruct (Hl Hs) as (v & Hv & Hm). destruct (inv_votes _ _ _ Hinv _ _ _ Hv) as (Q & Hsz & HQ).
  exists Q. split; [split|].
  - intros q Hq. by destruct (HQ q Hq) as (? & _).
  - unfold majority in *. lia.
  - intros q Hq. by destruct (HQ q Hq) as (_ & ? & _).
Qed.

(** A candidate's term has no leader yet when a majority votes for it. *)
Lemma term_unwon n b g i F rf Q :
  GI n b g → NI n g i F rf → status rf = Candidate →
  quorum n Q → (∀ q, q ∈ Q → b !! (q, CurrentTerm rf) = Some (Z.of_nat i)) →
  gl g !! CurrentTerm rf = None.
Proof.
  intros Hg HN Hs HQ Hb. destruct (gl g !! CurrentTerm rf) as [L|] eqn:HL; [|done].
  destruct (gi_won _ _ _ Hg _ _ HL) as (c & Hc & _ & Q' & HQ' & Hb').
  destruct (quorums_meet _ _ _ HQ HQ') as (q & Hq & Hq'). specialize (Hb q Hq). specialize (Hb' q Hq').
  rewrite Hb in Hb'. injection Hb' as <-%Nat2Z.inj.
  by destruct (ni_cand _ _ _ _ _ HN Hs) as (_ & _ & ?).
Qed.

Lemma NI_win n b g i F rf rf' :
  GI n b g → NI n g i F rf → status rf = Candidate → gl g !! CurrentTerm rf = None →
  rf' = rf <| status := Leader |>
           <| nextIndex := replicate (peers rf) (lastIncludedIndex rf + len (Log rf)) |>
           <| matchIndex := replicate (peers rf) (lastIncludedIndex rf) |> →
  NI n (g_win i (CurrentTerm rf) F g) i F rf'.
Proof.
  intros Hg HN Hs Hn ->. pose proof HN as [Hvw Hlw Hps Hlg Htm Hcu Hk Hcd _ Hcm].
  destruct (Hcd Hs) as (HT & Hcl & Hw).
  assert (evolves g (g_win i (CurrentTerm rf) F g)) as Hev by (eapply evolves_win; done).
  split; cbn [lastIncludedIndex lastIncludedTerm CurrentTerm Log status matchIndex commitIndex]; cbn -[g_win];
    try done.
  - by apply (view_same rf).
  - by eapply log_ok_evolves.
  - intros U j L HL Hen Hch Ha. destruct (decide (U = CurrentTerm rf)) as [->|HU].
    + cbn in HL. rewrite lookup_insert_eq in HL. by injection HL as ->.
    + cbn in HL. rewrite lookup_insert_ne in HL by done.
      apply (Hk U); [done| |by eapply could_choose_evolves|].
      * destruct Hen as (L1 & e & HL1 & He). cbn in HL1. rewrite lookup_insert_ne in HL1 by done.
        by exists L1, e.
      * cbn in Ha. by rewrite set_acc_ne in Ha by (by intros [_ ?]).
  - intros _. split; [apply lookup_insert_eq|]. split; [apply lookup_insert_eq|]. split; [apply set_acc_eq|].
    intros q m _ Hq. apply lookup_replicate in Hq as [-> _]. right.
    eapply (commit_ok_evolves _ g); [exact Hev|reflexivity|]. by eapply commit_ok_mono.
  - by eapply commit_ok_evolves; [| |exact Hcm].
Qed.

Lemma SI_win n b b' g w w' i rf rf' :
  SI n b g w → nodes w !! i = Some rf → nodes w' = <[i := rf']> (nodes w) →
  inv n b' w' → grown b b' w' → status rf = Candidate →
  rf' = rf <| status := Leader |>
           <| nextIndex := replicate (peers rf) (lastIncludedIndex rf + len (Log rf)) |>
           <| matchIndex := replicate (peers rf) (lastIncludedIndex rf) |> →
  (∀ pk, pk ∈ net w' → pk ∈ net w) → goes_on n b' g w'.
Proof.
  intros HSI Hi Hn Hinv' Hgr Hs Hrf Hpk. destruct (si_node _ _ _ _ HSI _ _ Hi) as [F HF].
  destruct (turn_first _ _ _ _ _ _ _ _ rf rf rf' HSI Hi HF Hn Hinv' Hgr (quiet_refl rf)) as (Hg & HN & Hev & Hmo).
  { by rewrite Hrf. }
  { right. left. by rewrite Hrf. }
  assert (nodes w' !! i = Some rf') as Hi'.
  { rewrite Hn. apply list_lookup_insert_eq. by eapply lookup_lt_Some. }
  destruct (leader_quorum n b' w' i rf' Hinv' Hi') as (Q & HQ & Hb); [by rewrite Hrf|].
  replace (CurrentTerm rf') with (CurrentTerm rf) in Hb by (by rewrite Hrf).
  pose proof (term_unwon _ _ _ _ _ _ _ Hg HN Hs HQ Hb) as Hno.
  destruct (ni_cand _ _ _ _ _ HN Hs) as (HT & Hcl & _).
  eapply (SI_then n b b' g _ (g_win i (CurrentTerm rf) F (g_turn i (CurrentTerm rf) g)));
    [exact HSI|exact Hinv'|exact Hn|exact Hev|exact Hmo| |by apply moves_win| | |].
  - eapply evolves_win; [exact Hg|done|]. symmetry. apply HN.
  - eapply GI_win; [exact Hg|done|done| |exact Hcl|exact HQ|exact Hb]. symmetry. apply HN.
  - by eapply NI_win.
  - intros pk ?%Hpk. by left.
Qed.

(** ** A command at the leader *)
Lemma moves_append i T L g : wn g !! T = Some i → moves_only g (g_append i T L g) i.
Proof.
  intros Hw. split; cbn; [done| |].
  - intros q U Hq. apply set_acc_ne. by intros [? _].
  - intros q U Hq HU. split; [done|]. rewrite lookup_insert_ne; [done|congruence].
Qed.

Lemma NI_append n b g i F rf rf' e :
  GI n b g → NI n g i F rf → status rf = Leader → le_Term e = CurrentTerm rf →
  rf' = persist (rf <| Log := Log rf ++ [e] |>) →
  NI n (g_append i (CurrentTerm rf) (F ++ [e]) g) i (F ++ [e]) rf'.
Proof.
  intros Hg HN Hs He ->. pose proof HN as [Hvw Hlw Hps Hlg Htm Hcu Hk _ Hld Hcm].
  destruct (Hld Hs) as (Hw & HL & Ha & Hm).
  set (g' := g_append i (CurrentTerm rf) (F ++ [e]) g).
  assert (evolves g g') as Hev by (eapply evolves_append; [exact HL|by apply prefix_app_r|done|done]).
  assert (GI n b g') as Hg' by (by eapply GI_append).
  assert (gl g' !! CurrentTerm rf = Some (F ++ [e])) as HL' by apply lookup_insert_eq.
  assert (F `prefix_of` F ++ [e]) as Hpre by (by apply prefix_app_r).
  destruct (gi_log _ _ _ Hg' _ _ HL') as (_ & Hlg' & _ & Htm').
  split; try (by apply view_append);
    cbn [persist lastIncludedIndex lastIncludedTerm CurrentTerm Log status matchIndex commitIndex]; cbn -[g'];
    try done.
  - intros U j L HLU Hen Hch HaU. destruct (decide (U = CurrentTerm rf)) as [->|HU].
    + rewrite HL' in HLU. by injection HLU as ->.
    + assert (acc g' i U = acc g i U) as Eacc by (apply set_acc_ne; by intros [_ ?]).
      assert (gl g' !! U = gl g !! U) as Egl by (by apply lookup_insert_ne).
      rewrite Eacc in HaU. rewrite Egl in HLU.
      pose proof (accepted_back _ _ _ _ _ _ _ Hg Hev HaU Hen) as Hen0.
      pose proof (could_choose_evolves _ _ _ _ _ Hev Hch) as Hch0.
      pose proof (Hk U j L HLU Hen0 Hch0 HaU) as Hs0. rewrite <- Hs0.
      apply upto_prefix; [done|].
      destruct (has_entry_upto _ _ _ _ _ HLU Hen0 Hs0) as (x & Hx%lookup_lt_Some & _). done.
  - by rewrite Hs.
  - intros _. split; [done|]. split; [done|]. split; [apply set_acc_eq|].
    intros q m Hq Hqm. destruct (Hm q m Hq Hqm) as [?|Hc].
    + left. pose proof (ev_acc _ _ Hev q (CurrentTerm rf)). lia.
    + right. eapply (commit_ok_evolves _ g); [exact Hev|reflexivity|]. by eapply commit_ok_prefix.
  - eapply (commit_ok_evolves _ g); [exact Hev|reflexivity|]. by eapply commit_ok_prefix.
Qed.

Lemma SI_append n b b' g w w' i rf rf' e :
  SI n b g w → nodes w !! i = Some rf → nodes w' = <[i := rf']> (nodes w) →
  inv n b' w' → grown b b' w' → status rf = Leader → le_Term e = CurrentTerm rf →
  rf' = persist (rf <| Log := Log rf ++ [e] |>) →
  (∀ pk, pk ∈ net w' → pk ∈ net w) → goes_on n b' g w'.
Proof.
  intros HSI Hi Hn Hinv' Hgr Hs He Hrf Hpk. destruct (si_node _ _ _ _ HSI _ _ Hi) as [F HF].
  destruct (turn_first _ _ _ _ _ _ _ _ rf rf rf' HSI Hi HF Hn Hinv' Hgr (quiet_refl rf)) as (Hg & HN & Hev & Hmo).
  { by rewrite Hrf. }
  { right. left. by rewrite Hrf. }
  destruct (ni_lead _ _ _ _ _ HN Hs) as (Hw & HL & Ha & _).
  pose proof (ni_ct _ _ _ _ _ HN) as Hct.
  eapply (SI_then n b b' g _ (g_append i (CurrentTerm rf) (F ++ [e]) (g_turn i (CurrentTerm rf) g)));
    [exact HSI|exact Hinv'|exact Hn|exact Hev|exact Hmo| |by apply moves_append| | |].
  - eapply evolves_append; [exact HL|by apply prefix_app_r|by symmetry|done].
  - eapply GI_append; [exact Hg|exact HL|done|by symmetry|done].
  - by eapply NI_append.
  - intros pk ?%Hpk. by left.
Qed.

(** ** Entries at a follower *)

(** What is behind the snapshot of a peer, the leaders of later terms have. *)
Lemma low_in_leader n b g i F rf T LT :
  GI n b g → NI n g i F rf → CurrentTerm rf <= T → gl g !! T = Some LT →
  same_upto (Z.to_nat (lastIncludedIndex rf)) F LT.
Proof.
  intros Hg HN HT HLT. pose proof (v_pos _ _ (ni_view _ _ _ _ _ HN)) as Hpos.
  destruct (gi_log _ _ _ Hg _ _ HLT) as (_ & [HdT _] & _). destruct (ni_log _ _ _ _ _ HN) as [HdF _].
  destruct (commit_ok_mono _ _ _ _ _ _ (ni_low _ _ _ _ _ HN) (ni_commit _ _ _ _ _ HN))
    as [?|(T0 & N & L0 & HT0 & Hch & HL0 & Hci & Hs)].
  - replace (Z.to_nat (lastIncludedIndex rf)) with 0%nat by lia.
    by rewrite (take_S_r F 0 dummy), (take_S_r LT 0 dummy).
  - rewrite Hs. symmetry. eapply upto_le; [|eapply chosen_in_later; [exact Hg| |exact Hch|exact HL0|exact HLT]]; lia.
Qed.

(** The commit index that comes with entries is inside them. *)
Lemma sent_commit n g T L0 (lc : Z) : commit_ok n g T L0 lc → L0 ≠ [] → lc <= len L0 - 1.
Proof.
  intros Hc Hne. unfold len. destruct (decide (0 < lc)) as [Hpos|].
  - pose proof (commit_ok_length _ _ _ _ _ Hc Hpos). lia.
  - destruct L0; [done|cbn; lia].
Qed.

Lemma SI_accept n b b' g w w' i rf now args L0 :
  SI n b g w → nodes w !! i = Some rf →
  let rf' := fst (AppendEntries now args zeroAEReply rf) in
  nodes w' = <[i := rf']> (nodes w) → inv n b' w' → grown b b' w' →
  sent_log g args L0 → commit_ok n g (aea_Term args) L0 (aea_LeaderCommit args) →
  aer_Success (snd (AppendEntries now args zeroAEReply rf)) = true →
  (∀ pk, pk ∈ net w' → pk ∈ net w ∨ ∃ c reply, pk = AERep c i args reply) → goes_on n b' g w'.
Proof.
  intros HSI Hi rf' Hn Hinv' Hgr Hsent Hlc Hok Hpk.
  destruct (si_node _ _ _ _ HSI _ _ Hi) as [F HN]. pose proof (si_g _ _ _ _ HSI) as Hg.
  destruct (AppendEntries_accepted now args rf Hok) as (Hle & Ht & Hst & Hsi & _ & Hci & Hv).
  pose proof Hsent as (Hne & (LT & HLT & HpT) & Hsf). pose proof (sent_last _ _ Hsf) as Hlast.
  destruct (accept_log n b now args rf g F L0 LT Hg (ni_view _ _ _ _ _ HN) (ni_log _ _ _ _ _ HN) Hsent HLT
    (low_in_leader _ _ _ _ _ _ _ _ Hg HN Hle HLT) Hok) as (F' & Hvw & Hp & Hl).
  fold rf' in Ht, Hst, Hsi, Hci, Hv, Hvw.
  pose proof (sent_commit _ _ _ _ _ Hlc Hne) as Hlcl. pose proof (ni_low _ _ _ _ _ HN) as Hlow.
  assert (commit_ok n g (aea_Term args) F' (commitIndex rf')) as Hcm.
  { destruct Hci as [->|[_ ->]].
    - eapply commit_ok_accept; [exact Hg|exact Hle|exact HLT|exact HpT|exact Hl|apply HN].
    - eapply commit_ok_sent; [exact Hne|exact Hp|exact Hlast|exact Hlc]. }
  assert (0 < length L0)%nat as Hlen by (destruct L0; [done|cbn; lia]).
  set (g' := g_accept i (aea_Term args) (length L0 - 1) g).
  assert (ct g i <= aea_Term args) as Hcti by (rewrite (ni_ct _ _ _ _ _ HN); lia).
  assert (evolves g g') as Hev by by apply evolves_accept.
  exists g'. split; [done|].
  eapply SI_move; [exact HSI|exact Hinv'| |done|apply moves_accept|exact Hn| |].
  - eapply (GI_accept n b); [exact Hg|exact Hcti|exact HLT|apply prefix_length in HpT; lia|].
    eapply (votes_well_good n b); [apply HSI|done..| |].
    + cbn. rewrite Ht. apply set_ct_eq.
    + destruct Hv as [?|[? ?]]; [by left|right; by left].
  - eapply NI_accept; [exact Hg|exact HN|done..| |exact HLT|done|done|done|exact Hl|exact Hcm].
    rewrite Hsi. destruct Hci as [->|[? ->]]; lia.
  - intros pk [?|(c & reply & ->)]%Hpk; [by left|right]. cbn. intros _.
    rewrite set_acc_eq, Hlast. unfold len. lia.
Qed.

(** ** A snapshot at a follower *)

(** The log afterwards: the old one if it has the last entry of the snapshot, and
    else what the snapshot covers. *)
Lemma install_log g F L0 (idx : nat) e :
  log_ok g F → log_ok g L0 → L0 !! idx = Some e →
  ∃ F', F' !! idx = Some e ∧ same_upto idx F' L0 ∧
    (if decide (le_Term <$> F !! idx = Some (le_Term e)) then F' = F else length F' = S idx) ∧
    (F' = F ∨ (F' = take (S idx) L0 ∧ ¬ same_upto idx F L0)).
Proof.
  intros HF HL0 He. case_decide as Ht.
  - apply fmap_Some in Ht as (x & Hx & Hxe).
    pose proof (log_match _ _ _ _ _ _ HF HL0 Hx He (eq_sym Hxe)) as Hs. exists F.
    split; [by rewrite (upto_lookup idx idx F L0)|]. split; [done|]. split; [done|by left].
  - exists (take (S idx) L0). apply lookup_lt_Some in He as Hlen.
    split; [rewrite lookup_take_lt by lia; done|]. split; [by rewrite take_take, Nat.min_id|].
    split; [rewrite length_take; lia|right]. split; [done|]. intros Hs. apply Ht.
    by rewrite (upto_lookup idx idx F L0), He.
Qed.

Lemma InstallSnapshot_frame now args reply rf :
  CurrentTerm rf <= isa_Term args → lastIncludedIndex rf < isa_LastIncludedIndex args →
  let rf' := fst (InstallSnapshot now args reply rf) in
  CurrentTerm rf' = isa_Term args ∧ VotedFor rf' = -1 ∧ status rf' = Follower ∧
  lastIncludedIndex rf' = isa_LastIncludedIndex args ∧
  commitIndex rf' = Z.max (commitIndex rf) (isa_LastIncludedIndex args).
Proof.
  intros Ht Hi. pose proof (InstallSnapshot_cases now args reply rf) as Hc. cbv zeta in Hc |- *.
  destruct Hc as [[_ ?]|[_ [[_ ?]|[_ ->]]]]; [lia|lia|]. cbn. done.
Qed.

Lemma SI_install n b b' g w w' i rf now args :
  SI n b g w → nodes w !! i = Some rf →
  let rf' := fst (InstallSnapshot now args zeroISReply rf) in
  nodes w' = <[i := rf']> (nodes w) → inv n b' w' → grown b b' w' → covers_chosen n g args →
  (∀ pk, pk ∈ net w' → pk ∈ net w ∨ PI n g pk) → goes_on n b' g w'.
Proof.
  intros HSI Hi rf' Hn Hinv' Hgr Hcov Hpk.
  destruct (si_node _ _ _ _ HSI _ _ Hi) as [F HN]. pose proof (si_g _ _ _ _ HSI) as Hg.
  pose proof (v_pos _ _ (ni_view _ _ _ _ _ HN)) as Hpos.
  destruct (decide (isa_LastIncludedIndex args <= lastIncludedIndex rf)) as [Hle|Hnew].
  { eapply SI_calm; [exact HSI|exact Hi|exact Hn|done|done|by apply calm_InstallSnapshot|done]. }
  destruct (decide (isa_Term args < CurrentTerm rf)) as [Hold|Hold].
  { assert (rf' = rf) as E by (unfold rf', InstallSnapshot; by rewrite decide_True).
    eapply (SI_calm _ _ _ _ _ _ i rf rf); [exact HSI|exact Hi|by rewrite Hn, E|done|done|apply calm_refl|done]. }
  destruct Hcov as [?|(T0 & N & L0 & e & HT0 & Hch & HL0 & Hidx & He & Het)]; [lia|].
  assert (log_ok g L0) as HokL0 by (by destruct (gi_log _ _ _ Hg _ _ HL0) as (_ & ? & _)).
  destruct (install_log g F L0 _ e (ni_log _ _ _ _ _ HN) HokL0 He) as (F' & He' & Hs & HF & HF').
  pose proof (view_install now args zeroISReply rf F F' e (ni_view _ _ _ _ _ HN) ltac:(lia) ltac:(lia) He' Het HF) as Hvw.
  destruct (InstallSnapshot_frame now args zeroISReply rf) as (Ht & Hvf & Hst & Hli & Hci); [lia|lia|].
  fold rf' in Ht, Hvf, Hst, Hli, Hci, Hvw.
  assert (evolves g (g_turn i (isa_Term args) g)) as Hev
    by (apply evolves_turn; rewrite (ni_ct _ _ _ _ _ HN); lia).
  eexists. split; [exact Hev|].
  eapply SI_move; [exact HSI|exact Hinv'| |exact Hev|apply moves_turn|exact Hn| |].
  - apply (GI_turn n b); [done|rewrite (ni_ct _ _ _ _ _ HN); lia|].
    eapply (votes_well_good n b); [apply HSI|done..| |by left]. cbn. rewrite Ht. apply set_ct_eq.
  - eapply (NI_install n b g i F F' rf rf' _ T0 N L0 (Z.to_nat (isa_LastIncludedIndex args)));
      [exact Hg|exact HN|lia|done|done|done|done|done|lia|done|lia|by rewrite Hci, Z2Nat.id by lia|done|done].
  - intros pk [?|?]%Hpk; [by left|right; by eapply PI_evolves].
Qed.

(** ** An acknowledgement at the leader *)

(** Among a majority, somebody's index was chosen before, or all acknowledged. *)
Lemma all_or (Q : gset nat) (A : nat → Prop) (B : Prop) :
  (∀ p, p ∈ Q → A p ∨ B) → (∀ p, p ∈ Q → A p) ∨ B.
Proof.
  induction Q as [|x Q _ IH] using set_ind_L; [by left; intros p Hp%elem_of_empty|]. intros HQ.
  destruct (HQ x) as [Hx|]; [set_solver| |by right].
  destruct IH as [Ha|]; [intros p Hp; apply HQ; set_solver| |by right].
  left. intros p [->%elem_of_singleton|Hp]%elem_of_union; auto.
Qed.

(** What the leader commits was chosen. *)
Lemma commit_chosen n b g i F rf (M : Z) Q :
  GI n b g → NI n g i F rf → status rf = Leader → commitIndex rf < M →
  termAt rf M true = CurrentTerm rf → quorum n Q →
  (∀ p, p ∈ Q → p = i ∨ ∃ m, p ≠ i ∧ matchIndex rf !! p = Some m ∧ M <= m) →
  commit_ok n g (CurrentTerm rf) F M.
Proof.
  intros Hg HN Hs HM Ht HQ Hm. destruct (ni_lead _ _ _ _ _ HN Hs) as (_ & HL & Ha & Hmi).
  destruct (gi_log _ _ _ Hg _ _ HL) as (HT & _).
  pose proof (ni_low _ _ _ _ _ HN) as Hlow. pose proof (v_pos _ _ (ni_view _ _ _ _ _ HN)) as Hpos.
  rewrite (view_termAt rf F) in Ht by (apply HN || lia).
  destruct (F !! Z.to_nat M) as [e|] eqn:He; [|cbn in Ht; lia]. cbn in Ht.
  apply lookup_lt_Some in He as Hlen.
  destruct (all_or Q (λ p, (Z.to_nat M ≤ acc g p (CurrentTerm rf))%nat) (commit_ok n g (CurrentTerm rf) F M))
    as [Hall|]; [|intros|done].
  - intros p Hp. destruct (Hm p Hp) as [->|(m & Hne & Hpm & Hle)]; [left; lia|].
    destruct (Hmi p m Hne Hpm) as [?|Hc]; [left; lia|right; by eapply commit_ok_mono].
  - right. exists (CurrentTerm rf), (Z.to_nat M), F. split; [done|].
    split; [|split_and!; done || lia]. split; [exists F, e; split_and!; done || lia|]. by exists Q.
Qed.

(** Recording an acknowledgement, or a snapshot the follower has. *)
Lemma NI_match n g i F rf ms ns peer (m : Z) :
  NI n g i F rf → (∀ p x, ms !! p = Some x → matchIndex rf !! p = Some x ∨ (p = peer ∧ x = m)) →
  (status rf = Leader → m <= Z.of_nat (acc g peer (CurrentTerm rf)) ∨ commit_ok n g (CurrentTerm rf) F m) →
  NI n g i F (rf <| matchIndex := ms |> <| nextIndex := ns |>).
Proof.
  intros [Hvw Hlw Hps Hlg Htm Hcu Hk Hcd Hld Hcm] Hms Hm. split; try done.
  - by apply (view_same rf).
  - intros Hs. destruct (Hld Hs) as (? & ? & ? & Hmi). split_and!; try done.
    intros q x Hq [?|[-> ->]]%Hms; [by eapply Hmi|by apply Hm].
Qed.

Lemma NI_commit n g i F rf (M : Z) :
  NI n g i F rf → commitIndex rf < M → commit_ok n g (CurrentTerm rf) F M →
  NI n g i F (rf <| commitIndex := M |> <| applyCond := true |>).
Proof.
  intros [Hvw Hlw Hps Hlg Htm Hcu Hk Hcd Hld Hcm] Hlt HM. split; try done.
  - by apply (view_same rf).
  - cbn. lia.
Qed.

Lemma SI_ack n b b' g w w' i rf rf' peer args reply now :
  SI n b g w → nodes w !! i = Some rf → nodes w' = <[i := rf']> (nodes w) →
  inv n b' w' → grown b b' w' → PI n g (AERep i peer args reply) →
  handleSendAppendEntries now peer args reply rf = Some rf' →
  (∀ pk, pk ∈ net w' → pk ∈ net w ∨ PI n g pk) → goes_on n b' g w'.
Proof.
  intros HSI Hi Hn Hinv' Hgr HP Hx Hpk. destruct (si_node _ _ _ _ HSI _ _ Hi) as [F HF].
  destruct (appendReply_effect _ _ _ _ _ _ Hx) as [Hc|(Hs & Ht & Hok & rf1 & Hu & Hl)].
  { by eapply SI_calm. }
  destruct (updateMatch_spec _ _ _ _ Hu) as (ms & ns & -> & Hms). specialize (HP Hok). rewrite <- Ht in HP.
  destruct (node_me _ _ _ _ _ _ HSI Hi) as (Hme & Hpe & Hin & _).
  unfold updateLeaderCommitIndex in Hl. apply commitLoop_quorum in Hl; [|cbn; lia]. cbn in Hl.
  assert (VotedFor rf' = VotedFor rf ∧ CurrentTerm rf' = CurrentTerm rf) as [Ev Et]
    by (by destruct Hl as [->|(M & -> & _)]).
  destruct (turn_first _ _ _ _ _ _ _ _ rf rf rf' HSI Hi HF Hn Hinv' Hgr (quiet_refl rf) Et) as (Hg & HN & Hev & Hmo).
  { right. by left. }
  assert (NI n (g_turn i (CurrentTerm rf) g) i F (rf <| matchIndex := ms |> <| nextIndex := ns |>)) as HN1
    by (eapply NI_match; [done|exact Hms|by left]).
  eexists. split; [exact Hev|]. eapply (SI_move _ _ _ _ _ _ _ _ _ F); [exact HSI|exact Hinv'|exact Hg|exact Hev|exact Hmo|exact Hn| |].
  2: { intros pk [?|?]%Hpk; [by left|right; by eapply PI_evolves]. }
  destruct Hl as [->|(M & -> & HlM & HtM & Q & HQ & HQm)]; [done|]. apply NI_commit; [done|done|].
  eapply (commit_chosen _ _ _ _ _ _ _ Q Hg HN1); [done|done|done|by rewrite <- Hpe|]. by rewrite <- Hme.
Qed.

(** The follower has the snapshot. *)
Lemma SI_installed n b b' g w w' i rf rf' peer args reply now :
  SI n b g w → nodes w !! i = Some rf → nodes w' = <[i := rf']> (nodes w) →
  inv n b' w' → grown b b' w' → covers_chosen n g args →
  handleInstallSnapshot_reply now peer args reply rf = Some rf' →
  (∀ pk, pk ∈ net w' → pk ∈ net w ∨ PI n g pk) → goes_on n b' g w'.
Proof.
  intros HSI Hi Hn Hinv' Hgr Hcov Hx Hpk. destruct (si_node _ _ _ _ HSI _ _ Hi) as [F HF].
  destruct (installReply_effect _ _ _ _ _ _ Hx) as [Hc|(Hs & Ht & Hu)].
  { by eapply SI_calm. }
  destruct (updateMatch_spec _ _ _ _ Hu) as (ms & ns & -> & Hms).
  destruct (turn_first _ _ _ _ _ _ _ _ rf rf (rf <| matchIndex := ms |> <| nextIndex := ns |>)
    HSI Hi HF Hn Hinv' Hgr (quiet_refl rf) eq_refl) as (Hg & HN & Hev & Hmo).
  { right. by left. }
  eexists. split; [exact Hev|]. eapply (SI_move _ _ _ _ _ _ _ _ _ F); [exact HSI|exact Hinv'|exact Hg|exact Hev|exact Hmo|exact Hn| |].
  2: { intros pk [?|?]%Hpk; [by left|right; by eapply PI_evolves]. }
  eapply NI_match; [done|exact Hms|intros _; right].
  apply (covers_chosen_evolves _ _ _ _ Hev) in Hcov.
  destruct Hcov as [?|(T0 & N & L0 & e & HT0 & Hch & HL0 & Hidx & _)]; [by left|right].
  destruct (ni_lead _ _ _ _ _ HN Hs) as (_ & HL & _). rewrite <- Ht in HT0.
  exists T0, N, L0. split_and!; [done|done|done|done|].
  eapply upto_le; [|eapply chosen_in_later; [exact Hg|exact HT0|exact Hch|exact HL0|exact HL]]. lia.
Qed.

(** ** The events *)

Lemma SI_net n b g w w' :
  SI n b g w → nodes w' = nodes w → inv n b w' →
  (∀ pk, pk ∈ net w' → pk ∈ net w ∨ PI n g pk) → SI n b g w'.
Proof.
  intros [Hinv Hg Hnode Hnet] Hn Hinv' Hpk. split; [done|done|by rewrite Hn|].
  intros pk [?|?]%Hpk; auto.
Qed.

(** One more packet. *)
Lemma one_more n g (pks : list Packet) x :
  PI n g x → ∀ pk, pk ∈ pks ++ [x] → pk ∈ pks ∨ PI n g pk.
Proof. intros Hx pk [Hpk|Hpk%list_elem_of_singleton]%elem_of_app; subst; auto. Qed.

Lemma one_more_vote n g (pks : list Packet) c p args reply :
  ∀ pk, pk ∈ pks ++ [RVRep c p args reply] → pk ∈ pks ∨ PI n g pk.
Proof. by apply one_more. Qed.

Lemma request_goes_on n b b' g w c p args now w' :
  SI n b g w → PI n g (RVReq c p args) → rva_CandidateId args = Z.of_nat c →
  inv n b' w' → grown b b' w' → deliver (RVReq c p args) now w = Some w' → goes_on n b' g w'.
Proof.
  intros HSI (L & HL & Hli & Hlt) Hc Hinv' Hgr Hd. cbn [deliver] in Hd.
  apply bind_Some in Hd as (rf & Hp & (w1 & Hr & [= <-])%bind_Some).
  apply run_op_Some in Hr as (rf0 & rf' & Hp0 & Hx & ->). simplify_eq.
  cbn [exec_op] in Hx. injection Hx as Hx.
  pose proof (quiet_RequestVote now args zeroRVReply rf) as Hq. rewrite Hx in Hq.
  pose proof (RequestVote_effect now args zeroRVReply rf) as Hv. cbv zeta in Hv. rewrite Hx in Hv.
  destruct (si_node _ _ _ _ HSI _ _ Hp) as [F HN].
  eapply (SI_quiet n b); [exact HSI|exact Hp|done|exact Hinv'|exact Hgr|exact Hq| |apply one_more_vote].
  destruct Hv as [?|[[? ?]|(Ev & Et & Hup)]]; [by left|right; by left|right; right].
  exists L. rewrite Ev, Et, Hc, Nat2Z.id. cbn [g_turn cl]. split; [done|].
  eapply (vote_good_log n b g); [apply HSI|exact HN| |done|done|].
  - apply evolves_turn. rewrite (ni_ct _ _ _ _ _ HN), <- Et. apply Hq.
  - intros T j. eapply isLogUpToDate_reaches; [apply HN|apply HN|exact Hli|exact Hlt|exact Hup].
Qed.

Lemma entries_goes_on n b b' g w c p args now w' :
  SI n b g w → PI n g (AEReq c p args) →
  inv n b' w' → grown b b' w' → deliver (AEReq c p args) now w = Some w' → goes_on n b' g w'.
Proof.
  intros HSI (L0 & Hs & Hlc) Hinv' Hgr Hd. cbn [deliver] in Hd.
  apply bind_Some in Hd as (rf & Hp & (w1 & Hr & [= <-])%bind_Some).
  apply run_op_Some in Hr as (rf0 & rf' & Hp0 & Hx & ->). simplify_eq.
  cbn [exec_op] in Hx. injection Hx as <-.
  destruct (aer_Success (snd (AppendEntries now args zeroAEReply rf))) eqn:Hok.
  - eapply SI_accept; [exact HSI|exact Hp|done|exact Hinv'|exact Hgr|exact Hs|exact Hlc|done|].
    intros pk [Hpk|Hpk%list_elem_of_singleton]%elem_of_app; [by left|right; by eexists _, _].
  - eapply SI_calm; [exact HSI|exact Hp|done|exact Hinv'|exact Hgr|by apply AppendEntries_rejected|].
    apply one_more. cbn. congruence.
Qed.

(** The snapshot a leader sends covers what was chosen. *)
Lemma sent_covers n b g w c rf p args :
  SI n b g w → nodes w !! c = Some rf → handleInstallSnapshot_args p rf = Some (Some args) →
  covers_chosen n g args.
Proof.
  intros HSI Hi Hr. destruct (si_node _ _ _ _ HSI _ _ Hi) as [F HN].
  unfold handleInstallSnapshot_args in Hr. case_decide; [done|].
  apply bind_Some in Hr as (m & _ & Hr). case_decide; [done|]. injection Hr as <-.
  unfold covers_chosen. cbn. destruct (decide (lastIncludedIndex rf <= 0)) as [|Hpos]; [by left|].
  destruct (commit_ok_mono _ _ _ _ _ _ (ni_low _ _ _ _ _ HN) (ni_commit _ _ _ _ _ HN))
    as [?|(T0 & N & L0 & HT0 & Hch & HL0 & Hci & Hs)]; [by left|right].
  destruct (v_term _ _ (ni_view _ _ _ _ _ HN)) as (e & He & Het); [lia|].
  exists T0, N, L0, e. split_and!; try done. by rewrite <- (upto_lookup _ _ _ _ (le_n _) Hs).
Qed.

Lemma deliver_goes_on n b b' g w pk now w' :
  SI n b g w → PI n g pk → packet_ok n b (nodes w) pk →
  inv n b' w' → grown b b' w' → deliver pk now w = Some w' → goes_on n b' g w'.
Proof.
  intros HSI HP Hpo Hinv' Hgr Hd.
  destruct pk as [c p args|c p args r|l p args|l p args r|l p|l p args|l p args r|l p].
  - eapply request_goes_on; [exact HSI|exact HP|by destruct Hpo as (_ & ? & _)|done..].
  - cbn [deliver] in Hd. apply bind_Some in Hd as (rf & Hi & (v & _ & (w1 & Hr & [= <-])%bind_Some)%bind_Some).
    apply run_op_Some in Hr as (rf0 & rf' & Hi0 & Hx & ->). simplify_eq.
    cbn [exec_op] in Hx. injection Hx as Hx.
    destruct (voteReply_effect now args r v rf) as [Hc|[Hs Hw]].
    + rewrite Hx in Hc. eapply SI_calm; [exact HSI|exact Hi|done..|]. by left.
    + rewrite Hx in Hw. eapply SI_win; [exact HSI|exact Hi|done..].
  - by eapply entries_goes_on.
  - cbn [deliver] in Hd. apply bind_Some in Hd as (w1 & Hr & [= <-]).
    apply run_op_Some in Hr as (rf0 & rf' & Hi0 & Hx & ->).
    eapply SI_ack; [exact HSI|exact Hi0|done|exact Hinv'|exact Hgr|exact HP|exact Hx|by apply one_more].
  - cbn [deliver] in Hd. apply bind_Some in Hd as (rf & Hi & (result & Hr & [= <-])%bind_Some).
    eapply (SI_calm _ _ _ _ _ _ l rf rf); [exact HSI|exact Hi| |exact Hinv'|exact Hgr|apply calm_refl|].
    + by rewrite list_insert_id.
    + apply one_more. destruct result as [args|]; [|done]. by eapply sent_covers.
  - cbn [deliver] in Hd. apply bind_Some in Hd as (rf & Hi & (w1 & Hr & [= <-])%bind_Some).
    apply run_op_Some in Hr as (rf0 & rf' & Hi0 & Hx & ->). simplify_eq.
    cbn [exec_op] in Hx. injection Hx as <-.
    eapply SI_install; [exact HSI|exact Hi|done|exact Hinv'|exact Hgr|exact HP|by apply one_more].
  - cbn [deliver] in Hd. apply bind_Some in Hd as (w1 & Hr & [= <-]).
    apply run_op_Some in Hr as (rf0 & rf' & Hi0 & Hx & ->).
    eapply SI_installed; [exact HSI|exact Hi0|done|exact Hinv'|exact Hgr|exact HP|exact Hx|by apply one_more].
  - cbn [deliver] in Hd. apply run_op_Some in Hd as (rf0 & rf' & Hi0 & Hx & ->).
    eapply SI_calm; [exact HSI|exact Hi0|done|exact Hinv'|exact Hgr| |by left].
    by eapply calm_set_isReplicating.
Qed.

Lemma tick_goes_on n b b' g w i now rnd timeout w' :
  SI n b g w → inv n b' w' → grown b b' w' → tick i now rnd timeout w = Some w' → goes_on n b' g w'.
Proof.
  intros HSI Hinv' Hgr Hd. unfold tick in Hd. apply bind_Some in Hd as (rf & Hi & Hd).
  pose proof (ticker_effect now rnd timeout rf) as Hc. unfold run_op in Hd. rewrite Hi in Hd.
  cbn [mbind option_bind exec_op] in Hd.
  destruct (ticker now rnd timeout rf) as [[rf' t'] result]. cbn [fst] in Hd. injection Hd as <-.
  destruct result as [|v gs|]; try (eapply SI_calm; [exact HSI|exact Hi|done..|by left]).
  destruct (node_me _ _ _ _ _ _ HSI Hi) as (Hme & _). rewrite Hme in Hc.
  destruct Hc as (Hl & Hs1 & Hs2 & Hci & Ht & Hv & Hst & ->).
  destruct (si_node _ _ _ _ HSI _ _ Hi) as [F HN]. pose proof (ni_view _ _ _ _ _ HN) as Hvw.
  eapply SI_stand; [exact HSI|exact Hi|exact HN|done|done|done|by apply (view_same rf)| |done..|].
  { rewrite Hs1, Hci. apply HN. }
  intros pk. cbn [net]. rewrite vote_requests_fmap.
  intros [?|(p & -> & _)%list_elem_of_fmap]%elem_of_app; [by left|right]. cbn.
  exists F. rewrite Ht, lookup_insert_eq. split; [done|].
  by rewrite (view_last _ _ Hvw), (view_last_term _ _ Hvw).
Qed.

Lemma worker_sent n g c F rf p args :
  NI n g c F rf → heartbeatWorker p rf = Some (WorkerSend args) →
  ¬ (lastIncludedIndex rf = 1 ∧ nextIndex rf !! p = Some 1 ∧ isReplicating rf !! p = Some true) →
  sent_log g args F ∧ commit_ok n g (aea_Term args) F (aea_LeaderCommit args).
Proof.
  intros HN Hr Hdummy. pose proof (ni_view _ _ _ _ _ HN) as Hvw.
  destruct (heartbeatWorker_effect _ _ _ _ Hvw Hr) as (Hs & Ht & Hlc & Hsent).
  destruct (ni_lead _ _ _ _ _ HN Hs) as (_ & HL & _). rewrite Ht, Hlc. split; [|apply HN].
  split; [by destruct (ni_log _ _ _ _ _ HN); destruct F|].
  split; [rewrite Ht; by exists F|]. pose proof (v_len _ _ Hvw) as Hlen.
  destruct Hsent as [Hsent|(Hpos & Hprev & Hn & Hrep & Hpt & Hes)]; [by left|right].
  destruct (decide (lastIncludedIndex rf = 1)) as [E|Hne]; [destruct Hdummy; by rewrite E in Hn|].
  split_and!; [lia|lia|done|done].
Qed.

Lemma worker_goes_on n b b' g w c p w' :
  SI n b g w → ¬ sends_dummy w (EWorker c p) →
  inv n b' w' → grown b b' w' → worker c p w = Some w' → goes_on n b' g w'.
Proof.
  intros HSI Hdummy Hinv' Hgr Hd. unfold worker in Hd. case_decide; [done|].
  apply bind_Some in Hd as (rf & Hi & (result & Hr & Hd)%bind_Some).
  destruct (si_node _ _ _ _ HSI _ _ Hi) as [F HN].
  destruct result as [| |args].
  - injection Hd as <-. eapply (SI_calm _ _ _ _ _ _ c rf rf); [exact HSI|exact Hi| |done|done|apply calm_refl|].
    + by rewrite list_insert_id.
    + by apply one_more.
  - apply bind_Some in Hd as (w1 & Ho & [= <-]). apply run_op_Some in Ho as (rf0 & rf' & Hi0 & Hx & ->).
    eapply SI_calm; [exact HSI|exact Hi0|done|done|done| |by apply one_more].
    by eapply calm_set_isReplicating.
  - injection Hd as <-. eapply (SI_calm _ _ _ _ _ _ c rf rf); [exact HSI|exact Hi| |done|done|apply calm_refl|].
    + by rewrite list_insert_id.
    + apply one_more. exists F. eapply worker_sent; [exact HN|exact Hr|].
      intros Hd. apply Hdummy. by exists rf.
Qed.

Lemma op_goes_on n b b' g w i op w' :
  SI n b g w → inv n b' w' → grown b b' w' → run_op i op w = Some w' →
  match op with
  | OpStart _ | OpTickerExit | OpApplyCommitted | OpKill => True
  | OpSnapshot index _ => ∀ rf, nodes w !! i = Some rf → index <= commitIndex rf
  | _ => False end →
  goes_on n b' g w'.
Proof.
  intros HSI Hinv' Hgr Hd Hop. apply run_op_Some in Hd as (rf & rf' & Hi & Hx & ->).
  destruct op as [index sn| | | |command| | | | | | | |]; try done; cbn [exec_op] in Hx; injection Hx as <-.
  - specialize (Hop _ Hi). eapply SI_calm; [exact HSI|exact Hi|done..| |by left].
    destruct (si_node _ _ _ _ HSI _ _ Hi) as [F HN]. apply calm_Snapshot; [done|].
    intros F' Hv'. rewrite <- (view_size _ _ Hv'), (view_size _ _ (ni_view _ _ _ _ _ HN)).
    destruct (decide (0 < commitIndex rf)) as [Hpos|].
    + pose proof (commit_ok_length _ _ _ _ _ (ni_commit _ _ _ _ _ HN) Hpos). unfold len. lia.
    + pose proof (v_len _ _ (ni_view _ _ _ _ _ HN)). pose proof (v_pos _ _ (ni_view _ _ _ _ _ HN)). lia.
  - destruct (Start_effect command rf) as [[_ E]|[Hs E]]; rewrite E in *.
    + eapply SI_calm; [exact HSI|exact Hi|done..|apply calm_refl|by left].
    + eapply (SI_append _ _ _ _ _ _ _ _ _ (mkLogEntry (Some command) (CurrentTerm rf))); [exact HSI|exact Hi|done..].
  - eapply SI_calm; [exact HSI|exact Hi|done..|apply calm_Kill|by left].
  - eapply SI_calm; [exact HSI|exact Hi|done..|apply calm_ticker_exit|by left].
  - eapply SI_calm; [exact HSI|exact Hi|done..|apply calm_applyCommitted|by left].
Qed.

Lemma SI_take n b g w k pk :
  SI n b g w → net w !! k = Some pk → SI n b g (take_packet k w).
Proof.
  intros HSI Hk. eapply SI_net; [exact HSI|done|eapply inv_take_packet; [apply HSI|done]|].
  intros pk' Hin. left. rewrite (delete_Permutation _ _ _ Hk). by right.
Qed.

Lemma drop_goes_on n b g w k w' :
  SI n b g w → exec w (EDrop k) = Some w' → goes_on n b g w'.
Proof.
  intros HSI (pk & Hk & Hx)%bind_Some. exists g. split; [apply evolves_refl|].
  pose proof (SI_take _ _ _ _ _ _ HSI Hk) as HSI0. pose proof (si_inv _ _ _ _ HSI0) as Hinv0.
  destruct pk; cbn in Hx; simplify_eq; try done;
    (eapply SI_net; [exact HSI0|done|apply inv_send; [done|by repeat constructor]|by apply one_more]).
Qed.

Lemma exec_goes_on n b g w e w' :
  SI n b g w → ¬ snapshots_ahead w e → ¬ sends_dummy w e → exec w e = Some w' → ¬ revotes b w' →
  goes_on n (record_votes w' b) g w'.
Proof.
  intros HSI Hs Hdummy Hx Hone. pose proof (si_inv _ _ _ _ HSI) as Hinv.
  pose proof (exec_inv _ _ _ _ _ Hinv Hx Hone) as Hinv'. pose proof (record_grown _ _ Hone) as Hgr.
  destruct e as [i command|i index sn|i|i now rnd timeout|i|i|l p|i now|k now|k]; cbn [exec] in Hx;
    try (by eapply op_goes_on).
  - eapply op_goes_on; [done..|]. intros rf Hi.
    destruct (decide (index <= commitIndex rf)) as [|Hn]; [done|]. destruct Hs. exists rf. split; [done|lia].
  - by eapply tick_goes_on.
  - by eapply worker_goes_on.
  - unfold restart in Hx. apply bind_Some in Hx as (rf & Hi & ([r gs] & Hm & [= <-])%bind_Some).
    destruct (node_me _ _ _ _ _ _ HSI Hi) as (_ & _ & _ & Hd).
    destruct (si_node _ _ _ _ HSI _ _ Hi) as [F HN].
    eapply SI_calm; [exact HSI|exact Hi|done..| |by left].
    eapply calm_Make; [exact Hd| |exact Hm]. split; [apply (v_pos _ _ (ni_view _ _ _ _ _ HN))|apply HN].
  - apply bind_Some in Hx as (pk & Hk & Hx). apply list_elem_of_lookup_2 in Hk as Hin.
    eapply deliver_goes_on; [by eapply SI_take| |  |done..|exact Hx].
    + by apply (si_net _ _ _ _ HSI).
    + by apply (inv_packets _ _ _ Hinv).
  - assert (record_votes w' b = b) as ->; [|by eapply drop_goes_on].
    eapply record_same; [exact Hinv|]. apply bind_Some in Hx as (pk & _ & Hx). destruct pk; cbn in Hx; by simplify_eq.
Qed.

Definition no_ghost : Ghost := mkGhost ∅ ∅ ∅ (λ _ _, 0%nat) (λ _, 0).

Lemma boot_SI n w : boot n = Some w → SI n ∅ no_ghost w.
Proof.
  intros Hb. pose proof (boot_inv _ _ Hb) as Hinv.
  apply boot_nodes in Hb as (_ & Hnet & _ & Hnodes). split; [done| | |].
  - split; cbn; try (intros *; rewrite lookup_empty; done). lia.
  - intros p rf Hp. destruct (Hnodes _ _ Hp) as [gs Hm]. cbn in Hm. injection Hm as <- _.
    exists [dummy]. assert (log_ok no_ghost ([dummy] : list Entry)) as Hl.
    { split; [done|]. intros [|i] e Hi He; [lia|done]. }
    split; cbn; try done; [intros [|i] e Hi He; [lia|done]|by left].
  - intros pk Hin. rewrite Hnet in Hin. by apply elem_of_nil in Hin.
Qed.

(** ** What is handed to the services *)

(** The command of the message was chosen for its index. *)
Definition handed_ok n g (m : ApplyMsg C) : Prop :=
  CommandValid m = true →
  ∃ T N L e, chosen n g T N ∧ gl g !! T = Some L ∧ 0 < CommandIndex m <= Z.of_nat N ∧
    L !! Z.to_nat (CommandIndex m) = Some e ∧ msg_Command m = le_Command e.

Lemma handed_ok_evolves n g g' m : evolves g g' → handed_ok n g m → handed_ok n g' m.
Proof.
  intros Hev Hm Hv. destruct (Hm Hv) as (T & N & L & e & Hch & HL & Hi & He & Hc).
  destruct (ev_gl _ _ Hev _ _ HL) as (L' & HL' & Hp). exists T, N, L', e.
  split; [by eapply chosen_evolves|]. split; [done|]. split; [done|]. split; [by eapply prefix_lookup|done].
Qed.

(** A message for an index is the entry there. *)
Lemma entriesToApply_entry rf F (low high : Z) m :
  view rf F → m ∈ entriesToApply rf low high →
  0 < CommandIndex m <= high ∧
  ∃ e, F !! Z.to_nat (CommandIndex m) = Some e ∧ msg_Command m = le_Command e.
Proof.
  intros Hv (j & Hj & Hm)%list_elem_of_omap. pose proof (v_pos _ _ Hv) as Hpos. unfold toPhysicalIndex in Hm.
  apply elem_of_seqZ in Hj. case_decide; [|done].
  apply bind_Some in Hm as (e & He & [= <-]). cbn. split; [lia|]. exists e. split; [|done].
  rewrite <- (view_entry rf F) by (done || lia). unfold entry_at. by rewrite decide_True by lia.
Qed.

Lemma applied_ok n g p F rf msgs m :
  NI n g p F rf → snd (applyCommitted rf) = ApplySend msgs → m ∈ msgs → handed_ok n g m.
Proof.
  intros HN Ha Hm Hv. unfold applyCommitted in Ha. case_decide; [done|].
  destruct (killed rf); [done|]. case_decide; cbn [snd] in Ha; injection Ha as <-.
  { apply list_elem_of_singleton in Hm as ->. done. }
  destruct (entriesToApply_entry _ _ _ _ _ (ni_view _ _ _ _ _ HN) Hm) as (Hi & e & He & Hc).
  destruct (ni_commit _ _ _ _ _ HN) as [?|(T & N & L & _ & Hch & HL & Hci & Hs)]; [lia|].
  exists T, N, L, e. split; [done|]. split; [done|]. split; [lia|]. split; [|done].
  rewrite <- (upto_lookup (Z.to_nat (commitIndex rf)) (Z.to_nat (CommandIndex m)) F L); [done|lia|done].
Qed.

Lemma handed_event n b g w e p m : SI n b g w → (p, m) ∈ handed w e → handed_ok n g m.
Proof.
  intros HSI Hin. destruct e; cbn in Hin; try (by apply elem_of_nil in Hin).
  destruct (nodes w !! i) as [rf|] eqn:Hi; [|by apply elem_of_nil in Hin].
  destruct (snd (applyCommitted rf)) as [| |msgs] eqn:Ha; try (by apply elem_of_nil in Hin).
  apply list_elem_of_fmap in Hin as (m' & [= _ ->] & Hm).
  destruct (si_node _ _ _ _ HSI _ _ Hi) as [F HN]. by eapply applied_ok.
Qed.

(** Two chosen commands for one index are the same. *)
Lemma handed_agree n b g m1 m2 :
  GI n b g → handed_ok n g m1 → handed_ok n g m2 →
  CommandValid m1 = true → CommandValid m2 = true → CommandIndex m1 = CommandIndex m2 →
  msg_Command m1 = msg_Command m2.
Proof.
  intros Hg H1 H2 Hv1 Hv2 Hi.
  destruct (H1 Hv1) as (T1 & N1 & L1 & e1 & Hc1 & HL1 & Hi1 & He1 & ->).
  destruct (H2 Hv2) as (T2 & N2 & L2 & e2 & Hc2 & HL2 & Hi2 & He2 & ->). rewrite <- Hi in Hi2, He2.
  assert (L1 !! Z.to_nat (CommandIndex m1) = L2 !! Z.to_nat (CommandIndex m1)) as E;
    [|rewrite E, He2 in He1; by injection He1 as ->].
  destruct (decide (T1 <= T2)) as [Hle|Hle].
  - pose proof (chosen_in_later _ _ _ _ _ _ _ _ Hg Hle Hc1 HL1 HL2) as Hs.
    symmetry. by eapply upto_lookup; [|exact Hs]; lia.
  - assert (T2 <= T1) as Hle' by lia.
    pose proof (chosen_in_later _ _ _ _ _ _ _ _ Hg Hle' Hc2 HL2 HL1) as Hs.
    by eapply upto_lookup; [|exact Hs]; lia.
Qed.

Lemma reach_log_SI n b w D :
  reach_log n b w D → ∃ g, SI n b g w ∧ ∀ p m, (p, m) ∈ D → handed_ok n g m.
Proof.
  induction 1 as [w Hb|b w D e w' _ (g & HSI & HD) Hs Hdm Hx Hone].
  - exists no_ghost. split; [by apply boot_SI|]. intros p m Hin. by apply elem_of_nil in Hin.
  - destruct (exec_goes_on _ _ _ _ _ _ HSI Hs Hdm Hx Hone) as (g' & Hev & HSI').
    exists g'. split; [done|]. intros p m [Hin|Hin]%elem_of_app.
    + by eapply handed_ok_evolves, HD.
    + by eapply handed_ok_evolves, handed_event.
Qed.

(** ** The theorems *)

(** C5: Log matching: if two peers have entries of one term at one index, be it the
    last one of a snapshot, then their logs are equal up to there, as far as both
    still hold them. *)
Theorem log_matching n b w D p1 p2 rf1 rf2 (i j t : Z) :
  reach_log n b w D → nodes w !! p1 = Some rf1 → nodes w !! p2 = Some rf2 →
  term_at rf1 i = Some t → term_at rf2 i = Some t →
  lastIncludedIndex rf1 < j <= i → lastIncludedIndex rf2 < j →
  entry_at rf1 j = entry_at rf2 j.
Proof.
  intros (g & HSI & _)%reach_log_SI Hp1 Hp2 Ht1 Ht2 Hj Hj2.
  destruct (si_node _ _ _ _ HSI _ _ Hp1) as [F1 HN1]. destruct (si_node _ _ _ _ HSI _ _ Hp2) as [F2 HN2].
  pose proof (ni_view _ _ _ _ _ HN1) as Hv1. pose proof (ni_view _ _ _ _ _ HN2) as Hv2.
  pose proof (v_pos _ _ Hv1). pose proof (v_pos _ _ Hv2).
  rewrite (view_term_at _ F1) in Ht1 by (done || lia). rewrite (view_term_at _ F2) in Ht2 by (done || lia).
  apply fmap_Some in Ht1 as (e1 & He1 & ->). apply fmap_Some in Ht2 as (e2 & He2 & Ht).
  rewrite (view_entry _ F1), (view_entry _ F2) by (done || lia).
  eapply upto_lookup; [|eapply log_match; [apply HN1|apply HN2|exact He1|exact He2|done]]. lia.
Qed.

(** C4: Leader completeness: a leader has every entry up to the commit index of
    every peer whose term is not larger, as far as both still hold it, and
    remembers its term where one of the two has only that left. *)
Theorem leader_completeness n b w D p q rf rl (i : Z) :
  reach_log n b w D → nodes w !! p = Some rf → nodes w !! q = Some rl →
  status rl = Leader → CurrentTerm rf <= CurrentTerm rl → 0 < i <= commitIndex rf →
  i <= lastLogIndex rl ∧
  (lastIncludedIndex rf <= i → lastIncludedIndex rl <= i →
     is_Some (term_at rl i) ∧ term_at rl i = term_at rf i) ∧
  (lastIncludedIndex rf < i → lastIncludedIndex rl < i → entry_at rl i = entry_at rf i).
Proof.
  intros (g & HSI & _)%reach_log_SI Hp Hl Hs Ht Hi.
  destruct (si_node _ _ _ _ HSI _ _ Hp) as [F HNp]. destruct (si_node _ _ _ _ HSI _ _ Hl) as [FL HNl].
  pose proof (ni_view _ _ _ _ _ HNp) as Hvp. pose proof (ni_view _ _ _ _ _ HNl) as Hvl.
  pose proof (v_pos _ _ Hvp). pose proof (v_pos _ _ Hvl).
  destruct (ni_lead _ _ _ _ _ HNl Hs) as (_ & HL & _).
  destruct (ni_commit _ _ _ _ _ HNp) as [?|(T & N & L & HT & Hch & HLT & Hci & Hsame)]; [lia|].
  assert (T <= CurrentTerm rl) as Hle by lia.
  pose proof (chosen_in_later _ _ _ _ _ _ _ _ (si_g _ _ _ _ HSI) Hle Hch HLT HL) as Hlater.
  pose proof (chosen_length _ _ _ _ _ Hch HLT) as Hlen.
  assert (FL !! Z.to_nat i = F !! Z.to_nat i) as E.
  { rewrite (upto_lookup N (Z.to_nat i) FL L) by (done || lia).
    symmetry. eapply upto_lookup; [|exact Hsame]. lia. }
  assert (Z.to_nat i < length FL)%nat as HiL.
  { eapply upto_length; [symmetry; by eapply upto_le; [|exact Hlater]; lia|lia]. }
  split; [rewrite (view_last _ _ Hvl); unfold len; lia|]. split.
  - intros Hif Hil. rewrite (view_term_at _ FL), (view_term_at _ F) by (done || lia). rewrite E. split; [|done].
    apply fmap_is_Some. rewrite <- E. by apply lookup_lt_is_Some_2.
  - intros Hif Hil. by rewrite (view_entry _ FL), (view_entry _ F) by done.
Qed.

(** C3: State machine safety: two peers never hand different commands for one index
    to their services. *)
Theorem state_machine_safety n b w D p q m1 m2 :
  reach_log n b w D → (p, m1) ∈ D → (q, m2) ∈ D →
  CommandValid m1 = true → CommandValid m2 = true → CommandIndex m1 = CommandIndex m2 →
  msg_Command m1 = msg_Command m2.
Proof.
  intros (g & HSI & HD)%reach_log_SI Hm1 Hm2.
  eapply handed_agree; [apply HSI|by eapply HD|by eapply HD].
Qed.
End RaftAgreement.
