(* ===== verification/RaftIntegrity.v ===== *)
(** * RaftIntegrity: what is delivered was proposed

    No peer of [src/src/raft/raft.go] invents a command: whatever holds of every
    command that [Start] was given holds of every entry of every log behind the
    dummy, of every entry on its way that its receiver may take, and so of every
    command handed to a service.  The dummy entry itself, which a leader sends in
    the place of the first entry while a snapshot is on its way, is never taken. *)
From stdpp Require Import base gmap list_numbers option list.
From Stdlib Require Import ZArith Lia.
From S2P Require Import Prelude Labgob RaftTypes Raft RaftNode RaftCluster RaftElection RaftLog RaftApply RaftSnapshots RaftGhost RaftView RaftEffects RaftSafety RaftAgreement.
#[local] Open Scope Z_scope.

Section RaftIntegrity.
Context {C : Type} `{GobLaws (PersistentState C)}.
Notation Raft := (Raft C).
Notation World := (@World C).
Notation Packet := (@Packet C).
Notation Event := (@Event C).
Notation Entry := (LogEntry C).
Implicit Types (rf : Raft) (w : World) (e : Event) (x : Entry) (i p k : nat) (now : Z).

(** What all proposed commands have. *)
Context (P : C → Prop).

Definition real x : Prop := ∃ command, le_Command x = Some command ∧ P command.

(** Every entry but the first. *)
Definition real_log (l : list Entry) : Prop := ∀ k x, (0 < k)%nat → l !! k = Some x → real x.

(** The first entry may be the dummy of a leader, where the receiver cannot take it. *)
Definition real_args (args : AppendEntriesArgs C) : Prop :=
  ∀ k x, aea_Entries args !! k = Some x →
    real x ∨ k = 0%nat ∧ aea_PrevLogTerm args = -1 ∧ (0 < aea_PrevLogIndex args ∨ aea_PrevLogIndex args = -1).

Definition real_packet (pk : Packet) : Prop :=
  match pk with AEReq _ _ args => real_args args | _ => True end.

Record genuine w : Prop := {
  gen_nodes p rf : nodes w !! p = Some rf → real_log (Log rf);
  gen_net pk : pk ∈ net w → real_packet pk
}.

Lemma real_log_drop l k x y : real_log l → (0 < k)%nat → real_log (y :: drop k l) ∧ (x ∈ drop k l → real x).
Proof.
  intros Hl Hk. assert (∀ j z, drop k l !! j = Some z → real z) as Hd.
  { intros j z Hz. rewrite lookup_drop in Hz. by apply (Hl (k + j)%nat); [lia|]. }
  split; [intros [|j] z Hj Hz; [lia|by eapply Hd]|]. by intros [j Hj]%list_elem_of_lookup; eapply Hd.
Qed.

Lemma real_log_app l1 l2 : l1 ≠ [] → real_log l1 → (∀ x, x ∈ l2 → real x) → real_log (l1 ++ l2).
Proof.
  intros Hne H1 H2 k x Hk [Hx|[_ Hx]]%lookup_app_Some; [by eapply H1|]. apply H2. by eapply list_elem_of_lookup_2.
Qed.

Lemma merge_elem (l1 l2 : list Entry) x : x ∈ merge l1 l2 → x ∈ l1 ∨ x ∈ l2.
Proof.
  revert l2. induction l1 as [|y l1 IH]; intros [|z l2]; cbn [merge]; auto.
  case_decide; [|auto]. intros [->|Hx]%elem_of_cons; [left; left|].
  destruct (IH _ Hx); [left|right]; by right.
Qed.

(** ** One operation *)
Lemma log_stepDown now t rf : Log (fst (stepDown now t rf)) = Log rf.
Proof. by destruct (stepDown_cases now t rf) as [[-> _]|[_ ->]]. Qed.

Lemma log_AppendReply now peer args reply rf rf' :
  handleSendAppendEntries now peer args reply rf = Some rf' → Log rf' = Log rf.
Proof.
  unfold handleSendAppendEntries, set_nextIndex, updateLeaderCommitIndex. intros Hx.
  case_decide; [by injection Hx as <-|].
  pose proof (log_stepDown now (aer_Term reply) rf) as Hs.
  destruct (stepDown now (aer_Term reply) rf) as [rf1 []]; [by injection Hx as <-|]. cbn in Hs. rewrite <- Hs.
  destruct (aer_Success reply).
  - apply bind_Some in Hx as (rf2 & (ms & ns & -> & _)%updateMatchAndNextIndex_frame & Hx).
    by apply commitLoop_cases in Hx as [->|(M & _ & ->)].
  - repeat case_decide; by apply bind_Some in Hx as (l & _ & [= <-]).
Qed.

(** Only four operations touch the log. *)
Lemma exec_op_log op rf rf' :
  match op with OpStart _ | OpAppendEntries _ _ | OpSnapshot _ _ | OpInstallSnapshot _ _ => False | _ => True end →
  exec_op op rf = Some rf' → Log rf' = Log rf.
Proof.
  intros Hne Hx. destruct op; try done; cbn in Hx; try (injection Hx as <-); try done.
  - pose proof (RequestVote_cases now args zeroRVReply rf) as Hc. cbv zeta in Hc.
    pose proof (log_stepDown now (rva_Term args) rf) as Hs.
    by destruct Hc as [[-> _]|[_ [[-> _]|[-> _]]]].
  - unfold ticker. by repeat (case_decide; cbn [fst]).
  - unfold handleRequestVoteReply, becomeLeader.
    pose proof (log_stepDown now (rvr_Term reply) rf) as Hs.
    by repeat (case_decide; cbn [fst]).
  - by eapply log_AppendReply.
  - unfold handleInstallSnapshot_reply in Hx. case_decide; [by injection Hx as <-|].
    pose proof (log_stepDown now (isr_Term reply) rf) as Hs.
    destruct (stepDown now (isr_Term reply) rf) as [rf1 []]; [by injection Hx as <-|].
    by apply updateMatchAndNextIndex_frame in Hx as (ms & ns & -> & _).
  - by apply bind_Some in Hx as (l & _ & [= <-]).
  - unfold applyCommitted. case_decide; [done|]. destruct (killed rf); [done|]. by case_decide.
Qed.

Lemma real_Snapshot index s rf : real_log (Log rf) → real_log (Log (Snapshot index s rf)).
Proof.
  intros Hl. unfold Snapshot. case_decide; [done|]. case_decide; cbn.
  - intros [|k] x Hk Hx; [lia|done].
  - unfold slice_from. apply (real_log_drop _ _ (mkLogEntry None 0) _ Hl).
    unfold toPhysicalIndex in *. cbn in *. lia.
Qed.

Lemma real_install now args rf :
  real_log (Log rf) → real_log (Log (fst (InstallSnapshot now args zeroISReply rf))).
Proof.
  intros Hl. pose proof (InstallSnapshot_cases now args zeroISReply rf) as Hc. cbv zeta in Hc.
  destruct Hc as [[-> _]|[_ [[-> _]|[_ ->]]]]; [done|done|]. cbn. unfold retainedLog. case_decide.
  - unfold slice_from. apply (real_log_drop _ _ (mkLogEntry None 0) _ Hl). lia.
  - intros [|k] x Hk Hx; [lia|done].
Qed.

Lemma real_Start command rf : P command → Log rf ≠ [] → real_log (Log rf) → real_log (Log (fst (fst (Start command rf)))).
Proof.
  intros Hc Hne Hl. unfold Start. case_decide; [done|]. cbn. apply real_log_app; [done..|].
  intros x ->%list_elem_of_singleton. by exists command.
Qed.

Lemma real_accept n b g now args rf F :
  GI n b g → view rf F → log_ok g F → real_args args → real_log (Log rf) →
  real_log (Log (fst (AppendEntries now args zeroAEReply rf))).
Proof.
  intros Hg Hv HF Ha Hl. pose proof Hv as [Hpos _ [Hne _] _ _].
  pose proof (AppendEntries_success now args rf Hne) as Hs.
  pose proof (proj1 (AppendEntries_accepts now args rf)) as Hacc.
  destruct (aer_Success (snd (AppendEntries now args zeroAEReply rf))) eqn:Hok.
  - destruct (AppendEntries now args zeroAEReply rf) as [rf' reply]. cbn in *.
    destruct (Hs Hok) as (Hprev & _ & _ & _ & ->). destruct (Hacc eq_refl) as (_ & _ & Hterm).
    apply real_log_app.
    + pose proof (landing_le rf (aea_PrevLogIndex args) Hne Hprev). unfold landing.
      destruct (Log rf); [done|]. replace (Z.to_nat _) with (S (Z.to_nat (Z.max (aea_PrevLogIndex args) (lastIncludedIndex rf) - lastIncludedIndex rf))) by lia. done.
    + intros k x Hk Hx. eapply (Hl k); [done|]. by eapply lookup_take_Some.
    + intros x [Hx|Hx]%merge_elem.
      * eapply (real_log_drop (Log rf) _ x (mkLogEntry None 0) Hl); [|exact Hx]. unfold landing. lia.
      * apply list_elem_of_lookup in Hx as [j Hj]. rewrite lookup_drop in Hj.
        destruct (Ha _ _ Hj) as [?|(Hk & Ht & Hcase)]; [done|exfalso]. unfold skipped in Hk.
        rewrite Ht in Hterm. rewrite (view_last _ _ Hv) in Hprev.
        destruct (lookup_lt_is_Some_2 F (Z.to_nat (aea_PrevLogIndex args))) as [y Hy]; [unfold len in Hprev; lia|].
        rewrite (view_prev rf F _ y) in Hterm by (done || lia).
        pose proof (log_ok_term n b g F (Z.to_nat (aea_PrevLogIndex args)) y Hg HF ltac:(lia) Hy). lia.
  - clear Hs Hacc. unfold AppendEntries in *. case_decide; [done|].
    destruct (matchPrevLog args zeroAEReply _) as [reply []]; [done|]. cbn.
    by rewrite log_stepDown.
Qed.

(** ** One event *)
Lemma real_worker w l p rf args :
  0 <= lastIncludedIndex rf → real_log (Log rf) → nodes w !! l = Some rf → ¬ sends_dummy w (EWorker l p) →
  heartbeatWorker p rf = Some (WorkerSend args) → real_args args.
Proof.
  intros Hpos Hl Hi Hd Hw. unfold heartbeatWorker, toPhysicalIndex in Hw. case_decide; [done|].
  apply bind_Some in Hw as (next & Hn & (r & Hr & Hw)%bind_Some).
  case_decide as Hi1; [done|]. case_decide as Hi2; [done|]. injection Hw as <-. intros k x Hx. cbn in *.
  unfold slice_from in Hx. rewrite lookup_drop in Hx.
  destruct (decide (0 < Z.to_nat (next - lastIncludedIndex rf) + k)%nat) as [Hk|Hk]; [left; by eapply Hl|right].
  assert (next = lastIncludedIndex rf) as -> by lia. split; [lia|]. split; [apply prev_below; lia|].
  rewrite decide_True in Hr by lia. assert (r = true) as -> by (destruct r; [done|destruct Hi1; split; [lia|done]]).
  destruct (decide (lastIncludedIndex rf = 1)) as [E|]; [|lia]. destruct Hd. exists rf. rewrite E in Hn. done.
Qed.

Lemma real_op n b g w e p F op rf rf' :
  GI n b g → genuine w → nodes w !! p = Some rf → view rf F → log_ok g F → (∀ i c, e = EStart i c → P c) →
  exec_op op rf = Some rf' → caused w e p op → real_log (Log rf').
Proof.
  intros Hg [Hn Hpk] Hp Hv HF HP Hx Hca. pose proof (Hn _ _ Hp) as Hl.
  pose proof (λ h, exec_op_log op rf rf' h Hx) as Hsame. pose proof (v_log _ _ Hv) as [Hne _].
  destruct op as [index s|t args|t args|t args|c| | | | | | | |]; try (by rewrite (Hsame I)); cbn in Hx, Hca; injection Hx as <-.
  - by apply real_Snapshot.
  - destruct Hca as (k & l & -> & Hk). eapply real_accept; [done..| |done].
    apply (Hpk _ (list_elem_of_lookup_2 _ _ _ Hk)).
  - by apply real_install.
  - subst e. apply real_Start; [by eapply HP|done|done].
Qed.

(** A restart reads the log back. *)
Lemma real_restart rf rf' now gs :
  durable rf → real_log (Log rf) → Make (peers rf) (me rf) (persister rf) now = Some (rf', gs) → real_log (Log rf').
Proof.
  intros [Hst _] Hl Hm. destruct (Make_stored (peers rf) (me rf) _ now _ Hst) as (r & Hm' & Hps & _).
  rewrite Hm' in Hm. injection Hm as -> _. unfold persistentState in Hps. by injection Hps as _ _ -> _ _.
Qed.

Lemma genuine_step n b g w e w' :
  SI n b g w → genuine w → ¬ sends_dummy w e → (∀ i c, e = EStart i c → P c) →
  exec w e = Some w' → genuine w'.
Proof.
  intros HSI Hgen Hd HP Hx. split.
  - intros p rf' Hp. destruct (exec_nodes _ _ _ _ _ Hx Hp) as (rf & Hp0 & Hfrom).
    destruct (si_node _ _ _ _ HSI _ _ Hp0) as [F HN].
    destruct Hfrom as [->|[(op & Hop & Hca)|(now & gs & Hm & _)]].
    + by apply (gen_nodes _ Hgen p).
    + eapply real_op; [apply HSI|done|exact Hp0|apply HN|apply HN|done..].
    + destruct (inv_node _ _ _ (si_inv _ _ _ _ HSI) _ _ Hp0) as (_ & _ & Hdur & _).
      eapply real_restart; [exact Hdur|by apply (gen_nodes _ Hgen p)|exact Hm].
  - intros pk Hin. destruct (exec_net _ _ _ _ Hx Hin) as [Hold|Hnew]; [by apply Hgen|].
    destruct pk as [| |l p args| | | | |]; try done. destruct Hnew as (-> & rf & Hl & Hw).
    destruct (si_node _ _ _ _ HSI _ _ Hl) as [F HN].
    eapply real_worker; [apply (v_pos _ _ (ni_view _ _ _ _ _ HN))|by apply (gen_nodes _ Hgen l)|exact Hl|done|done].
Qed.

Lemma genuine_boot n w : boot n = Some w → genuine w.
Proof.
  intros (_ & Hnet & _ & Hnodes)%boot_nodes. split.
  - intros p rf Hp. destruct (Hnodes _ _ Hp) as [gs Hm]. cbn in Hm. injection Hm as <- _.
    intros [|k] x Hk Hx; [lia|done].
  - intros pk Hin. rewrite Hnet in Hin. by apply elem_of_nil in Hin.
Qed.

(** ** What is handed over *)
Definition real_msg (m : ApplyMsg C) : Prop :=
  CommandValid m = true → ∃ command, msg_Command m = Some command ∧ P command.

Lemma real_handed w e p m : genuine w → (p, m) ∈ handed w e → real_msg m.
Proof.
  intros Hgen Hin Hv. destruct e; cbn in Hin; try (by apply elem_of_nil in Hin).
  destruct (nodes w !! i) as [rf|] eqn:Hi; [|by apply elem_of_nil in Hin].
  pose proof (gen_nodes _ Hgen _ _ Hi) as Hl. unfold applyCommitted in Hin.
  case_decide; [by apply elem_of_nil in Hin|]. destruct (killed rf); [by apply elem_of_nil in Hin|].
  case_decide; cbn in Hin.
  - apply list_elem_of_singleton in Hin. by injection Hin as -> ->.
  - apply list_elem_of_fmap in Hin as (m' & [= -> ->] & (j & _ & Hj)%list_elem_of_omap).
    cbv zeta in Hj. case_decide as Hk; [|done]. apply bind_Some in Hj as (x & [_ Hx]%at_index_Some & [= <-]).
    eapply Hl; [|exact Hx]. lia.
Qed.

(** Runs in which all proposed commands have the property. *)
Inductive reach_proposed (n : nat) : Ballots → World → list (nat * ApplyMsg C) → Prop :=
  | reach_proposed_boot w : boot n = Some w → reach_proposed n ∅ w []
  | reach_proposed_exec b w D e w' :
      reach_proposed n b w D → (∀ i c, e = EStart i c → P c) → ¬ snapshots_ahead w e → ¬ sends_dummy w e →
      exec w e = Some w' → ¬ revotes b w' → reach_proposed n (record_votes w' b) w' (D ++ handed w e).

Lemma reach_proposed_log n b w D : reach_proposed n b w D → reach_log n b w D.
Proof. induction 1; econstructor; eauto. Qed.

Lemma reach_proposed_genuine n b w D : reach_proposed n b w D → genuine w ∧ ∀ p m, (p, m) ∈ D → real_msg m.
Proof.
  induction 1 as [w Hb|b w D e w' Hr [Hgen HD] HP Hs Hd Hx Hone].
  - split; [by eapply genuine_boot|]. intros p m Hin. by apply elem_of_nil in Hin.
  - destruct (reach_log_SI _ _ _ _ (reach_proposed_log _ _ _ _ Hr)) as (g & HSI & _).
    split; [by eapply genuine_step|]. intros p m [?|?]%elem_of_app; [by eapply HD|by eapply real_handed].
Qed.

(** Integrity: every command handed to a service was proposed at some peer; the
    dummy entry of a log never is. *)
Theorem integrity n b w D p m :
  reach_proposed n b w D → (p, m) ∈ D → CommandValid m = true →
  ∃ command, msg_Command m = Some command ∧ P command.
Proof. intros [_ HD]%reach_proposed_genuine Hin Hv. by eapply HD. Qed.
End RaftIntegrity.

(** More may be proposed. *)
Lemma genuine_mono {C} (P Q : C → Prop) (w : World (C := C)) :
  (∀ c, P c → Q c) → genuine P w → genuine Q w.
Proof.
  intros HPQ [Hn Hpk]. assert (∀ x, real P x → real Q x) as Hx by (intros x (c & ? & ?); exists c; auto).
  split; [intros p rf Hp k x Hk Hl; by eapply Hx, Hn|].
  intros pk Hin. specialize (Hpk pk Hin). destruct pk; try done. intros k x Hl. destruct (Hpk k x Hl); auto.
Qed.
