(* ===== verification/RaftDelivery.v ===== *)
(** * RaftDelivery: one log for all services

    What the peers of [src/src/raft/raft.go] hand to their services, seen as one
    log that grows: [served] holds of a cluster and a log [L] of commands, all of
    which were chosen, when every peer has applied a part of [L] only and every
    snapshot is one a service made.  [raft_serves] shows that each event keeps
    this for a longer log and hands over nothing else; [place_step], that a
    service which follows the messages of its peer never meets a gap. *)
From stdpp Require Import base gmap list_numbers option list.
From Stdlib Require Import ZArith Lia.
From S2P Require Import Prelude Labgob RaftTypes Raft RaftNode RaftCluster RaftElection RaftLog RaftApply RaftSnapshots RaftGhost RaftView RaftEffects RaftSafety RaftAgreement RaftIntegrity.
#[local] Open Scope Z_scope.

(** The entry of index [i] of a log of commands, counted from one. *)
Definition log_at {C} (L : list C) (i : Z) : option C := if decide (1 <= i) then L !! Z.to_nat (i - 1) else None.

Lemma log_at_length {C} (L : list C) i c : log_at L i = Some c → 1 <= i <= len L.
Proof. unfold log_at, len. case_decide; [|done]. intros ?%lookup_lt_Some. lia. Qed.

Lemma log_at_prefix {C} (L L' : list C) i c : L `prefix_of` L' → log_at L i = Some c → log_at L' i = Some c.
Proof. unfold log_at. case_decide; [|done]. intros Hp Hl. by eapply prefix_lookup_Some. Qed.

Lemma elem_of_take_sub {A} (n : nat) (l : list A) x : x ∈ take n l → x ∈ l.
Proof. intros [i Hi]%list_elem_of_lookup. apply lookup_take_Some in Hi as [Hi _]. by eapply list_elem_of_lookup_2. Qed.

Section RaftDelivery.
Context {C : Type} `{GobLaws (PersistentState C)}.
Notation Raft := (Raft C).
Notation World := (@World C).
Notation Event := (@Event C).
Notation Ghost := (@Ghost C).
Notation ApplyMsg := (ApplyMsg C).
Notation NodeOp := (@NodeOp C).
Implicit Types (rf : Raft) (w : World) (e : Event) (es : list Event) (m : ApplyMsg) (L : list C) (g : Ghost) (b : Ballots)
  (i p k : nat) (now pos idx : Z) (op : NodeOp).

(** ** The commit index *)
Definition commit_covered op : Prop :=
  match op with
  | OpAppendEntries _ args => aea_LeaderCommit args <= aea_PrevLogIndex args + len (aea_Entries args)
  | _ => True
  end.

Lemma commit_stepDown now t rf : commitIndex (fst (stepDown now t rf)) = commitIndex rf.
Proof. by destruct (stepDown_cases now t rf) as [[-> _]|[_ ->]]. Qed.

Lemma commit_AppendEntries now args rf :
  aea_LeaderCommit args <= aea_PrevLogIndex args + len (aea_Entries args) →
  commitIndex rf <= commitIndex (fst (AppendEntries now args zeroAEReply rf)).
Proof.
  intros Hlc. pose proof (AppendEntries_cases now args zeroAEReply rf) as Hc. cbv zeta in Hc.
  pose proof (commit_stepDown now (aea_Term args) rf) as Hs.
  destruct Hc as [[-> _]|[_ [->|(l & _ & ->)]]]; [done|cbn; lia|].
  match goal with |- context [updateFollowerCommitIndex ?a ?b ?r] =>
    destruct (updateFollowerCommitIndex_cases a b r) as [[-> _]|[-> ?]] end; cbn in *; lia.
Qed.

Lemma commit_AppendReply now peer args reply rf rf' :
  handleSendAppendEntries now peer args reply rf = Some rf' → commitIndex rf <= commitIndex rf'.
Proof.
  unfold handleSendAppendEntries, set_nextIndex, updateLeaderCommitIndex. intros Hx.
  case_decide; [by injection Hx as <-|].
  pose proof (commit_stepDown now (aer_Term reply) rf) as Hs.
  destruct (stepDown now (aer_Term reply) rf) as [rf1 []]; cbn in Hs; [injection Hx as <-; lia|].
  destruct (aer_Success reply).
  - apply bind_Some in Hx as (rf2 & (ms & ns & -> & _)%updateMatchAndNextIndex_frame & Hx).
    apply commitLoop_cases in Hx as [->|(M & ? & ->)]; cbn in *; lia.
  - repeat case_decide; apply bind_Some in Hx as (l & _ & [= <-]); cbn; lia.
Qed.

(** It never moves back while the peer runs. *)
Lemma exec_op_commit op rf rf' :
  commit_covered op → exec_op op rf = Some rf' → commitIndex rf <= commitIndex rf'.
Proof.
  intros Hok Hx. destruct op; cbn in Hx, Hok; try (injection Hx as <-); try done.
  - unfold Snapshot. by repeat case_decide.
  - pose proof (RequestVote_cases now args zeroRVReply rf) as Hc. cbv zeta in Hc.
    pose proof (commit_stepDown now (rva_Term args) rf) as Hs.
    destruct Hc as [[-> _]|[_ [[-> _]|[-> _]]]]; cbn; lia.
  - by apply commit_AppendEntries.
  - pose proof (InstallSnapshot_cases now args zeroISReply rf) as Hc. cbv zeta in Hc.
    destruct Hc as [[-> _]|[_ [[-> _]|[Hi ->]]]]; cbn; lia.
  - unfold Start. by case_decide.
  - unfold ticker. by repeat (case_decide; cbn [fst]).
  - unfold handleRequestVoteReply, becomeLeader.
    pose proof (commit_stepDown now (rvr_Term reply) rf) as Hs.
    repeat (case_decide; cbn [fst]); try done. cbn in *. lia.
  - by eapply commit_AppendReply.
  - unfold handleInstallSnapshot_reply in Hx. case_decide; [by injection Hx as <-|].
    pose proof (commit_stepDown now (isr_Term reply) rf) as Hs.
    destruct (stepDown now (isr_Term reply) rf) as [rf1 []]; [injection Hx as <-; cbn in *; lia|].
    apply updateMatchAndNextIndex_frame in Hx as (ms & ns & -> & _). cbn in *. lia.
  - apply bind_Some in Hx as (l & _ & [= <-]). done.
  - unfold applyCommitted. case_decide; [done|]. destruct (killed rf); [done|]. by case_decide.
Qed.

(** A leader sends the entries its commit index covers. *)
Lemma caused_covered n b g w e p op : SI n b g w → caused w e p op → commit_covered op.
Proof.
  intros HSI Hca. destruct op as [| |now args| | | | | | | | | |]; try done. destruct Hca as (k & l & _ & Hk).
  destruct (si_net _ _ _ _ HSI _ (list_elem_of_lookup_2 _ _ _ Hk)) as (L0 & (Hne & _ & Hsent) & Hc).
  assert (aea_PrevLogIndex args + len (aea_Entries args) = len L0 - 1) as E.
  { destruct Hsent as [(Hp & Hes & _)|(Hp & Hlt & _ & x & Hes)]; rewrite Hes;
      [|rewrite len_cons]; unfold len in *; rewrite length_drop; lia. }
  cbn. rewrite E. destruct (decide (0 < aea_LeaderCommit args)) as [Hpos|].
  - pose proof (commit_ok_length _ _ _ _ _ Hc Hpos). unfold len. lia.
  - destruct L0; [done|]. unfold len. cbn. lia.
Qed.

(** ** The place of a service *)

(** A service that has followed the messages of its peer to [pos] is where the
    peer believes it, or a snapshot is to come. *)
Definition at_place pos rf : Prop :=
  applySnapshot rf = true ∨ lastApplied rf < lastIncludedIndex rf ∨ lastApplied rf = pos.

(** What a turn of the applier sends. *)
Definition sent_by (r : ApplyResult) : list ApplyMsg := match r with ApplySend msgs => msgs | _ => [] end.

Definition snapshot_msg rf : ApplyMsg :=
  mkApplyMsg false None 0 true (snapshot rf) (lastIncludedTerm rf) (lastIncludedIndex rf).

Lemma applier_sends rf :
  covered rf →
  let '(rf', r) := applyCommitted rf in
  sent_by r = [] ∧ lastApplied rf' = lastApplied rf ∧ applySnapshot rf' = applySnapshot rf ∨
  (lastApplied rf < lastIncludedIndex rf ∨ applySnapshot rf = true) ∧
    sent_by r = [snapshot_msg rf] ∧ lastApplied rf' = lastIncludedIndex rf ∧ applySnapshot rf' = false ∨
  lastIncludedIndex rf <= lastApplied rf < commitIndex rf ∧ applySnapshot rf = false ∧
    lastApplied rf' = commitIndex rf ∧ applySnapshot rf' = false ∧
    len (sent_by r) = commitIndex rf - lastApplied rf ∧
    ∀ k, (k < length (sent_by r))%nat → ∃ x,
      entry_at rf (lastApplied rf + 1 + Z.of_nat k) = Some x ∧
      sent_by r !! k = Some (command_msg (lastApplied rf + 1 + Z.of_nat k) x).
Proof.
  unfold covered. intros Hc. unfold applyCommitted. case_decide as Hw; [by left|].
  destruct (killed rf); [by left|]. case_decide as Hs; [by right; left|]. right. right. cbn [sent_by].
  assert (applySnapshot rf = false) as Ha by (destruct (applySnapshot rf); [destruct Hs; by right|done]).
  assert (lastApplied rf < commitIndex rf).
  { apply Z.nle_gt. intros Hle. by apply Hw. }
  assert (lastIncludedIndex rf <= lastApplied rf) by (apply Z.nlt_ge; intros ?; apply Hs; by left).
  split; [done|]. split; [done|]. split; [done|]. split; [done|].
  set (n := Z.to_nat (commitIndex rf - lastApplied rf)).
  replace (commitIndex rf) with (lastApplied rf + 1 + Z.of_nat n - 1) by lia.
  unfold len. rewrite entriesToApply_length by lia. split; [lia|].
  intros k Hk. apply entriesToApply_lookup; lia.
Qed.

Lemma place_applier pos rf :
  covered rf → at_place pos rf →
  ∃ pos', follow pos (sent_by (snd (applyCommitted rf))) = Some pos' ∧ at_place pos' (fst (applyCommitted rf)).
Proof.
  intros Hc Hp. assert (lastIncludedIndex (fst (applyCommitted rf)) = lastIncludedIndex rf) as El.
  { unfold applyCommitted. case_decide; [done|]. destruct (killed rf); [done|]. by case_decide. }
  pose proof (applier_sends rf Hc) as Ht. unfold at_place in *.
  destruct (applyCommitted rf) as [rf' r]. cbn [fst snd] in *. rewrite El.
  destruct Ht as [(-> & -> & ->)|[(_ & -> & -> & ->)|(Hl & Ha & -> & -> & Hlen & Hm)]].
  - by exists pos.
  - exists (lastIncludedIndex rf). auto.
  - destruct Hp as [?|[?|<-]]; [congruence|lia|]. exists (lastApplied rf + len (sent_by r)).
    split; [|right; right; lia]. apply follow_commands. intros k Hk. destruct (Hm k Hk) as (x & _ & ?). by exists x.
Qed.

Lemma place_op pos op rf rf' :
  op ≠ OpApplyCommitted → 0 <= lastIncludedIndex rf → exec_op op rf = Some rf' → at_place pos rf → at_place pos rf'.
Proof.
  intros Hne Hpos Hx Hp. destruct (exec_op_applied _ _ _ Hne Hx) as [_ [[El Ea]|?]]; [|by left].
  unfold at_place in *. rewrite El, Ea.
  assert (lastIncludedIndex rf <= lastIncludedIndex rf' ∨ applySnapshot rf' = true) as Hi.
  { pose proof (λ h, exec_op_same_snapshot op rf rf' h Hx) as Hss.
    destruct op as [index s| | |now args| | | | | | | | |];
      try (destruct (Hss I) as [-> _]; left; lia); cbn in Hx; injection Hx as <-.
    - left. unfold Snapshot. repeat case_decide; cbn; lia.
    - pose proof (InstallSnapshot_cases now args zeroISReply rf) as Hc. cbv zeta in Hc.
      destruct Hc as [[-> _]|[_ [[-> _]|[Hi ->]]]]; cbn; auto; left; lia. }
  rewrite Ea in Hi. destruct Hi; [|by left]. destruct Hp as [?|[?|?]]; auto. right. left. lia.
Qed.

(** ** The log of the services *)
Definition chosen_at n g idx (c : C) : Prop := handed_ok n g (mkApplyMsg true (Some c) idx false [] 0 0).

Definition chosen_log n g L : Prop := ∀ idx c, log_at L idx = Some c → chosen_at n g idx c.

Lemma chosen_log_evolves n g g' L : evolves g g' → chosen_log n g L → chosen_log n g' L.
Proof. intros Hev HL idx c Hc. by eapply handed_ok_evolves, HL. Qed.

(** All commands for an index are the same, so there is one log. *)
Lemma chosen_log_prefix n b g L1 L2 :
  GI n b g → chosen_log n g L1 → chosen_log n g L2 → (length L1 <= length L2)%nat → L1 `prefix_of` L2.
Proof.
  intros Hg H1 H2 Hlen. exists (drop (length L1) L2).
  rewrite <- (take_drop (length L1) L2) at 1. f_equal. symmetry.
  apply list_eq_same_length with (length L1); [rewrite length_take; lia|done|].
  intros k c1 c2 Hk Hc1 Hc2. rewrite lookup_take_lt in Hc2 by done.
  assert (∀ L c, L !! k = Some c → log_at L (Z.of_nat k + 1) = Some c) as He.
  { intros L c Hc. unfold log_at. rewrite decide_True by lia. by replace (Z.to_nat _) with k by lia. }
  pose proof (handed_agree _ _ _ _ _ Hg (H1 _ _ (He _ _ Hc1)) (H2 _ _ (He _ _ Hc2)) eq_refl eq_refl eq_refl) as E.
  by injection E.
Qed.

Lemma NI_covered n g p F rf : NI n g p F rf → covered rf.
Proof.
  intros HN. unfold covered. pose proof (ni_view _ _ _ _ _ HN) as Hv. rewrite (view_last _ _ Hv).
  destruct (decide (0 < commitIndex rf)) as [Hpos|].
  - pose proof (commit_ok_length _ _ _ _ _ (ni_commit _ _ _ _ _ HN) Hpos). unfold len. lia.
  - pose proof (v_len _ _ Hv). pose proof (v_pos _ _ Hv). lia.
Qed.

(** ** What a service receives *)

Lemma handed_apply w i rf :
  nodes w !! i = Some rf → handed w (EApply i) = (λ m, (i, m)) <$> sent_by (snd (applyCommitted rf)).
Proof. intros Hi. cbn. rewrite Hi. by destruct (snd (applyCommitted rf)). Qed.

Lemma handed_at w e p m :
  (p, m) ∈ handed w e → ∃ rf, e = EApply p ∧ nodes w !! p = Some rf ∧ m ∈ sent_by (snd (applyCommitted rf)).
Proof.
  intros Hin. assert (∃ i, e = EApply i) as [i ->] by (destruct e; try (by apply elem_of_nil in Hin); eauto).
  destruct (nodes w !! i) as [rf|] eqn:Hi; [|cbn in Hin; rewrite Hi in Hin; by apply elem_of_nil in Hin].
  rewrite (handed_apply _ _ _ Hi) in Hin. apply list_elem_of_fmap in Hin as (m' & [= -> ->] & Hm). by exists rf.
Qed.

(** The messages for the service of [p]. *)
Definition handed_to p w e : list ApplyMsg := (filter (λ x, x.1 = p) (handed w e)).*2.

Lemma handed_to_elem p w e m : m ∈ handed_to p w e ↔ (p, m) ∈ handed w e.
Proof.
  unfold handed_to. rewrite list_elem_of_fmap. split.
  - intros ([q m'] & -> & [E Hin]%list_elem_of_filter). cbn in E. by subst q.
  - intros Hin. exists (p, m). split; [done|]. by apply list_elem_of_filter.
Qed.

Lemma handed_to_apply p w rf :
  nodes w !! p = Some rf → handed_to p w (EApply p) = sent_by (snd (applyCommitted rf)).
Proof.
  intros Hp. unfold handed_to. rewrite (handed_apply _ _ _ Hp). induction (sent_by _) as [|m ms IH]; [done|].
  rewrite fmap_cons, filter_cons_True by done. cbn. by rewrite <- IH at 2.
Qed.

Lemma handed_to_other p w e : e ≠ EApply p → handed_to p w e = [].
Proof.
  intros Hne. destruct (handed_to p w e) as [|m ms] eqn:E; [done|].
  assert (m ∈ handed_to p w e) as Hin by (rewrite E; by left).
  by apply handed_to_elem, handed_at in Hin as (rf & ? & _).
Qed.

(** The service of a peer that keeps running gets a snapshot or the next command,
    every time. *)
Lemma place_exec n b g w e w' p rf rf' pos :
  SI n b g w → exec w e = Some w' → (∀ now, e ≠ ERestart p now) →
  nodes w !! p = Some rf → nodes w' !! p = Some rf' → at_place pos rf →
  commitIndex rf <= commitIndex rf' ∧
  ∃ pos', follow pos (handed_to p w e) = Some pos' ∧ at_place pos' rf'.
Proof.
  intros HSI Hx Hne Hp Hp' Hpos. destruct (si_node _ _ _ _ HSI _ _ Hp) as [F HN].
  pose proof (v_pos _ _ (ni_view _ _ _ _ _ HN)) as Hlii.
  destruct (exec_nodes _ _ _ _ _ Hx Hp') as (rf0 & Hp0 & Hfrom). simplify_eq.
  assert (e = EApply p ∨ e ≠ EApply p) as [->|Ha].
  { destruct e as [| | | | |i| | | |]; try (by right). destruct (decide (i = p)) as [->|]; [by left|right; congruence]. }
  - apply run_op_Some in Hx as (rf1 & rf2 & Hp1 & Hop & ->). rewrite Hp in Hp1. injection Hp1 as <-.
    cbn in Hp'. rewrite list_lookup_insert_eq in Hp' by by eapply lookup_lt_Some. injection Hp' as ->.
    split; [by eapply (exec_op_commit OpApplyCommitted)|]. rewrite (handed_to_apply _ _ _ Hp).
    cbn in Hop. injection Hop as <-. apply place_applier; [by eapply NI_covered|done].
  - rewrite (handed_to_other _ _ _ Ha). cbn [follow].
    destruct Hfrom as [->|[(op & Hop & Hca)|(now & gs & _ & He)]]; [| |by destruct (Hne now)].
    + split; [done|]. by exists pos.
    + split; [eapply exec_op_commit; [by eapply caused_covered|exact Hop]|]. exists pos. split; [done|].
      eapply (place_op _ op rf); [by intros ->|lia|exact Hop|done].
Qed.

(** *** Along a run *)

(** A run of the cluster on which peer [p] is not restarted, from [rf0] on, with all
    that its service receives.  The run before is any of [reach_log]. *)
Inductive serving (n : nat) p rf0 : Ballots → World → list ApplyMsg → Prop :=
  | serving_start b w D : reach_log n b w D → nodes w !! p = Some rf0 → serving n p rf0 b w []
  | serving_exec b w msgs e w' :
      serving n p rf0 b w msgs → (∀ now, e ≠ ERestart p now) →
      ¬ snapshots_ahead w e → ¬ sends_dummy w e → exec w e = Some w' → ¬ revotes b w' →
      serving n p rf0 (record_votes w' b) w' (msgs ++ handed_to p w e).

Lemma serving_reach n p rf0 b w msgs : serving n p rf0 b w msgs → ∃ D, reach_log n b w D.
Proof. induction 1 as [b w D Hr _|b w msgs e w' _ [D HD] _ Hs Hd Hx Hv]; eexists; [exact Hr|by apply reach_log_exec]. Qed.


(** ** What all peers have in common *)

(** The snapshots that are right for a log: they cover a part of it only, and stay right. *)
Class GoodSnapshots (good : list C → Z → bytes → Prop) := {
  good_prefix L L' idx s : L `prefix_of` L' → good L idx s → good L' idx s;
  good_bound L idx s : good L idx s → idx <= len L
}.

Context (good : list C → Z → bytes → Prop) `{!GoodSnapshots good} (P : C → Prop).

Record served n b g L w : Prop := {
  sv_si : SI n b g w;
  sv_genuine : genuine P w;
  sv_chosen : chosen_log n g L;
  sv_real c : c ∈ L → P c;
  sv_origins : ∃ es, origins es w ∧ ∀ idx s, made es idx s → good L idx s;
  sv_node p rf : nodes w !! p = Some rf →
    lastApplied rf <= len L ∧ (lastIncludedIndex rf <= 0 → snapshot rf = [])
}.

(** A message that is right for the log: the command of its index, or a good snapshot. *)
Definition delivery L m : Prop :=
  if SnapshotValid m then
    CommandValid m = false ∧ 0 < SnapshotIndex m ∧ good L (SnapshotIndex m) (msg_Snapshot m)
  else CommandValid m = true ∧ ∃ c, log_at L (CommandIndex m) = Some c ∧ msg_Command m = Some c.

Lemma delivery_prefix L L' m : L `prefix_of` L' → delivery L m → delivery L' m.
Proof.
  unfold delivery. intros Hp. destruct (SnapshotValid m).
  - intros (? & ? & ?). split_and!; [done..|by eapply good_prefix].
  - intros (? & c & ? & ?). split; [done|]. exists c. split; [by eapply log_at_prefix|done].
Qed.

(** The snapshot of a peer is good. *)
Lemma served_snapshot n b g L w p rf :
  served n b g L w → nodes w !! p = Some rf →
  durable rf ∧ 0 <= lastIncludedIndex rf <= len L ∧ 0 <= lastApplied rf ∧
  (applySnapshot rf = true → 0 < lastIncludedIndex rf) ∧
  (0 < lastIncludedIndex rf → good L (lastIncludedIndex rf) (snapshot rf)).
Proof.
  intros [_ _ _ _ (es & [Ho _] & Hgood) _] Hp. destruct (Ho _ _ Hp) as (Hd & Hi & Ha & Hs & Hm).
  split; [done|]. split; [|split_and!; auto].
  destruct (decide (0 < lastIncludedIndex rf)) as [Hpos|]; [|pose proof (len_nonneg L); lia].
  pose proof (good_bound _ _ _ (Hgood _ _ (Hm Hpos))). lia.
Qed.

(** The commands of one turn continue the part of the log the peer has applied. *)
Lemma commands_chosen n b g L w i rf cmds :
  served n b g L w → nodes w !! i = Some rf →
  Forall2 (λ m c, msg_Command m = Some c) (sent_by (snd (applyCommitted rf))) cmds →
  (∀ k, (k < length cmds)%nat → ∃ x,
    sent_by (snd (applyCommitted rf)) !! k = Some (command_msg (lastApplied rf + 1 + Z.of_nat k) x)) →
  chosen_log n g (take (Z.to_nat (lastApplied rf)) L ++ cmds) ∧
  ∀ k c, cmds !! k = Some c →
    log_at (take (Z.to_nat (lastApplied rf)) L ++ cmds) (lastApplied rf + 1 + Z.of_nat k) = Some c.
Proof.
  intros Hsv Hi Hcmds Hmsgs. pose proof (sv_node _ _ _ _ _ Hsv _ _ Hi) as [Hla _].
  destruct (served_snapshot _ _ _ _ _ _ _ Hsv Hi) as (_ & _ & Hpos & _).
  assert (length (take (Z.to_nat (lastApplied rf)) L) = Z.to_nat (lastApplied rf)) as Htake
    by (rewrite length_take; unfold len in Hla; lia).
  split.
  - intros idx c. unfold log_at. case_decide as H1; [|done].
    intros [Hc|[Hge Hc]]%lookup_app_Some.
    + apply lookup_take_Some in Hc as [Hc _]. apply (sv_chosen _ _ _ _ _ Hsv). unfold log_at. by rewrite decide_True.
    + rewrite Htake in *. apply lookup_lt_Some in Hc as Hlt. destruct (Hmsgs _ Hlt) as [x Hx].
      pose proof (Forall2_lookup_lr _ _ _ _ _ _ Hcmds Hx Hc) as Hcmd. cbn in Hcmd.
      destruct (si_node _ _ _ _ (sv_si _ _ _ _ _ Hsv) _ _ Hi) as [F HN].
      destruct (snd (applyCommitted rf)) as [| |msgs] eqn:Ha; try done. cbn [sent_by] in Hx.
      pose proof (applied_ok _ _ _ _ _ _ _ HN Ha (list_elem_of_lookup_2 _ _ _ Hx)) as Hok.
      unfold chosen_at, handed_ok in *. cbn in *. rewrite Hcmd in Hok.
      by replace idx with (lastApplied rf + 1 + Z.of_nat (Z.to_nat (idx - 1) - Z.to_nat (lastApplied rf))) by lia.
  - intros k c Hc. unfold log_at. rewrite decide_True by lia. apply lookup_app_Some. right.
    rewrite Htake. split; [lia|]. by replace (_ - _)%nat with k by lia.
Qed.

Lemma commands_of (ms : list ApplyMsg) :
  Forall (λ m, ∃ c, msg_Command m = Some c ∧ P c) ms →
  ∃ cmds, Forall2 (λ m c, msg_Command m = Some c) ms cmds ∧ ∀ c, c ∈ cmds → P c.
Proof.
  induction 1 as [|m ms (c & Hc & HP) _ (cmds & Hcmds & Hall)].
  - exists []. split; [done|]. by intros c ?%not_elem_of_nil.
  - exists (c :: cmds). split; [by constructor|]. intros c' [->|?]%elem_of_cons; auto.
Qed.

(** What the applier hands over belongs to a log that goes on from this one. *)
Lemma applier_log n b g L w i rf :
  served n b g L w → nodes w !! i = Some rf →
  ∃ L', L `prefix_of` L' ∧ chosen_log n g L' ∧ (∀ c, c ∈ L' → P c) ∧
    lastApplied (fst (applyCommitted rf)) <= len L' ∧
    ∀ m, m ∈ sent_by (snd (applyCommitted rf)) →
      delivery L' m ∧ (CommandValid m = true → CommandIndex m <= commitIndex rf).
Proof.
  intros Hsv Hi. pose proof (sv_node _ _ _ _ _ Hsv _ _ Hi) as [Hla _].
  destruct (served_snapshot _ _ _ _ _ _ _ Hsv Hi) as (_ & Hlii & Hpos & Has & Hgood).
  destruct (si_node _ _ _ _ (sv_si _ _ _ _ _ Hsv) _ _ Hi) as [F HN].
  pose proof (applier_sends rf (NI_covered _ _ _ _ _ HN)) as Ht.
  pose proof (λ cmds, commands_chosen _ _ _ _ _ _ _ cmds Hsv Hi) as Hch.
  destruct (applyCommitted rf) as [rf' r]. cbn [fst snd] in *.
  destruct Ht as [(-> & -> & _)|[(Hs & -> & -> & _)|(Hl & Ha & -> & _ & Hlen & Hm)]].
  - exists L. split_and!; [done|apply Hsv|apply Hsv|done|]. intros m []%elem_of_nil.
  - exists L. split_and!; [done|apply Hsv|apply Hsv|lia|]. intros m ->%list_elem_of_singleton. split; [|done].
    assert (0 < lastIncludedIndex rf) by (destruct Hs; [lia|auto]). unfold delivery. cbn. auto.
  - assert (Forall (λ m, ∃ c, msg_Command m = Some c ∧ P c) (sent_by r)) as Hreal.
    { apply Forall_lookup_2. intros k m Hk. apply lookup_lt_Some in Hk as Hlt.
      destruct (Hm _ Hlt) as (x & Hx & Hk'). rewrite Hk in Hk'. injection Hk' as ->.
      unfold entry_at in Hx. case_decide; [|done]. apply at_index_Some in Hx as [_ Hx].
      eapply (gen_nodes _ _ (sv_genuine _ _ _ _ _ Hsv) _ _ Hi); [|exact Hx]. lia. }
    destruct (commands_of _ Hreal) as (cmds & Hcmds & HP). pose proof (Forall2_length _ _ _ Hcmds) as Hlc.
    destruct (Hch cmds) as [Hchosen Hat]; [done|intros k Hk; rewrite <- Hlc in Hk; destruct (Hm _ Hk) as (x & _ & ?); by exists x|].
    set (L2 := take _ L ++ cmds) in *.
    assert (commitIndex rf <= len L2) as Hlen2.
    { subst L2. rewrite len_app. unfold len in *. rewrite length_take. lia. }
    pose proof (chosen_log_prefix _ _ _ _ _ (si_g _ _ _ _ (sv_si _ _ _ _ _ Hsv)) (sv_chosen _ _ _ _ _ Hsv) Hchosen) as Hp1.
    pose proof (chosen_log_prefix _ _ _ _ _ (si_g _ _ _ _ (sv_si _ _ _ _ _ Hsv)) Hchosen (sv_chosen _ _ _ _ _ Hsv)) as Hp2.
    assert (∀ c, c ∈ L2 → P c) as HP2.
    { subst L2. intros c [Hc|?]%elem_of_app; [by apply Hsv, (elem_of_take_sub (Z.to_nat (lastApplied rf)))|auto]. }
    assert (∃ L', L `prefix_of` L' ∧ L2 `prefix_of` L' ∧ chosen_log n g L' ∧ ∀ c, c ∈ L' → P c) as (L' & HL & HL2 & Hc' & HP').
    { destruct (decide (length L <= length L2)%nat); [exists L2|exists L]; split_and!; auto; try done; [apply Hp2; lia|apply Hsv..]. }
    exists L'. split; [done|]. split; [done|]. split; [done|]. split; [apply prefix_length in HL2; unfold len in *; lia|].
    intros m [k Hk]%list_elem_of_lookup. apply lookup_lt_Some in Hk as Hlt.
    destruct (Hm _ Hlt) as (x & _ & Hk'). rewrite Hk in Hk'. injection Hk' as ->.
    destruct (Forall2_lookup_l _ _ _ _ _ Hcmds Hk) as (c & Hc & Hmc). cbn in Hmc.
    split; [|cbn; unfold len in *; lia]. split; [done|]. exists c. split; [|done]. cbn.
    eapply log_at_prefix; [exact HL2|]. by apply Hat.
Qed.

(** ** One event *)

Lemma event_log n b g L w e :
  served n b g L w →
  ∃ L', L `prefix_of` L' ∧ chosen_log n g L' ∧ (∀ c, c ∈ L' → P c) ∧
    (∀ i rf, e = EApply i → nodes w !! i = Some rf → lastApplied (fst (applyCommitted rf)) <= len L') ∧
    ∀ p m rf, (p, m) ∈ handed w e → nodes w !! p = Some rf →
      delivery L' m ∧ (CommandValid m = true → CommandIndex m <= commitIndex rf).
Proof.
  intros Hsv. assert ((∃ i rf, e = EApply i ∧ nodes w !! i = Some rf) ∨ ∀ i rf, e = EApply i → nodes w !! i ≠ Some rf) as [(i & rf & -> & Hi)|Hne].
  { destruct e as [| | | | |i| | | |]; try (by right). destruct (nodes w !! i) as [rf|] eqn:Hi; [left; eauto|right; congruence]. }
  - destruct (applier_log _ _ _ _ _ _ _ Hsv Hi) as (L' & Hp & Hc & HP & Hla & Hm). exists L'. split_and!; [done..| |].
    + intros j rf' [= <-] Hj. by simplify_eq.
    + intros p m rf' (rf'' & [= <-] & ? & ?)%handed_at Hj. simplify_eq. by apply Hm.
  - exists L. split_and!; [done|apply Hsv|apply Hsv| |].
    + intros i rf He Hi. by destruct (Hne _ _ He Hi).
    + intros p m rf (? & He & Hi & _)%handed_at _. by destruct (Hne _ _ He Hi).
Qed.

(** What a peer has applied is in the log, and its snapshot is empty or covers something. *)
Definition applied_ok_for L rf : Prop :=
  lastApplied rf <= len L ∧ (lastIncludedIndex rf <= 0 → snapshot rf = []).

Lemma applied_op n b g L L' w e p op rf rf' :
  served n b g L w → L `prefix_of` L' → nodes w !! p = Some rf → exec_op op rf = Some rf' → caused w e p op →
  (e = EApply p → lastApplied (fst (applyCommitted rf)) <= len L') → applied_ok_for L' rf'.
Proof.
  intros Hsv HL Hp Hx Hca Hap. destruct (sv_node _ _ _ _ _ Hsv _ _ Hp) as [Hla Hbl].
  destruct (served_snapshot _ _ _ _ _ _ _ Hsv Hp) as (_ & Hlii & Hpos & _).
  assert (lastApplied rf <= len L') as Hla' by (apply prefix_length in HL; unfold len in *; lia).
  pose proof (λ h, exec_op_same_snapshot op rf rf' h Hx) as Hss. pose proof (λ h, exec_op_same op rf rf' h Hx) as Has.
  unfold applied_ok_for.
  destruct op as [index s| | |now args| | | | | | | | |];
    try (destruct (Hss I) as [Ei Es], (Has I) as (_ & Ea & _); by rewrite Ei, Es, Ea).
  - destruct (Has I) as (_ & -> & _). split; [done|]. cbn in Hx. injection Hx as <-.
    unfold Snapshot. repeat case_decide; cbn; try done; lia.
  - destruct Hca as (k & l & -> & Hk). cbn in Hx. injection Hx as <-.
    pose proof (InstallSnapshot_cases now args zeroISReply rf) as Hc. cbv zeta in Hc.
    destruct Hc as [[-> _]|[_ [[-> _]|[Hlt ->]]]]; [done|done|]. cbn. split; [|lia].
    destruct (sv_origins _ _ _ _ _ Hsv) as (es & [_ Hnet] & Hgood).
    pose proof (Hnet _ (list_elem_of_lookup_2 _ _ _ Hk)) as Hm. cbn in Hm.
    pose proof (good_bound _ _ _ (Hgood _ _ (Hm ltac:(lia)))). apply prefix_length in HL. unfold len in *. lia.
  - destruct (Hss I) as [Ei Es]. rewrite Ei, Es. split; [|done]. cbn in Hx, Hca. injection Hx as <-. by apply Hap.
Qed.

Lemma applied_restart n b g L L' w p rf rf' now gs :
  served n b g L w → L `prefix_of` L' → nodes w !! p = Some rf →
  Make (peers rf) (me rf) (persister rf) now = Some (rf', gs) → applied_ok_for L' rf'.
Proof.
  intros Hsv HL Hp Hm. destruct (sv_node _ _ _ _ _ Hsv _ _ Hp) as [_ Hbl].
  destruct (served_snapshot _ _ _ _ _ _ _ Hsv Hp) as ([Hst Hsn] & Hlii & _).
  destruct (Make_applier _ _ _ _ _ _ _ Hst Hm) as [Ea _].
  destruct (Make_stored (peers rf) (me rf) _ now _ Hst) as (r & Hm' & Hps & Hsnap & _).
  rewrite Hm' in Hm. injection Hm as -> _. unfold persistentState in Hps. injection Hps as _ _ _ Ei _.
  unfold applied_ok_for. rewrite Ea, Hsnap, Hsn, Ei. apply prefix_length in HL. split; [|done]. unfold len in *. lia.
Qed.

(** Each event keeps the peers serving one log, which may grow, and hands over
    only what belongs to it. *)
Theorem raft_serves n b g L w e w' :
  served n b g L w → (∀ i c, e = EStart i c → P c) → (∀ i idx s, e = ESnapshot i idx s → good L idx s) →
  ¬ snapshots_ahead w e → ¬ sends_dummy w e → exec w e = Some w' → ¬ revotes b w' →
  ∃ g' L', L `prefix_of` L' ∧ served n (record_votes w' b) g' L' w' ∧
    ∀ p m rf, (p, m) ∈ handed w e → nodes w !! p = Some rf →
      delivery L' m ∧ (CommandValid m = true → CommandIndex m <= commitIndex rf).
Proof.
  intros Hsv HP Hsnap Hahead Hdummy Hx Hone. pose proof (sv_si _ _ _ _ _ Hsv) as HSI.
  destruct (exec_goes_on _ _ _ _ _ _ HSI Hahead Hdummy Hx Hone) as (g' & Hev & HSI').
  destruct (event_log _ _ _ _ _ e Hsv) as (L' & HL & Hch & HPL & Hap & Hhand).
  exists g', L'. split; [done|]. split; [|done]. split; [done| | |done| |].
  - eapply genuine_step; [exact HSI|apply Hsv|exact Hdummy|exact HP|exact Hx].
  - by eapply chosen_log_evolves.
  - destruct (sv_origins _ _ _ _ _ Hsv) as (es & Ho & Hgood). exists (es ++ [e]). split; [by eapply origins_step|].
    intros idx s [i [Hin|Hin%list_elem_of_singleton]%elem_of_app]; eapply good_prefix; try exact HL;
      [apply Hgood; by exists i|by eapply Hsnap].
  - intros p rf' Hp. destruct (exec_nodes _ _ _ _ _ Hx Hp) as (rf & Hp0 & Hfrom).
    destruct Hfrom as [->|[(op & Hop & Hca)|(now & gs & Hm & _)]].
    + destruct (sv_node _ _ _ _ _ Hsv _ _ Hp0) as [Hla Hbl]. split; [|done]. apply prefix_length in HL. unfold len in *. lia.
    + eapply applied_op; [exact Hsv|exact HL|exact Hp0|exact Hop|exact Hca|]. intros ->. by eapply Hap.
    + by eapply applied_restart.
Qed.

Lemma served_boot n w : boot n = Some w → served n ∅ no_ghost [] w.
Proof.
  intros Hb. split.
  - by apply boot_SI.
  - by eapply genuine_boot.
  - intros idx c Hc. unfold log_at in Hc. by case_decide.
  - by intros c ?%not_elem_of_nil.
  - exists []. split; [by eapply (origins_run n w [])|]. intros idx s [i Hi]. by apply elem_of_nil in Hi.
  - apply boot_nodes in Hb as (_ & _ & _ & Hnodes). intros p rf Hp. destruct (Hnodes _ _ Hp) as [gs Hm].
    cbn in Hm. by injection Hm as <- _.
Qed.

(** With what the peers share. *)
Lemma place_step n b g L w e w' p rf rf' pos :
  served n b g L w → exec w e = Some w' → (∀ now, e ≠ ERestart p now) →
  nodes w !! p = Some rf → nodes w' !! p = Some rf' → at_place pos rf →
  commitIndex rf <= commitIndex rf' ∧
  ∃ pos', follow pos (handed_to p w e) = Some pos' ∧ at_place pos' rf'.
Proof. intros Hsv. by eapply place_exec, Hsv. Qed.

(** A service that starts from the snapshot of its peer is in its place. *)
Theorem place_restart n b g L w p rf rf' now gs :
  served n b g L w → nodes w !! p = Some rf →
  Make (peers rf) (me rf) (persister rf) now = Some (rf', gs) →
  at_place (lastIncludedIndex rf) rf' ∧
  (lastIncludedIndex rf = 0 ∧ ps_snapshot (persister rf) = [] ∨
   0 < lastIncludedIndex rf ∧ good L (lastIncludedIndex rf) (ps_snapshot (persister rf))).
Proof.
  intros Hsv Hp Hm. destruct (sv_node _ _ _ _ _ Hsv _ _ Hp) as [_ Hbl].
  destruct (served_snapshot _ _ _ _ _ _ _ Hsv Hp) as ([Hst Hsn] & Hlii & _ & _ & Hgood).
  destruct (Make_applier _ _ _ _ _ _ _ Hst Hm) as [Ea _].
  destruct (Make_stored (peers rf) (me rf) _ now _ Hst) as (r & Hm' & Hps & _).
  rewrite Hm' in Hm. injection Hm as -> _. unfold persistentState in Hps. injection Hps as _ _ _ Ei _.
  rewrite Hsn. split; [right; right; lia|].
  destruct (decide (0 < lastIncludedIndex rf)) as [Hpos|]; [by right; auto|left]. split; [lia|apply Hbl; lia].
Qed.
End RaftDelivery.

Lemma served_mono {C} `{GobLaws (PersistentState C)} (good : list C → Z → bytes → Prop) (P Q : C → Prop) n b g L w :
  (∀ c, P c → Q c) → served good P n b g L w → served good Q n b g L w.
Proof. intros HPQ [? Hgen ? HP ? ?]. split; auto. by eapply genuine_mono. Qed.
