(* ===== verification/RaftHarness.v ===== *)
(** * RaftHarness: the test harness of Raft, [src/src/raft/config.go]

    A [config] owns the network and the peers of a test, keeps what each peer
    committed, and checks it.  This file models its operations: starting,
    crashing, connecting and disconnecting peers ([make_config], [start1],
    [crash1], [connect], [disconnect]) on the tables of [Labrpc] and the peers
    of [Raft]; the goroutines that read the apply channels ([applier],
    [applierSnap]), one function per message; and the checks the tests call
    ([checkOneLeader], [checkTerms], [checkNoLeader], [nCommitted], [wait]).

    [t.Fatal] and [log.Fatalf] are [Fatal], an index out of range is [Panic].
    Names drawn by [randstring], the clock, what [fmt] prints for a command and
    the servers made by [labrpc.MakeServer] are arguments. *)
From S2P Require Import Prelude Labgob GoStrings Labrpc RaftTypes Raft.
From stdpp Require Import base gmap strings pretty list_numbers option list.
From Stdlib Require Import ZArith Lia.
#[local] Open Scope Z_scope.
#[local] Open Scope go_scope.

(** End points of the network are named by strings, servers by integers. *)
Abbreviation NetName := (string + Z)%type.

#[export] Instance result_ret : MRet result := fun A => Ok.
#[export] Instance result_bind : MBind result := fun A B f x =>
  match x with Ok a => f a | Fatal msg => Fatal msg | Panic => Panic end.

(** A read that panics out of range. *)
Definition or_panic {A} (x : option A) : result A :=
  match x with Some a => Ok a | None => Panic end.

Lemma or_panic_Ok {A} (x : option A) a : or_panic x = Ok a ↔ x = Some a.
Proof. destruct x; cbn; split; congruence. Qed.

Lemma bind_Ok {A B} (f : A → result B) (x : result A) b :
  (x ≫= f) = Ok b ↔ ∃ a, x = Ok a ∧ f a = Ok b.
Proof.
  destruct x as [a|msg|]; cbn; split; try naive_solver.
Qed.

(** What [cfg.saved[i]] points to: a persister of its own, or the one that the
    [Raft] with this number uses. *)
Inductive SavedRef := Owned (ps : Persister) | Of (rf : nat).

Record config {C : Type} := mkConfig {
  cfg_net : Network NetName;
  objects : list (Raft C);                  (* every Raft that was made *)
  cfg_n : nat;
  rafts : list (option nat);
  applyErr : list string;
  connected : list bool;
  saved : list (option SavedRef);
  endnames : list (option (list string));   (* None is a nil slice *)
  logs : list (gmap Z (option C));
  cfg_lastApplied : list Z;
  maxIndex : Z
}.
Arguments config : clear implicits.
Arguments mkConfig {C} _ _ _ _ _ _ _ _ _ _ _.

Section Updates.
Context {C : Type}.
Notation config := (config C).
#[export] Instance upd_cfg_net : Upd (R := config) cfg_net := fun x r =>
  mkConfig x (objects r) (cfg_n r) (rafts r) (applyErr r) (connected r) (saved r) (endnames r) (logs r) (cfg_lastApplied r) (maxIndex r).
#[export] Instance upd_objects : Upd (R := config) objects := fun x r =>
  mkConfig (cfg_net r) x (cfg_n r) (rafts r) (applyErr r) (connected r) (saved r) (endnames r) (logs r) (cfg_lastApplied r) (maxIndex r).
#[export] Instance upd_rafts : Upd (R := config) rafts := fun x r =>
  mkConfig (cfg_net r) (objects r) (cfg_n r) x (applyErr r) (connected r) (saved r) (endnames r) (logs r) (cfg_lastApplied r) (maxIndex r).
#[export] Instance upd_connected : Upd (R := config) connected := fun x r =>
  mkConfig (cfg_net r) (objects r) (cfg_n r) (rafts r) (applyErr r) x (saved r) (endnames r) (logs r) (cfg_lastApplied r) (maxIndex r).
#[export] Instance upd_saved : Upd (R := config) saved := fun x r =>
  mkConfig (cfg_net r) (objects r) (cfg_n r) (rafts r) (applyErr r) (connected r) x (endnames r) (logs r) (cfg_lastApplied r) (maxIndex r).
#[export] Instance upd_endnames : Upd (R := config) endnames := fun x r =>
  mkConfig (cfg_net r) (objects r) (cfg_n r) (rafts r) (applyErr r) (connected r) (saved r) x (logs r) (cfg_lastApplied r) (maxIndex r).
#[export] Instance upd_logs : Upd (R := config) logs := fun x r =>
  mkConfig (cfg_net r) (objects r) (cfg_n r) (rafts r) (applyErr r) (connected r) (saved r) (endnames r) x (cfg_lastApplied r) (maxIndex r).
#[export] Instance upd_cfg_lastApplied : Upd (R := config) cfg_lastApplied := fun x r =>
  mkConfig (cfg_net r) (objects r) (cfg_n r) (rafts r) (applyErr r) (connected r) (saved r) (endnames r) (logs r) x (maxIndex r).
#[export] Instance upd_maxIndex : Upd (R := config) maxIndex := fun x r =>
  mkConfig (cfg_net r) (objects r) (cfg_n r) (rafts r) (applyErr r) (connected r) (saved r) (endnames r) (logs r) (cfg_lastApplied r) x.
End Updates.

(** Assignment to an element of a slice. *)
Definition set_at {A} (i : nat) (v : A) (l : list A) : result (list A) :=
  or_panic (set_index i v l).

Section RaftHarness.
Context {C : Type} `{EqDecision C} `{GobStream (PersistentState C)} `{GobStream (Z * list (option C))}.
Notation config := (config C).
Notation Raft := (Raft C).
Notation ApplyMsg := (ApplyMsg C).
Implicit Types (cfg : config) (i j : nat) (m : ApplyMsg).

(** [%v] of a command. *)
Context (sprint : option C → string).

(** [%v] of an index or a server. *)
Definition sprint_int (z : Z) : string := pretty z.
Definition sprint_server (i : nat) : string := pretty (Z.of_nat i).

(** ** What the appliers check *)

Definition mismatch_msg (index : Z) (i : nat) (v : option C) (j : nat) (old : option C) : string :=
  "commit index=" +:+ sprint_int index +:+ " server=" +:+ sprint_server i +:+ " " +:+ sprint v
  +:+ " != server=" +:+ sprint_server j +:+ " " +:+ sprint old.

(** The loop over the servers: the last one that differs makes the message. *)
Fixpoint checkLogs_loop i (m : ApplyMsg) j (ls : list (gmap Z (option C))) (err_msg : string) : string :=
  match ls with
  | [] => err_msg
  | log :: ls =>
      let err_msg :=
        match log !! CommandIndex m with
        | Some old =>
            if decide (old ≠ msg_Command m)
            then mismatch_msg (CommandIndex m) i (msg_Command m) j old else err_msg
        | None => err_msg
        end in
      checkLogs_loop i m (S j) ls err_msg
  end.

Definition checkLogs i m cfg : result (config * string * bool) :=
  let err_msg := checkLogs_loop i m 0 (logs cfg) "" in
  log ← or_panic (logs cfg !! i);
  let prevok := bool_decide (is_Some (log !! (CommandIndex m - 1))) in
  logs' ← set_at i (<[CommandIndex m := msg_Command m]> log) (logs cfg);
  let cfg := cfg <| logs := logs' |> in
  let cfg := if decide (CommandIndex m > maxIndex cfg)
             then cfg <| maxIndex := CommandIndex m |> else cfg in
  Ok (cfg, err_msg, prevok).

Definition out_of_order i (index : Z) : string :=
  "server " +:+ sprint_server i +:+ " apply out of order " +:+ sprint_int index.

Definition fatal_if (err_msg : string) cfg : result config :=
  if decide (err_msg ≠ "") then Fatal ("apply error: " +:+ err_msg) else Ok cfg.

(** One message of the loop of [applier]. *)
Definition applier i m cfg : result config :=
  if decide (CommandValid m = false) then Ok cfg
  else
    '(cfg, err_msg, prevok) ← checkLogs i m cfg;
    let err_msg := if decide (CommandIndex m > 1 ∧ prevok = false)
                   then out_of_order i (CommandIndex m) else err_msg in
    fatal_if err_msg cfg.

(** [None] is a nil slice.  Returns "" or an error. *)
Definition ingestSnap i (snapshot : option bytes) (index : Z) cfg : result (config * string) :=
  match snapshot with
  | None => Fatal "nil snapshot"
  | Some snapshot =>
      match Decode snapshot with
      | None => Fatal "snapshot decode error"
      | Some (lastIncludedIndex, xlog) =>
          if decide (index ≠ -1 ∧ index ≠ lastIncludedIndex) then
            Ok (cfg, "server " +:+ sprint_server i +:+ " snapshot doesn't match m.SnapshotIndex")
          else
            logs' ← set_at i (list_to_map (zip (seqZ 0 (len xlog)) xlog)) (logs cfg);
            let cfg := cfg <| logs := logs' |> in
            la ← set_at i lastIncludedIndex (cfg_lastApplied cfg);
            Ok (cfg <| cfg_lastApplied := la |>, "")
      end
  end.

Definition SnapShotInterval : Z := 10.

(** [cfg.logs[i][j]] for [j] from 0 to [m.CommandIndex]; a missing entry is nil. *)
Definition snapshot_log (log : gmap Z (option C)) (index : Z) : list (option C) :=
  (λ j : Z, default None (log !! j)) <$> seqZ 0 (index + 1).

Definition expected_msg i (want got : Z) : string :=
  "server " +:+ sprint_server i +:+ " apply out of order, expected index " +:+ sprint_int want
  +:+ ", got " +:+ sprint_int got.

(** One message of the loop of [applierSnap]; returns what it hands to
    [rf.Snapshot], if anything.  [snap_nil] tells whether the slice of a
    snapshot message is nil. *)
Definition applierSnap i (snap_nil : bool) m cfg : result (config * option (Z * bytes)) :=
  if SnapshotValid m then
    '(cfg, err_msg) ← ingestSnap i (if snap_nil then None else Some (msg_Snapshot m)) (SnapshotIndex m) cfg;
    cfg ← fatal_if err_msg cfg;
    Ok (cfg, None)
  else if CommandValid m then
    la ← or_panic (cfg_lastApplied cfg !! i);
    '(cfg, err_msg) ←
      (if decide (CommandIndex m ≠ la + 1) then Ok (cfg, expected_msg i (la + 1) (CommandIndex m))
       else
         '(cfg, err_msg, prevok) ← checkLogs i m cfg;
         Ok (cfg, if decide (CommandIndex m > 1 ∧ prevok = false)
                  then out_of_order i (CommandIndex m) else err_msg));
    la' ← set_at i (CommandIndex m) (cfg_lastApplied cfg);
    let cfg := cfg <| cfg_lastApplied := la' |> in
    snap ← (if decide (Z.rem (CommandIndex m + 1) SnapShotInterval = 0) then
              log ← or_panic (logs cfg !! i);
              Ok (Some (CommandIndex m, Encode (CommandIndex m, snapshot_log log (CommandIndex m))))
            else Ok None);
    cfg ← fatal_if err_msg cfg;
    Ok (cfg, snap)
  else Ok (cfg, None).

(** How many servers think a log entry is committed, and the entry. *)
Fixpoint nCommitted_loop (index : Z) i (n : nat) (count : Z) (cmd : option C) cfg : result (Z * option C) :=
  match n with
  | O => Ok (count, cmd)
  | S n =>
      err ← or_panic (applyErr cfg !! i);
      if decide (err ≠ "") then Fatal err
      else
        log ← or_panic (logs cfg !! i);
        match log !! index with
        | Some cmd1 =>
            if decide (count > 0 ∧ cmd ≠ cmd1)
            then Fatal ("committed values do not match: index " +:+ sprint_int index +:+ ", "
                        +:+ sprint cmd +:+ ", " +:+ sprint cmd1)
            else nCommitted_loop index (S i) n (count + 1) cmd1 cfg
        | None => nCommitted_loop index (S i) n count cmd cfg
        end
  end.

Definition nCommitted (index : Z) cfg : result (Z * option C) :=
  nCommitted_loop index 0 (length (rafts cfg)) 0 None cfg.

(** ** Peers that start, crash and move *)

Definition server_name i : NetName := inr (Z.of_nat i).

Definition enable_all (names : list string) (yes : bool) (rn : Network NetName) : Network NetName :=
  foldl (λ rn name, Enable (inl name) yes rn) rn names.

(** A loop over the servers that gathers at most one end name for each. *)
Fixpoint collect (f : nat → result (option string)) (js : list nat) : result (list string) :=
  match js with
  | [] => Ok []
  | j :: js =>
      name ← f j;
      names ← collect f js;
      Ok (match name with Some name => name :: names | None => names end)
  end.

(** [cfg.endnames[i][j]], where a nil slice has no elements. *)
Definition end_at (row : option (list string)) j : result (option string) :=
  name ← or_panic (default [] row !! j); Ok (Some name).

(** The outgoing ends [cfg.endnames[i][j]] of the connected servers [j]. *)
Definition outgoing i cfg : result (list string) :=
  collect (λ j,
      c ← or_panic (connected cfg !! j);
      if c : bool then row ← or_panic (endnames cfg !! i); end_at row j
      else Ok None)
    (seq 0 (cfg_n cfg)).

(** The incoming ends [cfg.endnames[j][i]] of the connected servers [j]. *)
Definition incoming i cfg : result (list string) :=
  collect (λ j,
      c ← or_panic (connected cfg !! j);
      if c : bool then row ← or_panic (endnames cfg !! j); end_at row i
      else Ok None)
    (seq 0 (cfg_n cfg)).

Definition connect i cfg : result config :=
  cs ← set_at i true (connected cfg);
  let cfg := cfg <| connected := cs |> in
  outs ← outgoing i cfg;
  let cfg := cfg <| cfg_net := enable_all outs true (cfg_net cfg) |> in
  ins ← incoming i cfg;
  Ok (cfg <| cfg_net := enable_all ins true (cfg_net cfg) |>).

(** The same loops of [disconnect], which ask for names instead. *)
Definition outgoing_named i cfg : result (list string) :=
  collect (λ j,
      row ← or_panic (endnames cfg !! i);
      match row with Some _ => end_at row j | None => Ok None end)
    (seq 0 (cfg_n cfg)).

Definition incoming_named i cfg : result (list string) :=
  collect (λ j,
      row ← or_panic (endnames cfg !! j);
      match row with Some _ => end_at row i | None => Ok None end)
    (seq 0 (cfg_n cfg)).

Definition disconnect i cfg : result config :=
  cs ← set_at i false (connected cfg);
  let cfg := cfg <| connected := cs |> in
  outs ← outgoing_named i cfg;
  let cfg := cfg <| cfg_net := enable_all outs false (cfg_net cfg) |> in
  ins ← incoming_named i cfg;
  Ok (cfg <| cfg_net := enable_all ins false (cfg_net cfg) |>).

(** What a persister holds now. *)
Definition contents (r : SavedRef) cfg : result Persister :=
  match r with
  | Owned ps => Ok ps
  | Of o => rf ← or_panic (objects cfg !! o); Ok (persister rf)
  end.

(** [cfg.saved[i] = cfg.saved[i].Copy()], unless it is nil. *)
Definition copy_saved i cfg : result config :=
  ref ← or_panic (saved cfg !! i);
  match ref with
  | None => Ok cfg
  | Some ref =>
      ps ← contents ref cfg;
      saved' ← set_at i (Some (Owned (Copy ps))) (saved cfg);
      Ok (cfg <| saved := saved' |>)
  end.

(** [rf.Kill()] and [cfg.rafts[i] = nil], unless it is nil. *)
Definition kill_instance i cfg : result config :=
  o ← or_panic (rafts cfg !! i);
  match o with
  | None => Ok cfg
  | Some o =>
      rf ← or_panic (objects cfg !! o);
      let cfg := cfg <| objects := <[o := Kill rf]> (objects cfg) |> in
      rafts' ← set_at i None (rafts cfg);
      Ok (cfg <| rafts := rafts' |>)
  end.

(** The saved state moves to a persister of its own. *)
Definition fresh_saved i cfg : result config :=
  ref ← or_panic (saved cfg !! i);
  match ref with
  | None => Ok cfg
  | Some ref =>
      ps ← contents ref cfg;
      let raftlog := ReadRaftState ps in
      let snapshot := ReadSnapshot ps in
      saved' ← set_at i (Some (Owned (Save raftlog snapshot MakePersister))) (saved cfg);
      Ok (cfg <| saved := saved' |>)
  end.

Definition crash1 i cfg : result config :=
  cfg ← disconnect i cfg;
  let cfg := cfg <| cfg_net := DeleteServer (server_name i) (cfg_net cfg) |> in
  cfg ← copy_saved i cfg;
  cfg ← kill_instance i cfg;
  fresh_saved i cfg.

(** A fresh set of ends, each connected to its server. *)
Fixpoint make_ends j (names : list string) (rn : Network NetName) : result (Network NetName) :=
  match names with
  | [] => Ok rn
  | name :: names =>
      '(rn, _) ← MakeEnd (inl name) rn;
      make_ends (S j) names (Connect (inl name) (server_name j) rn)
  end.

(** What is saved for [i], which is not nil. *)
Definition saved_state i cfg : result Persister :=
  ref ← or_panic (saved cfg !! i);
  ref ← or_panic ref;
  contents ref cfg.

(** The persister of the new instance; a snapshot in it is read at once. *)
Definition prepare_saved i cfg : result config :=
  ref ← or_panic (saved cfg !! i);
  match ref with
  | Some _ =>
      cfg ← copy_saved i cfg;
      ps ← saved_state i cfg;
      let snapshot := ReadSnapshot ps in
      if decide (len snapshot > 0) then
        '(cfg, err) ← ingestSnap i (Some snapshot) (-1) cfg;
        if decide (err ≠ "") then Fatal err else Ok cfg
      else Ok cfg
  | None =>
      saved' ← set_at i (Some (Owned MakePersister)) (saved cfg);
      Ok (cfg <| saved := saved' |>)
  end.

(** [rf := Make(...)] on the saved persister, which [rf] shares from now on. *)
Definition make_instance i (now : Z) cfg : result config :=
  ps ← saved_state i cfg;
  '(rf, _) ← or_panic (Make (cfg_n cfg) i ps now);
  let o := length (objects cfg) in
  let cfg := cfg <| objects := objects cfg ++ [rf] |> in
  saved' ← set_at i (Some (Of o)) (saved cfg);
  let cfg := cfg <| saved := saved' |> in
  rafts' ← set_at i (Some o) (rafts cfg);
  Ok (cfg <| rafts := rafts' |>).

(** Start or restart a peer.  [names] are the [cfg.n] names drawn, [srv] the
    server [labrpc.MakeServer] gave, [now] the time in [Make]. *)
Definition start1 i (names : list string) (srv : nat) (now : Z) cfg : result config :=
  cfg ← crash1 i cfg;
  endnames' ← set_at i (Some names) (endnames cfg);
  let cfg := cfg <| endnames := endnames' |> in
  rn ← make_ends 0 names (cfg_net cfg);
  let cfg := cfg <| cfg_net := rn |> in
  la ← set_at i 0 (cfg_lastApplied cfg);
  let cfg := cfg <| cfg_lastApplied := la |> in
  cfg ← prepare_saved i cfg;
  cfg ← make_instance i now cfg;
  Ok (cfg <| cfg_net := AddServer (server_name i) srv (cfg_net cfg) |>).

(** The loops of [make_config]: start every peer, then connect every peer.  The
    log of a peer is made before it is started. *)
Fixpoint start_all (i : nat) (starts : list (list string * nat * Z)) cfg : result config :=
  match starts with
  | [] => Ok cfg
  | (names, srv, now) :: starts =>
      logs' ← set_at i ∅ (logs cfg);
      cfg ← start1 i names srv now (cfg <| logs := logs' |>);
      start_all (S i) starts cfg
  end.

Definition connect_all (n : nat) cfg : result config :=
  foldl (λ acc i, cfg ← acc; connect i cfg) (Ok cfg) (seq 0 n).

Definition new_config (n : nat) (unreliable : bool) : config :=
  let rn := LongDelays true (Reliable (negb unreliable) MakeNetwork) in
  mkConfig rn [] n (replicate n None) (replicate n "") (replicate n false) (replicate n None)
    (replicate n None) (replicate n ∅) (replicate n 0) 0.

Definition make_config (unreliable : bool) (starts : list (list string * nat * Z)) : result config :=
  let n := length starts in
  cfg ← start_all 0 starts (new_config n unreliable);
  connect_all n cfg.

(** ** The checks of the tests *)

(** [GetState] of a server, read under its own lock. *)
Definition state_of i cfg : result (Z * bool) :=
  o ← or_panic (rafts cfg !! i);
  o ← or_panic o;
  rf ← or_panic (objects cfg !! o);
  Ok (GetState rf).

(** The servers that say they lead, by term, from what [GetState] returned for
    each connected server in order. *)
Definition leaders_of (samples : list (nat * (Z * bool))) : gmap Z (list nat) :=
  foldl (λ leaders s,
      let '(i, (term, leader)) := s in
      if leader : bool then <[term := default [] (leaders !! term) ++ [i]]> leaders else leaders)
    ∅ samples.

(** The loop over the terms, in the order in which [range] meets them. *)
Fixpoint last_term_with_leader (leaders : gmap Z (list nat)) (order : list Z) (lastTermWithLeader : Z) : result Z :=
  match order with
  | [] => Ok lastTermWithLeader
  | term :: order =>
      let ls := default [] (leaders !! term) in
      if decide (len ls > 1) then
        Fatal ("term " +:+ sprint_int term +:+ " has " +:+ sprint_int (len ls) +:+ " (>1) leaders")
      else
        last_term_with_leader leaders order
          (if decide (term > lastTermWithLeader) then term else lastTermWithLeader)
  end.

(** One iteration of the loop of [checkOneLeader] after the sleep: the leader of
    the last term, if any. *)
Definition one_leader (order : list Z) (leaders : gmap Z (list nat)) : result (option nat) :=
  lastTermWithLeader ← last_term_with_leader leaders order (-1);
  if decide (leaders = ∅) then Ok None
  else i ← or_panic (default [] (leaders !! lastTermWithLeader) !! 0%nat); Ok (Some i).

(** At most ten iterations, each with its samples and the order of its terms. *)
Fixpoint checkOneLeader (iters : list (list (nat * (Z * bool)) * list Z)) : result nat :=
  match iters with
  | [] => Fatal "expected one leader, got none"
  | (samples, order) :: iters =>
      r ← one_leader order (leaders_of samples);
      match r with Some i => Ok i | None => checkOneLeader iters end
  end.

(** [checkTerms], on what [GetState] returned for the connected servers. *)
Fixpoint checkTerms (term : Z) (samples : list (nat * (Z * bool))) : result Z :=
  match samples with
  | [] => Ok term
  | (_, (xterm, _)) :: samples =>
      if decide (term = -1) then checkTerms xterm samples
      else if decide (term ≠ xterm) then Fatal "servers disagree on term"
      else checkTerms term samples
  end.

Fixpoint checkNoLeader (samples : list (nat * (Z * bool))) : result () :=
  match samples with
  | [] => Ok tt
  | (i, (_, is_leader)) :: samples =>
      if is_leader : bool then
        Fatal ("expected no leader among connected servers, but " +:+ sprint_server i +:+ " claims to be leader")
      else checkNoLeader samples
  end.

(** What [wait] returns: -1 when a term has moved on, or the command. *)
Inductive WaitResult := MovedOn | Decided (cmd : option C).

(** [polls] has, for each of at most 30 turns, the harness and the terms of the
    peers then; [last] is the harness after the loop. *)
Fixpoint wait (index n startTerm : Z) (polls : list (config * list Z)) (last : config) : result WaitResult :=
  let decided :=
    '(nd, cmd) ← nCommitted index last;
    if decide (nd < n) then
      Fatal ("only " +:+ sprint_int nd +:+ " decided for index " +:+ sprint_int index +:+ "; wanted " +:+ sprint_int n)
    else Ok (Decided cmd) in
  match polls with
  | [] => decided
  | (cfg, terms) :: polls =>
      '(nd, _) ← nCommitted index cfg;
      if decide (nd >= n) then decided
      else if decide (startTerm > -1 ∧ Exists (λ t, t > startTerm) terms) then Ok MovedOn
      else wait index n startTerm polls last
  end.

(** The servers are tried in turn, from the one after [starts].  [answer] is what
    [Start] returned, or [None] for a server that is not connected. *)
Fixpoint one_scan (fuel n starts : nat) (answer : nat → option (Z * bool)) : Z * nat :=
  match fuel with
  | O => (-1, starts)
  | S fuel =>
      let starts := (S starts mod n)%nat in
      match answer starts with
      | Some (index1, true) => (index1, starts)
      | _ => one_scan fuel n starts answer
      end
  end.

(** The polls of the next two seconds. *)
Fixpoint one_polls (cmd : option C) (index expectedServers : Z) (polls : list config) : result bool :=
  match polls with
  | [] => Ok false
  | cfg :: polls =>
      '(nd, cmd1) ← nCommitted index cfg;
      if decide ((nd > 0 ∧ nd >= expectedServers) ∧ cmd1 = cmd) then Ok true
      else one_polls cmd index expectedServers polls
  end.

(** [rounds] has what happens in each turn of the loop; it ends after ten
    seconds, or when the test has [finished]. *)
Fixpoint one (cmd : option C) (expectedServers : Z) (retry : bool) (n starts : nat)
    (rounds : list ((nat → option (Z * bool)) * list config)) (finished : bool) : result Z :=
  let failed := Fatal ("one(" +:+ sprint cmd +:+ ") failed to reach agreement") in
  match rounds with
  | [] => if finished then Ok (-1) else failed
  | (answer, polls) :: rounds =>
      let '(index, starts) := one_scan n n starts answer in
      if decide (index ≠ -1) then
        agreed ← one_polls cmd index expectedServers polls;
        if agreed : bool then Ok index
        else if retry then one cmd expectedServers retry n starts rounds finished
        else failed
      else one cmd expectedServers retry n starts rounds finished
  end.

(** Maximum log size across all servers. *)
Definition LogSize cfg : result Z :=
  foldl (λ acc i,
      logsize ← acc;
      ref ← or_panic (saved cfg !! i);
      ref ← or_panic ref;
      ps ← contents ref cfg;
      Ok (if decide (RaftStateSize ps > logsize) then RaftStateSize ps else logsize))
    (Ok 0) (seq 0 (cfg_n cfg)).
End RaftHarness.
