(* ===== verification/RaftHarnessApply.v ===== *)
(** * RaftHarnessApply: the harness finds no error in a run of the cluster

    [applier] ends the test when two servers commit different commands for one
    index, or when a server commits an index before the one before it.  Here
    this is ruled out for the runs of [RaftAgreement] in which no service takes a
    snapshot, like those of the tests that use [applier]: however far behind and
    in whatever order the goroutines read, every message passes, and what the
    harness then holds is what was handed over. *)
From stdpp Require Import base gmap strings list_numbers option list.
From Stdlib Require Import ZArith Lia.
From S2P Require Import Prelude Labgob Labrpc RaftTypes Raft RaftNode RaftCluster RaftElection RaftLog RaftApply RaftSnapshots RaftGhost RaftView RaftEffects RaftSafety RaftAgreement RaftHarness.
#[local] Open Scope Z_scope.
#[local] Open Scope go_scope.

Section RaftHarnessApply.
Context {C : Type} `{EqDecision C} `{GobLaws (PersistentState C)} (sprint : option C → string).
Notation Raft := (Raft C).
Notation World := (@World C).
Notation Event := (@Event C).
Notation ApplyMsg := (ApplyMsg C).
Notation config := (config C).
Implicit Types (rf : Raft) (w : World) (e : Event) (m : ApplyMsg) (cfg : config) (D : list (nat * ApplyMsg)) (p q i k : nat).

(** The messages for peer [p], in order. *)
Definition msgs_of p D : list ApplyMsg := (filter (λ x, x.1 = p) D).*2.

(** The appliers read the messages one after the other. *)
Definition run_appliers D cfg : result config :=
  foldl (λ acc x, cfg ← acc; applier sprint x.1 x.2 cfg) (Ok cfg) D.

(** A command for [index] in a list of messages. *)
Definition commits (msgs : list ApplyMsg) (index : Z) : Prop :=
  ∃ m, m ∈ msgs ∧ CommandValid m = true ∧ CommandIndex m = index.

(** Every command but the first comes after one for the index before. *)
Definition in_order (msgs : list ApplyMsg) : Prop :=
  ∀ k m, msgs !! k = Some m → CommandValid m = true → 1 < CommandIndex m →
    commits (take k msgs) (CommandIndex m - 1).

(** ** Lists of messages *)
Lemma msgs_of_app p D1 D2 : msgs_of p (D1 ++ D2) = msgs_of p D1 ++ msgs_of p D2.
Proof. unfold msgs_of. by rewrite filter_app, fmap_app. Qed.

Lemma msgs_of_cons p q m D : msgs_of p ((q, m) :: D) = if decide (q = p) then m :: msgs_of p D else msgs_of p D.
Proof. unfold msgs_of. rewrite filter_cons. cbn. by case_decide. Qed.

Lemma elem_of_msgs_of p m D : m ∈ msgs_of p D ↔ (p, m) ∈ D.
Proof.
  unfold msgs_of. rewrite list_elem_of_fmap. split.
  - intros ([q m'] & -> & [Hq ?]%list_elem_of_filter). cbn in Hq. by subst.
  - intros Hm. exists (p, m). split; [done|]. by apply list_elem_of_filter.
Qed.

Lemma commits_app msgs1 msgs2 index : commits (msgs1 ++ msgs2) index ↔ commits msgs1 index ∨ commits msgs2 index.
Proof. unfold commits. set_solver. Qed.

Lemma in_order_prefix msgs1 msgs2 : msgs1 `prefix_of` msgs2 → in_order msgs2 → in_order msgs1.
Proof.
  intros [l ->] Ho k m Hk Hv Hi. specialize (Ho k m (lookup_app_l_Some _ _ _ _ Hk) Hv Hi).
  by rewrite take_app_le in Ho by (apply lookup_lt_Some in Hk; lia).
Qed.

(** A batch that goes on where the list ended. *)
Lemma in_order_app msgs batch (low : Z) :
  in_order msgs → (∀ index, 0 < index < low → commits msgs index) →
  (∀ k m, batch !! k = Some m → CommandValid m = true ∧ CommandIndex m = low + Z.of_nat k) →
  in_order (msgs ++ batch).
Proof.
  intros Ho Hlow Hb k m [Hk|[Hk Hm]]%lookup_app_Some Hv Hi.
  - rewrite take_app_le by (apply lookup_lt_Some in Hk; lia). by apply Ho.
  - rewrite take_app_ge by lia. apply commits_app. destruct (Hb _ _ Hm) as [_ Hc].
    destruct (k - length msgs)%nat as [|j] eqn:E.
    + left. apply Hlow. lia.
    + right. assert (j < length batch)%nat as Hj by (apply lookup_lt_Some in Hm; lia).
      destruct (lookup_lt_is_Some_2 batch j Hj) as [m' Hm']. exists m'.
      destruct (Hb _ _ Hm') as [? Hc']. split; [|split; [done|lia]].
      apply list_elem_of_lookup. exists j. by rewrite lookup_take_lt by lia.
Qed.

(** ** One message *)

(** What the loop over the servers finds, if it finds anything. *)
Lemma checkLogs_loop_ok i m j ls :
  (∀ log old, log ∈ ls → log !! CommandIndex m = Some old → old = msg_Command m) →
  checkLogs_loop sprint i m j ls "" = "".
Proof.
  revert j. induction ls as [|log ls IH]; intros j Hl; [done|]. cbn [checkLogs_loop].
  assert (match log !! CommandIndex m with
          | Some old => if decide (old ≠ msg_Command m)
              then mismatch_msg sprint (CommandIndex m) i (msg_Command m) j old else ""
          | None => "" end = "") as ->.
  { destruct (log !! CommandIndex m) as [old|] eqn:E; [|done].
    rewrite decide_False; [done|]. intros Hn. apply Hn. by eapply Hl; [left|]. }
  apply IH. intros log' old Hin. apply Hl. by right.
Qed.

(** The harness holds the commands of the messages read. *)
Definition holds D cfg : Prop :=
  ∀ p (index : Z) v, (logs cfg !! p ≫= λ log, log !! index) = Some v ↔
    ∃ m, (p, m) ∈ D ∧ CommandValid m = true ∧ CommandIndex m = index ∧ msg_Command m = v.

(** One index, one command. *)
Definition agree D : Prop :=
  ∀ p q m1 m2, (p, m1) ∈ D → (q, m2) ∈ D → CommandValid m1 = true → CommandValid m2 = true →
    CommandIndex m1 = CommandIndex m2 → msg_Command m1 = msg_Command m2.

(** What the appliers leave alone. *)
Definition same_peers cfg cfg' : Prop :=
  length (logs cfg') = length (logs cfg) ∧ rafts cfg' = rafts cfg ∧ applyErr cfg' = applyErr cfg.

Lemma holds_snoc D p m cfg cfg' log :
  holds D cfg → agree (D ++ [(p, m)]) → CommandValid m = true → logs cfg !! p = Some log →
  logs cfg' = <[p := <[CommandIndex m := msg_Command m]> log]> (logs cfg) → holds (D ++ [(p, m)]) cfg'.
Proof.
  intros Hh Ha Hv Hlog El q index v. rewrite El. destruct (decide (q = p)) as [->|Hq].
  - rewrite list_lookup_insert_eq by (by eapply lookup_lt_Some). cbn.
    destruct (decide (index = CommandIndex m)) as [->|Hi].
    + rewrite lookup_insert_eq. split.
      * intros [= <-]. exists m. split; [apply elem_of_app; right; by left|done].
      * intros (m' & Hm' & Hv' & Hi' & <-). f_equal.
        eapply (Ha p p); [apply elem_of_app; right; by left|exact Hm'|done..].
    + rewrite lookup_insert_ne by done. pose proof (Hh p index v) as E. rewrite Hlog in E. cbn in E. rewrite E. split.
      * intros (m' & Hm' & ?). exists m'. split; [|done]. apply elem_of_app. by left.
      * intros (m' & [Hm'|[= ->]%list_elem_of_singleton]%elem_of_app & ? & ? & ?); [by exists m'|congruence].
  - rewrite list_lookup_insert_ne by done. rewrite (Hh q index v). split.
    + intros (m' & Hm' & ?). exists m'. split; [|done]. apply elem_of_app. by left.
    + intros (m' & [Hm'|[= -> ->]%list_elem_of_singleton]%elem_of_app & ?); [by exists m'|done].
Qed.

Lemma applier_ok D p m cfg :
  holds D cfg → agree (D ++ [(p, m)]) → (p < length (logs cfg))%nat →
  (CommandValid m = true → 1 < CommandIndex m → commits (msgs_of p D) (CommandIndex m - 1)) →
  ∃ cfg', applier sprint p m cfg = Ok cfg' ∧ same_peers cfg cfg' ∧ holds (D ++ [(p, m)]) cfg'.
Proof.
  intros Hh Ha Hp Ho. unfold applier. case_decide as Hv.
  { exists cfg. split; [done|]. split; [done|]. intros q index v. rewrite (Hh q index v). split.
    - intros (m' & Hm' & ?). exists m'. split; [|done]. apply elem_of_app. by left.
    - intros (m' & [Hm'|[= -> ->]%list_elem_of_singleton]%elem_of_app & Hv' & ?); [by exists m'|congruence]. }
  apply not_false_is_true in Hv. destruct (lookup_lt_is_Some_2 _ _ Hp) as [log Hlog].
  unfold checkLogs. rewrite checkLogs_loop_ok.
  2: { intros log' old [q Hq]%list_elem_of_lookup Hold.
       destruct (proj1 (Hh q (CommandIndex m) old)) as (m' & Hm' & Hv' & Hi' & <-).
       { by rewrite Hq. }
       eapply (Ha q p m' m); [|by apply elem_of_app; right; left|done..]. apply elem_of_app. by left. }
  rewrite Hlog. cbn [or_panic mbind result_bind]. unfold set_at, set_index. rewrite decide_True by done.
  cbn [or_panic mbind result_bind].
  assert (¬ (CommandIndex m > 1 ∧ bool_decide (is_Some (log !! (CommandIndex m - 1))) = false)) as Hord.
  { intros [Hi Hn%bool_decide_eq_false]. apply Hn.
    destruct (Ho Hv) as (m' & Hm'%elem_of_msgs_of & Hv' & Hi'); [lia|].
    pose proof (proj2 (Hh p (CommandIndex m - 1) (msg_Command m'))) as E. rewrite Hlog in E. cbn in E.
    rewrite E; [by eexists|]. by exists m'. }
  rewrite (decide_False (P := _ ∧ _)) by done. unfold fatal_if. rewrite decide_False by (by intros Hn; destruct Hn).
  eexists. split; [reflexivity|]. split.
  { split; [|by case_decide]. case_decide; cbn; by rewrite length_insert. }
  by case_decide; eapply holds_snoc.
Qed.

(** ** All messages *)
Lemma run_appliers_snoc D x cfg :
  run_appliers (D ++ [x]) cfg = (cfg' ← run_appliers D cfg; applier sprint x.1 x.2 cfg').
Proof. unfold run_appliers. by rewrite foldl_app. Qed.

Lemma run_appliers_ok D cfg :
  agree D → (∀ p, in_order (msgs_of p D)) → (∀ p m, (p, m) ∈ D → (p < length (logs cfg))%nat) →
  holds [] cfg → ∃ cfg', run_appliers D cfg = Ok cfg' ∧ same_peers cfg cfg' ∧ holds D cfg'.
Proof.
  induction D as [|[p m] D IH] using rev_ind; intros Ha Ho Hp Hh; [by exists cfg|].
  destruct IH as (cfg1 & Hr & Hs & Hh1); [| | |done|].
  - intros p1 q1 m1 m2 H1 H2. apply (Ha p1 q1); apply elem_of_app; by left.
  - intros q. eapply in_order_prefix; [|apply (Ho q)]. rewrite msgs_of_app. by apply prefix_app_r.
  - intros q m' Hin. apply (Hp q m'). apply elem_of_app. by left.
  - rewrite run_appliers_snoc, Hr. cbn [mbind result_bind fst snd].
    destruct (applier_ok D p m cfg1 Hh1 Ha) as (cfg2 & Hx & Hs2 & Hh2).
    + destruct Hs as [-> _]. apply (Hp p m). apply elem_of_app. right. by left.
    + intros Hv Hi. specialize (Ho p (length (msgs_of p D)) m). rewrite msgs_of_app, msgs_of_cons in Ho.
      rewrite decide_True in Ho by done. rewrite take_app_length in Ho. apply Ho; [|done|done].
      by rewrite lookup_app_r, Nat.sub_diag by lia.
    + exists cfg2. split; [done|]. split; [|done].
      destruct Hs as (? & ? & ?), Hs2 as (? & ? & ?). split_and!; congruence.
Qed.

(** ** What the cluster hands over is in order *)

(** Runs without a snapshot of a service, with everything handed over on the way. *)
Inductive reach_plain (n : nat) : Ballots → World → list (nat * ApplyMsg) → Prop :=
  | reach_plain_boot w : boot n = Some w → reach_plain n ∅ w []
  | reach_plain_exec b w D e w' :
      reach_plain n b w D → takes_snapshot e = false → exec w e = Some w' → ¬ revotes b w' →
      reach_plain n (record_votes w' b) w' (D ++ handed w e).

(** Nobody has made a snapshot so far. *)
Definition plain w : Prop := ∃ es, origins es w ∧ ∀ e, e ∈ es → takes_snapshot e = false.

Lemma plain_boot n w : boot n = Some w → plain w.
Proof. intros Hb. exists []. split; [by apply (origins_run n w)|]. by intros e Hin%elem_of_nil. Qed.

Lemma plain_step w e w' : plain w → takes_snapshot e = false → exec w e = Some w' → plain w'.
Proof.
  intros (es & Ho & Hes) He Hx. exists (es ++ [e]). split; [by eapply origins_step|].
  intros e' [?| ->%list_elem_of_singleton]%elem_of_app; auto.
Qed.

Lemma plain_made es (index : Z) s : (∀ e : Event, e ∈ es → takes_snapshot e = false) → ¬ made es index s.
Proof. intros Hes [i Hi]. by specialize (Hes _ Hi). Qed.

Lemma plain_node w p rf : plain w → nodes w !! p = Some rf → lastIncludedIndex rf = 0 ∧ applySnapshot rf = false ∧ durable rf.
Proof.
  intros (es & [Hn _] & Hes) Hp. destruct (Hn _ _ Hp) as (Hd & Hi & _ & Hs & Hm).
  assert (lastIncludedIndex rf = 0) as E.
  { destruct (decide (lastIncludedIndex rf = 0)); [done|]. destruct (plain_made _ _ _ Hes (Hm ltac:(lia))). }
  split; [done|]. split; [|done]. destruct (applySnapshot rf); [specialize (Hs eq_refl); lia|done].
Qed.

Lemma plain_packet w l p args : plain w → ISReq l p args ∈ net w → isa_LastIncludedIndex args <= 0.
Proof.
  intros (es & [_ Hp] & Hes) Hin. destruct (decide (isa_LastIncludedIndex args <= 0)); [done|].
  destruct (plain_made _ _ _ Hes (Hp _ Hin ltac:(lia))).
Qed.

Lemma plain_allowed n b g w e :
  SI n b g w → plain w → takes_snapshot e = false → ¬ snapshots_ahead w e ∧ ¬ sends_dummy w e.
Proof.
  intros HSI Hpl He. split; [destruct e; cbn in *; done || by intros []|]. destruct e; try (by intros []).
  intros (rf & Hl & Hi & _). destruct (plain_node _ _ _ Hpl Hl) as [? _]. lia.
Qed.

(** One event: an applier stands still, or its peer restarts, or it has its turn. *)
Lemma event_appliers w e w' p rf' :
  plain w → takes_snapshot e = false → exec w e = Some w' → nodes w' !! p = Some rf' →
  ∃ rf, nodes w !! p = Some rf ∧
    ((lastApplied rf' = lastApplied rf ∧ applySnapshot rf' = applySnapshot rf) ∨
     (lastApplied rf' = 0 ∧ applySnapshot rf' = false) ∨
     (e = EApply p ∧ rf' = fst (applyCommitted rf))).
Proof.
  intros Hpl Hs Hx Hp. destruct (exec_nodes _ _ _ _ _ Hx Hp) as (rf & Hp0 & Hfrom). exists rf. split; [done|].
  destruct (plain_node _ _ _ (plain_step _ _ _ Hpl Hs Hx) Hp) as [Hi' _].
  destruct (plain_node _ _ _ Hpl Hp0) as (Hi & _ & [Hst _]).
  destruct Hfrom as [->|[(op & Hop & Hca)|(now & gs & Hm & _)]]; [by left| |].
  - pose proof (λ h, exec_op_same op rf rf' h Hop) as Hsame.
    destruct op as [| | |t args| | | | | | | | |]; try (left; by destruct (Hsame I) as (_ & ? & ?)).
    + left. destruct Hca as (k & l & -> & Hk). cbn in Hop. injection Hop as <-.
      pose proof (plain_packet _ _ _ _ Hpl (list_elem_of_lookup_2 _ _ _ Hk)) as Hle.
      destruct (applied_InstallSnapshot t args zeroISReply rf) as [(_ & ? & ?)|[? _]]; [done|lia].
    + right. right. cbn in Hop. injection Hop as <-. done.
  - right. left. destruct (Make_applier _ _ _ _ _ _ _ Hst Hm) as [-> ->]. by rewrite Hi'.
Qed.

(** What a peer has applied was handed over, and no snapshot waits. *)
Definition caught_up D p rf : Prop :=
  applySnapshot rf = false ∧ 0 <= lastApplied rf ∧
  ∀ index, 0 < index <= lastApplied rf → commits (msgs_of p D) index.

(** One turn of an applier: the next indices, up to the commit index. *)
Lemma turn_in_order n g D p F rf :
  NI n g p F rf → lastIncludedIndex rf = 0 → caught_up D p rf → in_order (msgs_of p D) →
  let batch := match snd (applyCommitted rf) with ApplySend msgs => msgs | _ => [] end in
  let rf' := fst (applyCommitted rf) in
  in_order (msgs_of p D ++ batch) ∧ applySnapshot rf' = false ∧ 0 <= lastApplied rf' ∧
  ∀ index, 0 < index <= lastApplied rf' → commits (msgs_of p D ++ batch) index.
Proof.
  intros HN Hlii (Hsn & H0la & Hc) Ho. unfold applyCommitted.
  assert (∀ index, 0 < index <= lastApplied rf → commits (msgs_of p D ++ []) index) as Hc'
    by (intros index Hi; apply commits_app; left; by apply Hc).
  case_decide as Hw; [cbn; rewrite app_nil_r in *; auto|].
  destruct (killed rf) eqn:Hk; [cbn; rewrite app_nil_r in *; auto|].
  rewrite (decide_False (P := _ ∨ _)) by (rewrite Hlii, Hsn; intros [?|?]; [lia|done]).
  cbn [fst snd applySnapshot lastApplied]. cbn -[entriesToApply].
  assert (lastApplied rf < commitIndex rf) as Hlt.
  { destruct (decide (commitIndex rf <= lastApplied rf)); [|lia]. by destruct Hw. }
  assert (commitIndex rf <= lastLogIndex rf) as Hcov.
  { pose proof (commit_ok_length _ _ _ _ _ (ni_commit _ _ _ _ _ HN)) as Hlen.
    rewrite (view_last _ _ (ni_view _ _ _ _ _ HN)). unfold len. lia. }
  set (d := Z.to_nat (commitIndex rf - lastApplied rf)).
  replace (commitIndex rf) with (lastApplied rf + 1 + Z.of_nat d - 1) by lia.
  assert (∀ k, (k < d)%nat → ∃ x, entriesToApply rf (lastApplied rf + 1) (lastApplied rf + 1 + Z.of_nat d - 1) !! k
    = Some (command_msg (lastApplied rf + 1 + Z.of_nat k) x)) as Hmsgs.
  { intros k Hkd. destruct (entriesToApply_lookup rf (lastApplied rf + 1) d k) as (e & _ & He); [lia|lia|done|by exists e]. }
  pose proof (entriesToApply_length rf (lastApplied rf + 1) d ltac:(lia) ltac:(lia)) as Hlen.
  split; [|split; [done|split; [lia|]]].
  - eapply (in_order_app _ _ (lastApplied rf + 1)); [done|intros index ?; apply Hc; lia|].
    intros k m Hm. destruct (Hmsgs k) as [e He]; [apply lookup_lt_Some in Hm; lia|].
    rewrite He in Hm. by injection Hm as <-.
  - intros index Hidx. apply commits_app. destruct (decide (index <= lastApplied rf)) as [|Hgt]; [left; apply Hc; lia|right].
    destruct (Hmsgs (Z.to_nat (index - lastApplied rf - 1))) as [e He]; [lia|].
    eexists. split; [by eapply list_elem_of_lookup_2|]. split; [done|]. cbn. lia.
Qed.

(** Only the turn of its applier hands something to a peer. *)
Lemma msgs_of_handed p w e :
  msgs_of p (handed w e) =
  match e with
  | EApply i =>
      if decide (i = p) then
        match nodes w !! p with
        | Some rf => match snd (applyCommitted rf) with ApplySend msgs => msgs | _ => [] end
        | None => []
        end
      else []
  | _ => []
  end.
Proof.
  destruct e as [| | | | |i| | | |]; try done. cbn [handed].
  assert (∀ msgs, msgs_of p ((λ m, (i, m)) <$> msgs) = if decide (i = p) then msgs else []) as Hm.
  { induction msgs as [|m msgs IH]; [by case_decide|]. rewrite fmap_cons, msgs_of_cons, IH. by case_decide. }
  destruct (nodes w !! i) as [rf|] eqn:Hi.
  - destruct (snd (applyCommitted rf)) as [| |msgs] eqn:Ha; rewrite ?Hm;
      (case_decide; [subst; rewrite Hi, Ha|]; done).
  - case_decide; [subst; by rewrite Hi|done].
Qed.

Definition cluster_ok n b w D : Prop :=
  plain w ∧ ∃ g, SI n b g w ∧ (∀ p m, (p, m) ∈ D → handed_ok n g m ∧ (p < n)%nat) ∧
    (∀ p, in_order (msgs_of p D)) ∧ ∀ p rf, nodes w !! p = Some rf → caught_up D p rf.

Lemma cluster_boot n w : boot n = Some w → cluster_ok n ∅ w [].
Proof.
  intros Hb. split; [by eapply plain_boot|]. exists no_ghost. split; [by apply boot_SI|]. split; [|split].
  - intros p m Hin. by apply elem_of_nil in Hin.
  - intros p k m Hk. done.
  - intros p rf Hp. apply boot_nodes in Hb as (_ & _ & _ & Hn). destruct (Hn _ _ Hp) as [gs Hm].
    cbn in Hm. injection Hm as <- _. split; [done|]. split; [done|]. cbn. lia.
Qed.

(** What one event adds to the messages of a peer. *)
Lemma event_turn n b g w D e p :
  SI n b g w → plain w → (∀ rf, nodes w !! p = Some rf → caught_up D p rf) → in_order (msgs_of p D) →
  in_order (msgs_of p D ++ msgs_of p (handed w e)) ∧
  ∀ rf, nodes w !! p = Some rf → e = EApply p → caught_up (D ++ handed w e) p (fst (applyCommitted rf)).
Proof.
  intros HSI Hpl Hc Ho. rewrite msgs_of_handed.
  assert (∀ rf, nodes w !! p = Some rf → ∃ F, NI n g p F rf ∧ lastIncludedIndex rf = 0) as Hnode.
  { intros rf Hp. destruct (si_node _ _ _ _ HSI _ _ Hp) as [F HN]. exists F.
    split; [done|]. by destruct (plain_node _ _ _ Hpl Hp). }
  split.
  - destruct e as [| | | | |i| | | |]; try (by rewrite app_nil_r).
    case_decide; [subst|by rewrite app_nil_r]. destruct (nodes w !! p) as [rf|] eqn:Hp; [|by rewrite app_nil_r].
    destruct (Hnode rf eq_refl) as (F & HN & Hi). by destruct (turn_in_order n g D p F rf HN Hi (Hc _ eq_refl) Ho).
  - intros rf Hp He. unfold caught_up. rewrite msgs_of_app, msgs_of_handed. subst e. rewrite decide_True, Hp by done.
    destruct (Hnode rf Hp) as (F & HN & Hi). by destruct (turn_in_order n g D p F rf HN Hi (Hc _ Hp) Ho).
Qed.

Lemma cluster_event n b w D e w' :
  cluster_ok n b w D → takes_snapshot e = false → exec w e = Some w' → ¬ revotes b w' →
  cluster_ok n (record_votes w' b) w' (D ++ handed w e).
Proof.
  intros (Hpl & g & HSI & HD & Ho & Hc) Hs Hx Hone. split; [by eapply plain_step|].
  destruct (plain_allowed _ _ _ _ _ HSI Hpl Hs) as [Hsa Hsd].
  destruct (exec_goes_on _ _ _ _ _ _ HSI Hsa Hsd Hx Hone) as (g' & Hev & HSI').
  exists g'. split; [done|]. split; [|split].
  - intros p m [Hin|Hin]%elem_of_app.
    + destruct (HD p m Hin). split; [by eapply handed_ok_evolves|done].
    + split; [by eapply handed_ok_evolves, handed_event|].
      apply elem_of_msgs_of in Hin. rewrite msgs_of_handed in Hin.
      destruct e as [| | | | |i| | | |]; try (by apply elem_of_nil in Hin).
      case_decide; [|by apply elem_of_nil in Hin].
      destruct (nodes w !! p) as [rf|] eqn:Hp; [|by apply elem_of_nil in Hin].
      by destruct (node_me _ _ _ _ _ _ HSI Hp) as (_ & _ & ? & _).
  - intros p. rewrite msgs_of_app. by apply (event_turn n b g w D e p HSI Hpl (Hc p) (Ho p)).
  - intros p rf' Hp'. destruct (event_appliers _ _ _ _ _ Hpl Hs Hx Hp') as (rf & Hp & Hcase).
    destruct (Hc _ _ Hp) as (Hsn & Hla & Hcm).
    destruct Hcase as [[Ea Eap]|[[Ea Eap]|[E ->]]].
    + unfold caught_up. rewrite msgs_of_app, Ea, Eap. split; [done|]. split; [done|].
      intros index Hi. apply commits_app. left. by apply Hcm.
    + unfold caught_up. rewrite Ea, Eap. split; [done|]. split; [done|]. lia.
    + by apply (event_turn n b g w D e p HSI Hpl (Hc p) (Ho p)).
Qed.

Lemma reach_plain_cluster n b w D : reach_plain n b w D → cluster_ok n b w D.
Proof. induction 1; [by apply cluster_boot|by eapply cluster_event]. Qed.

(** ** Nothing fails *)

Lemma nCommitted_ok D (index : Z) cfg i k (count : Z) cmd :
  holds D cfg → agree D → applyErr cfg = replicate (length (logs cfg)) "" →
  (i + k ≤ length (logs cfg))%nat →
  (0 < count → ∃ q m, (q, m) ∈ D ∧ CommandValid m = true ∧ CommandIndex m = index ∧ msg_Command m = cmd) →
  0 <= count → ∃ r, nCommitted_loop sprint index i k count cmd cfg = Ok r.
Proof.
  intros Hh Ha He. revert i count cmd. induction k as [|k IH]; intros i count cmd Hk Hc H0c; [by eexists|].
  cbn [nCommitted_loop]. rewrite He, lookup_replicate_2 by lia. cbn [or_panic mbind result_bind].
  rewrite decide_False by (by intros Hn; destruct Hn).
  destruct (lookup_lt_is_Some_2 (logs cfg) i ltac:(lia)) as [log Hlog]. rewrite Hlog. cbn [or_panic mbind result_bind].
  destruct (log !! index) as [v|] eqn:Hv; [|apply IH; [lia|done|done]].
  destruct (proj1 (Hh i index v)) as (m & Hm & Hmv & Hmi & <-); [by rewrite Hlog|].
  rewrite decide_False; [apply IH; [lia| |lia]; by exists i, m|]. intros [Hpos Hne]. apply Hne.
  destruct (Hc ltac:(lia)) as (q & m' & Hm' & Hmv' & Hmi' & <-). eapply Ha; [exact Hm'|exact Hm|done|done|congruence].
Qed.

(** C36: The appliers of a test pass every message of such a run, in whatever order
    they read and however far behind they are; the harness then holds the
    commands read, and counting the servers that committed an index passes. *)
Theorem harness_finds_no_error n b w D D' cfg :
  reach_plain n b w D → (∀ p, msgs_of p D' `prefix_of` msgs_of p D) →
  logs cfg = replicate n ∅ → length (rafts cfg) = n → applyErr cfg = replicate n "" →
  ∃ cfg', run_appliers D' cfg = Ok cfg' ∧
    (∀ p index v, (logs cfg' !! p ≫= λ log, log !! index) = Some v ↔
      ∃ m, (p, m) ∈ D' ∧ CommandValid m = true ∧ CommandIndex m = index ∧ msg_Command m = v) ∧
    ∀ index, ∃ count cmd, nCommitted sprint index cfg' = Ok (count, cmd).
Proof.
  intros (_ & g & HSI & HD & Ho & _)%reach_plain_cluster Hpre Hl Hr He.
  assert (∀ p m, (p, m) ∈ D' → (p, m) ∈ D) as Hsub.
  { intros p m Hin%elem_of_msgs_of. apply elem_of_msgs_of. destruct (Hpre p) as [l ->]. apply elem_of_app. by left. }
  assert (agree D') as Ha.
  { intros p q m1 m2 H1%Hsub H2%Hsub. eapply handed_agree; [apply HSI|by eapply HD|by eapply HD]. }
  destruct (run_appliers_ok D' cfg Ha) as (cfg' & Hx & (Hsl & Hsr & Hse) & Hh).
  - intros p. eapply in_order_prefix; [apply Hpre|apply Ho].
  - intros p m Hin%Hsub. rewrite Hl, length_replicate. by eapply HD.
  - intros p index v. rewrite Hl. split; [|by intros (m & Hin%elem_of_nil & _)].
    intros (log & [-> _]%lookup_replicate & Hv)%bind_Some. by rewrite lookup_empty in Hv.
  - exists cfg'. split; [done|]. split; [done|]. intros index.
    assert (length (logs cfg') = n) as Hln by (by rewrite Hsl, Hl, length_replicate).
    unfold nCommitted. rewrite Hsr, Hr.
    destruct (nCommitted_ok D' index cfg' 0 n 0 None Hh Ha) as [[count cmd] Hc];
      [by rewrite Hse, He, Hln|lia|lia|lia|by exists count, cmd].
Qed.
End RaftHarnessApply.
