(* ===== verification/RaftHarnessNet.v ===== *)
(** * RaftHarnessNet: who can reach whom, and what a restart brings back

    In every state of the harness the end from one server to another is enabled
    exactly when both are connected, and the ends of crashed instances stay
    disabled.  [start1] never fails on a state the harness can reach, and the
    new instance has what the old one had stored before it was killed, although
    [Kill] writes to the old persister. *)
From stdpp Require Import base gmap strings list_numbers option list.
From Stdlib Require Import ZArith Lia.
From S2P Require Import Prelude Labgob Labrpc RaftTypes Raft RaftNode RaftHarness.
#[local] Open Scope Z_scope.
#[local] Open Scope go_scope.

(** ** The tables of the network *)
Lemma enable_all_spec (names : list string) (yes : bool) (rn : Network NetName) :
  let rn' := enable_all names yes rn in
  ends rn' = ends rn ∧ connections rn' = connections rn ∧ servers rn' = servers rn ∧
  ∀ x, enabled rn' !! inl x = if decide (x ∈ names) then Some yes else enabled rn !! inl x.
Proof.
  unfold enable_all. revert rn. induction names as [|name names IH]; intros rn; [done|]. cbn [foldl].
  destruct (IH (Enable (inl name) yes rn)) as (E1 & E2 & E3 & E4). cbn zeta in *.
  rewrite E1, E2, E3. split; [done|]. split; [done|]. split; [done|]. intros x. rewrite E4. cbn.
  destruct (decide (x = name)) as [->|Hne].
  - rewrite lookup_insert_eq, (decide_True (P := name ∈ name :: names)) by (by left). by case_decide.
  - rewrite lookup_insert_ne by congruence.
    destruct (decide (x ∈ names)); [rewrite decide_True by (by right)|rewrite decide_False by set_solver]; done.
Qed.

(** Enabling or disabling ends of [i], in two loops. *)
Lemma enable_twice (outs ins : list string) (yes : bool) (rn : Network NetName) :
  let rn' := enable_all ins yes (enable_all outs yes rn) in
  ends rn' = ends rn ∧ connections rn' = connections rn ∧ servers rn' = servers rn ∧
  ∀ x, enabled rn' !! inl x = if decide (x ∈ outs ∨ x ∈ ins) then Some yes else enabled rn !! inl x.
Proof.
  destruct (enable_all_spec ins yes (enable_all outs yes rn)) as (E1 & E2 & E3 & E4).
  destruct (enable_all_spec outs yes rn) as (F1 & F2 & F3 & F4). cbn zeta in *.
  rewrite E1, E2, E3, F1, F2, F3. split; [done|]. split; [done|]. split; [done|]. intros x. rewrite E4, F4.
  repeat case_decide; tauto || done.
Qed.

Lemma make_ends_Ok (j : nat) (names : list string) (rn : Network NetName) :
  NoDup names → (∀ x, x ∈ names → ends rn !! inl x = None) →
  ∃ rn', make_ends j names rn = Ok rn' ∧
    (∀ x, is_Some (ends rn' !! inl x) ↔ x ∈ names ∨ is_Some (ends rn !! inl x)) ∧
    (∀ x, enabled rn' !! inl x = if decide (x ∈ names) then Some false else enabled rn !! inl x) ∧
    (∀ k x, names !! k = Some x → connections rn' !! inl x = Some (Some (server_name (j + k)))) ∧
    (∀ x, x ∉ names → connections rn' !! inl x = connections rn !! inl x).
Proof.
  revert j rn. induction names as [|name names IH]; intros j rn Hnd Hfr.
  { exists rn. split; [done|]. split; [intros x; split; [auto|by intros [?%elem_of_nil|]]|]. done. }
  apply NoDup_cons in Hnd as [Hn Hnd]. cbn [make_ends]. unfold MakeEnd.
  rewrite Hfr by (by left). cbn [mbind result_bind].
  set (rn1 := Connect _ _ _).
  destruct (IH (S j) rn1 Hnd) as (rn' & Hm & E1 & E2 & E3 & E4).
  { intros x Hx. cbn. rewrite lookup_insert_ne by (intros [= ->]; done). apply Hfr. by right. }
  exists rn'. split; [done|]. split; [|split; [|split]].
  - intros x. rewrite E1, elem_of_cons. cbn. destruct (decide (x = name)) as [->|Hne].
    + rewrite lookup_insert_eq. naive_solver.
    + rewrite lookup_insert_ne by congruence. tauto.
  - intros x. rewrite E2. cbn. destruct (decide (x = name)) as [->|Hne].
    + rewrite (decide_False (P := name ∈ names)), lookup_insert_eq by done. by rewrite decide_True by (by left).
    + rewrite lookup_insert_ne by congruence.
      destruct (decide (x ∈ names)); [rewrite decide_True by (by right)|rewrite decide_False by set_solver]; done.
  - intros [|k] x Hk; cbn in Hk.
    + injection Hk as ->. rewrite E4, Nat.add_0_r by done. cbn. by rewrite lookup_insert_eq.
    + rewrite (E3 k x Hk). do 3 f_equal. lia.
  - intros x Hx. rewrite E4 by set_solver. cbn. rewrite lookup_insert_ne by set_solver.
    rewrite lookup_insert_ne by set_solver. done.
Qed.

Lemma insert_alter_at {A} (f : A → A) (l : list A) k (v : A) : l !! k = Some v → <[k := f v]> l = alter f k l.
Proof.
  intros Hk. apply list_eq. intros j. rewrite list_lookup_alter. case_decide as Hj.
  - subst. rewrite Hk, list_lookup_insert_eq by (by eapply lookup_lt_Some). done.
  - by rewrite list_lookup_insert_ne.
Qed.

(** What a test, the peers and the appliers do to a [config]. *)
Inductive HarnessOp {C : Type} :=
  | HConnect (i : nat)
  | HDisconnect (i : nat)
  | HCrash (i : nat)
  | HStart (i : nat) (names : list string) (srv : nat) (now : Z)
  | HRaft (o : nat) (op : @NodeOp C)
  | HMessage (i : nat) (m : ApplyMsg C)
  | HSnapMessage (i : nat) (snap_nil : bool) (m : ApplyMsg C).

Section RaftHarnessNet.
Context {C : Type} `{EqDecision C} `{GobLaws (PersistentState C)} `{GobStream (Z * list (option C))}.
Context (sprint : option C → string).
Notation config := (config C).
Notation Raft := (Raft C).
Implicit Types (cfg : config) (rf : Raft) (i j k n : nat) (x : string) (names : list string) (rn : Network NetName).

(** ** States of the harness *)

(** The name of the end from [i] to [j]. *)
Definition current cfg i j : option string :=
  row ← endnames cfg !! i; names ← row; names !! j.

Record wired n cfg : Prop := {
  w_n : cfg_n cfg = n ∧ length (connected cfg) = n ∧ length (endnames cfg) = n;
  w_row i names : endnames cfg !! i = Some (Some names) → length names = n;
  w_inj i j i' j' x : current cfg i j = Some x → current cfg i' j' = Some x → i = i' ∧ j = j';
  w_started i : connected cfg !! i = Some true → ∃ names, endnames cfg !! i = Some (Some names);
  w_end i j x : current cfg i j = Some x →
    is_Some (ends (cfg_net cfg) !! inl x) ∧
    connections (cfg_net cfg) !! inl x = Some (Some (server_name j));
  w_enabled i j x ci cj : current cfg i j = Some x →
    connected cfg !! i = Some ci → connected cfg !! j = Some cj →
    enabled (cfg_net cfg) !! inl x = Some (ci && cj);
  w_old x : is_Some (ends (cfg_net cfg) !! inl x) → (∀ i j, current cfg i j ≠ Some x) →
    enabled (cfg_net cfg) !! inl x = Some false
}.

(** What is saved can be restored. *)
Definition restorable (ps : Persister) : Prop := is_Some (stored (C:=C) ps).

Record healthy n cfg : Prop := {
  h_len : length (rafts cfg) = n ∧ length (saved cfg) = n ∧ length (logs cfg) = n ∧
    length (cfg_lastApplied cfg) = n;
  h_object o rf : objects cfg !! o = Some rf → durable rf;
  h_raft i o : rafts cfg !! i = Some (Some o) →
    (o < length (objects cfg))%nat ∧ saved cfg !! i = Some (Some (Of o));
  h_saved i ref : saved cfg !! i = Some (Some ref) →
    match ref with Owned ps => restorable ps | Of o => (o < length (objects cfg))%nat end
}.

(** Names no end was ever given. *)
Definition fresh_names n rn names : Prop :=
  length names = n ∧ NoDup names ∧ ∀ x, x ∈ names → ends rn !! inl x = None.

(** Whether the snapshot saved for [i] can be read. *)
Definition loadable cfg i : Prop :=
  ∀ ref ps, saved cfg !! i = Some (Some ref) → contents ref cfg = Ok ps →
    ps_snapshot ps = [] ∨ is_Some (Decode (A := Z * list (option C)) (ps_snapshot ps)).

Definition hexec (op : @HarnessOp C) cfg : result config :=
  match op with
  | HConnect i => connect i cfg
  | HDisconnect i => disconnect i cfg
  | HCrash i => crash1 i cfg
  | HStart i names srv now => start1 i names srv now cfg
  | HRaft o op =>
      rf ← or_panic (objects cfg !! o);
      rf' ← or_panic (exec_op op rf);
      Ok (cfg <| objects := <[o := rf']> (objects cfg) |>)
  | HMessage i m => applier sprint i m cfg
  | HSnapMessage i snap_nil m => '(cfg, _) ← applierSnap sprint i snap_nil m cfg; Ok cfg
  end.

(** Servers have numbers below [n], a server is started before it is connected,
    names are drawn afresh, and a saved snapshot is one of the harness. *)
Definition allowed n cfg (op : @HarnessOp C) : Prop :=
  match op with
  | HConnect i => ∃ names, endnames cfg !! i = Some (Some names)
  | HDisconnect i | HCrash i => (i < n)%nat
  | HStart i names _ _ => (i < n)%nat ∧ fresh_names n (cfg_net cfg) names ∧ loadable cfg i
  | HRaft _ _ | HMessage _ _ | HSnapMessage _ _ _ => True
  end.

Inductive harness_reach n : config → Prop :=
  | harness_new unreliable : harness_reach n (new_config n unreliable)
  | harness_step cfg op cfg' :
      harness_reach n cfg → allowed n cfg op → hexec op cfg = Ok cfg' → harness_reach n cfg'.

(** ** Gathering names *)
Lemma collect_Ok (f : nat → result (option string)) (h : nat → option string) js :
  (∀ j, j ∈ js → f j = Ok (h j)) → collect f js = Ok (omap h js).
Proof.
  induction js as [|j js IH]; intros Hf; [done|]. cbn [collect].
  rewrite (Hf j) by (by left). cbn [mbind result_bind].
  rewrite IH by (intros j' Hj'; apply Hf; by right). cbn. by destruct (h j).
Qed.

Lemma elem_of_gathered (h : nat → option string) n x :
  x ∈ omap h (seq 0 n) ↔ ∃ j, (j < n)%nat ∧ h j = Some x.
Proof.
  rewrite list_elem_of_omap. split.
  - intros (j & Hj%elem_of_seq & ?). exists j. split; [lia|done].
  - intros (j & ? & ?). exists j. split; [apply elem_of_seq; lia|done].
Qed.

Lemma current_lt n cfg i j x : wired n cfg → current cfg i j = Some x → (i < n)%nat ∧ (j < n)%nat.
Proof.
  intros Hw (row & Hi & (names & -> & Hj)%bind_Some)%bind_Some.
  destruct (w_n _ _ Hw) as (_ & _ & <-). split; [by eapply lookup_lt_Some|].
  rewrite <- (w_row _ _ Hw _ _ Hi). by eapply lookup_lt_Some.
Qed.

Lemma end_at_current n cfg i j row :
  wired n cfg → endnames cfg !! i = Some (Some row) → (j < n)%nat →
  end_at (Some row) j = Ok (current cfg i j).
Proof.
  intros Hw Hi Hj. unfold end_at, current. rewrite Hi. cbn.
  destruct (lookup_lt_is_Some_2 row j) as [x Hx]; [by rewrite (w_row _ _ Hw _ _ Hi)|]. by rewrite Hx.
Qed.

(** ** Disconnecting *)
Lemma outgoing_named_Ok n cfg i :
  wired n cfg → (i < n)%nat → outgoing_named i cfg = Ok (omap (current cfg i) (seq 0 n)).
Proof.
  intros Hw Hi. unfold outgoing_named. destruct (w_n _ _ Hw) as (Hn & _ & Hle). rewrite Hn. apply collect_Ok. intros j Hj%elem_of_seq.
  destruct (lookup_lt_is_Some_2 (endnames cfg) i) as [[row|] Hr]; [by rewrite Hle| |]; rewrite Hr; cbn [or_panic mbind result_bind].
  - apply (end_at_current n cfg i j row Hw Hr). lia.
  - unfold current. by rewrite Hr.
Qed.

Lemma incoming_named_Ok n cfg i :
  wired n cfg → (i < n)%nat → incoming_named i cfg = Ok (omap (λ j, current cfg j i) (seq 0 n)).
Proof.
  intros Hw Hi. unfold incoming_named. destruct (w_n _ _ Hw) as (Hn & _ & Hle). rewrite Hn. apply collect_Ok. intros j Hj%elem_of_seq.
  destruct (lookup_lt_is_Some_2 (endnames cfg) j) as [[row|] Hr]; [rewrite Hle; lia| |]; rewrite Hr; cbn [or_panic mbind result_bind].
  - by apply (end_at_current n cfg j i row Hw Hr).
  - unfold current. by rewrite Hr.
Qed.

(** The end is one of server [i]. *)
Definition touches cfg i x : Prop := ∃ j, current cfg i j = Some x ∨ current cfg j i = Some x.

Lemma disconnect_Ok n cfg i :
  wired n cfg → (i < n)%nat →
  ∃ rn, disconnect i cfg = Ok (cfg <| connected := <[i := false]> (connected cfg) |> <| cfg_net := rn |>) ∧
    ends rn = ends (cfg_net cfg) ∧
    wired n (cfg <| connected := <[i := false]> (connected cfg) |> <| cfg_net := rn |>).
Proof.
  intros Hw Hi. pose proof (w_n _ _ Hw) as (Hn & Hlc & Hle). unfold disconnect, set_at, set_index.
  rewrite decide_True by lia. cbn [or_panic mbind result_bind].
  set (cfg1 := cfg <| connected := <[i := false]> (connected cfg) |>).
  replace (outgoing_named i cfg1) with (outgoing_named i cfg) by done.
  rewrite (outgoing_named_Ok n) by done. cbn [mbind result_bind].
  set (cfg2 := cfg1 <| cfg_net := _ |>). replace (incoming_named i cfg2) with (incoming_named i cfg) by done.
  rewrite (incoming_named_Ok n) by done. cbn [mbind result_bind].
  set (outs := omap (current cfg i) (seq 0 n)) in *. set (ins := omap (λ j, current cfg j i) (seq 0 n)) in *.
  exists (enable_all ins false (enable_all outs false (cfg_net cfg))). split; [done|].
  destruct (enable_twice outs ins false (cfg_net cfg)) as (E1 & E2 & _ & E3). cbn zeta in *. split; [done|].
  assert (∀ k l x, current cfg k l = Some x → (x ∈ outs ∨ x ∈ ins) ↔ (k = i ∨ l = i)) as Hin.
  { intros k l x Hx. destruct (current_lt _ _ _ _ _ Hw Hx) as [Hk Hl]. subst outs ins. rewrite !elem_of_gathered. split.
    - intros [(j & _ & Hj)|(j & _ & Hj)]; destruct (w_inj _ _ Hw _ _ _ _ _ Hx Hj); auto.
    - intros [->| ->]; [left; by exists l|right; by exists k]. }
  split; cbn [connected endnames cfg_n cfg_net]; cbn -[enable_all].
  - by rewrite length_insert.
  - exact (w_row _ _ Hw).
  - exact (w_inj _ _ Hw).
  - intros k [(-> & ? & _)|[_ Hk]]%list_lookup_insert_Some; [done|by apply (w_started _ _ Hw)].
  - intros k l x Hx. rewrite E1, E2. exact (w_end _ _ Hw k l x Hx).
  - intros k l x ck cl' Hx Hck Hcl. rewrite E3.
    apply list_lookup_insert_Some in Hck as [(-> & <- & _)|[Hki Hck]].
    { rewrite decide_True; [done|]. apply (Hin _ _ _ Hx). by left. }
    apply list_lookup_insert_Some in Hcl as [(-> & <- & _)|[Hli Hcl]].
    { rewrite decide_True; [by rewrite andb_false_r|]. apply (Hin _ _ _ Hx). by right. }
    rewrite decide_False; [by eapply (w_enabled _ _ Hw)|]. rewrite (Hin _ _ _ Hx). naive_solver.
  - intros x He Hno. rewrite E1 in He. rewrite E3. case_decide; [done|]. by apply (w_old _ _ Hw).
Qed.

(** ** Connecting *)

(** The ends from [i] to the servers that [cs] says are connected, and back. *)
Definition ends_out cfg (cs : list bool) i n : list string :=
  omap (λ j, if default false (cs !! j) then current cfg i j else None) (seq 0 n).
Definition ends_in cfg (cs : list bool) i n : list string :=
  omap (λ j, if default false (cs !! j) then current cfg j i else None) (seq 0 n).

Lemma connect_ends n cfg i :
  wired n cfg → (∃ names, endnames cfg !! i = Some (Some names)) →
  let cs := <[i := true]> (connected cfg) in
  connect i cfg = Ok (cfg <| connected := cs |>
    <| cfg_net := enable_all (ends_in cfg cs i n) true (enable_all (ends_out cfg cs i n) true (cfg_net cfg)) |>).
Proof.
  intros Hw [names Hi] cs. pose proof (w_n _ _ Hw) as (Hn & Hlc & Hle).
  assert (i < n)%nat as Hin0 by (rewrite <- Hle; by eapply lookup_lt_Some).
  unfold connect, set_at, set_index. rewrite decide_True by lia. cbn [or_panic mbind result_bind].
  fold cs. set (cfg1 := cfg <| connected := cs |>).
  assert (∀ j, (j < n)%nat → ∃ c, cs !! j = Some c ∧
    (c = true → ∃ row, endnames cfg !! j = Some (Some row))) as Hcs.
  { intros j Hj. destruct (lookup_lt_is_Some_2 cs j) as [c Hc]; [subst cs; rewrite length_insert; lia|].
    exists c. split; [done|]. intros ->. apply list_lookup_insert_Some in Hc as [(<- & _)|[_ Hc]]; [eauto|].
    by apply (w_started _ _ Hw). }
  assert (outgoing i cfg1 = Ok (ends_out cfg cs i n)) as ->.
  { unfold outgoing. change (cfg_n cfg1) with (cfg_n cfg). rewrite Hn. apply collect_Ok. intros j Hj%elem_of_seq.
    destruct (Hcs j) as (c & Hc & _); [lia|]. change (connected cfg1) with cs. rewrite Hc. cbn.
    destruct c; [|done]. change (endnames cfg1) with (endnames cfg). rewrite Hi. cbn [or_panic mbind result_bind].
    apply (end_at_current n); [done|done|lia]. }
  cbn [mbind result_bind]. set (cfg2 := cfg1 <| cfg_net := _ |>).
  assert (incoming i cfg2 = Ok (ends_in cfg cs i n)) as ->; [|done].
  unfold incoming. change (cfg_n cfg2) with (cfg_n cfg). rewrite Hn. apply collect_Ok. intros j Hj%elem_of_seq.
  destruct (Hcs j) as (c & Hc & Hrow); [lia|]. change (connected cfg2) with cs. rewrite Hc. cbn.
  destruct c; [|done]. destruct (Hrow eq_refl) as [row Hr]. change (endnames cfg2) with (endnames cfg).
  rewrite Hr. cbn [or_panic mbind result_bind]. by apply (end_at_current n).
Qed.

(** The ends it enables. *)
Lemma ends_in_out n cfg cs i k l x ck cl :
  wired n cfg → cs !! i = Some true → current cfg k l = Some x → cs !! k = Some ck → cs !! l = Some cl →
  (x ∈ ends_out cfg cs i n ∨ x ∈ ends_in cfg cs i n) ↔ (k = i ∧ cl = true) ∨ (l = i ∧ ck = true).
Proof.
  intros Hw Hci Hx Hck Hcl. destruct (current_lt _ _ _ _ _ Hw Hx) as [Hk Hl].
  unfold ends_out, ends_in. rewrite !elem_of_gathered. split.
  - intros [(j & _ & Hj)|(j & _ & Hj)]; destruct (cs !! j) as [[]|] eqn:Hcj; try done; cbn in Hj;
      destruct (w_inj _ _ Hw _ _ _ _ _ Hx Hj) as [-> ->]; [left|right]; split; congruence.
  - intros [[-> ->]|[-> ->]]; [left; exists l|right; exists k]; by rewrite ?Hck, ?Hcl.
Qed.

Lemma connect_Ok n cfg i :
  wired n cfg → (∃ names, endnames cfg !! i = Some (Some names)) →
  ∃ rn, connect i cfg = Ok (cfg <| connected := <[i := true]> (connected cfg) |> <| cfg_net := rn |>) ∧
    wired n (cfg <| connected := <[i := true]> (connected cfg) |> <| cfg_net := rn |>).
Proof.
  intros Hw Hi. eexists. split; [by apply connect_ends|]. set (cs := <[i := true]> (connected cfg)).
  pose proof (w_n _ _ Hw) as (Hn & Hlc & Hle).
  assert (i < n)%nat as Hin0 by (destruct Hi as [names Hi]; rewrite <- Hle; by eapply lookup_lt_Some).
  destruct (enable_twice (ends_out cfg cs i n) (ends_in cfg cs i n) true (cfg_net cfg)) as (E1 & E2 & _ & E3).
  cbn zeta in *. assert (cs !! i = Some true) as Hci by (apply list_lookup_insert_eq; lia).
  split; cbn [connected endnames cfg_n cfg_net]; cbn -[enable_all].
  - subst cs. by rewrite length_insert.
  - exact (w_row _ _ Hw).
  - exact (w_inj _ _ Hw).
  - intros k [(-> & _)|[_ Hk]]%list_lookup_insert_Some; [done|by apply (w_started _ _ Hw)].
  - intros k l x Hx. rewrite E1, E2. exact (w_end _ _ Hw k l x Hx).
  - intros k l x ck cl Hx Hck Hcl. rewrite E3.
    pose proof (ends_in_out n cfg cs i k l x ck cl Hw Hci Hx Hck Hcl) as Hiff.
    destruct (lookup_lt_is_Some_2 (connected cfg) k) as [ck0 Hck0].
    { apply lookup_lt_Some in Hck. subst cs. by rewrite length_insert in Hck. }
    destruct (lookup_lt_is_Some_2 (connected cfg) l) as [cl0 Hcl0].
    { apply lookup_lt_Some in Hcl. subst cs. by rewrite length_insert in Hcl. }
    pose proof (w_enabled _ _ Hw _ _ _ _ _ Hx Hck0 Hcl0) as Hold.
    apply list_lookup_insert_Some in Hck as [(-> & <- & _)|[Hki Hck]];
      apply list_lookup_insert_Some in Hcl as [(-> & <- & _)|[Hli Hcl]]; simplify_eq.
    + by rewrite decide_True by (apply Hiff; auto).
    + destruct cl; [by rewrite decide_True by (apply Hiff; auto)|].
      rewrite decide_False, Hold, andb_false_r by (rewrite Hiff; naive_solver). done.
    + destruct ck; [by rewrite decide_True by (apply Hiff; auto)|].
      rewrite decide_False, Hold by (rewrite Hiff; naive_solver). done.
    + rewrite decide_False by (rewrite Hiff; naive_solver). done.
  - intros x He Hno. rewrite E1 in He. rewrite E3. rewrite decide_False; [by apply (w_old _ _ Hw)|].
    unfold ends_in, ends_out. rewrite !elem_of_gathered. intros [(j & _ & Hj)|(j & _ & Hj)];
      destruct (cs !! j) as [[]|]; try done; cbn in Hj; by apply Hno in Hj.
Qed.

(** ** Crashing *)

(** Only the wires matter to [wired]. *)
Lemma wired_same n cfg cfg' :
  wired n cfg → connected cfg' = connected cfg → endnames cfg' = endnames cfg → cfg_n cfg' = cfg_n cfg →
  ends (cfg_net cfg') = ends (cfg_net cfg) → enabled (cfg_net cfg') = enabled (cfg_net cfg) →
  connections (cfg_net cfg') = connections (cfg_net cfg) → wired n cfg'.
Proof.
  intros Hw Ec En Em E1 E2 E3. assert (∀ i j, current cfg' i j = current cfg i j) as Ecur
    by (intros; unfold current; by rewrite En).
  split; rewrite ?Ec, ?En, ?Em, ?E1, ?E2, ?E3; try apply Hw; intros *; rewrite ?Ecur; try apply Hw.
  intros He Hno. apply (w_old _ _ Hw); [done|]. intros i j. rewrite <- Ecur. apply Hno.
Qed.

Lemma contents_Ok n cfg i ref :
  healthy n cfg → saved cfg !! i = Some (Some ref) → ∃ ps, contents ref cfg = Ok ps ∧ restorable ps.
Proof.
  intros Hh Hs. pose proof (h_saved _ _ Hh _ _ Hs) as Hr. destruct ref as [ps|o]; [by exists ps|].
  destruct (lookup_lt_is_Some_2 _ _ Hr) as [rf Hrf]. exists (persister rf). cbn. rewrite Hrf. split; [done|].
  destruct (h_object _ _ Hh _ _ Hrf) as [E _]. unfold restorable. rewrite E. by eexists.
Qed.

Lemma Copy_id ps : Copy ps = ps.
Proof. by destruct ps. Qed.

Lemma Save_read_id ps : Save (ReadRaftState ps) (ReadSnapshot ps) MakePersister = ps.
Proof. unfold Save, ReadRaftState, ReadSnapshot. rewrite !clone_id. by destruct ps. Qed.

Lemma copy_saved_Ok n cfg i :
  healthy n cfg → (i < n)%nat →
  (saved cfg !! i = Some None ∧ copy_saved i cfg = Ok cfg) ∨
  ∃ ref ps, saved cfg !! i = Some (Some ref) ∧ contents ref cfg = Ok ps ∧ restorable ps ∧
    copy_saved i cfg = Ok (cfg <| saved := <[i := Some (Owned ps)]> (saved cfg) |>).
Proof.
  intros Hh Hi. destruct (h_len _ _ Hh) as (_ & Hls & _). unfold copy_saved.
  destruct (lookup_lt_is_Some_2 (saved cfg) i) as [[ref|] Hs]; [lia| |left; by rewrite Hs]. right.
  destruct (contents_Ok _ _ _ _ Hh Hs) as (ps & Hps & Hr). exists ref, ps. split; [done|]. split; [done|]. split; [done|].
  rewrite Hs. cbn [or_panic mbind result_bind]. rewrite Hps. cbn [mbind result_bind]. unfold set_at, set_index.
  rewrite decide_True by lia. by rewrite Copy_id.
Qed.

(** What a crash of server [i] leaves. *)
Record crashed i cfg cfg' : Prop := {
  c_conn : connected cfg' = <[i := false]> (connected cfg);
  c_same : endnames cfg' = endnames cfg ∧ cfg_n cfg' = cfg_n cfg ∧ logs cfg' = logs cfg ∧
    cfg_lastApplied cfg' = cfg_lastApplied cfg ∧ ends (cfg_net cfg') = ends (cfg_net cfg);
  c_rafts : rafts cfg' = <[i := None]> (rafts cfg);
  c_objects : objects cfg' =
    match rafts cfg !! i with Some (Some o) => alter Kill o (objects cfg) | _ => objects cfg end;
  c_saved : (saved cfg !! i = Some None ∧ saved cfg' = saved cfg) ∨
    ∃ ref ps, saved cfg !! i = Some (Some ref) ∧ contents ref cfg = Ok ps ∧ restorable ps ∧
      saved cfg' = <[i := Some (Owned ps)]> (saved cfg)
}.

Lemma durable_Kill rf : durable rf → durable (Kill rf).
Proof. intros Hd. by apply (exec_op_durable OpKill rf). Qed.

Lemma healthy_crashed n i cfg cfg' : healthy n cfg → crashed i cfg cfg' → healthy n cfg'.
Proof.
  intros Hh Hc. destruct (c_same _ _ _ Hc) as (_ & _ & El & Ea & _). destruct (h_len _ _ Hh) as (? & ? & ? & ?).
  assert (length (objects cfg') = length (objects cfg)) as Elen.
  { rewrite (c_objects _ _ _ Hc). destruct (rafts cfg !! i) as [[o|]|]; by rewrite ?length_alter. }
  assert (length (saved cfg') = n) as Els.
  { destruct (c_saved _ _ _ Hc) as [[_ ->]|(? & ? & _ & _ & _ & ->)]; by rewrite ?length_insert. }
  split.
  - by rewrite (c_rafts _ _ _ Hc), El, Ea, length_insert.
  - intros o rf. rewrite (c_objects _ _ _ Hc). destruct (rafts cfg !! i) as [[o'|]|]; try apply (h_object _ _ Hh).
    rewrite list_lookup_alter. case_decide; [|apply (h_object _ _ Hh)].
    intros (rf0 & Ho & ->)%fmap_Some. by apply durable_Kill, (h_object _ _ Hh o').
  - intros k o. rewrite (c_rafts _ _ _ Hc), Elen. intros [(_ & ? & _)|[Hne Hk]]%list_lookup_insert_Some; [done|].
    destruct (h_raft _ _ Hh _ _ Hk) as [? Hs]. split; [done|].
    destruct (c_saved _ _ _ Hc) as [[_ ->]|(? & ? & _ & _ & _ & ->)]; [done|]. by rewrite list_lookup_insert_ne.
  - intros k ref. rewrite Elen. destruct (c_saved _ _ _ Hc) as [[_ ->]|(ref0 & ps & _ & _ & Hr & ->)]; [apply Hh|].
    intros [(<- & [= <-] & _)|[_ Hk]]%list_lookup_insert_Some; [done|by apply (h_saved _ _ Hh) in Hk].
Qed.

Lemma kill_instance_Ok n cfg i :
  (∀ o, rafts cfg !! i = Some (Some o) → (o < length (objects cfg))%nat) →
  length (rafts cfg) = n → (i < n)%nat →
  ∃ os, kill_instance i cfg = Ok (cfg <| objects := os |> <| rafts := <[i := None]> (rafts cfg) |>) ∧
    os = match rafts cfg !! i with Some (Some o) => alter Kill o (objects cfg) | _ => objects cfg end.
Proof.
  intros Ho Hl Hi. unfold kill_instance. destruct (lookup_lt_is_Some_2 (rafts cfg) i) as [[o|] Hr]; [lia| |]; rewrite Hr; cbn.
  - destruct (lookup_lt_is_Some_2 _ _ (Ho _ Hr)) as [rf Hrf]. rewrite Hrf. cbn. unfold set_at, set_index.
    rewrite decide_True by lia. eexists. split; [reflexivity|]. by apply insert_alter_at.
  - eexists. split; [|done]. rewrite list_insert_id by done. by destruct cfg.
Qed.

Lemma fresh_saved_owned cfg i ps :
  saved cfg !! i = Some (Some (Owned ps)) → fresh_saved i cfg = Ok cfg.
Proof.
  intros Hs. unfold fresh_saved. rewrite Hs. cbn. unfold set_at, set_index.
  rewrite decide_True by (by eapply lookup_lt_Some). cbn. rewrite Save_read_id, list_insert_id by done. by destruct cfg.
Qed.

Lemma crash1_Ok n cfg i :
  wired n cfg → healthy n cfg → (i < n)%nat →
  ∃ cfg', crash1 i cfg = Ok cfg' ∧ wired n cfg' ∧ healthy n cfg' ∧ crashed i cfg cfg'.
Proof.
  intros Hw Hh Hi. destruct (disconnect_Ok _ _ _ Hw Hi) as (rn & Hd & He & Hw1). unfold crash1. rewrite Hd.
  cbn [mbind result_bind]. set (cfg1 := cfg <| connected := _ |> <| cfg_net := rn |>) in *.
  set (cfg2 := cfg1 <| cfg_net := DeleteServer (server_name i) (cfg_net cfg1) |>).
  assert (healthy n cfg2) as Hh2 by (by destruct Hh; split).
  destruct (h_len _ _ Hh) as (Hlr & Hls & _).
  assert (∀ cfg3, rafts cfg3 = rafts cfg → objects cfg3 = objects cfg → ∀ o, rafts cfg3 !! i = Some (Some o) →
    (o < length (objects cfg3))%nat) as Hlive.
  { intros cfg3 -> -> o Ho. by destruct (h_raft _ _ Hh _ _ Ho). }
  assert (∀ cfg', crashed i cfg cfg' → ends (cfg_net cfg') = ends rn → enabled (cfg_net cfg') = enabled rn →
    connections (cfg_net cfg') = connections rn → wired n cfg' ∧ healthy n cfg' ∧ crashed i cfg cfg') as Hdone.
  { intros cfg' Hc E1 E2 E3. split; [|split; [exact (healthy_crashed _ _ _ _ Hh Hc)|done]]. destruct (c_same _ _ _ Hc) as (? & ? & _).
    eapply wired_same; [exact Hw1|..]; try done. apply (c_conn _ _ _ Hc). }
  destruct (copy_saved_Ok n cfg2 i Hh2 Hi) as [[Hs ->]|(ref & ps & Hs & Hps & Hre & ->)]; cbn [mbind result_bind].
  - destruct (kill_instance_Ok n cfg2 i) as (os & -> & Hos); [by apply Hlive|done|done|]. cbn [mbind result_bind].
    unfold fresh_saved. cbn [saved]. change (saved _) with (saved cfg2). rewrite Hs. cbn [or_panic mbind result_bind].
    eexists. split; [reflexivity|]. apply Hdone; try done. split; try done. by left.
  - destruct (kill_instance_Ok n (cfg2 <| saved := <[i := Some (Owned ps)]> (saved cfg2) |>) i) as (os & -> & Hos);
      [by apply Hlive|done|done|]. cbn [mbind result_bind].
    rewrite (fresh_saved_owned _ i ps) by (cbn; apply list_lookup_insert_eq; lia).
    eexists. split; [reflexivity|]. apply Hdone; try done. split; try done.
    right. exists ref, ps. split; [done|]. split; [by destruct ref|done].
Qed.

(** ** Starting *)

(** A crashed server gets its new ends. *)
Lemma start_wired n cfg i names :
  wired n cfg → (i < n)%nat → connected cfg !! i = Some false → fresh_names n (cfg_net cfg) names →
  ∃ rn, make_ends 0 names (cfg_net cfg) = Ok rn ∧
    wired n (cfg <| endnames := <[i := Some names]> (endnames cfg) |> <| cfg_net := rn |>).
Proof.
  intros Hw Hi Hci (Hlen & Hnd & Hfr).
  destruct (make_ends_Ok 0 names (cfg_net cfg) Hnd Hfr) as (rn & Hm & E1 & E2 & E3 & E4). exists rn. split; [done|].
  pose proof (w_n _ _ Hw) as (Hn & Hlc & Hle). set (cfg' := cfg <| endnames := _ |> <| cfg_net := rn |>).
  assert (∀ j x, current cfg' i j = Some x ↔ names !! j = Some x) as Hnew.
  { intros j x. unfold current. cbn. by rewrite list_lookup_insert_eq by lia. }
  assert (∀ k j, k ≠ i → current cfg' k j = current cfg k j) as Hold.
  { intros k j Hk. unfold current. cbn. by rewrite list_lookup_insert_ne. }
  assert (∀ k j x, current cfg k j = Some x → x ∉ names) as Hnot.
  { intros k j x Hx Hin. destruct (w_end _ _ Hw _ _ _ Hx) as [[? He] _]. by rewrite Hfr in He. }
  split; cbn [connected cfg_n cfg_net endnames]; cbn -[current].
  - by rewrite length_insert.
  - intros k names' [(-> & [= <-] & _)|[_ Hk]]%list_lookup_insert_Some; [done|by apply (w_row _ _ Hw _ _ Hk)].
  - intros k j k' j' x Hx Hx'.
    destruct (decide (k = i)) as [->|Hk], (decide (k' = i)) as [->|Hk'].
    + split; [done|]. eapply NoDup_lookup; [exact Hnd|by apply Hnew|by apply Hnew].
    + rewrite Hold in Hx' by done. destruct (Hnot _ _ _ Hx'). apply Hnew in Hx. by eapply list_elem_of_lookup_2.
    + rewrite Hold in Hx by done. destruct (Hnot _ _ _ Hx). apply Hnew in Hx'. by eapply list_elem_of_lookup_2.
    + rewrite Hold in Hx, Hx' by done. exact (w_inj _ _ Hw _ _ _ _ _ Hx Hx').
  - intros k Hk. destruct (decide (k = i)) as [->|Hne]; [exists names; apply list_lookup_insert_eq; lia|].
    rewrite list_lookup_insert_ne by done. by apply (w_started _ _ Hw).
  - intros k j x Hx. rewrite E1. destruct (decide (k = i)) as [->|Hk].
    + apply Hnew in Hx. rewrite (E3 _ _ Hx). split; [left; by eapply list_elem_of_lookup_2|done].
    + rewrite Hold in Hx by done. rewrite E4 by (by eapply Hnot). destruct (w_end _ _ Hw _ _ _ Hx). auto.
  - intros k j x ck cj Hx Hck Hcj. rewrite E2. destruct (decide (k = i)) as [->|Hk].
    + apply Hnew in Hx. rewrite decide_True by (by eapply list_elem_of_lookup_2). rewrite Hci in Hck. by injection Hck as <-.
    + rewrite Hold in Hx by done. rewrite decide_False by (by eapply Hnot). exact (w_enabled _ _ Hw _ _ _ _ _ Hx Hck Hcj).
  - intros x [Hx|Hx]%E1 Hno; rewrite E2; [by rewrite decide_True|]. case_decide as Hd; [done|].
    destruct (decide (x ∈ omap (current cfg i) (seq 0 n))) as [(j & Hj & Hx')%elem_of_gathered|Hn0].
    + destruct (lookup_lt_is_Some_2 (connected cfg) j) as [cj Hcj]; [lia|].
      exact (w_enabled _ _ Hw _ _ _ _ _ Hx' Hci Hcj).
    + apply (w_old _ _ Hw); [done|]. intros k j Hx'. destruct (decide (k = i)) as [->|Hk].
      * apply Hn0, elem_of_gathered. exists j. split; [by destruct (current_lt _ _ _ _ _ Hw Hx')|done].
      * apply (Hno k j). by rewrite Hold.
Qed.

(** The persister the new instance gets. *)
Definition to_restore cfg i (ps : Persister) : Prop :=
  (saved cfg !! i = Some None ∧ ps = MakePersister) ∨
  ∃ ref, saved cfg !! i = Some (Some ref) ∧ contents ref cfg = Ok ps.

Definition saved_as cfg i (ps : Persister) cfg' : Prop :=
  ∃ ls la, cfg' = cfg <| logs := ls |> <| cfg_lastApplied := la |>
    <| saved := <[i := Some (Owned ps)]> (saved cfg) |> ∧
    length ls = length (logs cfg) ∧ length la = length (cfg_lastApplied cfg).

Lemma saved_as_same cfg i ps : saved_as cfg i ps (cfg <| saved := <[i := Some (Owned ps)]> (saved cfg) |>).
Proof. exists (logs cfg), (cfg_lastApplied cfg). by destruct cfg. Qed.

Lemma prepare_saved_Ok n cfg i :
  healthy n cfg → (i < n)%nat → loadable cfg i →
  ∃ cfg' ps, prepare_saved i cfg = Ok cfg' ∧ to_restore cfg i ps ∧ restorable ps ∧ saved_as cfg i ps cfg'.
Proof.
  intros Hh Hi Hload. destruct (h_len _ _ Hh) as (_ & Hls & Hll & Hla). unfold prepare_saved.
  destruct (copy_saved_Ok n cfg i Hh Hi) as [[Hs _]|(ref & ps & Hs & Hps & Hr & Hcopy)]; rewrite Hs; cbn [or_panic mbind result_bind].
  { unfold set_at, set_index. rewrite decide_True by lia. eexists _, MakePersister. split; [reflexivity|].
    split; [by left|]. split; [by eexists|apply saved_as_same]. }
  rewrite Hcopy. cbn [mbind result_bind]. unfold saved_state. cbn [saved].
  assert (saved (cfg <| saved := <[i := Some (Owned ps)]> (saved cfg) |>) !! i = Some (Some (Owned ps))) as E
    by (cbn; apply list_lookup_insert_eq; lia).
  rewrite E. cbn [or_panic mbind result_bind contents].
  assert (to_restore cfg i ps) as Hto by (right; by exists ref).
  unfold ReadSnapshot. rewrite clone_id. case_decide as Hsn; [|eexists _, ps; eauto using saved_as_same].
  destruct (Hload ref ps Hs Hps) as [E0|[[index xlog] Hx]]; [rewrite E0 in Hsn; unfold len in Hsn; cbn in Hsn; lia|].
  unfold ingestSnap. rewrite Hx. rewrite decide_False by naive_solver.
  unfold set_at, set_index. cbn [logs cfg_lastApplied]. rewrite decide_True by (cbn; lia). cbn [or_panic mbind result_bind].
  rewrite decide_True by (cbn; lia). cbn [or_panic mbind result_bind]. rewrite decide_False by (by intros []).
  eexists _, ps. split; [reflexivity|]. split; [done|]. split; [done|].
  exists (<[i := list_to_map (zip (seqZ 0 (len xlog)) xlog)]> (logs cfg)), (<[i := index]> (cfg_lastApplied cfg)).
  split; [done|]. by rewrite !length_insert.
Qed.

(** The new instance. *)
Lemma make_instance_Ok n cfg i ps now :
  healthy n cfg → (i < n)%nat → rafts cfg !! i = Some None → saved cfg !! i = Some (Some (Owned ps)) → restorable ps →
  ∃ rf, make_instance i now cfg = Ok (cfg <| objects := objects cfg ++ [rf] |>
      <| saved := <[i := Some (Of (length (objects cfg)))]> (saved cfg) |>
      <| rafts := <[i := Some (length (objects cfg))]> (rafts cfg) |>) ∧
    Make (cfg_n cfg) i ps now = Some (rf, [GoTicker; GoApplyCommitted]) ∧ durable rf.
Proof.
  intros Hh Hi Hr Hs [st Hst]. destruct (h_len _ _ Hh) as (Hlr & Hls & _).
  destruct (Make_stored (cfg_n cfg) i ps now st Hst) as (rf & Hm & Hps & Hsn & Hpr & _). exists rf.
  unfold make_instance, saved_state. rewrite Hs. cbn [or_panic mbind result_bind contents]. rewrite Hm.
  cbn [or_panic mbind result_bind]. unfold set_at, set_index. rewrite decide_True by (cbn; lia). cbn [or_panic mbind result_bind].
  rewrite decide_True by (cbn; lia). split; [done|]. split; [done|].
  unfold durable. by rewrite Hpr, Hst, Hps, Hsn.
Qed.

Lemma healthy_same n cfg cfg' :
  healthy n cfg → rafts cfg' = rafts cfg → saved cfg' = saved cfg → objects cfg' = objects cfg →
  length (logs cfg') = length (logs cfg) → length (cfg_lastApplied cfg') = length (cfg_lastApplied cfg) →
  healthy n cfg'.
Proof. intros [Hl Ho Hr Hs] E1 E2 E3 E4 E5. split; rewrite ?E1, ?E2, ?E3, ?E4, ?E5; done. Qed.

Lemma healthy_owned n cfg i ps :
  healthy n cfg → restorable ps → (i < n)%nat → rafts cfg !! i = Some None →
  healthy n (cfg <| saved := <[i := Some (Owned ps)]> (saved cfg) |>).
Proof.
  intros [Hl Ho Hr Hs] Hre Hi Hn. split; cbn.
  - by rewrite length_insert.
  - done.
  - intros k o Hk. destruct (Hr k o Hk). split; [done|]. rewrite list_lookup_insert_ne; [done|congruence].
  - intros k ref [(<- & [= <-] & _)|[_ Hk]]%list_lookup_insert_Some; [done|by apply Hs in Hk].
Qed.

Lemma healthy_made n cfg i rf :
  healthy n cfg → durable rf → (i < n)%nat →
  let o := length (objects cfg) in
  healthy n (cfg <| objects := objects cfg ++ [rf] |> <| saved := <[i := Some (Of o)]> (saved cfg) |>
    <| rafts := <[i := Some o]> (rafts cfg) |>).
Proof.
  intros [(Hl1 & Hl2 & Hl3 & Hl4) Ho Hr Hs] Hd Hi o. split; cbn.
  - by rewrite !length_insert.
  - intros k rk [Hk|[_ Hk]]%lookup_app_Some; [by eapply Ho|].
    by apply list_lookup_singleton_Some in Hk as [_ <-].
  - rewrite length_app. cbn. intros k o' [(-> & [= <-] & _)|[Hne Hk]]%list_lookup_insert_Some.
    + split; [subst o; lia|]. apply list_lookup_insert_eq. lia.
    + destruct (Hr k o' Hk). split; [lia|]. by rewrite list_lookup_insert_ne.
  - rewrite length_app. cbn. intros k ref [(-> & [= <-] & _)|[Hne Hk]]%list_lookup_insert_Some; [subst o; lia|].
    apply Hs in Hk. destruct ref; [done|lia].
Qed.

(** The saved state before the crash is the one after it. *)
Lemma crashed_restore i cfg cfg' ps :
  crashed i cfg cfg' → (i < length (saved cfg))%nat → to_restore cfg' i ps → to_restore cfg i ps.
Proof.
  intros Hc Hi Hto. unfold to_restore in *.
  destruct (c_saved _ _ _ Hc) as [[Hs Es]|(ref & ps0 & Hs & Hps & _ & Es)]; rewrite Es in Hto.
  - destruct Hto as [[_ ->]|(ref & Hs' & _)]; [by left|congruence].
  - rewrite list_lookup_insert_eq in Hto by done. destruct Hto as [[? _]|(ref' & [= <-] & Hps')]; [done|].
    right. exists ref. split; [done|]. cbn in Hps'. by injection Hps' as <-.
Qed.

Lemma crashed_loadable i cfg cfg' : crashed i cfg cfg' → loadable cfg i → loadable cfg' i.
Proof.
  intros Hc Hl ref ps. destruct (c_saved _ _ _ Hc) as [[Hs Es]|(ref0 & ps0 & Hs & Hps & _ & Es)]; rewrite Es; [congruence|].
  intros [(_ & [= <-] & _)|[? _]]%list_lookup_insert_Some Hps'; [|done]. cbn in Hps'. injection Hps' as <-. by eapply Hl.
Qed.

Lemma crashed_length i cfg cfg' : crashed i cfg cfg' → length (objects cfg') = length (objects cfg).
Proof. intros Hc. rewrite (c_objects _ _ _ Hc). destruct (rafts cfg !! i) as [[o|]|]; by rewrite ?length_alter. Qed.

Record started i now cfg cfg' : Prop := {
  s_instance : ∃ ps rf gs, to_restore cfg i ps ∧ Make (cfg_n cfg) i ps now = Some (rf, gs) ∧
    rafts cfg' !! i = Some (Some (length (objects cfg))) ∧
    objects cfg' !! length (objects cfg) = Some rf;
  s_old o : rafts cfg !! i = Some (Some o) → objects cfg' !! o = Kill <$> objects cfg !! o;
  s_conn : connected cfg' = <[i := false]> (connected cfg) ∧ cfg_n cfg' = cfg_n cfg ∧
    length (endnames cfg') = length (endnames cfg)
}.

Lemma start1_Ok n cfg i names srv now :
  wired n cfg → healthy n cfg → (i < n)%nat → fresh_names n (cfg_net cfg) names → loadable cfg i →
  ∃ cfg', start1 i names srv now cfg = Ok cfg' ∧ wired n cfg' ∧ healthy n cfg' ∧ started i now cfg cfg'.
Proof.
  intros Hw Hh Hi Hfr Hload. unfold start1.
  destruct (crash1_Ok n cfg i Hw Hh Hi) as (cfg1 & -> & Hw1 & Hh1 & Hc). cbn [mbind result_bind].
  destruct (c_same _ _ _ Hc) as (En & Em & El & Ea & Ee). destruct (h_len _ _ Hh) as (Hlr & Hls & Hll & Hla).
  pose proof (w_n _ _ Hw) as (Hn & Hlc & Hle). pose proof (w_n _ _ Hw1) as (_ & _ & Hle1).
  destruct (start_wired n cfg1 i names Hw1 Hi) as (rn & Hm & Hw2).
  { rewrite (c_conn _ _ _ Hc). apply list_lookup_insert_eq. lia. }
  { unfold fresh_names in *. by rewrite Ee. }
  unfold set_at, set_index. rewrite decide_True by lia. cbn [or_panic mbind result_bind].
  change (cfg_net (_ <| endnames := _ |>)) with (cfg_net cfg1). rewrite Hm. cbn [mbind result_bind].
  set (cfg2 := cfg1 <| endnames := _ |> <| cfg_net := rn |>) in *.
  rewrite decide_True by (change (cfg_lastApplied cfg2) with (cfg_lastApplied cfg1); rewrite Ea; lia).
  cbn [or_panic mbind result_bind]. set (cfg3 := cfg2 <| cfg_lastApplied := _ |>).
  assert (healthy n cfg3) as Hh3 by (eapply healthy_same; [exact Hh1|done..|cbn; by rewrite length_insert]).
  assert (rafts cfg3 !! i = Some None) as Hr3.
  { change (rafts cfg3) with (rafts cfg1). rewrite (c_rafts _ _ _ Hc). apply list_lookup_insert_eq. lia. }
  destruct (prepare_saved_Ok n cfg3 i Hh3 Hi) as (cfg4 & ps & -> & Hto & Hre & (ls & la & Hsa & Hl1 & Hl2)).
  { exact (crashed_loadable _ _ _ Hc Hload). }
  cbn [mbind result_bind].
  assert (healthy n cfg4) as Hh4.
  { eapply healthy_same; [exact (healthy_owned n cfg3 i ps Hh3 Hre Hi Hr3)|by rewrite Hsa..]. }
  destruct (make_instance_Ok n cfg4 i ps now Hh4 Hi) as (rf & -> & Hmk & Hd); [by rewrite Hsa| |done|].
  { rewrite Hsa. cbn. apply list_lookup_insert_eq. change (saved cfg3) with (saved cfg1).
    destruct (h_len _ _ Hh1) as (_ & -> & _). lia. }
  cbn [mbind result_bind]. eexists. split; [reflexivity|].
  assert (objects cfg4 = objects cfg1) as Eo by (by rewrite Hsa).
  pose proof (crashed_length _ _ _ Hc) as Elo.
  split; [|split].
  - eapply wired_same; [exact Hw2|by rewrite Hsa..].
  - eapply healthy_same; [exact (healthy_made n cfg4 i rf Hh4 Hd Hi)|done..].
  - split.
    + exists ps, rf, [GoTicker; GoApplyCommitted]. split; [|split; [|split]].
      * eapply crashed_restore; [exact Hc|lia|]. exact Hto.
      * rewrite <- Hmk. f_equal. rewrite Hsa. cbn. by rewrite Em.
      * cbn. rewrite Hsa at 2. cbn. change (rafts cfg3) with (rafts cfg1). rewrite Eo, Elo.
        apply list_lookup_insert_eq. destruct (h_len _ _ Hh1) as (-> & _). lia.
      * cbn. rewrite Eo, <- Elo. by rewrite lookup_app_r, Nat.sub_diag by lia.
    + intros o Ho. cbn. rewrite Eo. destruct (h_raft _ _ Hh _ _ Ho) as [Hlt _].
      rewrite lookup_app_l by lia. rewrite (c_objects _ _ _ Hc), Ho. apply list_lookup_alter_eq.
    + split; [|split]; rewrite Hsa; cbn.
      * apply (c_conn _ _ _ Hc).
      * exact Em.
      * by rewrite length_insert, En.
Qed.

(** ** Every state of the harness *)

(** The appliers move only what they check. *)
Definition checked_only cfg cfg' : Prop :=
  ∃ ls la mi, cfg' = cfg <| logs := ls |> <| cfg_lastApplied := la |> <| maxIndex := mi |> ∧
    length ls = length (logs cfg) ∧ length la = length (cfg_lastApplied cfg).

Lemma checked_refl cfg : checked_only cfg cfg.
Proof. exists (logs cfg), (cfg_lastApplied cfg), (maxIndex cfg). by destruct cfg. Qed.

Lemma checked_trans cfg1 cfg2 cfg3 : checked_only cfg1 cfg2 → checked_only cfg2 cfg3 → checked_only cfg1 cfg3.
Proof.
  intros (ls & la & mi & -> & H1' & H2') (ls' & la' & mi' & -> & H3' & H4'). exists ls', la', mi'. cbn in *.
  split; [done|]. split; congruence.
Qed.

Lemma checked_logs cfg ls : length ls = length (logs cfg) → checked_only cfg (cfg <| logs := ls |>).
Proof. intros Hl. exists ls, (cfg_lastApplied cfg), (maxIndex cfg). by destruct cfg. Qed.

Lemma checked_applied cfg la :
  length la = length (cfg_lastApplied cfg) → checked_only cfg (cfg <| cfg_lastApplied := la |>).
Proof. intros Hl. exists (logs cfg), la, (maxIndex cfg). by destruct cfg. Qed.

Lemma set_at_Ok {A} i (v : A) l l' : set_at i v l = Ok l' → length l' = length l.
Proof. unfold set_at. intros [_ ->]%or_panic_Ok%set_index_inv. by rewrite length_insert. Qed.

Lemma checkLogs_frame i (m : ApplyMsg C) cfg cfg' err prevok :
  checkLogs sprint i m cfg = Ok (cfg', err, prevok) → checked_only cfg cfg'.
Proof.
  unfold checkLogs. intros (log & _ & (ls & Hls%set_at_Ok & [= <- _ _])%bind_Ok)%bind_Ok.
  eapply checked_trans; [by apply checked_logs|]. case_decide; [|apply checked_refl].
  exists ls, (cfg_lastApplied cfg), (CommandIndex m). done.
Qed.

Lemma fatal_if_Ok err cfg cfg' : fatal_if err cfg = Ok cfg' → cfg' = cfg.
Proof. unfold fatal_if. case_decide; [done|]. by intros [= ->]. Qed.

Lemma applier_frame i (m : ApplyMsg C) cfg cfg' :
  applier sprint i m cfg = Ok cfg' → checked_only cfg cfg'.
Proof.
  unfold applier. case_decide; [intros [= <-]; apply checked_refl|].
  intros ([[cfg1 err] prevok] & Hc%checkLogs_frame & ->%fatal_if_Ok)%bind_Ok. done.
Qed.

Lemma ingestSnap_frame i snapshot index cfg cfg' err :
  ingestSnap i snapshot index cfg = Ok (cfg', err) → checked_only cfg cfg'.
Proof.
  unfold ingestSnap. destruct snapshot as [snapshot|]; [|done]. destruct (Decode snapshot) as [[li xlog]|]; [|done].
  case_decide; [intros [= <- _]; apply checked_refl|].
  intros (ls & Hls%set_at_Ok & (la & Hla%set_at_Ok & [= <- _])%bind_Ok)%bind_Ok.
  eapply checked_trans; [by apply checked_logs|by apply checked_applied].
Qed.

Lemma applierSnap_frame i snap_nil (m : ApplyMsg C) cfg cfg' snap :
  applierSnap sprint i snap_nil m cfg = Ok (cfg', snap) → checked_only cfg cfg'.
Proof.
  unfold applierSnap. destruct (SnapshotValid m).
  { intros ([cfg1 err] & Hi%ingestSnap_frame & (cfg2 & ->%fatal_if_Ok & [= <- _])%bind_Ok)%bind_Ok. done. }
  destruct (CommandValid m); [|intros [= <- _]; apply checked_refl].
  intros (la & _ & ([cfg1 err] & Hc & (la' & Hla%set_at_Ok & (s & _ & (cfg2 & ->%fatal_if_Ok & [= <- _])%bind_Ok)%bind_Ok)%bind_Ok)%bind_Ok)%bind_Ok.
  assert (checked_only cfg cfg1) as H1'; [|eapply checked_trans; [exact H1'|by apply checked_applied]].
  case_decide; [injection Hc as <- _; apply checked_refl|].
  apply bind_Ok in Hc as ([[cfg3 err'] prevok] & Hx%checkLogs_frame & [= <- _]). done.
Qed.

Lemma new_config_ok n unreliable : wired n (new_config (C:=C) n unreliable) ∧ healthy n (new_config (C:=C) n unreliable).
Proof.
  assert (∀ i j x, current (new_config (C:=C) n unreliable) i j ≠ Some x) as Hno.
  { intros i j x. unfold current, new_config. cbn. intros (row & [-> _]%lookup_replicate & Hx)%bind_Some. done. }
  split; split; cbn; rewrite ?length_replicate; try done.
  - intros i names [? _]%lookup_replicate. done.
  - intros i j i' j' x Hx. by apply Hno in Hx.
  - intros i [? _]%lookup_replicate. done.
  - intros i j x Hx. by apply Hno in Hx.
  - intros i j x ci cj Hx. by apply Hno in Hx.
  - intros x [? He] _. by rewrite lookup_empty in He.
  - intros i o [? _]%lookup_replicate. done.
  - intros i ref [? _]%lookup_replicate. done.
Qed.

Lemma healthy_raft n cfg o rf' :
  healthy n cfg → durable rf' → healthy n (cfg <| objects := <[o := rf']> (objects cfg) |>).
Proof.
  intros [Hl Ho Hr Hs] Hd. split; cbn; rewrite ?length_insert; try done.
  intros o1 rf1 [(_ & <- & _)|[_ Hk]]%list_lookup_insert_Some; [done|by apply Ho in Hk].
Qed.

Lemma hexec_ok n cfg op cfg' :
  wired n cfg → healthy n cfg → allowed n cfg op → hexec op cfg = Ok cfg' → wired n cfg' ∧ healthy n cfg'.
Proof.
  intros Hw Hh Ha Hx. destruct op as [i|i|i|i names srv now|o op|i m|i snap_nil m]; cbn [hexec allowed] in Ha, Hx.
  - destruct (connect_Ok n cfg i Hw Ha) as (rn & Hc & Hw'). rewrite Hc in Hx. injection Hx as <-.
    split; [done|by eapply healthy_same].
  - destruct (disconnect_Ok n cfg i Hw Ha) as (rn & Hc & _ & Hw'). rewrite Hc in Hx. injection Hx as <-.
    split; [done|by eapply healthy_same].
  - destruct (crash1_Ok n cfg i Hw Hh Ha) as (cfg1 & Hc & ? & ? & _). rewrite Hc in Hx. by injection Hx as <-.
  - destruct Ha as (Hi & Hf & Hl).
    destruct (start1_Ok n cfg i names srv now Hw Hh Hi Hf Hl) as (cfg1 & Hc & ? & ? & _). rewrite Hc in Hx. by injection Hx as <-.
  - apply bind_Ok in Hx as (rf & Hrf%or_panic_Ok & (rf' & Hop%or_panic_Ok & [= <-])%bind_Ok).
    split; [by eapply wired_same|]. apply healthy_raft; [done|].
    eapply exec_op_durable; [by apply (h_object _ _ Hh) in Hrf|exact Hop].
  - apply applier_frame in Hx as (ls & la & mi & -> & ? & ?). split; [by eapply wired_same|by eapply healthy_same].
  - apply bind_Ok in Hx as ([cfg1 snap] & (ls & la & mi & -> & ? & ?)%applierSnap_frame & [= <-]).
    split; [by eapply wired_same|by eapply healthy_same].
Qed.

Lemma harness_reach_ok n cfg : harness_reach n cfg → wired n cfg ∧ healthy n cfg.
Proof.
  induction 1 as [unreliable|cfg op cfg' _ [Hw Hh] Ha Hx]; [apply new_config_ok|by eapply hexec_ok].
Qed.

(** In every state of the harness the end from a started server to another is
    enabled exactly when both are connected, and leads there; every other end
    that was ever made is disabled. *)
Theorem harness_wiring n cfg i j names ci cj :
  harness_reach n cfg → endnames cfg !! i = Some (Some names) → (j < n)%nat →
  connected cfg !! i = Some ci → connected cfg !! j = Some cj →
  ∃ x, names !! j = Some x ∧
    i_enabled (readEndnameInfo (inl x) (cfg_net cfg)) = ci && cj ∧
    i_servername (readEndnameInfo (inl x) (cfg_net cfg)) = Some (server_name j) ∧
    ∀ y, is_Some (ends (cfg_net cfg) !! inl y) → (∀ k l, current cfg k l ≠ Some y) →
      i_enabled (readEndnameInfo (inl y) (cfg_net cfg)) = false.
Proof.
  intros [Hw Hh]%harness_reach_ok Hi Hj Hci Hcj.
  destruct (lookup_lt_is_Some_2 names j) as [x Hx]; [by rewrite (w_row _ _ Hw _ _ Hi)|]. exists x. split; [done|].
  assert (current cfg i j = Some x) as Hcur by (unfold current; by rewrite Hi).
  unfold readEndnameInfo. cbn. rewrite (w_enabled _ _ Hw _ _ _ _ _ Hcur Hci Hcj).
  destruct (w_end _ _ Hw _ _ _ Hcur) as [_ ->]. split; [done|]. split; [done|].
  intros y Hy Hno. by rewrite (w_old _ _ Hw y Hy Hno).
Qed.

(** A restart never fails, and the new instance has the term, vote, log and
    snapshot the running one had, whatever [Kill] wrote to its persister. *)
Theorem harness_restart n cfg i o rf names srv now :
  harness_reach n cfg → rafts cfg !! i = Some (Some o) → objects cfg !! o = Some rf →
  fresh_names n (cfg_net cfg) names → loadable cfg i →
  ∃ cfg' o' rf', start1 i names srv now cfg = Ok cfg' ∧
    rafts cfg' !! i = Some (Some o') ∧ objects cfg' !! o' = Some rf' ∧
    persistentState rf' = persistentState rf ∧ snapshot rf' = snapshot rf ∧ status rf' = Follower ∧
    objects cfg' !! o = Some (Kill rf) ∧ connected cfg' !! i = Some false.
Proof.
  intros [Hw Hh]%harness_reach_ok Ho Hrf Hfr Hl.
  assert (i < n)%nat as Hi by (destruct (h_len _ _ Hh) as (<- & _); by eapply lookup_lt_Some).
  destruct (start1_Ok n cfg i names srv now Hw Hh Hi Hfr Hl) as (cfg' & Hx & _ & _ & [Hnew Hold (Hcn & _)]).
  destruct Hnew as (ps & rf' & gs & Hto & Hm & Hr' & Ho'). exists cfg', (length (objects cfg)), rf'.
  destruct (h_raft _ _ Hh _ _ Ho) as [_ Hs]. destruct (h_object _ _ Hh _ _ Hrf) as [Hst Hsn].
  assert (ps = persister rf) as ->.
  { destruct Hto as [[? _]|(ref & Hs' & Hps)]; [congruence|]. rewrite Hs in Hs'. injection Hs' as <-.
    cbn in Hps. rewrite Hrf in Hps. cbn in Hps. by injection Hps. }
  destruct (Make_stored (cfg_n cfg) i _ now _ Hst) as (r & Hm' & Hps & Hsn' & _ & Hrole & _).
  rewrite Hm' in Hm. injection Hm as -> _. split_and!; try done; [by rewrite Hsn'|by rewrite (Hold o Ho), Hrf|].
  rewrite Hcn. apply list_lookup_insert_eq. destruct (w_n _ _ Hw) as (_ & -> & _). done.
Qed.
End RaftHarnessNet.
