(* ===== verification/RaftHarnessChecks.v ===== *)
(** * RaftHarnessChecks: the check for one leader never fails the test

    [checkOneLeader] asks the connected servers one after the other, while the
    cluster goes on.  Two servers that say they lead one term would end the
    test; this does not happen in the runs of [RaftElection], and the server it
    returns led the highest term any of them led. *)
From stdpp Require Import base gmap fin_sets strings list_numbers option list.
From Stdlib Require Import ZArith Lia.
From S2P Require Import Prelude Labgob Labrpc RaftTypes Raft RaftNode RaftCluster RaftElection RaftGhost RaftAgreement RaftHarness.
#[local] Open Scope Z_scope.

Section RaftHarnessChecks.
Context {C : Type} `{GobLaws (PersistentState C)}.
Notation Raft := (Raft C).
Notation World := (@World C).
Notation Samples := (list (nat * (Z * bool))).
Implicit Types (rf : Raft) (w : World) (ss : Samples) (i p q : nat) (t : Z) (b : Ballots) (leaders : gmap Z (list nat)).

(** Servers are asked for their state while the cluster runs. *)
Inductive asked : Ballots → World → Samples → Ballots → World → Prop :=
  | asked_nil b w : asked b w [] b w
  | asked_event b w e w' ss b' w'' :
      exec w e = Some w' → ¬ revotes b w' → asked (record_votes w' b) w' ss b' w'' → asked b w ss b' w''
  | asked_read b w p rf ss b' w' :
      nodes w !! p = Some rf → asked b w ss b' w' → asked b w ((p, GetState rf) :: ss) b' w'.

(** ** Terms never go back *)

Lemma reach_terms n b w p rf : reach n b w → nodes w !! p = Some rf → 0 <= CurrentTerm rf.
Proof.
  intros Hr. revert p rf. induction Hr as [w Hb|b w e w' Hr IH Hx Hone]; intros p rf' Hp.
  - apply boot_nodes in Hb as (_ & _ & _ & Hn). destruct (Hn _ _ Hp) as [gs Hm]. cbn in Hm. by injection Hm as <- _.
  - destruct (exec_nodes _ _ _ _ _ Hx Hp) as (rf & Hp0 & Hcase). pose proof (IH _ _ Hp0) as H0t.
    destruct Hcase as [->|[(op & Ho & _)|(now & gs & Hm & _)]]; [done|destruct (exec_op_term _ _ _ Ho); lia|].
    apply reach_inv in Hr as Hinv. destruct (inv_node _ _ _ Hinv _ _ Hp0) as (_ & _ & [Hst _] & _).
    destruct (Make_stored (peers rf) (me rf) _ now _ Hst) as (r & Hm' & Hps & _). rewrite Hm' in Hm. injection Hm as -> _.
    unfold persistentState in Hps. injection Hps as -> _ _ _ _. done.
Qed.

(** ** Leaders of a term, at any time *)

Definition led n b p t : Prop := ∃ Q, quorum n Q ∧ ∀ q, q ∈ Q → b !! (q, t) = Some (Z.of_nat p).

Lemma led_unique n b p q t : led n b p t → led n b q t → p = q.
Proof.
  intros (Q1 & HQ1 & H1) (Q2 & HQ2 & H2). destruct (quorums_meet _ _ _ HQ1 HQ2) as (r & Hr1 & Hr2).
  specialize (H1 r Hr1). specialize (H2 r Hr2). rewrite H1 in H2. injection H2. lia.
Qed.

Lemma led_mono n b b' p t : b ⊆ b' → led n b p t → led n b' p t.
Proof. intros Hb (Q & HQ & Hq). exists Q. split; [done|]. intros q Hin. by eapply lookup_weaken, Hb; apply Hq. Qed.

Lemma asked_led n b w ss b' w' :
  reach n b w → asked b w ss b' w' →
  b ⊆ b' ∧ ∀ p t, (p, (t, true)) ∈ ss → led n b' p t ∧ 0 <= t.
Proof.
  intros Hr Ha. induction Ha as [b w|b w e w' ss b' w'' Hx Hone _ IH|b w p rf ss b' w' Hp _ IH].
  - split; [done|]. intros p t Hin. by apply elem_of_nil in Hin.
  - destruct (record_grown _ _ Hone) as [Hb1 _].
    destruct IH as [Hb' Hss]; [by eapply reach_exec|]. split; [by etrans|done].
  - destruct (IH Hr) as [Hb' Hss]. split; [done|].
    intros q t [Heq|Hin]%elem_of_cons; [|by apply Hss]. unfold GetState in Heq. injection Heq as -> -> Hl.
    symmetry in Hl. apply bool_decide_eq_true in Hl. split; [|by eapply reach_terms].
    eapply led_mono; [exact Hb'|]. eapply leader_quorum; [by eapply reach_inv|done|done].
Qed.

(** ** The map of leaders *)

(** Who said it leads term [t], in order. *)
Definition said ss t : list nat :=
  omap (λ s, let '(i, (term, leader)) := s in if decide (leader = true ∧ term = t) then Some i else None) ss.

Lemma elem_of_said ss t i : i ∈ said ss t ↔ (i, (t, true)) ∈ ss.
Proof.
  unfold said. rewrite list_elem_of_omap. split.
  - intros ([j [term leader]] & Hin & Hx). case_decide as Hd; [|done]. injection Hx as ->. destruct Hd as [-> ->]. done.
  - intros Hin. exists (i, (t, true)). split; [done|]. by rewrite decide_True.
Qed.

Lemma leaders_of_snoc ss i t leader :
  leaders_of (ss ++ [(i, (t, leader))]) =
  if leader : bool then <[t := default [] (leaders_of ss !! t) ++ [i]]> (leaders_of ss) else leaders_of ss.
Proof. unfold leaders_of. by rewrite foldl_app. Qed.

Lemma leaders_of_said ss t :
  default [] (leaders_of ss !! t) = said ss t ∧ (is_Some (leaders_of ss !! t) ↔ said ss t ≠ []).
Proof.
  induction ss as [|[i [term leader]] ss IH] using rev_ind; [split; [done|]; split; [by intros [? ?]|done]|].
  destruct IH as [IH1 IH2]. unfold said in *. rewrite leaders_of_snoc, omap_app. cbn [omap list_omap].
  destruct leader; cbn; [|rewrite decide_False by (by intros [? _]); by rewrite app_nil_r].
  destruct (decide (term = t)) as [->|Hne].
  - rewrite lookup_insert_eq, decide_True, IH1 by done. cbn. split; [done|]. split; [|by eexists].
    intros _ Hnil. by apply app_eq_nil in Hnil as [_ ?].
  - rewrite lookup_insert_ne, decide_False, app_nil_r by (done || naive_solver). done.
Qed.

(** ** One iteration *)
Lemma last_term_fold leaders order t0 :
  (∀ t, t ∈ order → (length (default [] (leaders !! t)) ≤ 1)%nat) →
  ∃ last, last_term_with_leader leaders order t0 = Ok last ∧
    (last = t0 ∨ last ∈ order) ∧ t0 <= last ∧ ∀ t, t ∈ order → t <= last.
Proof.
  revert t0. induction order as [|t order IH]; intros t0 Hl.
  { exists t0. split; [done|]. split; [by left|]. split; [lia|]. intros t Ht. by apply elem_of_nil in Ht. }
  cbn [last_term_with_leader].
  rewrite decide_False by (pose proof (Hl t ltac:(by left)); unfold len; lia).
  destruct (IH (if decide (t > t0) then t else t0)) as (last & Hf & Hin & Hle & Hmax).
  { intros t' Ht'. apply Hl. by right. }
  exists last. split; [exact Hf|]. case_decide.
  - split; [right; destruct Hin as [->|?]; [by left|by right]|]. split; [lia|].
    intros t' [->|?]%elem_of_cons; [lia|auto].
  - split; [destruct Hin; [by left|right; by right]|]. split; [lia|].
    intros t' [->|?]%elem_of_cons; [lia|auto].
Qed.

(** One iteration of [checkOneLeader] never fails the test, whatever happens
    between the questions and in whatever order the terms are looked at.  It
    gives a server that led the highest term any of them led, and nobody else
    asked said it led that term; it gives none if nobody said it leads. *)
Theorem checkOneLeader_passes n b w ss b' w' order :
  reach n b w → asked b w ss b' w' → NoDup ss.*1 → (∀ t, t ∈ order ↔ is_Some (leaders_of ss !! t)) →
  ∃ r, one_leader order (leaders_of ss) = Ok r ∧
    match r with
    | Some i => ∃ t, (i, (t, true)) ∈ ss ∧ ∀ j t', (j, (t', true)) ∈ ss → t' <= t ∧ (t' = t → j = i)
    | None => ∀ j t', (j, (t', true)) ∉ ss
    end.
Proof.
  intros Hr Ha Hnd Hord. destruct (asked_led _ _ _ _ _ _ Hr Ha) as [_ Hled].
  assert (∀ t i j, i ∈ said ss t → j ∈ said ss t → i = j) as Huniq.
  { intros t i j Hi%elem_of_said Hj%elem_of_said. eapply led_unique; by apply Hled. }
  assert (∀ t, NoDup (said ss t)) as Hnds.
  { intros t. clear -Hnd. induction ss as [|[i [term leader]] ss IH]; [constructor|].
    cbn in Hnd. apply NoDup_cons in Hnd as [Hn Hnd]. unfold said in *. cbn. case_decide; [|by apply IH].
    apply NoDup_cons. split; [|by apply IH]. intros Hin%elem_of_said. apply Hn.
    apply list_elem_of_fmap. by exists (i, (t, true)). }
  destruct (last_term_fold (leaders_of ss) order (-1)) as (last & Hf & Hin & _ & Hmax).
  { intros t _. rewrite (proj1 (leaders_of_said ss t)). specialize (Hnds t). specialize (Huniq t).
    destruct (said ss t) as [|i [|j l]]; cbn; [lia|lia|]. exfalso.
    apply NoDup_cons in Hnds as [Hn _]. apply Hn. rewrite (Huniq i j); [by left|by left|right; by left]. }
  unfold one_leader. rewrite Hf. cbn [mbind result_bind]. case_decide as He.
  - exists None. split; [done|]. intros j t Hj. destruct (leaders_of_said ss t) as [_ Hs].
    destruct (proj2 Hs) as [x Hx]; [|by rewrite He, lookup_empty in Hx].
    apply elem_of_said in Hj. by destruct (said ss t); [apply elem_of_nil in Hj|].
  - apply map_choose in He as (t & ls & Ht). assert (t ∈ order) as Hto by (apply Hord; by eexists).
    assert (0 <= t) as H0t.
    { destruct (leaders_of_said ss t) as [_ Hs]. destruct (said ss t) as [|i l] eqn:Es; [by destruct (proj1 Hs (ex_intro _ _ Ht))|].
      apply (Hled i). apply elem_of_said. rewrite Es. by left. }
    assert (last ∈ order) as Hlo by (destruct Hin as [->|?]; [specialize (Hmax t Hto); lia|done]).
    destruct (leaders_of_said ss last) as [-> Hs]. apply Hord, Hs in Hlo.
    destruct (said ss last) as [|i l] eqn:Es; [done|]. exists (Some i). split; [done|].
    exists last. split; [apply elem_of_said; rewrite Es; by left|]. intros j t' Hj. split.
    + apply Hmax, Hord. apply leaders_of_said. apply elem_of_said in Hj. by destruct (said ss t'); [apply elem_of_nil in Hj|].
    + intros ->. apply elem_of_said in Hj. apply (Huniq last); [done|]. rewrite Es. by left.
Qed.

(** ** Agreements *)
Section Agreement.
Context `{EqDecision C} (sprint : option C → string).
Implicit Types (cfg : config C) (cmd : option C) (index : Z).

(** What server [i] committed for an index. *)
Definition committed cfg i index : option (option C) := log ← logs cfg !! i; log !! index.

Lemma nCommitted_loop_Ok index i k (count count' : Z) cmd cmd' cfg :
  nCommitted_loop sprint index i k count cmd cfg = Ok (count', cmd') → 0 <= count →
  ∃ hs, count' = count + len hs ∧ NoDup hs ∧ (∀ j, j ∈ hs → (i ≤ j)%nat ∧ committed cfg j index = Some cmd') ∧
    (0 < count → cmd' = cmd).
Proof.
  revert i count cmd. induction k as [|k IH]; intros i count cmd Hn Hc; cbn [nCommitted_loop] in Hn.
  { injection Hn as <- <-. exists []. split; [unfold len; cbn; lia|]. split; [constructor|].
    split; [|done]. intros j Hj. by apply elem_of_nil in Hj. }
  apply bind_Ok in Hn as (err & _ & Hn). case_decide; [done|].
  apply bind_Ok in Hn as (log & Hlog%or_panic_Ok & Hn). destruct (log !! index) as [v|] eqn:Hv.
  - case_decide as Hd; [done|]. destruct (IH _ _ _ Hn) as (hs & -> & Hnd & Hhs & Hcmd); [lia|].
    assert (cmd' = v) as -> by (apply Hcmd; lia). exists (i :: hs). rewrite len_cons.
    split; [lia|]. split; [|split].
    + apply NoDup_cons. split; [|done]. intros Hin. apply Hhs in Hin as [? _]. lia.
    + intros j [->|Hj]%elem_of_cons; [split; [lia|]; unfold committed; by rewrite Hlog|].
      destruct (Hhs _ Hj). split; [lia|done].
    + intros Hpos. destruct (decide (cmd = v)) as [|Hne]; [done|]. destruct Hd. split; [lia|done].
  - destruct (IH _ _ _ Hn Hc) as (hs & -> & Hnd & Hhs & Hcmd). exists hs. split; [done|]. split; [done|].
    split; [|done]. intros j Hj. destruct (Hhs _ Hj). split; [lia|done].
Qed.

Lemma one_scan_answer fuel n starts answer index starts' :
  one_scan fuel n starts answer = (index, starts') → index ≠ -1 → ∃ i, answer i = Some (index, true).
Proof.
  revert starts. induction fuel as [|fuel IH]; intros starts Hs Hi; cbn [one_scan] in Hs; [congruence|].
  destruct (answer (S starts mod n)%nat) as [[index1 []]|] eqn:Ha; [|by eapply IH|by eapply IH].
  injection Hs as <- <-. by eexists.
Qed.

Lemma one_polls_true cmd index (expectedServers : Z) polls :
  one_polls sprint cmd index expectedServers polls = Ok true →
  ∃ cfg nd, cfg ∈ polls ∧ nCommitted sprint index cfg = Ok (nd, cmd) ∧ 0 < nd ∧ expectedServers <= nd.
Proof.
  induction polls as [|cfg polls IH]; cbn [one_polls]; [done|]. intros ([nd cmd1] & Hn & Hp)%bind_Ok.
  case_decide as Hd.
  - destruct Hd as [[? ?] ->]. exists cfg, nd. split; [by left|]. split; [done|lia].
  - destruct (IH Hp) as (cfg' & nd' & Hin & ?). exists cfg', nd'. split; [by right|done].
Qed.

(** [one] returns an index only if a server accepted the command for it, as the
    leader, and later as many servers as expected, and at least one, had
    committed the command there. *)
Theorem one_agreement cmd (expectedServers : Z) retry n starts rounds finished index :
  one sprint cmd expectedServers retry n starts rounds finished = Ok index → index ≠ -1 →
  ∃ answer polls i cfg hs, (answer, polls) ∈ rounds ∧ answer i = Some (index, true) ∧ cfg ∈ polls ∧
    NoDup hs ∧ hs ≠ [] ∧ expectedServers <= len hs ∧ ∀ j, j ∈ hs → committed cfg j index = Some cmd.
Proof.
  revert starts. induction rounds as [|[answer polls] rounds IH]; intros starts Ho Hi; cbn [one] in Ho.
  { destruct finished; [|done]. congruence. }
  assert (∀ starts', one sprint cmd expectedServers retry n starts' rounds finished = Ok index →
    ∃ answer0 polls0 i cfg hs, (answer0, polls0) ∈ (answer, polls) :: rounds ∧ answer0 i = Some (index, true) ∧ cfg ∈ polls0 ∧
    NoDup hs ∧ hs ≠ [] ∧ expectedServers <= len hs ∧ ∀ j, j ∈ hs → committed cfg j index = Some cmd) as Hrest.
  { intros starts' Ho'. destruct (IH _ Ho' Hi) as (a & ps & i & cfg & hs & Hin & ?).
    exists a, ps, i, cfg, hs. split; [by right|done]. }
  destruct (one_scan n n starts answer) as [index1 starts1] eqn:Hs.
  case_decide as Hne; [|by eapply Hrest]. apply bind_Ok in Ho as (agreed & Hp & Ho).
  destruct agreed; [|destruct retry; [by eapply Hrest|done]]. injection Ho as ->.
  destruct (one_scan_answer _ _ _ _ _ _ Hs Hne) as [i Ha].
  destruct (one_polls_true _ _ _ _ Hp) as (cfg & nd & Hin & Hn & Hpos & Hle).
  destruct (nCommitted_loop_Ok _ _ _ _ _ _ _ _ Hn ltac:(lia)) as (hs & -> & Hnd & Hhs & _).
  exists answer, polls, i, cfg, hs. split; [by left|]. split; [done|]. split; [done|]. split; [done|].
  split; [by intros ->; cbn in Hpos; unfold len in Hpos; cbn in Hpos; lia|]. split; [lia|].
  intros j Hj. by apply Hhs.
Qed.
End Agreement.
End RaftHarnessChecks.
