(* ===== verification/RaftHarnessEnd.v ===== *)
(** * RaftHarnessEnd: statistics of a Raft test, and its end

    [begin] and [end] of [src/src/raft/config.go] print what happened between
    them; [cleanup] ends a test.  The file shows that [cleanup] kills every peer
    that runs and keeps what can be restored, and that the agreements printed
    are the indices above the highest one that was known at [begin]. *)
From Stdlib Require Import ZArith Lia.
From stdpp Require Import base gmap strings list_numbers option list.
From S2P Require Import Prelude Labgob Labrpc RaftTypes Raft RaftNode RaftCluster RaftHarness RaftHarnessApply RaftHarnessNet.
#[local] Open Scope Z_scope.
#[local] Open Scope go_scope.

(** What a [config] remembers of the time and of the numbers at [begin]. *)
Record Stats := mkStats { start : Z; t0 : Z; rpcs0 : Z; cmds0 : Z; bytes0 : Z; maxIndex0 : Z }.

#[export] Instance upd_t0 : Upd t0 := λ x r, mkStats (start r) x (rpcs0 r) (cmds0 r) (bytes0 r) (maxIndex0 r).
#[export] Instance upd_rpcs0 : Upd rpcs0 := λ x r, mkStats (start r) (t0 r) x (cmds0 r) (bytes0 r) (maxIndex0 r).
#[export] Instance upd_cmds0 : Upd cmds0 := λ x r, mkStats (start r) (t0 r) (rpcs0 r) x (bytes0 r) (maxIndex0 r).
#[export] Instance upd_bytes0 : Upd bytes0 := λ x r, mkStats (start r) (t0 r) (rpcs0 r) (cmds0 r) x (maxIndex0 r).
#[export] Instance upd_maxIndex0 : Upd maxIndex0 := λ x r, mkStats (start r) (t0 r) (rpcs0 r) (cmds0 r) (bytes0 r) x.

Section RaftHarnessEnd.
Context {C : Type} `{EqDecision C} `{GobLaws (PersistentState C)} `{GobLaws (Z * list (option C))}.
Context (sprint : option C → string).
Notation config := (config C).
Notation ApplyMsg := (ApplyMsg C).
Implicit Types (cfg : config) (stats : Stats) (m : ApplyMsg) (D : list (nat * ApplyMsg)).

Definition rpcCount {rtype} (heap : gmap nat (Labrpc.Server rtype)) (server : nat) cfg : result Z :=
  GetCount heap (server_name server) (cfg_net cfg).

Definition rpcTotal cfg : Z := GetTotalCount (cfg_net cfg).
Definition bytesTotal cfg : Z := GetTotalBytes (cfg_net cfg).

Definition setunreliable (unrel : bool) cfg : config := cfg <| cfg_net := Reliable (negb unrel) (cfg_net cfg) |>.
Definition setlongreordering (longrel : bool) cfg : config := cfg <| cfg_net := LongReordering longrel (cfg_net cfg) |>.

(** Two minutes of real time, in nanoseconds; [failed] is [cfg.t.Failed()]. *)
Definition checkTimeout (failed : bool) (now : Z) stats : result unit :=
  if negb failed && bool_decide (now - start stats > 120 * 1000 * millisecond)
  then Fatal "test took longer than 120 seconds" else Ok tt.

Definition checkFinished (finished : Z) : bool := bool_decide (finished ≠ 0).

(** The loop of [cleanup] over [cfg.rafts]. *)
Fixpoint kill_all (rs : list (option nat)) cfg : result config :=
  match rs with
  | [] => Ok cfg
  | None :: rs => kill_all rs cfg
  | Some o :: rs =>
      rf ← or_panic (objects cfg !! o);
      kill_all rs (cfg <| objects := <[o := Kill rf]> (objects cfg) |>)
  end.

(** [cfg.finished] is 1 from the start; [net.Cleanup] only ends the goroutine of
    the network. *)
Definition cleanup (failed : bool) (now : Z) stats cfg : result (config * Z) :=
  let finished := 1 in
  cfg ← kill_all (rafts cfg) cfg;
  _ ← checkTimeout failed now stats;
  Ok (cfg, finished).

Definition begin (now : Z) stats cfg : Stats :=
  stats <| t0 := now |> <| rpcs0 := rpcTotal cfg |> <| bytes0 := bytesTotal cfg |> <| cmds0 := 0 |>
    <| maxIndex0 := maxIndex cfg |>.

(** The numbers printed, if the test did not fail: nanoseconds since [begin], the
    peers, the RPCs, the bytes and the agreements. *)
Definition end_ (failed : bool) (now : Z) stats cfg : result (option (Z * nat * Z * Z * Z)) :=
  _ ← checkTimeout failed now stats;
  Ok (if failed then None
      else Some (now - t0 stats, cfg_n cfg, rpcTotal cfg - rpcs0 stats,
        wrap64 (bytesTotal cfg - bytes0 stats), maxIndex cfg - maxIndex0 stats)).

(** ** Ending a test *)

Lemma Kill_dead (rf : Raft C) : dead (Kill rf) = true.
Proof. done. Qed.

(** The peers in [rs] are dead, the others as before. *)
Lemma kill_all_Ok n rs cfg :
  healthy n cfg → (∀ o, Some o ∈ rs → (o < length (objects cfg))%nat) →
  ∃ os, kill_all rs cfg = Ok (cfg <| objects := os |>) ∧ healthy n (cfg <| objects := os |>) ∧
    length os = length (objects cfg) ∧
    (∀ o rf, objects cfg !! o = Some rf → dead rf = true → ∃ rf', os !! o = Some rf' ∧ dead rf' = true) ∧
    (∀ o, Some o ∈ rs → ∃ rf', os !! o = Some rf' ∧ dead rf' = true).
Proof.
  revert cfg. induction rs as [|[o|] rs IH]; intros cfg Hh Hrs; cbn [kill_all].
  - exists (objects cfg). split_and!; [by destruct cfg|by destruct cfg|done|by eauto|by intros o ?%not_elem_of_nil].
  - destruct (lookup_lt_is_Some_2 (objects cfg) o) as [rf Hrf]; [apply Hrs; left|]. rewrite Hrf. cbn [or_panic mbind result_bind].
    set (os1 := <[o := Kill rf]> (objects cfg)). set (cfg1 := cfg <| objects := os1 |>).
    assert (objects cfg1 = os1) as Eos by done.
    assert (length (objects cfg1) = length (objects cfg)) as Elen by (rewrite Eos; apply length_insert).
    destruct (IH cfg1) as (os & Hk & Hh' & Hlen & Hold & Hnew).
    + apply healthy_raft; [done|]. by eapply durable_Kill, (h_object _ _ Hh).
    + intros o' Ho'. rewrite Elen. apply Hrs. by right.
    + exists os. split_and!; [exact Hk|exact Hh'|by rewrite Hlen| |].
      * intros o' rf' Ho' Hd. destruct (decide (o' = o)) as [->|Hne].
        -- eapply (Hold o (Kill rf)); [|done]. apply list_lookup_insert_eq. by eapply lookup_lt_Some.
        -- eapply Hold; [|done]. subst cfg1 os1. cbn. by rewrite list_lookup_insert_ne.
      * intros o' [[= ->]|Ho']%elem_of_cons; [|by apply Hnew].
        eapply (Hold o (Kill rf)); [|done]. apply list_lookup_insert_eq. by eapply lookup_lt_Some.
  - destruct (IH cfg Hh) as (os & ? & ? & ? & ? & Hnew); [intros o Ho; apply Hrs; by right|].
    exists os. split_and!; [done..|]. intros o [?|Ho]%elem_of_cons; [done|by apply Hnew].
Qed.

(** In any state of a test [cleanup] ends every peer that runs, in time or not,
    and what is saved of each can still be restored. *)
Theorem cleanup_kills n cfg failed now stats :
  harness_reach sprint n cfg →
  cleanup failed now stats cfg = Fatal "test took longer than 120 seconds" ∨
  ∃ cfg', cleanup failed now stats cfg = Ok (cfg', 1) ∧ checkFinished 1 = true ∧ healthy n cfg' ∧
    rafts cfg' = rafts cfg ∧
    ∀ i o, rafts cfg !! i = Some (Some o) → ∃ rf, objects cfg' !! o = Some rf ∧ dead rf = true.
Proof.
  intros [_ Hh]%harness_reach_ok. unfold cleanup.
  destruct (kill_all_Ok n (rafts cfg) cfg Hh) as (os & -> & Hh' & _ & _ & Hdead).
  { intros o [i Hi]%list_elem_of_lookup. by apply (h_raft _ _ Hh i). }
  cbn. unfold checkTimeout. destruct (negb failed && _); [by left|right].
  eexists. split_and!; [reflexivity|done|done|done|].
  intros i o Hi. apply Hdead. by eapply list_elem_of_lookup_2.
Qed.

(** ** What [end] prints *)

(** The highest index in a list of messages, if above [low]. *)
Definition highest (low : Z) D : Z :=
  foldl (λ hi x, if CommandValid x.2 then Z.max hi (CommandIndex x.2) else hi) low D.

Lemma checkLogs_maxIndex i m cfg cfg' err prevok :
  checkLogs sprint i m cfg = Ok (cfg', err, prevok) → maxIndex cfg' = Z.max (maxIndex cfg) (CommandIndex m).
Proof.
  unfold checkLogs. intros (log & _ & (logs' & _ & Hx)%bind_Ok)%bind_Ok. injection Hx as <- _ _.
  cbn. case_decide; cbn; lia.
Qed.

Lemma applier_maxIndex i m cfg cfg' :
  applier sprint i m cfg = Ok cfg' →
  maxIndex cfg' = if CommandValid m then Z.max (maxIndex cfg) (CommandIndex m) else maxIndex cfg.
Proof.
  unfold applier. destruct (CommandValid m); cbn; [|by intros [= <-]].
  intros ([[cfg1 err] prevok] & Hc%checkLogs_maxIndex & Hx%fatal_if_Ok)%bind_Ok. by subst cfg1.
Qed.

(** Between [begin] and [end] the agreements counted are those above the highest
    index known at [begin]; nothing else of what the appliers do is counted. *)
Theorem end_agreements D cfg cfg' stats now now' :
  run_appliers sprint D cfg = Ok cfg' → now' - start stats <= 120 * 1000 * millisecond →
  end_ false now' (begin now stats cfg) cfg'
  = Ok (Some (now' - now, cfg_n cfg, 0, 0, highest (maxIndex cfg) D - maxIndex cfg)).
Proof.
  intros Hrun Htime.
  assert (maxIndex cfg' = highest (maxIndex cfg) D ∧ cfg_n cfg' = cfg_n cfg ∧ cfg_net cfg' = cfg_net cfg)
    as (Emax & En & Enet).
  { revert cfg' Hrun. induction D as [|x D IH] using rev_ind; intros cfg' Hrun; [by injection Hrun as <-|].
    rewrite run_appliers_snoc in Hrun. apply bind_Ok in Hrun as (cfg1 & Hrun1 & Hx).
    destruct (IH cfg1 Hrun1) as (E1 & E2 & E3). unfold highest. rewrite foldl_app. cbn [foldl].
    fold (highest (maxIndex cfg) D). rewrite (applier_maxIndex _ _ _ _ Hx), E1. split; [done|].
    apply applier_frame in Hx as (ls & la & mi & -> & _). by rewrite <- E2, <- E3. }
  unfold end_, checkTimeout, rpcTotal, bytesTotal, begin. cbn. rewrite bool_decide_eq_false_2 by lia. cbn.
  rewrite Emax, En, Enet. unfold rpcTotal, bytesTotal. by rewrite !Z.sub_diag.
Qed.
End RaftHarnessEnd.
