(* ===== verification/RaftRuns.v ===== *)
(** * RaftRuns: concrete runs of the cluster

    Commands are integers and the codec is [countable_stream].  The runs show
    that the hypotheses of the cluster theorems hold on real executions, and
    two of them show what goes wrong when a peer votes twice in a term.  The corner
    cases at the end are situations where the code and its intent part. *)
From S2P Require Import Prelude Labgob RaftTypes Raft RaftNode RaftCluster RaftElection RaftLog RaftApply.
From stdpp Require Import base list list_numbers gmap option countable.
From Stdlib Require Import ZArith Lia.
From Stdlib Require Import Strings.Byte.
#[local] Open Scope Z_scope.

#[export] Instance Z_codec : GobStream (PersistentState Z) := countable_stream.
#[export] Instance Z_codec_laws : GobLaws (PersistentState Z) := countable_stream_laws.

Definition ms (t : Z) : Z := t * millisecond.

(** Peer [i] times out: 200 ms have passed since it last heard of a leader. *)
Definition timeout_of (i : nat) (t : Z) : @Event Z := ETick i (ms t) 0 (ms 200).

(** Peer 0 wins term 1 with the vote of peer 1. *)
Definition elect0 : list (@Event Z) :=
  [timeout_of 0 1000; EDeliver 0 (ms 1001); EDeliver 1 (ms 1002); EDrop 0].

(** It replicates one command to peer 1, commits, applies and snapshots it. *)
Definition commit_one : list (@Event Z) :=
  [EStart 0 7; EWorker 0 1; EDeliver 0 (ms 1003); EDeliver 0 (ms 1004); EDeliver 0 (ms 1005);
   EApply 0; ESnapshot 0 1 [Byte.x01]].

(** Peer 0 restarts; it and peer 1 stand in term 2, and peer 2 elects peer 0. *)
Definition split_term2 : list (@Event Z) :=
  [ERestart 0 (ms 2000); timeout_of 0 3000; timeout_of 1 3000;
   EDeliver 1 (ms 3001); EDeliver 3 (ms 3002)].

(** Peer 2 lacks the log, so peer 0 sends it the snapshot. *)
Definition install_on2 : list (@Event Z) :=
  [EWorker 0 2; EDeliver 3 (ms 3003); EDeliver 3 (ms 3004); EDeliver 3 (ms 3005);
   EWorker 0 2; EDeliver 3 (ms 3006); EDeliver 3 (ms 3007)].

(** The request of peer 1 reaches peer 2 only now. *)
Definition late_vote : list (@Event Z) := [EDeliver 2 (ms 3008); EDeliver 3 (ms 3009)].

(** ** Running them *)

Definition no_world : @World Z := mkWorld [] [] ∅.
Definition no_peer : Raft Z := mkRaft MakePersister 0 0 false 0 0 [] 0 0 false 0 [] Follower
  [] [] [] 0 0 false.

Definition after (es : list (@Event Z)) : @World Z :=
  default no_world (w ← boot 3; run es w).

Definition node_after (es : list (@Event Z)) (p : nat) : Raft Z :=
  default no_peer (nodes (after es) !! p).

Definition revotesb {C : Type} (b : Ballots) (w : @World C) : bool :=
  existsb (λ x, let '(p, rf) := x in
      negb (bool_decide (VotedFor rf = -1)) &&
      match b !! (p, CurrentTerm rf) with
      | Some c => negb (bool_decide (c = VotedFor rf))
      | None => false
      end) (imap pair (nodes w)).

Lemma revotesb_spec {C : Type} b (w : @World C) : revotesb b w = false → ¬ revotes b w.
Proof.
  intros Hb (p & rf & c & Hp & Hv & Hc & Hne). unfold revotesb in Hb.
  assert (existsb (λ x, let '(p, rf) := x in
      negb (bool_decide (VotedFor rf = -1)) &&
      match b !! (p, CurrentTerm rf) with
      | Some c => negb (bool_decide (c = VotedFor rf))
      | None => false
      end) (imap pair (nodes w)) = true) as Ht; [|congruence].
  apply existsb_exists. exists (p, rf). split.
  - apply list_elem_of_In, list_elem_of_lookup. exists p. by rewrite list_lookup_imap, Hp.
  - rewrite Hc. by rewrite !bool_decide_false.
Qed.

(** [run] with the votes written down, as long as nobody votes twice. *)
Fixpoint voting_run (es : list (@Event Z)) (b : Ballots) (w : @World Z) : option (Ballots * @World Z) :=
  match es with
  | [] => Some (b, w)
  | e :: es =>
      w' ← exec w e;
      if revotesb b w' then None else voting_run es (record_votes w' b) w'
  end.

Lemma voting_run_reach n es b w b' w' :
  reach n b w → voting_run es b w = Some (b', w') → reach n b' w'.
Proof.
  revert b w. induction es as [|e es IH]; intros b w Hr Hk; cbn [voting_run] in Hk.
  - by injection Hk as <- <-.
  - apply bind_Some in Hk as (w1 & Hx & Hk). destruct (revotesb b w1) eqn:Hb; [done|].
    eapply IH; [|done]. eapply reach_exec; [done|done|by apply revotesb_spec].
Qed.

Definition voted (es : list (@Event Z)) : option (Ballots * @World Z) := w ← boot 3; voting_run es ∅ w.
Definition ballots_of (es : list (@Event Z)) : Ballots := fst (default (∅, no_world) (voted es)).
Definition world_of (es : list (@Event Z)) : @World Z := snd (default (∅, no_world) (voted es)).

Lemma voted_reach es : is_Some (voted es) → reach 3 (ballots_of es) (world_of es).
Proof.
  intros [[b w] Hw]. unfold ballots_of, world_of. rewrite Hw. cbn. apply bind_Some in Hw as (w0 & Hb & Hk).
  eapply voting_run_reach; [|done]. by apply reach_boot.
Qed.

(** ** Elections *)

(** Peer 0 leads term 1 and has a snapshot, is restarted, and takes part in the
    votes of term 2; [Kill] clears its vote, but it does not vote again. *)
Definition election_events : list (@Event Z) :=
  elect0 ++ commit_one ++ split_term2 ++ install_on2 ++ [EKill 1].
Definition election_world : @World Z := world_of election_events.

Definition elected_votes : Ballots := ballots_of (elect0 ++ commit_one).
Definition elected : @World Z := world_of (elect0 ++ commit_one).

(** After the second election peer 0 leads term 2, and no other peer does. *)
Lemma election_safety_witness :
  ∃ rf, nodes election_world !! 0%nat = Some rf ∧ status rf = Leader ∧ CurrentTerm rf = 2
    ∧ ∀ p rf', nodes election_world !! p = Some rf' → status rf' = Leader →
        CurrentTerm rf = CurrentTerm rf' → 0%nat = p.
Proof.
  assert (reach 3 (ballots_of election_events) election_world) as Hr
    by (apply voted_reach; vm_compute; eexists; reflexivity).
  destruct (nodes election_world !! 0%nat) as [rf|] eqn:Hn; [|vm_compute in Hn; discriminate].
  assert (status rf = Leader ∧ CurrentTerm rf = 2) as [Hs Ht2]
    by (vm_compute in Hn; injection Hn as <-; split; reflexivity).
  exists rf. split_and!; [done|done|done|]. intros p rf' Hn' Hs' Ht.
  exact (election_safety 3 (ballots_of election_events) election_world 0 p rf rf' Hr Hn Hn' Hs Hs' Ht).
Defined.

(** A run without [Kill] and without a snapshot from a leader of the same term. *)
Lemma keeping_reach_witness : ∃ b w, tick 0 (ms 1000) 0 (ms 200) <$> boot 3 = Some (Some w) ∧ reach (C := Z) 3 b w.
Proof.
  destruct (boot (C := Z) 3) as [w0|] eqn:Hb; [|vm_compute in Hb; discriminate].
  destruct (tick 0 (ms 1000) 0 (ms 200) w0) as [w1|] eqn:Ht; [|vm_compute in Hb; injection Hb as <-; vm_compute in Ht; discriminate].
  destruct (keeping_reach 3 w1) as [b Hr].
  { eapply (keeping_exec 3 w0 (timeout_of 0 1000)); [by apply keeping_boot|by intros []|exact Ht]. }
  exists b, w1. cbn. rewrite Ht. split; [reflexivity|exact Hr].
Defined.

Definition leads (t : Z) (rf : Raft Z) : bool :=
  bool_decide (status rf = Leader ∧ CurrentTerm rf = t).

(** [InstallSnapshot] clears [VotedFor] in its own term.  Peer 2 votes for peer
    0, receives its snapshot and then votes for peer 1, in the same term. *)
Definition forget_by_snapshot : list (@Event Z) :=
  elect0 ++ commit_one ++ split_term2 ++ install_on2 ++ late_vote.

Example two_leaders_after_snapshot :
  leads 2 <$> nodes (after forget_by_snapshot) = [true; true; false] ∧ voted forget_by_snapshot = None.
Proof. vm_compute. split; reflexivity. Qed.

(** [Kill] stores [VotedFor = -1].  Peer 2 votes for peer 0, is killed and
    restarted on its persister, and votes for peer 1 in the same term. *)
Definition forget_by_kill : list (@Event Z) :=
  [timeout_of 0 1000; timeout_of 1 1000; EDeliver 1 (ms 1001); EDeliver 3 (ms 1002);
   EKill 2; ERestart 2 (ms 2000); EDeliver 2 (ms 2001); EDeliver 2 (ms 2002)].

Example two_leaders_after_kill :
  leads 1 <$> nodes (after forget_by_kill) = [true; true; false] ∧ voted forget_by_kill = None.
Proof. vm_compute. split; reflexivity. Qed.

(** ** One peer *)

(** Peer 0 leads term 1 with one entry, committed on peer 1; the reply is in. *)
Definition replicated : list (@Event Z) :=
  elect0 ++ [EStart 0 7; EWorker 0 1; EDeliver 0 (ms 1003); EDeliver 0 (ms 1004);
             EDeliver 0 (ms 1005)].
Definition leader : Raft Z := node_after replicated 0.
Definition follower : Raft Z := node_after replicated 1.

(** A peer of the boot, and operations it meets. *)
Definition fresh_peer (p : nat) : Raft Z := node_after [] p.
Definition two_entries : AppendEntriesArgs Z :=
  mkAppendEntriesArgs 1 0 0 (-1) [mkLogEntry (Some 7) 1; mkLogEntry (Some 8) 1] 1.
Definition conflict : AppendEntriesArgs Z :=
  mkAppendEntriesArgs 2 2 1 1 [mkLogEntry (Some 9) 2] 1.
Definition a_snapshot : InstallSnapshotArgs := mkInstallSnapshotArgs 2 2 4 2 [Byte.x05].
Definition some_ops : list (@NodeOp Z) :=
  [OpAppendEntries (ms 1) two_entries; OpAppendEntries (ms 2) conflict; OpApplyCommitted;
   OpSnapshot 1 [Byte.x05]; OpSetReplicating 2 true; OpTicker (ms 900) 0 (ms 200);
   OpStart 3; OpApplyCommitted].
Definition ran : Raft Z := default no_peer (run_ops some_ops (fresh_peer 1)).

Lemma fresh_wf : wf (fresh_peer 1).
Proof. split; vm_compute; try reflexivity; try lia; discriminate. Qed.

Lemma leader_wf : wf leader.
Proof. split; vm_compute; try reflexivity; try lia; discriminate. Qed.


Lemma crash_recovery_witness :
  ∃ r, Make (peers ran) (me ran) (persister ran) (ms 5) = Some (r, [GoTicker; GoApplyCommitted])
    ∧ persistentState r = persistentState ran ∧ snapshot r = [Byte.x05].
Proof.
  destruct (crash_recovery some_ops (fresh_peer 1) ran (ms 5)) as (r & Hm & Hp & Hs & _).
  - split; vm_compute; reflexivity.
  - vm_compute. reflexivity.
  - exists r. split; [exact Hm|]. split; [exact Hp|]. rewrite Hs. vm_compute. reflexivity.
Defined.

Lemma no_lost_wakeup_run_witness : no_lost_wakeup ran.
Proof.
  apply (no_lost_wakeup_run some_ops (fresh_peer 1) ran); [|vm_compute; reflexivity].
  vm_compute. discriminate.
Defined.

Lemma indices_advance_witness : advances (0, 0, 0) (1, 1, 1).
Proof.
  apply (indices_advance some_ops (fresh_peer 1) ran).
  - vm_compute. split; discriminate.
  - vm_compute. repeat split; discriminate.
  - vm_compute. reflexivity.
Defined.

(** ** The log *)

(** A peer that holds two entries of term 1. *)
Definition two_logged : Raft Z := fst (AppendEntries (ms 1) two_entries zeroAEReply (fresh_peer 1)).

Lemma AppendEntries_log_witness :
  let '(rf', reply) := AppendEntries (ms 3) conflict zeroAEReply two_logged in
  aer_Success reply = true ∧ entry_at rf' 1 = entry_at two_logged 1
  ∧ ∃ e, entry_at rf' 2 = Some e ∧ le_Term e = 2.
Proof.
  assert (Log two_logged ≠ []) as Hl by (vm_compute; discriminate).
  pose proof (AppendEntries_log (ms 3) conflict two_logged Hl) as Ha.
  destruct (AppendEntries (ms 3) conflict zeroAEReply two_logged) as [rf' reply] eqn:E.
  assert (aer_Success reply = true) as Hok.
  { change reply with (snd (rf', reply)). rewrite <-E. vm_compute. reflexivity. }
  split; [exact Hok|]. destruct (Ha Hok) as (Hk & Hn & _). split; [apply Hk; vm_compute; discriminate|].
  apply (Hn 0%nat (mkLogEntry (Some 9) 2)); vm_compute; reflexivity.
Defined.

Lemma AppendEntries_idempotent_witness :
  let '(rf1, reply1) := AppendEntries (ms 3) two_entries zeroAEReply (fresh_peer 1) in
  let '(rf2, reply2) := AppendEntries (ms 4) two_entries zeroAEReply rf1 in
  aer_Success reply1 = true → aer_Success reply2 = true ∧ Log rf2 = Log rf1.
Proof.
  apply (AppendEntries_idempotent (ms 3) (ms 4) two_entries (fresh_peer 1)). vm_compute. discriminate.
Defined.

(** A leader whose peer 1 has acknowledged index 1 and who has not counted yet. *)
Definition uncounted : Raft Z := leader <| commitIndex := 0 |>.

Lemma updateLeaderCommitIndex_spec_witness :
  committable uncounted 1 ∧ ∃ rf', updateLeaderCommitIndex uncounted = Some rf' ∧ commitIndex rf' = 1.
Proof.
  assert (wf uncounted) as Hw by (split; vm_compute; try reflexivity; try lia; discriminate).
  assert (committable uncounted 1) as Hc by (split; vm_compute; reflexivity).
  split; [exact Hc|].
  destruct (updateLeaderCommitIndex_spec uncounted Hw) as (rf' & Hu & [(N & HN & _ & Hmax & ->)|[-> Hn]]).
  - eexists. split; [exact Hu|]. change (lastLogIndex uncounted) with 1 in HN.
    change (commitIndex uncounted) with 0 in HN. cbn. lia.
  - exfalso. apply (Hn 1); [|exact Hc]. vm_compute. split; [reflexivity|discriminate].
Defined.

Lemma findLastIndexOfTerm_spec_witness : findLastIndexOfTerm leader 1 = 1.
Proof.
  pose proof (findLastIndexOfTerm_spec leader 1 ltac:(vm_compute; discriminate)) as Hf.
  cbv zeta in Hf. change (lastIncludedIndex leader) with 0 in Hf.
  change (lastLogIndex leader) with 1 in Hf.
  destruct Hf as [(Hr & _)|(Hn & _)]; [lia|]. exfalso. apply (Hn 1); [lia|]. vm_compute. reflexivity.
Defined.

(** The leader as soon as it has the command. *)
Definition started : Raft Z := node_after (elect0 ++ [EStart 0 7]) 0.

Lemma replication_step_witness :
  ∃ args, heartbeatWorker 2 started = Some (WorkerSend args) ∧
    let '(f', reply) := AppendEntries (ms 9) args zeroAEReply (fresh_peer 2) in
    aer_Success reply = true ∧
    ∃ e e', entry_at started 1 = Some e ∧ entry_at f' 1 = Some e' ∧ le_Term e' = le_Term e.
Proof.
  destruct (replication_step (ms 9) started 2 1 (fresh_peer 2)) as (args & Hw & _ & Hs).
  - split; [vm_compute; reflexivity|]. split; [vm_compute; reflexivity|].
    vm_compute. split; [reflexivity|discriminate].
  - vm_compute. discriminate.
  - exists args. split; [exact Hw|].
    assert (aer_Success (snd (AppendEntries (ms 9) args zeroAEReply (fresh_peer 2))) = true) as Hok
      by (vm_compute in Hw; injection Hw as <-; vm_compute; reflexivity).
    destruct (AppendEntries (ms 9) args zeroAEReply (fresh_peer 2)) as [f' reply].
    split; [exact Hok|]. apply (Hs Hok); vm_compute; [split; discriminate|reflexivity].
Defined.

(** ** Snapshots *)

Lemma Snapshot_view_witness : lastLogIndex (Snapshot 1 [Byte.x09] leader) = 1.
Proof.
  assert (lastIncludedIndex leader < 1 <= lastLogIndex leader) as Hi
    by (vm_compute; split; [reflexivity|discriminate]).
  destruct (Snapshot_view 1 [Byte.x09] leader Hi) as (_ & Hl & _).
  rewrite Hl. vm_compute. reflexivity.
Defined.

Lemma InstallSnapshot_view_witness :
  lastLogIndex (fst (InstallSnapshot (ms 9) a_snapshot zeroISReply leader)) = 4.
Proof.
  destruct (InstallSnapshot_view (ms 9) a_snapshot leader) as (_ & _ & _ & _ & _ & _ & Hl).
  - vm_compute. discriminate.
  - vm_compute. discriminate.
  - vm_compute. reflexivity.
  - cbv zeta in Hl. rewrite decide_False in Hl by (vm_compute; discriminate). exact Hl.
Defined.

Lemma delivery_in_order_witness :
  let rf := fst (AppendEntries (ms 3) two_entries zeroAEReply (fresh_peer 1)) in
  let rf' := fst (applyCommitted rf) in
  follow 0 [mkApplyMsg true (Some 7) 1 false [] 0 0] = Some (lastApplied rf').
Proof.
  intros rf rf'.
  assert (serves rf rf' ([] ++ delivered OpApplyCommitted rf)) as Hs.
  { eapply serves_step; [apply serves_nil|exact I|vm_compute; discriminate|reflexivity]. }
  destruct (delivery_in_order rf rf' _ ltac:(vm_compute; split; discriminate)
    ltac:(vm_compute; reflexivity) ltac:(vm_compute; reflexivity) Hs) as (pos & Hf & Hp).
  rewrite <-Hp by (vm_compute; reflexivity). exact Hf.
Defined.

Lemma leader_never_stands_witness :
  voter_of (fst (fst (ticker (ms 9000) 5 (randomElectionTimeout 7) leader))) = voter_of leader.
Proof.
  destruct (leader_never_stands (ms 9000) 5 7 leader) as [_ Ht].
  - lia.
  - vm_compute. reflexivity.
  - destruct (ticker (ms 9000) 5 (randomElectionTimeout 7) leader) as [[rf' t'] r].
    destruct Ht as (_ & Hv & _). exact Hv.
Defined.

(** * Corner cases of the peer

    Situations where the code and its intent part: a hint that makes no progress, an
    applier that is not woken at [Kill], [lastApplied] moving back, a cluster of one
    peer, and the dummy entry sent to a follower. *)
Section RaftCorners.
Context {C : Type} `{GobStream (PersistentState C)}.
Notation Raft := (Raft C).
Implicit Types (rf f : Raft).

(** ** A rejection without progress *)

(** A follower whose snapshot is past [PrevLogIndex] compares with term [-1]
    and hints at the index it was just sent. *)
Lemma stale_hint (args : AppendEntriesArgs C) f :
  aea_PrevLogIndex args < lastIncludedIndex f ->
  aea_PrevLogIndex args <= lastLogIndex f → aea_PrevLogTerm args ≠ -1 ->
  matchPrevLog args zeroAEReply f
  = (mkAppendEntriesReply (CurrentTerm f) false (-1) (aea_PrevLogIndex args + 1) 0, false).
Proof.
  intros Hs Hl Ht. unfold matchPrevLog. rewrite !decide_False by lia.
  assert (termAt f (aea_PrevLogIndex args) true = -1) as ->.
  { unfold termAt, toPhysicalIndex. by rewrite decide_True by lia. }
  rewrite decide_True by congruence.
  by replace (Z.to_nat (aea_PrevLogIndex args - lastIncludedIndex f)) with 0%nat by lia.
Qed.

(** The leader then sends from the same index again, as long as it has no entry
    and no snapshot of term [-1], that is, as soon as it has a snapshot. *)
Lemma stale_hint_no_progress now peer (args : AppendEntriesArgs C) f rf rf' :
  aea_PrevLogIndex args < lastIncludedIndex f ->
  aea_PrevLogIndex args <= lastLogIndex f → aea_PrevLogTerm args ≠ -1 ->
  status rf = Leader → CurrentTerm rf = aea_Term args → CurrentTerm f <= CurrentTerm rf ->
  findLastIndexOfTerm rf (-1) = -1 ->
  nextIndex rf !! peer = Some (aea_PrevLogIndex args + 1) ->
  handleSendAppendEntries now peer args (fst (matchPrevLog args zeroAEReply f)) rf = Some rf' ->
  nextIndex rf' !! peer = nextIndex rf !! peer.
Proof.
  intros Hs Hl Ht Hst Hct Hle Hf Hn. rewrite (stale_hint _ _ Hs Hl Ht).
  unfold handleSendAppendEntries. rewrite decide_False by (intros [?|?]; congruence).
  destruct (stepDown now _ rf) as [rf1 b] eqn:E.
  unfold stepDown in E. cbn [fst aer_Term] in E. rewrite decide_True in E by lia.
  injection E as <- <-. cbn [fst aer_Success aer_XLen aer_XTerm aer_XIndex].
  rewrite (decide_False (P := 0 ≠ 0)) by lia. rewrite Hf, decide_True by done.
  unfold set_nextIndex. intros (l & [Hlt ->]%set_index_inv & [= <-])%bind_Some.
  cbn. rewrite Hn. by rewrite list_lookup_insert_eq.
Qed.

(** ** [Kill] and the applier *)

(** [Kill] sets the flag the applier tests, but leaves the condition variable
    alone: an applier that sleeps stays asleep. *)
Lemma Kill_no_signal rf : applyCond (Kill rf) = applyCond rf.
Proof. done. Qed.

(** ** A cluster of one *)

Lemma one_peer_never_stands now rnd timeout rf :
  peers rf = 1%nat → status rf = Follower ->
  status (fst (fst (ticker now rnd timeout rf))) = Follower.
Proof.
  intros Hp Hs. unfold ticker.
  repeat (case_decide; cbn [fst]); try done; cbn in *; lia.
Qed.
End RaftCorners.

(** ** Concrete runs *)

(** A follower that applied five commands and then receives an older snapshot:
    [lastApplied], meant only to grow, moves back to it. *)
Definition ahead : Raft Z :=
  no_peer <| Log := mkLogEntry None 0 :: replicate 5 (mkLogEntry (Some 7) 1) |>
          <| commitIndex := 5 |> <| lastApplied := 5 |>.

Example lastApplied_moves_back :
  lastApplied (fst (applyCommitted
    (fst (InstallSnapshot 0 (mkInstallSnapshotArgs 1 0 3 1 [Byte.x05]) zeroISReply ahead)))) = 3.
Proof. vm_compute. reflexivity. Qed.

(** While a snapshot is being sent to a peer that has nothing, the heartbeat of
    the same round reaches below the snapshot and carries the dummy entry. *)
Definition compacted : Raft Z :=
  mkRaft MakePersister 0 3 false 1 0 [mkLogEntry None 1] 1 1 false 0
    [false; true; true] Leader [2; 1; 1] [1; 0; 0] [Byte.x05] 1 1 false.

Example dummy_entry_sent :
  heartbeatWorker 2 compacted
  = Some (WorkerSend (mkAppendEntriesArgs 1 0 0 (-1) [mkLogEntry None 1] 1)).
Proof. vm_compute. reflexivity. Qed.

(** The peer takes it for a command, commits it and delivers it. *)
Example dummy_entry_delivered :
  let f := fst (AppendEntries 0 (mkAppendEntriesArgs 1 0 0 (-1) [mkLogEntry None 1] 1)
                  zeroAEReply (fresh_peer 2)) in
  snd (applyCommitted f) = ApplySend [mkApplyMsg true None 1 false [] 0 0].
Proof. vm_compute. reflexivity. Qed.
