(* ===== verification/RaftAgreeRuns.v ===== *)
(** * RaftAgreeRuns: runs in which peers agree

    In the first, peer 0 leads term 1, commits the command 7 with peer 1, and
    both hand it to their services; then peer 1 wins term 2.  In the second the
    service of peer 0 snapshots the command 7, peer 2 installs the snapshot and
    takes the command 8 from the log behind it, an old instance of peer 1 is
    killed, and peer 2 wins term 2.  The runs show that the hypotheses of
    [RaftAgreement], of [RaftDelivery], of [RaftHarnessApply] and of [RaftSnapshots]
    hold on real executions. *)
From stdpp Require Import base list list_numbers gmap option.
From Stdlib Require Import ZArith Lia.
From Stdlib Require Import Strings.Byte.
From S2P Require Import Prelude Labgob RaftTypes Raft RaftNode RaftCluster RaftLog RaftApply RaftSnapshots RaftAgreement RaftDelivery RaftHarnessApply RaftRuns.
#[local] Open Scope Z_scope.

(** ** Checking a run *)

Definition snapshots_aheadb (w : @World Z) (e : @Event Z) : bool :=
  match e with
  | ESnapshot i index _ =>
      match nodes w !! i with Some rf => bool_decide (commitIndex rf < index) | None => false end
  | _ => false
  end.

Lemma snapshots_aheadb_spec w e : snapshots_aheadb w e = false → ¬ snapshots_ahead w e.
Proof.
  destruct e; cbn; try (by intros _ []). intros Hb (rf & Hrf & Hc). rewrite Hrf in Hb.
  by apply bool_decide_eq_false in Hb.
Qed.

Definition sends_dummyb {C : Type} (w : @World C) (e : @Event C) : bool :=
  match e with
  | EWorker l p =>
      match nodes w !! l with
      | Some rf => bool_decide (lastIncludedIndex rf = 1 ∧ nextIndex rf !! p = Some 1
                                ∧ isReplicating rf !! p = Some true)
      | None => false
      end
  | _ => false
  end.

Lemma sends_dummyb_spec {C : Type} (w : @World C) e : sends_dummyb w e = false → ¬ sends_dummy w e.
Proof.
  destruct e; cbn; try (by intros _ []). intros Hb (rf & Hrf & Hc). rewrite Hrf in Hb.
  by apply bool_decide_eq_false in Hb.
Qed.

Definition Logged : Type := Ballots * @World Z * list (nat * ApplyMsg Z).

(** [run] with the votes written down and what is handed over, as long as the
    run respects [ok] and nobody votes twice. *)
Fixpoint logged_run (ok : @World Z → @Event Z → bool) (es : list (@Event Z)) (s : Logged) : option Logged :=
  match es with
  | [] => Some s
  | e :: es =>
      let '(b, w, D) := s in
      w' ← exec w e;
      if ok w e && negb (revotesb b w') then logged_run ok es (record_votes w' b, w', D ++ handed w e)
      else None
  end.

Lemma logged_run_ind (ok : @World Z → @Event Z → bool) (P : Ballots → @World Z → list (nat * ApplyMsg Z) → Prop) es b w D b' w' D' :
  (∀ b w D e w', P b w D → ok w e = true → exec w e = Some w' → ¬ revotes b w' →
    P (record_votes w' b) w' (D ++ handed w e)) →
  P b w D → logged_run ok es (b, w, D) = Some (b', w', D') → P b' w' D'.
Proof.
  intros Hstep. revert b w D. induction es as [|e es IH]; intros b w D HP Hk; cbn [logged_run] in Hk.
  - by injection Hk as <- <- <-.
  - apply bind_Some in Hk as (w1 & Hx & Hk). destruct (ok w e) eqn:Hok; [|done].
    destruct (revotesb b w1) eqn:Hb; cbn in Hk; [done|]. eapply IH; [|done].
    apply Hstep; [done|done|done|by apply revotesb_spec].
Qed.

Definition no_log : Logged := (∅, no_world, []).
Definition logged (ok : @World Z → @Event Z → bool) (es : list (@Event Z)) : option Logged := w ← boot 3; logged_run ok es (∅, w, []).

Definition allowedb (w : @World Z) (e : @Event Z) : bool :=
  negb (snapshots_aheadb w e) && negb (sends_dummyb w e).
Definition plainb (_ : @World Z) (e : @Event Z) : bool := negb (takes_snapshot e).

Lemma logged_reach es b w D : logged allowedb es = Some (b, w, D) → reach_log 3 b w D.
Proof.
  intros (w0 & Hb & Hk)%bind_Some. eapply (logged_run_ind allowedb (reach_log 3)); [|by apply reach_log_boot|exact Hk].
  intros b0 w1 D1 e w2 Hr [H1 H2]%andb_true_iff Hx Hone. apply negb_true_iff in H1, H2.
  by apply reach_log_exec; [|apply snapshots_aheadb_spec|apply sends_dummyb_spec| |].
Qed.

Lemma plain_reach es b w D : logged plainb es = Some (b, w, D) → reach_plain 3 b w D.
Proof.
  intros (w0 & Hb & Hk)%bind_Some. eapply (logged_run_ind plainb (reach_plain 3)); [|by apply reach_plain_boot|exact Hk].
  intros b0 w1 D1 e w2 Hr H1 Hx Hone. apply negb_true_iff in H1. by apply reach_plain_exec.
Qed.

(** ** Without snapshots *)

(** Peer 1 acknowledges the command, peer 0 commits and applies it; the next
    heartbeat tells peer 1. *)
Definition replicate_one : list (@Event Z) :=
  [EStart 0 7; EWorker 0 1; EDeliver 0 (ms 1003); EDeliver 0 (ms 1004); EDeliver 0 (ms 1005);
   EApply 0; EWorker 0 1; EDeliver 0 (ms 1006); EApply 1].

(** Peer 1 stands in term 2; peer 2 votes for it. *)
Definition elect1 : list (@Event Z) :=
  [timeout_of 1 3000; EDeliver 2 (ms 3001); EDeliver 2 (ms 3002)].

Definition plain_run : Logged := default no_log (logged plainb (elect0 ++ replicate_one ++ elect1)).
Definition plain_handed : list (nat * ApplyMsg Z) := snd plain_run.

Lemma plain_run_reach : reach_plain 3 (fst (fst plain_run)) (snd (fst plain_run)) plain_handed.
Proof. apply (plain_reach (elect0 ++ replicate_one ++ elect1)). vm_compute. reflexivity. Qed.

(** ** With snapshots *)

(** Peer 0 commits two commands with peer 1 and snapshots the first. *)
Definition two_commands : list (@Event Z) :=
  [EStart 0 7; EWorker 0 1; EDeliver 0 (ms 1003); EDeliver 0 (ms 1004); EDeliver 0 (ms 1005);
   EApply 0; ESnapshot 0 1 [Byte.x01];
   EStart 0 8; EWorker 0 1; EDeliver 0 (ms 1006); EDeliver 0 (ms 1007); EDeliver 0 (ms 1008); EApply 0].

(** Peer 2 lacks both: it gets the snapshot, and then the rest of the log. *)
Definition catch_up2 : list (@Event Z) :=
  [EWorker 0 2; EDeliver 0 (ms 1010); EDeliver 0 (ms 1011); EApply 2; EDeliver 0 (ms 1012); EDeliver 0 (ms 1013);
   EWorker 0 2; EDeliver 0 (ms 1014); EDeliver 0 (ms 1015); EDeliver 0 (ms 1016); EApply 2].

(** Peer 1 is killed and comes back; peer 2 stands in term 2 and wins its vote. *)
Definition elect2 : list (@Event Z) :=
  [EKill 1; ERestart 1 (ms 2000); timeout_of 2 3000; EDeliver 1 (ms 3001); EDeliver 1 (ms 3002)].

Definition agreed_events : list (@Event Z) := elect0 ++ two_commands ++ catch_up2 ++ elect2.
Definition agreed : Logged := default no_log (logged allowedb agreed_events).
Definition agreed_world : @World Z := snd (fst agreed).

Lemma agreed_reach : reach_log 3 (fst (fst agreed)) agreed_world (snd agreed).
Proof. apply (logged_reach agreed_events). vm_compute. reflexivity. Qed.

Definition command_8 : ApplyMsg Z := mkApplyMsg true (Some 8) 2 false [] 0 0.

(** Peer 0 took the command 8 from its log, peer 2 from behind the snapshot. *)
Lemma state_machine_safety_witness :
  ∃ m1 m2, (0%nat, m1) ∈ snd agreed ∧ (2%nat, m2) ∈ snd agreed ∧
    CommandIndex m1 = 2 ∧ msg_Command m1 = Some 8 ∧ msg_Command m1 = msg_Command m2.
Proof.
  exists command_8, command_8.
  assert ((0%nat, command_8) ∈ snd agreed) as H0 by (vm_compute; right; left).
  assert ((2%nat, command_8) ∈ snd agreed) as H1 by (vm_compute; do 3 right; left).
  split; [exact H0|]. split; [exact H1|]. split; [done|]. split; [done|].
  exact (state_machine_safety 3 _ _ _ 0%nat 2%nat command_8 command_8 agreed_reach H0 H1 eq_refl eq_refl eq_refl).
Defined.

(** Peer 2 leads term 2 and has what peer 0 committed in term 1. *)
Lemma leader_completeness_witness :
  ∃ rf rl, nodes agreed_world !! 0%nat = Some rf ∧ nodes agreed_world !! 2%nat = Some rl ∧
    commitIndex rf = 2 ∧ status rl = Leader ∧ CurrentTerm rl = 2 ∧ lastIncludedIndex rl = 1 ∧
    2 <= lastLogIndex rl ∧ entry_at rl 2 = entry_at rf 2.
Proof.
  destruct (nodes agreed_world !! 0%nat) as [rf|] eqn:Hn0; [|vm_compute in Hn0; discriminate].
  destruct (nodes agreed_world !! 2%nat) as [rl|] eqn:Hn2; [|vm_compute in Hn2; discriminate].
  exists rf, rl. split; [done|]. split; [done|].
  assert (commitIndex rf = 2 ∧ CurrentTerm rf = 1 ∧ lastIncludedIndex rf = 1) as (Hc & Ht & Hi)
    by (vm_compute in Hn0; injection Hn0 as <-; split_and!; reflexivity).
  assert (status rl = Leader ∧ CurrentTerm rl = 2 ∧ lastIncludedIndex rl = 1) as (Hs & Ht' & Hi')
    by (vm_compute in Hn2; injection Hn2 as <-; split_and!; reflexivity).
  split; [done|]. split; [done|]. split; [done|]. split; [done|].
  destruct (leader_completeness 3 _ _ _ 0%nat 2%nat rf rl 2 agreed_reach Hn0 Hn2 Hs) as (Hl & _ & He); [lia|lia|].
  split; [exact Hl|]. apply He; lia.
Defined.

(** Peer 1 still has its log from the start on; it agrees with that of peer 0. *)
Lemma log_matching_witness :
  ∃ rf1 rf2, nodes agreed_world !! 0%nat = Some rf1 ∧ nodes agreed_world !! 1%nat = Some rf2 ∧
    lastIncludedIndex rf1 = 1 ∧ lastIncludedIndex rf2 = 0 ∧ entry_at rf1 2 = entry_at rf2 2.
Proof.
  destruct (nodes agreed_world !! 0%nat) as [rf1|] eqn:Hn1; [|vm_compute in Hn1; discriminate].
  destruct (nodes agreed_world !! 1%nat) as [rf2|] eqn:Hn2; [|vm_compute in Hn2; discriminate].
  exists rf1, rf2. split; [done|]. split; [done|].
  assert (lastIncludedIndex rf1 = 1 ∧ term_at rf1 2 = Some 1) as [Hi1 Ht1]
    by (vm_compute in Hn1; injection Hn1 as <-; split; reflexivity).
  assert (lastIncludedIndex rf2 = 0 ∧ term_at rf2 2 = Some 1) as [Hi2 Ht2]
    by (vm_compute in Hn2; injection Hn2 as <-; split; reflexivity).
  split; [done|]. split; [done|].
  apply (log_matching 3 _ _ _ 0%nat 1%nat rf1 rf2 2 2 1 agreed_reach Hn1 Hn2 Ht1 Ht2); lia.
Defined.

(** The snapshot that reaches the service of peer 2 is the one of peer 0. *)
Definition before_delivery : list (@Event Z) := elect0 ++ two_commands ++ take 3 catch_up2.
Definition the_snapshot : ApplyMsg Z := mkApplyMsg false None 0 true [Byte.x01] 1 1.

Lemma snapshot_origin_witness :
  (2%nat, the_snapshot) ∈ handed (after before_delivery) (EApply 2) ∧ made before_delivery 1 [Byte.x01] ∧
  ∃ rf, nodes (after before_delivery) !! 2%nat = Some rf ∧ lastIncludedIndex rf = 1 ∧
    made before_delivery 1 (ps_snapshot (persister rf)).
Proof.
  assert ((2%nat, the_snapshot) ∈ handed (after before_delivery) (EApply 2)) as Hin by (vm_compute; left).
  split; [exact Hin|].
  destruct (boot (C := Z) 3) as [w0|] eqn:Hb; [|vm_compute in Hb; discriminate].
  assert (run before_delivery w0 = Some (after before_delivery)) as Hr
    by (vm_compute in Hb; injection Hb as <-; vm_compute; reflexivity).
  destruct (snapshot_origin 3 w0 before_delivery _ Hb Hr) as (_ & Hstored & _ & Hhanded).
  split; [exact (proj2 (Hhanded (EApply 2) 2%nat the_snapshot Hin eq_refl))|].
  destruct (nodes (after before_delivery) !! 2%nat) as [rf|] eqn:Hrf; [|vm_compute in Hrf; discriminate].
  exists rf. split; [done|].
  assert (lastIncludedIndex rf = 1 ∧ ∃ ct vf log term, stored (persister rf) = Some (ct, vf, log, 1, term))
    as [Hi (ct & vf & log & term & Hst)]
    by (vm_compute in Hrf; injection Hrf as <-; split; [reflexivity|do 4 eexists; vm_compute; reflexivity]).
  split; [done|]. exact (Hstored 2%nat rf ct vf log 1 term Hrf Hst eq_refl).
Defined.

(** ** What one service receives *)

Definition keepsb (p : nat) (w : @World Z) (e : @Event Z) : bool :=
  allowedb w e && match e with ERestart i _ => negb (bool_decide (i = p)) | _ => true end.

Definition received (p : nat) (D : list (nat * ApplyMsg Z)) : list (ApplyMsg Z) := (filter (λ x, x.1 = p) D).*2.

Lemma logged_serving p es w0 rf0 b w D :
  boot 3 = Some w0 → nodes w0 !! p = Some rf0 → logged_run (keepsb p) es (∅, w0, []) = Some (b, w, D) →
  serving 3 p rf0 b w (received p D).
Proof.
  intros Hb Hp Hk.
  refine (logged_run_ind (keepsb p) (λ b w D, serving 3 p rf0 b w (received p D)) es ∅ w0 [] b w D _ _ Hk);
    [|eapply serving_start; [by apply reach_log_boot|exact Hp]].
  intros b1 w1 D1 e w2 Hs [[H1 H2]%andb_true_iff H3]%andb_true_iff Hx Hone. apply negb_true_iff in H1, H2.
  unfold received. rewrite list.filter_app, fmap_app. apply serving_exec; [exact Hs| |by apply snapshots_aheadb_spec|by apply sends_dummyb_spec|done|done].
  intros now ->. by rewrite bool_decide_eq_true_2 in H3.
Qed.

