(* ===== verification/RaftHarnessRuns.v ===== *)
(** * RaftHarnessRuns: tests on concrete clusters

    Commands are integers.  The runs show that the hypotheses about the harness
    hold, what it answers when peers disagree, and that a restart under it keeps
    a vote that [Kill] alone would lose. *)
From stdpp Require Import base gmap strings pretty list_numbers option list countable.
From Stdlib Require Import ZArith Lia.
From S2P Require Import Prelude Labgob Labrpc RaftTypes Raft RaftNode RaftCluster RaftAgreement RaftHarness RaftHarnessApply RaftHarnessNet RaftHarnessChecks RaftHarnessEnd RaftRuns RaftAgreeRuns.
#[local] Open Scope Z_scope.

#[export] Instance snap_codec : GobStream (Z * list (option Z)) := countable_stream.

(** [%v] of a command that is an integer or nil. *)
Definition sprint_cmd (c : option Z) : string := match c with Some z => pretty z | None => "<nil>" end.

(** ** The messages of the agreed run *)

Definition three_peers : config Z := new_config 3 false <| rafts := replicate 3 None |>.

(** The appliers read what both peers handed over: one command at index 1. *)
Lemma harness_finds_no_error_witness :
  ∃ cfg', run_appliers sprint_cmd plain_handed three_peers = Ok cfg' ∧
    (logs cfg' !! 1%nat ≫= λ log, log !! 1) = Some (Some 7).
Proof.
  set (m := mkApplyMsg true (Some 7) 1 false [] 0 0).
  assert ((1%nat, m) ∈ plain_handed) as Hin by (vm_compute; right; left).
  destruct (harness_finds_no_error sprint_cmd 3 _ _ plain_handed plain_handed three_peers
    plain_run_reach (λ p, PreOrder_Reflexive _) eq_refl eq_refl eq_refl) as (cfg' & Hx & Hh & _).
  exists cfg'. split; [exact Hx|]. apply Hh. exists m. split; [exact Hin|]. split; [reflexivity|]. split; reflexivity.
Defined.

(** A second command for that index would end the test. *)
Example mismatch_is_fatal :
  run_appliers sprint_cmd (plain_handed ++ [(2%nat, mkApplyMsg true (Some 8) 1 false [] 0 0)]) three_peers
  = Fatal "apply error: commit index=1 server=2 8 != server=1 7".
Proof. vm_compute. reflexivity. Qed.

(** So would a gap. *)
Example gap_is_fatal :
  run_appliers sprint_cmd [(2%nat, mkApplyMsg true (Some 8) 2 false [] 0 0)] three_peers
  = Fatal "apply error: server 2 apply out of order 2".
Proof. vm_compute. reflexivity. Qed.

(** ** Asking for the leader *)

Definition states_of (w : @World Z) : list (nat * (Z * bool)) :=
  imap (λ i rf, (i, GetState rf)) (nodes w).

Lemma asked_now b w : asked b w (states_of w) b w.
Proof.
  assert (∀ rs k, (∀ j rf, rs !! j = Some rf → nodes w !! (k + j)%nat = Some rf) →
    asked b w (imap (λ i rf, ((k + i)%nat, GetState rf)) rs) b w) as Hall.
  { induction rs as [|rf rs IH]; intros k Hk; [constructor|]. cbn. rewrite Nat.add_0_r. constructor.
    - specialize (Hk 0%nat rf eq_refl). by rewrite Nat.add_0_r in Hk.
    - erewrite imap_ext; [apply (IH (S k))|].
      + intros j r Hj. specialize (Hk (S j) r Hj). by replace (S k + j)%nat with (k + S j)%nat by lia.
      + intros j r _. cbn. f_equal. lia. }
  apply (Hall (nodes w) 0%nat). done.
Qed.

Lemma checkOneLeader_passes_witness :
  ∃ r, one_leader [1] (leaders_of (states_of elected)) = Ok r ∧ r = Some 0%nat.
Proof.
  assert (reach 3 elected_votes elected) as Hr by (apply voted_reach; vm_compute; eexists; reflexivity).
  destruct (checkOneLeader_passes 3 elected_votes elected (states_of elected) elected_votes elected [1] Hr (asked_now _ _))
    as (r & Hx & Hi).
  - apply (bool_decide_unpack _). vm_compute. exact I.
  - intros t. split.
    + intros ->%list_elem_of_singleton. vm_compute. by eexists.
    + intros [x Hx]. apply list_elem_of_singleton. vm_compute in Hx.
      destruct t as [|[]|]; try done.
  - exists r. split; [done|]. vm_compute in Hx. congruence.
Defined.

(** ** Starting and moving peers *)

Definition hrun (ops : list (@HarnessOp Z)) (cfg : config Z) : result (config Z) :=
  foldl (λ acc op, cfg ← acc; hexec sprint_cmd op cfg) (Ok cfg) ops.

Definition loadableb (cfg : config Z) (i : nat) : bool :=
  match saved cfg !! i with
  | Some (Some ref) =>
      match contents ref cfg with
      | Ok ps => bool_decide (ps_snapshot ps = []) || bool_decide (is_Some (Decode (A := Z * list (option Z)) (ps_snapshot ps)))
      | _ => true
      end
  | _ => true
  end.

Lemma loadableb_spec cfg i : loadableb cfg i = true → loadable cfg i.
Proof.
  unfold loadableb. intros Hb ref ps Hs Hps. rewrite Hs, Hps in Hb.
  apply orb_true_iff in Hb as [Hb|Hb]; apply bool_decide_eq_true in Hb; auto.
Qed.

Definition allowedb (n : nat) (cfg : config Z) (op : @HarnessOp Z) : bool :=
  match op with
  | HConnect i => match endnames cfg !! i with Some (Some _) => true | _ => false end
  | HDisconnect i | HCrash i => bool_decide (i < n)%nat
  | HStart i names _ _ =>
      bool_decide (i < n)%nat && bool_decide (length names = n) && bool_decide (NoDup names)
      && forallb (λ x, match ends (cfg_net cfg) !! inl x with None => true | _ => false end) names
      && loadableb cfg i
  | HRaft _ _ | HMessage _ _ | HSnapMessage _ _ _ => true
  end.

Lemma allowedb_spec n cfg op : allowedb n cfg op = true → allowed n cfg op.
Proof.
  destruct op; cbn; try done; try (by intros ?%bool_decide_eq_true).
  - destruct (endnames cfg !! i) as [[names|]|]; try done. by exists names.
  - rewrite !andb_true_iff. intros ((((Hi & Hl) & Hn) & He) & Hs).
    apply bool_decide_eq_true in Hi, Hl, Hn. split; [done|]. split; [|by apply loadableb_spec].
    split; [done|]. split; [done|]. intros x Hx. rewrite forallb_forall in He.
    apply list_elem_of_In, He in Hx. by destruct (ends (cfg_net cfg) !! inl x).
Qed.

Fixpoint checked_run (n : nat) (ops : list (@HarnessOp Z)) (cfg : config Z) : option (config Z) :=
  match ops with
  | [] => Some cfg
  | op :: ops =>
      if allowedb n cfg op then
        match hexec sprint_cmd op cfg with Ok cfg => checked_run n ops cfg | _ => None end
      else None
  end.

Lemma checked_reach n ops cfg cfg' :
  harness_reach sprint_cmd n cfg → checked_run n ops cfg = Some cfg' → harness_reach sprint_cmd n cfg'.
Proof.
  revert cfg. induction ops as [|op ops IH]; intros cfg Hr Hx; cbn in Hx; [by injection Hx as <-|].
  destruct (allowedb n cfg op) eqn:Ha; [|done].
  destruct (hexec sprint_cmd op cfg) as [cfg1| |] eqn:Ho; try done.
  eapply IH; [|exact Hx]. eapply harness_step; [done|by apply allowedb_spec|done].
Qed.

(** Two servers start and connect; server 0 stands in term 1 and votes for
    itself; then server 1 leaves the network. *)
Definition two_servers : list (@HarnessOp Z) :=
  [HStart 0 ["a0"; "a1"] 0 0; HStart 1 ["b0"; "b1"] 1 0; HConnect 0; HConnect 1;
   HRaft 0 (OpTicker (ms 1000) 0 (ms 200)); HDisconnect 1].

Definition apart : config Z := default (new_config 2 false) (checked_run 2 two_servers (new_config 2 false)).

Lemma apart_reach : harness_reach sprint_cmd 2 apart.
Proof.
  apply (checked_reach 2 two_servers (new_config 2 false)); [constructor|vm_compute; reflexivity].
Qed.

Lemma harness_wiring_witness :
  ∃ x, (["a0"; "a1"] : list string) !! 1%nat = Some x ∧
    i_enabled (readEndnameInfo (inl x) (cfg_net apart)) = false.
Proof.
  destruct (harness_wiring sprint_cmd 2 apart 0 1 ["a0"; "a1"] true false apart_reach)
    as (x & Hx & He & _); [vm_compute; reflexivity|lia|vm_compute; reflexivity|vm_compute; reflexivity|].
  exists x. split; [done|]. exact He.
Defined.

(** The vote of server 0 survives [crash1] and [start1]. *)
Lemma harness_restart_witness :
  ∃ cfg' o' rf', start1 0 ["c0"; "c1"] 2 (ms 2000) apart = Ok cfg' ∧
    rafts cfg' !! 0%nat = Some (Some o') ∧ objects cfg' !! o' = Some rf' ∧
    CurrentTerm rf' = 1 ∧ VotedFor rf' = 0.
Proof.
  destruct (objects apart !! 0%nat) as [rf|] eqn:Hrf; [|vm_compute in Hrf; discriminate].
  destruct (harness_restart sprint_cmd 2 apart 0 0 rf ["c0"; "c1"] 2 (ms 2000) apart_reach)
    as (cfg' & o' & rf' & Hx & Hr & Ho & Hps & _); [vm_compute; reflexivity|done| | |].
  - apply (allowedb_spec 2 apart (HStart 0 ["c0"; "c1"] 2 0)). vm_compute. reflexivity.
  - apply loadableb_spec. vm_compute. reflexivity.
  - exists cfg', o', rf'. split; [done|]. split; [done|]. split; [done|].
    assert (CurrentTerm rf = 1 ∧ VotedFor rf = 0) as [E1 E2]
      by (vm_compute in Hrf; injection Hrf as <-; split; reflexivity).
    unfold persistentState in Hps. injection Hps as -> -> _ _ _. split; assumption.
Defined.

(** [make_config] starts and connects everybody. *)
Example make_config_connects :
  match make_config false [(["a0"; "a1"], 0%nat, 0); (["b0"; "b1"], 1%nat, 0)] with
  | Ok cfg => connected (C := Z) cfg = [true; true] ∧
      enabled (cfg_net cfg) !! inl "b0" = Some true ∧ saved cfg = [Some (Of 0); Some (Of 1)]
  | _ => False
  end.
Proof. vm_compute. done. Qed.

(** ** One agreement *)

Definition read_by_all : config Z :=
  match run_appliers sprint_cmd plain_handed three_peers with Ok cfg => cfg | _ => three_peers end.

(** Server 0 takes the command at index 1, and two servers commit it. *)
Lemma one_agreement_witness :
  ∃ hs, 2 <= len hs ∧ ∀ j, j ∈ hs → committed read_by_all j 1 = Some (Some 7).
Proof.
  destruct (one_agreement sprint_cmd (Some 7) 2 false 3 2
    [((λ i, if decide (i = 0%nat) then Some (1, true) else None), [three_peers; read_by_all])] false 1)
    as (a & ps & i & cfg & hs & Hin & Ha & Hcfg & _ & Hne & Hl & Hhs).
  - vm_compute. reflexivity.
  - done.
  - apply list_elem_of_singleton in Hin. injection Hin as -> ->. exists hs. split; [exact Hl|].
    intros j Hj. specialize (Hhs j Hj). apply elem_of_cons in Hcfg as [->|Hcfg].
    + unfold committed in Hhs. destruct j as [|[|[|j]]]; cbn in Hhs; discriminate.
    + apply list_elem_of_singleton in Hcfg as ->. exact Hhs.
Defined.

(** ** The end of a test *)
Definition quiet_stats : Stats := mkStats 0 0 0 0 0 0.

Lemma cleanup_kills_witness :
  ∃ cfg' rf, cleanup false 0 quiet_stats apart = Ok (cfg', 1) ∧ objects cfg' !! 0%nat = Some rf ∧ dead rf = true.
Proof.
  destruct (cleanup_kills sprint_cmd 2 apart false 0 quiet_stats apart_reach)
    as [Hx|(cfg' & Hx & _ & _ & _ & Hdead)].
  - vm_compute in Hx. discriminate.
  - destruct (Hdead 0%nat 0%nat) as (rf & Hrf & Hd); [vm_compute; reflexivity|]. exists cfg', rf. auto.
Defined.

(** One agreement is counted for the messages of the agreed run. *)
Lemma end_agreements_witness :
  end_ false (ms 1500) (begin (ms 300) quiet_stats three_peers) read_by_all
  = Ok (Some (ms 1200, 3%nat, 0, 0, 1)).
Proof.
  rewrite (end_agreements sprint_cmd plain_handed three_peers read_by_all quiet_stats (ms 300) (ms 1500)).
  - reflexivity.
  - vm_compute. reflexivity.
  - vm_compute. discriminate.
Defined.

Example too_slow : checkTimeout false (ms 120001) quiet_stats = Fatal "test took longer than 120 seconds".
Proof. reflexivity. Qed.
