(* ===== verification/ServiceHarness.v ===== *)
(** * ServiceHarness: the harness of the service tests

    [src/src/kvraft/config.go], and [src/src/shardctrler/config.go], which is a
    copy of it for the shard controllers.  A [config] owns the network, the
    servers, what they store and the clerks of a test: [StartServer] and
    [ShutdownServer], the connections between servers ([connectUnlocked],
    [disconnectUnlocked], [partition], [make_partition]) and between clerks and
    servers ([makeClient], [ConnectClient], [DisconnectClient]).

    The file is written for any [Service]; [KvraftHarness] and [CtrlHarness] have
    the two packages.  Names drawn by [randstring], the other draws and the
    clock are arguments; so is what [reflect] says of a server. *)
From S2P Require Import Prelude Labgob GoStrings Labrpc RaftTypes Raft RaftHarness.
From stdpp Require Import base gmap strings list_numbers option list.
From Stdlib Require Import ZArith Lia.
#[local] Open Scope Z_scope.
#[local] Open Scope go_scope.

(** What the harness uses of a service: the Raft of a server, how a server is
    started ([servers], [me], [persister], [maxraftstate], the time) and killed,
    and how a clerk is made ([servers], a draw). *)
Class Service (Srv C K : Type) := {
  svc_rf : Srv → Raft C;
  svc_Start : nat → nat → Persister → Z → Z → option Srv;
  svc_Kill : Srv → Srv;
  svc_MakeClerk : nat → Z → K
}.

Record config {Srv K rtype : Type} := mkConfig {
  cfg_net : Network NetName;
  objects : list Srv;                          (* every server that was started *)
  heap : list (Labrpc.Server rtype);         (* every labrpc server *)
  cfg_n : nat;
  kvservers : list (option nat);
  saved : list (option SavedRef);
  endnames : list (option (list string));    (* None is a nil slice *)
  clerk_objects : list (K * list string);    (* every clerk, with its handles *)
  clerks : gmap nat (list string);
  nextClientId : Z;
  cfg_maxraftstate : Z;
  start : Z
}.
Arguments config : clear implicits.
Arguments mkConfig {Srv K rtype} _ _ _ _ _ _ _ _ _ _ _ _.

Section Updates.
Context {Srv K rtype : Type}.
Notation config := (config Srv K rtype).
#[export] Instance upd_cfg_net : Upd (R := config) cfg_net := fun x r =>
  mkConfig x (objects r) (heap r) (cfg_n r) (kvservers r) (saved r) (endnames r) (clerk_objects r) (clerks r) (nextClientId r) (cfg_maxraftstate r) (start r).
#[export] Instance upd_objects : Upd (R := config) objects := fun x r =>
  mkConfig (cfg_net r) x (heap r) (cfg_n r) (kvservers r) (saved r) (endnames r) (clerk_objects r) (clerks r) (nextClientId r) (cfg_maxraftstate r) (start r).
#[export] Instance upd_heap : Upd (R := config) heap := fun x r =>
  mkConfig (cfg_net r) (objects r) x (cfg_n r) (kvservers r) (saved r) (endnames r) (clerk_objects r) (clerks r) (nextClientId r) (cfg_maxraftstate r) (start r).
#[export] Instance upd_kvservers : Upd (R := config) kvservers := fun x r =>
  mkConfig (cfg_net r) (objects r) (heap r) (cfg_n r) x (saved r) (endnames r) (clerk_objects r) (clerks r) (nextClientId r) (cfg_maxraftstate r) (start r).
#[export] Instance upd_saved : Upd (R := config) saved := fun x r =>
  mkConfig (cfg_net r) (objects r) (heap r) (cfg_n r) (kvservers r) x (endnames r) (clerk_objects r) (clerks r) (nextClientId r) (cfg_maxraftstate r) (start r).
#[export] Instance upd_endnames : Upd (R := config) endnames := fun x r =>
  mkConfig (cfg_net r) (objects r) (heap r) (cfg_n r) (kvservers r) (saved r) x (clerk_objects r) (clerks r) (nextClientId r) (cfg_maxraftstate r) (start r).
#[export] Instance upd_clerk_objects : Upd (R := config) clerk_objects := fun x r =>
  mkConfig (cfg_net r) (objects r) (heap r) (cfg_n r) (kvservers r) (saved r) (endnames r) x (clerks r) (nextClientId r) (cfg_maxraftstate r) (start r).
#[export] Instance upd_clerks : Upd (R := config) clerks := fun x r =>
  mkConfig (cfg_net r) (objects r) (heap r) (cfg_n r) (kvservers r) (saved r) (endnames r) (clerk_objects r) x (nextClientId r) (cfg_maxraftstate r) (start r).
#[export] Instance upd_nextClientId : Upd (R := config) nextClientId := fun x r =>
  mkConfig (cfg_net r) (objects r) (heap r) (cfg_n r) (kvservers r) (saved r) (endnames r) (clerk_objects r) (clerks r) x (cfg_maxraftstate r) (start r).
End Updates.

(** A loop whose body may end the test. *)
Fixpoint for_each {A T} (body : A → T → result T) (l : list A) (x : T) : result T :=
  match l with
  | [] => Ok x
  | a :: l => x ← body a x; for_each body l x
  end.

(** ** Handles in random order

    [draw i] is [rand.Intn(i + 1)]. *)
Definition swap {A} (i j : nat) (sa : list A) : result (list A) :=
  a ← or_panic (sa !! i);
  b ← or_panic (sa !! j);
  Ok (<[i := b]> (<[j := a]> sa)).

Definition random_handles {A} (draw : nat → nat) (kvh : list A) : result (list A) :=
  for_each (λ i sa, swap i (draw i) sa) (seq 0 (length kvh)) kvh.

Section ServiceHarness.
Context {Srv C K rtype : Type} {svc : Service Srv C K}.
Notation config := (config Srv K rtype).
Implicit Types (cfg : config) (i j ck : nat) (to from p : list nat).

(** What [reflect] says of the server [o] and of its [rf]. *)
Context (svc_rcvr rf_rcvr : nat → Rcvr rtype).

(** ** Connections between servers *)

(** [cfg.endnames[i][j]], where a nil slice has no elements. *)
Definition end_of i j cfg : result string :=
  row ← or_panic (endnames cfg !! i);
  or_panic (default [] row !! j).

(** A loop over a slice of servers, [k] its index, that enables or disables at
    most one end for each. *)
Fixpoint set_ends (name : nat → nat → result (option string)) (yes : bool) (k : nat)
    (js : list nat) (rn : Network NetName) : result (Network NetName) :=
  match js with
  | [] => Ok rn
  | j :: js =>
      endname ← name k j;
      set_ends name yes (k + 1)%nat js
        (match endname with Some x => Enable (inl x) yes rn | None => rn end)
  end.

(** Attach server [i] to the servers in [to]. *)
Definition connectUnlocked i to cfg : result config :=
  rn ← set_ends (λ _ j, endname ← end_of i j cfg; Ok (Some endname)) true 0 to (cfg_net cfg);
  rn ← set_ends (λ _ j, endname ← end_of j i cfg; Ok (Some endname)) true 0 to rn;
  Ok (cfg <| cfg_net := rn |>).

(** The loops of [disconnectUnlocked] skip a nil slice; the second one looks at
    the slice at the index of the loop. *)
Definition outgoing_end i j cfg : result (option string) :=
  row ← or_panic (endnames cfg !! i);
  match row with
  | Some names => endname ← or_panic (names !! j); Ok (Some endname)
  | None => Ok None
  end.

Definition incoming_end i (k : nat) j cfg : result (option string) :=
  row ← or_panic (endnames cfg !! k);
  match row with
  | Some _ => endname ← end_of j i cfg; Ok (Some endname)
  | None => Ok None
  end.

(** Detach server [i] from the servers in [from]. *)
Definition disconnectUnlocked i from cfg : result config :=
  rn ← set_ends (λ _ j, outgoing_end i j cfg) false 0 from (cfg_net cfg);
  rn ← set_ends (λ k j, incoming_end i k j cfg) false 0 from rn;
  Ok (cfg <| cfg_net := rn |>).

Definition All cfg : list nat := seq 0 (cfg_n cfg).

Definition ConnectAll cfg : result config :=
  for_each (λ i cfg, connectUnlocked i (All cfg) cfg) (seq 0 (cfg_n cfg)) cfg.

(** One of the two loops of [partition]: the servers of [p] leave [other]. *)
Definition join_part (p other : list nat) cfg : result config :=
  for_each (λ i cfg,
      cfg ← disconnectUnlocked i other cfg;
      connectUnlocked i p cfg) p cfg.

Definition partition p1 p2 cfg : result config :=
  cfg ← join_part p1 p2 cfg;
  join_part p2 p1 cfg.

(** ** Clerks *)

Definition ConnectClientUnlocked ck to cfg : result config :=
  let names := default [] (clerks cfg !! ck) in
  rn ← set_ends (λ _ j, s ← or_panic (names !! j); Ok (Some s)) true 0 to (cfg_net cfg);
  Ok (cfg <| cfg_net := rn |>).

Definition DisconnectClientUnlocked ck from cfg : result config :=
  let names := default [] (clerks cfg !! ck) in
  rn ← set_ends (λ _ j, s ← or_panic (names !! j); Ok (Some s)) false 0 from (cfg_net cfg);
  Ok (cfg <| cfg_net := rn |>).

(** [names] are the end names drawn, [rnd] the draw of [MakeClerk].  Returns the
    clerk, the index of its object. *)
Definition makeClient (names : list string) (draw : nat → nat) (rnd : Z) to cfg : result (config * nat) :=
  rn ← make_ends 0 names (cfg_net cfg);
  let cfg := cfg <| cfg_net := rn |> in
  handles ← random_handles draw names;
  let ck := length (clerk_objects cfg) in
  let cfg := cfg <| clerk_objects := clerk_objects cfg ++ [(svc_MakeClerk (length handles) rnd, handles)] |> in
  let cfg := cfg <| clerks := <[ck := names]> (clerks cfg) |> in
  let cfg := cfg <| nextClientId := nextClientId cfg + 1 |> in
  cfg ← ConnectClientUnlocked ck to cfg;
  Ok (cfg, ck).

(** The files it removes do not exist. *)
Definition deleteClient ck cfg : config := cfg <| clerks := delete ck (clerks cfg) |>.

(** ** Servers that start and stop *)

(** What a persister holds now. *)
Definition contents (r : SavedRef) cfg : result Persister :=
  match r with
  | Owned ps => Ok ps
  | Of o => s ← or_panic (objects cfg !! o); Ok (persister (svc_rf s))
  end.

(** [cfg.saved[i] = cfg.saved[i].Copy()], unless it is nil. *)
Definition copy_saved i cfg : result config :=
  ref ← or_panic (saved cfg !! i);
  match ref with
  | None => Ok cfg
  | Some ref =>
      ps ← contents ref cfg;
      saved' ← set_at i (Some (Owned (Copy ps))) (saved cfg);
      Ok (cfg <| saved := saved' |>)
  end.

(** [kv.Kill()] and [cfg.kvservers[i] = nil], unless it is nil. *)
Definition kill_server i cfg : result config :=
  o ← or_panic (kvservers cfg !! i);
  match o with
  | None => Ok cfg
  | Some o =>
      s ← or_panic (objects cfg !! o);
      let cfg := cfg <| objects := <[o := svc_Kill s]> (objects cfg) |> in
      servers' ← set_at i None (kvservers cfg);
      Ok (cfg <| kvservers := servers' |>)
  end.

Definition ShutdownServer i cfg : result config :=
  cfg ← disconnectUnlocked i (All cfg) cfg;
  let cfg := cfg <| cfg_net := DeleteServer (server_name i) (cfg_net cfg) |> in
  cfg ← copy_saved i cfg;
  kill_server i cfg.

(** The persister for the new instance: a copy of the saved one, or a new one. *)
Definition prepare_saved i cfg : result config :=
  ref ← or_panic (saved cfg !! i);
  match ref with
  | Some _ => copy_saved i cfg
  | None =>
      saved' ← set_at i (Some (Owned MakePersister)) (saved cfg);
      Ok (cfg <| saved := saved' |>)
  end.

(** [cfg.kvservers[i] = StartKVServer(...)] on the saved persister, which the
    new server shares from now on. *)
Definition make_server i (now : Z) cfg : result config :=
  ref ← or_panic (saved cfg !! i);
  ref ← or_panic ref;
  ps ← contents ref cfg;
  s ← or_panic (svc_Start (cfg_n cfg) i ps (cfg_maxraftstate cfg) now);
  let o := length (objects cfg) in
  let cfg := cfg <| objects := objects cfg ++ [s] |> in
  saved' ← set_at i (Some (Of o)) (saved cfg);
  let cfg := cfg <| saved := saved' |> in
  servers' ← set_at i (Some o) (kvservers cfg);
  Ok (cfg <| kvservers := servers' |>).

(** The services of [cfg.kvservers[i]] and of its [rf] on a new server. *)
Definition register i cfg : result config :=
  o ← or_panic (kvservers cfg !! i);
  o ← or_panic o;
  let kvsvc := MakeService (svc_rcvr o) in
  let rfsvc := MakeService (rf_rcvr o) in
  let srv := AddService rfsvc (AddService kvsvc MakeServer) in
  let ptr := length (heap cfg) in
  let cfg := cfg <| heap := heap cfg ++ [srv] |> in
  Ok (cfg <| cfg_net := AddServer (server_name i) ptr (cfg_net cfg) |>).

(** [names] are the [cfg.n] names drawn, [now] the time in [Make]. *)
Definition StartServer i (names : list string) (now : Z) cfg : result config :=
  endnames' ← set_at i (Some names) (endnames cfg);
  let cfg := cfg <| endnames := endnames' |> in
  rn ← make_ends 0 names (cfg_net cfg);
  let cfg := cfg <| cfg_net := rn |> in
  cfg ← prepare_saved i cfg;
  cfg ← make_server i now cfg;
  register i cfg.

(** Maximum sizes across all servers. *)
Definition max_size (size : Persister → Z) cfg : result Z :=
  for_each (λ i biggest,
      ref ← or_panic (saved cfg !! i);
      ref ← or_panic ref;
      ps ← contents ref cfg;
      let n := size ps in
      Ok (if decide (n > biggest) then n else biggest))
    (seq 0 (cfg_n cfg)) 0.

Definition LogSize : config → result Z := max_size RaftStateSize.
Definition SnapshotSize : config → result Z := max_size RaftTypes.SnapshotSize.

(** [cfg.kvservers[i].rf.GetState()], where [cfg.kvservers[i]] is not nil. *)
Definition state_of (o : nat) cfg : result (Z * bool) :=
  s ← or_panic (objects cfg !! o);
  Ok (GetState (svc_rf s)).

(** ** The start of a test and its end *)
Definition new_config (n : nat) (maxraftstate now : Z) : config :=
  mkConfig MakeNetwork [] [] n (replicate n None) (replicate n None) (replicate n None) [] ∅
    (Z.of_nat n + 1000) maxraftstate now.

Fixpoint start_all (i : nat) (starts : list (list string * Z)) cfg : result config :=
  match starts with
  | [] => Ok cfg
  | (names, now) :: starts =>
      cfg ← StartServer i names now cfg;
      start_all (S i) starts cfg
  end.

(** [starts] has the draws and the time for each of the [n] servers. *)
Definition make_config (unreliable : bool) (maxraftstate now : Z) (starts : list (list string * Z)) : result config :=
  cfg ← start_all 0 starts (new_config (length starts) maxraftstate now);
  cfg ← ConnectAll cfg;
  Ok (cfg <| cfg_net := Reliable (negb unreliable) (cfg_net cfg) |>).

(** Two minutes of real time, in nanoseconds. *)
Definition checkTimeout (failed : bool) (now : Z) cfg : result unit :=
  if negb failed && bool_decide (now - start cfg > 120 * 1000 * millisecond)
  then Fatal "test took longer than 120 seconds" else Ok tt.

(** Every server is killed; [rn.Cleanup] only ends the goroutine of the network. *)
Definition cleanup (failed : bool) (now : Z) cfg : result config :=
  cfg ← for_each (λ (o : option nat) cfg,
      match o with
      | Some o => s ← or_panic (objects cfg !! o); Ok (cfg <| objects := <[o := svc_Kill s]> (objects cfg) |>)
      | None => Ok cfg
      end) (kvservers cfg) cfg;
  _ ← checkTimeout failed now cfg;
  Ok cfg.
End ServiceHarness.

(** ** Half of the servers

    [l] is what [Leader] gave.  The others fill [p1], then the start of [p2]. *)
Fixpoint fill_parts (js : list nat) (l j : nat) (p1 p2 : list nat) : result (list nat * list nat) :=
  match js with
  | [] => Ok (p1, p2)
  | i :: js =>
      if decide (i ≠ l) then
        if decide (j < length p1)%nat then
          p1 ← set_at j i p1;
          fill_parts js l (j + 1)%nat p1 p2
        else
          p2 ← set_at (j - length p1)%nat i p2;
          fill_parts js l (j + 1)%nat p1 p2
      else fill_parts js l j p1 p2
  end.

Definition make_partition (n l : nat) : result (list nat * list nat) :=
  let p1 := replicate (n / 2 + 1)%nat 0%nat in
  let p2 := replicate (n / 2)%nat 0%nat in
  '(p1, p2) ← fill_parts (seq 0 n) l 0 p1 p2;
  p2 ← (if decide (length p2 = 0%nat) then Panic else set_at (length p2 - 1)%nat l p2);
  Ok (p1, p2).

(** ** Statistics of a test: [begin], [op], [end] *)
Record Stats := mkStats { t0 : Z; rpcs0 : Z; ops : Z }.

Definition rpcTotal (rn : Network NetName) : Z := GetTotalCount rn.

Definition begin (now : Z) (rn : Network NetName) : Stats := mkStats now (rpcTotal rn) 0.

(** [atomic.AddInt32] *)
Definition op (stats : Stats) : Stats := mkStats (t0 stats) (rpcs0 stats) (wrap32 (ops stats + 1)).

(** The numbers printed, if the test did not fail: nanoseconds since [begin], the
    servers, the RPCs and the operations. *)
Definition end_ {Srv K rtype} (failed : bool) (now : Z) (stats : Stats) (cfg : config Srv K rtype)
    : result (option (Z * nat * Z * Z)) :=
  _ ← checkTimeout failed now cfg;
  Ok (if failed then None
      else Some (now - t0 stats, cfg_n cfg, rpcTotal (cfg_net cfg) - rpcs0 stats, ops stats)).
