(* ===== verification/ServiceNet.v ===== *)
(** * ServiceNet: who can reach whom in the service tests

    The connections that [ServiceHarness] makes: what [connectUnlocked] and
    [disconnectUnlocked] do to the ends between servers, that [partition] splits
    the servers into two parts, and that [make_partition] leaves the leader with
    a minority. *)
From stdpp Require Import base gmap strings list_numbers option list.
From Stdlib Require Import ZArith Lia.
From S2P Require Import Prelude Labgob Labrpc RaftTypes Raft RaftNode RaftHarness RaftHarnessNet ServiceHarness.
#[local] Open Scope Z_scope.
#[local] Open Scope go_scope.

(** ** Loops *)
Lemma for_each_app {A T} (body : A → T → result T) l1 l2 x :
  for_each body (l1 ++ l2) x = (x ← for_each body l1 x; for_each body l2 x).
Proof.
  revert x. induction l1 as [|a l1 IH]; intros x; [done|]. cbn.
  destruct (body a x); cbn; [apply IH|done|done].
Qed.

(** A loop that keeps an invariant and never ends the test. *)
Lemma for_each_Ok {A T} (body : A → T → result T) (I : list A → T → Prop) l x :
  I [] x →
  (∀ done a rest x, l = done ++ a :: rest → I done x → ∃ x', body a x = Ok x' ∧ I (done ++ [a]) x') →
  ∃ x', for_each body l x = Ok x' ∧ I l x'.
Proof.
  intros Hi Hb.
  assert (∀ rest done x, l = done ++ rest → I done x → ∃ x', for_each body rest x = Ok x' ∧ I l x') as Hall.
  { induction rest as [|a rest IH]; intros d y Hl Hy.
    - rewrite app_nil_r in Hl. subst d. by exists y.
    - destruct (Hb _ _ _ _ Hl Hy) as (y1 & Hx & Hy1). cbn. rewrite Hx. cbn.
      apply (IH (d ++ [a])); [by rewrite <- app_assoc|done]. }
  by apply (Hall l []).
Qed.

Section ServiceNet.
Context {Srv C K rtype : Type} {svc : Service Srv C K}.
Notation config := (config Srv K rtype).
Implicit Types (cfg : config) (i j k n : nat) (x : string) (names : list string) (rn : Network NetName).

(** The name of the end from [i] to [j], and whether it is enabled. *)
Definition current cfg i j : option string :=
  row ← endnames cfg !! i; names ← row; names !! j.

Definition link cfg i j : option bool :=
  x ← current cfg i j; enabled (cfg_net cfg) !! inl x.

(** The ends between servers. *)
Record wired n cfg : Prop := {
  w_n : cfg_n cfg = n ∧ length (endnames cfg) = n;
  w_row i names : endnames cfg !! i = Some (Some names) → length names = n;
  w_inj i j i' j' x : current cfg i j = Some x → current cfg i' j' = Some x → i = i' ∧ j = j';
  w_end i j x : current cfg i j = Some x →
    is_Some (ends (cfg_net cfg) !! inl x) ∧ is_Some (enabled (cfg_net cfg) !! inl x) ∧
    connections (cfg_net cfg) !! inl x = Some (Some (server_name j))
}.

(** Every server was started. *)
Definition all_started n cfg : Prop := ∀ i, (i < n)%nat → ∃ names, endnames cfg !! i = Some (Some names).

Lemma set_ends_Ok (name : nat → nat → result (option string)) (h : nat → option string) yes k js rn :
  (∀ m j, js !! m = Some j → name (k + m)%nat j = Ok (h j)) →
  set_ends name yes k js rn = Ok (enable_all (omap h js) yes rn).
Proof.
  revert k rn. induction js as [|j js IH]; intros k rn Hn; [done|]. cbn [set_ends].
  pose proof (Hn 0%nat j eq_refl) as Hj. rewrite Nat.add_0_r in Hj. rewrite Hj. cbn [mbind result_bind].
  rewrite IH.
  - cbn. by destruct (h j).
  - intros m j' Hm. replace (k + 1 + m)%nat with (k + S m)%nat by lia. by apply Hn.
Qed.

(** What a loop that returns has done. *)
Lemma set_ends_inv (name : nat → nat → result (option string)) yes k js rn rn' :
  set_ends name yes k js rn = Ok rn' →
  ∃ xs, rn' = enable_all xs yes rn ∧ ∀ x, x ∈ xs → ∃ m j, js !! m = Some j ∧ name (k + m)%nat j = Ok (Some x).
Proof.
  revert k rn. induction js as [|j js IH]; intros k rn Hs; cbn in Hs.
  { injection Hs as <-. exists []. split; [done|]. by intros x Hx%elem_of_nil. }
  apply bind_Ok in Hs as (e & He & (xs & -> & Hxs)%IH).
  assert (∀ x, x ∈ xs → ∃ m j', (j :: js) !! m = Some j' ∧ name (k + m)%nat j' = Ok (Some x)) as Hxs'.
  { intros x (m & j' & Hm & Hx)%Hxs. exists (S m), j'. split; [done|]. by replace (k + S m)%nat with (k + 1 + m)%nat by lia. }
  destruct e as [x|].
  - exists (x :: xs). split; [done|]. intros y [->|Hy]%elem_of_cons; [|by apply Hxs'].
    exists 0%nat, j. by rewrite Nat.add_0_r.
  - by exists xs.
Qed.

Lemma end_of_Ok i j cfg x : end_of i j cfg = Ok x ↔ current cfg i j = Some x.
Proof.
  unfold end_of, current. destruct (endnames cfg !! i) as [[names|]|]; cbn; rewrite ?or_panic_Ok; naive_solver.
Qed.

Lemma service_current_lt n cfg i j x : wired n cfg → current cfg i j = Some x → (i < n)%nat ∧ (j < n)%nat.
Proof.
  intros Hw (row & Hi & (names & -> & Hj)%bind_Some)%bind_Some.
  destruct (w_n _ _ Hw) as (_ & <-). split; [by eapply lookup_lt_Some|].
  rewrite <- (w_row _ _ Hw _ _ Hi). by eapply lookup_lt_Some.
Qed.

Lemma current_started n cfg i j :
  wired n cfg → all_started n cfg → (i < n)%nat → (j < n)%nat → ∃ x, current cfg i j = Some x.
Proof.
  intros Hw Hs Hi Hj. destruct (Hs i Hi) as [names Hr]. unfold current. rewrite Hr. cbn.
  apply lookup_lt_is_Some_2. by rewrite (w_row _ _ Hw _ _ Hr).
Qed.

(** ** Connecting and disconnecting *)

(** [cfg'] is [cfg] with the ends set for which [F] has a value. *)
Record relinked (F : nat → nat → option bool) cfg cfg' : Prop := {
  r_net : ∃ rn, cfg' = cfg <| cfg_net := rn |> ∧ ends rn = ends (cfg_net cfg) ∧
    connections rn = connections (cfg_net cfg) ∧ servers rn = servers (cfg_net cfg);
  r_link a b : is_Some (current cfg a b) →
    link cfg' a b = match F a b with Some yes => Some yes | None => link cfg a b end;
  r_other x : (∀ a b, current cfg a b ≠ Some x) →
    enabled (cfg_net cfg') !! inl x = enabled (cfg_net cfg) !! inl x
}.

(** The ends between [i] and the servers in [js]. *)
Definition between i (js : list nat) (yes : bool) : nat → nat → option bool := λ a b,
  if decide ((a = i ∧ b ∈ js) ∨ (b = i ∧ a ∈ js)) then Some yes else None.

(** First [F], then [G]. *)
Definition after_that (F G : nat → nat → option bool) : nat → nat → option bool := λ a b,
  match G a b with Some yes => Some yes | None => F a b end.

Lemma relinked_current F cfg cfg' a b : relinked F cfg cfg' → current cfg' a b = current cfg a b.
Proof. by intros [(rn & -> & _) _ _]. Qed.

Lemma relinked_refl cfg : relinked (λ _ _, None) cfg cfg.
Proof. split; try done. exists (cfg_net cfg). by destruct cfg. Qed.

Lemma relinked_ext F G cfg cfg' : (∀ a b, F a b = G a b) → relinked F cfg cfg' → relinked G cfg cfg'.
Proof. intros Hfg [Hn Hl Ho]. split; try done. intros a b Hab. rewrite Hl by done. by rewrite Hfg. Qed.

Lemma relinked_trans F G cfg1 cfg2 cfg3 :
  relinked F cfg1 cfg2 → relinked G cfg2 cfg3 → relinked (after_that F G) cfg1 cfg3.
Proof.
  intros H1' H2'. split.
  - destruct H1' as [(rn & -> & E1 & E2 & E3) _ _], H2' as [(rn' & -> & F1 & F2 & F3) _ _].
    exists rn'. cbn in *. split; [done|]. rewrite F1, F2, F3. done.
  - intros a b Hab. pose proof (relinked_current _ _ _ a b H1') as Hc.
    rewrite (r_link _ _ _ H2') by (by rewrite Hc). rewrite (r_link _ _ _ H1') by done. unfold after_that.
    by destruct (G a b).
  - intros x Hx. rewrite (r_other _ _ _ H2'); [by apply (r_other _ _ _ H1')|].
    intros a b. rewrite (relinked_current _ _ _ a b H1'). apply Hx.
Qed.

Lemma relinked_wired n F cfg cfg' :
  wired n cfg → all_started n cfg → relinked F cfg cfg' → wired n cfg' ∧ all_started n cfg'.
Proof.
  intros Hw Hs Hr. pose proof (λ a b, relinked_current _ _ _ a b Hr) as Hc.
  destruct (r_net _ _ _ Hr) as (rn & -> & E1 & E2 & _). split; [|exact Hs].
  split; [exact (w_n _ _ Hw)|exact (w_row _ _ Hw)|exact (w_inj _ _ Hw)|].
  intros a b x Hx. rewrite Hc in Hx. cbn. rewrite E1, E2. destruct (w_end _ _ Hw _ _ _ Hx) as (He & Hen & Hcn).
  split; [done|]. split; [|done]. pose proof (r_link _ _ _ Hr a b ltac:(by eexists)) as Hl.
  unfold link in Hl. rewrite Hc, Hx in Hl. cbn in Hl. rewrite Hl. by destruct (F a b).
Qed.

Lemma relinked_twice n cfg i js yes :
  wired n cfg →
  let outs := omap (current cfg i) js in
  let ins := omap (λ j, current cfg j i) js in
  relinked (between i js yes) cfg (cfg <| cfg_net := enable_all ins yes (enable_all outs yes (cfg_net cfg)) |>).
Proof.
  intros Hw outs ins. destruct (enable_twice outs ins yes (cfg_net cfg)) as (E1 & E2 & E3 & E4). cbn zeta in *.
  split.
  - eexists. split; [reflexivity|]. by rewrite E1, E2, E3.
  - intros a b [x Hx]. unfold link. change (current _ a b) with (current cfg a b). rewrite Hx. cbn -[enable_all].
    rewrite E4. unfold between.
    assert ((x ∈ outs ∨ x ∈ ins) ↔ (a = i ∧ b ∈ js) ∨ (b = i ∧ a ∈ js)) as Hiff; [|repeat case_decide; tauto || done].
    subst outs ins. rewrite !list_elem_of_omap. split.
    + intros [(j & Hj & Hc)|(j & Hj & Hc)]; destruct (w_inj _ _ Hw _ _ _ _ _ Hx Hc) as [-> ->]; auto.
    + intros [[-> Hb]|[-> Ha]]; [left; by exists b|right; by exists a].
  - intros x Hno. cbn -[enable_all]. rewrite E4, decide_False; [done|]. subst outs ins. rewrite !list_elem_of_omap.
    intros [(j & _ & Hc)|(j & _ & Hc)]; by apply Hno in Hc.
Qed.

Lemma connectUnlocked_Ok n cfg i js :
  wired n cfg → all_started n cfg → (i < n)%nat → (∀ j, j ∈ js → (j < n)%nat) →
  ∃ cfg', connectUnlocked i js cfg = Ok cfg' ∧ relinked (between i js true) cfg cfg'.
Proof.
  intros Hw Hs Hi Hjs. unfold connectUnlocked.
  assert (∀ m j, js !! m = Some j → (j < n)%nat) as Hlt by (intros m j Hm; apply Hjs; by eapply list_elem_of_lookup_2).
  rewrite (set_ends_Ok _ (current cfg i)).
  2:{ intros m j Hj. destruct (current_started n cfg i j Hw Hs Hi (Hlt _ _ Hj)) as [x Hx].
      assert (end_of i j cfg = Ok x) as -> by (by apply end_of_Ok). by rewrite Hx. }
  cbn [mbind result_bind]. rewrite (set_ends_Ok _ (λ j, current cfg j i)).
  2:{ intros m j Hj. destruct (current_started n cfg j i Hw Hs (Hlt _ _ Hj) Hi) as [x Hx].
      assert (end_of j i cfg = Ok x) as -> by (by apply end_of_Ok). by rewrite Hx. }
  cbn [mbind result_bind]. eexists. split; [reflexivity|]. by apply (relinked_twice n).
Qed.

(** The second loop looks for nil slices at the indices of [js]. *)
Lemma disconnectUnlocked_Ok n cfg i js :
  wired n cfg → all_started n cfg → (i < n)%nat → (∀ j, j ∈ js → (j < n)%nat) → (length js <= n)%nat →
  ∃ cfg', disconnectUnlocked i js cfg = Ok cfg' ∧ relinked (between i js false) cfg cfg'.
Proof.
  intros Hw Hs Hi Hjs Hlen. unfold disconnectUnlocked.
  assert (∀ m j, js !! m = Some j → (m < n)%nat ∧ (j < n)%nat) as Hlt.
  { intros m j Hm. split; [apply lookup_lt_Some in Hm; lia|apply Hjs; by eapply list_elem_of_lookup_2]. }
  rewrite (set_ends_Ok _ (current cfg i)).
  2:{ intros m j Hj. destruct (Hlt _ _ Hj) as [_ Hjn]. destruct (current_started n cfg i j Hw Hs Hi Hjn) as [x Hx].
      destruct (Hs i Hi) as [names Hr]. unfold outgoing_end. rewrite Hr. cbn. rewrite Hx.
      unfold current in Hx. rewrite Hr in Hx. cbn in Hx. by rewrite Hx. }
  cbn [mbind result_bind]. rewrite (set_ends_Ok _ (λ j, current cfg j i)).
  2:{ intros m j Hj. destruct (Hlt _ _ Hj) as [Hm Hjn]. destruct (current_started n cfg j i Hw Hs Hjn Hi) as [x Hx].
      destruct (Hs m Hm) as [names Hr]. cbn [Nat.add]. unfold incoming_end. rewrite Hr. cbn [or_panic mbind result_bind].
      assert (end_of j i cfg = Ok x) as -> by (by apply end_of_Ok). by rewrite Hx. }
  cbn [mbind result_bind]. eexists. split; [reflexivity|]. by apply (relinked_twice n).
Qed.

(** ** Partitions *)

(** What one loop of [partition] has set when it is done with [d]. *)
Definition part_so_far (d p other : list nat) : nat → nat → option bool := λ a b,
  if decide ((a ∈ d ∧ b ∈ p) ∨ (b ∈ d ∧ a ∈ p)) then Some true
  else if decide ((a ∈ d ∧ b ∈ other) ∨ (b ∈ d ∧ a ∈ other)) then Some false
  else None.

Lemma part_so_far_snoc i d p other a b :
  (∀ j, j ∈ p → j ∈ other → False) → (∀ j, j ∈ d → j ∈ p) → i ∈ p →
  after_that (after_that (part_so_far d p other) (between i other false)) (between i p true) a b =
  part_so_far (d ++ [i]) p other a b.
Proof.
  intros Hdis Hd Hi. unfold after_that, part_so_far, between.
  repeat case_decide; try done; set_solver.
Qed.

Lemma join_part_Ok n cfg p other :
  wired n cfg → all_started n cfg → (∀ j, j ∈ p ∨ j ∈ other → (j < n)%nat) → (length other <= n)%nat →
  (∀ j, j ∈ p → j ∈ other → False) →
  ∃ cfg', join_part p other cfg = Ok cfg' ∧ relinked (part_so_far p p other) cfg cfg'.
Proof.
  intros Hw Hs Hlt Hlen Hdis. unfold join_part.
  apply (for_each_Ok _ (λ d cfg', relinked (part_so_far d p other) cfg cfg')).
  { eapply relinked_ext; [|apply relinked_refl]. intros a b. unfold part_so_far.
    rewrite decide_False by set_solver. by rewrite decide_False by set_solver. }
  intros d i rest cfg1 Hp Hr. destruct (relinked_wired n _ _ _ Hw Hs Hr) as [Hw1 Hs1].
  assert (i ∈ p) as Hip by (rewrite Hp; set_solver).
  destruct (disconnectUnlocked_Ok n cfg1 i other) as (cfg2 & -> & Hr2); try done; [auto..|]. cbn [mbind result_bind].
  destruct (relinked_wired n _ _ _ Hw1 Hs1 Hr2) as [Hw2 Hs2].
  destruct (connectUnlocked_Ok n cfg2 i p) as (cfg3 & -> & Hr3); try done; [auto..|].
  exists cfg3. split; [done|]. eapply relinked_ext; [|by eapply relinked_trans; [eapply relinked_trans|]].
  intros a b. apply part_so_far_snoc; [done|rewrite Hp; set_solver|done].
Qed.

(** Both in one part, or not. *)
Definition parted (p1 p2 : list nat) : nat → nat → option bool := λ a b,
  if decide ((a ∈ p1 ∧ b ∈ p1) ∨ (a ∈ p2 ∧ b ∈ p2)) then Some true
  else if decide ((a ∈ p1 ∧ b ∈ p2) ∨ (a ∈ p2 ∧ b ∈ p1)) then Some false
  else None.

Lemma partition_Ok n cfg p1 p2 :
  wired n cfg → all_started n cfg → NoDup (p1 ++ p2) → (∀ j, j ∈ p1 ++ p2 → (j < n)%nat) →
  ∃ cfg', partition p1 p2 cfg = Ok cfg' ∧ relinked (parted p1 p2) cfg cfg'.
Proof.
  intros Hw Hs Hnd Hlt. assert (∀ j, j ∈ p1 → j ∈ p2 → False) as Hdis by (by apply NoDup_app in Hnd as (_ & ? & _)).
  assert (length (p1 ++ p2) <= n)%nat as Hlen.
  { rewrite <- (length_seq n 0). apply submseteq_length, NoDup_submseteq; [done|].
    intros j Hj%Hlt. apply elem_of_seq. lia. }
  rewrite length_app in Hlen. unfold partition.
  destruct (join_part_Ok n cfg p1 p2) as (cfg1 & -> & Hr1); try done; [set_solver|lia|]. cbn [mbind result_bind].
  destruct (relinked_wired n _ _ _ Hw Hs Hr1) as [Hw1 Hs1].
  destruct (join_part_Ok n cfg1 p2 p1) as (cfg2 & -> & Hr2); try done; [set_solver|lia|naive_solver|].
  exists cfg2. split; [done|]. eapply relinked_ext; [|by eapply relinked_trans]. intros a b.
  pose proof (Hdis a); pose proof (Hdis b).
  unfold after_that, part_so_far, parted. repeat case_decide; done || (exfalso; tauto).
Qed.
End ServiceNet.

(** ** Half of the servers *)

(** The two slices are filled as if they were one. *)
Lemma fill_parts_Ok js l j p1 p2 :
  let others := filter (λ i, i ≠ l) js in
  (j + length others <= length p1 + length p2)%nat →
  ∃ q1 q2, fill_parts js l j p1 p2 = Ok (q1, q2) ∧ length q1 = length p1 ∧ length q2 = length p2 ∧
    q1 ++ q2 = take j (p1 ++ p2) ++ others ++ drop (j + length others) (p1 ++ p2).
Proof.
  revert j p1 p2. induction js as [|i js IH]; intros j p1 p2 others Hlen; subst others.
  { exists p1, p2. split; [done|]. split; [done|]. split; [done|].
    change (filter _ []) with (@nil nat). by rewrite Nat.add_0_r, app_nil_l, take_drop. }
  cbn [fill_parts]. rewrite filter_cons in Hlen |- *. case_decide as Hi; [|by apply IH]. cbn [length] in Hlen |- *.
  assert (∀ q1 q2, length q1 = length p1 → length q2 = length p2 → q1 ++ q2 = <[j := i]> (p1 ++ p2) →
    ∃ r1 r2, fill_parts js l (j + 1)%nat q1 q2 = Ok (r1, r2) ∧ length r1 = length p1 ∧ length r2 = length p2 ∧
    r1 ++ r2 = take j (p1 ++ p2) ++ (i :: filter (λ i, i ≠ l) js) ++
      drop (j + S (length (filter (λ i, i ≠ l) js))) (p1 ++ p2)) as Hgo.
  { intros q1 q2 L1 L2 E. destruct (IH (j + 1)%nat q1 q2) as (r1 & r2 & Hf & M1 & M2 & Er); [lia|].
    exists r1, r2. rewrite Hf, M1, M2, Er, E. split; [done|]. split; [done|]. split; [done|].
    rewrite Nat.add_1_r, (take_S_r _ j i) by (apply list_lookup_insert_eq; rewrite length_app; lia).
    rewrite take_insert_ge by lia. rewrite drop_insert_lt by lia. rewrite <- !app_assoc. cbn.
    do 4 f_equal. lia. }
  unfold set_at, Raft.set_index. case_decide as Hj.
  - cbn [or_panic mbind result_bind]. apply Hgo; [by rewrite length_insert|done|].
    by rewrite insert_app_l.
  - rewrite decide_True by lia. cbn [or_panic mbind result_bind]. apply Hgo; [done|by rewrite length_insert|].
    rewrite insert_app_r_alt by lia. done.
Qed.


Lemma others_length n l : (l < n)%nat → length (filter (λ i, i ≠ l) (seq 0 n)) = (n - 1)%nat.
Proof.
  intros Hl. assert (l :: filter (λ i, i ≠ l) (seq 0 n) ≡ₚ seq 0 n) as Hp.
  { apply NoDup_Permutation.
    - apply NoDup_cons. split; [rewrite list_elem_of_filter; tauto|]. by apply NoDup_filter, NoDup_seq.
    - apply NoDup_seq.
    - intros x. rewrite elem_of_cons, list_elem_of_filter, elem_of_seq. destruct (decide (x = l)); lia || naive_solver. }
  apply Permutation_length in Hp. rewrite length_seq in Hp. cbn in Hp. lia.
Qed.

(** With an odd number of servers the parts hold each server once, the leader
    last; with an even number one slot is left over, and stays 0. *)
Lemma make_partition_Ok n l :
  (1 < n)%nat → (l < n)%nat →
  ∃ p1 p2, make_partition n l = Ok (p1, p2) ∧ length p1 = (n / 2 + 1)%nat ∧ length p2 = (n / 2)%nat ∧
    p1 ++ p2 = filter (λ i, i ≠ l) (seq 0 n) ++ (if Nat.even n then [0%nat] else []) ++ [l].
Proof.
  intros Hn Hl. pose proof (others_length n l Hl) as Hlen. unfold make_partition.
  assert (n = n / 2 + n / 2 + (if Nat.even n then 0 else 1))%nat as Hhalf.
  { pose proof (Nat.div_mod_eq n 2) as E. pose proof (Nat.mod_upper_bound n 2 ltac:(lia)).
    destruct (Nat.even n) eqn:He.
    - apply Nat.even_spec in He as [k ->]. rewrite Nat.mul_comm, Nat.div_mul by lia. lia.
    - rewrite <- Nat.negb_odd, negb_false_iff in He. apply Nat.odd_spec in He as [k ->].
      rewrite Nat.add_comm, Nat.mul_comm, Nat.div_add by lia. cbn. lia. }
  assert (1 <= n / 2)%nat as Hpos by (apply (Nat.div_le_lower_bound n 2 1); lia).
  destruct (fill_parts_Ok (seq 0 n) l 0 (replicate (n / 2 + 1)%nat 0%nat) (replicate (n / 2)%nat 0%nat))
    as (q1 & q2 & -> & L1 & L2 & E).
  { rewrite Hlen, !length_replicate. destruct (Nat.even n); lia. }
  rewrite length_replicate in L1, L2. cbn [mbind result_bind]. rewrite decide_False by lia.
  unfold set_at, Raft.set_index. rewrite decide_True by lia. cbn [or_panic mbind result_bind].
  eexists q1, _. split; [reflexivity|]. split; [done|]. split; [by rewrite length_insert|].
  rewrite <- (insert_app_r q1 q2 (length q2 - 1) l), E, Hlen. cbn [take app Nat.add].
  rewrite <- replicate_add, drop_replicate.
  replace (n / 2 + 1 + n / 2 - (n - 1))%nat with (if Nat.even n then 2 else 1)%nat by (destruct (Nat.even n); lia).
  replace (length q1 + (length q2 - 1))%nat with (length (filter (λ i, i ≠ l) (seq 0 n)) + (if Nat.even n then 1 else 0))%nat
    by (rewrite Hlen; destruct (Nat.even n); lia).
  rewrite take_0, app_nil_l, insert_app_r. by destruct (Nat.even n).
Qed.
