(* ===== verification/ServiceLife.v ===== *)
(** * ServiceLife: the states of a service test

    What a test may do with the harness of [ServiceHarness] as a transition
    system, and the invariants of its states: the ends of earlier instances are
    disabled, every running server is registered under its number with its
    services, and what is saved for a server can be restored.  The theorems: a
    running server is reached under its number by everybody whose end to it is
    enabled, and a restart gives back what the server had stored before it was
    killed, whatever happens in between. *)
From stdpp Require Import base gmap strings list_numbers option list.
From Stdlib Require Import ZArith Lia.
From S2P Require Import Prelude Labgob Labrpc LabrpcCalls RaftTypes Raft RaftNode RaftHarness RaftHarnessNet ServiceHarness ServiceNet.
#[local] Open Scope Z_scope.
#[local] Open Scope go_scope.

(** What a service promises to the harness: it starts with the Raft that [Make]
    gives, [Kill] kills that, and whatever a server does ([svc_step]), its
    persister holds the state of its Raft. *)
Class ServiceLaws (Srv C K : Type) `{Service Srv C K} `{GobStream (PersistentState C)} := {
  svc_step : Srv → Srv → Prop;
  start_make n i ps size now : svc_rf <$> svc_Start n i ps size now = fst <$> Make n i ps now;
  kill_kills s : svc_rf (svc_Kill s) = Raft.Kill (svc_rf s);
  step_durable s s' : svc_step s s' → durable (svc_rf s) → durable (svc_rf s')
}.

(** What a test and the servers do. *)
Inductive ServiceOp {Srv : Type} :=
  | SConnect (i : nat) (to : list nat)
  | SDisconnect (i : nat) (from : list nat)
  | SPartition (p1 p2 : list nat)
  | SConnectAll
  | SReliable (yes : bool)
  | SMakeClient (names : list string) (draw : nat → nat) (rnd : Z) (to : list nat)
  | SDeleteClient (ck : nat)
  | SConnectClient (ck : nat) (to : list nat)
  | SDisconnectClient (ck : nat) (from : list nat)
  | SShutdown (i : nat)
  | SStart (i : nat) (names : list string) (now : Z)
  | SServe (o : nat) (s' : Srv).

Section ServiceLife.
Context {Srv C K rtype : Type} {svc : Service Srv C K} `{GobLaws (PersistentState C)}.
Context {laws : ServiceLaws Srv C K}.
Context (svc_rcvr rf_rcvr : nat → Rcvr rtype).
Notation config := (config Srv K rtype).
Notation ServiceOp := (@ServiceOp Srv).
Implicit Types (cfg : config) (i j k n o ck : nat) (x : string) (names : list string) (rn : Network NetName) (s : Srv).

Definition sexec (op : ServiceOp) cfg : result config :=
  match op with
  | SConnect i to => connectUnlocked i to cfg
  | SDisconnect i from => disconnectUnlocked i from cfg
  | SPartition p1 p2 => partition p1 p2 cfg
  | SConnectAll => ConnectAll cfg
  | SReliable yes => Ok (cfg <| cfg_net := Reliable yes (cfg_net cfg) |>)
  | SMakeClient names draw rnd to => '(cfg, _) ← makeClient names draw rnd to cfg; Ok cfg
  | SDeleteClient ck => Ok (deleteClient ck cfg)
  | SConnectClient ck to => ConnectClientUnlocked ck to cfg
  | SDisconnectClient ck from => DisconnectClientUnlocked ck from cfg
  | SShutdown i => ShutdownServer i cfg
  | SStart i names now => StartServer svc_rcvr rf_rcvr i names now cfg
  | SServe o s' => _ ← or_panic (objects cfg !! o); Ok (cfg <| objects := <[o := s']> (objects cfg) |>)
  end.

(** The ends of [i] are disabled. *)
Definition isolated cfg i : Prop := ∀ j x, current cfg i j = Some x → enabled (cfg_net cfg) !! inl x = Some false.

(** Names are drawn afresh, and a server is started when it does not run and was
    shut down, as the comment of [StartServer] asks. *)
Definition allowed n cfg (op : ServiceOp) : Prop :=
  match op with
  | SMakeClient names _ _ _ => fresh_names n (cfg_net cfg) names
  | SStart i names _ => (i < n)%nat ∧ fresh_names n (cfg_net cfg) names ∧ kvservers cfg !! i = Some None ∧ isolated cfg i
  | SServe o s' => ∃ s, objects cfg !! o = Some s ∧ svc_step s s'
  | _ => True
  end.

Inductive service_reach n : config → Prop :=
  | service_new size now : service_reach n (new_config n size now)
  | service_do cfg op cfg' :
      service_reach n cfg → allowed n cfg op → sexec op cfg = Ok cfg' → service_reach n cfg'.

(** ** What stays true *)

(** The end belongs to a server or to a clerk. *)
Definition owned cfg x : Prop :=
  (∃ i j, current cfg i j = Some x) ∨
  (∃ ck c hs, clerk_objects cfg !! ck = Some (c, hs) ∧ x ∈ hs).

Record clerks_wired n cfg : Prop := {
  k_names ck names : clerks cfg !! ck = Some names →
    length names = n ∧ (∃ c hs, clerk_objects cfg !! ck = Some (c, hs) ∧ hs ≡ₚ names) ∧
    ∀ j x, names !! j = Some x → connections (cfg_net cfg) !! inl x = Some (Some (server_name j));
  k_end ck c hs x : clerk_objects cfg !! ck = Some (c, hs) → x ∈ hs →
    is_Some (ends (cfg_net cfg) !! inl x) ∧ ∀ i j, current cfg i j ≠ Some x;
  k_inj ck c hs ck' c' hs' x : clerk_objects cfg !! ck = Some (c, hs) → x ∈ hs →
    clerk_objects cfg !! ck' = Some (c', hs') → x ∈ hs' → ck = ck';
  k_old x : is_Some (ends (cfg_net cfg) !! inl x) → ¬ owned cfg x →
    enabled (cfg_net cfg) !! inl x = Some false
}.

(** The server of labrpc for instance [o]. *)
Definition service_of (o : nat) : Labrpc.Server rtype :=
  AddService (MakeService (rf_rcvr o)) (AddService (MakeService (svc_rcvr o)) MakeServer).

Definition registered cfg i (srv : Labrpc.Server rtype) : Prop :=
  ∃ ptr, server_at (cfg_net cfg) (server_name i) = Some ptr ∧ heap cfg !! ptr = Some srv.

(** What is saved can be restored. *)
Record kept n cfg : Prop := {
  h_len : length (kvservers cfg) = n ∧ length (saved cfg) = n;
  h_object o s : objects cfg !! o = Some s → durable (svc_rf s);
  h_saved i ref : saved cfg !! i = Some (Some ref) →
    match ref with Owned ps => restorable (C:=C) ps | Of o => (o < length (objects cfg))%nat end
}.

Record healthy n cfg : Prop := {
  h_kept : kept n cfg;
  h_live i o : kvservers cfg !! i = Some (Some o) →
    (o < length (objects cfg))%nat ∧ saved cfg !! i = Some (Some (Of o)) ∧
    registered cfg i (service_of o) ∧ ∃ names, endnames cfg !! i = Some (Some names);
  h_dead i : kvservers cfg !! i = Some None → server_at (cfg_net cfg) (server_name i) = None
}.

Record invariant n cfg : Prop := {
  i_wired : wired n cfg;
  i_clerks : clerks_wired n cfg;
  i_healthy : healthy n cfg
}.

(** ** Ends that are enabled and disabled *)

(** [cfg'] is [cfg] with some ends set, which have owners. *)
Record flipped cfg cfg' : Prop := {
  f_net : ∃ rn, cfg' = cfg <| cfg_net := rn |> ∧ ends rn = ends (cfg_net cfg) ∧
    connections rn = connections (cfg_net cfg) ∧ servers rn = servers (cfg_net cfg);
  f_enabled x : enabled (cfg_net cfg') !! inl x = enabled (cfg_net cfg) !! inl x ∨
    (is_Some (enabled (cfg_net cfg') !! inl x) ∧ owned cfg x)
}.

Lemma flipped_refl cfg : flipped cfg cfg.
Proof. split; [|by left]. exists (cfg_net cfg). by destruct cfg. Qed.

Lemma Reliable_flipped yes cfg : flipped cfg (cfg <| cfg_net := Reliable yes (cfg_net cfg) |>).
Proof. split; [by eexists|by left]. Qed.

Lemma flipped_trans cfg1 cfg2 cfg3 : flipped cfg1 cfg2 → flipped cfg2 cfg3 → flipped cfg1 cfg3.
Proof.
  intros [(rn & -> & E1 & E2 & E3) He] [(rn' & -> & F1 & F2 & F3) Hf]. cbn in *. split.
  - exists rn'. cbn. by rewrite F1, F2, F3.
  - intros x. destruct (Hf x) as [Hx|[Hx Ho]]; [|by right]. destruct (He x) as [Hy|[Hy Ho]].
    + left. cbn. by rewrite Hx.
    + right. cbn. by rewrite Hx.
Qed.

Lemma flipped_invariant n cfg cfg' : flipped cfg cfg' → invariant n cfg → invariant n cfg'.
Proof.
  intros [(rn & -> & E1 & E2 & E3) He] [Hw Hk Hh]. cbn in He. split.
  - split; [exact (w_n _ _ Hw)|exact (w_row _ _ Hw)|exact (w_inj _ _ Hw)|].
    intros i j x Hx. cbn. rewrite E1, E2. destruct (w_end _ _ Hw i j x Hx) as (? & Hen & ?).
    split; [done|]. split; [|done]. destruct (He x) as [->|[? _]]; done.
  - split; cbn.
    + intros ck names. rewrite E2. apply (k_names _ _ Hk).
    + intros ck c hs x. rewrite E1. apply (k_end _ _ Hk).
    + exact (k_inj _ _ Hk).
    + intros x. rewrite E1. intros Hx Ho. destruct (He x) as [->|[_ Hox]]; [by apply (k_old _ _ Hk)|destruct (Ho Hox)].
  - split; cbn; [destruct (h_kept _ _ Hh); by split| |].
    + intros i o Hi. unfold registered, server_at. cbn. rewrite E3. exact (h_live _ _ Hh i o Hi).
    + intros i Hi. unfold server_at. rewrite E3. exact (h_dead _ _ Hh i Hi).
Qed.

Lemma set_ends_flipped (name : nat → nat → result (option string)) yes k js cfg rn :
  set_ends name yes k js (cfg_net cfg) = Ok rn →
  (∀ m j x, name m j = Ok (Some x) → owned cfg x) →
  flipped cfg (cfg <| cfg_net := rn |>).
Proof.
  intros (xs & -> & Hxs)%set_ends_inv Hown. destruct (enable_all_spec xs yes (cfg_net cfg)) as (E1 & E2 & E3 & E4).
  cbn zeta in *. split; cbn -[enable_all].
  - eexists. split; [reflexivity|]. by rewrite E1, E2, E3.
  - intros x. rewrite E4. case_decide as Hx; [right|by left]. split; [done|].
    destruct (Hxs x Hx) as (m & j & _ & Hn). by eapply Hown.
Qed.

Lemma end_of_owned cfg i j x : end_of i j cfg = Ok x → owned cfg x.
Proof. intros Hx%end_of_Ok. left. by exists i, j. Qed.

(** Two loops, one after the other. *)
Lemma set_ends_twice (f g : nat → nat → result (option string)) yes js cfg cfg' :
  (rn ← set_ends f yes 0 js (cfg_net cfg); rn ← set_ends g yes 0 js rn; Ok (cfg <| cfg_net := rn |>)) = Ok cfg' →
  (∀ m j x, f m j = Ok (Some x) → owned cfg x) → (∀ m j x, g m j = Ok (Some x) → owned cfg x) →
  flipped cfg cfg'.
Proof.
  intros (rn & Hf & (rn' & Hg & [= <-])%bind_Ok)%bind_Ok Hof Hog.
  eapply flipped_trans; [by eapply set_ends_flipped|].
  change (cfg <| cfg_net := rn' |>) with ((cfg <| cfg_net := rn |>) <| cfg_net := rn' |>).
  eapply set_ends_flipped; [exact Hg|]. exact Hog.
Qed.

Lemma connectUnlocked_flipped i js cfg cfg' : connectUnlocked i js cfg = Ok cfg' → flipped cfg cfg'.
Proof.
  intros Hx. eapply set_ends_twice; [exact Hx|..]; cbn beta;
    intros m j x (y & Hy & [= ->])%bind_Ok; by eapply end_of_owned.
Qed.

Lemma disconnectUnlocked_flipped i js cfg cfg' : disconnectUnlocked i js cfg = Ok cfg' → flipped cfg cfg'.
Proof.
  intros Hx. eapply set_ends_twice; [exact Hx|..]; cbn beta; intros m j x.
  - unfold outgoing_end. intros ([names|] & Hr%or_panic_Ok & Hy)%bind_Ok; [|done].
    apply bind_Ok in Hy as (y & Hy%or_panic_Ok & [= ->]). left. exists i, j. unfold current. by rewrite Hr.
  - unfold incoming_end. intros ([names|] & Hr%or_panic_Ok & Hy)%bind_Ok; [|done].
    apply bind_Ok in Hy as (y & Hy & [= ->]). by eapply end_of_owned.
Qed.

Lemma for_each_flipped {A} (body : A → config → result config) l cfg cfg' :
  (∀ a cfg cfg', body a cfg = Ok cfg' → flipped cfg cfg') → for_each body l cfg = Ok cfg' → flipped cfg cfg'.
Proof.
  intros Hb. revert cfg. induction l as [|a l IH]; intros cfg Hx; cbn in Hx.
  - injection Hx as <-. apply flipped_refl.
  - apply bind_Ok in Hx as (cfg1 & H1' & H2'). eapply flipped_trans; [by eapply Hb|by apply IH].
Qed.

Lemma join_part_flipped p other cfg cfg' : join_part p other cfg = Ok cfg' → flipped cfg cfg'.
Proof.
  apply for_each_flipped. intros i c c' (c1 & Hd & Hc)%bind_Ok.
  eapply flipped_trans; [by eapply disconnectUnlocked_flipped|by eapply connectUnlocked_flipped].
Qed.

Lemma client_ends_flipped n ck yes js cfg rn :
  invariant n cfg →
  set_ends (λ _ j, s ← or_panic (default [] (clerks cfg !! ck) !! j); Ok (Some s)) yes 0 js (cfg_net cfg) = Ok rn →
  flipped cfg (cfg <| cfg_net := rn |>).
Proof.
  intros Hi Hx. eapply set_ends_flipped; [exact Hx|]. cbn beta. intros m j x (y & Hy%or_panic_Ok & [= ->])%bind_Ok.
  destruct (clerks cfg !! ck) as [names|] eqn:Hck; [|done].
  destruct (k_names _ _ (i_clerks _ _ Hi) _ _ Hck) as (_ & (c & hs & Ho & Hp) & _).
  right. exists ck, c, hs. split; [done|]. rewrite Hp. by eapply list_elem_of_lookup_2.
Qed.

(** ** New ends *)
Lemma make_ends_servers j names rn rn' : make_ends j names rn = Ok rn' → servers rn' = servers rn.
Proof.
  revert j rn. induction names as [|name names IH]; intros j rn Hm; cbn in Hm; [by injection Hm as <-|].
  apply bind_Ok in Hm as ([rn1 e] & He & Hm). rewrite (IH _ _ Hm). unfold MakeEnd in He.
  destruct (ends rn !! _); [done|]. by injection He as <- _.
Qed.

(** What [make_ends] makes of fresh names. *)
Record new_ends names rn rn' : Prop := {
  n_ends x : is_Some (ends rn' !! inl x) ↔ x ∈ names ∨ is_Some (ends rn !! inl x);
  n_new x : x ∈ names → enabled rn' !! inl x = Some false;
  n_old x : x ∉ names → enabled rn' !! inl x = enabled rn !! inl x ∧
    connections rn' !! inl x = connections rn !! inl x;
  n_conn k x : names !! k = Some x → connections rn' !! inl x = Some (Some (server_name k));
  n_servers : servers rn' = servers rn
}.

Lemma make_fresh n names rn : fresh_names n rn names → ∃ rn', make_ends 0 names rn = Ok rn' ∧ new_ends names rn rn'.
Proof.
  intros (_ & Hnd & Hf). destruct (make_ends_Ok 0 names rn Hnd Hf) as (rn' & Hm & E1 & E2 & E3 & E4).
  exists rn'. split; [done|]. split.
  - exact E1.
  - intros x Hx. by rewrite E2, decide_True.
  - intros x Hx. rewrite E2, decide_False by done. split; [done|by apply E4].
  - intros k x Hk. by rewrite (E3 _ _ Hk).
  - by eapply make_ends_servers.
Qed.

(** Fresh names have no owner. *)
Lemma fresh_unowned n cfg names x :
  invariant n cfg → fresh_names n (cfg_net cfg) names → x ∈ names → ¬ owned cfg x.
Proof.
  intros [Hw Hk _] (_ & _ & Hf) Hx. specialize (Hf x Hx).
  intros [(i & j & Hc)|(ck & c & hs & Ho & Hin)].
  - destruct (w_end _ _ Hw _ _ _ Hc) as [[? He] _]. congruence.
  - destruct (k_end _ _ Hk _ _ _ _ Ho Hin) as [[? He] _]. congruence.
Qed.

Lemma add_clerk n cfg names rn c hs :
  invariant n cfg → fresh_names n (cfg_net cfg) names → new_ends names (cfg_net cfg) rn → hs ≡ₚ names →
  invariant n (cfg <| cfg_net := rn |> <| clerk_objects := clerk_objects cfg ++ [(c, hs)] |>
    <| clerks := <[length (clerk_objects cfg) := names]> (clerks cfg) |>
    <| nextClientId := nextClientId cfg + 1 |>).
Proof.
  intros Hi Hfr Hnew Hp. set (cfg' := cfg <| cfg_net := rn |> <| clerk_objects := _ |> <| clerks := _ |> <| nextClientId := _ |>).
  pose proof (fresh_unowned n cfg names) as Hno. destruct Hi as [Hw Hk Hh].
  assert (∀ x, owned cfg x → x ∉ names) as Hown by (intros x Ho Hx; by eapply Hno).
  assert (∀ ck c1 hs1, clerk_objects cfg' !! ck = Some (c1, hs1) →
    clerk_objects cfg !! ck = Some (c1, hs1) ∨ (ck = length (clerk_objects cfg) ∧ hs1 = hs)) as Hck.
  { intros ck c1 hs1 [[_ Ho]|[-> [= _ <-]]]%lookup_snoc_Some; auto. }
  split.
  - split; [exact (w_n _ _ Hw)|exact (w_row _ _ Hw)|exact (w_inj _ _ Hw)|].
    intros i j x Hx. cbn. assert (x ∉ names) as Hn by (apply Hown; left; by exists i, j).
    destruct (n_old _ _ _ Hnew x Hn) as [-> ->]. destruct (w_end _ _ Hw i j x Hx) as (? & ? & ?).
    split; [|done]. apply (n_ends _ _ _ Hnew). by right.
  - split.
    + intros ck names1 Hn1. unfold cfg' in Hn1. cbn in Hn1. apply lookup_insert_Some in Hn1 as [[<- <-]|[Hne Hn1]].
      * split; [by destruct Hfr|]. split; [|exact (n_conn _ _ _ Hnew)].
        exists c, hs. split; [by apply list_lookup_middle|done].
      * destruct (k_names _ _ Hk _ _ Hn1) as (? & (c1 & hs1 & Ho & Hp1) & Hconn). split; [done|]. split.
        { exists c1, hs1. split; [by apply lookup_app_l_Some|done]. }
        intros j x Hx. cbn. destruct (n_old _ _ _ Hnew x) as [_ ->]; [|by apply Hconn].
        apply Hown. right. exists ck, c1, hs1. split; [done|]. rewrite Hp1. by eapply list_elem_of_lookup_2.
    + intros ck c1 hs1 x [Ho|[-> ->]]%Hck Hx; cbn; rewrite (n_ends _ _ _ Hnew).
      * destruct (k_end _ _ Hk _ _ _ _ Ho Hx). auto.
      * rewrite Hp in Hx. split; [by left|]. intros i j Hc. apply (Hown x); [|done]. left. by exists i, j.
    + intros ck c1 hs1 ck' c1' hs1' x [Ho|[-> ->]]%Hck Hx [Ho'|[-> ->]]%Hck Hx'; [by eapply (k_inj _ _ Hk)|..|done].
      * rewrite Hp in Hx'. destruct (Hown x); [|done]. right. by exists ck, c1, hs1.
      * rewrite Hp in Hx. destruct (Hown x); [|done]. right. by exists ck', c1', hs1'.
    + intros x Hx Ho. cbn. apply (n_ends _ _ _ Hnew) in Hx as [Hx|Hx]; [by apply (n_new _ _ _ Hnew)|].
      destruct (decide (x ∈ names)); [by apply (n_new _ _ _ Hnew)|]. destruct (n_old _ _ _ Hnew x) as [-> _]; [done|].
      apply (k_old _ _ Hk); [done|]. intros [Hc|(ck & c1 & hs1 & Hc & Hin)]; apply Ho; [by left|right].
      exists ck, c1, hs1. split; [by apply lookup_app_l_Some|done].
  - split; cbn; [destruct (h_kept _ _ Hh); by split| |].
    + intros i o Hi. unfold registered, server_at. cbn. rewrite (n_servers _ _ _ Hnew). exact (h_live _ _ Hh i o Hi).
    + intros i Hi. unfold server_at. rewrite (n_servers _ _ _ Hnew). exact (h_dead _ _ Hh i Hi).
Qed.

Lemma random_handles_perm {A} (draw : nat → nat) (l hs : list A) : random_handles draw l = Ok hs → hs ≡ₚ l.
Proof.
  unfold random_handles. assert (∀ js l, for_each (λ i sa, swap i (draw i) sa) js l = Ok hs → hs ≡ₚ l) as Hall; [|apply Hall].
  clear l. induction js as [|j js IH]; intros l Hx; cbn in Hx; [by injection Hx as <-|].
  apply bind_Ok in Hx as (l1 & Hs & Hx). rewrite (IH _ Hx). unfold swap in Hs.
  apply bind_Ok in Hs as (a & Ha%or_panic_Ok & (b & Hb%or_panic_Ok & [= <-])%bind_Ok).
  by apply Permutation_insert_swap.
Qed.

(** Only the wires matter. *)
Record same_wires cfg cfg' : Prop := {
  sw_names : endnames cfg' = endnames cfg ∧ cfg_n cfg' = cfg_n cfg ∧ clerks cfg' = clerks cfg ∧
    clerk_objects cfg' = clerk_objects cfg;
  sw_net : ends (cfg_net cfg') = ends (cfg_net cfg) ∧ enabled (cfg_net cfg') = enabled (cfg_net cfg) ∧
    connections (cfg_net cfg') = connections (cfg_net cfg)
}.

Lemma same_wires_refl cfg : same_wires cfg cfg.
Proof. done. Qed.

Lemma same_wires_trans cfg1 cfg2 cfg3 : same_wires cfg1 cfg2 → same_wires cfg2 cfg3 → same_wires cfg1 cfg3.
Proof.
  intros [(E1 & E2 & E3 & E4) (E5 & E6 & E7)] [(F1 & F2 & F3 & F4) (F5 & F6 & F7)].
  split; split_and!; congruence.
Qed.

Lemma same_wires_current cfg cfg' i j : same_wires cfg cfg' → current cfg' i j = current cfg i j.
Proof. intros [(E & _) _]. unfold current. by rewrite E. Qed.

Lemma same_wires_isolated cfg cfg' i : same_wires cfg cfg' → isolated cfg i → isolated cfg' i.
Proof.
  intros Hs Hi j x. rewrite (same_wires_current _ _ _ _ Hs). destruct Hs as [_ (_ & -> & _)]. apply Hi.
Qed.

Lemma same_wires_wired n cfg cfg' :
  same_wires cfg cfg' → wired n cfg → clerks_wired n cfg → wired n cfg' ∧ clerks_wired n cfg'.
Proof.
  intros Hs Hw Hk. pose proof (λ i j, same_wires_current _ _ i j Hs) as Hc.
  destruct Hs as [(E1 & E2 & E3 & E4) (E5 & E6 & E7)].
  assert (∀ x, owned cfg x → owned cfg' x) as Hown.
  { intros x [(i & j & Hx)|Hx]; [left; exists i, j; by rewrite Hc|right; by rewrite E4]. }
  split; split; rewrite ?E1, ?E2, ?E3, ?E4, ?E5, ?E6, ?E7; try apply Hw; try apply Hk.
  - intros *. rewrite !Hc. apply (w_inj _ _ Hw).
  - intros *. rewrite Hc. apply (w_end _ _ Hw).
  - intros * Ho Hx. destruct (k_end _ _ Hk _ _ _ _ Ho Hx) as [? Hno]. split; [done|]. intros i j. rewrite Hc. apply Hno.
  - intros x Hx Hno. apply (k_old _ _ Hk); [done|]. intros Ho. by apply Hno, Hown.
Qed.

(** ** Shutting down *)

(** The persister that will be given to the next instance of [i]. *)
Definition to_restore cfg i (ps : Persister) : Prop :=
  (saved cfg !! i = Some None ∧ ps = MakePersister) ∨
  ∃ ref, saved cfg !! i = Some (Some ref) ∧ contents ref cfg = Ok ps.

(** That persister, in nobody's hands. *)
Definition set_aside cfg i (ps : Persister) : Prop :=
  (saved cfg !! i = Some None ∧ ps = MakePersister) ∨ saved cfg !! i = Some (Some (Owned ps)).

Lemma saved_contents_Ok n cfg i ref :
  kept n cfg → saved cfg !! i = Some (Some ref) → ∃ ps, contents ref cfg = Ok ps ∧ restorable (C:=C) ps.
Proof.
  intros Hh Hs. pose proof (h_saved _ _ Hh _ _ Hs) as Hr. destruct ref as [ps|o]; [by exists ps|].
  destruct (lookup_lt_is_Some_2 _ _ Hr) as [s Ho]. exists (persister (svc_rf s)). cbn. rewrite Ho. split; [done|].
  destruct (h_object _ _ Hh _ _ Ho) as [E _]. unfold restorable. rewrite E. by eexists.
Qed.

Lemma service_copy_Ok n cfg i :
  kept n cfg → (i < n)%nat →
  ∃ st ps, copy_saved i cfg = Ok (cfg <| saved := <[i := st]> (saved cfg) |>) ∧ to_restore cfg i ps ∧
    restorable (C:=C) ps ∧
    (saved cfg !! i = Some None ∧ st = None ∧ ps = MakePersister ∨ st = Some (Owned ps)).
Proof.
  intros Hh Hi. destruct (h_len _ _ Hh) as (_ & Hls). unfold copy_saved.
  destruct (lookup_lt_is_Some_2 (saved cfg) i) as [[ref|] Hs]; [lia| |]; rewrite Hs; cbn [or_panic mbind result_bind].
  - destruct (saved_contents_Ok _ _ _ _ Hh Hs) as (ps & Hps & Hr). rewrite Hps. cbn [mbind result_bind].
    unfold set_at, Raft.set_index. rewrite decide_True by lia. exists (Some (Owned ps)), ps.
    rewrite Copy_id. split; [done|]. split; [right; by exists ref|]. auto.
  - exists None, MakePersister. rewrite list_insert_id by done. split; [by destruct cfg|].
    split; [by left|]. split; [by eexists|by left].
Qed.

Lemma kill_server_Ok n cfg i :
  length (kvservers cfg) = n → (i < n)%nat →
  (∀ o, kvservers cfg !! i = Some (Some o) → (o < length (objects cfg))%nat) →
  kill_server i cfg = Ok (cfg
    <| objects := match kvservers cfg !! i with Some (Some o) => alter svc_Kill o (objects cfg) | _ => objects cfg end |>
    <| kvservers := <[i := None]> (kvservers cfg) |>).
Proof.
  intros Hl Hi Ho. unfold kill_server.
  destruct (lookup_lt_is_Some_2 (kvservers cfg) i) as [[o|] Hr]; [lia| |]; rewrite Hr; cbn.
  - destruct (lookup_lt_is_Some_2 _ _ (Ho _ Hr)) as [s Hs]. rewrite Hs. cbn. unfold set_at, Raft.set_index.
    rewrite decide_True by lia. cbn. by rewrite (insert_alter_at svc_Kill _ _ s).
  - rewrite list_insert_id by done. by destruct cfg.
Qed.

(** Isolating a server never fails, started or not. *)
Lemma disconnect_all_Ok n cfg i :
  wired n cfg → (i < n)%nat →
  ∃ cfg', disconnectUnlocked i (All cfg) cfg = Ok cfg' ∧ relinked (between i (seq 0 n) false) cfg cfg'.
Proof.
  intros Hw Hi. destruct (w_n _ _ Hw) as [Hn Hle]. unfold disconnectUnlocked, All. rewrite Hn.
  assert (∀ m j, seq 0 n !! m = Some j → j = m ∧ (m < n)%nat) as Hseq by (intros m j [-> ?]%lookup_seq; done).
  rewrite (set_ends_Ok _ (current cfg i)).
  2:{ intros m j [-> Hm]%Hseq. unfold outgoing_end, current.
      destruct (lookup_lt_is_Some_2 (endnames cfg) i) as [[names|] Hr]; [lia| |]; rewrite Hr; cbn; [|done].
      destruct (lookup_lt_is_Some_2 names m) as [x Hx]; [by rewrite (w_row _ _ Hw _ _ Hr)|]. by rewrite Hx. }
  cbn [mbind result_bind]. rewrite (set_ends_Ok _ (λ j, current cfg j i)).
  2:{ intros m j [-> Hm]%Hseq. cbn [Nat.add]. unfold incoming_end, end_of, current.
      destruct (lookup_lt_is_Some_2 (endnames cfg) m) as [[names|] Hr]; [lia| |]; rewrite Hr; cbn; [|done].
      destruct (lookup_lt_is_Some_2 names i) as [x Hx]; [by rewrite (w_row _ _ Hw _ _ Hr)|]. by rewrite Hx. }
  cbn [mbind result_bind]. eexists. split; [reflexivity|]. by apply (relinked_twice n).
Qed.

Lemma relinked_isolated n cfg cfg' i :
  wired n cfg → relinked (between i (seq 0 n) false) cfg cfg' → isolated cfg' i.
Proof.
  intros Hw Hr j x Hx. pose proof (r_link _ _ _ Hr i j) as Hl. rewrite (relinked_current _ _ _ i j Hr) in Hx.
  destruct (service_current_lt _ _ _ _ _ Hw Hx) as [_ Hj].
  rewrite Hx in Hl. specialize (Hl ltac:(done)). unfold link, between in Hl.
  rewrite (relinked_current _ _ _ i j Hr), Hx in Hl. cbn in Hl. rewrite Hl, decide_True; [done|].
  left. split; [done|]. apply elem_of_seq. lia.
Qed.

(** What a shutdown leaves. *)
Record shut i cfg cfg' : Prop := {
  sh_servers : kvservers cfg' = <[i := None]> (kvservers cfg);
  sh_objects : objects cfg' =
    match kvservers cfg !! i with Some (Some o) => alter svc_Kill o (objects cfg) | _ => objects cfg end;
  sh_saved : ∃ ps, to_restore cfg i ps ∧ set_aside cfg' i ps;
  sh_others j : j ≠ i → saved cfg' !! j = saved cfg !! j;
  sh_isolated : isolated cfg' i;
  sh_same : cfg_n cfg' = cfg_n cfg ∧ cfg_maxraftstate cfg' = cfg_maxraftstate cfg ∧ endnames cfg' = endnames cfg ∧
    ends (cfg_net cfg') = ends (cfg_net cfg)
}.

Lemma server_name_inj i j : server_name i = server_name j → i = j.
Proof. unfold server_name. intros [= ?]. lia. Qed.

Lemma DeleteServer_at rn i j :
  server_at (DeleteServer (server_name i) rn) (server_name j) =
  if decide (i = j) then None else server_at rn (server_name j).
Proof.
  unfold server_at, DeleteServer. cbn. case_decide as Hij; [subst; by rewrite lookup_insert_eq|].
  rewrite lookup_insert_ne; [done|]. by intros ?%server_name_inj.
Qed.

Lemma kept_insert n cfg i st :
  kept n cfg → (∀ ref, st = Some ref → match ref with Owned ps => restorable (C:=C) ps | Of o => (o < length (objects cfg))%nat end) →
  kept n (cfg <| saved := <[i := st]> (saved cfg) |>).
Proof.
  intros [[? ?] Ho Hs] Hst. split; cbn; [by rewrite length_insert|done|].
  intros j ref [(<- & -> & _)|[_ Hj]]%list_lookup_insert_Some; [by apply Hst|by apply Hs in Hj].
Qed.

Lemma kept_kill n cfg i :
  kept n cfg → kept n (cfg
    <| objects := match kvservers cfg !! i with Some (Some o) => alter svc_Kill o (objects cfg) | _ => objects cfg end |>
    <| kvservers := <[i := None]> (kvservers cfg) |>).
Proof.
  intros [[? ?] Ho Hs]. split; cbn; [by rewrite length_insert| |].
  - intros o s. destruct (kvservers cfg !! i) as [[o'|]|]; try apply Ho. rewrite list_lookup_alter. case_decide; [|apply Ho].
    intros (s0 & Hs0 & ->)%fmap_Some. rewrite kill_kills. by apply durable_Kill, (Ho o').
  - intros j ref Hj. apply Hs in Hj. destruct ref; [done|]. by destruct (kvservers cfg !! i) as [[?|]|]; rewrite ?length_alter.
Qed.

Lemma shut_invariant n i cfg cfg1 ps st :
  invariant n cfg → flipped cfg cfg1 → isolated cfg1 i → (i < n)%nat → restorable (C:=C) ps →
  to_restore cfg i ps → (st = None ∧ ps = MakePersister ∨ st = Some (Owned ps)) →
  let cfg2 := cfg1 <| cfg_net := DeleteServer (server_name i) (cfg_net cfg1) |>
    <| saved := <[i := st]> (saved cfg1) |> in
  let cfg' := cfg2 <| objects := match kvservers cfg2 !! i with Some (Some o) => alter svc_Kill o (objects cfg2) | _ => objects cfg2 end |>
    <| kvservers := <[i := None]> (kvservers cfg2) |> in
  invariant n cfg' ∧ shut i cfg cfg'.
Proof.
  intros Hi Hf Hiso Hin Hre Hto Hst cfg2 cfg'. pose proof (flipped_invariant _ _ _ Hf Hi) as [Hw1 Hk1 Hh1].
  destruct Hf as [(rn & -> & E1 & _) _]. set (cfg1 := cfg <| cfg_net := rn |>) in *.
  assert (same_wires cfg1 cfg') as Hsw by done. pose proof (h_len _ _ (h_kept _ _ Hh1)) as [Hlk Hls].
  split; [split|].
  - by apply (same_wires_wired n cfg1).
  - by apply (same_wires_wired n cfg1).
  - split.
    + subst cfg'. apply kept_kill. subst cfg2. destruct (kept_insert n cfg1 i st (h_kept _ _ Hh1)) as [? ? ?]; [|by split].
      intros ref ->. destruct Hst as [[]|[= ->]]; done.
    + intros j o Hj. cbn in Hj. apply list_lookup_insert_Some in Hj as [(_ & ? & _)|[Hne Hj]]; [done|].
      destruct (h_live _ _ Hh1 j o Hj) as (Hlt & Hs & (ptr & Hptr & Hheap) & Hrow). split; [|split; [|split]].
      * cbn. by destruct (kvservers cfg !! i) as [[?|]|]; rewrite ?length_alter.
      * cbn. by rewrite list_lookup_insert_ne.
      * exists ptr. split; [|done]. change (cfg_net cfg') with (DeleteServer (server_name i) (cfg_net cfg1)).
        by rewrite DeleteServer_at, decide_False.
      * done.
    + intros j Hj. change (cfg_net cfg') with (DeleteServer (server_name i) (cfg_net cfg1)). rewrite DeleteServer_at.
      case_decide as Hij; [done|]. cbn in Hj. rewrite list_lookup_insert_ne in Hj by done. by apply (h_dead _ _ Hh1).
  - split; [done|done| |intros j Hj; cbn; by apply list_lookup_insert_ne|by apply (same_wires_isolated cfg1)|done].
    exists ps. split; [done|]. unfold set_aside. cbn. rewrite list_lookup_insert_eq by (cbn in Hls; lia).
    destruct Hst as [[-> ->]| ->]; auto.
Qed.

Lemma ShutdownServer_Ok n cfg i :
  invariant n cfg → (i < n)%nat →
  ∃ cfg', ShutdownServer i cfg = Ok cfg' ∧ invariant n cfg' ∧ shut i cfg cfg'.
Proof.
  intros Hi Hin. destruct (disconnect_all_Ok n cfg i (i_wired _ _ Hi) Hin) as (cfg1 & Hd & Hr).
  pose proof (disconnectUnlocked_flipped _ _ _ _ Hd) as Hf.
  pose proof (relinked_isolated _ _ _ _ (i_wired _ _ Hi) Hr) as Hiso.
  pose proof (flipped_invariant _ _ _ Hf Hi) as [_ _ Hh1]. unfold ShutdownServer. rewrite Hd. cbn [mbind result_bind].
  set (cfg2 := cfg1 <| cfg_net := DeleteServer (server_name i) (cfg_net cfg1) |>).
  assert (kept n cfg2) as Hk2 by (destruct (h_kept _ _ Hh1); by split).
  destruct (service_copy_Ok n cfg2 i Hk2 Hin) as (st & ps & -> & Hto & Hre & Hst). cbn [mbind result_bind].
  rewrite (kill_server_Ok n) by (apply Hk2 || done || (intros o Ho; by destruct (h_live _ _ Hh1 i o Ho))).
  eexists. split; [reflexivity|]. apply (shut_invariant n i cfg cfg1 ps st); try done; [|naive_solver].
  destruct Hf as [(rn & -> & _) _]. destruct Hto as [?|(ref & Hs & Hps)]; [by left|right]. exists ref. split; [done|].
  by destruct ref.
Qed.

Lemma ShutdownServer_lt n cfg i cfg' : invariant n cfg → ShutdownServer i cfg = Ok cfg' → (i < n)%nat.
Proof.
  intros Hi (cfg1 & Hd & Hx)%bind_Ok. apply disconnectUnlocked_flipped in Hd as [(rn & -> & _) _].
  apply bind_Ok in Hx as (cfg2 & (ref & Hs%or_panic_Ok & _)%bind_Ok & _). cbn in Hs.
  apply lookup_lt_Some in Hs. destruct (h_len _ _ (h_kept _ _ (i_healthy _ _ Hi))). lia.
Qed.

(** ** Starting *)
Lemma start_wires n cfg i names rn :
  invariant n cfg → isolated cfg i → (i < n)%nat → fresh_names n (cfg_net cfg) names →
  new_ends names (cfg_net cfg) rn →
  let cfg' := cfg <| endnames := <[i := Some names]> (endnames cfg) |> <| cfg_net := rn |> in
  wired n cfg' ∧ clerks_wired n cfg'.
Proof.
  intros Hi Hiso Hin Hfr Hnew cfg'. pose proof (fresh_unowned n cfg names) as Hno.
  assert (∀ x, owned cfg x → x ∉ names) as Hown by (intros x Ho Hx; by eapply Hno).
  destruct Hi as [Hw Hk Hh]. destruct (w_n _ _ Hw) as [Hn Hle]. destruct Hfr as (Hlen & Hnd & Hf).
  assert (∀ j x, current cfg' i j = Some x ↔ names !! j = Some x) as Hc.
  { intros j x. unfold current. cbn. by rewrite list_lookup_insert_eq by lia. }
  assert (∀ k j, k ≠ i → current cfg' k j = current cfg k j) as Hold.
  { intros k j Hkj. unfold current. cbn. by rewrite list_lookup_insert_ne. }
  assert (∀ k j x, k ≠ i → current cfg' k j = Some x → x ∉ names) as Hnot.
  { intros k j x Hki. rewrite Hold by done. intros Hx. apply Hown. left. by exists k, j. }
  split; split; cbn [cfg_n cfg_net endnames clerks clerk_objects]; cbn -[current].
  - by rewrite length_insert.
  - intros k names' [(-> & [= <-] & _)|[_ Hk']]%list_lookup_insert_Some; [done|by apply (w_row _ _ Hw _ _ Hk')].
  - intros k j k' j' x Hx Hx'. destruct (decide (k = i)) as [->|Hki], (decide (k' = i)) as [->|Hki'].
    + split; [done|]. eapply NoDup_lookup; [exact Hnd|by apply Hc|by apply Hc].
    + destruct (Hnot _ _ _ Hki' Hx'). apply Hc in Hx. by eapply list_elem_of_lookup_2.
    + destruct (Hnot _ _ _ Hki Hx). apply Hc in Hx'. by eapply list_elem_of_lookup_2.
    + rewrite Hold in Hx, Hx' by done. exact (w_inj _ _ Hw _ _ _ _ _ Hx Hx').
  - intros k j x Hx. rewrite (n_ends _ _ _ Hnew). destruct (decide (k = i)) as [->|Hki].
    + apply Hc in Hx. pose proof (list_elem_of_lookup_2 _ _ _ Hx) as Hin'. split; [by left|].
      rewrite (n_new _ _ _ Hnew) by done. split; [done|]. by apply (n_conn _ _ _ Hnew).
    + destruct (n_old _ _ _ Hnew x) as [-> ->]; [by eapply Hnot|]. rewrite Hold in Hx by done.
      destruct (w_end _ _ Hw _ _ _ Hx) as (? & ? & ?). auto.
  - intros ck names' Hck. destruct (k_names _ _ Hk _ _ Hck) as (? & (c & hs & Ho & Hp) & Hconn).
    split; [done|]. split; [by exists c, hs|]. intros j x Hx. destruct (n_old _ _ _ Hnew x) as [_ ->]; [|by apply Hconn].
    apply Hown. right. exists ck, c, hs. split; [done|]. rewrite Hp. by eapply list_elem_of_lookup_2.
  - intros ck c hs x Ho Hx. destruct (k_end _ _ Hk _ _ _ _ Ho Hx) as [He Hnc]. rewrite (n_ends _ _ _ Hnew).
    split; [by right|]. intros k j Hx'. destruct (decide (k = i)) as [->|Hki]; [|rewrite Hold in Hx' by done; by apply Hnc in Hx'].
    apply Hc, list_elem_of_lookup_2 in Hx'. apply (Hown x); [|done]. right. by exists ck, c, hs.
  - exact (k_inj _ _ Hk).
  - intros x Hx Ho. destruct (decide (x ∈ names)) as [Hxn|Hxn]; [by apply (n_new _ _ _ Hnew)|].
    apply (n_ends _ _ _ Hnew) in Hx as [Hx|Hx]; [done|]. destruct (n_old _ _ _ Hnew x Hxn) as [-> _].
    destruct (decide (Exists (λ j, current cfg i j = Some x) (seq 0 n))) as [(j & _ & Hj)%Exists_exists|Hnone]; [by apply (Hiso j)|].
    apply (k_old _ _ Hk); [done|]. intros [(k & j & Hx')|Hx']; apply Ho; [left|by right].
    exists k, j. rewrite Hold; [done|]. intros ->. apply Hnone, Exists_exists. exists j. split; [|done].
    apply elem_of_seq. destruct (service_current_lt _ _ _ _ _ Hw Hx'). lia.
Qed.

Lemma service_prepare_Ok n cfg i :
  kept n cfg → (i < n)%nat →
  ∃ ps, prepare_saved i cfg = Ok (cfg <| saved := <[i := Some (Owned ps)]> (saved cfg) |>) ∧
    to_restore cfg i ps ∧ restorable (C:=C) ps.
Proof.
  intros Hk Hi. destruct (h_len _ _ Hk) as [_ Hls]. unfold prepare_saved.
  destruct (service_copy_Ok n cfg i Hk Hi) as (st & ps & Hcp & Hto & Hre & Hst).
  destruct (lookup_lt_is_Some_2 (saved cfg) i) as [[ref|] Hs]; [lia| |]; rewrite Hs; cbn [or_panic mbind result_bind].
  - exists ps. split; [|done]. by destruct Hst as [[? _]| ->]; [congruence|].
  - unfold set_at, Raft.set_index. rewrite decide_True by lia. exists MakePersister. split; [done|].
    split; [by left|by eexists].
Qed.

(** What a start leaves, from the persister [ps]. *)
Record started i names now ps cfg cfg' : Prop := {
  st_server : ∃ s, svc_Start (cfg_n cfg) i ps (cfg_maxraftstate cfg) now = Some s ∧
    kvservers cfg' = <[i := Some (length (objects cfg))]> (kvservers cfg) ∧ objects cfg' = objects cfg ++ [s];
  st_restored : to_restore cfg i ps;
  st_same : cfg_n cfg' = cfg_n cfg ∧ cfg_maxraftstate cfg' = cfg_maxraftstate cfg ∧
    ∀ j, j ≠ i → saved cfg' !! j = saved cfg !! j;
  st_names : endnames cfg' = <[i := Some names]> (endnames cfg);
  st_known x : is_Some (ends (cfg_net cfg') !! inl x) ↔ x ∈ names ∨ is_Some (ends (cfg_net cfg) !! inl x);
  st_ends x : x ∈ names → enabled (cfg_net cfg') !! inl x = Some false
}.

Lemma make_server_Ok n cfg i ps now :
  kept n cfg → (i < n)%nat → saved cfg !! i = Some (Some (Owned ps)) → restorable (C:=C) ps →
  ∃ s, svc_Start (cfg_n cfg) i ps (cfg_maxraftstate cfg) now = Some s ∧ durable (svc_rf s) ∧
    make_server i now cfg = Ok (cfg <| objects := objects cfg ++ [s] |>
      <| saved := <[i := Some (Of (length (objects cfg)))]> (saved cfg) |>
      <| kvservers := <[i := Some (length (objects cfg))]> (kvservers cfg) |>).
Proof.
  intros Hk Hi Hs [st Hst]. destruct (h_len _ _ Hk) as [Hlk Hls].
  destruct (Make_stored (cfg_n cfg) i ps now st Hst) as (rf & Hm & Hps & Hsn & Hpr & _).
  pose proof (start_make (cfg_n cfg) i ps (cfg_maxraftstate cfg) now) as Hsm. rewrite Hm in Hsm. cbn in Hsm.
  apply fmap_Some in Hsm as (s & Hss & ->). exists s. split; [done|].
  split; [unfold durable; by rewrite Hpr, Hst, Hps, Hsn|].
  unfold make_server. rewrite Hs. cbn [or_panic mbind result_bind contents]. rewrite Hss. cbn [or_panic mbind result_bind].
  unfold set_at, Raft.set_index. rewrite decide_True by (cbn; lia). cbn [or_panic mbind result_bind].
  by rewrite decide_True by (cbn; lia).
Qed.

Lemma AddServer_at rn i j ptr :
  server_at (AddServer (server_name i) ptr rn) (server_name j) =
  if decide (i = j) then Some ptr else server_at rn (server_name j).
Proof.
  unfold server_at, AddServer. cbn. case_decide as Hij; [subst; by rewrite lookup_insert_eq|].
  rewrite lookup_insert_ne; [done|]. by intros ?%server_name_inj.
Qed.

(** The new instance runs, is saved and registered. *)
Lemma start_healthy n i names cfg ps s :
  let o := length (objects cfg) in
  let cfg1 := cfg <| objects := objects cfg ++ [s] |> <| saved := <[i := Some (Of o)]> (saved cfg) |>
    <| kvservers := <[i := Some o]> (kvservers cfg) |> <| heap := heap cfg ++ [service_of o] |> in
  let cfg' := cfg1 <| cfg_net := AddServer (server_name i) (length (heap cfg)) (cfg_net cfg1) |> in
  kept n (cfg <| saved := <[i := Some (Owned ps)]> (saved cfg) |>) →
  (∀ j o, j ≠ i → kvservers cfg !! j = Some (Some o) →
    (o < length (objects cfg))%nat ∧ saved cfg !! j = Some (Some (Of o)) ∧
    registered cfg j (service_of o) ∧ ∃ names, endnames cfg !! j = Some (Some names)) →
  (∀ j, kvservers cfg !! j = Some None → server_at (cfg_net cfg) (server_name j) = None) →
  endnames cfg !! i = Some (Some names) → durable (svc_rf s) → (i < n)%nat → healthy n cfg'.
Proof.
  intros o cfg1 cfg' [[Hlk Hls] Ho Hs] Hlive Hdead Hrow Hd Hi. cbn in Hlk, Hls, Ho, Hs. rewrite length_insert in Hls. split.
  - split; cbn; rewrite ?length_insert; [done| |].
    + intros k sk [[_ Hk]|[_ [= <-]]]%lookup_snoc_Some; [by eapply Ho|done].
    + rewrite length_app. cbn. intros k ref [(_ & [= <-] & _)|[Hne Hk]]%list_lookup_insert_Some; [subst o; lia|].
      specialize (Hs k ref). rewrite list_lookup_insert_ne in Hs by done. apply Hs in Hk. destruct ref; [done|lia].
  - intros k o' Hk. change (kvservers cfg') with (<[i := Some o]> (kvservers cfg)) in Hk.
    change (objects cfg') with (objects cfg ++ [s]). change (saved cfg') with (<[i := Some (Of o)]> (saved cfg)).
    change (endnames cfg') with (endnames cfg). rewrite length_app. cbn [length].
    apply list_lookup_insert_Some in Hk as [(<- & [= <-] & _)|[Hne Hk]].
    + split; [subst o; lia|]. split; [apply list_lookup_insert_eq; lia|]. split; [|by exists names].
      exists (length (heap cfg)). change (cfg_net cfg') with (AddServer (server_name i) (length (heap cfg)) (cfg_net cfg)).
      rewrite AddServer_at, decide_True by done. split; [done|]. by apply list_lookup_middle.
    + destruct (Hlive k o' ltac:(done) Hk) as (Hlt & Hsk & (ptr & Hptr & Hheap) & Hr). split; [lia|].
      rewrite list_lookup_insert_ne by done. split; [done|]. split; [|done]. exists ptr.
      change (cfg_net cfg') with (AddServer (server_name i) (length (heap cfg)) (cfg_net cfg)).
      rewrite AddServer_at, decide_False by done. split; [done|]. by apply lookup_app_l_Some.
  - intros k Hk. change (kvservers cfg') with (<[i := Some o]> (kvservers cfg)) in Hk.
    apply list_lookup_insert_Some in Hk as [(_ & ? & _)|[Hne Hk]]; [done|].
    change (cfg_net cfg') with (AddServer (server_name i) (length (heap cfg)) (cfg_net cfg)).
    rewrite AddServer_at, decide_False by done. by apply Hdead.
Qed.

Lemma StartServer_Ok n cfg i names now :
  invariant n cfg → (i < n)%nat → fresh_names n (cfg_net cfg) names → kvservers cfg !! i = Some None → isolated cfg i →
  ∃ cfg' ps, StartServer svc_rcvr rf_rcvr i names now cfg = Ok cfg' ∧ invariant n cfg' ∧ started i names now ps cfg cfg'.
Proof.
  intros Hi Hin Hfr Hdn Hiso. destruct (make_fresh _ _ _ Hfr) as (rn & Hm & Hnew).
  destruct (start_wires n cfg i names rn Hi Hiso Hin Hfr Hnew) as [Hw Hk].
  destruct (w_n _ _ (i_wired _ _ Hi)) as [Hn Hle]. pose proof (i_healthy _ _ Hi) as Hh.
  unfold StartServer, set_at, Raft.set_index. rewrite decide_True by lia. cbn [or_panic mbind result_bind].
  change (cfg_net (cfg <| endnames := _ |>)) with (cfg_net cfg). rewrite Hm. cbn [mbind result_bind].
  set (cfg1 := cfg <| endnames := _ |> <| cfg_net := rn |>) in *.
  assert (kept n cfg1) as Hk1 by (destruct (h_kept _ _ Hh); by split).
  destruct (service_prepare_Ok n cfg1 i Hk1 Hin) as (ps & -> & Hto & Hre). cbn [mbind result_bind].
  set (cfg2 := cfg1 <| saved := <[i := Some (Owned ps)]> (saved cfg1) |>).
  assert (kept n cfg2) as Hk2 by (apply kept_insert; [done|]; by intros ref [= <-]).
  destruct (h_len _ _ Hk1) as [Hlk Hls].
  destruct (make_server_Ok n cfg2 i ps now Hk2 Hin) as (s & Hss & Hd & ->); [cbn; apply list_lookup_insert_eq; cbn in *; lia|done|].
  cbn [mbind result_bind]. unfold register. set (cfg3 := cfg2 <| objects := _ |> <| saved := _ |> <| kvservers := _ |>).
  assert (kvservers cfg3 !! i = Some (Some (length (objects cfg)))) as -> by (cbn; apply list_lookup_insert_eq; cbn in *; lia).
  cbn [or_panic mbind result_bind]. eexists _, ps. split; [reflexivity|].
  assert (endnames cfg1 !! i = Some (Some names)) as Hrow by (cbn; apply list_lookup_insert_eq; lia). split.
  - split; [..|pose proof (start_healthy n i names cfg2 ps s) as Hfin; cbn zeta in Hfin; apply Hfin; try done].
    + by apply (same_wires_wired n cfg1).
    + by apply (same_wires_wired n cfg1).
    + by apply kept_insert; [|intros ref [= <-]].
    + intros j o Hj Ho. destruct (h_live _ _ Hh j o Ho) as (? & ? & (ptr & Hptr & ?) & names' & ?).
      split; [done|]. cbn. rewrite !list_lookup_insert_ne by done. split; [done|]. split; [|by exists names'].
      exists ptr. split; [|done]. unfold server_at. cbn. by rewrite (n_servers _ _ _ Hnew).
    + intros j Hj. unfold server_at. cbn. rewrite (n_servers _ _ _ Hnew). by apply (h_dead _ _ Hh).
  - split; [by exists s| | |done|exact (n_ends _ _ _ Hnew)|].
    + destruct Hto as [?|(ref & ? & Hps)]; [by left|right]. exists ref. split; [done|]. by destruct ref.
    + split; [done|]. split; [done|]. intros j Hj. cbn. by rewrite !list_lookup_insert_ne.
    + intros x Hx. cbn. by apply (n_new _ _ _ Hnew).
Qed.

(** ** Every state of a test *)
Lemma makeClient_invariant n names draw rnd to cfg cfg' ck :
  invariant n cfg → fresh_names n (cfg_net cfg) names → makeClient names draw rnd to cfg = Ok (cfg', ck) →
  invariant n cfg' ∧ ck = length (clerk_objects cfg) ∧ clerks cfg' !! ck = Some names.
Proof.
  intros Hi Hfr Hx. destruct (make_fresh _ _ _ Hfr) as (rn & Hm & Hnew). unfold makeClient in Hx.
  rewrite Hm in Hx. cbn [mbind result_bind] in Hx. apply bind_Ok in Hx as (hs & Hhs%random_handles_perm & Hx).
  apply bind_Ok in Hx as (cfg2 & Hc & [= <- <-]).
  pose proof (add_clerk n cfg names rn (svc_MakeClerk (length hs) rnd) hs Hi Hfr Hnew Hhs) as Hi1.
  apply bind_Ok in Hc as (rn2 & Hs & [= <-]).
  split; [|split; [done|apply lookup_insert_eq]]. eapply flipped_invariant; [|exact Hi1].
  eapply (client_ends_flipped n (length (clerk_objects cfg))); [exact Hi1|exact Hs].
Qed.

Lemma deleteClient_invariant n ck cfg : invariant n cfg → invariant n (deleteClient ck cfg).
Proof.
  intros [Hw Hk Hh]. split; [by destruct Hw; split| |destruct Hh as [[] ? ?]; by split].
  split; [|exact (k_end _ _ Hk)|exact (k_inj _ _ Hk)|exact (k_old _ _ Hk)].
  intros ck' names Hn. cbn in Hn. apply lookup_delete_Some in Hn as [_ Hn]. exact (k_names _ _ Hk _ _ Hn).
Qed.

Lemma new_config_invariant n size now : invariant n (new_config n size now).
Proof.
  set (cfg := new_config n size now).
  assert (∀ i j x, current cfg i j ≠ Some x) as Hno.
  { intros i j x. unfold current, new_config. cbn. intros (row & [-> _]%lookup_replicate & Hx)%bind_Some. done. }
  split; split; cbn; rewrite ?length_replicate; try done.
  - intros i names [? _]%lookup_replicate. done.
  - intros * Hx. by apply Hno in Hx.
  - intros * Hx. by apply Hno in Hx.
  - intros x [? Hx]. by rewrite lookup_empty in Hx.
  - split; cbn; rewrite ?length_replicate; [done|done|]. intros i ref [? _]%lookup_replicate. done.
  - intros i o [? _]%lookup_replicate. done.
Qed.

Lemma sexec_invariant n cfg op cfg' :
  invariant n cfg → allowed n cfg op → sexec op cfg = Ok cfg' → invariant n cfg'.
Proof.
  intros Hi Ha Hx. destruct op as [i to|i from|p1 p2| |yes|names draw rnd to|ck|ck to|ck from|i|i names now|o s']; cbn [sexec allowed] in Ha, Hx.
  - by eapply flipped_invariant; [eapply connectUnlocked_flipped|].
  - by eapply flipped_invariant; [eapply disconnectUnlocked_flipped|].
  - apply bind_Ok in Hx as (cfg1 & H1' & H2').
    eapply flipped_invariant; [by eapply join_part_flipped|]. by eapply flipped_invariant; [eapply join_part_flipped|].
  - eapply flipped_invariant; [|exact Hi]. eapply for_each_flipped; [|exact Hx].
    intros *. apply connectUnlocked_flipped.
  - injection Hx as <-. eapply flipped_invariant; [apply Reliable_flipped|done].
  - apply bind_Ok in Hx as ([cfg1 ck] & Hc & [= <-]). by eapply makeClient_invariant.
  - injection Hx as <-. by apply deleteClient_invariant.
  - apply bind_Ok in Hx as (rn & Hs & [= <-]). by eapply flipped_invariant; [eapply client_ends_flipped|].
  - apply bind_Ok in Hx as (rn & Hs & [= <-]). by eapply flipped_invariant; [eapply client_ends_flipped|].
  - pose proof (ShutdownServer_lt _ _ _ _ Hi Hx) as Hin.
    destruct (ShutdownServer_Ok n cfg i Hi Hin) as (cfg1 & Hc & Hi1 & _). rewrite Hc in Hx. by injection Hx as <-.
  - destruct Ha as (Hin & Hfr & Hdn & Hiso).
    destruct (StartServer_Ok n cfg i names now Hi Hin Hfr Hdn Hiso) as (cfg1 & ps & Hc & Hi1 & _).
    rewrite Hc in Hx. by injection Hx as <-.
  - destruct Ha as (s & Hs & Hstep). rewrite Hs in Hx. injection Hx as <-. destruct Hi as [Hw Hk [[Hl Ho Hsv] Hlive Hdead]].
    split; [by apply (same_wires_wired n cfg)|by apply (same_wires_wired n cfg)|].
    split; [split|..]; cbn; rewrite ?length_insert; try done.
    intros o' s'' [(-> & <- & _)|[_ Ho']]%list_lookup_insert_Some; [|by eapply Ho].
    by eapply step_durable; [|eapply Ho].
Qed.

Lemma service_reach_invariant n cfg : service_reach n cfg → invariant n cfg.
Proof. induction 1; [apply new_config_invariant|by eapply sexec_invariant]. Qed.

(** The end of a server or a clerk to server [j]. *)
Definition end_to cfg j x : Prop :=
  (∃ i, current cfg i j = Some x) ∨ (∃ ck names, clerks cfg !! ck = Some names ∧ names !! j = Some x).

(** Whoever has an end to server [j] reaches the instance that runs now, with
    both of its services, or nobody if it was shut down; and the ends of the
    earlier instances of every server stay disabled. *)
Theorem live_server_reached n cfg j x :
  service_reach n cfg → end_to cfg j x →
  i_servername (readEndnameInfo (inl x) (cfg_net cfg)) = Some (server_name j) ∧
  match kvservers cfg !! j with
  | Some (Some o) => ∃ ptr srv,
      i_server (readEndnameInfo (inl x) (cfg_net cfg)) = Some ptr ∧ heap cfg !! ptr = Some srv ∧ services_ok srv ∧
      services srv = <[Indirect_Name (rf_rcvr o) := MakeService (rf_rcvr o)]>
        {[Indirect_Name (svc_rcvr o) := MakeService (svc_rcvr o)]}
  | _ => i_server (readEndnameInfo (inl x) (cfg_net cfg)) = None
  end ∧
  ∀ y, is_Some (ends (cfg_net cfg) !! inl y) → ¬ owned cfg y →
    i_enabled (readEndnameInfo (inl y) (cfg_net cfg)) = false.
Proof.
  intros [Hw Hk Hh]%service_reach_invariant Hx.
  assert (connections (cfg_net cfg) !! inl x = Some (Some (server_name j)) ∧ (j < n)%nat) as [Hc Hj].
  { destruct Hx as [(i & Hx)|(ck & names & Hck & Hx)].
    - destruct (w_end _ _ Hw _ _ _ Hx) as (_ & _ & ?). by destruct (service_current_lt _ _ _ _ _ Hw Hx).
    - destruct (k_names _ _ Hk _ _ Hck) as (<- & _ & Hconn). split; [by apply Hconn|by eapply lookup_lt_Some]. }
  unfold readEndnameInfo. cbn. rewrite Hc. cbn. split; [done|]. split.
  - destruct (h_len _ _ (h_kept _ _ Hh)) as [Hlk _].
    destruct (lookup_lt_is_Some_2 (kvservers cfg) j) as [[o|] Ho]; [lia| |]; rewrite Ho; [|by apply (h_dead _ _ Hh)].
    destruct (h_live _ _ Hh j o Ho) as (_ & _ & (ptr & -> & Hheap) & _). exists ptr, (service_of o).
    split; [done|]. split; [done|]. split; [|done].
    by apply AddService_ok, AddService_ok, MakeServer_ok.
  - intros y Hy Ho. by rewrite (k_old _ _ Hk y Hy Ho).
Qed.

(** ** Restarts *)

(** Steps of a test that do not start server [i]. *)
Inductive steps_without n i : config → config → Prop :=
  | steps_none cfg : steps_without n i cfg cfg
  | steps_one cfg op cfg1 cfg2 :
      allowed n cfg op → (∀ names now, op ≠ SStart i names now) → sexec op cfg = Ok cfg1 →
      steps_without n i cfg1 cfg2 → steps_without n i cfg cfg2.

(** Server [i] is down and [ps] waits for its next instance. *)
Record waiting i ps (size : Z) cfg : Prop := {
  a_down : kvservers cfg !! i = Some None;
  a_saved : set_aside cfg i ps;
  a_size : cfg_maxraftstate cfg = size
}.

Lemma aside_restored i ps ps' cfg : set_aside cfg i ps → to_restore cfg i ps' → ps' = ps.
Proof.
  intros [[Hs ->]|Hs] [[Hs' ->]|(ref & Hs' & Hps)]; [done|congruence|congruence|].
  rewrite Hs in Hs'. injection Hs' as <-. cbn in Hps. congruence.
Qed.

Lemma waiting_flipped i ps size cfg cfg' : flipped cfg cfg' → waiting i ps size cfg → waiting i ps size cfg'.
Proof. intros [(rn & -> & _) _] [? ? ?]. by split. Qed.

Lemma waiting_shutdown n i k ps size cfg cfg' :
  invariant n cfg → (k < n)%nat → shut k cfg cfg' → waiting i ps size cfg → waiting i ps size cfg'.
Proof.
  intros Hi Hk Hsh [Hd Hs Hz]. destruct (sh_same _ _ _ Hsh) as (_ & Hz' & _). split; [|destruct (decide (i = k)) as [->|Hne]|congruence].
  - rewrite (sh_servers _ _ _ Hsh). destruct (decide (k = i)) as [->|]; [|by rewrite list_lookup_insert_ne].
    apply list_lookup_insert_eq. by eapply lookup_lt_Some.
  - destruct (sh_saved _ _ _ Hsh) as (ps' & Hto & Has). by rewrite <- (aside_restored _ _ _ _ Hs Hto).
  - unfold set_aside in *. by rewrite (sh_others _ _ _ Hsh).
Qed.

Lemma waiting_step n i ps size cfg op cfg' :
  invariant n cfg → allowed n cfg op → (∀ names now, op ≠ SStart i names now) → sexec op cfg = Ok cfg' →
  waiting i ps size cfg → waiting i ps size cfg'.
Proof.
  intros Hi Ha Hno Hx Hwt. destruct op as [k to|k from|p1 p2| |yes|names draw rnd to|ck|ck to|ck from|k|k names now|o s']; cbn [sexec allowed] in Ha, Hx.
  - by eapply waiting_flipped; [eapply connectUnlocked_flipped|].
  - by eapply waiting_flipped; [eapply disconnectUnlocked_flipped|].
  - apply bind_Ok in Hx as (cfg1 & H1' & H2').
    eapply waiting_flipped; [by eapply join_part_flipped|]. by eapply waiting_flipped; [eapply join_part_flipped|].
  - eapply waiting_flipped; [|exact Hwt]. eapply for_each_flipped; [|exact Hx].
    intros *. apply connectUnlocked_flipped.
  - injection Hx as <-. eapply waiting_flipped; [apply Reliable_flipped|done].
  - apply bind_Ok in Hx as ([cfg1 ck] & Hc & [= <-]). apply bind_Ok in Hc as (rn & _ & Hc).
    apply bind_Ok in Hc as (hs & _ & Hc). apply bind_Ok in Hc as (cfg2 & (rn2 & _ & [= <-])%bind_Ok & [= <- _]).
    destruct Hwt. by split.
  - injection Hx as <-. destruct Hwt. by split.
  - apply bind_Ok in Hx as (rn & Hs & [= <-]). by eapply waiting_flipped; [eapply client_ends_flipped|].
  - apply bind_Ok in Hx as (rn & Hs & [= <-]). by eapply waiting_flipped; [eapply client_ends_flipped|].
  - pose proof (ShutdownServer_lt _ _ _ _ Hi Hx) as Hk.
    destruct (ShutdownServer_Ok n cfg k Hi Hk) as (cfg1 & Hc & _ & Hsh). rewrite Hc in Hx. injection Hx as <-.
    by eapply waiting_shutdown.
  - destruct Ha as (Hk & Hfr & Hdn & Hiso). assert (k ≠ i) as Hne by (intros ->; by eapply Hno).
    destruct (StartServer_Ok n cfg k names now Hi Hk Hfr Hdn Hiso) as (cfg1 & ps1 & Hc & _ & Hst).
    rewrite Hc in Hx. injection Hx as <-. destruct (st_same _ _ _ _ _ _ Hst) as (_ & Hz & Hs).
    destruct Hwt as [Hd Has Hsz]. destruct (st_server _ _ _ _ _ _ Hst) as (s & _ & Hsv & _). split; [|unfold set_aside in *; by rewrite Hs by done|congruence].
    rewrite Hsv. by rewrite list_lookup_insert_ne.
  - apply bind_Ok in Hx as (? & _ & [= <-]). destruct Hwt. by split.
Qed.

Lemma waiting_steps n i ps size cfg cfg' :
  steps_without n i cfg cfg' → invariant n cfg → waiting i ps size cfg → invariant n cfg' ∧ waiting i ps size cfg'.
Proof.
  induction 1 as [|cfg op cfg1 cfg2 Ha Hno Hx _ IH]; [done|]. intros Hi Hwt.
  apply IH; [by eapply sexec_invariant|by eapply waiting_step].
Qed.

(** C39: Shutting down a running server never fails, kills it, and isolates it.
    Whatever the test and the servers do then, the instance that [StartServer]
    makes of it, while its old ends are still off and with fresh names, is the one the service starts from what was stored before the
    shutdown, with the term, vote, log and snapshot the Raft of the old instance
    had; whatever [Kill] or the old instance writes later is not seen. *)
Theorem service_restart n cfg i o s :
  service_reach n cfg → kvservers cfg !! i = Some (Some o) → objects cfg !! o = Some s →
  ∃ cfg1, ShutdownServer i cfg = Ok cfg1 ∧ objects cfg1 !! o = Some (svc_Kill s) ∧ isolated cfg1 i ∧
    server_at (cfg_net cfg1) (server_name i) = None ∧
    ∀ cfg2 names now, steps_without n i cfg1 cfg2 → allowed n cfg2 (SStart i names now) →
    ∃ cfg3 o' s', StartServer svc_rcvr rf_rcvr i names now cfg2 = Ok cfg3 ∧
      kvservers cfg3 !! i = Some (Some o') ∧ objects cfg3 !! o' = Some s' ∧
      svc_Start n i (persister (svc_rf s)) (cfg_maxraftstate cfg) now = Some s' ∧
      persistentState (svc_rf s') = persistentState (svc_rf s) ∧ snapshot (svc_rf s') = snapshot (svc_rf s) ∧
      status (svc_rf s') = Follower.
Proof.
  intros Hi%service_reach_invariant Ho Hs. pose proof (i_healthy _ _ Hi) as Hh.
  destruct (h_len _ _ (h_kept _ _ Hh)) as [Hlk _].
  assert (i < n)%nat as Hin by (rewrite <- Hlk; by eapply lookup_lt_Some).
  destruct (h_live _ _ Hh i o Ho) as (_ & Hsv & _). destruct (h_object _ _ (h_kept _ _ Hh) _ _ Hs) as [Hst Hsn].
  destruct (ShutdownServer_Ok n cfg i Hi Hin) as (cfg1 & Hx & Hi1 & Hsh). exists cfg1. split; [done|].
  assert (kvservers cfg1 !! i = Some None) as Hd1 by (rewrite (sh_servers _ _ _ Hsh); apply list_lookup_insert_eq; lia).
  split; [by rewrite (sh_objects _ _ _ Hsh), Ho, list_lookup_alter_eq, Hs|]. split; [apply (sh_isolated _ _ _ Hsh)|].
  split; [by apply (h_dead _ _ (i_healthy _ _ Hi1))|].
  destruct (sh_saved _ _ _ Hsh) as (ps & Hto & Has).
  assert (ps = persister (svc_rf s)) as ->.
  { destruct Hto as [[? _]|(ref & Hsv' & Hps)]; [congruence|]. rewrite Hsv in Hsv'. injection Hsv' as <-.
    cbn in Hps. rewrite Hs in Hps. cbn in Hps. congruence. }
  intros cfg2 names now Hsteps (_ & Hfr & _ & Hiso).
  destruct (waiting_steps n i (persister (svc_rf s)) (cfg_maxraftstate cfg) cfg1 cfg2 Hsteps Hi1) as [Hi2 [Hd2 Has2 Hz2]].
  { destruct (sh_same _ _ _ Hsh) as (_ & Hz & _). by split. }
  destruct (StartServer_Ok n cfg2 i names now Hi2 Hin Hfr Hd2 Hiso) as (cfg3 & ps & Hx3 & _ & Hst3).
  destruct (st_server _ _ _ _ _ _ Hst3) as (s' & Hss & Hk3 & Ho3).
  rewrite (aside_restored _ _ _ _ Has2 (st_restored _ _ _ _ _ _ Hst3)), Hz2 in Hss.
  destruct (w_n _ _ (i_wired _ _ Hi2)) as [Hn2 _]. rewrite Hn2 in Hss. exists cfg3, (length (objects cfg2)), s'.
  pose proof (start_make n i (persister (svc_rf s)) (cfg_maxraftstate cfg) now) as Hm. rewrite Hss in Hm.
  destruct (Make_stored n i _ now _ Hst) as (rf & Hmk & Hps & Hsnap & _ & Hrole & _). rewrite Hmk in Hm. cbn in Hm.
  injection Hm as Hrf. split; [done|]. split; [rewrite Hk3; apply list_lookup_insert_eq; by eapply lookup_lt_Some|].
  split; [rewrite Ho3; by apply list_lookup_middle|]. rewrite Hrf, Hps, Hsnap. done.
Qed.
End ServiceLife.
