(* ===== verification/ServiceTests.v ===== *)
(** * ServiceTests: what the tests of a service may rely on

    [make_config] ends with all servers running and connected; [make_partition]
    and [partition] leave the leader with a minority; and what [Leader], the
    sizes and the statistics say. *)
From stdpp Require Import base gmap strings list_numbers option list.
From Stdlib Require Import ZArith Lia.
From S2P Require Import Prelude Labgob Labrpc LabrpcCalls RaftTypes Raft RaftNode RaftHarness RaftHarnessNet ServiceHarness ServiceNet ServiceLife.
#[local] Open Scope Z_scope.
#[local] Open Scope go_scope.

Section ServiceTests.
Context {Srv C K rtype : Type} {svc : Service Srv C K} `{GobLaws (PersistentState C)}.
Context {laws : ServiceLaws Srv C K}.
Context (svc_rcvr rf_rcvr : nat → Rcvr rtype).
Notation config := (config Srv K rtype).
Notation service_reach := (service_reach (K := K) svc_rcvr rf_rcvr).
Implicit Types (cfg : config) (i j k n o l : nat) (x : string) (names : list string).

(** ** The start of a test *)

(** Every server runs. *)
Definition all_live n cfg : Prop := ∀ i, (i < n)%nat → ∃ o, kvservers cfg !! i = Some (Some o).

Lemma all_live_started n cfg : invariant svc_rcvr rf_rcvr n cfg → all_live n cfg → all_started n cfg.
Proof. intros Hi Hl i Hin. destruct (Hl i Hin) as [o Ho]. by destruct (h_live _ _ _ _ (i_healthy _ _ _ _ Hi) i o Ho) as (_ & _ & _ & ?). Qed.

(** The names drawn for the servers are new and distinct. *)
Definition distinct_names n (starts : list (list string * Z)) : Prop :=
  Forall (λ st, length st.1 = n) starts ∧ NoDup (concat starts.*1).

Lemma start_all_Ok n starts i cfg :
  service_reach n cfg → invariant svc_rcvr rf_rcvr n cfg → distinct_names n starts → (i + length starts = n)%nat →
  (∀ j, (j < i)%nat → ∃ o, kvservers cfg !! j = Some (Some o)) →
  (∀ j, (i <= j < n)%nat → kvservers cfg !! j = Some None ∧ endnames cfg !! j = Some None) →
  (∀ x, x ∈ concat starts.*1 → ends (cfg_net cfg) !! inl x = None) →
  ∃ cfg', start_all svc_rcvr rf_rcvr i starts cfg = Ok cfg' ∧ service_reach n cfg' ∧ all_live n cfg'.
Proof.
  revert i cfg. induction starts as [|[names now] starts IH]; intros i cfg Hr Hi [Hlen Hnd] Hn Hlive Hdown Hnew.
  { exists cfg. split; [done|]. split; [done|]. intros j Hj. apply Hlive. cbn in Hn. lia. }
  cbn in Hn, Hnd, Hnew. apply Forall_cons in Hlen as [Hl Hlen]. apply NoDup_app in Hnd as (Hnd1 & Hdis & Hnd2).
  destruct (Hdown i ltac:(lia)) as [Hdi Hei].
  assert (allowed n cfg (SStart i names now : @ServiceOp Srv)) as Hal.
  { cbn. split; [lia|]. split; [|split; [done|]].
    - split; [done|]. split; [done|]. intros x Hx. apply Hnew, elem_of_app. by left.
    - intros j x Hx. unfold current in Hx. by rewrite Hei in Hx. }
  destruct (StartServer_Ok svc_rcvr rf_rcvr n cfg i names now Hi ltac:(lia)) as (cfg1 & ps & Hx & Hi1 & Hst); try apply Hal.
  cbn [start_all]. rewrite Hx. cbn [mbind result_bind].
  destruct (st_server _ _ _ _ _ _ Hst) as (s & _ & Hsv & _). destruct (h_len _ _ (h_kept _ _ _ _ (i_healthy _ _ _ _ Hi))) as [Hlk _].
  apply IH; [by eapply service_do|done|by split|lia|..].
  - intros j Hj. rewrite Hsv. destruct (decide (j = i)) as [->|Hne]; [eexists; apply list_lookup_insert_eq; lia|].
    rewrite list_lookup_insert_ne by done. apply Hlive. lia.
  - intros j Hj. rewrite Hsv, (st_names _ _ _ _ _ _ Hst), !list_lookup_insert_ne by lia. apply Hdown. lia.
  - intros x Hxs. apply eq_None_not_Some. rewrite (st_known _ _ _ _ _ _ Hst). intros [Hxn|[? Hx2]].
    + by eapply Hdis.
    + rewrite Hnew in Hx2; [done|]. apply elem_of_app. by right.
Qed.

(** [ConnectAll] enables every end between servers. *)
Lemma ConnectAll_Ok n cfg :
  wired n cfg → all_started n cfg →
  ∃ cfg', ConnectAll cfg = Ok cfg' ∧
    relinked (λ a b, if decide (((a < n) ∧ (b < n))%nat) then Some true else None) cfg cfg'.
Proof.
  intros Hw Hs. pose proof (w_n _ _ Hw) as [Hn _]. unfold ConnectAll. rewrite Hn.
  destruct (for_each_Ok (λ i (c : config), connectUnlocked i (All c) c)
    (λ d c, relinked (λ a b, if decide ((a ∈ d ∧ (b < n)%nat) ∨ (b ∈ d ∧ (a < n)%nat)) then Some true else None) cfg c)
    (seq 0 n) cfg) as (cfg' & Hx & Hr).
  - eapply relinked_ext; [|apply relinked_refl]. intros a b. cbn. rewrite decide_False; [done|].
    rewrite !elem_of_nil. tauto.
  - intros d i rest c Hd Hr. destruct (relinked_wired n _ _ _ Hw Hs Hr) as [Hw1 Hs1].
    assert (i < n)%nat as Hi by (assert (i ∈ seq 0 n) as ?%elem_of_seq by (rewrite Hd; set_solver); lia).
    unfold All. destruct (w_n _ _ Hw1) as [-> _].
    destruct (connectUnlocked_Ok n c i (seq 0 n) Hw1 Hs1 Hi) as (c' & Hx & Hr'); [intros j ?%elem_of_seq; lia|].
    exists c'. split; [done|]. eapply relinked_ext; [|by eapply relinked_trans]. intros a b. unfold after_that, between.
    assert (∀ y, y ∈ seq 0 n ↔ (y < n)%nat) as Hseq by (intros y; rewrite elem_of_seq; lia).
    assert (∀ y, y ∈ d ++ [i] ↔ y ∈ d ∨ y = i) as Happ by (intros y; rewrite elem_of_app, list_elem_of_singleton; done).
    pose proof (Hseq a); pose proof (Hseq b); pose proof (Happ a); pose proof (Happ b).
    repeat case_decide; try done; exfalso; tauto.
  - exists cfg'. split; [done|]. eapply relinked_ext; [|exact Hr]. intros a b. apply decide_ext.
    rewrite !elem_of_seq. lia.
Qed.

(** [make_config] does not fail: all servers run, and every end between them is
    enabled. *)
Lemma make_config_ready unreliable size now starts :
  let n := length starts in
  distinct_names n starts →
  ∃ cfg, make_config svc_rcvr rf_rcvr unreliable size now starts = Ok cfg ∧ service_reach n cfg ∧ all_live n cfg ∧
    (∀ i j, (i < n)%nat → (j < n)%nat → link cfg i j = Some true) ∧ reliable (cfg_net cfg) = negb unreliable.
Proof.
  intros n Hd. unfold make_config. fold n.
  destruct (start_all_Ok n starts 0 (new_config n size now)) as (cfg1 & -> & Hr1 & Hl1); try done.
  { constructor. }
  { apply new_config_invariant. }
  { intros j Hj. lia. }
  { intros j [_ Hj]. cbn. by rewrite !lookup_replicate. }
  cbn [mbind result_bind]. pose proof (service_reach_invariant _ _ _ _ Hr1) as Hi1.
  pose proof (all_live_started _ _ Hi1 Hl1) as Hs1. pose proof (i_wired _ _ _ _ Hi1) as Hw1.
  destruct (ConnectAll_Ok n cfg1 Hw1 Hs1) as (cfg2 & Hx & Hr). rewrite Hx. cbn [mbind result_bind].
  eexists. split; [reflexivity|]. split; [|split; [|split]].
  - eapply (service_do _ _ _ cfg2 (SReliable (negb unreliable))); [|done|done].
    by eapply (service_do _ _ _ cfg1 SConnectAll).
  - destruct (r_net _ _ _ Hr) as (rn & -> & _). exact Hl1.
  - intros i j Hi Hj. pose proof (current_started n cfg1 i j Hw1 Hs1 Hi Hj) as Hc.
    pose proof (r_link _ _ _ Hr i j Hc) as Hlk. cbv beta in Hlk. by rewrite decide_True in Hlk by done.
  - done.
Qed.

(** ** The leader in the minority *)

(** C38: With an odd number of running servers, [make_partition] for the leader [l]
    and [partition] do not fail, whatever was connected before.  They split the
    servers into two parts: a server reaches exactly those of its part, and the
    part of [l] is smaller than the other. *)
Theorem leader_in_minority n cfg l :
  service_reach n cfg → all_live n cfg → Nat.odd n = true → (1 < n)%nat → (l < n)%nat →
  ∃ p1 p2 cfg', make_partition n l = Ok (p1, p2) ∧ partition p1 p2 cfg = Ok cfg' ∧
    p1 ++ p2 ≡ₚ seq 0 n ∧ l ∈ p2 ∧ (length p2 < length p1)%nat ∧
    ∀ i j x, current cfg i j = Some x →
      i_enabled (readEndnameInfo (inl x) (cfg_net cfg')) = bool_decide (i ∈ p2 ↔ j ∈ p2).
Proof.
  intros Hr Hl Hodd Hn Hln. destruct (make_partition_Ok n l Hn Hln) as (p1 & p2 & Hm & L1 & L2 & E).
  assert (Nat.even n = false) as Hev by (by rewrite <- Nat.negb_odd, Hodd). rewrite Hev in E. cbn [app] in E.
  assert (p1 ++ p2 ≡ₚ seq 0 n) as Hp.
  { rewrite E. apply NoDup_Permutation; [|apply NoDup_seq|].
    - apply NoDup_app. split; [by apply NoDup_filter, NoDup_seq|]. split; [|apply NoDup_singleton].
      intros x Hx ->%list_elem_of_singleton. by apply list_elem_of_filter in Hx as [? _].
    - intros x. rewrite elem_of_app, list_elem_of_filter, list_elem_of_singleton, elem_of_seq.
      destruct (decide (x = l)); lia || naive_solver. }
  pose proof (service_reach_invariant _ _ _ _ Hr) as Hi. pose proof (all_live_started _ _ Hi Hl) as Hs.
  pose proof (i_wired _ _ _ _ Hi) as Hw.
  destruct (partition_Ok n cfg p1 p2 Hw Hs) as (cfg' & Hx & Hrl).
  { rewrite Hp. apply NoDup_seq. }
  { intros j Hj. rewrite Hp, elem_of_seq in Hj. lia. }
  exists p1, p2, cfg'. split; [done|]. split; [done|]. split; [done|]. split; [|split; [lia|]].
  - assert (last (p1 ++ p2) = Some l) as Hlast by (rewrite E; apply last_snoc).
    destruct p2 as [|y p2] using rev_ind.
    { pose proof (Nat.div_le_lower_bound n 2 1 ltac:(lia) ltac:(lia)). cbn [length] in L2. lia. }
    rewrite app_assoc, last_snoc in Hlast. injection Hlast as <-. set_solver.
  - intros i j x Hc. destruct (service_current_lt _ _ _ _ _ Hw Hc) as [Hin Hjn].
    pose proof (r_link _ _ _ Hrl i j ltac:(by eexists)) as Hlk. unfold link in Hlk.
    rewrite (relinked_current _ _ _ i j Hrl), Hc in Hlk. cbn in Hlk. unfold readEndnameInfo. cbn. rewrite Hlk.
    assert (∀ y, (y < n)%nat → y ∈ p1 ∨ y ∈ p2) as Hcov.
    { intros y Hy. apply elem_of_app. rewrite Hp. apply elem_of_seq. lia. }
    assert (∀ y, y ∈ p1 → y ∈ p2 → False) as Hdis.
    { assert (NoDup (p1 ++ p2)) as (_ & Hdis & _)%NoDup_app by (rewrite Hp; apply NoDup_seq). exact Hdis. }
    pose proof (Hcov i Hin); pose proof (Hcov j Hjn); pose proof (Hdis i); pose proof (Hdis j).
    unfold parted. rewrite bool_decide_decide. repeat case_decide; cbn; done || (exfalso; tauto).
Qed.

(** ** Leaders *)

(** Server [i] runs and says it leads. *)
Definition leads cfg i : bool :=
  match kvservers cfg !! i with
  | Some (Some o) => match objects cfg !! o with Some s => (GetState (svc_rf s)).2 | None => false end
  | _ => false
  end.

(** The first server of [js] that leads. *)
Definition first_leader cfg (js : list nat) : bool * nat :=
  match list_find (λ i, leads cfg i = true) js with
  | Some (_, i) => (true, i)
  | None => (false, 0%nat)
  end.

Lemma first_leader_cons cfg i js :
  first_leader cfg (i :: js) = if leads cfg i then (true, i) else first_leader cfg js.
Proof.
  unfold first_leader. cbn. case_decide as Hl; [by rewrite Hl|]. destruct (leads cfg i); [done|].
  by destruct (list_find _ js) as [[]|].
Qed.

Lemma state_of_live n cfg i o :
  invariant svc_rcvr rf_rcvr n cfg → kvservers cfg !! i = Some (Some o) →
  ∃ t, state_of o cfg = Ok (t, leads cfg i).
Proof.
  intros Hi Ho. destruct (h_live _ _ _ _ (i_healthy _ _ _ _ Hi) i o Ho) as (Hlt & _).
  destruct (lookup_lt_is_Some_2 _ _ Hlt) as [s Hs]. unfold state_of, leads. rewrite Ho, Hs. cbn [or_panic mbind result_bind].
  destruct (GetState (svc_rf s)) as [t b]. by exists t.
Qed.

(** ** Sizes *)

(** The maximum over the servers, if each has a persister. *)
Lemma max_size_Ok (size : Persister → Z) n cfg pss :
  cfg_n cfg = n → length pss = n → (∀ ps, 0 <= size ps) →
  (∀ i ps, pss !! i = Some ps → ∃ ref, saved cfg !! i = Some (Some ref) ∧ contents ref cfg = Ok ps) →
  ∃ m, max_size size cfg = Ok m ∧ (∀ ps, ps ∈ pss → size ps <= m) ∧ (m = 0 ∨ ∃ ps, ps ∈ pss ∧ m = size ps).
Proof.
  intros Hn Hl Hpos Hps. unfold max_size. rewrite Hn.
  set (body := λ (i : nat) (biggest : Z), _).
  destruct (for_each_Ok body (λ d m, (∀ i ps, i ∈ d → pss !! i = Some ps → size ps <= m) ∧
    (m = 0 ∨ ∃ ps, ps ∈ pss ∧ m = size ps)) (seq 0 n) 0) as (m & Hx & Hall & Hm).
  - split; [by intros i ps Hi%elem_of_nil|by left].
  - intros d i rest m Hd [Hall Hm]. assert (i ∈ seq 0 n) as Hin%elem_of_seq by (rewrite Hd; set_solver).
    destruct (lookup_lt_is_Some_2 pss i) as [ps Hi]; [lia|]. destruct (Hps i ps Hi) as (ref & Hs & Hc).
    subst body. cbv beta. rewrite Hs. cbn [or_panic mbind result_bind]. rewrite Hc. cbn [mbind result_bind].
    eexists. split; [reflexivity|]. split.
    + intros k ps' [Hk| ->%list_elem_of_singleton]%elem_of_app Hk'.
      * specialize (Hall k ps' Hk Hk'). case_decide; lia.
      * rewrite Hi in Hk'. injection Hk' as <-. case_decide; lia.
    + case_decide; [right; exists ps; split; [by eapply list_elem_of_lookup_2|done]|done].
  - exists m. split; [done|]. split; [|done]. intros ps (i & Hi)%list_elem_of_lookup_1. apply (Hall i); [|done].
    apply elem_of_seq. apply lookup_lt_Some in Hi. lia.
Qed.

(** [LogSize] of a test in which every server was started. *)
Lemma LogSize_Ok n cfg :
  service_reach n cfg → all_live n cfg →
  ∃ m, LogSize cfg = Ok m ∧
    ∀ i o s, kvservers cfg !! i = Some (Some o) → objects cfg !! o = Some s → RaftStateSize (persister (svc_rf s)) <= m.
Proof.
  intros Hi%service_reach_invariant Hl. pose proof (i_healthy _ _ _ _ Hi) as Hh.
  destruct (w_n _ _ (i_wired _ _ _ _ Hi)) as [Hn _]. destruct (h_len _ _ (h_kept _ _ _ _ Hh)) as [Hlk Hls].
  set (persister_of := λ i, match kvservers cfg !! i with
    | Some (Some o) => match objects cfg !! o with Some s => persister (svc_rf s) | None => MakePersister end
    | _ => MakePersister end).
  destruct (max_size_Ok RaftStateSize n cfg (persister_of <$> seq 0 n)) as (m & Hm & Hall & _).
  - done.
  - by rewrite length_fmap, length_seq.
  - intros ps. unfold RaftStateSize, len. lia.
  - intros i ps Hps. rewrite list_lookup_fmap in Hps. apply fmap_Some in Hps as (j & [-> Hj]%lookup_seq & ->). cbn [Nat.add] in *.
    destruct (Hl i Hj) as [o Ho]. destruct (h_live _ _ _ _ Hh i o Ho) as (Hlt & Hs & _). exists (Of o). split; [done|].
    destruct (lookup_lt_is_Some_2 _ _ Hlt) as [s Hs']. unfold persister_of. cbn. by rewrite Ho, Hs'.
  - exists m. split; [done|]. intros i o s Ho Hs. apply Hall, list_elem_of_fmap. exists i.
    unfold persister_of. rewrite Ho, Hs. split; [done|]. apply elem_of_seq. apply lookup_lt_Some in Ho. lia.
Qed.
End ServiceTests.
