(* ===== verification/Dedup.v ===== *)
(** * Dedup: at-most-once execution by request numbers

    Both key/value servers keep, for each client, the number of the last
    request they executed ([requestCache]) and skip requests with this or an
    earlier number.  [Sequenced] is what they need of a request.  The file
    relates the cache to the history of requests: a request is executed when
    its client sent nothing with its number or a later one before. *)
From S2P Require Import Prelude.
From stdpp Require Import base list gmap option.
From Stdlib Require Import ZArith Lia.
#[local] Open Scope Z_scope.

(** The client and the number of a request, if it carries them. *)
Class Sequenced (R : Type) := ident : R → option (Z * Z).

(** [seq, exists := requestCache[clientId]; exists && currentSeq <= seq] *)
Definition duplicate (requestCache : gmap Z Z) (clientId currentSeq : Z) : bool :=
  match requestCache !! clientId with
  | Some seq => bool_decide (currentSeq <= seq)
  | None => false
  end.

(** No request of this client with this number or a later one. *)
Definition fresh_for {R} `{Sequenced R} (before : list R) (clientId seq : Z) : bool :=
  forallb (λ r, match ident r with
    | None => true
    | Some (c, n) => bool_decide (c = clientId → n < seq)
    end) before.

(** The cache tells exactly which requests the history makes duplicates. *)
Definition cache_of {R} `{Sequenced R} (before : list R) (requestCache : gmap Z Z) : Prop :=
  ∀ c n, duplicate requestCache c n = negb (fresh_for before c n).

Section Dedup.
Context {R : Type} `{Sequenced R}.
Implicit Types (before : list R) (r : R) (m : gmap Z Z) (c n : Z).

Lemma fresh_for_spec before c n :
  fresh_for before c n = true ↔ ∀ r n', r ∈ before → ident r = Some (c, n') → n' < n.
Proof.
  unfold fresh_for. rewrite List.forallb_forall. split.
  - intros Hf r n' Hin%list_elem_of_In Hr. specialize (Hf _ Hin). rewrite Hr in Hf.
    apply bool_decide_eq_true in Hf. auto.
  - intros Hf r Hin%list_elem_of_In. destruct (ident r) as [[c' n']|] eqn:Hr; [|done].
    apply bool_decide_eq_true. intros ->. eauto.
Qed.

Lemma fresh_for_app before r c n :
  fresh_for (before ++ [r]) c n = fresh_for before c n &&
    match ident r with
    | None => true
    | Some (c', n') => bool_decide (c' = c → n' < n)
    end.
Proof. unfold fresh_for. rewrite List.forallb_app. cbn. by rewrite andb_true_r. Qed.

Lemma duplicate_spec m c n :
  duplicate m c n = true ↔ ∃ seq, m !! c = Some seq ∧ n <= seq.
Proof.
  unfold duplicate. destruct (m !! c) as [seq|].
  - rewrite bool_decide_eq_true. naive_solver.
  - naive_solver.
Qed.

Lemma duplicate_insert m c n c' n' :
  duplicate (<[c := n]> m) c' n'
  = if decide (c = c') then bool_decide (n' <= n) else duplicate m c' n'.
Proof.
  unfold duplicate. case_decide as Hc.
  - subst. by rewrite lookup_insert_eq.
  - by rewrite lookup_insert_ne.
Qed.

Lemma cache_of_nil : cache_of (R:=R) [] ∅.
Proof. intros c n. unfold duplicate. by rewrite lookup_empty. Qed.

(** A request without a number leaves the cache right. *)
Lemma cache_of_anonymous before r m :
  cache_of before m → ident r = None → cache_of (before ++ [r]) m.
Proof. intros Hc Hr c n. by rewrite fresh_for_app, Hr, andb_true_r. Qed.

(** So does a duplicate. *)
Lemma cache_of_duplicate before r m c n :
  cache_of before m → ident r = Some (c, n) → duplicate m c n = true →
  cache_of (before ++ [r]) m.
Proof.
  intros Hc Hr Hd c' n'. rewrite Hc, fresh_for_app, Hr. f_equal.
  destruct (fresh_for before c' n') eqn:Hf; [|done]. cbn. symmetry.
  apply bool_decide_eq_true. intros ->. destruct (decide (n < n')) as [|Hlt]; [done|].
  apply duplicate_spec in Hd as (seq & Hs & Hle).
  assert (duplicate m c' n' = true) as Hd' by (apply duplicate_spec; exists seq; split; [done|lia]).
  by rewrite Hc, Hf in Hd'.
Qed.

(** A request that is executed is noted. *)
Lemma cache_of_note before r m c n :
  cache_of before m → ident r = Some (c, n) → duplicate m c n = false →
  cache_of (before ++ [r]) (<[c := n]> m).
Proof.
  intros Hc Hr Hd c' n'. rewrite fresh_for_app, Hr, duplicate_insert.
  case_decide as Hcc.
  - subst c'. destruct (decide (n' <= n)) as [Hle|Hle].
    + rewrite bool_decide_eq_true_2 by done.
      rewrite (bool_decide_eq_false_2 (_ → _)) by (intros Hx; specialize (Hx eq_refl); lia).
      by rewrite andb_false_r.
    + rewrite bool_decide_eq_false_2 by done.
      rewrite (bool_decide_eq_true_2 (_ → _)) by (intros _; lia). rewrite andb_true_r.
      rewrite Hc in Hd. apply negb_false_iff in Hd. symmetry. apply negb_false_iff.
      rewrite fresh_for_spec in Hd |- *. intros r' n'' Hin Hr'.
      specialize (Hd _ _ Hin Hr'). lia.
  - rewrite (bool_decide_eq_true_2 (_ → _)) by (intros; congruence).
    rewrite andb_true_r. apply Hc.
Qed.

(** What was noted stays a duplicate. *)
Lemma duplicate_note m c n c' n' :
  duplicate m c n = true → duplicate m c' n' = false →
  duplicate (<[c' := n']> m) c n = true.
Proof.
  intros Hd Hd'. rewrite duplicate_insert. case_decide as Hcc; [|done]. subst c'.
  apply bool_decide_eq_true. apply duplicate_spec in Hd as (seq & Hs & Hle).
  unfold duplicate in Hd'. rewrite Hs in Hd'. apply bool_decide_eq_false in Hd'. lia.
Qed.

Lemma duplicate_noted m c n : duplicate (<[c := n]> m) c n = true.
Proof. rewrite duplicate_insert, decide_True by done. by apply bool_decide_eq_true. Qed.
End Dedup.

#[export] Hint Resolve duplicate_noted duplicate_note : go.
