(* ===== verification/KvSrv.v ===== *)
(** * KvSrv: the single key/value server of [src/src/kvsrv]

    [KVServer] with its [Get], [Put] and [Append] handlers, and the [Clerk]
    that retries each call until it is answered.  Each handler runs under the
    server's mutex and is one function on the state; [None] is a handler that
    would wait on the condition variable.  The calls of a clerk run against a
    network that loses requests and replies while other clients are served. *)
From S2P Require Import Prelude GoStrings Dedup.
From stdpp Require Import base list gmap strings option sets.
From Stdlib Require Import ZArith Lia.
From Stdlib Require Import String Ascii.
#[local] Open Scope Z_scope.
#[local] Open Scope string_scope.
#[local] Open Scope list_scope.

(** ** Messages *)
Record PutAppendArgs := mkPutAppendArgs {
  pa_Key : string;
  pa_Value : string;
  pa_ClientId : Z;
  pa_Seq : Z
}.

Record GetArgs := mkGetArgs { ga_Key : string }.
Record PutAppendReply := mkPutAppendReply { par_Value : string }.
Record GetReply := mkGetReply { gr_Value : string }.

(** ** The server *)
Record KVServer := mkKVServer {
  kv : gmap string string;
  pending : gmap Z bool;
  requestCache : gmap Z Z
}.

#[export] Instance Upd_kv : Upd kv := λ v s, mkKVServer v (pending s) (requestCache s).
#[export] Instance Upd_pending : Upd pending := λ v s, mkKVServer (kv s) v (requestCache s).
#[export] Instance Upd_requestCache : Upd requestCache := λ v s, mkKVServer (kv s) (pending s) v.

Implicit Types (s : KVServer) (args : PutAppendArgs).

(** Reading a Go map gives the zero value for a missing key. *)
Definition value_of s (key : string) : string := default "" (kv s !! key).

Definition StartKVServer : KVServer := mkKVServer ∅ ∅ ∅.

Definition Get (args : GetArgs) s : KVServer * GetReply :=
  (s, mkGetReply (value_of s (ga_Key args))).

(** The key of an RPC in [pending], in 64-bit arithmetic. *)
Definition rpc_key args : Z :=
  wrap64 (wrap64 (pa_ClientId args * 1000000) + pa_Seq args).

(** [exists && args.Seq <= seq] *)
Definition seen args s : bool :=
  duplicate (requestCache s) (pa_ClientId args) (pa_Seq args).

Definition Put args s : option (KVServer * PutAppendReply) :=
  let key := rpc_key args in
  if default false (pending s !! key) then None
  else if seen args s then Some (s, mkPutAppendReply "")
  else
    let s := s <| pending := <[key := true]> (pending s) |> in
    let s := s <| kv := <[pa_Key args := pa_Value args]> (kv s) |> in
    let s := s <| requestCache := <[pa_ClientId args := pa_Seq args]> (requestCache s) |> in
    let s := s <| pending := delete key (pending s) |> in
    Some (s, mkPutAppendReply "").

Definition Append args s : option (KVServer * PutAppendReply) :=
  let key := rpc_key args in
  if default false (pending s !! key) then None
  else if seen args s then
    let lastIndex := LastIndex (value_of s (pa_Key args)) (pa_Value args) in
    if decide (lastIndex ≠ -1)
    then Some (s, mkPutAppendReply
                    (String.substring 0 (Z.to_nat lastIndex) (value_of s (pa_Key args))))
    else Some (s, mkPutAppendReply (value_of s (pa_Key args)))
  else
    let s := s <| pending := <[key := true]> (pending s) |> in
    let old := value_of s (pa_Key args) in
    let s := if decide (old = "")
             then s <| kv := <[pa_Key args := pa_Value args]> (kv s) |>
             else s <| kv := <[pa_Key args := old +:+ pa_Value args]> (kv s) |> in
    let s := s <| requestCache := <[pa_ClientId args := pa_Seq args]> (requestCache s) |> in
    let s := s <| pending := delete key (pending s) |> in
    Some (s, mkPutAppendReply old).

(** ** Requests, and the network between clerk and server *)
Inductive Op := OpPut | OpAppend.

(** A request of any client. *)
Inductive Rpc :=
  | RGet (args : GetArgs)
  | RWrite (op : Op) (args : PutAppendArgs).

#[export] Instance Rpc_sequenced : Sequenced Rpc := λ r,
  match r with
  | RGet _ => None
  | RWrite _ args => Some (pa_ClientId args, pa_Seq args)
  end.

Definition write (op : Op) args s : option (KVServer * PutAppendReply) :=
  match op with OpPut => Put args s | OpAppend => Append args s end.

Definition serve1 (r : Rpc) s : option KVServer :=
  match r with
  | RGet args => Some (fst (Get args s))
  | RWrite op args => fst <$> write op args s
  end.

Fixpoint serve (rs : list Rpc) s : option KVServer :=
  match rs with
  | [] => Some s
  | r :: rs => s ← serve1 r s; serve rs s
  end.

(** What becomes of one [Call]. *)
Inductive Attempt := RequestLost | ReplyLost | Answered.

(** The attempts of a call, each after the server handled other requests. *)
Notation Weather := (list (list Rpc * Attempt)).

(** [ok := Call(..); for !ok { ok = Call(..) }]; [None] while it still loops. *)
Fixpoint Call_retry (op : Op) args (net : Weather) s : option (KVServer * PutAppendReply) :=
  match net with
  | [] => None
  | (others, a) :: net =>
      s ← serve others s;
      match a with
      | RequestLost => Call_retry op args net s
      | ReplyLost => '(s, _) ← write op args s; Call_retry op args net s
      | Answered => write op args s
      end
  end.

Fixpoint Get_retry (args : GetArgs) (net : Weather) s : option (KVServer * GetReply) :=
  match net with
  | [] => None
  | (others, a) :: net =>
      s ← serve others s;
      match a with
      | RequestLost | ReplyLost => Get_retry args net s
      | Answered => Some (Get args s)
      end
  end.

(** ** The clerk *)
Record Clerk := mkClerk { ck_id : Z; ck_seq : Z }.

(** [nrand] draws the identity below [2^62]. *)
Definition MakeClerk (rnd : Z) : Clerk := mkClerk (rnd mod 2 ^ 62) 0.

Definition Clerk_Get (ck : Clerk) (key : string) (net : Weather) s
  : option (Clerk * KVServer * string) :=
  '(s, reply) ← Get_retry (mkGetArgs key) net s;
  Some (mkClerk (ck_id ck) (ck_seq ck + 1), s, gr_Value reply).

Definition PutAppend (ck : Clerk) (key value : string) (op : Op) (net : Weather) s
  : option (Clerk * KVServer * string) :=
  let args := mkPutAppendArgs key value (ck_id ck) (ck_seq ck) in
  '(s, reply) ← Call_retry op args net s;
  Some (mkClerk (ck_id ck) (ck_seq ck + 1), s, par_Value reply).

Definition Clerk_Put ck key value net s : option (Clerk * KVServer) :=
  fst <$> PutAppend ck key value OpPut net s.

Definition Clerk_Append ck key value net s : option (Clerk * KVServer * string) :=
  PutAppend ck key value OpAppend net s.

(** ** What the server promises *)

(** Every lock release leaves no RPC pending. *)
Definition idle s : Prop := pending s = ∅.

(** A write the server has not executed. *)
Definition apply_write (op : Op) args (m : gmap string string) : gmap string string :=
  match op with
  | OpPut => <[pa_Key args := pa_Value args]> m
  | OpAppend => <[pa_Key args := default "" (m !! pa_Key args) +:+ pa_Value args]> m
  end.

Definition write_reply (op : Op) args (m : gmap string string) : string :=
  match op with
  | OpPut => ""
  | OpAppend => default "" (m !! pa_Key args)
  end.

(** The specification reads the history only: a write takes effect if its
    client sent no request with this or a later number before. *)
Fixpoint fresh_writes (before rs : list Rpc) (m : gmap string string)
: gmap string string :=
  match rs with
  | [] => m
  | RGet args :: rs => fresh_writes (before ++ [RGet args]) rs m
  | RWrite op args :: rs =>
      fresh_writes (before ++ [RWrite op args]) rs
        (if fresh_for before (pa_ClientId args) (pa_Seq args)
         then apply_write op args m else m)
  end.

(** ** Every execution is the specification's *)

Lemma wrap_append (m : gmap string string) k v :
  <[k := (if decide (default "" (m !! k) = "") then v else default "" (m !! k) +:+ v)]> m
  = <[k := default "" (m !! k) +:+ v]> m.
Proof. case_decide as E; [|done]. by rewrite E. Qed.

(** A write on an idle server: executed, or answered from the cache. *)
Lemma write_cases op args s :
  idle s →
  ∃ s' reply, write op args s = Some (s', reply) ∧ idle s' ∧
    if seen args s then s' = s
    else kv s' = apply_write op args (kv s)
      ∧ requestCache s' = <[pa_ClientId args := pa_Seq args]> (requestCache s)
      ∧ par_Value reply = write_reply op args (kv s).
Proof.
  unfold idle. intros Hp.
  assert (∀ (m : gmap Z bool) k, m = ∅ → delete k (<[k := true]> m) = ∅) as Hd.
  { intros m k ->. rewrite delete_insert_eq. apply delete_empty. }
  destruct op; cbn [write]; unfold Put, Append; rewrite Hp, lookup_empty; cbn [default];
    destruct (seen args s).
  - by exists s, (mkPutAppendReply "").
  - eexists _, _. split; [reflexivity|]. cbn. split; [by apply Hd|done].
  - case_decide; eexists s, _; (split; [reflexivity|done]).
  - eexists _, _. split; [reflexivity|].
    case_decide as E; cbn; (split; [by apply Hd|]); (split; [|split; [done|]]).
    + unfold value_of in E. cbn in E. by rewrite E.
    + done.
    + done.
    + done.
Qed.

Lemma serve_spec before rs s :
  idle s → cache_of before (requestCache s) →
  ∃ s', serve rs s = Some s' ∧ idle s' ∧ cache_of (before ++ rs) (requestCache s')
    ∧ kv s' = fresh_writes before rs (kv s).
Proof.
  revert before s. induction rs as [|r rs IH]; intros before s Hi Hc; cbn [serve fresh_writes].
  { exists s. by rewrite app_nil_r. }
  destruct r as [args|op args]; cbn [serve1].
  - cbn. destruct (IH (before ++ [RGet args]) s Hi) as (s' & Hs & Hi' & Hc' & Hkv).
    { by apply cache_of_anonymous. }
    rewrite <-app_assoc in Hc'. by exists s'.
  - destruct (write_cases op args s Hi) as (s1 & reply & Hw & Hi1 & Hcase).
    rewrite Hw. cbn. rewrite <-(negb_involutive (fresh_for _ _ _)), <-Hc. fold (seen args s).
    destruct (seen args s) eqn:Hseen; cbn [negb].
    + subst s1. destruct (IH (before ++ [RWrite op args]) s Hi) as (s' & Hs & Hi' & Hc' & Hkv).
      { by eapply cache_of_duplicate. }
      rewrite <-app_assoc in Hc'. by exists s'.
    + destruct Hcase as (Hk & Hr & _).
      destruct (IH (before ++ [RWrite op args]) s1 Hi1) as (s' & Hs & Hi' & Hc' & Hkv).
      { rewrite Hr. by apply cache_of_note. }
      rewrite <-app_assoc in Hc'. rewrite Hk in Hkv. by exists s'.
Qed.

(** No handler ever waits, and the stored map is the one the specification
    computes from the history of requests: repeated and late ones change
    nothing. *)
Theorem server_refines_spec rs :
  ∃ s, serve rs StartKVServer = Some s ∧ idle s ∧ kv s = fresh_writes [] rs ∅.
Proof.
  destruct (serve_spec [] rs StartKVServer) as (s & Hs & Hi & _ & Hk); [done|apply cache_of_nil|by exists s].
Qed.

(** ** A call is executed exactly once *)

(** No request of [rs] comes from client [c], or writes [key]. *)
Definition foreign (c : Z) (rs : list Rpc) : Prop :=
  ∀ op args, RWrite op args ∈ rs → pa_ClientId args ≠ c.
Definition untouched (key : string) (rs : list Rpc) : Prop :=
  ∀ op args, RWrite op args ∈ rs → pa_Key args ≠ key.

(** The requests of others along the attempts, in order. *)
Definition others_of (net : Weather) : list Rpc := List.concat (map fst net).

Definition answered (net : Weather) : Prop := Exists (λ oa, snd oa = Answered) net.

(** The reply to a write that was executed before. *)
Definition dup_reply (op : Op) args (value : string) : string :=
  match op with
  | OpPut => ""
  | OpAppend =>
      let lastIndex := LastIndex value (pa_Value args) in
      if decide (lastIndex ≠ -1) then String.substring 0 (Z.to_nat lastIndex) value else value
  end.

Lemma write_dup op args s :
  idle s → seen args s = true →
  write op args s = Some (s, mkPutAppendReply (dup_reply op args (value_of s (pa_Key args)))).
Proof.
  unfold idle. intros Hp Hs. destruct op; cbn [write dup_reply]; unfold Put, Append;
    rewrite Hp, lookup_empty, Hs; cbn [default]; [done|by case_decide].
Qed.

Lemma foreign_app c rs1 rs2 : foreign c (rs1 ++ rs2) ↔ foreign c rs1 ∧ foreign c rs2.
Proof.
  unfold foreign. setoid_rewrite elem_of_app.
  split; [intros Hf; split; intros op args Hin; apply (Hf op args); auto|].
  intros [Hf1 Hf2] op args [?|?]; eauto.
Qed.

Lemma serve_app rs1 rs2 s : serve (rs1 ++ rs2) s = serve rs1 s ≫= serve rs2.
Proof.
  revert s. induction rs1 as [|r rs1 IH]; intros s; [done|]. cbn.
  destruct (serve1 r s); cbn; [apply IH|done].
Qed.

Lemma apply_write_other op args m key :
  pa_Key args ≠ key → apply_write op args m !! key = m !! key.
Proof. intros Hk. destruct op; cbn; by rewrite lookup_insert_ne. Qed.

Lemma serve_frame c rs s :
  idle s → foreign c rs →
  ∃ s', serve rs s = Some s' ∧ idle s' ∧ requestCache s' !! c = requestCache s !! c
    ∧ ∀ key, untouched key rs → kv s' !! key = kv s !! key.
Proof.
  revert s. induction rs as [|r rs IH]; intros s Hi Hf; [by exists s|].
  assert (foreign c rs) as Hf' by (intros op args Hin; apply (Hf op args); by right).
  assert (∀ key, untouched key (r :: rs) → untouched key rs) as Hu
    by (intros key Hk op args Hin; apply (Hk op args); by right).
  destruct r as [args|op args]; cbn [serve serve1].
  - cbn. destruct (IH s Hi Hf') as (s' & Hs & Hi' & Hc & Hk). exists s'.
    split_and!; [done|done|done|]. intros key Hkey. by apply Hk, Hu.
  - destruct (write_cases op args s Hi) as (s1 & reply & Hw & Hi1 & Hcase). rewrite Hw. cbn.
    destruct (IH s1 Hi1 Hf') as (s' & Hs & Hi' & Hc & Hk). exists s'. split_and!; [done|done| |].
    + rewrite Hc. destruct (seen args s); [by subst|]. destruct Hcase as (_ & -> & _).
      apply lookup_insert_ne. apply (Hf op args). by left.
    + intros key Hkey. rewrite Hk by auto. destruct (seen args s); [by subst|].
      destruct Hcase as (-> & _). apply apply_write_other. apply (Hkey op args). by left.
Qed.

Lemma seen_cache args s :
  requestCache s !! pa_ClientId args = Some (pa_Seq args) → seen args s = true.
Proof. intros Hs. apply duplicate_spec. by exists (pa_Seq args). Qed.

(** Once executed, the remaining attempts leave the state to the others. *)
Lemma Call_retry_again op args (net : Weather) s :
  idle s → requestCache s !! pa_ClientId args = Some (pa_Seq args) →
  foreign (pa_ClientId args) (others_of net) → answered net →
  ∃ s' after rest, others_of net = after ++ rest ∧ serve after s = Some s'
    ∧ Call_retry op args net s
      = Some (s', mkPutAppendReply (dup_reply op args (value_of s' (pa_Key args)))).
Proof.
  revert s. induction net as [|[others a] net IH]; intros s Hi Hc Hf Ha;
    [by apply Exists_nil in Ha|]. cbn in Hf |- *. fold (others_of net) in *. apply foreign_app in Hf as [Hf1 Hf2].
  destruct (serve_frame _ others s Hi Hf1) as (s1 & Hs1 & Hi1 & Hc1 & _).
  rewrite Hc in Hc1. rewrite Hs1. cbn.
  rewrite (write_dup _ _ _ Hi1 (seen_cache _ _ Hc1)). cbn.
  assert (a = Answered ∨ a ≠ Answered) as [->|Hna] by (destruct a; auto).
  { by exists s1, others, (others_of net). }
  assert (answered net) as Ha' by (by apply Exists_cons in Ha as [?|?]).
  destruct (IH s1 Hi1 Hc1 Hf2 Ha') as (s' & after & rest & Hcat & Hs' & Hr).
  exists s', (others ++ after), rest. rewrite Hcat, serve_app, Hs1, app_assoc. cbn.
  by destruct a.
Qed.

Lemma dup_reply_executed op args (m : gmap string string) value :
  apply_write op args m !! pa_Key args = Some value →
  dup_reply op args value = write_reply op args m.
Proof.
  destruct op; cbn; rewrite lookup_insert_eq; intros [= <-]; [done|].
  rewrite LastIndex_app, decide_True by lia. rewrite Nat2Z.id. apply substring_app.
Qed.

Lemma not_seen args s :
  (∀ seq, requestCache s !! pa_ClientId args = Some seq → seq < pa_Seq args) → seen args s = false.
Proof.
  unfold seen, duplicate. intros Hs. destruct (requestCache s !! _) as [seq|]; [|done].
  apply bool_decide_eq_false. specialize (Hs seq eq_refl). lia.
Qed.

Lemma Call_retry_once op args (net : Weather) s :
  idle s → (∀ seq, requestCache s !! pa_ClientId args = Some seq → seq < pa_Seq args) →
  foreign (pa_ClientId args) (others_of net) → answered net →
  ∃ before after rest s0 s' reply, others_of net = before ++ after ++ rest
    ∧ serve before s = Some s0 ∧ seen args s0 = false
    ∧ serve (RWrite op args :: after) s0 = Some s'
    ∧ Call_retry op args net s = Some (s', mkPutAppendReply reply)
    ∧ requestCache s' !! pa_ClientId args = Some (pa_Seq args)
    ∧ (untouched (pa_Key args) after → reply = write_reply op args (kv s0)).
Proof.
  revert s. induction net as [|[others a] net IH]; intros s Hi Hc Hf Ha;
    [by apply Exists_nil in Ha|]. cbn in Hf |- *. fold (others_of net) in *.
  apply foreign_app in Hf as [Hf1 Hf2].
  destruct (serve_frame _ others s Hi Hf1) as (s1 & Hs1 & Hi1 & Hc1 & _).
  rewrite <-Hc1 in Hc. pose proof (not_seen args s1 Hc) as Hns. rewrite Hs1. cbn.
  destruct (write_cases op args s1 Hi1) as (s2 & [reply] & Hw & Hi2 & Hcase).
  rewrite Hns in Hcase. destruct Hcase as (Hk2 & Hc2 & Hr2). cbn in Hr2.
  assert (requestCache s2 !! pa_ClientId args = Some (pa_Seq args)) as Hc2'
    by (rewrite Hc2; apply lookup_insert_eq).
  destruct a.
  - assert (answered net) as Ha' by (by apply Exists_cons in Ha as [?|?]).
    destruct (IH s1 Hi1 Hc Hf2 Ha') as (before & after & rest & s0 & s' & r & Hcat & Hb & H1).
    exists (others ++ before), after, rest, s0, s', r. rewrite Hcat, app_assoc, serve_app, Hs1. done.
  - assert (answered net) as Ha' by (by apply Exists_cons in Ha as [?|?]).
    assert (foreign (pa_ClientId args) (others_of net)) as Hf2' by done.
    destruct (Call_retry_again op args net s2 Hi2 Hc2' Hf2 Ha')
      as (s' & after & rest & Hcat & Hs' & Hr).
    rewrite Hcat in Hf2'. apply foreign_app in Hf2' as [Hfa _].
    destruct (serve_frame _ after s2 Hi2 Hfa) as (s'' & Hs'' & _ & Hc' & Hk').
    rewrite Hs' in Hs''. injection Hs'' as <-.
    exists others, after, rest, s1, s'. eexists. rewrite Hcat. cbn. rewrite Hw. cbn.
    split_and!; [done|done|done|done|exact Hr|by rewrite Hc'|].
    intros Hu. unfold value_of. rewrite (Hk' _ Hu), Hk2.
    destruct (apply_write op args (kv s1) !! pa_Key args) as [v|] eqn:Hv.
    + by apply dup_reply_executed.
    + destruct op; cbn in Hv; by rewrite lookup_insert_eq in Hv.
  - exists others, [], (others_of net), s1, s2, reply. cbn. rewrite Hw. cbn. done.
Qed.

(** C16: Whatever requests and replies the network loses, a clerk's [Put] or
    [Append] takes effect once, at one point between the requests of the other
    clients, and the clerk moves to its next number.  If nobody else wrote the
    key between that point and the answer, an [Append] returns the value its
    key had there. *)
Theorem PutAppend_exactly_once ck key value op (net : Weather) s :
  idle s → (∀ seq, requestCache s !! ck_id ck = Some seq → seq < ck_seq ck) →
  foreign (ck_id ck) (others_of net) → answered net →
  let args := mkPutAppendArgs key value (ck_id ck) (ck_seq ck) in
  ∃ before after rest s0 s1 s' reply, others_of net = before ++ after ++ rest
    ∧ serve before s = Some s0
    ∧ serve1 (RWrite op args) s0 = Some s1 ∧ kv s1 = apply_write op args (kv s0)
    ∧ serve after s1 = Some s'
    ∧ PutAppend ck key value op net s = Some (mkClerk (ck_id ck) (ck_seq ck + 1), s', reply)
    ∧ requestCache s' !! ck_id ck = Some (ck_seq ck)
    ∧ (untouched key after → reply = write_reply op args (kv s0)).
Proof.
  intros Hi Hc Hf Ha args.
  destruct (Call_retry_once op args net s Hi Hc Hf Ha)
    as (before & after & rest & s0 & s' & reply & Hcat & Hb & Hns & Hs' & Hr & Hc' & Hu).
  assert (foreign (ck_id ck) before) as Hfb by (rewrite Hcat in Hf; by apply foreign_app in Hf as [? _]).
  destruct (serve_frame _ before s Hi Hfb) as (s0' & Hs0 & Hi0 & _).
  rewrite Hb in Hs0. injection Hs0 as <-.
  destruct (write_cases op args s0 Hi0) as (s1 & r1 & Hw & _ & Hcase). rewrite Hns in Hcase.
  cbn in Hs'. rewrite Hw in Hs'. cbn in Hs'.
  exists before, after, rest, s0, s1, s', reply. cbn [serve1]. rewrite Hw. cbn.
  split_and!; try done; [apply Hcase|].
  unfold PutAppend. fold args. by rewrite Hr.
Qed.

(** ** Concrete runs *)

Definition carol : Clerk := mkClerk 7 0.
Definition others_write : list Rpc :=
  [RWrite OpAppend (mkPutAppendArgs "x" "y" 8 0); RWrite OpAppend (mkPutAppendArgs "x" "y" 8 0)].

(** Two replies are lost while another client appends. *)
Definition bad_net : Weather :=
  [([], RequestLost); (others_write, ReplyLost); ([], ReplyLost); ([], Answered)].

Lemma PutAppend_exactly_once_witness :
  ∃ s', PutAppend carol "x" "a" OpAppend bad_net StartKVServer = Some (mkClerk 7 1, s', "y")
    ∧ requestCache s' !! 7 = Some 0.
Proof.
  destruct (PutAppend_exactly_once carol "x" "a" OpAppend bad_net StartKVServer)
    as (before & after & rest & s0 & s1 & s' & reply & _ & _ & _ & _ & _ & Hp & Hc & _).
  - reflexivity.
  - intros seq Hseq. vm_compute in Hseq. discriminate.
  - intros op args Hin. cbn in Hin. apply list_elem_of_In in Hin.
    destruct Hin as [[= _ <-]|[[= _ <-]|[]]]; discriminate.
  - apply Exists_exists. exists ([], Answered). split; [cbn; set_solver|done].
  - exists s'. split; [|exact Hc]. rewrite Hp. vm_compute in Hp. injection Hp as _ <-. reflexivity.
Defined.

(** ** Where the reply of a repeated [Append] goes wrong *)

(** Carol's first [Append] of "a" finds "" and its reply is lost; another client
    appends "a" too; the repeated request answers "a", a value the key had only
    after Carol's own append. *)
Definition twin_net : Weather :=
  [([], ReplyLost); ([RWrite OpAppend (mkPutAppendArgs "x" "a" 8 0)], Answered)].

Example repeated_append_wrong_reply :
  snd <$> PutAppend carol "x" "a" OpAppend twin_net StartKVServer = Some "a".
Proof. reflexivity. Qed.

(** The key of [pending] is not unique: two clients can share it. *)
Example rpc_key_collision :
  rpc_key (mkPutAppendArgs "x" "a" 0 5) = rpc_key (mkPutAppendArgs "x" "a" (2 ^ 58) 5).
Proof. reflexivity. Qed.

(** A clerk that read in between skips a number, and its next write still counts. *)
Example get_moves_seq :
  (fst ∘ fst) <$> Clerk_Get carol "x" [([], ReplyLost); ([], Answered)] StartKVServer
  = Some (mkClerk 7 1).
Proof. reflexivity. Qed.
