(* ===== verification/KvSrvHarness.v ===== *)
(** * KvSrvHarness: the harness of the tests of [src/src/kvsrv]

    [config.go] of the single server: one server, never restarted, and clerks
    that are made and deleted.  In every state of a test the end of a clerk is
    enabled and leads to the server, and the end of a deleted clerk is gone. *)
From stdpp Require Import base gmap strings list_numbers option list.
From Stdlib Require Import ZArith Lia.
From S2P Require Import Prelude Labgob Labrpc LabrpcCalls RaftTypes Raft Dedup KvSrv RaftHarness ServiceHarness.
#[local] Open Scope Z_scope.
#[local] Open Scope go_scope.

Definition SERVERID : nat := 0.

Record config {rtype : Type} := mkConfig {
  cfg_net : Network NetName;
  heap : list (Labrpc.Server rtype);
  kvserver : option KVServer;
  clerk_objects : list (KvSrv.Clerk * string);  (* every clerk, with its end *)
  clerks : gmap nat string;
  nextClientId : Z;
  start : Z
}.
Arguments config : clear implicits.
Arguments mkConfig {rtype} _ _ _ _ _ _ _.

Section Updates.
Context {rtype : Type}.
Notation config := (config rtype).
#[export] Instance upd_cfg_net : Upd (R := config) cfg_net := fun x r =>
  mkConfig x (heap r) (kvserver r) (clerk_objects r) (clerks r) (nextClientId r) (start r).
#[export] Instance upd_heap : Upd (R := config) heap := fun x r =>
  mkConfig (cfg_net r) x (kvserver r) (clerk_objects r) (clerks r) (nextClientId r) (start r).
#[export] Instance upd_kvserver : Upd (R := config) kvserver := fun x r =>
  mkConfig (cfg_net r) (heap r) x (clerk_objects r) (clerks r) (nextClientId r) (start r).
#[export] Instance upd_clerk_objects : Upd (R := config) clerk_objects := fun x r =>
  mkConfig (cfg_net r) (heap r) (kvserver r) x (clerks r) (nextClientId r) (start r).
#[export] Instance upd_clerks : Upd (R := config) clerks := fun x r =>
  mkConfig (cfg_net r) (heap r) (kvserver r) (clerk_objects r) x (nextClientId r) (start r).
#[export] Instance upd_nextClientId : Upd (R := config) nextClientId := fun x r =>
  mkConfig (cfg_net r) (heap r) (kvserver r) (clerk_objects r) (clerks r) x (start r).
End Updates.

Section KvSrvHarness.
Context {rtype : Type} (svc_rcvr : Rcvr rtype).
Notation config := (config rtype).
Implicit Types (cfg : config) (ck : nat) (x : string).

(** [cfg.clerks[ck]] is the empty name for a clerk that is not in the map. *)
Definition endname_of ck cfg : string := default "" (clerks cfg !! ck).

Definition ConnectClientUnlocked ck cfg : config :=
  cfg <| cfg_net := Enable (inl (endname_of ck cfg)) true (cfg_net cfg) |>.

(** [endname] and [rnd] are drawn; returns the clerk, the index of its object. *)
Definition makeClient (endname : string) (rnd : Z) cfg : result (config * nat) :=
  '(rn, _) ← MakeEnd (inl endname) (cfg_net cfg);
  let rn := Connect (inl endname) (server_name SERVERID) rn in
  let cfg := cfg <| cfg_net := rn |> in
  let ck := length (clerk_objects cfg) in
  let cfg := cfg <| clerk_objects := clerk_objects cfg ++ [(KvSrv.MakeClerk rnd, endname)] |> in
  let cfg := cfg <| clerks := <[ck := endname]> (clerks cfg) |> in
  let cfg := cfg <| nextClientId := nextClientId cfg + 1 |> in
  Ok (ConnectClientUnlocked ck cfg, ck).

(** The file it removes does not exist. *)
Definition deleteClient ck cfg : result config :=
  let v := endname_of ck cfg in
  rn ← DeleteEnd (inl v) (cfg_net cfg);
  let cfg := cfg <| cfg_net := rn |> in
  Ok (cfg <| clerks := delete ck (clerks cfg) |>).

Definition StartServer cfg : config :=
  let cfg := cfg <| kvserver := Some StartKVServer |> in
  let srv := AddService (MakeService svc_rcvr) MakeServer in
  let ptr := length (heap cfg) in
  let cfg := cfg <| heap := heap cfg ++ [srv] |> in
  cfg <| cfg_net := AddServer (server_name 0) ptr (cfg_net cfg) |>.

Definition make_config (unreliable : bool) (now : Z) : config :=
  let cfg := mkConfig MakeNetwork [] None [] ∅ (Z.of_nat SERVERID + 1) now in
  let cfg := StartServer cfg in
  cfg <| cfg_net := Reliable (negb unreliable) (cfg_net cfg) |>.

(** Two minutes of real time, in nanoseconds. *)
Definition checkTimeout (failed : bool) (now : Z) cfg : result unit :=
  if negb failed && bool_decide (now - start cfg > 120 * 1000 * millisecond)
  then Fatal "test took longer than 120 seconds" else Ok tt.

(** [rn.Cleanup] only ends the goroutine of the network. *)
Definition cleanup (failed : bool) (now : Z) cfg : result unit := checkTimeout failed now cfg.

(** Statistics. *)
Definition rpcTotal (rn : Network NetName) : Z := GetTotalCount rn.
Definition begin (now : Z) (rn : Network NetName) : Stats := mkStats now (rpcTotal rn) 0.
Definition op (stats : Stats) : Stats := mkStats (t0 stats) (rpcs0 stats) (wrap32 (ops stats + 1)).

(** The numbers printed, if the test did not fail: nanoseconds since [begin], the
    RPCs and the operations. *)
Definition end_ (failed : bool) (now : Z) (stats : Stats) cfg : result (option (Z * Z * Z)) :=
  _ ← checkTimeout failed now cfg;
  Ok (if failed then None else Some (now - t0 stats, rpcTotal (cfg_net cfg) - rpcs0 stats, ops stats)).

(** ** The states of a test *)
Inductive ClientOp := MakeClient (endname : string) (rnd : Z) | DeleteClient (ck : nat) | ServeRequest (s : KVServer).

Definition cexec (o : ClientOp) cfg : result config :=
  match o with
  | MakeClient endname rnd => '(cfg, _) ← makeClient endname rnd cfg; Ok cfg
  | DeleteClient ck => deleteClient ck cfg
  | ServeRequest s => Ok (cfg <| kvserver := Some s |>)
  end.

(** Clerks are deleted once; [MakeEnd] refuses a name that is in use. *)
Inductive client_reach : config → Prop :=
  | client_new unreliable now : client_reach (make_config unreliable now)
  | client_do cfg o cfg' : client_reach cfg →
      (∀ ck, o = DeleteClient ck → is_Some (clerks cfg !! ck)) → cexec o cfg = Ok cfg' → client_reach cfg'.

Record clients_ok cfg : Prop := {
  co_end ck x : clerks cfg !! ck = Some x →
    is_Some (ends (cfg_net cfg) !! inl x) ∧ enabled (cfg_net cfg) !! inl x = Some true ∧
    connections (cfg_net cfg) !! inl x = Some (Some (server_name 0));
  co_only y : is_Some (ends (cfg_net cfg) !! y) → ∃ ck x, clerks cfg !! ck = Some x ∧ y = inl x;
  co_inj ck ck' x : clerks cfg !! ck = Some x → clerks cfg !! ck' = Some x → ck = ck';
  co_enabled y : is_Some (enabled (cfg_net cfg) !! y) → is_Some (ends (cfg_net cfg) !! y);
  co_old ck : is_Some (clerks cfg !! ck) → (ck < length (clerk_objects cfg))%nat;
  co_server : server_at (cfg_net cfg) (server_name 0) = Some 0%nat ∧
    heap cfg = [AddService (MakeService svc_rcvr) MakeServer]
}.

Lemma makeClient_ok endname rnd cfg cfg' ck :
  clients_ok cfg → makeClient endname rnd cfg = Ok (cfg', ck) →
  clients_ok cfg' ∧ ck = length (clerk_objects cfg) ∧ clerks cfg' !! ck = Some endname.
Proof.
  intros Hok Hx. unfold makeClient, MakeEnd in Hx. destruct (ends (cfg_net cfg) !! inl endname) eqn:He; [done|].
  cbn in Hx. injection Hx as <- <-. set (ck := length (clerk_objects cfg)).
  assert (clerks cfg !! ck = None) as Hck.
  { apply eq_None_not_Some. intros Hs%(co_old _ Hok). subst ck. lia. }
  assert (∀ ck' x, clerks cfg !! ck' = Some x → x ≠ endname) as Hne.
  { intros ck' x Hs ->. destruct (co_end _ Hok _ _ Hs) as [[? ?] _]. congruence. }
  unfold ConnectClientUnlocked, endname_of. cbn. rewrite lookup_insert_eq. cbn. split; [|done].
  split; cbn.
  - intros ck' x [[<- <-]|[Hn Hs]]%lookup_insert_Some; [by rewrite !lookup_insert_eq|].
    pose proof (Hne _ _ Hs). rewrite !lookup_insert_ne by congruence. by apply (co_end _ Hok ck').
  - intros y Hy. destruct (decide (y = inl endname)) as [->|Hn]; [exists ck, endname; by rewrite lookup_insert_eq|].
    rewrite lookup_insert_ne in Hy by done. destruct (co_only _ Hok y Hy) as (ck' & x & Hs & ->). exists ck', x.
    rewrite lookup_insert_ne; [done|]. intros <-. congruence.
  - intros ck1 ck2 x [[<- <-]|[Hn1 Hs1]]%lookup_insert_Some [[<- ?]|[Hn2 Hs2]]%lookup_insert_Some; try done.
    + by apply Hne in Hs2.
    + subst. by apply Hne in Hs1.
    + by eapply (co_inj _ Hok).
  - intros y Hy. destruct (decide (y = inl endname)) as [->|Hn]; [by rewrite lookup_insert_eq|].
    rewrite !lookup_insert_ne in Hy by congruence. rewrite lookup_insert_ne by congruence. by apply (co_enabled _ Hok).
  - intros ck'. rewrite length_app. cbn. destruct (decide (ck' = ck)) as [->|Hn]; [subst ck; lia|].
    rewrite lookup_insert_ne by done. intros ?%(co_old _ Hok). lia.
  - exact (co_server _ Hok).
Qed.

Lemma deleteClient_ok ck x cfg :
  clients_ok cfg → clerks cfg !! ck = Some x →
  ∃ cfg', deleteClient ck cfg = Ok cfg' ∧ clients_ok cfg' ∧ enabled (cfg_net cfg') !! inl x = None.
Proof.
  intros Hok Hs. destruct (co_end _ Hok _ _ Hs) as ([e He] & _ & _).
  unfold deleteClient, endname_of, DeleteEnd. rewrite Hs. cbn. rewrite He. cbn. eexists. split; [reflexivity|].
  assert (∀ ck' y, ck' ≠ ck → clerks cfg !! ck' = Some y → y ≠ x) as Hne.
  { intros ck' y Hn Hy ->. by destruct Hn; eapply (co_inj _ Hok). }
  split; [|apply lookup_delete_eq]. split; cbn.
  - intros ck' y [Hn Hy]%lookup_delete_Some. pose proof (Hne ck' y ltac:(done) Hy).
    rewrite !lookup_delete_ne by congruence. by apply (co_end _ Hok ck').
  - intros y [? [Hn Hy]%lookup_delete_Some]. destruct (co_only _ Hok y ltac:(by eexists)) as (ck' & z & Hz & ->).
    exists ck', z. split; [|done]. apply lookup_delete_Some. split; [|done]. intros <-. congruence.
  - intros ck1 ck2 y [_ H1']%lookup_delete_Some [_ H2']%lookup_delete_Some. by eapply (co_inj _ Hok).
  - intros y [? [Hn Hy]%lookup_delete_Some]. rewrite lookup_delete_ne by done. by apply (co_enabled _ Hok).
  - intros ck' [? [_ Hy]%lookup_delete_Some]. by apply (co_old _ Hok).
  - exact (co_server _ Hok).
Qed.

Lemma client_reach_ok cfg : client_reach cfg → clients_ok cfg.
Proof.
  induction 1 as [unreliable now|cfg o cfg' _ IH Ho Hx].
  - split; cbn; try (intros *; rewrite ?lookup_empty; by intros []).
    + by intros ck x ?.
    + intros ck ck' x ?. done.
    + done.
  - destruct o as [endname rnd|ck|s]; cbn in Hx.
    + apply bind_Ok in Hx as ([cfg1 ck] & Hm & [= <-]). by apply makeClient_ok in Hm as [? _].
    + destruct (Ho ck eq_refl) as [x Hs]. destruct (deleteClient_ok ck x cfg IH Hs) as (cfg1 & Hd & ? & _).
      rewrite Hd in Hx. by injection Hx as <-.
    + injection Hx as <-. by destruct IH; split.
Qed.

(** A clerk reaches the server until it is deleted; then no name leads there any
    more, and deleting it did not end the test. *)
Lemma clerk_served cfg ck x :
  client_reach cfg → clerks cfg !! ck = Some x →
  readEndnameInfo (inl x) (cfg_net cfg) =
    {| i_enabled := true; i_servername := Some (server_name 0); i_server := Some 0%nat;
       i_reliable := reliable (cfg_net cfg); i_longreordering := longReordering (cfg_net cfg) |} ∧
  ∃ cfg', deleteClient ck cfg = Ok cfg' ∧ client_reach cfg' ∧
    i_enabled (readEndnameInfo (inl x) (cfg_net cfg')) = false.
Proof.
  intros Hr Hs. pose proof (client_reach_ok _ Hr) as Hok. destruct (co_end _ Hok _ _ Hs) as (_ & He & Hc).
  destruct (co_server _ Hok) as [Hsv _]. split.
  - unfold readEndnameInfo. rewrite He, Hc. cbn. by rewrite Hsv.
  - destruct (deleteClient_ok ck x cfg Hok Hs) as (cfg' & Hd & Hok' & Hn). exists cfg'. split; [done|]. split.
    + eapply (client_do cfg (DeleteClient ck)); [done| |exact Hd]. intros ck' [= <-]. by eexists.
    + unfold readEndnameInfo. cbn. by rewrite Hn.
Qed.

(** Deleting a clerk that is not there ends the test. *)
Lemma deleteClient_unknown cfg ck :
  clients_ok cfg → clerks cfg !! ck = None → (∀ ck' x, clerks cfg !! ck' = Some x → x ≠ "") →
  deleteClient ck cfg = Fatal "MakeEnd: doesn't exists".
Proof.
  intros Hok Hs Hne. unfold deleteClient, endname_of, DeleteEnd. rewrite Hs. cbn.
  destruct (ends (cfg_net cfg) !! inl "") eqn:He; [|done].
  destruct (co_only _ Hok (inl "") ltac:(by eexists)) as (ck' & x & Hx & [= <-]). by apply Hne in Hx.
Qed.
End KvSrvHarness.
