(* ===== verification/KvRaft.v ===== *)
(** * KvRaft: the replicated key/value server of [src/src/kvraft]

    [KVServer] on top of the [Raft] of its peer: the handlers, the loop
    [update] that applies what raft delivers, snapshots, and the [Clerk].  A
    handler has two locked parts around its [select]: what it does until it
    waits on the notify channel, and what it makes of the operation it receives
    or of the timeout.  Channels are a store of one-slot buffers, because a
    handler keeps its channel after [update] removed it from [notify].  [None]
    is a panic. *)
From S2P Require Import Prelude Labgob RaftTypes Raft Dedup.
From stdpp Require Import base list gmap strings option.
From Stdlib Require Import ZArith Lia.
#[local] Open Scope Z_scope.
#[local] Open Scope string_scope.
#[local] Open Scope list_scope.

(** ** Messages *)
Definition Err := string.
Definition OK : Err := "OK".
Definition ErrNoKey : Err := "ErrNoKey".
Definition ErrWrongLeader : Err := "ErrWrongLeader".

Inductive OpType := PutOp | AppendOp | GetOp.

Record Op := mkOp {
  op_OpType : OpType;
  op_Key : string;
  op_Value : string;
  op_Seq : Z;
  op_ClientId : Z
}.

#[export] Instance OpType_eq_dec : EqDecision OpType.
Proof. solve_decision. Defined.
#[export] Instance Op_eq_dec : EqDecision Op.
Proof. solve_decision. Defined.

#[export] Instance Upd_op_Value : Upd op_Value := λ v o,
  mkOp (op_OpType o) (op_Key o) v (op_Seq o) (op_ClientId o).

Record PutAppendArgs := mkPutAppendArgs {
  pa_Key : string;
  pa_Value : string;
  pa_Seq : Z;
  pa_ClientId : Z
}.
#[export] Instance PutAppendArgs_eq_dec : EqDecision PutAppendArgs.
Proof. solve_decision. Defined.
Record PutAppendReply := mkPutAppendReply { par_Err : Err }.
#[export] Instance PutAppendReply_eq_dec : EqDecision PutAppendReply.
Proof. solve_decision. Defined.

Record GetArgs := mkGetArgs { ga_Key : string; ga_Seq : Z; ga_ClientId : Z }.
#[export] Instance GetArgs_eq_dec : EqDecision GetArgs.
Proof. solve_decision. Defined.
Record GetReply := mkGetReply { gr_Err : Err; gr_Value : string }.

(** What a snapshot holds: [kv], [requestCache] and [lastApplied]. *)
Abbreviation SnapshotState := (gmap string string * gmap Z Z * Z)%type.

(** ** The server *)
#[projections(primitive)]
Record KVServer := mkKVServer {
  kv_me : nat;
  kv_rf : RaftTypes.Raft Op;
  kv_dead : bool;
  maxraftstate : Z;
  kv : gmap string string;
  notify : gmap Z nat;
  chans : list (option Op);
  requestCache : gmap Z Z;
  kv_lastApplied : Z
}.

#[export] Instance Upd_kv_rf : Upd kv_rf := λ v s,
  mkKVServer (kv_me s) v (kv_dead s) (maxraftstate s) (kv s) (notify s) (chans s)
    (requestCache s) (kv_lastApplied s).
#[export] Instance Upd_kv_dead : Upd kv_dead := λ v s,
  mkKVServer (kv_me s) (kv_rf s) v (maxraftstate s) (kv s) (notify s) (chans s)
    (requestCache s) (kv_lastApplied s).
#[export] Instance Upd_kv : Upd kv := λ v s,
  mkKVServer (kv_me s) (kv_rf s) (kv_dead s) (maxraftstate s) v (notify s) (chans s)
    (requestCache s) (kv_lastApplied s).
#[export] Instance Upd_notify : Upd notify := λ v s,
  mkKVServer (kv_me s) (kv_rf s) (kv_dead s) (maxraftstate s) (kv s) v (chans s)
    (requestCache s) (kv_lastApplied s).
#[export] Instance Upd_chans : Upd chans := λ v s,
  mkKVServer (kv_me s) (kv_rf s) (kv_dead s) (maxraftstate s) (kv s) (notify s) v
    (requestCache s) (kv_lastApplied s).
#[export] Instance Upd_requestCache : Upd requestCache := λ v s,
  mkKVServer (kv_me s) (kv_rf s) (kv_dead s) (maxraftstate s) (kv s) (notify s) (chans s)
    v (kv_lastApplied s).
#[export] Instance Upd_kv_lastApplied : Upd kv_lastApplied := λ v s,
  mkKVServer (kv_me s) (kv_rf s) (kv_dead s) (maxraftstate s) (kv s) (notify s) (chans s)
    (requestCache s) v.

Section KvRaft.
Context `{GobStream (PersistentState Op)} `{GobStream SnapshotState}.
Implicit Types (s : KVServer) (op : Op).

Definition get (key : string) s : string :=
  match kv s !! key with Some val => val | None => ErrNoKey end.

(** [apply] writes the value read into the operation it was given. *)
Definition apply op s : Op * KVServer :=
  let '(op, s) := match op_OpType op with
    | PutOp => (op, s <| kv := <[op_Key op := op_Value op]> (kv s) |>)
    | AppendOp => (op, s <| kv := <[op_Key op :=
                              default "" (kv s !! op_Key op) +:+ op_Value op]> (kv s) |>)
    | GetOp => (op <| op_Value := get (op_Key op) s |>, s)
    end in
  (op, s <| requestCache := <[op_ClientId op := op_Seq op]> (requestCache s) |>).

Definition shouldSnapshot s : bool :=
  if decide (maxraftstate s = -1) then false
  else bool_decide (RaftStateSize (persister (kv_rf s)) >= maxraftstate s).

Definition snapshot s : KVServer :=
  let w := Encode (kv s, requestCache s, kv_lastApplied s) in
  s <| kv_rf := Raft.Snapshot (kv_lastApplied s) w (kv_rf s) |>.

Definition readSnapshot (snapshot : bytes) s : KVServer :=
  if decide (len snapshot = 0) then s
  else match Decode snapshot with
    | None => s
    | Some (kvMap, cache, last) =>
        s <| kv := kvMap |> <| requestCache := cache |> <| kv_lastApplied := last |>
    end.

(** [make(chan Op, 1)] *)
Definition getNotifyCh (index : Z) s : KVServer * nat :=
  match notify s !! index with
  | Some ch => (s, ch)
  | None =>
      let ch := length (chans s) in
      let s := s <| chans := chans s ++ [None] |> in
      (s <| notify := <[index := ch]> (notify s) |>, ch)
  end.

(** [select { case ch <- op: default: }] *)
Definition try_send (ch : nat) op s : KVServer :=
  match chans s !! ch with
  | Some None => s <| chans := <[ch := Some op]> (chans s) |>
  | _ => s
  end.

(** [applied := <-ch], when the buffer is full. *)
Definition receive (ch : nat) s : option (Op * KVServer) :=
  match chans s !! ch with
  | Some (Some op) => Some (op, s <| chans := <[ch := None]> (chans s) |>)
  | _ => None
  end.

(** One turn of the loop of [update] with the message [msg]. *)
Definition update (msg : ApplyMsg Op) s : option KVServer :=
  if kv_dead s then Some s
  else if SnapshotValid msg && bool_decide (SnapshotIndex msg > kv_lastApplied s) then
    let s := readSnapshot (msg_Snapshot msg) s in
    Some (s <| kv_lastApplied := SnapshotIndex msg |>)
  else if negb (CommandValid msg) then Some s
  else
    op ← msg_Command msg;
    let '(op, s) :=
      if negb (duplicate (requestCache s) (op_ClientId op) (op_Seq op)) then apply op s
      else match op_OpType op with
        | GetOp => (op <| op_Value := get (op_Key op) s |>, s)
        | _ => (op, s)
        end in
    let s := s <| kv_lastApplied := CommandIndex msg |> in
    let s := if shouldSnapshot s then snapshot s else s in
    let ch := notify s !! CommandIndex msg in
    let s := s <| notify := delete (CommandIndex msg) (notify s) |> in
    match ch with
    | Some ch => Some (try_send ch op s)
    | None => Some s
    end.

(** ** The handlers *)

(** Until the [select]: the reply, or the index and channel to wait on. *)
Definition propose (cmd : Op) s : KVServer * list Goroutine * option (Z * nat) :=
  let '(rf, (index, _, isLeader), gs) := Raft.Start cmd (kv_rf s) in
  let s := s <| kv_rf := rf |> in
  if negb isLeader then (s, gs, None)
  else
    let '(s, ch) := getNotifyCh index s in
    (s, gs, Some (index, ch)).

Definition Get (args : GetArgs) s : KVServer * list Goroutine * (GetReply + Z * nat) :=
  let '(s, gs, wait) := propose (mkOp GetOp (ga_Key args) "" (ga_Seq args) (ga_ClientId args)) s in
  match wait with
  | None => (s, gs, inl (mkGetReply ErrWrongLeader ""))
  | Some w => (s, gs, inr w)
  end.

Definition Get_applied (args : GetArgs) (applied : Op) : GetReply :=
  if decide (op_ClientId applied = ga_ClientId args ∧ op_Seq applied = ga_Seq args) then
    if decide (op_Value applied = ErrNoKey) then mkGetReply ErrNoKey ""
    else mkGetReply OK (op_Value applied)
  else mkGetReply ErrWrongLeader "".

Definition Get_timeout (index : Z) s : KVServer * GetReply :=
  (s <| notify := delete index (notify s) |>, mkGetReply ErrWrongLeader "").

Definition handlePutAppend (opType : OpType) (args : PutAppendArgs) s
  : KVServer * list Goroutine * (PutAppendReply + Z * nat) :=
  let '(s, gs, wait) :=
    propose (mkOp opType (pa_Key args) (pa_Value args) (pa_Seq args) (pa_ClientId args)) s in
  match wait with
  | None => (s, gs, inl (mkPutAppendReply ErrWrongLeader))
  | Some w => (s, gs, inr w)
  end.

Definition Put := handlePutAppend PutOp.
Definition Append := handlePutAppend AppendOp.

Definition PutAppend_applied (args : PutAppendArgs) (applied : Op) : PutAppendReply :=
  if decide (op_ClientId applied = pa_ClientId args ∧ op_Seq applied = pa_Seq args)
  then mkPutAppendReply OK else mkPutAppendReply ErrWrongLeader.

Definition PutAppend_timeout (index : Z) s : KVServer * PutAppendReply :=
  (s <| notify := delete index (notify s) |>, mkPutAppendReply ErrWrongLeader).

Definition Kill s : KVServer :=
  let s := s <| kv_dead := true |> in
  let s := s <| kv_rf := Raft.Kill (kv_rf s) |> in
  s <| notify := ∅ |>.

Definition StartKVServer (servers me : nat) (ps : Persister) (maxraftstate now : Z)
  : option (KVServer * list Goroutine) :=
  '(rf, gs) ← Raft.Make servers me ps now;
  let s := mkKVServer me rf false maxraftstate ∅ ∅ [] ∅ 0 in
  Some (readSnapshot (ReadSnapshot ps) s, gs).
End KvRaft.

(** ** The clerk *)
Record Clerk := mkClerk { servers : nat; ck_seq : Z; leader : nat; ck_id : Z }.

Definition MakeClerk (servers : nat) (rnd : Z) : Clerk :=
  mkClerk servers 0 0 (rnd mod 2 ^ 62).

(** [ck.leader = (ck.leader + 1) % len(ck.servers)] *)
Definition next_leader (ck : Clerk) : Clerk :=
  mkClerk (servers ck) (ck_seq ck) ((leader ck + 1) mod servers ck)%nat (ck_id ck).

(** The loop of a call: [call i server] is the outcome of attempt [i]; [None]
    is a [Call] that returned false. *)
Fixpoint Get_loop (fuel : nat) (call : nat → nat → option GetReply) (ck : Clerk)
  : option (Clerk * string) :=
  match fuel with
  | O => None
  | S fuel =>
      let retry := Get_loop fuel (λ i, call (S i)) (next_leader ck) in
      match call 0%nat (leader ck) with
      | Some reply =>
          if decide (gr_Err reply = OK) then Some (ck, gr_Value reply)
          else if decide (gr_Err reply = ErrNoKey) then Some (ck, "")
          else retry
      | None => retry
      end
  end.

Definition Clerk_Get (fuel : nat) (call : GetArgs → nat → nat → option GetReply)
    (key : string) (ck : Clerk) : option (Clerk * string) :=
  let args := mkGetArgs key (ck_seq ck) (ck_id ck) in
  let ck := mkClerk (servers ck) (ck_seq ck + 1) (leader ck) (ck_id ck) in
  Get_loop fuel (call args) ck.

Fixpoint PutAppend_loop (fuel : nat) (call : nat → nat → option PutAppendReply) (ck : Clerk)
  : option Clerk :=
  match fuel with
  | O => None
  | S fuel =>
      let retry := PutAppend_loop fuel (λ i, call (S i)) (next_leader ck) in
      match call 0%nat (leader ck) with
      | Some reply => if decide (par_Err reply = OK) then Some ck else retry
      | None => retry
      end
  end.

Definition PutAppend (fuel : nat) (call : PutAppendArgs → nat → nat → option PutAppendReply)
    (key value : string) (ck : Clerk) : option Clerk :=
  let args := mkPutAppendArgs key value (ck_seq ck) (ck_id ck) in
  let ck := mkClerk (servers ck) (ck_seq ck + 1) (leader ck) (ck_id ck) in
  PutAppend_loop fuel (call args) ck.
