(* ===== verification/KvReplica.v ===== *)
(** * KvReplica: what the replicated key/value servers promise

    The specification is a log of operations: [state_at] is the map and the
    request numbers after executing it.  A server that consumes what raft
    delivers for this log, commands and snapshots in whatever mixture, holds
    the specification's state; servers that reached the end of the log agree.
    Snapshots a server takes are again such deliveries.  The second half is
    about replies and the clerk. *)
From stdpp Require Import base list gmap strings option.
From Stdlib Require Import ZArith Lia.
From S2P Require Import Prelude Labgob RaftTypes Raft RaftNode RaftApply RaftDelivery Dedup KvRaft.
#[local] Open Scope Z_scope.
#[local] Open Scope string_scope.
#[local] Open Scope list_scope.

#[export] Instance Op_sequenced : Sequenced Op := λ op, Some (op_ClientId op, op_Seq op).

(** ** The specification *)

Definition spec_state : Type := gmap string string * gmap Z Z.

Definition op_effect (op : Op) (m : gmap string string) : gmap string string :=
  match op_OpType op with
  | PutOp => <[op_Key op := op_Value op]> m
  | AppendOp => <[op_Key op := default "" (m !! op_Key op) +:+ op_Value op]> m
  | GetOp => m
  end.

(** One operation of the log, executed unless it is a duplicate. *)
Definition step_op (st : spec_state) (op : Op) : spec_state :=
  if duplicate st.2 (op_ClientId op) (op_Seq op) then st
  else (op_effect op st.1, <[op_ClientId op := op_Seq op]> st.2).

Definition state_at (L : list Op) : spec_state := foldl step_op (∅, ∅) L.

(** By the history alone: every operation the first time it occurs. *)
Fixpoint first_occurrences (before L : list Op) (m : gmap string string) : gmap string string :=
  match L with
  | [] => m
  | op :: L =>
      first_occurrences (before ++ [op]) L
        (if fresh_for before (op_ClientId op) (op_Seq op) then op_effect op m else m)
  end.

Lemma state_at_snoc L op : state_at (L ++ [op]) = step_op (state_at L) op.
Proof. unfold state_at. by rewrite foldl_app. Qed.

Lemma state_at_cache L : cache_of L (state_at L).2.
Proof.
  induction L as [|op L IH] using rev_ind; [apply cache_of_nil|].
  rewrite state_at_snoc. unfold step_op. destruct (duplicate _ _ _) eqn:Hd.
  - by eapply cache_of_duplicate.
  - by apply cache_of_note.
Qed.

Lemma first_occurrences_app before L1 L2 m :
  first_occurrences before (L1 ++ L2) m
  = first_occurrences (before ++ L1) L2 (first_occurrences before L1 m).
Proof.
  revert before m. induction L1 as [|op L1 IH]; intros before m; cbn; [by rewrite app_nil_r|].
  by rewrite IH, <-app_assoc.
Qed.

(** The log executes each request once: with the effect of its first occurrence. *)
Theorem state_at_first_occurrences L : (state_at L).1 = first_occurrences [] L ∅.
Proof.
  induction L as [|op L IH] using rev_ind; [done|].
  rewrite state_at_snoc, first_occurrences_app, app_nil_l.
  cbn [first_occurrences]. rewrite <-IH.
  rewrite <-(negb_involutive (fresh_for _ _ _)), <-(state_at_cache L).
  unfold step_op. by destruct (duplicate _ _ _).
Qed.

(** What the log contains is a duplicate for what follows. *)
Lemma state_at_duplicate L op :
  op ∈ L → duplicate (state_at L).2 (op_ClientId op) (op_Seq op) = true.
Proof.
  intros Hin. rewrite (state_at_cache L). apply negb_true_iff.
  destruct (fresh_for L _ _) eqn:Hf; [|done]. rewrite fresh_for_spec in Hf.
  specialize (Hf op (op_Seq op) Hin eq_refl). lia.
Qed.

Section Replica.
Context `{GobLaws (PersistentState Op)} `{GobLaws SnapshotState}.
Implicit Types (s : KVServer) (op : Op) (L : list Op).

(** A message for the log [L].  A snapshot labelled [i] may contain more of the
    log than [i] operations: repeating them is harmless. *)
Definition carries L (msg : ApplyMsg Op) : Prop :=
  if SnapshotValid msg then
    CommandValid msg = false ∧
    ∃ h : nat, 0 <= SnapshotIndex msg <= Z.of_nat h ∧ (h <= length L)%nat
      ∧ msg_Snapshot msg = Encode (state_at (take h L), SnapshotIndex msg)
  else CommandValid msg = true → ∃ op, log_at L (CommandIndex msg) = Some op
         ∧ msg_Command msg = Some op.

(** The server has executed [h] operations and expects the one after [pos]. *)
Definition serving L (pos : Z) s : Prop :=
  ∃ h : nat, 0 <= pos <= kv_lastApplied s ∧ kv_lastApplied s <= Z.of_nat h
    ∧ (h <= length L)%nat ∧ (kv s, requestCache s) = state_at (take h L).

(** ** [update] *)

(** The parts of [update] around the state machine. *)
Lemma snapshot_frame s :
  kv (snapshot s) = kv s ∧ requestCache (snapshot s) = requestCache s
  ∧ kv_lastApplied (snapshot s) = kv_lastApplied s ∧ notify (snapshot s) = notify s
  ∧ chans (snapshot s) = chans s ∧ kv_dead (snapshot s) = kv_dead s.
Proof. done. Qed.

Lemma try_send_frame ch op s :
  kv (try_send ch op s) = kv s ∧ requestCache (try_send ch op s) = requestCache s
  ∧ kv_lastApplied (try_send ch op s) = kv_lastApplied s ∧ notify (try_send ch op s) = notify s
  ∧ kv_dead (try_send ch op s) = kv_dead s ∧ kv_rf (try_send ch op s) = kv_rf s.
Proof. unfold try_send. by destruct (chans s !! ch) as [[]|]. Qed.

(** The operation as the waiting handler receives it. *)
Definition answered op s : Op :=
  match op_OpType op with
  | GetOp => op <| op_Value := get (op_Key op) s |>
  | _ => op
  end.

Lemma execute_op op s :
  (if negb (duplicate (requestCache s) (op_ClientId op) (op_Seq op)) then apply op s
   else match op_OpType op with
     | GetOp => (op <| op_Value := get (op_Key op) s |>, s)
     | _ => (op, s)
     end)
  = (answered op s,
     s <| kv := (step_op (kv s, requestCache s) op).1 |>
       <| requestCache := (step_op (kv s, requestCache s) op).2 |>).
Proof.
  unfold step_op, answered, apply, op_effect. cbn [fst snd].
  destruct (duplicate _ _ _); cbn [negb]; destruct (op_OpType op); by destruct s.
Qed.

(** [update] on a command: the server steps, and the handler waiting at this
    index, if any, gets the answer. *)
Lemma update_command (msg : ApplyMsg Op) op s :
  kv_dead s = false → SnapshotValid msg = false → CommandValid msg = true →
  msg_Command msg = Some op →
  ∃ s', update msg s = Some s' ∧ (kv s', requestCache s') = step_op (kv s, requestCache s) op
    ∧ kv_lastApplied s' = CommandIndex msg ∧ kv_dead s' = false
    ∧ notify s' = delete (CommandIndex msg) (notify s)
    ∧ ∀ ch, notify s !! CommandIndex msg = Some ch → chans s !! ch = Some None →
        chans s' !! ch = Some (Some (answered op s)).
Proof.
  intros Hd Hsv Hcv Hop. unfold update. rewrite Hd, Hsv, Hcv, Hop. cbn [andb negb mbind option_bind].
  rewrite execute_op. cbv zeta.
  set (s1 := _ <| kv_lastApplied := CommandIndex msg |>).
  assert (∀ s2, (s2 = s1 ∨ s2 = snapshot s1) →
    kv s2 = kv s1 ∧ requestCache s2 = requestCache s1 ∧ kv_lastApplied s2 = CommandIndex msg
    ∧ kv_dead s2 = false ∧ notify s2 = notify s ∧ chans s2 = chans s) as Hs2
    by (intros s2 [->| ->]; by rewrite <-?Hd).
  destruct (Hs2 (if shouldSnapshot s1 then snapshot s1 else s1)) as (Hk & Hr & Hl & Hd2 & Hn & Hc).
  { destruct (shouldSnapshot s1); auto. }
  set (s2 := if shouldSnapshot s1 then snapshot s1 else s1) in *. clearbody s2.
  rewrite Hn. set (s3 := s2 <| notify := _ |>).
  assert (kv s3 = kv s1 ∧ requestCache s3 = requestCache s1) as [Hk3 Hr3] by done.
  destruct (notify s !! CommandIndex msg) as [ch|] eqn:Hch.
  - destruct (try_send_frame ch (answered op s) s3) as (Hk4 & Hr4 & Hl4 & Hn4 & Hd4 & _).
    eexists. split; [reflexivity|]. rewrite Hk4, Hr4, Hl4, Hn4, Hd4, Hk3, Hr3.
    split_and!; [by cbn; destruct (step_op _ op)|done|done|done|].
    intros ch' [= <-] Hemp. unfold try_send. change (chans s3) with (chans s2).
    rewrite Hc, Hemp. cbn. apply list_lookup_insert_eq. by eapply lookup_lt_Some.
  - exists s3. rewrite Hk3, Hr3. split_and!; [done|by cbn; destruct (step_op _ op)|done|done|done|done].
Qed.

(** [update] on a snapshot newer than what the server applied. *)
Lemma update_snapshot (msg : ApplyMsg Op) kvMap cache i s :
  kv_dead s = false → SnapshotValid msg = true → kv_lastApplied s < SnapshotIndex msg →
  msg_Snapshot msg = Encode (kvMap, cache, i) →
  update msg s = Some (s <| kv := kvMap |> <| requestCache := cache |>
                         <| kv_lastApplied := SnapshotIndex msg |>).
Proof.
  intros Hd Hsv Hi He. unfold update. rewrite Hd, Hsv, bool_decide_eq_true_2 by lia.
  cbn [andb]. cbv zeta. unfold readSnapshot. rewrite He, decide_False.
  - by rewrite Decode_Encode.
  - pose proof (Encode_nonempty (kvMap, cache, i)) as Hne.
    destruct (Encode (kvMap, cache, i)); [done|]. rewrite len_cons.
    pose proof (len_nonneg l). lia.
Qed.

(** ** Replication *)

Fixpoint run_update (msgs : list (ApplyMsg Op)) s : option KVServer :=
  match msgs with
  | [] => Some s
  | msg :: msgs => s' ← update msg s; run_update msgs s'
  end.

Lemma take_log_at L (h : nat) op :
  log_at L (Z.of_nat h + 1) = Some op → take (S h) L = take h L ++ [op] ∧ (S h <= length L)%nat.
Proof.
  unfold log_at. rewrite decide_True by lia. replace (Z.to_nat _) with h by lia.
  intros Hl. split; [by apply take_S_r|]. by apply lookup_lt_Some in Hl.
Qed.

Lemma log_at_duplicate L (h : nat) i op :
  log_at L i = Some op → i <= Z.of_nat h →
  step_op (state_at (take h L)) op = state_at (take h L).
Proof.
  unfold log_at, step_op. case_decide; [|done]. intros Hl Hi. rewrite state_at_duplicate; [done|].
  apply (list_elem_of_lookup_2 _ (Z.to_nat (i - 1))). by rewrite lookup_take_lt by lia.
Qed.

(** One delivery. *)
Lemma serving_step L pos pos' (msg : ApplyMsg Op) s :
  serving L pos s → kv_dead s = false → carries L msg → next_pos pos msg = Some pos' →
  ∃ s', update msg s = Some s' ∧ serving L pos' s' ∧ kv_dead s' = false.
Proof.
  intros (h & Hpos & Hla & Hh & Hst) Hd Hc Hn. unfold carries in Hc. unfold next_pos in Hn.
  destruct (SnapshotValid msg) eqn:Hsv.
  - injection Hn as <-. destruct Hc as (Hcv & h' & Hi & Hh' & Hsn).
    destruct (decide (kv_lastApplied s < SnapshotIndex msg)) as [Hlt|Hle].
    + destruct (state_at (take h' L)) as [kvMap cache] eqn:Hst'.
      rewrite (update_snapshot _ _ _ _ _ Hd Hsv Hlt Hsn). eexists. split; [reflexivity|].
      split; [|done]. exists h'. rewrite Hst'. cbn. split_and!; done || lia.
    + exists s. unfold update. rewrite Hd, Hsv, Hcv, bool_decide_eq_false_2 by lia.
      split; [done|]. split; [|done]. exists h. split_and!; done || lia.
  - case_decide as Hcmd; [|done]. injection Hn as <-. destruct Hcmd as [Hcv Hidx].
    destruct (Hc Hcv) as (op & Hop & Hcmd).
    destruct (update_command msg op s Hd Hsv Hcv Hcmd) as (s' & Hu & Hst' & Hl & Hd' & _).
    exists s'. split; [exact Hu|]. split; [|done]. rewrite Hst in Hst'. rewrite Hidx in Hop, Hl.
    destruct (decide (pos + 1 <= Z.of_nat h)) as [Hle|Hgt].
    + rewrite (log_at_duplicate _ _ _ _ Hop Hle) in Hst'. exists h. split_and!; done || lia.
    + assert (pos + 1 = Z.of_nat h + 1) as Heq by lia. rewrite Heq in Hop.
      apply take_log_at in Hop as [Ht Hlen]. exists (S h). rewrite Ht, state_at_snoc.
      split_and!; done || lia.
Qed.

Lemma serving_run L pos pos' msgs s :
  serving L pos s → kv_dead s = false → Forall (carries L) msgs →
  follow pos msgs = Some pos' →
  ∃ s', run_update msgs s = Some s' ∧ serving L pos' s' ∧ kv_dead s' = false.
Proof.
  revert pos s. induction msgs as [|msg msgs IH]; intros pos s Hs Hd Hc Hf.
  - injection Hf as <-. by exists s.
  - apply Forall_cons_1 in Hc as [Hc Hcs]. cbn in Hf.
    apply bind_Some in Hf as (p & Hn & Hf).
    destruct (serving_step _ _ _ _ _ Hs Hd Hc Hn) as (s1 & Hu & Hs1 & Hd1).
    cbn. rewrite Hu. cbn. eauto.
Qed.

Lemma serving_end L s :
  serving L (Z.of_nat (length L)) s → (kv s, requestCache s) = state_at L.
Proof.
  intros (h & Hpos & Hla & Hh & Hst). assert (h = length L) as -> by lia.
  by rewrite take_ge in Hst by lia.
Qed.

(** A server that starts empty. *)
Definition at_start s : Prop :=
  kv s = ∅ ∧ requestCache s = ∅ ∧ kv_lastApplied s = 0 ∧ kv_dead s = false.

Lemma serving_start L s : at_start s → serving L 0 s.
Proof.
  intros (Hk & Hr & Hl & Hd). exists 0%nat. rewrite Hk, Hr. split_and!; done || lia.
Qed.

(** C10: A server never panics on the deliveries of a log, and at the end of the log
    it holds the specification's state, however commands and snapshots were
    mixed and repeated.  So any two such servers agree. *)
Theorem replicas_agree L msgs1 msgs2 s1 s2 :
  at_start s1 → at_start s2 →
  Forall (carries L) msgs1 → Forall (carries L) msgs2 →
  follow 0 msgs1 = Some (Z.of_nat (length L)) → follow 0 msgs2 = Some (Z.of_nat (length L)) →
  ∃ s1' s2', run_update msgs1 s1 = Some s1' ∧ run_update msgs2 s2 = Some s2'
    ∧ kv s1' = kv s2' ∧ requestCache s1' = requestCache s2' ∧ kv s1' = (state_at L).1.
Proof.
  intros Hs1 Hs2 Hc1 Hc2 Hf1 Hf2.
  destruct (serving_run _ _ _ _ _ (serving_start L _ Hs1) (proj2 (proj2 (proj2 Hs1))) Hc1 Hf1)
    as (s1' & Hr1 & Hv1%serving_end & _).
  destruct (serving_run _ _ _ _ _ (serving_start L _ Hs2) (proj2 (proj2 (proj2 Hs2))) Hc2 Hf2)
    as (s2' & Hr2 & Hv2%serving_end & _).
  exists s1', s2'. rewrite <-Hv2 in Hv1. injection Hv1 as Hk Hr.
  split_and!; try done. rewrite Hk. by rewrite <-Hv2.
Qed.

(** The snapshot a server hands to raft is one it, or another replica, may be
    given back: raft stores it under [lastApplied], and a message that carries
    it is a delivery of the same log. *)
Theorem snapshot_carries L pos s :
  serving L pos s → lastIncludedIndex (kv_rf s) < kv_lastApplied s →
  let rf := kv_rf (snapshot s) in
  lastIncludedIndex rf = kv_lastApplied s ∧
  carries L (mkApplyMsg false None 0 true (RaftTypes.snapshot rf) (lastIncludedTerm rf)
               (lastIncludedIndex rf)).
Proof.
  intros (h & Hpos & Hla & Hh & Hst) Hlt rf.
  assert (lastIncludedIndex rf = kv_lastApplied s
    ∧ RaftTypes.snapshot rf = Encode (kv s, requestCache s, kv_lastApplied s)) as [Hi Hs].
  { subst rf. cbn [snapshot kv_rf upd Upd_kv_rf]. unfold Raft.Snapshot.
    rewrite decide_False by lia. by repeat case_decide. }
  clearbody rf. split; [done|]. split; [done|]. exists h. cbn. rewrite Hi, Hs, <-Hst. split_and!; done || lia.
Qed.

(** C26: A server that crashes after a snapshot starts again from it: the same map,
    the same request numbers, and the same place in the log. *)
Theorem snapshot_restart n me m now s :
  durable (kv_rf s) → lastIncludedIndex (kv_rf s) < kv_lastApplied s →
  let rf := kv_rf (snapshot s) in
  ∃ s' gs, StartKVServer n me (persister rf) m now = Some (s', gs)
    ∧ kv s' = kv s ∧ requestCache s' = requestCache s ∧ kv_lastApplied s' = kv_lastApplied s
    ∧ lastIncludedIndex (kv_rf s') = kv_lastApplied s.
Proof.
  intros Hd Hlt rf.
  set (w := Encode (kv s, requestCache s, kv_lastApplied s)).
  assert (durable rf) as Hdr by (by apply durable_Snapshot).
  assert (lastIncludedIndex rf = kv_lastApplied s ∧ RaftTypes.snapshot rf = w) as [Hi Hs].
  { subst rf. cbn [snapshot kv_rf upd Upd_kv_rf]. unfold Raft.Snapshot.
    rewrite decide_False by lia. by repeat case_decide. }
  clearbody rf. destruct Hdr as [Hst Hsn].
  destruct (Make_stored n me (persister rf) now _ Hst) as (r & Hm & Hp & Hrs & _).
  unfold StartKVServer. rewrite Hm. cbn [mbind option_bind].
  unfold ReadSnapshot. rewrite clone_id, Hsn, Hs. unfold readSnapshot.
  assert (w ≠ []) as Hne by apply Encode_nonempty.
  rewrite decide_False by (destruct w; [done|]; rewrite len_cons; pose proof (len_nonneg w); lia).
  subst w. rewrite Decode_Encode. eexists _, _. split; [reflexivity|]. cbn.
  split_and!; try done. unfold persistentState in Hp. injection Hp as _ _ _ Hli _. by rewrite Hli.
Qed.

(** ** Replies *)

(** The handler of a [Get] waiting at an index learns the value its key has
    when that entry is applied, and only if the entry is its own request. *)
Theorem Get_reply L pos (msg : ApplyMsg Op) (args : GetArgs) ch op s :
  serving L pos s → kv_dead s = false → carries L msg →
  SnapshotValid msg = false → CommandValid msg = true →
  log_at L (CommandIndex msg) = Some op →
  (op_ClientId op = ga_ClientId args → op_Seq op = ga_Seq args →
     op_OpType op = GetOp ∧ op_Key op = ga_Key args) →
  notify s !! CommandIndex msg = Some ch → chans s !! ch = Some None →
  ∃ s' s'' applied, update msg s = Some s' ∧ receive ch s' = Some (applied, s'')
    ∧ notify s' !! CommandIndex msg = None ∧
    Get_applied args applied =
      if decide (op_ClientId op = ga_ClientId args ∧ op_Seq op = ga_Seq args) then
        if decide (get (ga_Key args) s = ErrNoKey) then mkGetReply ErrNoKey ""
        else mkGetReply OK (get (ga_Key args) s)
      else mkGetReply ErrWrongLeader "".
Proof.
  intros Hs Hd Hc Hsv Hcv Hop Hown Hn Hch. unfold carries in Hc. rewrite Hsv in Hc.
  destruct (Hc Hcv) as (op' & Hop' & Hcmd). rewrite Hop in Hop'. injection Hop' as <-.
  destruct (update_command msg op s Hd Hsv Hcv Hcmd) as (s' & Hu & _ & _ & _ & Hn' & Ha).
  specialize (Ha ch Hn Hch). exists s'. eexists. exists (answered op s).
  split; [exact Hu|]. split; [unfold receive; rewrite Ha; reflexivity|].
  split; [rewrite Hn'; apply lookup_delete_eq|].
  unfold Get_applied, answered.
  assert (∀ o : Op, (o = op ∨ o = op <| op_Value := get (op_Key op) s |>) →
    op_ClientId o = op_ClientId op ∧ op_Seq o = op_Seq op) as Hid by (intros o [->| ->]; done).
  destruct (Hid (match op_OpType op with GetOp => op <| op_Value := get (op_Key op) s |>
                 | _ => op end)) as [-> ->]; [destruct (op_OpType op); auto|].
  destruct (decide (op_ClientId op = ga_ClientId args ∧ op_Seq op = ga_Seq args))
    as [[Hcl Hseq]|]; [|done].
  destruct (Hown Hcl Hseq) as [-> <-]. done.
Qed.
End Replica.

(** ** The clerk *)

Lemma mod_next (n l d t : nat) :
  (l < n)%nat → ((l + S d) mod n = t)%nat → (((l + 1) mod n + d) mod n = t)%nat.
Proof.
  intros Hl Ht. rewrite Nat.Div0.add_mod_idemp_l.
  by replace (l + 1 + d)%nat with (l + S d)%nat by lia.
Qed.

Lemma next_leader_ok ck :
  (leader ck < servers ck)%nat → (leader (next_leader ck) < servers (next_leader ck))%nat.
Proof. intros Hl. cbn. apply Nat.mod_upper_bound. lia. Qed.

Lemma PutAppend_loop_finds fuel d call (t : nat) ck :
  (d < fuel)%nat → (leader ck < servers ck)%nat → ((leader ck + d) mod servers ck = t)%nat →
  (∀ i, call i t = Some (KvRaft.mkPutAppendReply OK)) →
  ∃ ck' i, PutAppend_loop fuel call ck = Some ck' ∧ ck_seq ck' = ck_seq ck
    ∧ servers ck' = servers ck ∧ (leader ck' < servers ck')%nat
    ∧ call i (leader ck') = Some (KvRaft.mkPutAppendReply OK).
Proof.
  revert d call ck. induction fuel as [|fuel IH]; intros d call ck Hd Hl Ht Hc; [lia|].
  cbn [PutAppend_loop].
  destruct (decide (call 0%nat (leader ck) = Some (KvRaft.mkPutAppendReply OK))) as [Hok|Hno].
  { rewrite Hok. cbn. by exists ck, 0%nat. }
  destruct d as [|d].
  { rewrite Nat.add_0_r, Nat.mod_small in Ht by done. subst t. by rewrite Hc in Hno. }
  destruct (IH d (λ i, call (S i)) (next_leader ck)) as (ck' & i & Hr & H1 & H2 & H3 & H4);
    [lia|by apply next_leader_ok|by apply mod_next|done|].
  exists ck', (S i). split; [|done].
  destruct (call 0%nat (leader ck)) as [[e]|]; [|done]. cbn. by rewrite decide_False by congruence.
Qed.

(** C27: If one server answers [OK] whenever it is asked, a write of the clerk ends
    within one round over the servers; it ends at a server that said [OK], and
    the next request gets a new number. *)
Theorem clerk_finds_leader call key value ck (t : nat) :
  (leader ck < servers ck)%nat → (t < servers ck)%nat →
  let args := mkPutAppendArgs key value (ck_seq ck) (ck_id ck) in
  (∀ i, call args i t = Some (KvRaft.mkPutAppendReply OK)) →
  ∃ ck' i, PutAppend (servers ck) call key value ck = Some ck' ∧ ck_seq ck' = ck_seq ck + 1
    ∧ (leader ck' < servers ck')%nat
    ∧ call args i (leader ck') = Some (KvRaft.mkPutAppendReply OK).
Proof.
  intros Hl Ht args Hc.
  set (d := ((t + (servers ck - leader ck)) mod servers ck)%nat).
  destruct (PutAppend_loop_finds (servers ck) d (call args) t
    (mkClerk (servers ck) (ck_seq ck + 1) (leader ck) (ck_id ck)))
    as (ck' & i & Hr & Hseq & _ & Hl' & Hok); cbn [leader servers]; try done.
  - apply Nat.mod_upper_bound. lia.
  - subst d. rewrite Nat.Div0.add_mod_idemp_r.
    replace (leader ck + (t + (servers ck - leader ck)))%nat with (t + 1 * servers ck)%nat by lia.
    rewrite Nat.Div0.mod_add. by apply Nat.mod_small.
  - exists ck', i. done.
Qed.
