(* ===== verification/KvHistory.v ===== *)
(** * KvHistory: what the clerks of [src/src/kvraft] see, and a log that explains it

    A history lists when a clerk starts a request and when it returns from it.
    [may_invoke] is what [Clerk] does about its numbers: one request at a time,
    with a new number each.  A log of operations explains a history, [explained],
    when every request is in the log between its start and its return, and every
    [Get] returned what the log says at some moment in between.  The log of the
    cluster, which grows, does: the lemmas are about one more entry of the log or
    of the history. *)
From stdpp Require Import base gmap strings option list.
From Stdlib Require Import ZArith Lia.
From S2P Require Import Prelude RaftDelivery Dedup KvRaft KvReplica.
#[local] Open Scope Z_scope.

(** ** Requests *)
Inductive Request :=
  | RGet (args : GetArgs)
  | RPut (args : PutAppendArgs)
  | RAppend (args : PutAppendArgs).

Inductive Answer :=
  | AGet (reply : GetReply)
  | APutAppend (reply : PutAppendReply).

#[export] Instance Request_eq_dec : EqDecision Request.
Proof. solve_decision. Defined.

(** The operation the handlers propose. *)
Definition request_op (r : Request) : Op :=
  match r with
  | RGet args => mkOp GetOp (ga_Key args) "" (ga_Seq args) (ga_ClientId args)
  | RPut args => mkOp PutOp (pa_Key args) (pa_Value args) (pa_Seq args) (pa_ClientId args)
  | RAppend args => mkOp AppendOp (pa_Key args) (pa_Value args) (pa_Seq args) (pa_ClientId args)
  end.

Definition client_of (r : Request) : Z := op_ClientId (request_op r).
Definition seq_of (r : Request) : Z := op_Seq (request_op r).

(** What the clerk makes of a reply: it returns a value, or asks another server. *)
Definition accepted (a : Answer) : option string :=
  match a with
  | AGet reply =>
      if decide (gr_Err reply = OK) then Some (gr_Value reply)
      else if decide (gr_Err reply = ErrNoKey) then Some ""%string else None
  | APutAppend reply => if decide (par_Err reply = OK) then Some ""%string else None
  end.

Lemma accepted_Get reply ck :
  Get_loop 1 (λ _ _, Some reply) ck = (ck,.) <$> accepted (AGet reply).
Proof. cbn. by repeat case_decide. Qed.

Lemma accepted_PutAppend reply ck :
  PutAppend_loop 1 (λ _ _, Some reply) ck = (λ _, ck) <$> accepted (APutAppend reply).
Proof. cbn. by case_decide. Qed.

(** ** Histories *)
Inductive Obs :=
  | Invoke (r : Request)
  | Done (r : Request) (value : string).

#[export] Instance Obs_eq_dec : EqDecision Obs.
Proof. solve_decision. Defined.

Implicit Types (r : Request) (hist : list Obs) (L : list Op) (op : Op) (marks : list nat) (t m h k : nat) (v : string).

Definition is_done r hist : bool :=
  existsb (λ o, match o with Done r' _ => bool_decide (r' = r) | _ => false end) hist.

(** The clerk of the request has returned from all earlier ones, and the number is new. *)
Definition may_invoke hist r : bool :=
  forallb (λ o, match o with
    | Invoke r' => bool_decide (client_of r' = client_of r → seq_of r' < seq_of r) &&
                   (bool_decide (client_of r' ≠ client_of r) || is_done r' hist)
    | Done _ _ => true
    end) hist.

Lemma is_done_spec r hist : is_done r hist = true ↔ ∃ v, Done r v ∈ hist.
Proof.
  unfold is_done. rewrite List.existsb_exists. split.
  - intros ([r'|r' v] & Hin & Hr); [done|]. apply bool_decide_eq_true in Hr as ->. exists v. by apply list_elem_of_In.
  - intros [v Hin]. exists (Done r v). split; [by apply list_elem_of_In|]. by apply bool_decide_eq_true.
Qed.

Lemma may_invoke_spec hist r :
  may_invoke hist r = true ↔
  ∀ r', Invoke r' ∈ hist → client_of r' = client_of r → seq_of r' < seq_of r ∧ ∃ v, Done r' v ∈ hist.
Proof.
  unfold may_invoke. rewrite List.forallb_forall. split.
  - intros Hall r' Hin Hc. specialize (Hall _ (proj1 (list_elem_of_In _ _) Hin)). cbn in Hall.
    apply andb_true_iff in Hall as [Hs Hd]. apply bool_decide_eq_true in Hs. split; [auto|].
    apply orb_true_iff in Hd as [Hd%bool_decide_eq_true|Hd]; [done|]. by apply is_done_spec.
  - intros Hall [r'|] Hin%list_elem_of_In; [|done]. apply andb_true_iff.
    rewrite bool_decide_eq_true, orb_true_iff, bool_decide_eq_true, is_done_spec.
    specialize (Hall _ Hin). destruct (decide (client_of r' = client_of r)); tauto.
Qed.

(** The clerks started these requests in turn, and returned once from each. *)
Record well_formed hist : Prop := {
  wf_invoke t r : hist !! t = Some (Invoke r) → may_invoke (take t hist) r = true;
  wf_done t r v : hist !! t = Some (Done r v) → Invoke r ∈ take t hist ∧ is_done r (take t hist) = false
}.

Lemma request_op_inj r r' : request_op r = request_op r' → r = r'.
Proof. destruct r as [[]|[]|[]], r' as [[]|[]|[]]; cbn; intros ?; by simplify_eq. Qed.

Lemma elem_take {A} (l : list A) t t' x : l !! t = Some x → (t < t')%nat → x ∈ take t' l.
Proof. intros Hl Ht. apply (list_elem_of_lookup_2 _ t). by rewrite lookup_take_lt by done. Qed.

(** A client and a number tell the request. *)
Lemma invoked_once hist r r' t t' :
  well_formed hist → hist !! t = Some (Invoke r) → hist !! t' = Some (Invoke r') →
  client_of r = client_of r' → seq_of r = seq_of r' → t = t' ∧ r = r'.
Proof.
  intros Hwf Ht Ht' Hc Hs.
  assert (∀ r1 r2 t1 t2, hist !! t1 = Some (Invoke r1) → hist !! t2 = Some (Invoke r2) →
    client_of r1 = client_of r2 → seq_of r1 = seq_of r2 → ¬ (t1 < t2)%nat) as Hno.
  { intros r1 r2 t1 t2 H1 H2 Hc' Hs' Hlt. pose proof (wf_invoke _ Hwf _ _ H2) as Hm.
    rewrite may_invoke_spec in Hm. destruct (Hm r1 (elem_take _ _ _ _ H1 Hlt) Hc'). lia. }
  assert (t = t') as <-; [|split; congruence].
  pose proof (Hno _ _ _ _ Ht Ht' Hc Hs). pose proof (Hno _ _ _ _ Ht' Ht (eq_sym Hc) (eq_sym Hs)). lia.
Qed.

Lemma invoked_same hist r r' :
  well_formed hist → Invoke r ∈ hist → Invoke r' ∈ hist → client_of r = client_of r' → seq_of r = seq_of r' → r = r'.
Proof. intros Hwf [t Ht]%list_elem_of_lookup [t' Ht']%list_elem_of_lookup Hc Hs. by eapply invoked_once. Qed.

(** ** A log that explains a history *)

(** The value a [Get] returns in a state of the map; a stored [ErrNoKey] is
    taken for a missing key. *)
Definition read (m : gmap string string) (key : string) : string :=
  let x := default ErrNoKey (m !! key) in
  if decide (x = ErrNoKey) then ""%string else x.

(** The request took effect, with this result, before the log had more than [m] entries. *)
Definition effective L m r v : Prop :=
  request_op r ∈ take m L ∧
  match r with
  | RGet args => ∃ k h, L !! k = Some (request_op r) ∧ (k <= h <= m)%nat ∧ v = read (state_at (take h L)).1 (ga_Key args)
  | _ => True
  end.

(** [marks] tells how long the log was at each moment of the history. *)
Record explained hist L marks : Prop := {
  ex_wf : well_formed hist;
  ex_len : length marks = length hist;
  ex_sorted t t' m m' : (t <= t')%nat → marks !! t = Some m → marks !! t' = Some m' → (m <= m')%nat;
  ex_bound t m : marks !! t = Some m → (m <= length L)%nat;
  ex_invoke t r m : hist !! t = Some (Invoke r) → marks !! t = Some m → request_op r ∉ take m L;
  ex_done t r v m : hist !! t = Some (Done r v) → marks !! t = Some m → effective L m r v;
  ex_ops op : op ∈ L → ∃ r, Invoke r ∈ hist ∧ op = request_op r
}.

Lemma take_prefix {A} (L L' : list A) m : L `prefix_of` L' → (m <= length L)%nat → take m L' = take m L.
Proof. intros [k ->] Hm. by rewrite take_app_le. Qed.

Lemma effective_prefix L L' m r v :
  L `prefix_of` L' → (m <= length L)%nat → effective L m r v → effective L' m r v.
Proof.
  intros Hp Hm [Hin Hr]. split; [by rewrite (take_prefix L L')|]. destruct r as [args| |]; [|done..].
  destruct Hr as (k & h & Hk & Hh & ->). exists k, h. split; [by eapply prefix_lookup_Some|]. split; [done|].
  by rewrite (take_prefix L L') by (done || lia).
Qed.

Lemma effective_later L m m' r v : (m <= m')%nat → effective L m r v → effective L m' r v.
Proof.
  intros Hm [Hin Hr]. split.
  - apply list_elem_of_lookup in Hin as [i Hi]. apply lookup_take_Some in Hi as [Hi Hlt]. eapply elem_take; [exact Hi|lia].
  - destruct r as [args| |]; [|done..]. destruct Hr as (k & h & Hk & Hh & ->). exists k, h. split_and!; [done|lia|lia|done].
Qed.

(** The log grows by requests. *)
Lemma explained_grow hist L L' marks :
  explained hist L marks → L `prefix_of` L' → (∀ op, op ∈ L' → ∃ r, Invoke r ∈ hist ∧ op = request_op r) →
  explained hist L' marks.
Proof.
  intros Hex Hp Hops. pose proof (prefix_length _ _ Hp) as Hlen. split; [apply Hex..| | | |done].
  - intros t m Hm. pose proof (ex_bound _ _ _ Hex _ _ Hm). lia.
  - intros t r m Ht Hm. rewrite (take_prefix L L') by (done || by eapply ex_bound). by eapply ex_invoke.
  - intros t r v m Ht Hm. eapply effective_prefix; [done|by eapply ex_bound|by eapply ex_done].
Qed.

Lemma well_formed_snoc hist o :
  well_formed hist →
  match o with
  | Invoke r => may_invoke hist r = true
  | Done r _ => Invoke r ∈ hist ∧ is_done r hist = false
  end → well_formed (hist ++ [o]).
Proof.
  intros [Hi Hd] Ho. split.
  - intros t r [Ht|[Hge Ht]]%lookup_app_Some.
    + rewrite take_app_le by (apply lookup_lt_Some in Ht; lia). auto.
    + apply list_lookup_singleton_Some in Ht as [Ht ->]. replace t with (length hist) by lia. by rewrite take_app_length.
  - intros t r v [Ht|[Hge Ht]]%lookup_app_Some.
    + rewrite take_app_le by (apply lookup_lt_Some in Ht; lia). eauto.
    + apply list_lookup_singleton_Some in Ht as [Ht ->]. replace t with (length hist) by lia. by rewrite take_app_length.
Qed.

(** The history goes on: a request starts, which is not in the log yet, or returns
    after it took effect. *)
Lemma explained_snoc hist L marks o :
  explained hist L marks →
  match o with
  | Invoke r => may_invoke hist r = true
  | Done r v => (Invoke r ∈ hist ∧ is_done r hist = false) ∧ effective L (length L) r v
  end → explained (hist ++ [o]) L (marks ++ [length L]).
Proof.
  intros Hex Ho. pose proof (ex_len _ _ _ Hex) as Hlen.
  assert (∀ t m o', (hist ++ [o]) !! t = Some o' → (marks ++ [length L]) !! t = Some m →
    hist !! t = Some o' ∧ marks !! t = Some m ∨ o' = o ∧ m = length L) as Hsnoc.
  { intros t m o' [Ht|[Hge Ht]]%lookup_app_Some Hm.
    - left. split; [done|]. by rewrite lookup_app_l in Hm by (rewrite Hlen; by eapply lookup_lt_Some).
    - right. rewrite lookup_app_r in Hm by lia.
      apply list_lookup_singleton_Some in Ht as [_ ->]. by apply list_lookup_singleton_Some in Hm as [_ ->]. }
  assert (∀ t m, (marks ++ [length L]) !! t = Some m → marks !! t = Some m ∨ (t = length marks ∧ m = length L)) as Hmarks.
  { intros t m [?|[Hge Hm]]%lookup_app_Some; [by left|]. apply list_lookup_singleton_Some in Hm as [? ->]. right. split; [lia|done]. }
  split.
  - apply well_formed_snoc; [apply Hex|]. by destruct o; [|destruct Ho].
  - rewrite !length_app. cbn. lia.
  - intros t t' m m' Hle [Hm|[-> ->]]%Hmarks [Hm'|[-> ->]]%Hmarks; [by eapply ex_sorted|by eapply ex_bound| |done].
    apply lookup_lt_Some in Hm'. lia.
  - intros t m [?|[_ ->]]%Hmarks; [by eapply ex_bound|done].
  - intros t r m Ht Hm. destruct (Hsnoc _ _ _ Ht Hm) as [[??]|[<- ->]]; [by eapply ex_invoke|].
    rewrite take_ge by done. intros Hin. destruct (ex_ops _ _ _ Hex _ Hin) as (r' & Hin' & <-%request_op_inj).
    rewrite may_invoke_spec in Ho. destruct (Ho _ Hin' eq_refl). lia.
  - intros t r v m Ht Hm. destruct (Hsnoc _ _ _ Ht Hm) as [[??]|[<- ->]]; [by eapply ex_done|]. by destruct Ho.
  - intros op Hin. destruct (ex_ops _ _ _ Hex _ Hin) as (r & ? & ->). exists r. split; [|done]. apply elem_of_app. by left.
Qed.

Lemma explained_nil : explained [] [] [].
Proof.
  split; try done. by intros op ?%not_elem_of_nil.
Qed.
