(* ===== verification/KvCluster.v ===== *)
(** * KvCluster: the servers of [src/src/kvraft] on the cluster of their peers

    [KvServer]s, each on its own [Raft] peer of one [World], with the channel
    [applyCh] between the two, the handlers that wait in their [select], the
    replies on their way to the clerks and the history the clerks see.
    [kv_exec] runs one event: a step of the rafts, one turn of [update], a
    handler up to its [select] or after it, a clerk that starts a request or
    returns from it, a crash, a restart.  A clerk may send its request to any
    server any number of times, and a reply may be read late or never.

    [kv_inv] ties it all to one log: the servers hold states of its prefixes,
    what is on the channels continues them, the replies are right, and the log
    explains the history. *)
From stdpp Require Import base gmap list_numbers strings option list.
From Stdlib Require Import ZArith Lia.
From S2P Require Import Prelude Labgob RaftTypes Raft RaftNode RaftCluster RaftElection RaftLog RaftApply RaftSnapshots RaftGhost RaftSafety RaftAgreement RaftIntegrity RaftDelivery Dedup KvRaft KvReplica KvHistory.
#[local] Open Scope Z_scope.

Section KvCluster.
Context `{GobLaws (PersistentState Op)} `{GobLaws SnapshotState}.
Notation Raft := (RaftTypes.Raft Op).
Notation World := (@World Op).
Notation Event := (@RaftCluster.Event Op).
Notation ApplyMsg := (ApplyMsg Op).
Implicit Types (s : KVServer) (rf : Raft) (w : World) (r : Request) (i k n : nat) (now size : Z) (L : list Op).

(** ** The cluster *)

(** A handler in its [select], at the server [wt_server]. *)
Record Waiting := mkWaiting { wt_server : nat; wt_request : Request; wt_index : Z; wt_chan : nat }.

(** A server with the messages its raft has sent on [applyCh].  The field [kv_rf]
    of the server is not used here: its peer is in the [World]. *)
Record Host := mkHost { host_kv : KVServer; applyCh : list ApplyMsg }.

Record KvWorld := mkKvWorld {
  rafts : World;
  hosts : list Host;
  waiting : list Waiting;
  answers : list (Request * Answer);
  history : list Obs
}.

Inductive KvEvent :=
  | KRaft (e : Event)
  | KUpdate i
  | KInvoke r
  | KRequest i r
  | KReceive k
  | KTimeout k
  | KReturn k
  | KKill i
  | KRestart i now.

Implicit Types (W : KvWorld) (h : Host) (e : KvEvent) (wt : Waiting).

(** The server [i] with its peer. *)
Definition server_of W i : option KVServer :=
  h ← hosts W !! i; rf ← nodes (rafts W) !! i; Some (host_kv h <| kv_rf := rf |>).

(** The server [i] and its peer after a step. *)
Definition put_rf i rf w : World := mkWorld (<[i := rf]> (nodes w)) (net w) (votes w).

Definition put_server i s (ch : list ApplyMsg) W : KvWorld :=
  mkKvWorld (put_rf i (kv_rf s) (rafts W)) (<[i := mkHost s ch]> (hosts W)) (waiting W) (answers W) (history W).

Definition set_server i s W : KvWorld := put_server i s (default [] (applyCh <$> hosts W !! i)) W.

Definition add_answer r a W : KvWorld :=
  mkKvWorld (rafts W) (hosts W) (waiting W) (answers W ++ [(r, a)]) (history W).
Definition set_waiting wts W : KvWorld := mkKvWorld (rafts W) (hosts W) wts (answers W) (history W).
Definition observe o W : KvWorld := mkKvWorld (rafts W) (hosts W) (waiting W) (answers W) (history W ++ [o]).

(** ** Steps *)

(** The events of a raft that its service has no part in. *)
Definition raft_alone (e : Event) : bool :=
  match e with
  | ETick _ _ _ _ | ETickExit _ | EApply _ | EWorker _ _ | EDeliver _ _ | EDrop _ => true
  | _ => false
  end.

Definition enqueue (msgs : list ApplyMsg) h : Host := mkHost (host_kv h) (applyCh h ++ msgs).

(** The handler of a request until its [select], and after it. *)
Definition handle r s : KVServer * list Goroutine * (Answer + Z * nat) :=
  match r with
  | RGet args =>
      let '(s, gs, out) := Get args s in
      (s, gs, match out with inl reply => inl (AGet reply) | inr wait => inr wait end)
  | RPut args =>
      let '(s, gs, out) := Put args s in
      (s, gs, match out with inl reply => inl (APutAppend reply) | inr wait => inr wait end)
  | RAppend args =>
      let '(s, gs, out) := Append args s in
      (s, gs, match out with inl reply => inl (APutAppend reply) | inr wait => inr wait end)
  end.

Definition handle_applied r (applied : Op) : Answer :=
  match r with
  | RGet args => AGet (Get_applied args applied)
  | RPut args | RAppend args => APutAppend (PutAppend_applied args applied)
  end.

Definition handle_timeout r (index : Z) s : KVServer * Answer :=
  match r with
  | RGet _ => let '(s, reply) := Get_timeout index s in (s, AGet reply)
  | RPut _ | RAppend _ => let '(s, reply) := PutAppend_timeout index s in (s, APutAppend reply)
  end.

Definition kv_exec W e : option KvWorld :=
  match e with
  | KRaft e =>
      if raft_alone e then
        w ← exec (rafts W) e;
        Some (mkKvWorld w (imap (λ i, enqueue (handed_to i (rafts W) e)) (hosts W)) (waiting W) (answers W) (history W))
      else None
  | KUpdate i =>
      h ← hosts W !! i;
      s ← server_of W i;
      match applyCh h with
      | msg :: msgs => s ← update msg s; Some (put_server i s msgs W)
      | [] => None
      end
  | KInvoke r => if may_invoke (history W) r then Some (observe (Invoke r) W) else None
  | KRequest i r =>
      if bool_decide (Invoke r ∈ history W) then
        s ← server_of W i;
        let '(s, _, out) := handle r s in
        let W := set_server i s W in
        Some match out with
             | inl a => add_answer r a W
             | inr (index, ch) => set_waiting (waiting W ++ [mkWaiting i r index ch]) W
             end
      else None
  | KReceive k =>
      wt ← waiting W !! k;
      s ← server_of W (wt_server wt);
      '(applied, s) ← receive (wt_chan wt) s;
      Some (add_answer (wt_request wt) (handle_applied (wt_request wt) applied)
             (set_waiting (delete k (waiting W)) (set_server (wt_server wt) s W)))
  | KTimeout k =>
      wt ← waiting W !! k;
      s ← server_of W (wt_server wt);
      let '(s, a) := handle_timeout (wt_request wt) (wt_index wt) s in
      Some (add_answer (wt_request wt) a (set_waiting (delete k (waiting W)) (set_server (wt_server wt) s W)))
  | KReturn k =>
      '(r, a) ← answers W !! k;
      if is_done r (history W) then None
      else v ← accepted a; Some (observe (Done r v) W)
  | KKill i => s ← server_of W i; Some (set_server i (KvRaft.Kill s) W)
  | KRestart i now =>
      s ← server_of W i;
      '(s', _) ← StartKVServer (peers (kv_rf s)) (me (kv_rf s)) (persister (kv_rf s)) (maxraftstate s) now;
      Some (set_waiting (filter (λ wt, wt_server wt ≠ i) (waiting W)) (put_server i s' [] W))
  end.

(** [n] servers on their first start. *)
Definition kv_boot n size : option KvWorld :=
  w ← boot n;
  ss ← mapM (λ i, fst <$> StartKVServer n i MakePersister size 0) (seq 0 n);
  Some (mkKvWorld w ((λ s, mkHost s []) <$> ss) [] [] []).

Definition kv_sends_dummy W e : Prop :=
  match e with KRaft e => sends_dummy (rafts W) e | _ => False end.

(** The runs, in which no peer votes twice and no leader sends its dummy entry. *)
Inductive kv_reach n size : @Ballots → KvWorld → Prop :=
  | kv_reach_boot W : kv_boot n size = Some W → kv_reach n size ∅ W
  | kv_reach_exec b W e W' :
      kv_reach n size b W → ¬ kv_sends_dummy W e → kv_exec W e = Some W' → ¬ revotes b (rafts W') →
      kv_reach n size (record_votes (rafts W') b) W'.

(** ** The invariant *)

(** A snapshot of a prefix of the log, under an index it covers. *)
Definition good_snapshot L (idx : Z) (data : bytes) : Prop :=
  ∃ j : nat, 0 <= idx <= Z.of_nat j ∧ (j <= length L)%nat ∧ data = Encode (state_at (take j L), idx).

#[export] Instance good_snapshots : GoodSnapshots good_snapshot.
Proof.
  split.
  - intros L L' idx data Hp (j & Hi & Hj & ->). pose proof (prefix_length _ _ Hp).
    exists j. rewrite (take_prefix L L') by (done || lia). split_and!; done || lia.
  - intros L idx data (j & Hi & Hj & _). unfold len. lia.
Qed.

(** The operation with the answer of a state of the map. *)
Definition answer_at (m : gmap string string) (op : Op) : Op :=
  match op_OpType op with
  | GetOp => op <| op_Value := default ErrNoKey (m !! op_Key op) |>
  | _ => op
  end.

(** An entry of the log, answered by the state after it was reached. *)
Definition answered_for L (applied : Op) : Prop :=
  ∃ (k j : nat) op, L !! k = Some op ∧ (k <= j <= length L)%nat ∧ applied = answer_at (state_at (take j L)).1 op.

(** What may wait on the channel: messages for the log, nothing beyond the commit index. *)
Definition deliverable L rf (msg : ApplyMsg) : Prop :=
  carries L msg ∧ (CommandValid msg = true → CommandIndex msg <= commitIndex rf).

(** A server that runs is at some place of the log, and the channel leads from there
    to where the raft is. *)
Definition in_step L rf h : Prop :=
  ∃ pos pos', serving L pos (host_kv h) ∧ follow pos (applyCh h) = Some pos' ∧ at_place pos' rf
    ∧ Forall (deliverable L rf) (applyCh h).

Record host_ok L rf h : Prop := {
  ho_chans ch applied : chans (host_kv h) !! ch = Some (Some applied) → answered_for L applied;
  ho_step : kv_dead (host_kv h) = false → in_step L rf h
}.

Definition asked W (op : Op) : Prop := ∃ r, Invoke r ∈ history W ∧ op = request_op r.

Record kv_inv n b (g : Ghost) L (marks : list nat) W : Prop := {
  ki_served : served good_snapshot (asked W) n b g L (rafts W);
  ki_explained : explained (history W) L marks;
  ki_host i h rf : hosts W !! i = Some h → nodes (rafts W) !! i = Some rf → host_ok L rf h;
  ki_waiting wt : wt ∈ waiting W → Invoke (wt_request wt) ∈ history W;
  ki_answers r a v : (r, a) ∈ answers W → accepted a = Some v →
    Invoke r ∈ history W ∧ effective L (length L) r v
}.

(** ** The log grows *)
Lemma carries_prefix L L' (msg : ApplyMsg) : L `prefix_of` L' → carries L msg → carries L' msg.
Proof.
  intros Hp. pose proof (prefix_length _ _ Hp). unfold carries. destruct (SnapshotValid msg).
  - intros (Hv & j & Hi & Hj & ->). split; [done|]. exists j.
    rewrite (take_prefix L L') by (done || lia). split_and!; done || lia.
  - intros Hc Hv. destruct (Hc Hv) as (op & Hop & ?). exists op. split; [by eapply log_at_prefix|done].
Qed.

Lemma serving_prefix L L' (pos : Z) s : L `prefix_of` L' → serving L pos s → serving L' pos s.
Proof.
  intros Hp (j & Hpos & Hla & Hj & Hst). pose proof (prefix_length _ _ Hp).
  exists j. rewrite (take_prefix L L') by (done || lia). split_and!; done || lia.
Qed.

Lemma answered_prefix L L' applied : L `prefix_of` L' → answered_for L applied → answered_for L' applied.
Proof.
  intros Hp (k & j & op & Hk & Hj & ->). pose proof (prefix_length _ _ Hp).
  exists k, j, op. rewrite (take_prefix L L') by (done || lia). split_and!; [by eapply prefix_lookup_Some|lia|lia|done].
Qed.

Lemma delivery_carries L (msg : ApplyMsg) : delivery good_snapshot L msg → carries L msg.
Proof.
  unfold delivery, carries. destruct (SnapshotValid msg).
  - intros (Hv & Hpos & (j & Hi & Hj & Hd)). split; [done|]. exists j. split_and!; done || lia.
  - by intros (_ & op & Hop & Hc) _; exists op.
Qed.

(** A server goes on with its raft. *)
Lemma in_step_goes L L' rf rf' h msgs :
  L `prefix_of` L' → commitIndex rf <= commitIndex rf' → Forall (deliverable L' rf') msgs →
  (∀ pos, at_place pos rf → ∃ pos', follow pos msgs = Some pos' ∧ at_place pos' rf') →
  in_step L rf h → in_step L' rf' (enqueue msgs h).
Proof.
  intros Hp Hc Hmsgs Hgo (pos & pos' & Hs & Hf & Hat & Hch). destruct (Hgo _ Hat) as (pos'' & Hf' & Hat').
  exists pos, pos''. split; [by eapply serving_prefix|]. cbn. rewrite follow_app, Hf. split; [done|]. split; [done|].
  apply Forall_app. split; [|done]. eapply Forall_impl; [exact Hch|]. intros m [Hm Hle]. split; [by eapply carries_prefix|].
  intros Hv. specialize (Hle Hv). lia.
Qed.

(** ** One event of a raft *)
Lemma rafts_step n b g L marks W (e : Event) w' :
  kv_inv n b g L marks W → exec (rafts W) e = Some w' → (∀ i c, e = EStart i c → asked W c) →
  (∀ i idx data, e = ESnapshot i idx data → good_snapshot L idx data) →
  ¬ snapshots_ahead (rafts W) e → ¬ sends_dummy (rafts W) e → ¬ revotes b w' →
  ∃ g' L', L `prefix_of` L' ∧ served good_snapshot (asked W) n (record_votes w' b) g' L' w' ∧
    explained (history W) L' marks ∧
    ∀ i h rf, hosts W !! i = Some h → nodes w' !! i = Some rf → (∀ now, e ≠ ERestart i now) →
      host_ok L' rf (enqueue (handed_to i (rafts W) e) h).
Proof.
  intros [Hsv Hex Hhost _ _] Hx Hst Hsn Hahead Hdummy Hone.
  destruct (raft_serves _ _ _ _ _ _ _ _ _ Hsv Hst Hsn Hahead Hdummy Hx Hone) as (g' & L' & Hp & Hsv' & Hmsgs).
  exists g', L'. split; [done|]. split; [done|]. split; [eapply explained_grow; [done..|apply Hsv']|].
  intros i h rf' Hi Hi' Hne. destruct (exec_nodes _ _ _ _ _ Hx Hi') as (rf & Hrf & _).
  destruct (Hhost _ _ _ Hi Hrf) as [Hch Hstep]. split.
  - intros ch applied Ha. eapply answered_prefix; [done|]. by eapply Hch.
  - intros Hd. assert (∀ pos, at_place pos rf → commitIndex rf <= commitIndex rf' ∧
      ∃ pos', follow pos (handed_to i (rafts W) e) = Some pos' ∧ at_place pos' rf') as Hplace
      by (intros pos Hat; by eapply (place_step good_snapshot)).
    destruct (Hstep Hd) as (pos & pos' & Hrest). pose proof (proj1 (Hplace _ (proj1 (proj2 (proj2 Hrest))))) as Hci.
    eapply (in_step_goes L L' rf); [done|done| |intros q Hq; by apply Hplace|by exists pos, pos'].
    apply Forall_forall. intros m Hm%handed_to_elem. destruct (Hmsgs _ _ _ Hm Hrf) as [Hdel Hle].
    split; [by apply delivery_carries|]. intros Hv. specialize (Hle Hv). lia.
Qed.

(** ** The parts of the world *)
Lemma put_rf_same w i rf : nodes w !! i = Some rf → put_rf i rf w = w.
Proof. intros Hi. destruct w as [ns pks vs]. unfold put_rf. cbn in *. by rewrite list_insert_id. Qed.

Lemma server_of_Some W i s :
  server_of W i = Some s → ∃ h rf, hosts W !! i = Some h ∧ nodes (rafts W) !! i = Some rf ∧ s = host_kv h <| kv_rf := rf |>.
Proof. intros (h & Hh & (rf & Hrf & [= <-])%bind_Some)%bind_Some. by exists h, rf. Qed.

Lemma inv_put_server n b b' g g' L L' marks W i h s' ch' :
  kv_inv n b g L marks W → L `prefix_of` L' → hosts W !! i = Some h →
  served good_snapshot (asked W) n b' g' L' (put_rf i (kv_rf s') (rafts W)) → explained (history W) L' marks →
  (∀ j h rf, j ≠ i → hosts W !! j = Some h → nodes (rafts W) !! j = Some rf → host_ok L' rf h) →
  host_ok L' (kv_rf s') (mkHost s' ch') →
  kv_inv n b' g' L' marks (put_server i s' ch' W).
Proof.
  intros [_ _ _ Hwt Hans] Hp Hi Hsv Hex Hother Hthis. split; [done|done| |done|].
  - intros j h' rf' Hj Hrf. cbn in Hj, Hrf.
    apply list_lookup_insert_Some in Hj as [(-> & <- & _)|[Hne Hj]].
    + by apply list_lookup_insert_Some in Hrf as [(_ & <- & _)|[? _]].
    + apply list_lookup_insert_Some in Hrf as [(-> & _)|[_ Hrf]]; [done|]. by eapply Hother.
  - intros r a v Hin Hv. destruct (Hans _ _ _ Hin Hv) as [? Heff]. split; [done|].
    eapply (effective_later _ (length L)); [by apply prefix_length|]. by eapply effective_prefix.
Qed.

(** A step of server [i] that is an event of its raft too. *)
Lemma server_event n b g L marks W i h rf s' ch' (e : Event) :
  kv_inv n b g L marks W → hosts W !! i = Some h → nodes (rafts W) !! i = Some rf →
  exec (rafts W) e = Some (put_rf i (kv_rf s') (rafts W)) → (∀ j, handed_to j (rafts W) e = []) →
  (∀ j now, j ≠ i → e ≠ ERestart j now) →
  (∀ i c, e = EStart i c → asked W c) →
  (∀ i idx data, e = ESnapshot i idx data → good_snapshot L idx data) →
  ¬ snapshots_ahead (rafts W) e → ¬ sends_dummy (rafts W) e → ¬ revotes b (put_rf i (kv_rf s') (rafts W)) →
  (∀ L', L `prefix_of` L' → ((∀ now, e ≠ ERestart i now) → host_ok L' (kv_rf s') h) → host_ok L' (kv_rf s') (mkHost s' ch')) →
  ∃ g' L', kv_inv n (record_votes (put_rf i (kv_rf s') (rafts W)) b) g' L' marks (put_server i s' ch' W).
Proof.
  intros Hinv Hi Hrf Hx Hno Hrs Hst Hsn Hahead Hdummy Hone Hok.
  destruct (rafts_step _ _ _ _ _ _ _ _ Hinv Hx Hst Hsn Hahead Hdummy Hone) as (g' & L' & Hp & Hsv & Hex & Hhost).
  assert (∀ h, enqueue [] h = h) as Hnil by (intros []; unfold enqueue; cbn; by rewrite app_nil_r).
  exists g', L'. eapply inv_put_server; [exact Hinv|done|exact Hi|done|done| |].
  - intros j h' rf' Hne Hj Hrf'. rewrite <- (Hnil h'), <- (Hno j). apply Hhost; [done| |intros; by apply Hrs].
    cbn. by rewrite list_lookup_insert_ne.
  - apply Hok; [done|]. intros Hnr. rewrite <- (Hnil h), <- (Hno i). apply Hhost; [done| |done].
    cbn. apply list_lookup_insert_eq. by eapply lookup_lt_Some.
Qed.

(** A step of server [i] that its raft has no part in. *)
Lemma server_alone n b g L marks W i h rf s' ch' :
  kv_inv n b g L marks W → hosts W !! i = Some h → nodes (rafts W) !! i = Some rf → kv_rf s' = rf →
  (host_ok L rf h → host_ok L rf (mkHost s' ch')) →
  kv_inv n (record_votes (put_rf i (kv_rf s') (rafts W)) b) g L marks (put_server i s' ch' W).
Proof.
  intros Hinv Hi Hrf E Hok. pose proof Hinv as [Hsv Hex Hhost _ _].
  eapply inv_put_server; [exact Hinv|done|exact Hi| |done|intros; by eapply Hhost|rewrite E; apply Hok; by eapply Hhost].
  rewrite E, put_rf_same by done. by rewrite (record_same n b (rafts W)) by first [done|apply (sv_si _ _ _ _ _ _ _ Hsv)].
Qed.

Lemma inv_add_answer n b g L marks W r a :
  kv_inv n b g L marks W → (∀ v, accepted a = Some v → Invoke r ∈ history W ∧ effective L (length L) r v) →
  kv_inv n b g L marks (add_answer r a W).
Proof.
  intros [? ? ? ? Hans] Ha. split; [done..|]. intros r' a' v [Hin|Hin%list_elem_of_singleton]%elem_of_app Hv; [by eapply Hans|].
  injection Hin as -> ->. by apply Ha.
Qed.

Lemma inv_set_waiting n b g L marks W wts :
  kv_inv n b g L marks W → (∀ wt, wt ∈ wts → Invoke (wt_request wt) ∈ history W) →
  kv_inv n b g L marks (set_waiting wts W).
Proof. by intros [] ?; split. Qed.
End KvCluster.
