(* ===== verification/KvClusterSteps.v ===== *)
(** * KvClusterSteps: every step of a key/value cluster keeps its invariant

    One lemma per event of [KvCluster.kv_exec], and the two theorems about the
    servers: they hold states of one log of requests, and never panic. *)
From stdpp Require Import base gmap list_numbers strings option list.
From Stdlib Require Import ZArith Lia.
From S2P Require Import Prelude Labgob RaftTypes Raft RaftNode RaftCluster RaftElection RaftLog RaftApply RaftSnapshots RaftGhost RaftSafety RaftAgreement RaftIntegrity RaftDelivery Dedup KvRaft KvReplica KvHistory KvCluster.
#[local] Open Scope Z_scope.

Section KvClusterSteps.
Context `{GobLaws (PersistentState Op)} `{GobLaws SnapshotState}.
Notation Raft := (RaftTypes.Raft Op).
Notation World := (@World Op).
Notation Event := (@RaftCluster.Event Op).
Notation ApplyMsg := (ApplyMsg Op).
Implicit Types (s : KVServer) (rf : Raft) (w : World) (r : Request) (i k n : nat) (now size : Z) (L : list Op).
Implicit Types (W : KvWorld) (h : Host) (e : KvEvent) (wt : Waiting) (g : @Ghost Op) (marks : list nat).

(** ** The handlers *)

(** What does not touch the state machine. *)
Definition same_machine s s' : Prop :=
  kv s' = kv s ∧ requestCache s' = requestCache s ∧ kv_lastApplied s' = kv_lastApplied s ∧ kv_dead s' = kv_dead s ∧
  ∀ ch applied, chans s' !! ch = Some (Some applied) → chans s !! ch = Some (Some applied).

Lemma host_same L rf h s' :
  same_machine (host_kv h) s' → host_ok L rf h → host_ok L rf (mkHost s' (applyCh h)).
Proof.
  intros (Ek & Er & El & Ed & Hch) [Hc Hs]. split; cbn.
  - intros ch applied Ha. by eapply Hc, Hch.
  - rewrite Ed. intros Hd. destruct (Hs Hd) as (pos & pos' & (j & Hpos & Hrest) & Hf).
    exists pos, pos'. split; [|done]. exists j. cbn. rewrite Ek, Er, El. auto.
Qed.

Lemma propose_frame (cmd : Op) s :
  let '(s', _, _) := propose cmd s in
  kv_rf s' = fst (fst (Start cmd (kv_rf s))) ∧ same_machine s s'.
Proof.
  unfold propose. destruct (Start cmd (kv_rf s)) as [[rf [[index t] isLeader]] gs]. destruct isLeader; [|done]. cbn [negb].
  unfold getNotifyCh. destruct (notify _ !! index) as [ch|]; [done|]. cbn. split; [done|]. split_and!; [done..|].
  intros ch applied [?|[_ Ha]]%lookup_app_Some; [done|]. by apply list_lookup_singleton_Some in Ha as [_ ?].
Qed.

Lemma handle_frame r s :
  let '(s', _, out) := handle r s in
  kv_rf s' = fst (fst (Start (request_op r) (kv_rf s))) ∧ same_machine s s' ∧
  ∀ a, out = inl a → accepted a = None.
Proof.
  destruct r as [args|args|args]; cbn [handle request_op]; unfold Get, Put, Append, handlePutAppend;
    match goal with |- context [propose ?cmd s] => pose proof (propose_frame cmd s) as Hp; destruct (propose cmd s) as [[s' gs] [[index ch]|]] end;
    destruct Hp; split_and!; try done; intros a [= <-]; done.
Qed.

Lemma receive_frame ch s applied s' :
  receive ch s = Some (applied, s') → chans s !! ch = Some (Some applied) ∧ kv_rf s' = kv_rf s ∧ same_machine s s'.
Proof.
  unfold receive. destruct (chans s !! ch) as [[op|]|] eqn:Hch; [|done..]. intros [= <- <-].
  split; [done|]. split; [done|]. split_and!; [done..|]. cbn. intros ch' a [(-> & Ha & _)|[_ ?]]%list_lookup_insert_Some; done.
Qed.

Lemma timeout_frame r (index : Z) s :
  let '(s', a) := handle_timeout r index s in kv_rf s' = kv_rf s ∧ same_machine s s' ∧ accepted a = None.
Proof. by destruct r. Qed.

Lemma answer_at_ids m (op : Op) :
  op_ClientId (answer_at m op) = op_ClientId op ∧ op_Seq (answer_at m op) = op_Seq op.
Proof. unfold answer_at. by destruct (op_OpType op). Qed.

(** A clerk takes the answer to its own request only. *)
Lemma accepted_applied r applied v :
  accepted (handle_applied r applied) = Some v →
  op_ClientId applied = client_of r ∧ op_Seq applied = seq_of r ∧
  match r with RGet _ => v = if decide (op_Value applied = ErrNoKey) then ""%string else op_Value applied | _ => True end.
Proof.
  destruct r as [args|args|args]; cbn [handle_applied]; unfold Get_applied, PutAppend_applied;
    (case_decide as Hids; [destruct Hids as [Hc Hs]|done]); intros Hv; (split; [exact Hc|]); (split; [exact Hs|]); try done.
  case_decide; by injection Hv as <-.
Qed.

(** So a reply that a clerk takes is right. *)
Lemma applied_effective hist L marks r applied v :
  explained hist L marks → Invoke r ∈ hist → answered_for L applied →
  accepted (handle_applied r applied) = Some v → effective L (length L) r v.
Proof.
  intros Hex Hr (k & j & op & Hk & Hj & ->) (Hc & Hs & Hv)%accepted_applied.
  destruct (ex_ops _ _ _ Hex op (list_elem_of_lookup_2 _ _ _ Hk)) as (r' & Hr' & ->).
  destruct (answer_at_ids (state_at (take j L)).1 (request_op r')) as [Ec Es]. rewrite Ec in Hc. rewrite Es in Hs.
  assert (r' = r) as -> by (eapply invoked_same; [apply Hex|done..]).
  split; [rewrite take_ge by done; by eapply list_elem_of_lookup_2|].
  destruct r as [args|args|args]; [|done..]. exists k, j. done.
Qed.

(** ** [update] *)

(** The snapshot [update] takes is of the state it has reached. *)
Lemma update_rf (msg : ApplyMsg) s s' :
  update msg s = Some s' →
  kv_rf s' = kv_rf s ∨
  CommandValid msg = true ∧ kv_lastApplied s' = CommandIndex msg ∧ kv_dead s = false ∧
    kv_rf s' = Raft.Snapshot (CommandIndex msg) (Encode (kv s', requestCache s', CommandIndex msg)) (kv_rf s).
Proof.
  unfold update. intros Hx. destruct (kv_dead s) eqn:Hd; [injection Hx as <-; by left|].
  destruct (SnapshotValid msg && _).
  { left. injection Hx as <-. cbn. unfold readSnapshot. case_decide; [done|]. by destruct (Decode _) as [[[]]|]. }
  destruct (CommandValid msg); [|injection Hx as <-; by left]. cbn [negb] in Hx.
  apply bind_Some in Hx as (op & _ & Hx). rewrite execute_op in Hx. cbv zeta in Hx.
  set (s1 := _ <| kv_lastApplied := CommandIndex msg |>) in Hx.
  assert (kv_rf s1 = kv_rf s) as E1 by done. assert (kv_lastApplied s1 = CommandIndex msg) as E2 by done.
  clearbody s1.
  assert (kv_rf s' = kv_rf (if shouldSnapshot s1 then snapshot s1 else s1) ∧ kv s' = kv s1 ∧
    requestCache s' = requestCache s1 ∧ kv_lastApplied s' = kv_lastApplied s1) as (Er & Ek & Ec & El).
  { destruct (notify _ !! CommandIndex msg) as [ch|]; injection Hx as <-.
    - destruct (try_send_frame ch (answered op s) ((if shouldSnapshot s1 then snapshot s1 else s1)
        <| notify := delete (CommandIndex msg) (notify (if shouldSnapshot s1 then snapshot s1 else s1)) |>)) as (-> & -> & -> & _ & _ & ->).
      by destruct (shouldSnapshot s1).
    - by destruct (shouldSnapshot s1). }
  rewrite Er, Ek, Ec, El, <- E1, E2. destruct (shouldSnapshot s1); [right|by left]. split_and!; try done.
  unfold snapshot. cbn. by rewrite E2.
Qed.

(** What appears on a channel is the answer to the operation just executed. *)
Lemma update_chans (msg : ApplyMsg) s s' ch applied :
  update msg s = Some s' → chans s' !! ch = Some (Some applied) →
  chans s !! ch = Some (Some applied) ∨
  ∃ op, SnapshotValid msg && bool_decide (SnapshotIndex msg > kv_lastApplied s) = false ∧ kv_dead s = false ∧
    CommandValid msg = true ∧ msg_Command msg = Some op ∧ applied = answered op s.
Proof.
  unfold update. intros Hx Ha. destruct (kv_dead s) eqn:Hd; [injection Hx as <-; by left|].
  destruct (SnapshotValid msg && _).
  { left. injection Hx as <-. cbn in Ha. unfold readSnapshot in Ha. case_decide; [done|]. by destruct (Decode _) as [[[]]|]. }
  destruct (CommandValid msg); [|injection Hx as <-; by left]. cbn [negb] in Hx.
  apply bind_Some in Hx as (op & Hop & Hx). rewrite execute_op in Hx. cbv zeta in Hx.
  set (s1 := _ <| kv_lastApplied := CommandIndex msg |>) in Hx.
  assert (chans (if shouldSnapshot s1 then snapshot s1 else s1) = chans s) as E by (by destruct (shouldSnapshot s1)).
  destruct (notify _ !! CommandIndex msg) as [ch'|]; injection Hx as <-.
  - unfold try_send in Ha. cbn [chans upd Upd_notify] in Ha. rewrite E in Ha.
    destruct (chans s !! ch') as [[?|]|]; cbn in Ha; rewrite ?E in Ha; try (by left).
    apply list_lookup_insert_Some in Ha as [(<- & [= <-] & _)|[_ ?]]; [right; by exists op|by left].
  - cbn in Ha. rewrite E in Ha. by left.
Qed.

Lemma serving_answer L (pos : Z) op s :
  serving L pos s → log_at L (pos + 1) = Some op → answered_for L (answered op s).
Proof.
  intros (j & Hpos & Hla & Hj & Hst) Hop. unfold log_at in Hop. rewrite decide_True in Hop by lia.
  replace (pos + 1 - 1) with pos in Hop by lia. exists (Z.to_nat pos), j, op. split; [done|]. split; [lia|].
  rewrite <- Hst. unfold answered, answer_at, get. cbn. destruct (op_OpType op); [done..|]. by destruct (kv s !! op_Key op).
Qed.

Lemma serving_rf L (pos : Z) rf s : serving L pos s → serving L pos (s <| kv_rf := rf |>).
Proof. intros (j & Hj). by exists j. Qed.

Lemma update_host L rf rf0 h (msg : ApplyMsg) msgs s' :
  applyCh h = msg :: msgs → host_ok L rf h → update msg (host_kv h <| kv_rf := rf0 |>) = Some s' →
  host_ok L rf (mkHost s' msgs).
Proof.
  intros Hch [Hc Hs] Hu. destruct (kv_dead (host_kv h)) eqn:Hd.
  { unfold update in Hu. cbn in Hu. rewrite Hd in Hu. injection Hu as <-. split; [exact Hc|]. cbn. congruence. }
  destruct (Hs eq_refl) as (pos & pos' & Hsv & Hf & Hat & Hall). rewrite Hch in Hf, Hall.
  apply Forall_cons_1 in Hall as [[Hcar _] Hall]. cbn in Hf. apply bind_Some in Hf as (p1 & Hn & Hf).
  destruct (serving_step L pos p1 msg (host_kv h <| kv_rf := rf0 |>) (serving_rf _ _ _ _ Hsv) Hd Hcar Hn) as (s1 & Hu1 & Hsv1 & _).
  rewrite Hu in Hu1. injection Hu1 as <-. split; [|intros _; by exists p1, pos'].
  intros ch applied [?|(op & Hsn & _ & Hcv & Hcmd & ->)]%(update_chans _ _ _ _ _ Hu); [by eapply Hc|].
  unfold carries in Hcar. unfold next_pos in Hn. destruct (SnapshotValid msg); [by destruct Hcar; congruence|].
  destruct (Hcar Hcv) as (op' & Hlog & Hcmd'). simplify_eq. case_decide as Hidx; [|done]. destruct Hidx as [_ Hidx].
  rewrite Hidx in Hlog. by eapply serving_answer.
Qed.

(** The snapshot is good, and not ahead of the peer. *)
Lemma update_snapshots L rf rf0 h (msg : ApplyMsg) msgs s' :
  applyCh h = msg :: msgs → host_ok L rf h → update msg (host_kv h <| kv_rf := rf0 |>) = Some s' →
  kv_dead (host_kv h) = false → CommandValid msg = true → kv_lastApplied s' = CommandIndex msg →
  good_snapshot L (CommandIndex msg) (Encode (kv s', requestCache s', CommandIndex msg)) ∧
  CommandIndex msg <= commitIndex rf.
Proof.
  intros Hch [Hc Hs] Hu Hd Hcv El.
  destruct (Hs Hd) as (pos & pos' & Hsv & Hf & Hat & Hall). rewrite Hch in Hf, Hall.
  apply Forall_cons_1 in Hall as [[Hcar Hle] Hall]. cbn in Hf. apply bind_Some in Hf as (p1 & Hn & Hf).
  destruct (serving_step L pos p1 msg (host_kv h <| kv_rf := rf0 |>) (serving_rf _ _ _ _ Hsv) Hd Hcar Hn) as (s1 & Hu1 & (j & Hp & Hj & Hjl & Hst) & _).
  rewrite Hu in Hu1. injection Hu1 as <-. split; [|auto]. exists j. rewrite <- Hst. split_and!; [lia|lia|done|done].
Qed.

(** ** The events *)

Lemma step_raft n b g L marks W (e : Event) W' :
  kv_inv n b g L marks W → ¬ sends_dummy (rafts W) e → kv_exec W (KRaft e) = Some W' → ¬ revotes b (rafts W') →
  ∃ g' L', kv_inv n (record_votes (rafts W') b) g' L' marks W'.
Proof.
  intros Hinv Hdummy Hx Hone. cbn in Hx. destruct (raft_alone e) eqn:Ha; [|done].
  apply bind_Some in Hx as (w' & Hx & [= <-]). cbn [rafts] in *.
  destruct (rafts_step _ _ _ _ _ _ _ _ Hinv Hx) as (g' & L' & Hp & Hsv & Hex & Hhost);
    [by intros i c ->|by intros i idx d ->|destruct e; try done; by intros []|done|done|].
  exists g', L'. destruct Hinv as [_ _ _ Hwt Hans]. split; [done|done| |done|].
  - intros i h rf Hi Hrf. cbn [hosts] in Hi. rewrite list_lookup_imap in Hi. apply fmap_Some in Hi as (h0 & Hi & ->).
    apply Hhost; [done|done|]. by intros now ->.
  - intros r a v Hin Hv. destruct (Hans _ _ _ Hin Hv) as [? Heff]. split; [done|].
    eapply (effective_later _ (length L)); [by apply prefix_length|]. by eapply effective_prefix.
Qed.

(** The history goes on. *)
Lemma step_observe n b g L marks W o :
  kv_inv n b g L marks W →
  match o with
  | Invoke r => may_invoke (history W) r = true
  | Done r v => (Invoke r ∈ history W ∧ is_done r (history W) = false) ∧ effective L (length L) r v
  end →
  kv_inv n (record_votes (rafts (observe o W)) b) g L (marks ++ [length L]) (observe o W).
Proof.
  intros [Hsv Hex Hhost Hwt Hans] Ho. cbn [rafts observe].
  rewrite (record_same n b (rafts W)) by first [done|apply (sv_si _ _ _ _ _ _ _ Hsv)]. split; cbn.
  - eapply served_mono; [|exact Hsv]. intros op (r & Hin & ->). exists r. split; [|done]. apply elem_of_app. by left.
  - by apply explained_snoc.
  - done.
  - intros wt Hin. apply elem_of_app. left. by apply Hwt.
  - intros r a v Hin Hv. destruct (Hans _ _ _ Hin Hv). split; [|done]. apply elem_of_app. by left.
Qed.

Lemma step_request n b g L marks W i r W' :
  kv_inv n b g L marks W → kv_exec W (KRequest i r) = Some W' → ¬ revotes b (rafts W') →
  ∃ g' L', kv_inv n (record_votes (rafts W') b) g' L' marks W'.
Proof.
  intros Hinv Hx Hone. cbn in Hx. case_bool_decide as Hr; [|done].
  apply bind_Some in Hx as (s & (h & rf & Hi & Hrf & ->)%server_of_Some & Hx).
  pose proof (handle_frame r (host_kv h <| kv_rf := rf |>)) as Hf.
  destruct (handle r _) as [[s' gs] out]. destruct Hf as (Erf & Hsame & Hout). cbn [kv_rf upd Upd_kv_rf] in Erf.
  unfold set_server in Hx. rewrite Hi in Hx. cbn [fmap option_fmap option_map default from_option] in Hx.
  assert (rafts W' = put_rf i (kv_rf s') (rafts W)) as EW by (destruct out as [a|[index ch]]; by injection Hx as <-).
  rewrite EW in *.
  destruct (server_event n b g L marks W i h rf s' (applyCh h) (EStart i (request_op r))) as (g' & L' & Hinv'); try done.
  - cbn [exec]. unfold run_op. rewrite Hrf. cbn. by rewrite Erf.
  - intros j c [= <- <-]. by exists r.
  - by intros [].
  - by intros [].
  - intros L' Hp Hok. apply host_same; [done|]. by apply Hok.
  - exists g', L'. destruct out as [a|[index ch]]; injection Hx as <-.
    + apply inv_add_answer; [done|]. intros v. by rewrite (Hout a).
    + apply inv_set_waiting; [done|]. intros wt [Hin|Hin%list_elem_of_singleton]%elem_of_app; [by apply (ki_waiting _ _ _ _ _ _ Hinv)|by subst wt].
Qed.


(** A step of a server and the removal of a handler. *)
Lemma step_handler n b g L marks W k wt s s' a :
  kv_inv n b g L marks W → waiting W !! k = Some wt → server_of W (wt_server wt) = Some s →
  kv_rf s' = kv_rf s → same_machine s s' →
  (∀ v, accepted a = Some v → effective L (length L) (wt_request wt) v) →
  let W' := add_answer (wt_request wt) a (set_waiting (delete k (waiting W)) (set_server (wt_server wt) s' W)) in
  kv_inv n (record_votes (rafts W') b) g L marks W'.
Proof.
  intros Hinv Hk (h & rf & Hi & Hrf & ->)%server_of_Some E Hsame Ha W'.
  pose proof (ki_waiting _ _ _ _ _ _ Hinv) as Hwt.
  apply inv_add_answer; [|intros v Hv; split; [by eapply Hwt, list_elem_of_lookup_2|by apply Ha]].
  apply inv_set_waiting; [|intros wt' Hin%list_elem_of_delete_inv; by apply Hwt].
  unfold W', set_server. rewrite Hi. cbn [fmap option_fmap option_map default from_option].
  eapply server_alone; [done|exact Hi|exact Hrf|by rewrite E|]. intros Hok. apply host_same; [exact Hsame|done].
Qed.

Lemma step_receive n b g L marks W k W' :
  kv_inv n b g L marks W → kv_exec W (KReceive k) = Some W' →
  kv_inv n (record_votes (rafts W') b) g L marks W'.
Proof.
  intros Hinv (wt & Hk & (s & Hs & ([applied s'] & Hr & [= <-])%bind_Some)%bind_Some)%bind_Some.
  apply receive_frame in Hr as (Hch & E & Hsame).
  eapply step_handler; [done..|]. intros v Hv.
  apply server_of_Some in Hs as (h & rf & Hi & Hrf & ->).
  eapply applied_effective; [apply Hinv|by eapply (ki_waiting _ _ _ _ _ _ Hinv), list_elem_of_lookup_2| |exact Hv].
  eapply (ho_chans _ _ _ (ki_host _ _ _ _ _ _ Hinv _ _ _ Hi Hrf)), Hch.
Qed.

Lemma step_timeout n b g L marks W k W' :
  kv_inv n b g L marks W → kv_exec W (KTimeout k) = Some W' →
  kv_inv n (record_votes (rafts W') b) g L marks W'.
Proof.
  intros Hinv (wt & Hk & (s & Hs & Hx)%bind_Some)%bind_Some.
  pose proof (timeout_frame (wt_request wt) (wt_index wt) s) as Ht.
  destruct (handle_timeout _ _ s) as [s' a]. destruct Ht as (E & Hsame & Ha). injection Hx as <-.
  eapply step_handler; [done..|]. intros v. by rewrite Ha.
Qed.

Lemma step_update n b g L marks W i W' :
  kv_inv n b g L marks W → kv_exec W (KUpdate i) = Some W' → ¬ revotes b (rafts W') →
  ∃ g' L', kv_inv n (record_votes (rafts W') b) g' L' marks W'.
Proof.
  intros Hinv (h & Hi & (s & (h' & rf & Hi' & Hrf & ->)%server_of_Some & Hx)%bind_Some)%bind_Some Hone.
  rewrite Hi in Hi'. injection Hi' as <-. destruct (applyCh h) as [|msg msgs] eqn:Hch; [done|].
  apply bind_Some in Hx as (s' & Hu & [= <-]). cbn [rafts put_server] in *.
  destruct (update_rf _ _ _ Hu) as [E|(Hcv & El & Hd & E)]; cbn [kv_rf kv_dead upd Upd_kv_rf] in *.
  { exists g, L. eapply server_alone; [done|exact Hi|exact Hrf|exact E|]. intros Hok. by eapply update_host. }
  pose proof (ki_host _ _ _ _ _ _ Hinv _ _ _ Hi Hrf) as Hok.
  destruct (update_snapshots _ _ _ _ _ _ _ Hch Hok Hu Hd Hcv El) as [Hgood Hle].
  eapply (server_event n b g L marks W i h rf s' msgs (ESnapshot i _ _)); try done.
  - cbn [exec]. unfold run_op. rewrite Hrf. cbn. by rewrite <- E.
  - intros j idx data [= <- <- <-]. done.
  - intros (rf' & Hrf' & Hlt). simplify_eq. lia.
  - by intros [].
  - intros L' Hp Hok'. by eapply update_host; [|apply Hok'|].
Qed.

Lemma step_kill n b g L marks W i W' :
  kv_inv n b g L marks W → kv_exec W (KKill i) = Some W' → ¬ revotes b (rafts W') →
  ∃ g' L', kv_inv n (record_votes (rafts W') b) g' L' marks W'.
Proof.
  intros Hinv (s & (h & rf & Hi & Hrf & ->)%server_of_Some & [= <-])%bind_Some.
  unfold set_server. rewrite Hi. cbn [fmap option_fmap option_map default from_option]. intros Hone.
  eapply (server_event n b g L marks W i h rf _ _ (EKill i)); try done.
  - cbn [exec]. unfold run_op. by rewrite Hrf.
  - by intros [].
  - by intros [].
  - intros L' Hp Hok. split; [|done]. apply (ho_chans _ _ _ (Hok ltac:(done))).
Qed.

(** A server starts in the place its snapshot covers. *)
Lemma restart_host n b g L W i rf size now s' gs :
  served good_snapshot (asked W) n b g L (rafts W) → nodes (rafts W) !! i = Some rf →
  StartKVServer (peers rf) (me rf) (persister rf) size now = Some (s', gs) →
  Make (peers rf) (me rf) (persister rf) now = Some (kv_rf s', gs) ∧ host_ok L (kv_rf s') (mkHost s' []).
Proof.
  intros Hsv Hrf Hst. unfold StartKVServer in Hst. apply bind_Some in Hst as ([r gs'] & Hm & [= <- <-]).
  assert (kv_rf (readSnapshot (ReadSnapshot (persister rf)) (mkKVServer (me rf) r false size ∅ ∅ [] ∅ 0)) = r ∧
    chans (readSnapshot (ReadSnapshot (persister rf)) (mkKVServer (me rf) r false size ∅ ∅ [] ∅ 0)) = []) as [Er Ec].
  { unfold readSnapshot. case_decide; [done|]. by destruct (Decode _) as [[[]]|]. }
  rewrite Er. split; [done|].
  destruct (place_restart good_snapshot _ _ _ _ _ _ _ _ _ _ _ Hsv Hrf Hm) as [Hat Hsnap].
  split; cbn [host_kv applyCh]; [by rewrite Ec|]. intros _. exists (lastIncludedIndex rf), (lastIncludedIndex rf).
  split; [|by split_and!]. unfold ReadSnapshot. rewrite clone_id.
  destruct Hsnap as [[-> ->]|(Hpos & (j & Hj & Hjl & ->))].
  - exists 0%nat. cbn. split_and!; try done; lia.
  - destruct (state_at (take j L)) as [m cache] eqn:Hs. exists j. unfold readSnapshot.
    pose proof (Encode_nonempty (m, cache, lastIncludedIndex rf)) as Hne.
    rewrite decide_False.
    + rewrite Decode_Encode. cbn. split_and!; done || lia.
    + destruct (Encode _) as [|x l]; [done|]. rewrite len_cons. pose proof (len_nonneg l). lia.
Qed.

Lemma host_prefix L L' rf h : L `prefix_of` L' → host_ok L rf h → host_ok L' rf h.
Proof.
  intros Hp [Hc Hs]. split; [intros; by eapply answered_prefix, Hc|]. intros Hd.
  destruct (Hs Hd) as (pos & pos' & Hsv & Hf & Hat & Hall). exists pos, pos'.
  split; [by eapply serving_prefix|]. split_and!; [done..|].
  eapply Forall_impl; [exact Hall|]. intros m [Hm ?]. split; [by eapply carries_prefix|done].
Qed.

Lemma step_restart n b g L marks W i now W' :
  kv_inv n b g L marks W → kv_exec W (KRestart i now) = Some W' → ¬ revotes b (rafts W') →
  ∃ g' L', kv_inv n (record_votes (rafts W') b) g' L' marks W'.
Proof.
  intros Hinv (s & (h & rf & Hi & Hrf & ->)%server_of_Some & ([s' gs] & Hst & [= <-])%bind_Some)%bind_Some Hone.
  cbn [kv_rf maxraftstate upd Upd_kv_rf] in Hst.
  destruct (restart_host _ _ _ _ _ _ _ _ _ _ _ (ki_served _ _ _ _ _ _ Hinv) Hrf Hst) as [Hm Hok].
  destruct (server_event n b g L marks W i h rf s' [] (ERestart i now)) as (g' & L' & Hinv'); try done.
  - cbn [exec]. unfold restart. rewrite Hrf. cbn [mbind option_bind]. by rewrite Hm.
  - by intros j now' Hne [= <-].
  - by intros [].
  - by intros [].
  - intros L' Hp _. by eapply host_prefix.
  - exists g', L'. apply inv_set_waiting; [done|]. intros wt [_ Hin]%list_elem_of_filter.
    by apply (ki_waiting _ _ _ _ _ _ Hinv).
Qed.

Lemma kv_exec_inv n b g L marks W e W' :
  kv_inv n b g L marks W → ¬ kv_sends_dummy W e → kv_exec W e = Some W' → ¬ revotes b (rafts W') →
  ∃ g' L' marks', kv_inv n (record_votes (rafts W') b) g' L' marks' W'.
Proof.
  intros Hinv Hdummy Hx Hone. destruct e as [e|i|r|i r|k|k|k|i|i now].
  - destruct (step_raft _ _ _ _ _ _ _ _ Hinv Hdummy Hx Hone) as (g' & L' & ?). by exists g', L', marks.
  - destruct (step_update _ _ _ _ _ _ _ _ Hinv Hx Hone) as (g' & L' & ?). by exists g', L', marks.
  - cbn in Hx. destruct (may_invoke _ r) eqn:Hm; [|done]. injection Hx as <-.
    exists g, L, (marks ++ [length L]). by apply step_observe.
  - destruct (step_request _ _ _ _ _ _ _ _ _ Hinv Hx Hone) as (g' & L' & ?). by exists g', L', marks.
  - exists g, L, marks. by eapply step_receive.
  - exists g, L, marks. by eapply step_timeout.
  - apply bind_Some in Hx as ([r a] & Hk & Hx). destruct (is_done r _) eqn:Hd; [done|].
    apply bind_Some in Hx as (v & Hv & [= <-]).
    destruct (ki_answers _ _ _ _ _ _ Hinv r a v (list_elem_of_lookup_2 _ _ _ Hk) Hv).
    exists g, L, (marks ++ [length L]). by apply step_observe.
  - destruct (step_kill _ _ _ _ _ _ _ _ Hinv Hx Hone) as (g' & L' & ?). by exists g', L', marks.
  - destruct (step_restart _ _ _ _ _ _ _ _ _ Hinv Hx Hone) as (g' & L' & ?). by exists g', L', marks.
Qed.

(** ** The runs *)

Lemma kv_boot_inv n size W : kv_boot n size = Some W → kv_inv n ∅ no_ghost [] [] W.
Proof.
  intros (w & Hw & (ss & Hss & [= <-])%bind_Some)%bind_Some. split; cbn; try (by intros * ?%not_elem_of_nil).
  - by apply served_boot.
  - apply explained_nil.
  - intros i h rf Hi Hrf. apply list_lookup_fmap_Some in Hi as (s & -> & Hs).
    apply mapM_Some in Hss. destruct (Forall2_lookup_r _ _ _ _ _ Hss Hs) as (j & Hj & Hst).
    apply lookup_seq in Hj as [-> _]. cbn in Hst. injection Hst as <-.
    apply boot_nodes in Hw as (_ & _ & _ & Hnodes). destruct (Hnodes _ _ Hrf) as [gs Hm]. cbn in Hm. injection Hm as <- _.
    split; [done|]. intros _. exists 0, 0. split; [|by split_and!; [|right; right|]].
    exists 0%nat. cbn. split_and!; done || lia.
Qed.

Lemma kv_reach_inv n size b W : kv_reach n size b W → ∃ g L marks, kv_inv n b g L marks W.
Proof.
  induction 1 as [W Hb|b W e W' _ (g & L & marks & Hinv) Hdummy Hx Hone].
  - exists no_ghost, [], []. by eapply kv_boot_inv.
  - by eapply kv_exec_inv.
Qed.

(** C6: The replicated state machine: at any moment of any run there is one log of
    requests that clerks made, and each server that runs holds the state after a
    part of it; no server ever panics on what its raft sends. *)
Theorem servers_follow_one_log n size b W :
  kv_reach n size b W →
  ∃ L, (∀ op, op ∈ L → ∃ r, Invoke r ∈ history W ∧ op = request_op r) ∧
    ∀ i s, server_of W i = Some s →
      (kv_dead s = false → ∃ j : nat, kv_lastApplied s <= Z.of_nat j ∧ (j <= length L)%nat ∧
        (kv s, requestCache s) = state_at (take j L)) ∧
      (applyCh <$> hosts W !! i ≠ Some [] → is_Some (kv_exec W (KUpdate i))).
Proof.
  intros (g & L & marks & Hinv)%kv_reach_inv. exists L. split; [apply (ki_served _ _ _ _ _ _ Hinv)|].
  intros i s Hs. pose proof Hs as (h & rf & Hi & Hrf & ->)%server_of_Some.
  destruct (ki_host _ _ _ _ _ _ Hinv _ _ _ Hi Hrf) as [_ Hstep]. split.
  - intros Hd. destruct (Hstep Hd) as (pos & pos' & (j & Hpos & Hj & Hjl & Hst) & _). by exists j.
  - rewrite Hi. intros Hne. cbn [kv_exec]. rewrite Hi, Hs. cbn [mbind option_bind].
    destruct (applyCh h) as [|msg msgs] eqn:Hch; [cbn in Hne; congruence|].
    destruct (kv_dead (host_kv h)) eqn:Hd.
    { unfold update. cbn [kv_dead upd Upd_kv_rf]. rewrite Hd. by eexists. }
    destruct (Hstep eq_refl) as (pos & pos' & Hsv & Hf & _ & Hall). rewrite Hch in Hf, Hall.
    apply Forall_cons_1 in Hall as [[Hcar _] _]. cbn in Hf. apply bind_Some in Hf as (p1 & Hn & _).
    destruct (serving_step L pos p1 msg (host_kv h <| kv_rf := rf |>) (serving_rf _ _ _ _ Hsv) Hd Hcar Hn) as (s' & -> & _).
    by eexists.
Qed.
End KvClusterSteps.
