(* ===== verification/KvRuns.v ===== *)
(** * KvRuns: the replicated server on concrete deliveries

    Witnesses for [KvReplica] with the codec [countable_stream], and the two
    places where a server does not do what it means to: a stored value that
    looks like an error, and the dummy entry of raft's log. *)
From stdpp Require Import base list gmap strings option countable.
From Stdlib Require Import ZArith Lia Strings.Byte.
From S2P Require Import Prelude Labgob RaftTypes Raft RaftNode RaftApply RaftDelivery Dedup KvRaft KvReplica.
#[local] Open Scope Z_scope.
#[local] Open Scope string_scope.
#[local] Open Scope list_scope.

#[export] Instance OpType_countable : Countable OpType.
Proof.
  refine (inj_countable' (λ t, match t with PutOp => 0 | AppendOp => 1 | GetOp => 2 end)
    (λ z, if decide (z = 0) then PutOp else if decide (z = 1) then AppendOp else GetOp) _).
  by intros [].
Defined.
#[export] Instance Op_countable : Countable Op.
Proof.
  refine (inj_countable' (λ o, (op_OpType o, op_Key o, op_Value o, op_Seq o, op_ClientId o))
    (λ '(t, k, v, n, c), mkOp t k v n c) _).
  by intros [].
Defined.

#[export] Instance Op_codec : GobStream (PersistentState Op) := countable_stream.
#[export] Instance Op_codec_laws : GobLaws (PersistentState Op) := countable_stream_laws.
#[export] Instance Snapshot_codec : GobStream SnapshotState := countable_stream.
#[export] Instance Snapshot_codec_laws : GobLaws SnapshotState := countable_stream_laws.

(** A log with a repeated request. *)
Definition log3 : list Op :=
  [mkOp PutOp "x" "1" 0 7; mkOp AppendOp "x" "2" 1 7; mkOp AppendOp "x" "2" 1 7].

Definition cmd (i : Z) (op : Op) : ApplyMsg Op := mkApplyMsg true (Some op) i false [] 0 0.
Definition snap (i : Z) (st : gmap string string * gmap Z Z) : ApplyMsg Op :=
  mkApplyMsg false None 0 true (Encode (st, i)) 1 i.

Definition started : KVServer :=
  match StartKVServer 3 0 MakePersister (-1) 0 with
  | Some (s, _) => s
  | None => mkKVServer 0 (mkRaft MakePersister 0 0 false 0 0 [] 0 0 false 0 [] Follower
      [] [] [] 0 0 false) false 0 ∅ ∅ [] ∅ 0
  end.

(** One server takes every command, the other a snapshot after the first. *)
Definition stream1 : list (ApplyMsg Op) :=
  [cmd 1 (mkOp PutOp "x" "1" 0 7); cmd 2 (mkOp AppendOp "x" "2" 1 7);
   cmd 3 (mkOp AppendOp "x" "2" 1 7)].
Definition stream2 : list (ApplyMsg Op) :=
  [cmd 1 (mkOp PutOp "x" "1" 0 7); snap 2 (state_at (take 2 log3));
   cmd 3 (mkOp AppendOp "x" "2" 1 7)].

Lemma started_at_start : at_start started.
Proof. by vm_compute. Qed.

Lemma cmd_carries i op L : log_at L i = Some op → carries L (cmd i op).
Proof. intros Hl _. by exists op. Qed.

Lemma replicas_agree_witness :
  ∃ s1 s2, run_update stream1 started = Some s1 ∧ run_update stream2 started = Some s2
    ∧ kv s1 = kv s2 ∧ kv s1 !! "x" = Some "12".
Proof.
  destruct (replicas_agree log3 stream1 stream2 started started started_at_start started_at_start)
    as (s1 & s2 & H1 & H2 & Hk & _ & Hv).
  - repeat constructor; apply cmd_carries; reflexivity.
  - constructor; [apply cmd_carries; reflexivity|]. constructor;
      [|constructor; [apply cmd_carries; reflexivity|constructor]].
    split; [reflexivity|]. exists 2%nat. split; [cbn; lia|]. split; [cbn; lia|reflexivity].
  - vm_compute. reflexivity.
  - vm_compute. reflexivity.
  - exists s1, s2. split; [exact H1|]. split; [exact H2|]. split; [exact Hk|].
    rewrite Hv. vm_compute. reflexivity.
Defined.

(** The first server after its first command. *)
Definition applied1 : KVServer := default started (run_update (take 1 stream1) started).

Lemma applied1_serving : serving log3 1 applied1.
Proof. exists 1%nat. vm_compute. repeat split; try discriminate. apply le_S, le_S, le_n. Qed.

Lemma snapshot_carries_witness :
  let rf := kv_rf (snapshot applied1) in
  carries log3 (mkApplyMsg false None 0 true (RaftTypes.snapshot rf) (lastIncludedTerm rf) 1).
Proof.
  intros rf. assert (lastIncludedIndex (kv_rf applied1) < kv_lastApplied applied1) as Hlt
    by (vm_compute; reflexivity).
  destruct (snapshot_carries log3 1 applied1 applied1_serving Hlt) as [Hi Hc].
  change (lastIncludedIndex (kv_rf (snapshot applied1)) = 1) in Hi.
  rewrite Hi in Hc. exact Hc.
Defined.

Lemma snapshot_restart_witness :
  ∃ s' gs, StartKVServer 3 0 (persister (kv_rf (snapshot applied1))) (-1) 5 = Some (s', gs)
    ∧ kv s' = kv applied1 ∧ kv_lastApplied s' = 1.
Proof.
  destruct (snapshot_restart 3 0 (-1) 5 applied1) as (s' & gs & Hs & Hk & _ & Hl & _).
  - split; vm_compute; reflexivity.
  - vm_compute. reflexivity.
  - exists s', gs. split; [exact Hs|]. split; [exact Hk|]. rewrite Hl. vm_compute. reflexivity.
Defined.

(** ** Replies *)

(** A handler waits at index 2 for a read of "x". *)
Definition read_x : GetArgs := mkGetArgs "x" 0 8.
Definition read_op : Op := mkOp GetOp "x" "" 0 8.
Definition log_read (v : string) : list Op := [mkOp PutOp "x" v 0 7; read_op].
Definition waiting (v : string) : KVServer :=
  fst (getNotifyCh 2 (default started (update (cmd 1 (mkOp PutOp "x" v 0 7)) started))).

Lemma Get_reply_witness :
  ∃ s' s'' applied, update (cmd 2 read_op) (waiting "1") = Some s'
    ∧ receive 0 s' = Some (applied, s'') ∧ Get_applied read_x applied = mkGetReply OK "1".
Proof.
  destruct (Get_reply (log_read "1") 1 (cmd 2 read_op) read_x 0 read_op (waiting "1"))
    as (s' & s'' & applied & Hu & Hr & _ & Hg).
  - exists 1%nat. vm_compute. repeat split; try discriminate. apply le_S, le_n.
  - vm_compute. reflexivity.
  - apply cmd_carries. reflexivity.
  - reflexivity.
  - reflexivity.
  - reflexivity.
  - intros _ _. split; reflexivity.
  - vm_compute. reflexivity.
  - vm_compute. reflexivity.
  - exists s', s'', applied. split; [exact Hu|]. split; [exact Hr|].
    rewrite Hg. vm_compute. reflexivity.
Defined.

(** The text "ErrNoKey" can be stored, and is then read as a missing key. *)
Example stored_ErrNoKey :
  (λ '(applied, _), Get_applied read_x applied)
    <$> (update (cmd 2 read_op) (waiting "ErrNoKey") ≫= receive 0)
  = Some (mkGetReply ErrNoKey "").
Proof. vm_compute. reflexivity. Qed.

(** [msg.Command.(Op)] panics on raft's dummy entry. *)
Example dummy_command_panics :
  update (mkApplyMsg true None 1 false [] 0 0) started = None.
Proof. vm_compute. reflexivity. Qed.

(** ** The clerk *)

Definition third_answers (args : PutAppendArgs) (i server : nat) : option PutAppendReply :=
  if decide (server = 2%nat) then Some (KvRaft.mkPutAppendReply OK)
  else if decide (server = 1%nat) then None else Some (KvRaft.mkPutAppendReply ErrWrongLeader).

Lemma clerk_finds_leader_witness :
  ∃ ck' i, PutAppend 3 third_answers "x" "1" (mkClerk 3 4 0 9) = Some ck'
    ∧ ck_seq ck' = 5 ∧ third_answers (mkPutAppendArgs "x" "1" 4 9) i (leader ck')
      = Some (KvRaft.mkPutAppendReply OK).
Proof.
  destruct (clerk_finds_leader third_answers "x" "1" (mkClerk 3 4 0 9) 2)
    as (ck' & i & Hp & Hs & _ & Ha).
  - cbn. lia.
  - cbn. lia.
  - intros i. reflexivity.
  - exists ck', i. split; [exact Hp|]. split; [exact Hs|exact Ha].
Defined.
