(* ===== verification/KvraftHarness.v ===== *)
(** * KvraftHarness: the harness of the tests of [src/src/kvraft]

    [ServiceHarness] for key/value servers, and [Leader], where the two packages
    differ.  [kv_step] lists what a server does between the operations of the
    harness; its persister holds the state of its Raft all the time. *)
From stdpp Require Import base gmap strings list_numbers option list.
From Stdlib Require Import ZArith Lia.
From S2P Require Import Prelude Labgob GoStrings Labrpc RaftTypes Raft RaftNode Dedup KvRaft RaftHarness ServiceHarness ServiceNet ServiceLife ServiceTests.
#[local] Open Scope Z_scope.
#[local] Open Scope go_scope.

Section KvraftHarness.
Context `{GobStream (PersistentState KvRaft.Op)} `{GobStream SnapshotState}.
Context {rtype : Type}.
Notation config := (config KVServer KvRaft.Clerk rtype).

#[export] Instance kv_service : Service KVServer KvRaft.Op KvRaft.Clerk := {|
  svc_rf := kv_rf;
  svc_Start := λ servers me ps maxraftstate now, fst <$> StartKVServer servers me ps maxraftstate now;
  svc_Kill := KvRaft.Kill;
  svc_MakeClerk := KvRaft.MakeClerk
|}.

Fixpoint Leader_loop (js : list nat) (cfg : config) : result (bool * nat) :=
  match js with
  | [] => Ok (false, 0%nat)
  | i :: js =>
      o ← or_panic (kvservers cfg !! i);
      o ← or_panic o;
      '(_, is_leader) ← state_of o cfg;
      if is_leader : bool then Ok (true, i) else Leader_loop js cfg
  end.

(** The first server that says it leads; a nil server panics. *)
Definition Leader (cfg : config) : result (bool * nat) := Leader_loop (seq 0 (cfg_n cfg)) cfg.

(** ** What a server does *)
Inductive kv_step (s : KVServer) : KVServer → Prop :=
  | kv_raft op rf : exec_op op (kv_rf s) = Some rf → kv_step s (s <| kv_rf := rf |>)
  | kv_get args : kv_step s (fst (fst (KvRaft.Get args s)))
  | kv_get_timeout index : kv_step s (fst (Get_timeout index s))
  | kv_put_append opType args : kv_step s (fst (fst (handlePutAppend opType args s)))
  | kv_put_append_timeout index : kv_step s (fst (PutAppend_timeout index s))
  | kv_receive ch op s' : receive ch s = Some (op, s') → kv_step s s'
  | kv_update msg s' : update msg s = Some s' → kv_step s s'.
End KvraftHarness.

Section KvLaws.
Context `{GobLaws (PersistentState KvRaft.Op)} `{GobStream SnapshotState}.
Implicit Types s : KVServer.

Lemma getNotifyCh_rf index s : kv_rf (fst (getNotifyCh index s)) = kv_rf s.
Proof. unfold getNotifyCh. by destruct (notify s !! index). Qed.

Lemma propose_durable cmd s : durable (kv_rf s) → durable (kv_rf (fst (fst (propose cmd s)))).
Proof.
  intros Hd. pose proof (exec_op_durable (OpStart cmd) (kv_rf s) _ Hd eq_refl) as Hd'. unfold propose.
  destruct (Start cmd (kv_rf s)) as [[rf [[index t] isLeader]] gs]. destruct isLeader; [|done]. cbn [negb].
  pose proof (getNotifyCh_rf index (s <| kv_rf := rf |>)) as Hch. destruct (getNotifyCh _ _) as [s1 ch]. cbn in *. by rewrite Hch.
Qed.

Lemma snapshot_durable s : durable (kv_rf s) → durable (kv_rf (snapshot s)).
Proof. intros Hd. by eapply (exec_op_durable (OpSnapshot _ _)). Qed.

Lemma readSnapshot_rf snap s : kv_rf (readSnapshot snap s) = kv_rf s.
Proof. unfold readSnapshot. case_decide; [done|]. by destruct (Decode snap) as [[[]]|]. Qed.

Lemma apply_rf op s : kv_rf (snd (KvRaft.apply op s)) = kv_rf s.
Proof. unfold KvRaft.apply. by destruct (op_OpType op). Qed.

Lemma try_send_rf ch op s : kv_rf (try_send ch op s) = kv_rf s.
Proof. unfold try_send. by destruct (chans s !! ch) as [[]|]. Qed.

Lemma update_durable msg s s' : durable (kv_rf s) → update msg s = Some s' → durable (kv_rf s').
Proof.
  intros Hd Hx. unfold update in Hx. destruct (kv_dead s); [by injection Hx as <-|].
  destruct (SnapshotValid msg && _); [injection Hx as <-; cbn; by rewrite readSnapshot_rf|].
  destruct (CommandValid msg); [|by injection Hx as <-]. cbn [negb] in Hx.
  apply bind_Some in Hx as (op & _ & Hx).
  match type of Hx with (let '(_, _) := ?x in _) = _ => destruct x as [op' s1] eqn:Hs1 end.
  assert (kv_rf s1 = kv_rf s) as Hrf.
  { destruct (negb _); [by rewrite <- (apply_rf op s), Hs1|]. by destruct (op_OpType op); injection Hs1 as _ <-. }
  set (s2 := s1 <| kv_lastApplied := CommandIndex msg |>) in Hx.
  assert (durable (kv_rf (if shouldSnapshot s2 then snapshot s2 else s2))) as Hd2.
  { assert (durable (kv_rf s2)) by (cbn; by rewrite Hrf). destruct (shouldSnapshot s2); [by apply snapshot_durable|done]. }
  destruct (notify _ !! CommandIndex msg); injection Hx as <-; rewrite ?try_send_rf; exact Hd2.
Qed.

Lemma kv_step_durable s s' : kv_step s s' → durable (kv_rf s) → durable (kv_rf s').
Proof.
  intros Hs Hd. destruct Hs as [op rf Hx|args|index|opType args|index|ch op s' Hr|msg s' Hu].
  - by eapply exec_op_durable.
  - unfold KvRaft.Get. pose proof (propose_durable (mkOp GetOp (ga_Key args) "" (ga_Seq args) (ga_ClientId args)) s Hd) as Hp.
    destruct (propose _ s) as [[s1 gs] [w|]]; exact Hp.
  - exact Hd.
  - unfold handlePutAppend. pose proof (propose_durable (mkOp opType (pa_Key args) (pa_Value args) (pa_Seq args) (pa_ClientId args)) s Hd) as Hp.
    destruct (propose _ s) as [[s1 gs] [w|]]; exact Hp.
  - exact Hd.
  - unfold receive in Hr. destruct (chans s !! ch) as [[op'|]|]; try done. by injection Hr as _ <-.
  - by eapply update_durable.
Qed.

#[export] Instance kv_laws : ServiceLaws KVServer KvRaft.Op KvRaft.Clerk.
Proof.
  refine {| svc_step := kv_step |}.
  - intros n i ps size now. cbn. unfold StartKVServer. destruct (Make n i ps now) as [[rf gs]|]; [|done].
    cbn. by rewrite readSnapshot_rf.
  - done.
  - apply kv_step_durable.
Defined.

(** ** The leader *)
Context {rtype : Type} (svc_rcvr rf_rcvr : nat → Rcvr rtype).
Notation config := (config KVServer KvRaft.Clerk rtype).
Implicit Types cfg : config.

(** With every server running, [Leader] gives the first one that leads, if any. *)
Lemma kv_Leader_Ok n cfg :
  service_reach svc_rcvr rf_rcvr n cfg → all_live n cfg → Leader cfg = Ok (first_leader cfg (seq 0 n)).
Proof.
  intros Hi%service_reach_invariant Hl. unfold Leader. destruct (w_n _ _ (i_wired _ _ _ _ Hi)) as [-> _].
  assert (∀ js, (∀ j, j ∈ js → (j < n)%nat) → Leader_loop js cfg = Ok (first_leader cfg js)) as Hall.
  { induction js as [|i js IH]; intros Hjs; [done|]. rewrite first_leader_cons. cbn [Leader_loop].
    destruct (Hl i) as [o Ho]; [apply Hjs; left|]. rewrite Ho. cbn [or_panic mbind result_bind].
    destruct (state_of_live _ _ n cfg i o Hi Ho) as [t ->]. cbn [mbind result_bind].
    destruct (leads cfg i); [done|]. apply IH. intros j Hj. apply Hjs. by right. }
  apply Hall. intros j ?%elem_of_seq. lia.
Qed.

(** It panics at a server that is down. *)
Lemma kv_Leader_down n cfg : cfg_n cfg = S n → kvservers cfg !! 0%nat = Some None → Leader cfg = Panic.
Proof. intros Hn Hd. unfold Leader. rewrite Hn. cbn. by rewrite Hd. Qed.
End KvLaws.
