(* ===== verification/ServiceRuns.v ===== *)
(** * ServiceRuns: tests of a key/value service on three servers

    The states that [make_config] and a few steps lead to, as instances of the
    theorems of [ServiceLife] and [ServiceTests], and the places where the
    harness does not do what its comments say. *)
From stdpp Require Import base gmap strings list_numbers option list countable.
From Stdlib Require Import ZArith Lia.
From S2P Require Import Prelude Labgob GoStrings Labrpc LabrpcCalls RaftTypes Raft RaftNode Dedup KvRaft KvReplica KvRuns RaftHarness RaftHarnessNet ServiceHarness ServiceNet ServiceLife ServiceTests KvraftHarness.
#[local] Open Scope Z_scope.
#[local] Open Scope go_scope.

(** What [reflect] says: types do not matter here, only numbers of parameters
    and pointers. *)
Definition by_value : Param unit := mkParam _ tt None.
Definition by_pointer : Param unit := mkParam _ tt (Some tt).
Definition handler (name : string) : Method unit := mkMethod _ name "" [by_pointer; by_pointer; by_pointer] 0.
Definition other (name : string) : Method unit := mkMethod _ name "" [by_pointer] 0.

Definition kv_rcvr (o : nat) : Rcvr unit :=
  mkRcvr _ o "KVServer" [handler "Append"; handler "Get"; other "Kill"; handler "Put"].
Definition raft_rcvr (o : nat) : Rcvr unit :=
  mkRcvr _ o "Raft" [handler "AppendEntries"; other "GetState"; handler "InstallSnapshot"; other "Kill";
                     handler "RequestVote"].

Notation config := (config KVServer KvRaft.Clerk unit).

Definition three_starts : list (list string * Z) :=
  [(["a0"; "a1"; "a2"], 0); (["b0"; "b1"; "b2"], 0); (["c0"; "c1"; "c2"], 0)].

Definition ready : config :=
  match make_config kv_rcvr raft_rcvr false (-1) 0 three_starts with Ok cfg => cfg | _ => new_config 3 (-1) 0 end.

Lemma ready_reach : service_reach kv_rcvr raft_rcvr 3 ready ∧ all_live 3 ready.
Proof.
  destruct (make_config_ready kv_rcvr raft_rcvr false (-1) 0 three_starts) as (cfg & Hm & Hr & Hl & _).
  - split; [by repeat constructor|]. apply (bool_decide_unpack _). vm_compute. exact I.
  - assert (ready = cfg) as -> by (unfold ready; by rewrite Hm). by split.
Qed.

(** Server 0 reaches the Raft of server 1, as instance 1. *)
Lemma live_server_reached_witness :
  ∃ ptr srv svc, i_server (readEndnameInfo (inl "a1") (cfg_net ready)) = Some ptr ∧ heap ready !! ptr = Some srv ∧
    services srv !! "Raft" = Some svc ∧ object (rcvr svc) = 1%nat.
Proof.
  destruct (live_server_reached kv_rcvr raft_rcvr 3 ready 1 "a1" (proj1 ready_reach)) as (_ & Hs & _).
  - left. exists 0%nat. vm_compute. reflexivity.
  - assert (kvservers ready !! 1%nat = Some (Some 1%nat)) as Ho by (vm_compute; reflexivity).
    rewrite Ho in Hs. destruct Hs as (ptr & srv & Hi & Hh & _ & Hsv). exists ptr, srv, (MakeService (raft_rcvr 1)).
    split; [exact Hi|]. split; [exact Hh|]. split; [|reflexivity]. rewrite Hsv. apply lookup_insert_eq.
Defined.

(** Server 2 leads: it is cut off from the others, which stay together. *)
Lemma leader_in_minority_witness :
  ∃ cfg, partition [0; 1]%nat [2]%nat ready = Ok cfg ∧
    i_enabled (readEndnameInfo (inl "c0") (cfg_net cfg)) = false ∧
    i_enabled (readEndnameInfo (inl "a2") (cfg_net cfg)) = false ∧
    i_enabled (readEndnameInfo (inl "a1") (cfg_net cfg)) = true.
Proof.
  destruct (leader_in_minority kv_rcvr raft_rcvr 3 ready 2 (proj1 ready_reach) (proj2 ready_reach))
    as (p1 & p2 & cfg & Hm & Hp & _ & _ & _ & He); [reflexivity|lia|lia|].
  assert (p1 = [0; 1]%nat ∧ p2 = [2]%nat) as [-> ->] by (vm_compute in Hm; injection Hm as <- <-; split; reflexivity).
  exists cfg. split; [exact Hp|].
  rewrite (He 2%nat 0%nat "c0"), (He 0%nat 2%nat "a2"), (He 0%nat 1%nat "a1"); [|vm_compute; reflexivity..].
  vm_compute. split; [|split]; reflexivity.
Defined.

(** Server 0 stands in term 1 and votes for itself. *)
Definition stand (s : KVServer) : KVServer :=
  s <| kv_rf := fst (fst (ticker (1000 * millisecond) 0 (200 * millisecond) (kv_rf s))) |>.

Definition standing : config := ready <| objects := alter stand 0%nat (objects ready) |>.

Lemma standing_reach : service_reach kv_rcvr raft_rcvr 3 standing.
Proof.
  assert (is_Some (objects ready !! 0%nat)) as [s Hs] by (vm_compute; by eexists).
  eapply (service_do _ _ _ ready (SServe 0%nat (stand s))); [apply ready_reach| |].
  - exists s. split; [exact Hs|]. apply (kv_raft _ (OpTicker (1000 * millisecond) 0 (200 * millisecond))). reflexivity.
  - cbn [sexec]. rewrite Hs. cbn [or_panic mbind result_bind]. unfold standing.
    by rewrite (insert_alter_at stand _ _ s Hs).
Qed.

Definition down : config :=
  match ShutdownServer 0%nat standing with Ok cfg => cfg | _ => standing end.

Lemma Ok_inj {A} (a b : A) : Ok a = Ok b → a = b.
Proof. by intros [= ->]. Qed.

Lemma shutdown_down : ShutdownServer 0%nat standing = Ok down.
Proof. vm_compute. reflexivity. Qed.

Definition new_names : list string := ["d0"; "d1"; "d2"].

Lemma new_names_fresh : fresh_names 3 (cfg_net down) new_names.
Proof.
  split; [reflexivity|]. split; [apply (bool_decide_unpack _); vm_compute; exact I|].
  assert (forallb (λ x, match ends (cfg_net down) !! inl x with None => true | _ => false end) new_names = true) as Hf
    by (vm_compute; reflexivity).
  intros x Hx%list_elem_of_In. rewrite forallb_forall in Hf. apply Hf in Hx. by destruct (ends _ !! inl x).
Qed.

(** [Kill] writes to its persister that it has no vote; after the restart it has
    the vote it gave. *)
Lemma service_restart_witness :
  ∃ cfg3 o' s', ShutdownServer 0%nat standing = Ok down ∧
    StartServer kv_rcvr raft_rcvr 0%nat new_names 0 down = Ok cfg3 ∧
    kvservers cfg3 !! 0%nat = Some (Some o') ∧ objects cfg3 !! o' = Some s' ∧
    CurrentTerm (kv_rf s') = 1 ∧ VotedFor (kv_rf s') = 0.
Proof.
  assert (is_Some (objects standing !! 0%nat)) as [s Hs] by (vm_compute; by eexists).
  assert (CurrentTerm (kv_rf s) = 1 ∧ VotedFor (kv_rf s) = 0) as [Ht Hv].
  { apply (f_equal (option_map (λ s, (CurrentTerm (kv_rf s), VotedFor (kv_rf s))))) in Hs. vm_compute in Hs.
    injection Hs as Ht Hv. split; symmetry; assumption. }
  assert (kvservers standing !! 0%nat = Some (Some 0%nat)) as Ho by (vm_compute; reflexivity).
  destruct (service_restart kv_rcvr raft_rcvr 3 standing 0 0 s standing_reach Ho Hs) as (cfg1 & Hx & _ & Hiso & _ & Hre).
  rewrite shutdown_down in Hx. apply Ok_inj in Hx. subst cfg1.
  destruct (Hre down new_names 0 (steps_none _ _ _ _ _)) as (cfg3 & o' & s' & Hst & Hk & Hob & _ & Hps & _).
  - split; [lia|]. split; [exact new_names_fresh|]. split; [vm_compute; reflexivity|exact Hiso].
  - exists cfg3, o', s'. split; [exact shutdown_down|]. split; [exact Hst|]. split; [exact Hk|]. split; [exact Hob|].
    change (svc_rf s') with (kv_rf s') in Hps. change (svc_rf s) with (kv_rf s) in Hps.
    unfold persistentState in Hps. injection Hps as -> -> _ _ _. split; assumption.
Defined.

(** ** Where the harness and its comments part *)

(** "Partition servers into 2 groups and put current leader in minority": with
    four servers nobody is in a minority, and server 0 is in both parts. *)
Example make_partition_even : make_partition 4 3 = Ok ([0; 1; 2], [0; 3])%nat.
Proof. reflexivity. Qed.

(** With one server it panics. *)
Example make_partition_one : make_partition 1 0 = Panic.
Proof. reflexivity. Qed.

(** [disconnectUnlocked] means to skip servers that were never started, but
    looks at the index of its loop. *)
Definition two_started : config :=
  match start_all kv_rcvr raft_rcvr 0 (take 2 three_starts) (new_config 3 (-1) 0) with
  | Ok cfg => cfg | _ => new_config 3 (-1) 0 end.

Example disconnect_never_started : disconnectUnlocked 0%nat [2]%nat two_started = Panic.
Proof. vm_compute. reflexivity. Qed.

(** A loop over all servers does skip it. *)
Example disconnect_all_of_them : ∃ cfg, disconnectUnlocked 0%nat [0; 1; 2]%nat two_started = Ok cfg.
Proof. eexists. vm_compute. reflexivity. Qed.

(** [Leader] panics while server 0 is down. *)
Example Leader_after_shutdown :
  match ShutdownServer 0%nat ready with Ok cfg => Leader cfg | _ => Ok (false, 0%nat) end = Panic.
Proof. vm_compute. reflexivity. Qed.
