(* ===== verification/ShardCtrler.v ===== *)
(** * ShardCtrler: the shard controller of [src/src/shardctrler/]

    The configurations, the clerk that asks the controllers in turn until one
    answers, and the server, whose handlers are skeletons in this repository:
    they leave the reply as it is.  The network is a parameter: [call round i args]
    is the outcome of the call to server [i] in a round, [None] when [Call]
    returned false. *)
From Stdlib Require Import ZArith Lia.
From stdpp Require Import base gmap strings option list.
From S2P Require Import Prelude Labgob RaftTypes Raft.
#[local] Open Scope Z_scope.

(** ** [common.go] *)
Definition NShards : nat := 10.

Record Config := mkConfig {
  Num : Z;
  Shards : list Z; (* shard -> gid, an array of length NShards *)
  Groups : gmap Z (list string) (* gid -> servers[] *)
}.

(** The zero value: every shard belongs to the invalid group 0. *)
Definition zeroConfig : Config := mkConfig 0 (replicate NShards 0) ∅.

Record JoinArgs := mkJoinArgs { ja_Servers : gmap Z (list string) }.
Record LeaveArgs := mkLeaveArgs { la_GIDs : list Z }.
Record MoveArgs := mkMoveArgs { ma_Shard : Z; ma_GID : Z }.
Record QueryArgs := mkQueryArgs { qa_Num : Z }.

Record JoinReply := mkJoinReply { j_WrongLeader : bool; j_Err : string }.
Record LeaveReply := mkLeaveReply { l_WrongLeader : bool; l_Err : string }.
Record MoveReply := mkMoveReply { m_WrongLeader : bool; m_Err : string }.
Record QueryReply := mkQueryReply { q_WrongLeader : bool; q_Err : string; q_Config : Config }.

(** [var reply QueryReply] *)
Definition zeroQueryReply : QueryReply := mkQueryReply false "" zeroConfig.

(** ** [client.go] *)
Record Clerk := mkClerk { servers : nat }.

Definition MakeClerk (servers : nat) : Clerk := mkClerk servers.

Section Loops.
Context {A : Type} (accepted : A → bool).
Implicit Types (call : nat → nat → option A).

(** [for _, srv := range ck.servers]: the first reply that is accepted. *)
Fixpoint try_servers (call : nat → option A) (srvs : list nat) : option A :=
  match srvs with
  | [] => None
  | srv :: srvs =>
      match call srv with
      | Some reply => if accepted reply then Some reply else try_servers call srvs
      | None => try_servers call srvs
      end
  end.

(** The loop of a request; after the fuel it is still waiting. *)
Fixpoint ask (fuel round : nat) call (n : nat) : option A :=
  match fuel with
  | O => None
  | S fuel =>
      match try_servers (call round) (seq 0 n) with
      | Some reply => Some reply
      | None => ask fuel (S round) call n
      end
  end.
End Loops.

Definition Query (fuel : nat) (call : nat → nat → QueryArgs → option QueryReply) (num : Z) (ck : Clerk)
  : option Config :=
  let args := mkQueryArgs num in
  reply ← ask (λ r, negb (q_WrongLeader r)) fuel 0 (λ round i, call round i args) (servers ck);
  Some (q_Config reply).

Definition Join (fuel : nat) (call : nat → nat → JoinArgs → option JoinReply)
    (srvs : gmap Z (list string)) (ck : Clerk) : option unit :=
  let args := mkJoinArgs srvs in
  _ ← ask (λ r, negb (j_WrongLeader r)) fuel 0 (λ round i, call round i args) (servers ck);
  Some ().

Definition Leave (fuel : nat) (call : nat → nat → LeaveArgs → option LeaveReply)
    (gids : list Z) (ck : Clerk) : option unit :=
  let args := mkLeaveArgs gids in
  _ ← ask (λ r, negb (l_WrongLeader r)) fuel 0 (λ round i, call round i args) (servers ck);
  Some ().

Definition Move (fuel : nat) (call : nat → nat → MoveArgs → option MoveReply)
    (shard gid : Z) (ck : Clerk) : option unit :=
  let args := mkMoveArgs shard gid in
  _ ← ask (λ r, negb (m_WrongLeader r)) fuel 0 (λ round i, call round i args) (servers ck);
  Some ().

(** ** [server.go] *)

(** The operation of the log is still the empty struct. *)
Abbreviation Op := unit.

Record ShardCtrler := mkShardCtrler {
  sc_me : nat;
  rf : Raft Op;
  configs : list Config (* indexed by config num *)
}.

(** The handlers: their bodies are empty. *)
Definition sc_Join (_ : JoinArgs) (reply : JoinReply) (sc : ShardCtrler) : ShardCtrler * JoinReply := (sc, reply).
Definition sc_Leave (_ : LeaveArgs) (reply : LeaveReply) (sc : ShardCtrler) : ShardCtrler * LeaveReply := (sc, reply).
Definition sc_Move (_ : MoveArgs) (reply : MoveReply) (sc : ShardCtrler) : ShardCtrler * MoveReply := (sc, reply).
Definition sc_Query (_ : QueryArgs) (reply : QueryReply) (sc : ShardCtrler) : ShardCtrler * QueryReply :=
  (sc, reply).

Section Server.
Context `{GobStream (PersistentState Op)}.

Definition sc_Kill (sc : ShardCtrler) : ShardCtrler :=
  mkShardCtrler (sc_me sc) (Raft.Kill (rf sc)) (configs sc).

Definition sc_Raft (sc : ShardCtrler) : Raft Op := rf sc.

(** [configs[0]] has an empty map of groups; the shards are the zero value. *)
Definition StartServer (servers me : nat) (ps : Persister) (now : Z)
  : option (ShardCtrler * list Goroutine) :=
  let configs := [mkConfig 0 (replicate NShards 0) ∅] in
  '(rf, gs) ← Raft.Make servers me ps now;
  Some (mkShardCtrler me rf configs, gs).
End Server.

(** ** The loop asks until somebody answers *)
Section AskSpec.
Context {A : Type} (accepted : A → bool).
Implicit Types (call : nat → nat → option A).

(** The first server with an accepted reply. *)
Definition answers (call : nat → option A) (n i : nat) (reply : A) : Prop :=
  (i < n)%nat ∧ call i = Some reply ∧ accepted reply = true
  ∧ ∀ j, (j < i)%nat → ∀ r, call j = Some r → accepted r = false.

Lemma try_servers_Some (call : nat → option A) k m reply :
  try_servers accepted call (seq k m) = Some reply ↔
  ∃ i, (k <= i < k + m)%nat ∧ call i = Some reply ∧ accepted reply = true
    ∧ ∀ j, (k <= j < i)%nat → ∀ r, call j = Some r → accepted r = false.
Proof.
  revert k. induction m as [|m IH]; intros k; cbn [seq try_servers].
  { split; [done|]. intros (i & Hi & _). lia. }
  assert ((∀ r, call k = Some r → accepted r = false) →
    (try_servers accepted call (seq (S k) m) = Some reply ↔
     ∃ i, (k <= i < k + S m)%nat ∧ call i = Some reply ∧ accepted reply = true
       ∧ ∀ j, (k <= j < i)%nat → ∀ r, call j = Some r → accepted r = false)) as Hnext.
  { intros Hk. rewrite IH. split.
    - intros (i & Hi & Hc & Ha & Hj). exists i. split_and!; [lia|lia|done|done|].
      intros j Hji r Hr. destruct (decide (j = k)) as [->|]; [by apply Hk|]. apply (Hj j); [lia|done].
    - intros (i & Hi & Hc & Ha & Hj). destruct (decide (i = k)) as [->|].
      + by rewrite (Hk _ Hc) in Ha.
      + exists i. split_and!; [lia|lia|done|done|]. intros j Hji. apply Hj. lia. }
  destruct (call k) as [r|] eqn:Hk; [|by apply Hnext].
  destruct (accepted r) eqn:Hr; [|apply Hnext; congruence].
  split.
  - intros [= ->]. exists k. split_and!; [lia|lia|done|done|]. intros; lia.
  - intros (i & Hi & Hc & Ha & Hj). destruct (decide (i = k)) as [->|]; [congruence|].
    by rewrite (Hj k ltac:(lia) _ Hk) in Hr.
Qed.

Lemma try_servers_None (call : nat → option A) k m :
  try_servers accepted call (seq k m) = None ↔
  ∀ i r, (k <= i < k + m)%nat → call i = Some r → accepted r = false.
Proof.
  revert k. induction m as [|m IH]; intros k; cbn [seq try_servers].
  { split; [intros; lia|done]. }
  assert ((∀ r, call k = Some r → accepted r = false) →
    (try_servers accepted call (seq (S k) m) = None ↔
     ∀ i r, (k <= i < k + S m)%nat → call i = Some r → accepted r = false)) as Hnext.
  { intros Hk. rewrite IH. split; intros Hi i r Hik Hr; [|apply (Hi i); [lia|done]].
    destruct (decide (i = k)) as [->|]; [by apply Hk|apply (Hi i); [lia|done]]. }
  destruct (call k) as [r|] eqn:Hk; [|by apply Hnext].
  destruct (accepted r) eqn:Hr; [|apply Hnext; congruence].
  split; [done|]. intros Hi. by rewrite (Hi k r ltac:(lia) Hk) in Hr.
Qed.

(** A round in which no server gives a reply that is accepted. *)
Definition silent (call : nat → option A) (n : nat) : Prop :=
  ∀ i r, (i < n)%nat → call i = Some r → accepted r = false.

Lemma ask_answers fuel round call n reply :
  ask accepted fuel round call n = Some reply ↔
  ∃ d i, (d < fuel)%nat ∧ answers (call (round + d)%nat) n i reply
    ∧ ∀ d', (d' < d)%nat → silent (call (round + d')%nat) n.
Proof.
  revert round. induction fuel as [|fuel IH]; intros round; cbn [ask].
  { split; [done|]. intros (d & i & Hd & _). lia. }
  destruct (try_servers accepted (call round) (seq 0 n)) as [r|] eqn:Htry.
  - apply try_servers_Some in Htry as (i & Hi & Hc & Ha & Hj).
    assert (answers (call round) n i r) as Hans.
    { split_and!; [lia|done|done|]. intros j Hji. apply Hj. lia. }
    split.
    + intros [= <-]. exists 0%nat, i. rewrite Nat.add_0_r. split_and!; [lia|done|]. intros; lia.
    + intros ([|d] & i' & Hd & (Hi' & Hc' & Ha' & Hj') & Hsil).
      * rewrite Nat.add_0_r in *. f_equal. destruct (Nat.lt_total i i') as [Hlt|[->|Hlt]]; [|congruence|].
        -- by rewrite (Hj' i Hlt _ Hc) in Ha.
        -- by rewrite (Hj i' ltac:(lia) _ Hc') in Ha'.
      * specialize (Hsil 0%nat ltac:(lia)). rewrite Nat.add_0_r in Hsil.
        by rewrite (Hsil i r ltac:(lia) Hc) in Ha.
  - rewrite IH. pose proof (proj1 (try_servers_None (call round) 0 n) Htry) as Hnone. split.
    + intros (d & i & Hd & Hans & Hsil). exists (S d), i. rewrite Nat.add_succ_r. split_and!; [lia|done|].
      intros [|d'] Hd'; [|rewrite Nat.add_succ_r; apply (Hsil d'); lia].
      rewrite Nat.add_0_r. intros j r Hj. apply Hnone. lia.
    + intros ([|d] & i & Hd & Hans & Hsil).
      * rewrite Nat.add_0_r in Hans. destruct Hans as (Hi & Hc & Ha & _).
        by rewrite (Hnone i _ ltac:(lia) Hc) in Ha.
      * exists d, i. rewrite Nat.add_succ_r in Hans. split_and!; [lia|done|].
        intros d' Hd'. specialize (Hsil (S d') ltac:(lia)). by rewrite Nat.add_succ_r in Hsil.
Qed.
End AskSpec.

(** [Query] returns the configuration of the first reply, over the rounds and in
    the order of the servers, that is not from a wrong leader. *)
Theorem Query_spec fuel call num ck cfg :
  Query fuel call num ck = Some cfg ↔
  ∃ round i reply, (round < fuel)%nat ∧ q_Config reply = cfg
    ∧ answers (λ r, negb (q_WrongLeader r)) (λ i, call round i (mkQueryArgs num)) (servers ck) i reply
    ∧ ∀ round', (round' < round)%nat →
        silent (λ r, negb (q_WrongLeader r)) (λ i, call round' i (mkQueryArgs num)) (servers ck).
Proof.
  unfold Query. split.
  - destruct (ask _ _ _ _ _) as [reply|] eqn:Hask; cbn; [|done]. intros [= <-].
    apply ask_answers in Hask as (d & i & Hd & Hans & Hsil). exists d, i, reply. done.
  - intros (d & i & reply & Hd & <- & Hans & Hsil).
    assert (ask (λ r, negb (q_WrongLeader r)) fuel 0 (λ round i, call round i (mkQueryArgs num)) (servers ck)
            = Some reply) as ->; [|done].
    apply ask_answers. by exists d, i.
Qed.

(** The skeleton server answers every query with the zero configuration, and the
    clerk takes it for the answer. *)
Lemma skeleton_query ck num sc :
  (0 < servers ck)%nat →
  Query 1 (λ _ _ args, Some (snd (sc_Query args zeroQueryReply sc))) num ck = Some zeroConfig.
Proof.
  intros Hn. unfold Query. destruct (servers ck) as [|n]; [lia|done].
Qed.
