(* ===== verification/ShardKv.v ===== *)
(** * ShardKv: the sharded key/value clerk of [src/src/shardkv/]

    The clerk maps a key to its shard, asks the servers of the group that owns
    the shard in the configuration it knows, and asks the controller for a new
    configuration when none of them serves the key.  The server is a skeleton in
    this repository.  The network is a parameter: [call round name args] is the
    outcome of the call to the server [name] in a pass of the clerk's loop. *)
From Stdlib Require Import ZArith Lia Ascii.
From stdpp Require Import base gmap strings option list.
From S2P Require Import Prelude Labgob RaftTypes Raft ShardCtrler.
#[local] Open Scope Z_scope.

(** ** [common.go] *)
Abbreviation Err := string.
Definition OK : Err := "OK".
Definition ErrNoKey : Err := "ErrNoKey".
Definition ErrWrongGroup : Err := "ErrWrongGroup".
Definition ErrWrongLeader : Err := "ErrWrongLeader".

Record PutAppendArgs := mkPutAppendArgs { pa_Key : string; pa_Value : string; pa_Op : string }.
Record PutAppendReply := mkPutAppendReply { pr_Err : Err }.
Record GetArgs := mkGetArgs { ga_Key : string }.
Record GetReply := mkGetReply { gr_Err : Err; gr_Value : string }.

(** ** [client.go] *)

(** The first byte of the key decides. *)
Definition key2shard (key : string) : Z :=
  let shard := match key with
               | EmptyString => 0
               | String c _ => Z.of_N (N_of_ascii c)
               end in
  Z.rem shard (Z.of_nat NShards).

Record Clerk := mkClerk { sm : ShardCtrler.Clerk; config : Config }.

(** The configuration is the zero value: no groups. *)
Definition MakeClerk (ctrlers : nat) : Clerk := mkClerk (ShardCtrler.MakeClerk ctrlers) zeroConfig.

Section Loop.
Context {A : Type} (err : A → Err) (final : Err → bool).

(** The loop over the servers of a group: the reply to return, if there is one.
    [ErrWrongGroup] ends the loop. *)
Fixpoint try_group (call : string → option A) (servers : list string) : option A :=
  match servers with
  | [] => None
  | srv :: servers =>
      match call srv with
      | Some reply =>
          if final (err reply) then Some reply
          else if decide (err reply = ErrWrongGroup) then None
          else try_group call servers
      | None => try_group call servers
      end
  end.

(** The outer loop; [query round] is the configuration [sm.Query(-1)] returns
    after pass [round], [None] if it does not return. *)
Fixpoint request (fuel round : nat) (call : nat → string → option A) (query : nat → option Config)
    (key : string) (ck : Clerk) : outcome (Clerk * A) :=
  match fuel with
  | O => Running
  | S fuel =>
      match at_index (Shards (config ck)) (key2shard key) with
      | None => Panicked
      | Some gid =>
          match (servers ← Groups (config ck) !! gid; try_group (call round) servers) with
          | Some reply => Returned (ck, reply)
          | None =>
              match query round with
              | None => Running
              | Some cfg => request fuel (S round) call query key (mkClerk (sm ck) cfg)
              end
          end
      end
  end.
End Loop.

Definition Get (fuel : nat) (call : nat → string → GetArgs → option GetReply)
    (query : nat → option Config) (key : string) (ck : Clerk) : outcome (Clerk * string) :=
  let args := mkGetArgs key in
  outcome_bind
    (request gr_Err (λ e, bool_decide (e = OK ∨ e = ErrNoKey)) fuel 0
       (λ round name, call round name args) query key ck)
    (λ '(ck, reply), Returned (ck, gr_Value reply)).

Definition PutAppend (fuel : nat) (call : nat → string → PutAppendArgs → option PutAppendReply)
    (query : nat → option Config) (key value op : string) (ck : Clerk) : outcome Clerk :=
  let args := mkPutAppendArgs key value op in
  outcome_bind
    (request pr_Err (λ e, bool_decide (e = OK)) fuel 0
       (λ round name, call round name args) query key ck)
    (λ '(ck, _), Returned ck).

Definition Put fuel call query (key value : string) ck := PutAppend fuel call query key value "Put" ck.
Definition Append fuel call query (key value : string) ck := PutAppend fuel call query key value "Append" ck.

(** [ck.sm.Query(-1)] over a network to the controllers. *)
Definition latest (fuel : nat) (qcall : nat → nat → nat → QueryArgs → option QueryReply) (ck : Clerk)
    (round : nat) : option Config :=
  Query fuel (qcall round) (-1) (sm ck).

(** ** [server.go] *)
Record ShardKV := mkShardKV {
  kv_me : nat;
  kv_rf : Raft unit;
  kv_gid : Z;
  kv_ctrlers : nat;
  kv_maxraftstate : Z
}.

(** The handlers: their bodies are empty. *)
Definition kv_Get (_ : GetArgs) (reply : GetReply) (kv : ShardKV) : ShardKV * GetReply := (kv, reply).
Definition kv_PutAppend (_ : PutAppendArgs) (reply : PutAppendReply) (kv : ShardKV)
  : ShardKV * PutAppendReply := (kv, reply).

Section Server.
Context `{GobStream (PersistentState unit)}.

Definition kv_Kill (kv : ShardKV) : ShardKV :=
  mkShardKV (kv_me kv) (Raft.Kill (kv_rf kv)) (kv_gid kv) (kv_ctrlers kv) (kv_maxraftstate kv).

Definition StartServer (servers me : nat) (ps : Persister) (maxraftstate gid : Z) (ctrlers : nat) (now : Z)
  : option (ShardKV * list Goroutine) :=
  '(rf, gs) ← Raft.Make servers me ps now;
  Some (mkShardKV me rf gid ctrlers maxraftstate, gs).
End Server.

(** ** Routing *)

(** Every key has a shard, decided by its first byte. *)
Lemma key2shard_range key : 0 <= key2shard key < Z.of_nat NShards.
Proof.
  unfold key2shard. destruct key as [|c key]; [by vm_compute|].
  rewrite Z.rem_mod_nonneg; [apply Z.mod_pos_bound; done|lia|done].
Qed.

Definition shards_ok (cfg : Config) : Prop := length (Shards cfg) = NShards.

(** The servers responsible for a key. *)
Definition group_of (cfg : Config) (key : string) : list string :=
  default [] (gid ← at_index (Shards cfg) (key2shard key); Groups cfg !! gid).

Section LoopSpec.
Context {A : Type} (err : A → Err) (final : Err → bool).
Implicit Types (call : nat → string → option A) (query : nat → option Config).

(** A server of the group gives the final answer before any refuses the shard. *)
Definition group_answers (call : string → option A) (servers : list string) (reply : A) : Prop :=
  ∃ before name after, servers = before ++ name :: after ∧ call name = Some reply
    ∧ final (err reply) = true
    ∧ ∀ n r, n ∈ before → call n = Some r → final (err r) = false ∧ err r ≠ ErrWrongGroup.

Lemma try_group_answers (call : string → option A) servers reply :
  try_group err final call servers = Some reply ↔ group_answers call servers reply.
Proof.
  induction servers as [|srv servers IH]; cbn.
  { split; [done|]. intros (before & name & after & Hs & _). by destruct before. }
  assert ((∀ r, call srv = Some r → final (err r) = false ∧ err r ≠ ErrWrongGroup) →
    (try_group err final call servers = Some reply ↔ group_answers call (srv :: servers) reply)) as Hnext.
  { intros Hsrv. rewrite IH. split.
    - intros (before & name & after & -> & Hc & Hf & Hb). exists (srv :: before), name, after.
      split_and!; try done. intros n r [->|Hn]%elem_of_cons; [apply Hsrv|by apply Hb].
    - intros ([|s0 before] & name & after & [= -> ->] & Hc & Hf & Hb).
      + destruct (Hsrv _ Hc). congruence.
      + exists before, name, after. split_and!; try done. intros n r Hn. apply Hb. by right. }
  assert (∀ r, call srv = Some r → final (err r) = true ∨ err r = ErrWrongGroup →
    group_answers call (srv :: servers) reply → final (err r) = true ∧ reply = r) as Hfirst.
  { intros r Hr Hor ([|s0 before] & name & after & [= -> ->] & Hc & Hf & Hb).
    - rewrite Hr in Hc. injection Hc as ->. done.
    - destruct (Hb _ _ ltac:(left) Hr). destruct Hor; congruence. }
  destruct (call srv) as [r|] eqn:Hr; [|by apply Hnext].
  destruct (final (err r)) eqn:Hf.
  - split; [|intros Hg; by destruct (Hfirst r eq_refl (or_introl Hf) Hg) as [_ ->]].
    intros [= <-]. exists [], srv, servers. split_and!; try done. by intros ? ? ?%not_elem_of_nil.
  - case_decide as Hw; [|apply Hnext; intros ? [= <-]; done].
    split; [done|]. intros Hg. destruct (Hfirst r eq_refl (or_intror Hw) Hg). congruence.
Qed.

(** The configuration in use in pass [round]. *)
Definition config_at query (ck : Clerk) (round : nat) : option Config :=
  match round with O => Some (config ck) | S r => query r end.

(** What a request returns came from a server of the group that owns the key in
    the configuration then in use. *)
Lemma request_routed fuel round call query key ck ck' reply :
  request err final fuel round call query key ck = Returned (ck', reply) →
  ∃ d, (d < fuel)%nat
    ∧ config_at (λ r, query (round + r)%nat) ck d = Some (config ck')
    ∧ group_answers (call (round + d)%nat) (group_of (config ck') key) reply.
Proof.
  revert round ck. induction fuel as [|fuel IH]; intros round ck Hr; cbn [request] in Hr; [done|].
  destruct (at_index (Shards (config ck)) (key2shard key)) as [gid|] eqn:Hgid; [|done].
  destruct (servers ← Groups (config ck) !! gid; try_group err final (call round) servers) as [r|] eqn:Htry.
  - injection Hr as <- <-. exists 0%nat. rewrite Nat.add_0_r. split_and!; [lia|done|].
    unfold group_of. rewrite Hgid. cbn. destruct (Groups (config ck) !! gid) as [servers|]; [|done].
    by apply try_group_answers.
  - destruct (query round) as [cfg|] eqn:Hq; [|done].
    destruct (IH _ _ Hr) as (d & Hd & Hcfg & Hg). exists (S d). split_and!; [lia| |by rewrite Nat.add_succ_r].
    destruct d as [|d]; cbn in *; [by rewrite Nat.add_0_r, Hq|by rewrite Nat.add_succ_r].
Qed.

(** A request ends one pass after the controllers give a configuration whose
    group serves the key. *)
Lemma request_ends R round call query key ck cfg reply :
  shards_ok (config ck) →
  (∀ r, (r <= R)%nat → ∃ c, query (round + r)%nat = Some c ∧ shards_ok c) →
  query (round + R)%nat = Some cfg →
  group_answers (call (round + S R)%nat) (group_of cfg key) reply →
  ∃ ck' reply', request err final (S (S R)) round call query key ck = Returned (ck', reply').
Proof.
  revert round ck. induction R as [|R IH]; intros round ck Hok Hq Hcfg Hg;
    match goal with |- context [request _ _ (S ?F)] => set (fuel := F) end; cbn [request];
    pose proof (key2shard_range key) as Hrange;
    (destruct (at_index_lt (Shards (config ck)) (key2shard key)) as [gid Hgid];
      [unfold len; by rewrite Hok|]); rewrite Hgid;
    (destruct (servers ← Groups (config ck) !! gid; try_group err final (call round) servers) as [r|];
      [by eauto|]).
  - rewrite Nat.add_0_r in Hcfg. rewrite Hcfg. destruct (Hq 0%nat) as (c & Hc & Hcok); [lia|].
    rewrite Nat.add_0_r in Hc. assert (c = cfg) as -> by congruence. subst fuel. cbn [request].
    destruct (at_index_lt (Shards cfg) (key2shard key)) as [gid' Hgid']; [unfold len; by rewrite Hcok|].
    cbn [config]. rewrite Hgid'. unfold group_of in Hg. rewrite Hgid' in Hg. cbn [mbind option_bind] in Hg |- *.
    destruct (Groups cfg !! gid') as [servers|]; cbn in Hg |- *.
    + rewrite Nat.add_1_r in Hg. apply try_group_answers in Hg. rewrite Hg. by eauto.
    + destruct Hg as (before & ? & ? & Hnil & _). by destruct before.
  - destruct (Hq 0%nat) as (c & Hc & Hcok); [lia|]. rewrite Nat.add_0_r in Hc. rewrite Hc.
    destruct (IH (S round) (mkClerk (sm ck) c)) as (ck' & reply' & Hr); [done| | | |by eauto].
    + intros r Hle. destruct (Hq (S r)) as (c' & Hc' & ?); [lia|]. exists c'.
      by rewrite Nat.add_succ_r in Hc'.
    + by rewrite Nat.add_succ_r in Hcfg.
    + by rewrite Nat.add_succ_r in Hg.
Qed.
End LoopSpec.

(** ** The clerk *)

(** A value returned by [Get] is the reply, to this key, of a server of the group
    that owns the key's shard, in the configuration the clerk had or the one the
    controllers gave it after the pass before. *)
Theorem Get_routed fuel call query key ck ck' v :
  Get fuel call query key ck = Returned (ck', v) →
  ∃ round name reply, (round < fuel)%nat ∧ config_at query ck round = Some (config ck')
    ∧ name ∈ group_of (config ck') key ∧ call round name (mkGetArgs key) = Some reply
    ∧ (gr_Err reply = OK ∨ gr_Err reply = ErrNoKey) ∧ gr_Value reply = v.
Proof.
  unfold Get. destruct (request _ _ _ _ _ _ _ _) as [[ck1 reply]| |] eqn:Hr; cbn; try done.
  intros [= <- <-]. apply request_routed in Hr as (d & Hd & Hcfg & before & name & after & Hs & Hc & Hf & _).
  apply bool_decide_eq_true in Hf. exists d, name, reply. split_and!; try done.
  rewrite Hs. apply elem_of_app. right. by left.
Qed.

(** C28: If after some pass the controllers give a configuration whose group serves the
    key, a [Put] or [Append] ends in the next pass at the latest. *)
Theorem PutAppend_ends R call query key value op ck cfg :
  shards_ok (config ck) →
  (∀ r, (r <= R)%nat → ∃ c, query r = Some c ∧ shards_ok c) →
  query R = Some cfg →
  (∃ before name after, group_of cfg key = before ++ name :: after
    ∧ call (S R) name (mkPutAppendArgs key value op) = Some (mkPutAppendReply OK)
    ∧ ∀ n r, n ∈ before → call (S R) n (mkPutAppendArgs key value op) = Some r →
        pr_Err r = ErrWrongLeader) →
  ∃ ck', PutAppend (S (S R)) call query key value op ck = Returned ck'.
Proof.
  intros Hok Hq Hcfg (before & name & after & Hg & Hc & Hb). unfold PutAppend.
  destruct (request_ends pr_Err (λ e, bool_decide (e = OK)) R 0
    (λ round name, call round name (mkPutAppendArgs key value op)) query key ck cfg (mkPutAppendReply OK))
    as (ck' & reply & Hr); [done|done|done| |].
  - exists before, name, after. split_and!; try done. intros n r Hn Hr.
    by rewrite (Hb n r Hn Hr).
  - exists ck'. by rewrite Hr.
Qed.

(** With the skeleton controllers the clerk never learns of a group: it sends
    nothing to the key/value servers and does not return. *)
Lemma skeleton_never_serves fuel call key n :
  Get fuel call (λ _, Some zeroConfig) key (MakeClerk n) = Running.
Proof.
  unfold Get. assert (∀ A (err : A → Err) final round c sm',
    request err final fuel round c (λ _, Some zeroConfig) key (mkClerk sm' zeroConfig) = Running) as Hrun.
  { intros A err final round c sm'. revert round. induction fuel as [|fuel IH]; intros round; [done|].
    cbn [request config]. pose proof (key2shard_range key).
    destruct (at_index_lt (Shards zeroConfig) (key2shard key)) as [gid Hgid]; [done|].
    rewrite Hgid. cbn [Groups zeroConfig]. rewrite lookup_empty. apply IH. }
  unfold MakeClerk. by rewrite Hrun.
Qed.

(** ** A concrete run *)

(** Group 7 owns every shard from the first query on; its server [a] is not the
    leader, [b] is. *)
Definition cfg7 : Config := mkConfig 1 (replicate NShards 7) {[7 := ["a"; "b"]%string]}.
Definition query7 : nat → option Config := λ _, Some cfg7.
Definition get7 (round : nat) (name : string) (args : GetArgs) : option GetReply :=
  if decide (name = "b"%string) then Some (mkGetReply OK "v") else Some (mkGetReply ErrWrongLeader "").
Definition put7 (round : nat) (name : string) (args : PutAppendArgs) : option PutAppendReply :=
  if decide (name = "b"%string) then Some (mkPutAppendReply OK) else Some (mkPutAppendReply ErrWrongLeader).

Lemma Get_routed_witness :
  ∃ round name reply, config_at query7 (MakeClerk 3) round = Some cfg7
    ∧ name ∈ group_of cfg7 "k" ∧ get7 round name (mkGetArgs "k") = Some reply.
Proof.
  assert (Get 2 get7 query7 "k" (MakeClerk 3) = Returned (mkClerk (ShardCtrler.MakeClerk 3) cfg7, "v"%string)) as Hr
    by (vm_compute; reflexivity).
  destruct (Get_routed 2 get7 query7 "k" (MakeClerk 3) _ _ Hr) as (round & name & reply & _ & Hc & Hn & Hg & _).
  exists round, name, reply. split; [exact Hc|split; [exact Hn|exact Hg]].
Defined.

Lemma PutAppend_ends_witness :
  ∃ ck', PutAppend 2 put7 query7 "k" "v" "Put" (MakeClerk 3) = Returned ck'.
Proof.
  apply (PutAppend_ends 0 put7 query7 "k" "v" "Put" (MakeClerk 3) cfg7).
  - reflexivity.
  - intros r _. exists cfg7. split; reflexivity.
  - reflexivity.
  - exists ["a"%string], "b"%string, []. split; [vm_compute; reflexivity|].
    split; [reflexivity|]. intros m r Hm Hr. apply list_elem_of_singleton in Hm. subst m.
    vm_compute in Hr. injection Hr as <-. reflexivity.
Defined.
