(* ===== verification/CtrlHarness.v ===== *)
(** * CtrlHarness: the harness of the tests of [src/src/shardctrler]

    [config.go] of the package is a copy of the one of [kvraft], so its functions
    are those of [ServiceHarness] for shard controllers.  It has no
    [maxraftstate]; that field of [config] is 0 and not used. *)
From stdpp Require Import base gmap strings list_numbers option list.
From Stdlib Require Import ZArith Lia.
From S2P Require Import Prelude Labgob GoStrings Labrpc RaftTypes Raft RaftNode ShardCtrler RaftHarness ServiceHarness ServiceNet ServiceLife ServiceTests.
#[local] Open Scope Z_scope.
#[local] Open Scope go_scope.

Section CtrlHarness.
Context `{GobStream (PersistentState ShardCtrler.Op)}.
Context {rtype : Type} (svc_rcvr rf_rcvr : nat → Rcvr rtype).
Notation config := (config ShardCtrler ShardCtrler.Clerk rtype).
Implicit Types (cfg : config) (i ck : nat).

#[export] Instance ctrl_service : Service ShardCtrler ShardCtrler.Op ShardCtrler.Clerk := {|
  svc_rf := rf;
  svc_Start := λ servers me ps _ now, fst <$> ShardCtrler.StartServer servers me ps now;
  svc_Kill := sc_Kill;
  svc_MakeClerk := λ servers _, ShardCtrler.MakeClerk servers
|}.

Fixpoint Leader_loop (js : list nat) (cfg : config) : result (bool * nat) :=
  match js with
  | [] => Ok (false, 0%nat)
  | i :: js =>
      o ← or_panic (kvservers cfg !! i);
      match o with
      | Some o =>
          '(_, is_leader) ← state_of o cfg;
          if is_leader : bool then Ok (true, i) else Leader_loop js cfg
      | None => Leader_loop js cfg
      end
  end.

(** The first server that says it leads; nil servers are skipped. *)
Definition Leader (cfg : config) : result (bool * nat) := Leader_loop (seq 0 (cfg_n cfg)) cfg.

(** The functions the package has in common with [kvraft]. *)
Definition connectUnlocked i to cfg : result config := ServiceHarness.connectUnlocked i to cfg.
Definition disconnectUnlocked i from cfg : result config := ServiceHarness.disconnectUnlocked i from cfg.
Definition All cfg : list nat := ServiceHarness.All cfg.
Definition ConnectAll cfg : result config := ServiceHarness.ConnectAll cfg.
Definition partition p1 p2 cfg : result config := ServiceHarness.partition p1 p2 cfg.
Definition make_partition (n l : nat) : result (list nat * list nat) := ServiceHarness.make_partition n l.
Definition random_handles {A} draw (kvh : list A) : result (list A) := ServiceHarness.random_handles draw kvh.
Definition makeClient names draw to cfg : result (config * nat) := ServiceHarness.makeClient names draw 0 to cfg.
Definition deleteClient ck cfg : config := ServiceHarness.deleteClient ck cfg.
Definition ConnectClientUnlocked ck to cfg : result config := ServiceHarness.ConnectClientUnlocked ck to cfg.
Definition DisconnectClientUnlocked ck from cfg : result config := ServiceHarness.DisconnectClientUnlocked ck from cfg.
Definition ShutdownServer i cfg : result config := ServiceHarness.ShutdownServer i cfg.
Definition StartServer i names now cfg : result config := ServiceHarness.StartServer svc_rcvr rf_rcvr i names now cfg.
Definition LogSize cfg : result Z := ServiceHarness.LogSize cfg.
Definition make_config unreliable now starts : result config :=
  ServiceHarness.make_config svc_rcvr rf_rcvr unreliable 0 now starts.
Definition checkTimeout failed now cfg : result unit := ServiceHarness.checkTimeout failed now cfg.
Definition cleanup failed now cfg : result config := ServiceHarness.cleanup failed now cfg.
End CtrlHarness.

Section CtrlLaws.
Context `{GobLaws (PersistentState ShardCtrler.Op)}.

(** What a controller does: its handlers leave it as it is. *)
Inductive ctrl_step (sc : ShardCtrler) : ShardCtrler → Prop :=
  | ctrl_raft op rf' : exec_op op (rf sc) = Some rf' → ctrl_step sc (mkShardCtrler (sc_me sc) rf' (configs sc))
  | ctrl_join args reply : ctrl_step sc (fst (sc_Join args reply sc))
  | ctrl_leave args reply : ctrl_step sc (fst (sc_Leave args reply sc))
  | ctrl_move args reply : ctrl_step sc (fst (sc_Move args reply sc))
  | ctrl_query args reply : ctrl_step sc (fst (sc_Query args reply sc)).

#[export] Instance ctrl_laws : ServiceLaws ShardCtrler ShardCtrler.Op ShardCtrler.Clerk.
Proof.
  refine {| svc_step := ctrl_step |}.
  - intros n i ps size now. cbn. unfold ShardCtrler.StartServer. by destruct (Make n i ps now) as [[rf gs]|].
  - done.
  - intros s s' [op rf' Hx|args reply|args reply|args reply|args reply] Hd; try done. by eapply exec_op_durable.
Defined.

(** ** The leader *)
Context {rtype : Type} (svc_rcvr rf_rcvr : nat → Rcvr rtype).
Notation config := (config ShardCtrler ShardCtrler.Clerk rtype).

(** [Leader] gives the first server that runs and leads, if any; it never panics. *)
Lemma ctrl_Leader_Ok n (cfg : config) :
  service_reach svc_rcvr rf_rcvr n cfg → Leader cfg = Ok (first_leader cfg (seq 0 n)).
Proof.
  intros Hi%service_reach_invariant. unfold Leader. destruct (w_n _ _ (i_wired _ _ _ _ Hi)) as [-> _].
  destruct (h_len _ _ (h_kept _ _ _ _ (i_healthy _ _ _ _ Hi))) as [Hlk _].
  assert (∀ js, (∀ j, j ∈ js → (j < n)%nat) → Leader_loop js cfg = Ok (first_leader cfg js)) as Hall.
  { induction js as [|i js IH]; intros Hjs; [done|]. rewrite first_leader_cons. cbn [Leader_loop].
    assert (i < n)%nat as Hin by (apply Hjs; left). assert (∀ j, j ∈ js → (j < n)%nat) as Hjs' by (intros j Hj; apply Hjs; by right).
    destruct (lookup_lt_is_Some_2 (kvservers cfg) i) as [[o|] Ho]; [lia| |]; rewrite Ho; cbn [or_panic mbind result_bind].
    - destruct (state_of_live _ _ n cfg i o Hi Ho) as [t ->]. cbn [mbind result_bind].
      destruct (leads cfg i); [done|by apply IH].
    - unfold leads. rewrite Ho. by apply IH. }
  apply Hall. intros j ?%elem_of_seq. lia.
Qed.
End CtrlLaws.
