(* ===== verification/ShardHarness.v ===== *)
(** * ShardHarness: the harness of the tests of [src/src/shardkv]

    [config.go] of the sharded service: groups of key/value servers
    ([StartServer], [ShutdownServer], [StartGroup], [ShutdownGroup]), the shard
    controllers ([StartCtrlerService]), clerks with the function that makes ends
    for them ([makeClient], [make_end]), what [join] and [leave] tell the
    controllers, and [checklogs].

    Names drawn by [randstring], the clock and what [reflect] says of a server
    are arguments.  Servers of the network have names that are strings. *)
From S2P Require Import Prelude Labgob GoStrings Labrpc RaftTypes Raft ShardCtrler ShardKv RaftHarness ServiceHarness.
From stdpp Require Import base gmap strings pretty list_numbers option list.
From Stdlib Require Import ZArith Lia.
#[local] Open Scope Z_scope.
#[local] Open Scope go_scope.

Record group := mkGroup {
  gid : Z;
  servers : list (option nat);
  saved : list (option SavedRef);
  endnames : list (option (list string));     (* None is a nil slice *)
  mendnames : list (option (list string))
}.

#[export] Instance upd_servers : Upd servers := fun x g => mkGroup (gid g) x (saved g) (endnames g) (mendnames g).
#[export] Instance upd_saved : Upd saved := fun x g => mkGroup (gid g) (servers g) x (endnames g) (mendnames g).
#[export] Instance upd_endnames : Upd endnames := fun x g => mkGroup (gid g) (servers g) (saved g) x (mendnames g).
#[export] Instance upd_mendnames : Upd mendnames := fun x g => mkGroup (gid g) (servers g) (saved g) (endnames g) x.

(** A replicated shardctrler service; its clerk has its ends. *)
Record ctrler := mkCtrler {
  ctl_n : nat;
  ctl_servers : list (option nat);
  ctl_names : list string;
  ctl_ck : option (ShardCtrler.Clerk * list string)
}.

Record config {rtype : Type} := mkConfig {
  cfg_net : Network NetName;
  kv_objects : list ShardKV;                  (* every group server that was started *)
  ctrl_objects : list ShardCtrler;            (* every controller that was started *)
  heap : list (Labrpc.Server rtype);
  start : Z;
  ctl : ctrler;
  ngroups : nat;
  cfg_n : nat;
  groups : list (option group);               (* None is a nil pointer *)
  clerk_objects : list (ShardKv.Clerk * list string);
  clerks : gmap nat (list string);
  nextClientId : Z;
  cfg_maxraftstate : Z
}.
Arguments config : clear implicits.
Arguments mkConfig {rtype} _ _ _ _ _ _ _ _ _ _ _ _ _.

Section Updates.
Context {rtype : Type}.
Notation config := (config rtype).
#[export] Instance upd_cfg_net : Upd (R := config) cfg_net := fun x r =>
  mkConfig x (kv_objects r) (ctrl_objects r) (heap r) (start r) (ctl r) (ngroups r) (cfg_n r) (groups r) (clerk_objects r) (clerks r) (nextClientId r) (cfg_maxraftstate r).
#[export] Instance upd_kv_objects : Upd (R := config) kv_objects := fun x r =>
  mkConfig (cfg_net r) x (ctrl_objects r) (heap r) (start r) (ctl r) (ngroups r) (cfg_n r) (groups r) (clerk_objects r) (clerks r) (nextClientId r) (cfg_maxraftstate r).
#[export] Instance upd_ctrl_objects : Upd (R := config) ctrl_objects := fun x r =>
  mkConfig (cfg_net r) (kv_objects r) x (heap r) (start r) (ctl r) (ngroups r) (cfg_n r) (groups r) (clerk_objects r) (clerks r) (nextClientId r) (cfg_maxraftstate r).
#[export] Instance upd_heap : Upd (R := config) heap := fun x r =>
  mkConfig (cfg_net r) (kv_objects r) (ctrl_objects r) x (start r) (ctl r) (ngroups r) (cfg_n r) (groups r) (clerk_objects r) (clerks r) (nextClientId r) (cfg_maxraftstate r).
#[export] Instance upd_ctl : Upd (R := config) ctl := fun x r =>
  mkConfig (cfg_net r) (kv_objects r) (ctrl_objects r) (heap r) (start r) x (ngroups r) (cfg_n r) (groups r) (clerk_objects r) (clerks r) (nextClientId r) (cfg_maxraftstate r).
#[export] Instance upd_groups : Upd (R := config) groups := fun x r =>
  mkConfig (cfg_net r) (kv_objects r) (ctrl_objects r) (heap r) (start r) (ctl r) (ngroups r) (cfg_n r) x (clerk_objects r) (clerks r) (nextClientId r) (cfg_maxraftstate r).
#[export] Instance upd_clerk_objects : Upd (R := config) clerk_objects := fun x r =>
  mkConfig (cfg_net r) (kv_objects r) (ctrl_objects r) (heap r) (start r) (ctl r) (ngroups r) (cfg_n r) (groups r) x (clerks r) (nextClientId r) (cfg_maxraftstate r).
#[export] Instance upd_clerks : Upd (R := config) clerks := fun x r =>
  mkConfig (cfg_net r) (kv_objects r) (ctrl_objects r) (heap r) (start r) (ctl r) (ngroups r) (cfg_n r) (groups r) (clerk_objects r) x (nextClientId r) (cfg_maxraftstate r).
#[export] Instance upd_nextClientId : Upd (R := config) nextClientId := fun x r =>
  mkConfig (cfg_net r) (kv_objects r) (ctrl_objects r) (heap r) (start r) (ctl r) (ngroups r) (cfg_n r) (groups r) (clerk_objects r) (clerks r) x (cfg_maxraftstate r).
End Updates.

Section ShardHarness.
Context `{GobStream (PersistentState unit)}.
Context {rtype : Type}.
Notation config := (config rtype).
Implicit Types (cfg : config) (gg : group) (c : ctrler) (gi i j ck : nat).

(** What [reflect] says of a group server, a controller, and their [rf]. *)
Context (kv_rcvr kv_rf_rcvr ctrl_rcvr ctrl_rf_rcvr : nat → Rcvr rtype).

(** ** Names *)
Definition ctrlername i c : result NetName := name ← or_panic (ctl_names c !! i); Ok (inl name).

(** [strconv.Itoa] is the decimal notation. *)
Definition servername (gid : Z) i : string :=
  "server-" +:+ pretty gid +:+ "-" +:+ pretty (Z.of_nat i).

(** ** Ends *)

(** A new end [name], connected to [server] and enabled.  Clerks and group
    servers get this function to make ends with. *)
Definition open_end (name : string) (server : NetName) (rn : Network NetName) : result (Network NetName) :=
  '(rn, _) ← MakeEnd (inl name) rn;
  Ok (Enable (inl name) true (Connect (inl name) server rn)).

Definition make_end (name : string) (server : string) cfg : result config :=
  rn ← open_end name (inl server) (cfg_net cfg);
  Ok (cfg <| cfg_net := rn |>).

(** A loop over servers that makes one end for each. *)
Fixpoint open_ends (target : nat → result NetName) j (names : list string) (rn : Network NetName)
    : result (Network NetName) :=
  match names with
  | [] => Ok rn
  | name :: names =>
      server ← target j;
      rn ← open_end name server rn;
      open_ends target (S j) names rn
  end.

(** The loop of [makeClient]: [endnames] has a slot for each server of a group. *)
Fixpoint client_ends c j (names : list string) (endnames : list string) (rn : Network NetName)
    : result (list string * Network NetName) :=
  match names with
  | [] => Ok (endnames, rn)
  | name :: names =>
      endnames ← set_at j name endnames;
      server ← ctrlername j c;
      rn ← open_end name server rn;
      client_ends c (S j) names endnames rn
  end.

(** [names] are the [ctl.n] names drawn; returns the clerk, the index of its
    object. *)
Definition makeClient (names : list string) c cfg : result (config * nat) :=
  '(endnames, rn) ← client_ends c 0 names (replicate (cfg_n cfg) "") (cfg_net cfg);
  let cfg := cfg <| cfg_net := rn |> in
  let ck := length (clerk_objects cfg) in
  let cfg := cfg <| clerk_objects := clerk_objects cfg ++ [(ShardKv.MakeClerk (length names), names)] |> in
  let cfg := cfg <| clerks := <[ck := endnames]> (clerks cfg) |> in
  Ok (cfg <| nextClientId := nextClientId cfg + 1 |>, ck).

(** The files it removes do not exist. *)
Definition deleteClient ck cfg : config := cfg <| clerks := delete ck (clerks cfg) |>.

(** ** Group servers that start and stop *)
Definition group_at gi cfg : result group := gg ← or_panic (groups cfg !! gi); or_panic gg.

Definition set_group gi gg cfg : result config :=
  gs ← set_at gi (Some gg) (groups cfg);
  Ok (cfg <| groups := gs |>).

(** What a persister holds now. *)
Definition contents (r : SavedRef) cfg : result Persister :=
  match r with
  | Owned ps => Ok ps
  | Of o => s ← or_panic (kv_objects cfg !! o); Ok (persister (kv_rf s))
  end.

(** [gg.saved[i] = gg.saved[i].Copy()], unless it is nil. *)
Definition copy_saved i gg cfg : result group :=
  ref ← or_panic (saved gg !! i);
  match ref with
  | None => Ok gg
  | Some ref =>
      ps ← contents ref cfg;
      saved' ← set_at i (Some (Owned (Copy ps))) (saved gg);
      Ok (gg <| saved := saved' |>)
  end.

(** [gg.endnames[i][j]] for [j] below [m] are disabled; a nil slice has none. *)
Definition disable_row (row : option (list string)) (m : nat) (rn : Network NetName) : result (Network NetName) :=
  for_each (λ j rn, name ← or_panic (default [] row !! j); Ok (Enable (inl name) false rn)) (seq 0 m) rn.

Definition ShutdownServer gi i cfg : result config :=
  gg ← group_at gi cfg;
  (* the row is read in the body of the loop *)
  row ← (if decide (length (servers gg) = 0%nat) then Ok None else or_panic (endnames gg !! i));
  rn ← disable_row row (length (servers gg)) (cfg_net cfg);
  mrow ← or_panic (mendnames gg !! i);
  rn ← disable_row mrow (length (default [] mrow)) rn;
  let cfg := cfg <| cfg_net := DeleteServer (inl (servername (gid gg) i)) rn |> in
  gg ← copy_saved i gg cfg;
  o ← or_panic (servers gg !! i);
  match o with
  | None => set_group gi gg cfg
  | Some o =>
      s ← or_panic (kv_objects cfg !! o);
      let cfg := cfg <| kv_objects := <[o := kv_Kill s]> (kv_objects cfg) |> in
      servers' ← set_at i None (servers gg);
      set_group gi (gg <| servers := servers' |>) cfg
  end.

Definition ShutdownGroup gi cfg : result config :=
  for_each (λ i cfg, ShutdownServer gi i cfg) (seq 0 (cfg_n cfg)) cfg.

(** The services of a server and of its [rf] on a new server of labrpc. *)
Definition add_services (name : NetName) (svc rf : Rcvr rtype) cfg : config :=
  let srv := AddService (MakeService rf) (AddService (MakeService svc) MakeServer) in
  let ptr := length (heap cfg) in
  let cfg := cfg <| heap := heap cfg ++ [srv] |> in
  cfg <| cfg_net := AddServer name ptr (cfg_net cfg) |>.

(** [names] are the [cfg.n] names drawn for the ends to the group, [mnames] the
    [ctl.n] names for the ends to the controllers, [now] the time in [Make]. *)
Definition StartServer gi i (names mnames : list string) (now : Z) cfg : result config :=
  gg ← group_at gi cfg;
  endnames' ← set_at i (Some names) (endnames gg);
  let gg := gg <| endnames := endnames' |> in
  rn ← open_ends (λ j, Ok (inl (servername (gid gg) j))) 0 names (cfg_net cfg);
  mendnames' ← set_at i (Some mnames) (mendnames gg);
  let gg := gg <| mendnames := mendnames' |> in
  rn ← open_ends (λ j, ctrlername j (ctl cfg)) 0 mnames rn;
  let cfg := cfg <| cfg_net := rn |> in
  ref ← or_panic (saved gg !! i);
  gg ← (match ref with
        | Some _ => copy_saved i gg cfg
        | None => saved' ← set_at i (Some (Owned MakePersister)) (saved gg); Ok (gg <| saved := saved' |>)
        end);
  ref ← or_panic (saved gg !! i);
  ref ← or_panic ref;
  ps ← contents ref cfg;
  '(s, _) ← or_panic (ShardKv.StartServer (cfg_n cfg) i ps (cfg_maxraftstate cfg) (gid gg) (ctl_n (ctl cfg)) now);
  let o := length (kv_objects cfg) in
  let cfg := cfg <| kv_objects := kv_objects cfg ++ [s] |> in
  saved' ← set_at i (Some (Of o)) (saved gg);
  servers' ← set_at i (Some o) (servers gg);
  let gg := gg <| saved := saved' |> <| servers := servers' |> in
  cfg ← set_group gi gg cfg;
  Ok (add_services (inl (servername (gid gg) i)) (kv_rcvr o) (kv_rf_rcvr o) cfg).

(** [draws] has the names and the time for each server of the group. *)
Fixpoint StartGroup_loop gi i (draws : list (list string * list string * Z)) cfg : result config :=
  match draws with
  | [] => Ok cfg
  | (names, mnames, now) :: draws =>
      cfg ← StartServer gi i names mnames now cfg;
      StartGroup_loop gi (S i) draws cfg
  end.

Definition StartGroup gi (draws : list (list string * list string * Z)) cfg : result config :=
  StartGroup_loop gi 0 draws cfg.

(** ** The controllers *)
Definition StartCtrlerServer i (names : list string) (now : Z) c cfg : result (ctrler * config) :=
  rn ← open_ends (λ j, ctrlername j c) 0 names (cfg_net cfg);
  let cfg := cfg <| cfg_net := rn |> in
  let p := MakePersister in
  '(s, _) ← or_panic (ShardCtrler.StartServer (ctl_n c) i p now);
  let o := length (ctrl_objects cfg) in
  let cfg := cfg <| ctrl_objects := ctrl_objects cfg ++ [s] |> in
  servers' ← set_at i (Some o) (ctl_servers c);
  let c := mkCtrler (ctl_n c) servers' (ctl_names c) (ctl_ck c) in
  name ← ctrlername i c;
  Ok (c, add_services name (ctrl_rcvr o) (ctrl_rf_rcvr o) cfg).

Definition ctrlerclerk (names : list string) c cfg : result (ShardCtrler.Clerk * list string * config) :=
  rn ← open_ends (λ j, ctrlername j c) 0 names (cfg_net cfg);
  Ok (ShardCtrler.MakeClerk (length names), names, cfg <| cfg_net := rn |>).

Fixpoint start_ctrlers i (draws : list (list string * Z)) c cfg : result (ctrler * config) :=
  match draws with
  | [] => Ok (c, cfg)
  | (names, now) :: draws =>
      '(c, cfg) ← StartCtrlerServer i names now c cfg;
      start_ctrlers (S i) draws c cfg
  end.

(** [rands] are the draws in the names of the three controllers, [draws] those of
    their ends, [names] those of the clerk. *)
Definition StartCtrlerService (rands : list string) (draws : list (list string * Z)) (names : list string) cfg
    : result config :=
  let c := mkCtrler 3 (replicate 3 None) ((λ r, "ctlr-" +:+ r) <$> rands) None in
  '(c, cfg) ← start_ctrlers 0 draws c cfg;
  '(ck, ends, cfg) ← ctrlerclerk names c cfg;
  Ok (cfg <| ctl := mkCtrler (ctl_n c) (ctl_servers c) (ctl_names c) (Some (ck, ends)) |>).

(** ** Joining and leaving *)

(** What [joinm] tells the controllers: the servers of each group. *)
Definition joinm_groups (gis : list nat) cfg : result (gmap Z (list string)) :=
  for_each (λ g m,
      gg ← group_at g cfg;
      let servernames := servername (gid gg) <$> seq 0 (cfg_n cfg) in
      Ok (<[gid gg := servernames]> m)) gis ∅.

(** A call of the clerk over a network; [None] while it has no answer. *)
Definition joinm (fuel : nat) (call : nat → nat → JoinArgs → option JoinReply) (gis : list nat) c cfg
    : result (option unit) :=
  m ← joinm_groups gis cfg;
  ck ← or_panic (ctl_ck c);
  Ok (ShardCtrler.Join fuel call m (fst ck)).

Definition join (fuel : nat) call (gi : nat) cfg : result (option unit) := joinm fuel call [gi] (ctl cfg) cfg.
Definition ctljoin (fuel : nat) call (gi : nat) c cfg : result (option unit) := joinm fuel call [gi] c cfg.

Definition leavem_gids (gis : list nat) cfg : result (list Z) :=
  for_each (λ g gids, gg ← group_at g cfg; Ok (gids ++ [gid gg])) gis [].

Definition leavem (fuel : nat) (call : nat → nat → LeaveArgs → option LeaveReply) (gis : list nat) cfg
    : result (option unit) :=
  gids ← leavem_gids gis cfg;
  ck ← or_panic (ctl_ck (ctl cfg));
  Ok (ShardCtrler.Leave fuel call gids (fst ck)).

Definition leave (fuel : nat) call (gi : nat) cfg : result (option unit) := leavem fuel call [gi] cfg.

(** ** Checks *)
Definition size_msg (raft maxraftstate : Z) : string :=
  "persister.RaftStateSize() " +:+ pretty raft +:+ ", but maxraftstate " +:+ pretty maxraftstate.

Definition checklog gi i cfg : result unit :=
  gg ← group_at gi cfg;
  ref ← or_panic (saved gg !! i);
  ref ← or_panic ref;
  ps ← contents ref cfg;
  let raft := RaftStateSize ps in
  let snap := len (ReadSnapshot ps) in
  if decide (cfg_maxraftstate cfg >= 0 ∧ raft > 8 * cfg_maxraftstate cfg)
  then Fatal (size_msg raft (cfg_maxraftstate cfg))
  else if decide (cfg_maxraftstate cfg < 0 ∧ snap > 0)
  then Fatal "maxraftstate is -1, but snapshot is non-empty!"
  else Ok tt.

(** No server's log is too big. *)
Definition checklogs cfg : result unit :=
  for_each (λ gi _, for_each (λ i _, checklog gi i cfg) (seq 0 (cfg_n cfg)) tt) (seq 0 (ngroups cfg)) tt.

(** Two minutes of real time, in nanoseconds. *)
Definition checkTimeout (failed : bool) (now : Z) cfg : result unit :=
  if negb failed && bool_decide (now - start cfg > 120 * 1000 * millisecond)
  then Fatal "test took longer than 120 seconds" else Ok tt.

(** All servers are killed; [rn.Cleanup] only ends the goroutine of the network. *)
Definition cleanup (failed : bool) (now : Z) cfg : result config :=
  cfg ← for_each (λ gi cfg, ShutdownGroup gi cfg) (seq 0 (ngroups cfg)) cfg;
  cfg ← for_each (λ i cfg,
      o ← or_panic (ctl_servers (ctl cfg) !! i);
      o ← or_panic o;
      s ← or_panic (ctrl_objects cfg !! o);
      Ok (cfg <| ctrl_objects := <[o := sc_Kill s]> (ctrl_objects cfg) |>)) (seq 0 (ctl_n (ctl cfg))) cfg;
  _ ← checkTimeout failed now cfg;
  Ok cfg.

(** ** The start of a test *)
Definition new_group (n ctl_n gi : nat) : group :=
  mkGroup (100 + Z.of_nat gi) (replicate n None) (replicate n None) (replicate n None) (replicate ctl_n None).

(** The loop over the groups: each is made, then its servers are started. *)
Fixpoint start_groups gi (draws : list (list (list string * list string * Z))) cfg : result config :=
  match draws with
  | [] => Ok cfg
  | d :: draws =>
      cfg ← set_group gi (new_group (cfg_n cfg) (ctl_n (ctl cfg)) gi) cfg;
      cfg ← StartGroup gi d cfg;
      start_groups (S gi) draws cfg
  end.

(** The numbers of groups and servers, which the controllers do not look at, are
    there from the start. *)
Definition make_config (n : nat) (unreliable : bool) (maxraftstate now : Z)
    (rands : list string) (ctl_draws : list (list string * Z)) (ctl_names : list string)
    (draws : list (list (list string * list string * Z))) : result config :=
  let cfg := mkConfig MakeNetwork [] [] [] now (mkCtrler 0 [] [] None) 3 n (replicate 3 None) [] ∅
               (Z.of_nat n + 1000) maxraftstate in
  cfg ← StartCtrlerService rands ctl_draws ctl_names cfg;
  cfg ← start_groups 0 draws cfg;
  Ok (cfg <| cfg_net := Reliable (negb unreliable) (cfg_net cfg) |>).
End ShardHarness.
