(* ===== verification/ShardLife.v ===== *)
(** * ShardLife: servers of the sharded service in a test

    What [ShutdownServer] and [StartServer] do ([shut], [started]) and when they
    succeed, the states a test reaches ([shard_reach]) and their invariant
    ([harness_ok]): distinct servers have distinct names, every running server
    is registered under its name and persists into the persister that is copied
    when it is shut down, and the names of ends that are switched off with a
    server are never those of another end. *)
From stdpp Require Import base gmap strings pretty list_numbers option list.
From Stdlib Require Import ZArith Lia Ascii.
From S2P Require Import Prelude Labgob GoStrings Labrpc RaftTypes Raft RaftNode ShardCtrler ShardKv RaftHarness RaftHarnessNet ServiceHarness ServiceNet ShardHarness.
#[local] Open Scope Z_scope.
#[local] Open Scope go_scope.

(** ** Names of servers *)
Definition no_dash (s : string) : Prop := ∀ a b, s ≠ a +:+ "-" +:+ b.

Lemma no_dash_cons c s : c ≠ "-"%char → no_dash s → no_dash (String c s).
Proof. intros Hc Hs [|c' a] b [= E1 E2]; [done|]. by eapply Hs. Qed.

Lemma no_dash_tail c s : no_dash (String c s) → c ≠ "-"%char ∧ no_dash s.
Proof.
  intros Hs. split; [intros ->; by apply (Hs "" s)|].
  intros a b ->. by apply (Hs (String c a) b).
Qed.

Lemma split_dash a b a' b' :
  no_dash a → no_dash a' → a +:+ "-" +:+ b = a' +:+ "-" +:+ b' → a = a' ∧ b = b'.
Proof.
  revert a'. induction a as [|c a IH]; intros [|c' a'] Ha Ha' E.
  - by injection E.
  - apply no_dash_tail in Ha' as [Hc _]. injection E as E _. congruence.
  - apply no_dash_tail in Ha as [Hc _]. injection E as E _. congruence.
  - apply no_dash_tail in Ha as [_ Ha], Ha' as [_ Ha']. injection E as -> E.
    by destruct (IH a' Ha Ha' E) as [-> ->].
Qed.

Lemma pretty_N_go_no_dash x s : no_dash s → no_dash (pretty_N_go x s).
Proof.
  revert s. induction (N.lt_wf_0 x) as [x _ IH]; intros s Hs.
  destruct (decide (x = 0)%N) as [->|Hx]; [by rewrite pretty_N_go_0|]. rewrite pretty_N_go_step by lia.
  apply IH; [apply N.div_lt; lia|]. apply no_dash_cons; [|done].
  unfold pretty_N_char. by repeat case_match.
Qed.

Lemma no_dash_empty : no_dash "".
Proof. by intros [|c a] b. Qed.

(** The decimal notation of a number that is not negative. *)
Lemma pretty_no_dash z : 0 <= z → no_dash (pretty z).
Proof.
  intros Hz. destruct z as [|p|p]; [|apply pretty_N_go_no_dash, no_dash_empty|lia].
  apply no_dash_cons; [done|apply no_dash_empty].
Qed.

Lemma servername_inj g i g' i' :
  0 <= g → 0 <= g' → servername g i = servername g' i' → g = g' ∧ i = i'.
Proof.
  intros Hg Hg' E. unfold servername in E. apply (inj (String.append "server-")) in E.
  destruct (split_dash (pretty g) (pretty (Z.of_nat i)) (pretty g') (pretty (Z.of_nat i'))) as [E1 E2];
    [by apply pretty_no_dash..|done|]. apply (inj pretty) in E1, E2. split; [done|lia].
Qed.

(** Controllers have other names. *)
Lemma servername_not_ctrler g i r : servername g i ≠ "ctlr-" +:+ r.
Proof. done. Qed.

(** ** Ends *)

(** The ends that exist stay and stay connected; only those in [off] are switched
    on or off. *)
Definition keeps (off : string → Prop) (rn rn' : Network NetName) : Prop := ∀ y, is_Some (ends rn !! inl y) →
  is_Some (ends rn' !! inl y) ∧ connections rn' !! inl y = connections rn !! inl y ∧
  (¬ off y → enabled rn' !! inl y = enabled rn !! inl y).

Lemma keeps_refl off rn : keeps off rn rn.
Proof. done. Qed.

Lemma keeps_trans off rn1 rn2 rn3 : keeps off rn1 rn2 → keeps off rn2 rn3 → keeps off rn1 rn3.
Proof.
  intros K1 K2 y Hy. destruct (K1 y Hy) as (Hy' & C1 & E1). destruct (K2 y Hy') as (? & C2 & E2).
  split; [done|]. split; [congruence|]. intros Ho. by rewrite E2, E1.
Qed.

Lemma keeps_weaken (off off' : string → Prop) rn rn' : (∀ y, off y → off' y) → keeps off rn rn' → keeps off' rn rn'.
Proof. intros Ho K y Hy. destruct (K y Hy) as (? & ? & E). split; [done|]. split; [done|]. intros Hn. apply E. eauto. Qed.

Definition none : string → Prop := λ _, False.

Lemma open_end_keeps name server rn rn' : open_end name server rn = Ok rn' →
  keeps none rn rn' ∧ ends rn !! inl name = None ∧ is_Some (ends rn' !! inl name) ∧
  connections rn' !! inl name = Some (Some server) ∧ enabled rn' !! inl name = Some true ∧
  Labrpc.servers rn' = Labrpc.servers rn.
Proof.
  intros ([rn1 e] & Hm & [= <-])%bind_Ok. unfold MakeEnd in Hm. destruct (ends rn !! _) eqn:He; [done|].
  injection Hm as <- <-. split; [|cbn; rewrite !lookup_insert_eq; by repeat split].
  intros y Hy. assert (name ≠ y) as Hn by (intros ->; rewrite He in Hy; by destruct Hy).
  cbn. rewrite !lookup_insert_ne by congruence. done.
Qed.

(** The names are new and get ends. *)
Definition gets (names : list string) (rn rn' : Network NetName) : Prop :=
  keeps none rn rn' ∧ (∀ y, y ∈ names → ends rn !! inl y = None ∧ is_Some (ends rn' !! inl y)) ∧
  Labrpc.servers rn' = Labrpc.servers rn.

Lemma gets_cons name server names rn rn1 rn' :
  open_end name server rn = Ok rn1 → gets names rn1 rn' → gets (name :: names) rn rn'.
Proof.
  intros (K1 & Hn & Hs & _ & _ & S1)%open_end_keeps (K2 & Hg & S2). split; [by eapply keeps_trans|]. split; [|congruence].
  intros y [->|Hy]%elem_of_cons; [split; [done|by apply K2]|]. destruct (Hg y Hy) as [Hg1 ?]. split; [|done].
  apply eq_None_not_Some. intros Hy'. apply K1 in Hy' as [Hy' _]. rewrite Hg1 in Hy'. by destruct Hy'.
Qed.

Lemma gets_nil rn : gets [] rn rn.
Proof. split; [apply keeps_refl|]. split; [|done]. by intros y Hy%elem_of_nil. Qed.

Lemma open_ends_gets target j names rn rn' : open_ends target j names rn = Ok rn' → gets names rn rn'.
Proof.
  revert j rn. induction names as [|name names IH]; intros j rn Hx; cbn in Hx; [injection Hx as <-; apply gets_nil|].
  apply bind_Ok in Hx as (server & _ & (rn1 & Ho & Hx)%bind_Ok). eapply gets_cons; [exact Ho|by eapply IH].
Qed.

Lemma client_ends_gets c j names es rn es' rn' : client_ends c j names es rn = Ok (es', rn') → gets names rn rn'.
Proof.
  revert j es rn. induction names as [|name names IH]; intros j es rn Hx; cbn in Hx; [injection Hx as _ <-; apply gets_nil|].
  apply bind_Ok in Hx as (es1 & _ & (server & _ & (rn1 & Ho & Hx)%bind_Ok)%bind_Ok).
  eapply gets_cons; [exact Ho|by eapply IH].
Qed.

(** Fresh names are never refused. *)
Lemma open_ends_Ok target j names rn :
  (∀ k, (j <= k < j + length names)%nat → ∃ server, target k = Ok server) →
  NoDup names → (∀ x, x ∈ names → ends rn !! inl x = None) →
  ∃ rn', open_ends target j names rn = Ok rn' ∧ ∀ x, x ∉ names → ends rn' !! inl x = ends rn !! inl x.
Proof.
  revert j rn. induction names as [|name names IH]; intros j rn Ht Hnd Hf; [by exists rn|].
  apply NoDup_cons in Hnd as [Hn Hnd]. cbn [open_ends]. destruct (Ht j) as [server ->]; [cbn; lia|].
  cbn [mbind result_bind]. unfold open_end, MakeEnd. rewrite Hf by (by left). cbn [mbind result_bind].
  set (rn1 := Enable _ _ _). destruct (IH (S j) rn1) as (rn' & Hop & He); [|done|..].
  - intros k Hk. apply Ht. cbn. lia.
  - intros x Hx. cbn. rewrite lookup_insert_ne by (intros [= ->]; done). apply Hf. by right.
  - exists rn'. split; [done|]. intros x Hx. rewrite He by set_solver. cbn. apply lookup_insert_ne. intros [= ->]. set_solver.
Qed.

(** Names that are switched off. *)
Definition turned_off (names : list string) (rn rn' : Network NetName) : Prop :=
  keeps (.∈ names) rn rn' ∧
  ∀ y, enabled rn' !! inl y = enabled rn !! inl y ∨ enabled rn' !! inl y = Some false.

Lemma disable_row_off row m rn rn' : disable_row row m rn = Ok rn' →
  turned_off (default [] row) rn rn' ∧ Labrpc.servers rn' = Labrpc.servers rn ∧ ends rn' = ends rn ∧
  ∀ k y, (k < m)%nat → default [] row !! k = Some y → enabled rn' !! inl y = Some false.
Proof.
  unfold disable_row. set (names := default [] row).
  assert (∀ js rn, for_each (λ j rn, name ← or_panic (names !! j); Ok (Enable (inl name) false rn)) js rn = Ok rn' →
    turned_off names rn rn' ∧ Labrpc.servers rn' = Labrpc.servers rn ∧ ends rn' = ends rn ∧
    ∀ k y, k ∈ js → names !! k = Some y → enabled rn' !! inl y = Some false) as Hall.
  { intros js. induction js as [|j js IH]; intros rn0 Hx; cbn in Hx.
    - injection Hx as ->. split; [split; [apply keeps_refl|by left]|]. split; [done|]. split; [done|]. by intros k y Hk%elem_of_nil.
    - apply bind_Ok in Hx as (rn1 & (name & Hj%or_panic_Ok & [= <-])%bind_Ok & Hx).
      destruct (IH _ Hx) as ([K E] & S2 & F2 & Hoff). split; [split|split; [done|split; [done|]]].
      + eapply keeps_trans; [|exact K]. intros y Hy. split; [done|]. split; [done|]. intros Hn. cbn. apply lookup_insert_ne.
        intros [= ->]. apply Hn. by eapply list_elem_of_lookup_2.
      + intros y. destruct (E y) as [->|]; [|by right]. cbn.
        destruct (decide (name = y)) as [->|Hn]; [right; apply lookup_insert_eq|left; apply lookup_insert_ne; congruence].
      + intros k y [->|Hk]%elem_of_cons Hy; [|by eapply Hoff]. rewrite Hj in Hy. injection Hy as ->.
        destruct (E y) as [->|]; [cbn; apply lookup_insert_eq|done]. }
  intros Hx. destruct (Hall _ _ Hx) as (? & ? & ? & Hoff). split; [done|]. split; [done|]. split; [done|].
  intros k y Hk. apply Hoff, elem_of_seq. lia.
Qed.

Lemma server_at_net (rn rn' : Network NetName) name :
  Labrpc.servers rn' = Labrpc.servers rn → server_at rn' name = server_at rn name.
Proof. unfold server_at. by intros ->. Qed.

Lemma gets_both names names' rn rn1 rn2 : gets names rn rn1 → gets names' rn1 rn2 →
  keeps none rn rn2 ∧
  (∀ y, y ∈ names ∨ y ∈ names' → ends rn !! inl y = None ∧ is_Some (ends rn2 !! inl y)) ∧
  Labrpc.servers rn2 = Labrpc.servers rn.
Proof.
  intros (K1 & G1 & S1) (K2 & G2 & S2). split; [by eapply keeps_trans|]. split; [|congruence].
  intros y [[Hn Hs]%G1|[Hn Hs]%G2]; (split; [|try done]); [done|by apply K2|].
  apply eq_None_not_Some. intros [Hy _]%K1. rewrite Hn in Hy. by destruct Hy.
Qed.

(** The ends that are switched off with server [i] of a group. *)
Definition row_of (gg : group) (i : nat) (y : string) : Prop :=
  ∃ row, (endnames gg !! i = Some (Some row) ∨ mendnames gg !! i = Some (Some row)) ∧ y ∈ row.

(** Both loops of [ShutdownServer]. *)
Lemma rows_off (gg : group) (i : nat) row mrow rn rn1 rn2 :
  (if decide (length (servers gg) = 0%nat) then Ok None else or_panic (endnames gg !! i)) = Ok row →
  mendnames gg !! i = Some mrow →
  disable_row row (length (servers gg)) rn = Ok rn1 → disable_row mrow (length (default [] mrow)) rn1 = Ok rn2 →
  Labrpc.servers rn2 = Labrpc.servers rn ∧ keeps (row_of gg i) rn rn2 ∧
  ∀ y, (∀ row, endnames gg !! i = Some (Some row) → length row <= length (servers gg))%nat → row_of gg i y →
    enabled rn2 !! inl y = Some false.
Proof.
  intros Hrow Hm ([K1 _] & S1 & _ & Off1)%disable_row_off ([K2 En] & S2 & _ & Off2)%disable_row_off.
  assert (row = None ∨ endnames gg !! i = Some row) as Hr by (case_decide; [left; congruence|right; by apply or_panic_Ok]).
  split; [congruence|]. split.
  - eapply keeps_trans; (eapply keeps_weaken; [|eassumption]); intros y Hy.
    + destruct row as [row|]; [|by apply elem_of_nil in Hy]. exists row. split; [left; naive_solver|done].
    + destruct mrow as [mrow|]; [|by apply elem_of_nil in Hy]. exists mrow. split; [by right|done].
  - intros y Hlen (r & Hin & [k Hk]%list_elem_of_lookup_1). pose proof (lookup_lt_Some _ _ _ Hk) as Hlt. destruct Hin as [Hin|Hin].
    + specialize (Hlen _ Hin). assert (row = Some r) as ->.
      { case_decide; [lia|]. apply or_panic_Ok in Hrow. congruence. }
      destruct (En y) as [->|]; [|done]. apply (Off1 k); [lia|done].
    + rewrite Hin in Hm. injection Hm as <-. by apply (Off2 k).
Qed.

Lemma disable_row_Ok row m rn : (m <= length (default [] row))%nat → ∃ rn', disable_row row m rn = Ok rn'.
Proof.
  intros Hm. unfold disable_row.
  destruct (for_each_Ok (λ (j : nat) (rn : Network NetName), name ← or_panic (default [] row !! j); Ok (Enable (inl name) false rn))
    (λ _ _, True) (seq 0 m) rn I) as (rn' & Hx & _); [|by exists rn'].
  intros d j rest r Hs _. assert (j ∈ seq 0 m) as Hj%elem_of_seq by (rewrite Hs; set_solver).
  destruct (lookup_lt_is_Some_2 (default [] row) j) as [name ->]; [lia|]. by eexists.
Qed.

Section ShardLife.
Context `{GobLaws (PersistentState unit)}.
Context {rtype : Type} (kv_rcvr kv_rf_rcvr : nat → Rcvr rtype).
Notation config := (config rtype).
Implicit Types (cfg : config) (gg : group) (c : ctrler) (gi i j o : nat) (rn : Network NetName) (s : ShardKV).

Notation StartServer := (StartServer kv_rcvr kv_rf_rcvr).
Notation StartGroup := (StartGroup kv_rcvr kv_rf_rcvr).

(** The instance [o] is registered under [name]. *)
Definition service_of o : Labrpc.Server rtype :=
  AddService (MakeService (kv_rf_rcvr o)) (AddService (MakeService (kv_rcvr o)) MakeServer).

Definition runs_as cfg (name : string) (inst : option nat) : Prop :=
  match inst with
  | Some o => ∃ ptr, server_at (cfg_net cfg) (inl name) = Some ptr ∧ heap cfg !! ptr = Some (service_of o)
  | None => server_at (cfg_net cfg) (inl name) = None
  end.

(** ** Invariants *)
Record group_ok cfg gi gg : Prop := {
  g_gid : gid gg = 100 + Z.of_nat gi;
  g_len : length (servers gg) = cfg_n cfg ∧ length (saved gg) = cfg_n cfg;
  g_runs i (inst : option nat) : servers gg !! i = Some inst → runs_as cfg (servername (gid gg) i) inst;
  g_saved i o : servers gg !! i = Some (Some o) → saved gg !! i = Some (Some (Of o)) ∧ (o < length (kv_objects cfg))%nat;
  g_rows i o : servers gg !! i = Some (Some o) →
    (∃ names, endnames gg !! i = Some (Some names) ∧ length names = cfg_n cfg) ∧ is_Some (mendnames gg !! i);
  g_stored i ref : saved gg !! i = Some (Some ref) →
    match ref with Owned ps => restorable (C:=unit) ps | Of o => (o < length (kv_objects cfg))%nat end
}.

Definition rows cfg (y : string) : Prop := ∃ gi gg i, groups cfg !! gi = Some (Some gg) ∧ row_of gg i y.

Record harness_ok cfg : Prop := {
  s_group gi gg : groups cfg !! gi = Some (Some gg) → group_ok cfg gi gg;
  s_none gi i : groups cfg !! gi = Some None → server_at (cfg_net cfg) (inl (servername (100 + Z.of_nat gi) i)) = None;
  s_object o s : kv_objects cfg !! o = Some s → durable (kv_rf s);
  s_rows y : rows cfg y → is_Some (ends (cfg_net cfg) !! inl y);
  s_ctl : length (ctl_names (ctl cfg)) = ctl_n (ctl cfg)
}.

(** ** What starting and stopping does *)

Lemma group_at_Ok gi cfg gg : group_at gi cfg = Ok gg ↔ groups cfg !! gi = Some (Some gg).
Proof.
  unfold group_at. rewrite bind_Ok. split.
  - by intros (g & Hg%or_panic_Ok & ->%or_panic_Ok).
  - intros Hg. exists (Some gg). by rewrite Hg.
Qed.

Lemma set_group_Ok gi gg cfg cfg' :
  set_group gi gg cfg = Ok cfg' → (gi < length (groups cfg))%nat ∧ cfg' = cfg <| groups := <[gi := Some gg]> (groups cfg) |>.
Proof.
  intros (gs & (Hlt & ->)%or_panic_Ok%set_index_inv & [= <-])%bind_Ok. done.
Qed.

Lemma copy_saved_inv i gg cfg gg' :
  copy_saved i gg cfg = Ok gg' →
  (saved gg !! i = Some None ∧ gg' = gg) ∨
  ∃ ref ps, saved gg !! i = Some (Some ref) ∧ contents ref cfg = Ok ps ∧
    gg' = gg <| saved := <[i := Some (Owned ps)]> (saved gg) |>.
Proof.
  intros ([ref|] & Hs%or_panic_Ok & Hx)%bind_Ok; [right|left; by injection Hx as <-].
  apply bind_Ok in Hx as (ps & Hps & (sv & (_ & ->)%or_panic_Ok%set_index_inv & [= <-])%bind_Ok).
  exists ref, ps. by rewrite Copy_id.
Qed.

(** What is left of the rest of a state. *)
Definition same_test cfg cfg' : Prop :=
  cfg_n cfg' = cfg_n cfg ∧ ctl cfg' = ctl cfg ∧ ngroups cfg' = ngroups cfg ∧ cfg_maxraftstate cfg' = cfg_maxraftstate cfg.

Record shut gi i gg cfg cfg' : Prop := {
  sh_same : same_test cfg cfg' ∧ heap cfg' = heap cfg;
  sh_net : keeps (row_of gg i) (cfg_net cfg) (cfg_net cfg');
  sh_off y : (∀ row, endnames gg !! i = Some (Some row) → length row <= length (servers gg))%nat → row_of gg i y →
    enabled (cfg_net cfg') !! inl y = Some false;
  sh_group : ∃ sv, groups cfg' = <[gi := Some (gg <| saved := sv |> <| servers := <[i := None]> (servers gg) |>)]> (groups cfg) ∧
    (saved gg !! i = Some None ∧ sv = saved gg ∨
     ∃ ref ps, saved gg !! i = Some (Some ref) ∧ contents ref cfg = Ok ps ∧ sv = <[i := Some (Owned ps)]> (saved gg));
  sh_objects : kv_objects cfg' =
    match servers gg !! i with Some (Some o) => alter kv_Kill o (kv_objects cfg) | _ => kv_objects cfg end;
  sh_servers : Labrpc.servers (cfg_net cfg') = Labrpc.servers (DeleteServer (inl (servername (gid gg) i)) (cfg_net cfg));
  sh_lt : (i < length (servers gg))%nat ∧ (gi < length (groups cfg))%nat
}.

Lemma ShutdownServer_inv gi i cfg cfg' :
  ShutdownServer gi i cfg = Ok cfg' → ∃ gg, groups cfg !! gi = Some (Some gg) ∧ shut gi i gg cfg cfg'.
Proof.
  unfold ShutdownServer. intros (gg & Hg%group_at_Ok & Hx)%bind_Ok. exists gg. split; [done|].
  apply bind_Ok in Hx as (row & Hrow & (rn1 & Hr1 & Hx)%bind_Ok).
  apply bind_Ok in Hx as (mrow & Hmrow%or_panic_Ok & (rn2 & Hr2 & Hx)%bind_Ok).
  destruct (rows_off gg i row mrow (cfg_net cfg) rn1 rn2 Hrow Hmrow Hr1 Hr2) as (E2 & K & Hoff).
  set (cfg1 := cfg <| cfg_net := _ |>) in Hx.
  apply bind_Ok in Hx as (gg1 & Hc%copy_saved_inv & (inst & Hi%or_panic_Ok & Hx)%bind_Ok).
  assert (∃ sv, gg1 = gg <| saved := sv |> ∧
    (saved gg !! i = Some None ∧ sv = saved gg ∨
     ∃ ref ps, saved gg !! i = Some (Some ref) ∧ contents ref cfg = Ok ps ∧ sv = <[i := Some (Owned ps)]> (saved gg))) as (sv & -> & Hsv).
  { destruct Hc as [[Hs ->]|(ref & ps & Hs & Hps & ->)]; [exists (saved gg); split; [by destruct gg|by left]|].
    eexists. split; [done|]. right. exists ref, ps. split; [done|]. split; [by destruct ref|done]. }
  cbn [servers] in Hi. change (servers (gg <| saved := sv |>)) with (servers gg) in *.
  assert (i < length (servers gg))%nat as Hilt by (by eapply lookup_lt_Some).
  assert (gg <| saved := sv |> = gg <| saved := sv |> <| servers := servers gg |>) as Egg by by destruct gg.
  destruct inst as [o|].
  - apply bind_Ok in Hx as (s & Hs%or_panic_Ok & (sv' & (_ & ->)%or_panic_Ok%set_index_inv & (Hglt & ->)%set_group_Ok)%bind_Ok).
    split; cbn; [done|exact K|exact Hoff|exists sv; by split| |by rewrite E2|by split].
    rewrite Hi. by apply insert_alter_at.
  - apply set_group_Ok in Hx as (Hglt & ->).
    split; [done|exact K|exact Hoff| |by rewrite Hi|cbn; by rewrite E2|done].
    exists sv. split; [by rewrite (list_insert_id (servers gg) i None), <- Egg|done].
Qed.

(** The rest of the groups is not touched. *)
Lemma DeleteServer_other rn name name' :
  name ≠ name' → server_at (DeleteServer (inl name) rn) (inl name') = server_at rn (inl name').
Proof. intros Hn. unfold server_at, DeleteServer. cbn. rewrite lookup_insert_ne; [done|congruence]. Qed.

Lemma runs_as_net cfg cfg' name inst :
  server_at (cfg_net cfg') (inl name) = server_at (cfg_net cfg) (inl name) → heap cfg `prefix_of` heap cfg' →
  runs_as cfg name inst → runs_as cfg' name inst.
Proof.
  intros Hs Hh. destruct inst as [o|]; cbn; rewrite Hs; [|done]. intros (ptr & Hp & Hl). exists ptr. split; [done|].
  by eapply prefix_lookup_Some.
Qed.

Lemma contents_restorable cfg gi gg i ref ps :
  harness_ok cfg → groups cfg !! gi = Some (Some gg) → saved gg !! i = Some (Some ref) → contents ref cfg = Ok ps →
  restorable (C:=unit) ps.
Proof.
  intros Hok Hg Hs Hps. pose proof (g_stored _ _ _ (s_group _ Hok _ _ Hg) _ _ Hs) as Hr. destruct ref as [ps'|o]; cbn in Hps.
  - by injection Hps as <-.
  - apply bind_Ok in Hps as (s & Ho%or_panic_Ok & [= <-]). destruct (s_object _ Hok _ _ Ho) as [E _].
    unfold restorable. rewrite E. by eexists.
Qed.

Lemma other_server gi i gg gi' i' gg' cfg :
  harness_ok cfg → groups cfg !! gi = Some (Some gg) → groups cfg !! gi' = Some (Some gg') →
  servername (gid gg) i = servername (gid gg') i' → gi = gi' ∧ i = i'.
Proof.
  intros Hok Hg Hg' E. rewrite (g_gid _ _ _ (s_group _ Hok _ _ Hg)), (g_gid _ _ _ (s_group _ Hok _ _ Hg')) in E.
  apply servername_inj in E as [? ?]; lia.
Qed.

(** Ends that may be switched off with a server exist. *)
Lemma rows_step off cfg cfg' :
  harness_ok cfg → keeps off (cfg_net cfg) (cfg_net cfg') →
  (∀ y, rows cfg' y → rows cfg y ∨ is_Some (ends (cfg_net cfg') !! inl y)) →
  ∀ y, rows cfg' y → is_Some (ends (cfg_net cfg') !! inl y).
Proof. intros Hok K Hr y [Hy|Hy]%Hr; [|done]. by apply K, (s_rows _ Hok). Qed.

Lemma shut_rows gi i gg cfg cfg' y :
  groups cfg !! gi = Some (Some gg) → shut gi i gg cfg cfg' → rows cfg' y → rows cfg y.
Proof.
  intros Hg Hsh (gi' & gg' & k & Hg' & Hr). destruct (sh_group _ _ _ _ _ Hsh) as (sv & Hgs & _). rewrite Hgs in Hg'.
  apply list_lookup_insert_Some in Hg' as [(<- & [= <-] & _)|[_ Hg']]; [by exists gi, gg, k|by exists gi', gg', k].
Qed.

Lemma shut_ok gi i gg cfg cfg' :
  harness_ok cfg → groups cfg !! gi = Some (Some gg) → shut gi i gg cfg cfg' → harness_ok cfg'.
Proof.
  intros Hok Hg Hsh. pose proof Hsh as [((Hn & Hct & _ & _) & Hh) Hnet _ (sv & Hgs & Hsv) Ho Hs (Hilt & Hglt)]. pose proof (s_group _ Hok _ _ Hg) as Hgg.
  destruct (g_len _ _ _ Hgg) as [L1 L2].
  assert (length (kv_objects cfg') = length (kv_objects cfg)) as Hlen.
  { rewrite Ho. destruct (servers gg !! i) as [[?|]|]; by rewrite ?length_alter. }
  assert (∀ name, server_at (cfg_net cfg') name = server_at (DeleteServer (inl (servername (gid gg) i)) (cfg_net cfg)) name) as Hat.
  { intros name. by apply server_at_net. }
  split.
  - intros gi' gg' Hg'. rewrite Hgs in Hg'. apply list_lookup_insert_Some in Hg' as [(<- & [= <-] & _)|[Hne Hg']].
    + split; cbn; rewrite ?Hn, ?Hlen; [apply (g_gid _ _ _ Hgg)|..].
      * rewrite length_insert. split; [done|]. destruct Hsv as [[_ ->]|(ref & ps & _ & _ & ->)]; by rewrite ?length_insert.
      * intros k inst [(<- & <- & _)|[Hk Hin]]%list_lookup_insert_Some.
        { cbn. rewrite Hat. unfold server_at, DeleteServer. cbn. by rewrite lookup_insert_eq. }
        eapply runs_as_net; [rewrite Hat; apply DeleteServer_other|by rewrite Hh|by apply (g_runs _ _ _ Hgg)].
        intros E. by apply (other_server gi i gg gi k gg cfg) in E as [].
      * intros k o [(_ & ? & _)|[Hk Hin]]%list_lookup_insert_Some; [done|]. destruct (g_saved _ _ _ Hgg _ _ Hin) as [Hsk ?].
        split; [|done]. destruct Hsv as [[_ ->]|(ref & ps & _ & _ & ->)]; [done|]. by rewrite list_lookup_insert_ne.
      * intros k o [(_ & ? & _)|[Hk Hin]]%list_lookup_insert_Some; [done|]. by apply (g_rows _ _ _ Hgg k o).
      * intros k ref. destruct Hsv as [[_ ->]|(ref0 & ps & Hs0 & Hps & ->)]; [apply (g_stored _ _ _ Hgg)|].
        intros [(<- & [= <-] & _)|[_ Hk]]%list_lookup_insert_Some; [|by apply (g_stored _ _ _ Hgg k)].
        by eapply contents_restorable.
    + pose proof (s_group _ Hok _ _ Hg') as Hgg'. split; rewrite ?Hn, ?Hlen; try apply Hgg'.
      intros k inst Hin. eapply runs_as_net; [rewrite Hat; apply DeleteServer_other|by rewrite Hh|by apply (g_runs _ _ _ Hgg')].
      intros E. by apply (other_server gi i gg gi' k gg' cfg) in E as [].
  - intros gi' k Hg'. rewrite Hgs in Hg'. apply list_lookup_insert_Some in Hg' as [(_ & ? & _)|[Hne Hg']]; [done|].
    rewrite Hat, DeleteServer_other; [by apply (s_none _ Hok)|]. rewrite (g_gid _ _ _ Hgg).
    intros E. apply servername_inj in E as [? ?]; lia.
  - intros o s. rewrite Ho. destruct (servers gg !! i) as [[o'|]|]; try apply (s_object _ Hok).
    rewrite list_lookup_alter. case_decide; [|apply (s_object _ Hok)]. intros (s0 & Hs0 & ->)%fmap_Some.
    by apply (durable_Kill (C:=unit)), (s_object _ Hok o').
  - eapply rows_step; [exact Hok|exact Hnet|]. intros y Hy. left. by eapply shut_rows.
  - rewrite Hct. apply (s_ctl _ Hok).
Qed.

(** The persister the next instance of server [i] gets. *)
Definition to_restore cfg gg i (ps : Persister) : Prop :=
  (saved gg !! i = Some None ∧ ps = MakePersister) ∨
  ∃ ref, saved gg !! i = Some (Some ref) ∧ contents ref cfg = Ok ps.

Record started gi i (names mnames : list string) now gg ps s cfg cfg' : Prop := {
  st_same : same_test cfg cfg';
  st_restored : to_restore cfg gg i ps;
  st_instance : fst <$> ShardKv.StartServer (cfg_n cfg) i ps (cfg_maxraftstate cfg) (gid gg) (ctl_n (ctl cfg)) now = Some s;
  st_group : ∃ gg', groups cfg' = <[gi := Some gg']> (groups cfg) ∧ gid gg' = gid gg ∧
    servers gg' = <[i := Some (length (kv_objects cfg))]> (servers gg) ∧
    saved gg' = <[i := Some (Of (length (kv_objects cfg)))]> (saved gg) ∧
    endnames gg' = <[i := Some names]> (endnames gg) ∧ mendnames gg' = <[i := Some mnames]> (mendnames gg);
  st_objects : kv_objects cfg' = kv_objects cfg ++ [s];
  st_heap : heap cfg' = heap cfg ++ [service_of (length (kv_objects cfg))];
  st_net : keeps none (cfg_net cfg) (cfg_net cfg');
  st_new y : y ∈ names ∨ y ∈ mnames →
    ends (cfg_net cfg) !! inl y = None ∧ is_Some (ends (cfg_net cfg') !! inl y);
  st_servers : Labrpc.servers (cfg_net cfg') =
    Labrpc.servers (AddServer (inl (servername (gid gg) i)) (length (heap cfg)) (cfg_net cfg));
  st_lt : (i < length (servers gg))%nat ∧ (i < length (saved gg))%nat ∧ (gi < length (groups cfg))%nat ∧
    (i < length (endnames gg))%nat ∧ (i < length (mendnames gg))%nat
}.

(** The persister is a copy, or a new one. *)
Lemma prepare_inv i gg cfg gg' :
  (ref ← or_panic (saved gg !! i);
   match ref with
   | Some _ => copy_saved i gg cfg
   | None => saved' ← set_at i (Some (Owned MakePersister)) (saved gg); Ok (gg <| saved := saved' |>)
   end) = Ok gg' →
  ∃ ps, to_restore cfg gg i ps ∧ gg' = gg <| saved := <[i := Some (Owned ps)]> (saved gg) |> ∧ (i < length (saved gg))%nat.
Proof.
  intros ([ref|] & Hs%or_panic_Ok & Hx)%bind_Ok; pose proof (lookup_lt_Some _ _ _ Hs).
  - apply copy_saved_inv in Hx as [[? _]|(ref' & ps & Hs' & Hps & ->)]; [congruence|].
    exists ps. split; [|done]. right. by exists ref'.
  - apply bind_Ok in Hx as (sv & (_ & ->)%or_panic_Ok%set_index_inv & [= <-]). exists MakePersister. split; [by left|done].
Qed.

Lemma StartServer_inv gi i names mnames now cfg cfg' :
  StartServer gi i names mnames now cfg = Ok cfg' →
  ∃ gg ps s, groups cfg !! gi = Some (Some gg) ∧ started gi i names mnames now gg ps s cfg cfg'.
Proof.
  unfold ShardHarness.StartServer. intros (gg & Hg%group_at_Ok & Hx)%bind_Ok.
  apply bind_Ok in Hx as (en & (He & ->)%or_panic_Ok%set_index_inv & (rn1 & Hr1%open_ends_gets & Hx)%bind_Ok).
  apply bind_Ok in Hx as (men & (Hme & ->)%or_panic_Ok%set_index_inv & (rn2 & Hr2%open_ends_gets & Hx)%bind_Ok).
  destruct (gets_both _ _ _ _ _ Hr1 Hr2) as (K & Hnew & E2).
  set (gg1 := gg <| endnames := _ |> <| mendnames := _ |>) in *. set (cfg1 := cfg <| cfg_net := rn2 |>) in *.
  assert (∃ gg2, (ref ← or_panic (saved gg1 !! i);
    match ref with
    | Some _ => copy_saved i gg1 cfg1
    | None => saved' ← set_at i (Some (Owned MakePersister)) (saved gg1); Ok (gg1 <| saved := saved' |>)
    end) = Ok gg2 ∧
    (ref ← or_panic (saved gg2 !! i); ref ← or_panic ref; ps ← contents ref cfg1;
     '(s, _) ← or_panic (ShardKv.StartServer (cfg_n cfg1) i ps (cfg_maxraftstate cfg1) (gid gg2) (ctl_n (ctl cfg1)) now);
     saved' ← set_at i (Some (Of (length (kv_objects cfg1)))) (saved gg2);
     servers' ← set_at i (Some (length (kv_objects cfg1))) (servers gg2);
     cfg2 ← set_group gi (gg2 <| saved := saved' |> <| servers := servers' |>) (cfg1 <| kv_objects := kv_objects cfg1 ++ [s] |>);
     Ok (add_services (inl (servername (gid gg2) i)) (kv_rcvr (length (kv_objects cfg1))) (kv_rf_rcvr (length (kv_objects cfg1))) cfg2)) = Ok cfg')
    as (gg2 & (ps & Hto & -> & Hlt)%prepare_inv & Hy).
  { apply bind_Ok in Hx as (ref & Hs & (gg2 & Hp & Hx)%bind_Ok). exists gg2. split; [|exact Hx]. by rewrite Hs. }
  cbn [saved servers gid] in Hy. change (saved (_ <| saved := _ |>)) with (<[i := Some (Owned ps)]> (saved gg1)) in Hy.
  rewrite list_lookup_insert_eq in Hy by done. cbn [or_panic mbind result_bind contents] in Hy.
  apply bind_Ok in Hy as ([s gs] & Hs%or_panic_Ok & (sv & (_ & ->)%or_panic_Ok%set_index_inv & Hy)%bind_Ok).
  apply bind_Ok in Hy as (ss & (Hi & ->)%or_panic_Ok%set_index_inv & (cfg2 & (Hgi & ->)%set_group_Ok & [= <-])%bind_Ok).
  exists gg, ps, s. split; [done|]. split; [by repeat split|..]; cbn; try done.
  - cbn in Hs. by rewrite Hs.
  - eexists. split; [done|]. split; [done|]. split; [done|]. cbn. by rewrite list_insert_insert_eq.
  - by rewrite E2.
Qed.

Lemma AddServer_other rn name name' ptr :
  name ≠ name' → server_at (AddServer (inl name) ptr rn) (inl name') = server_at rn (inl name').
Proof. intros Hn. unfold server_at, AddServer. cbn. rewrite lookup_insert_ne; [done|congruence]. Qed.

Lemma to_restore_restorable cfg gi gg i ps :
  harness_ok cfg → groups cfg !! gi = Some (Some gg) → to_restore cfg gg i ps → restorable (C:=unit) ps.
Proof.
  intros Hok Hg [[_ ->]|(ref & Hs & Hps)]; [by eexists|by eapply contents_restorable].
Qed.

(** A group server is [Make]'s Raft with its parameters. *)
Lemma kv_StartServer_Make n me ps size g m now s :
  fst <$> ShardKv.StartServer n me ps size g m now = Some s →
  restorable (C:=unit) ps →
  durable (kv_rf s) ∧ stored ps = Some (persistentState (kv_rf s)) ∧ snapshot (kv_rf s) = ps_snapshot ps ∧
  status (kv_rf s) = Follower ∧ kv_gid s = g.
Proof.
  intros Hs [st Hst]. destruct (Make_stored (C:=unit) n me ps now st Hst) as (rf & Hm & Hps & Hsn & Hpr & Hrole & _).
  unfold ShardKv.StartServer in Hs. rewrite Hm in Hs. cbn in Hs. injection Hs as <-. cbn. unfold durable.
  by rewrite Hpr, Hst, Hps, Hsn.
Qed.

Lemma started_rows gi i names mnames now gg ps s cfg cfg' y :
  groups cfg !! gi = Some (Some gg) → started gi i names mnames now gg ps s cfg cfg' →
  rows cfg' y → rows cfg y ∨ ends (cfg_net cfg) !! inl y = None ∧ is_Some (ends (cfg_net cfg') !! inl y).
Proof.
  intros Hg Hst (gi' & gg' & k & Hg' & row & Hrow & Hy).
  destruct (st_group _ _ _ _ _ _ _ _ _ _ Hst) as (gx & Hgs & _ & _ & _ & He & Hme). rewrite Hgs in Hg'.
  apply list_lookup_insert_Some in Hg' as [(<- & [= <-] & _)|[_ Hg']]; [|left; exists gi', gg', k; split; [done|by exists row]].
  destruct Hrow as [Hrow|Hrow]; [rewrite He in Hrow|rewrite Hme in Hrow];
    apply list_lookup_insert_Some in Hrow as [(<- & [= <-] & _)|[_ Hrow]];
    (right; apply (st_new _ _ _ _ _ _ _ _ _ _ Hst); tauto) || (left; exists gi, gg, k; split; [done|exists row; tauto]).
Qed.

Lemma started_ok gi i names mnames now gg ps s cfg cfg' :
  harness_ok cfg → groups cfg !! gi = Some (Some gg) → length names = cfg_n cfg → started gi i names mnames now gg ps s cfg cfg' → harness_ok cfg'.
Proof.
  intros Hok Hg Hnl Hst.
  pose proof Hst as [(Hn & Hct & _) Hto Hss (gg' & Hgs & Hgid & Hsv & Hsa & Hen & Hmen) Ho Hh Hnet _ Hs (Hi1 & Hi2 & Hgi & Hi3 & Hi4)].
  pose proof (s_group _ Hok _ _ Hg) as Hgg. destruct (g_len _ _ _ Hgg) as [L1 L2].
  set (o := length (kv_objects cfg)) in *. set (ptr := length (heap cfg)) in *.
  assert (length (kv_objects cfg') = S o) as Hlen by (rewrite Ho, length_app, Nat.add_1_r; done).
  assert (∀ name, server_at (cfg_net cfg') name = server_at (AddServer (inl (servername (gid gg) i)) ptr (cfg_net cfg)) name) as Hat.
  { intros name. by apply server_at_net. }
  assert (heap cfg `prefix_of` heap cfg') as Hpre by (rewrite Hh; by eexists).
  split.
  - intros gi' gx Hg'. rewrite Hgs in Hg'. apply list_lookup_insert_Some in Hg' as [(<- & [= <-] & _)|[Hne Hg']].
    + split; rewrite ?Hgid, ?Hsv, ?Hsa, ?Hen, ?Hmen, ?Hn, ?Hlen, ?length_insert; [apply (g_gid _ _ _ Hgg)|done|..].
      * intros k inst [(<- & <- & _)|[Hk Hin]]%list_lookup_insert_Some.
        { exists ptr. rewrite Hat, Hh. split; [unfold server_at, AddServer; cbn; by rewrite lookup_insert_eq|].
          by apply list_lookup_middle. }
        eapply runs_as_net; [rewrite Hat; apply AddServer_other|done|by apply (g_runs _ _ _ Hgg)].
        intros E. by apply (other_server gi i gg gi k gg cfg) in E as [].
      * intros k o' [(<- & [= <-] & _)|[Hk Hin]]%list_lookup_insert_Some; [split; [by apply list_lookup_insert_eq|lia]|].
        rewrite list_lookup_insert_ne by done. destruct (g_saved _ _ _ Hgg _ _ Hin). split; [done|lia].
      * intros k o' [(<- & [= <-] & _)|[Hk Hin]]%list_lookup_insert_Some.
        { rewrite !list_lookup_insert_eq by done. split; [by exists names|by eexists]. }
        rewrite !list_lookup_insert_ne by done. by apply (g_rows _ _ _ Hgg k o').
      * intros k ref [(<- & [= <-] & _)|[_ Hk]]%list_lookup_insert_Some; [lia|].
        apply (g_stored _ _ _ Hgg k) in Hk. destruct ref; [done|lia].
    + pose proof (s_group _ Hok _ _ Hg') as Hgg'. split; rewrite ?Hn, ?Hlen; try apply Hgg'.
      * intros k inst Hin. eapply runs_as_net; [rewrite Hat; apply AddServer_other|done|by apply (g_runs _ _ _ Hgg')].
        intros E. by apply (other_server gi i gg gi' k gx cfg) in E as [].
      * intros k o' Hk. destruct (g_saved _ _ _ Hgg' _ _ Hk). split; [done|lia].
      * intros k ref Hk. apply (g_stored _ _ _ Hgg' k) in Hk. destruct ref; [done|lia].
  - intros gi' k Hg'. rewrite Hgs in Hg'. apply list_lookup_insert_Some in Hg' as [(_ & ? & _)|[Hne Hg']]; [done|].
    rewrite Hat, AddServer_other; [by apply (s_none _ Hok)|]. rewrite (g_gid _ _ _ Hgg).
    intros E. apply servername_inj in E as [? ?]; lia.
  - intros o' s'. rewrite Ho. intros [[_ Hs']|[_ [= <-]]]%lookup_snoc_Some; [by apply (s_object _ Hok o')|].
    eapply kv_StartServer_Make; [exact Hss|by eapply to_restore_restorable].
  - eapply rows_step; [exact Hok|exact Hnet|]. intros y [?|[_ ?]]%(started_rows _ _ _ _ _ _ _ _ _ _ _ Hg Hst); tauto.
  - rewrite Hct. apply (s_ctl _ Hok).
Qed.

(** ** They do not fail *)
Lemma set_at_lt {A} i (v : A) l : (i < length l)%nat → set_at i v l = Ok (<[i := v]> l).
Proof. intros Hi. unfold set_at, Raft.set_index. by rewrite decide_True. Qed.

Lemma copy_Ok cfg gi gg i :
  harness_ok cfg → groups cfg !! gi = Some (Some gg) → (i < length (saved gg))%nat → ∃ gg', copy_saved i gg cfg = Ok gg'.
Proof.
  intros Hok Hg Hi. unfold copy_saved. destruct (lookup_lt_is_Some_2 (saved gg) i Hi) as [[ref|] Hs]; rewrite Hs; cbn; [|by eexists].
  assert (∃ ps, contents ref cfg = Ok ps) as [ps Hps].
  { pose proof (g_stored _ _ _ (s_group _ Hok _ _ Hg) _ _ Hs) as Hr. destruct ref as [ps|o]; [by exists ps|].
    destruct (lookup_lt_is_Some_2 _ _ Hr) as [s Ho]. exists (persister (kv_rf s)). cbn. by rewrite Ho. }
  rewrite Hps. cbn. rewrite set_at_lt by done. by eexists.
Qed.

(** Shutting down a running server does not fail. *)
Lemma ShutdownServer_runs gi i gg o cfg :
  harness_ok cfg → groups cfg !! gi = Some (Some gg) → servers gg !! i = Some (Some o) →
  ∃ cfg', ShutdownServer gi i cfg = Ok cfg'.
Proof.
  intros Hok Hg Ho. pose proof (s_group _ Hok _ _ Hg) as Hgg. destruct (g_len _ _ _ Hgg) as [L1 L2].
  assert (i < length (servers gg))%nat as Hi by (by eapply lookup_lt_Some).
  destruct (g_rows _ _ _ Hgg _ _ Ho) as ((names & Hr & Hl) & [mrow Hm]).
  assert (gi < length (groups cfg))%nat as Hgi by (by eapply lookup_lt_Some).
  unfold ShutdownServer. assert (group_at gi cfg = Ok gg) as -> by (by apply group_at_Ok). cbn [mbind result_bind].
  rewrite decide_False by lia. rewrite Hr. cbn [or_panic mbind result_bind].
  destruct (disable_row_Ok (Some names) (length (servers gg)) (cfg_net cfg)) as [rn1 ->]; [cbn; lia|]. cbn [mbind result_bind].
  rewrite Hm. cbn [or_panic mbind result_bind]. destruct (disable_row_Ok mrow (length (default [] mrow)) rn1) as [rn2 ->]; [done|].
  cbn [mbind result_bind]. set (cfg1 := cfg <| cfg_net := _ |>).
  destruct (g_saved _ _ _ Hgg _ _ Ho) as [Hs Hlt]. destruct (lookup_lt_is_Some_2 _ _ Hlt) as [s Hob].
  unfold copy_saved. rewrite Hs. cbn. rewrite Hob. cbn. rewrite set_at_lt by lia. cbn.
  rewrite Ho. cbn. rewrite Hob. cbn. rewrite set_at_lt by done. cbn. unfold set_group. cbn. rewrite set_at_lt by done. by eexists.
Qed.

(** Starting one does not fail if the names are new. *)
Lemma StartServer_runs gi i gg names mnames now cfg :
  harness_ok cfg → groups cfg !! gi = Some (Some gg) → (i < cfg_n cfg)%nat →
  (i < length (endnames gg))%nat → (i < length (mendnames gg))%nat →
  (length mnames <= length (ctl_names (ctl cfg)))%nat →
  NoDup (names ++ mnames) → (∀ x, x ∈ names ++ mnames → ends (cfg_net cfg) !! inl x = None) →
  ∃ cfg', StartServer gi i names mnames now cfg = Ok cfg'.
Proof.
  intros Hok Hg Hi He Hme Hml Hnd Hf. pose proof (s_group _ Hok _ _ Hg) as Hgg. destruct (g_len _ _ _ Hgg) as [L1 L2].
  assert (gi < length (groups cfg))%nat as Hgi by (by eapply lookup_lt_Some).
  apply NoDup_app in Hnd as (Hnd1 & Hdis & Hnd2). unfold ShardHarness.StartServer.
  assert (group_at gi cfg = Ok gg) as -> by (by apply group_at_Ok). cbn [mbind result_bind].
  rewrite set_at_lt by done. cbn [mbind result_bind].
  destruct (open_ends_Ok (λ j, Ok (inl (servername (gid (gg <| endnames := <[i := Some names]> (endnames gg) |>)) j))) 0 names (cfg_net cfg))
    as (rn1 & -> & He1); [by intros k _; eexists|done|intros x Hx; apply Hf, elem_of_app; by left|]. cbn [mbind result_bind].
  rewrite set_at_lt by done. cbn [mbind result_bind].
  destruct (open_ends_Ok (λ j, ctrlername j (ctl cfg)) 0 mnames rn1) as (rn2 & -> & _); [|done|..].
  { intros k [_ Hk]. unfold ctrlername. destruct (lookup_lt_is_Some_2 (ctl_names (ctl cfg)) k) as [name ->]; [lia|]. by eexists. }
  { intros x Hx. rewrite He1; [apply Hf, elem_of_app; by right|]. intros Hx'. by apply (Hdis x). }
  cbn [mbind result_bind]. set (gg1 := gg <| endnames := _ |> <| mendnames := _ |>). set (cfg1 := cfg <| cfg_net := rn2 |>).
  assert (∃ ps, restorable (C:=unit) ps ∧ ∃ ref, saved gg !! i = Some ref ∧
    match ref with
    | Some _ => copy_saved i gg1 cfg1
    | None => saved' ← set_at i (Some (Owned MakePersister)) (saved gg1); Ok (gg1 <| saved := saved' |>)
    end = Ok (gg1 <| saved := <[i := Some (Owned ps)]> (saved gg) |>)) as (ps & Hre & ref & Hs & Hp).
  { destruct (lookup_lt_is_Some_2 (saved gg) i) as [[ref|] Hs]; [lia| |].
    - destruct (copy_Ok cfg gi gg i Hok Hg) as [gg' Hc]; [lia|].
      destruct (copy_saved_inv _ _ _ _ Hc) as [[? _]|(ref' & ps & Hs' & Hps & _)]; [congruence|].
      exists ps. split; [by eapply contents_restorable|]. exists (Some ref). split; [done|]. rewrite Hs in Hs'. injection Hs' as <-.
      unfold copy_saved. change (saved gg1) with (saved gg). rewrite Hs. cbn.
      assert (contents ref cfg1 = Ok ps) as -> by (by destruct ref). cbn.
      rewrite set_at_lt by lia. cbn. by rewrite Copy_id.
    - exists MakePersister. split; [by eexists|]. exists None. split; [done|].
      rewrite set_at_lt by (change (saved gg1) with (saved gg); lia). done. }
  change (saved gg1) with (saved gg) in Hp |- *. rewrite Hs.
  cbn [or_panic mbind result_bind]. rewrite Hp. cbn [mbind result_bind].
  assert (saved (gg1 <| saved := <[i := Some (Owned ps)]> (saved gg) |>) !! i = Some (Some (Owned ps))) as ->
    by (cbn; apply list_lookup_insert_eq; lia). cbn [or_panic mbind result_bind contents].
  destruct Hre as [st Hst]. destruct (Make_stored (C:=unit) (cfg_n cfg) i ps now st Hst) as (rf & Hm & _).
  unfold ShardKv.StartServer. change (cfg_n cfg1) with (cfg_n cfg). rewrite Hm. cbn [or_panic mbind result_bind option_bind].
  rewrite !set_at_lt by (cbn; rewrite ?length_insert; lia). cbn [or_panic mbind result_bind]. unfold set_group.
  rewrite set_at_lt by (cbn; lia). by eexists.
Qed.

(** ** The states of a test *)
Inductive ShardOp :=
  | HShutdown (gi i : nat)
  | HStart (gi i : nat) (names mnames : list string) (now : Z)
  | HMakeEnd (name server : string)
  | HClient (names : list string)
  | HDelete (ck : nat)
  | HServe (o : nat) (s' : ShardKV).

Definition shard_exec (op : ShardOp) cfg : result config :=
  match op with
  | HShutdown gi i => ShutdownServer gi i cfg
  | HStart gi i names mnames now => StartServer gi i names mnames now cfg
  | HMakeEnd name server => make_end name server cfg
  | HClient names => '(cfg, _) ← makeClient names (ctl cfg) cfg; Ok cfg
  | HDelete ck => Ok (deleteClient ck cfg)
  | HServe o s' => _ ← or_panic (kv_objects cfg !! o); Ok (cfg <| kv_objects := <[o := s']> (kv_objects cfg) |>)
  end.

(** A server is started with a name for each server of its group; what it does is
    done by its Raft. *)
Definition shard_allowed cfg (op : ShardOp) : Prop :=
  match op with
  | HStart _ _ names _ _ => length names = cfg_n cfg
  | HServe o s' => ∃ s op rf', kv_objects cfg !! o = Some s ∧ exec_op (C:=unit) op (kv_rf s) = Some rf' ∧
      s' = mkShardKV (kv_me s) rf' (kv_gid s) (kv_ctrlers s) (kv_maxraftstate s)
  | _ => True
  end.

(** Steps that leave the groups and the registered servers alone. *)
Record apart cfg cfg' : Prop := {
  n_same : cfg_n cfg' = cfg_n cfg ∧ groups cfg' = groups cfg ∧ kv_objects cfg' = kv_objects cfg;
  n_heap : heap cfg `prefix_of` heap cfg';
  n_net : keeps none (cfg_net cfg) (cfg_net cfg');
  n_names g i : server_at (cfg_net cfg') (inl (servername g i)) = server_at (cfg_net cfg) (inl (servername g i))
}.

Lemma apart_ok cfg cfg' :
  apart cfg cfg' → length (ctl_names (ctl cfg')) = ctl_n (ctl cfg') → harness_ok cfg → harness_ok cfg'.
Proof.
  intros [(En & Eg & Eo) Hh Hk Hs] Hc Hok. split; rewrite ?Eg, ?Eo; [| |apply (s_object _ Hok)| |done].
  - intros gi gg Hg. pose proof (s_group _ Hok _ _ Hg) as Hgg. split; rewrite ?En, ?Eo; try apply Hgg.
    intros i inst Hin. eapply runs_as_net; [apply Hs|done|by apply (g_runs _ _ _ Hgg)].
  - intros gi i Hg. rewrite Hs. by apply (s_none _ Hok).
  - eapply rows_step; [exact Hok|exact Hk|]. intros y (gi & gg & i & Hg & Hr). left. exists gi, gg, i. by rewrite <- Eg.
Qed.

Lemma apart_net cfg rn :
  Labrpc.servers rn = Labrpc.servers (cfg_net cfg) → keeps none (cfg_net cfg) rn → apart cfg (cfg <| cfg_net := rn |>).
Proof. intros Hs Hk. split; try done. intros g i. by apply server_at_net. Qed.

Lemma make_end_apart name server cfg cfg' :
  make_end name server cfg = Ok cfg' → apart cfg cfg' ∧ ctl cfg' = ctl cfg ∧
  connections (cfg_net cfg') !! inl name = Some (Some (inl server)) ∧ enabled (cfg_net cfg') !! inl name = Some true ∧
  ends (cfg_net cfg) !! inl name = None ∧ is_Some (ends (cfg_net cfg') !! inl name).
Proof.
  intros (rn & (K & Hn & Hs & Hc & He & S)%open_end_keeps & [= <-])%bind_Ok. split; [by apply apart_net|]. by repeat split.
Qed.

Lemma makeClient_apart names c cfg cfg' ck :
  makeClient names c cfg = Ok (cfg', ck) → apart cfg cfg' ∧ ctl cfg' = ctl cfg.
Proof.
  intros ([es rn] & (K & _ & S)%client_ends_gets & [= <- _])%bind_Ok. split; [|done].
  split; try done. intros g i. by apply server_at_net.
Qed.

Lemma shard_exec_ok op cfg cfg' : harness_ok cfg → shard_allowed cfg op → shard_exec op cfg = Ok cfg' → harness_ok cfg'.
Proof.
  intros Hok Ha Hx. destruct op as [gi i|gi i names mnames now|name server|names|ck|o s']; cbn [shard_exec shard_allowed] in Ha, Hx.
  - apply ShutdownServer_inv in Hx as (gg & Hg & Hsh). by eapply shut_ok.
  - apply StartServer_inv in Hx as (gg & ps & s & Hg & Hst). by eapply started_ok.
  - apply make_end_apart in Hx as (Ha' & Ec & _). eapply apart_ok; [exact Ha'|rewrite Ec; apply (s_ctl _ Hok)|exact Hok].
  - apply bind_Ok in Hx as ([cfg1 ck] & Hc & [= <-]). apply makeClient_apart in Hc as [Ha' Ec].
    eapply apart_ok; [exact Ha'|rewrite Ec; apply (s_ctl _ Hok)|exact Hok].
  - injection Hx as <-. by eapply apart_ok; [|apply (s_ctl _ Hok)|exact Hok].
  - destruct Ha as (s & op & rf' & Hs & Hop & ->). rewrite Hs in Hx. injection Hx as <-.
    destruct Hok as [Hg Hn Ho Hrw Hc]. split; cbn; [|done| |done|done].
    + intros gi gg Hgi. pose proof (Hg _ _ Hgi) as []. split; cbn; rewrite ?length_insert; done.
    + intros o' s'' [(-> & <- & _)|[_ Ho']]%list_lookup_insert_Some; [|by apply Ho in Ho'].
      eapply (exec_op_durable (C:=unit)); [by eapply Ho|exact Hop].
Qed.

(** ** The start of a test *)
Lemma apart_refl cfg : apart cfg cfg.
Proof. done. Qed.

Lemma apart_trans cfg1 cfg2 cfg3 : apart cfg1 cfg2 → apart cfg2 cfg3 → apart cfg1 cfg3.
Proof.
  intros [(E1 & E2 & E3) E4 K1 E5] [(F1 & F2 & F3) F4 K2 F5]. split.
  - split; [|split]; congruence.
  - by etrans.
  - by eapply keeps_trans.
  - intros g i. by rewrite F5.
Qed.

Context (ctrl_rcvr ctrl_rf_rcvr : nat → Rcvr rtype).
Notation make_config := (make_config kv_rcvr kv_rf_rcvr ctrl_rcvr ctrl_rf_rcvr).

(** The names of controllers. *)
Definition ctrler_names (c : ctrler) : Prop := ∀ i name, ctl_names c !! i = Some name → ∃ r, name = "ctlr-" +:+ r.

Lemma StartCtrlerServer_apart i names now c cfg c' cfg' :
  StartCtrlerServer ctrl_rcvr ctrl_rf_rcvr i names now c cfg = Ok (c', cfg') → ctrler_names c →
  apart cfg cfg' ∧ ctl_names c' = ctl_names c ∧ ctl_n c' = ctl_n c.
Proof.
  intros (rn & (K & _ & S)%open_ends_gets & Hx)%bind_Ok Hc.
  apply bind_Ok in Hx as ([s gs] & _ & (ss & _ & (name & Hn & [= <- <-])%bind_Ok)%bind_Ok).
  split; [|done]. apply bind_Ok in Hn as (nm & Hn%or_panic_Ok & [= <-]). destruct (Hc _ _ Hn) as [r ->].
  split; [done|by eexists|exact K|]. intros g k. cbn. unfold add_services. cbn. rewrite AddServer_other by done. by apply server_at_net.
Qed.

Lemma start_ctrlers_apart i draws c cfg c' cfg' :
  start_ctrlers ctrl_rcvr ctrl_rf_rcvr i draws c cfg = Ok (c', cfg') → ctrler_names c →
  apart cfg cfg' ∧ ctl_names c' = ctl_names c ∧ ctl_n c' = ctl_n c.
Proof.
  revert i c cfg. induction draws as [|[names now] draws IH]; intros i c cfg Hx Hc; cbn in Hx.
  - injection Hx as <- <-. split; [apply apart_refl|done].
  - apply bind_Ok in Hx as ([c1 cfg1] & H1' & Hx). destruct (StartCtrlerServer_apart _ _ _ _ _ _ _ H1' Hc) as (Ha & En & Em).
    destruct (IH _ _ _ Hx) as (Ha' & En' & Em'); [unfold ctrler_names; by rewrite En|].
    split; [by eapply apart_trans|]. split; congruence.
Qed.

Lemma StartCtrlerService_ok rands draws names cfg cfg' :
  length rands = 3%nat → StartCtrlerService ctrl_rcvr ctrl_rf_rcvr rands draws names cfg = Ok cfg' →
  harness_ok cfg → harness_ok cfg' ∧ cfg_n cfg' = cfg_n cfg ∧ groups cfg' = groups cfg.
Proof.
  intros Hl (p & Hs & Hx)%bind_Ok Hok. destruct p as [c cfg1].
  destruct (start_ctrlers_apart _ _ _ _ _ _ Hs) as (Ha & En & Em).
  { intros i name Hn. cbn in Hn. rewrite list_lookup_fmap in Hn. apply fmap_Some in Hn as (r & _ & ->). by exists r. }
  apply bind_Ok in Hx as ([[ck es] cfg2] & Hck & [= <-]). apply bind_Ok in Hck as (rn & (K & _ & S)%open_ends_gets & [= <- <- <-]).
  split; [|by destruct Ha as [(E1 & E2 & _) _ _]]. cbn in En, Em.
  eapply apart_ok; [|cbn; by rewrite En, Em, length_fmap|exact Hok].
  eapply apart_trans; [exact Ha|]. split; try done. intros g i. by apply server_at_net.
Qed.

(** Making a group whose servers are not started. *)
Lemma new_group_rows gi cfg y n m :
  rows (cfg <| groups := <[gi := Some (new_group n m gi)]> (groups cfg) |>) y → rows cfg y.
Proof.
  intros (gi' & gg & k & [(<- & [= <-] & _)|[_ Hg]]%list_lookup_insert_Some & Hr); [|by exists gi', gg, k].
  by destruct Hr as (row & [[? _]%lookup_replicate|[? _]%lookup_replicate] & _).
Qed.

Lemma new_group_ok gi cfg cfg' :
  harness_ok cfg → groups cfg !! gi = Some None →
  set_group gi (new_group (cfg_n cfg) (ctl_n (ctl cfg)) gi) cfg = Ok cfg' →
  harness_ok cfg' ∧ cfg_n cfg' = cfg_n cfg ∧ groups cfg' = <[gi := Some (new_group (cfg_n cfg) (ctl_n (ctl cfg)) gi)]> (groups cfg).
Proof.
  intros Hok Hg (_ & ->)%set_group_Ok. split; [|done].
  split; cbn; [| |exact (s_object _ Hok)|intros y Hy%new_group_rows; by apply (s_rows _ Hok)|exact (s_ctl _ Hok)].
  - intros gi' gg [(<- & [= <-] & _)|[_ Hg']]%list_lookup_insert_Some; [|by destruct (s_group _ Hok _ _ Hg'); split].
    split; cbn; rewrite ?length_replicate; try done.
    + intros i inst [-> _]%lookup_replicate. by apply (s_none _ Hok).
    + intros i o [? _]%lookup_replicate. done.
    + intros i o [? _]%lookup_replicate. done.
    + intros i ref [? _]%lookup_replicate. done.
  - intros gi' i [(_ & ? & _)|[_ Hg']]%list_lookup_insert_Some; [done|]. by apply (s_none _ Hok).
Qed.

Lemma StartGroup_ok gi i draws n cfg cfg' :
  harness_ok cfg → cfg_n cfg = n → Forall (λ d : list string * list string * Z, length d.1.1 = n) draws →
  StartGroup_loop kv_rcvr kv_rf_rcvr gi i draws cfg = Ok cfg' →
  harness_ok cfg' ∧ cfg_n cfg' = n ∧ ∀ gi', gi' ≠ gi → groups cfg' !! gi' = groups cfg !! gi'.
Proof.
  revert i cfg. induction draws as [|[[names mnames] now] draws IH]; intros i cfg Hok Hn Hd Hx; cbn in Hx.
  - by injection Hx as <-.
  - apply Forall_cons in Hd as [Hl Hd]. apply bind_Ok in Hx as (cfg1 & Hs & Hx).
    apply StartServer_inv in Hs as (gg & ps & s & Hg & Hst). cbn in Hl.
    pose proof (started_ok _ _ _ _ _ _ _ _ _ _ Hok Hg (eq_trans Hl (eq_sym Hn)) Hst) as Hok1.
    destruct (st_same _ _ _ _ _ _ _ _ _ _ Hst) as (Hn1 & _). destruct (st_group _ _ _ _ _ _ _ _ _ _ Hst) as (gg' & Hgs & _).
    destruct (IH _ _ Hok1 ltac:(congruence) Hd Hx) as (? & ? & Ho). split; [done|]. split; [done|].
    intros gi' Hne. rewrite (Ho gi' Hne), Hgs. by apply list_lookup_insert_ne.
Qed.

Lemma start_groups_ok gi draws n cfg cfg' :
  harness_ok cfg → cfg_n cfg = n → (∀ gi', (gi <= gi')%nat → (gi' < length (groups cfg))%nat → groups cfg !! gi' = Some None) →
  Forall (Forall (λ d : list string * list string * Z, length d.1.1 = n)) draws →
  start_groups kv_rcvr kv_rf_rcvr gi draws cfg = Ok cfg' → harness_ok cfg'.
Proof.
  revert gi cfg. induction draws as [|d draws IH]; intros gi cfg Hok Hn Hnone Hd Hx; cbn in Hx; [by injection Hx as <-|].
  apply Forall_cons in Hd as [Hd1 Hd]. apply bind_Ok in Hx as (cfg1 & Hs & (cfg2 & Hg & Hx)%bind_Ok).
  assert (gi < length (groups cfg))%nat as Hlt by (by apply set_group_Ok in Hs as [? _]).
  destruct (new_group_ok gi cfg cfg1 Hok (Hnone gi ltac:(done) Hlt) Hs) as (Hok1 & Hn1 & Hg1).
  destruct (StartGroup_ok gi 0 d n cfg1 cfg2 Hok1 ltac:(congruence) Hd1 Hg) as (Hok2 & Hn2 & Ho).
  apply (IH (S gi) cfg2 Hok2 Hn2); [|done|done]. intros gi' Hle Hlt'. rewrite Ho by lia. rewrite Hg1, list_lookup_insert_ne by lia.
  apply Hnone; [lia|]. destruct (decide (gi' < length (groups cfg))%nat) as [|Hge]; [done|].
  apply lookup_lt_is_Some_2 in Hlt' as [x Hx']. rewrite Ho, Hg1, list_lookup_insert_ne in Hx' by lia. by apply lookup_lt_Some in Hx'.
Qed.

Lemma make_config_ok n unreliable size now rands ctl_draws ctl_names draws cfg :
  length rands = 3%nat → Forall (Forall (λ d : list string * list string * Z, length d.1.1 = n)) draws →
  make_config n unreliable size now rands ctl_draws ctl_names draws = Ok cfg → harness_ok cfg.
Proof.
  intros Hl Hd (cfg1 & Hc & (cfg2 & Hg & [= <-])%bind_Ok)%bind_Ok.
  apply StartCtrlerService_ok in Hc as (Hok1 & Hn1 & Hg1); [|done|].
  - assert (harness_ok cfg2) as Hok2; [|eapply apart_ok; [by apply apart_net|apply (s_ctl _ Hok2)|exact Hok2]].
    eapply (start_groups_ok 0 draws n cfg1); [done|by rewrite Hn1| |done|exact Hg].
    intros gi _ Hlt. rewrite Hg1 in Hlt |- *. by apply lookup_replicate.
  - split; cbn [groups kv_objects ctl cfg_net]; try done.
    + intros gi gg Hgi. by apply lookup_replicate in Hgi as [? _].
    + intros y (gi & gg & k & Hgi & _). by apply lookup_replicate in Hgi as [? _].
Qed.

Inductive shard_reach : config → Prop :=
  | shard_new n unreliable size now rands ctl_draws ctl_names draws cfg :
      length rands = 3%nat → Forall (Forall (λ d : list string * list string * Z, length d.1.1 = n)) draws →
      make_config n unreliable size now rands ctl_draws ctl_names draws = Ok cfg → shard_reach cfg
  | shard_do cfg op cfg' : shard_reach cfg → shard_allowed cfg op → shard_exec op cfg = Ok cfg' → shard_reach cfg'.

Lemma shard_reach_ok cfg : shard_reach cfg → harness_ok cfg.
Proof. induction 1; [by eapply make_config_ok|by eapply shard_exec_ok]. Qed.
End ShardLife.
