(* ===== verification/ShardTests.v ===== *)
(** * ShardTests: what the tests of the sharded service may rely on

    The names that [joinm] tells the controllers are the ones clerks reach the
    running servers of the groups by, and a group server that is shut down and
    started again has what was stored before, whatever happens in between. *)
From stdpp Require Import base gmap strings pretty list_numbers option list.
From Stdlib Require Import ZArith Lia.
From S2P Require Import Prelude Labgob GoStrings Labrpc RaftTypes Raft RaftNode ShardCtrler ShardKv RaftHarness RaftHarnessNet ServiceHarness ServiceNet ShardHarness ShardLife.
#[local] Open Scope Z_scope.
#[local] Open Scope go_scope.

Section ShardTests.
Context `{GobLaws (PersistentState unit)}.
Context {rtype : Type} (kv_rcvr kv_rf_rcvr ctrl_rcvr ctrl_rf_rcvr : nat → Rcvr rtype).
Notation config := (config rtype).
Implicit Types (cfg : config) (gg : group) (gi i o : nat) (s : ShardKV).

Notation StartServer := (StartServer kv_rcvr kv_rf_rcvr).
Notation shard_exec := (shard_exec kv_rcvr kv_rf_rcvr).
Notation shard_reach := (shard_reach kv_rcvr kv_rf_rcvr ctrl_rcvr ctrl_rf_rcvr).
Notation service_of := (service_of kv_rcvr kv_rf_rcvr).
Notation harness_ok := (harness_ok kv_rcvr kv_rf_rcvr).

(** ** Steps of a test *)

(** The test, and what it does to one group. *)
Lemma shard_exec_same op cfg cfg' :
  shard_exec op cfg = Ok cfg' → cfg_n cfg' = cfg_n cfg ∧ ctl cfg' = ctl cfg.
Proof.
  intros Hx. destruct op as [gi i|gi i names mnames now|name server|names|ck|o s]; cbn in Hx.
  - apply ShutdownServer_inv in Hx as (gg & _ & Hsh). by destruct (sh_same _ _ _ _ _ Hsh) as [(En & Ec & _) _].
  - apply StartServer_inv in Hx as (gg & ps & s & _ & Hst). by destruct (st_same _ _ _ _ _ _ _ _ _ _ _ _ Hst) as (En & Ec & _).
  - apply make_end_apart in Hx as (Ha & Ec & _). by destruct (n_same _ _ Ha).
  - apply bind_Ok in Hx as ([cfg1 ck] & Hc & [= <-]). apply makeClient_apart in Hc as [Ha Ec]. by destruct (n_same _ _ Ha).
  - by injection Hx as <-.
  - by apply bind_Ok in Hx as (s0 & _ & [= <-]).
Qed.

Lemma shard_exec_groups op cfg cfg' :
  shard_exec op cfg = Ok cfg' →
  groups cfg' = groups cfg ∨
  (∃ gi i gg, op = HShutdown gi i ∧ groups cfg !! gi = Some (Some gg) ∧ shut gi i gg cfg cfg') ∨
  ∃ gi i names mnames now gg ps s, op = HStart gi i names mnames now ∧ groups cfg !! gi = Some (Some gg) ∧
    started kv_rcvr kv_rf_rcvr gi i names mnames now gg ps s cfg cfg'.
Proof.
  intros Hx. destruct op as [gi i|gi i names mnames now|name server|names|ck|o s]; cbn in Hx.
  - apply ShutdownServer_inv in Hx as (gg & Hg & Hsh). right. left. by exists gi, i, gg.
  - apply StartServer_inv in Hx as (gg & ps & s & Hg & Hst). right. right. by exists gi, i, names, mnames, now, gg, ps, s.
  - left. apply make_end_apart in Hx as (Ha & _). apply (n_same _ _ Ha).
  - left. apply bind_Ok in Hx as ([cfg1 ck] & Hc & [= <-]). apply makeClient_apart in Hc as [Ha _]. apply (n_same _ _ Ha).
  - left. by injection Hx as <-.
  - left. by apply bind_Ok in Hx as (s0 & _ & [= <-]).
Qed.

Lemma shard_exec_keeps op cfg cfg' :
  shard_exec op cfg = Ok cfg' → keeps (rows cfg) (cfg_net cfg) (cfg_net cfg').
Proof.
  intros Hx. destruct op as [gi i|gi i names mnames now|name server|names|ck|o s]; cbn in Hx.
  - apply ShutdownServer_inv in Hx as (gg & Hg & Hsh). eapply keeps_weaken; [|apply (sh_net _ _ _ _ _ Hsh)].
    intros y Hy. by exists gi, gg, i.
  - apply StartServer_inv in Hx as (gg & ps & s & Hg & Hst). by eapply keeps_weaken; [|apply Hst].
  - apply make_end_apart in Hx as ([_ _ K _] & _). by eapply keeps_weaken; [|exact K].
  - apply bind_Ok in Hx as ([cfg1 ck] & Hc & [= <-]). apply makeClient_apart in Hc as [[_ _ K _] _].
    by eapply keeps_weaken; [|exact K].
  - injection Hx as <-. apply keeps_refl.
  - apply bind_Ok in Hx as (s0 & _ & [= <-]). apply keeps_refl.
Qed.

Lemma rows_groups cfg cfg' y : groups cfg' = groups cfg → rows cfg' y → rows cfg y.
Proof. intros E (gi & gg & i & Hg & Hr). exists gi, gg, i. by rewrite <- E. Qed.

Lemma shard_exec_rows op cfg cfg' y :
  shard_exec op cfg = Ok cfg' → rows cfg' y → rows cfg y ∨ ends (cfg_net cfg) !! inl y = None.
Proof.
  intros [Eg|[(gi & i & gg & _ & Hg & Hsh)|(gi & i & names & mnames & now & gg & ps & s & _ & Hg & Hst)]]%shard_exec_groups Hy.
  - left. by eapply rows_groups.
  - left. by eapply shut_rows.
  - apply (started_rows _ _ _ _ _ _ _ _ _ _ _ _ _ Hg Hst) in Hy. tauto.
Qed.

(** Groups stay. *)
Lemma shard_exec_group op cfg cfg' gi gg :
  shard_exec op cfg = Ok cfg' → groups cfg !! gi = Some (Some gg) → ∃ gg', groups cfg' !! gi = Some (Some gg').
Proof.
  intros Hx Hg. assert (∀ gi0 gg0, groups cfg' = <[gi0 := Some gg0]> (groups cfg) → ∃ gg', groups cfg' !! gi = Some (Some gg')) as Hi.
  { intros gi0 gg0 E. rewrite E. destruct (decide (gi0 = gi)) as [->|Hne].
    - exists gg0. apply list_lookup_insert_eq. by eapply lookup_lt_Some.
    - exists gg. by rewrite list_lookup_insert_ne. }
  apply shard_exec_groups in Hx
    as [->|[(gi0 & i & gg0 & _ & Hg0 & Hsh)|(gi0 & i & names & mnames & now & gg0 & ps & s & _ & Hg0 & Hst)]].
  - by exists gg.
  - destruct (sh_group _ _ _ _ _ Hsh) as (sv & E & _). by eapply Hi.
  - destruct (st_group _ _ _ _ _ _ _ _ _ _ _ _ Hst) as (gg' & E & _). by eapply Hi.
Qed.

Inductive later (ok : ShardOp → Prop) : config → config → Prop :=
  | later_now cfg : later ok cfg cfg
  | later_step cfg op cfg1 cfg2 :
      ok op → shard_allowed cfg op → shard_exec op cfg = Ok cfg1 → later ok cfg1 cfg2 → later ok cfg cfg2.

Lemma later_ind_ok (P : config → Prop) ok cfg cfg' :
  (∀ c op c', harness_ok c → ok op → shard_allowed c op → shard_exec op c = Ok c' → P c → P c') →
  later ok cfg cfg' → harness_ok cfg → P cfg → harness_ok cfg' ∧ P cfg'.
Proof.
  intros Hs. induction 1 as [|c op c1 c2 Ho Ha Hx _ IH]; [done|]. intros Hok Hp.
  apply IH; [by eapply shard_exec_ok|by eapply Hs].
Qed.

Definition anything : ShardOp → Prop := λ _, True.

Lemma later_group ok cfg cfg' gi gg :
  later ok cfg cfg' → harness_ok cfg → groups cfg !! gi = Some (Some gg) →
  harness_ok cfg' ∧ (∃ gg', groups cfg' !! gi = Some (Some gg')) ∧ cfg_n cfg' = cfg_n cfg ∧ ctl cfg' = ctl cfg.
Proof.
  intros Hl Hok Hg. apply (later_ind_ok (λ c, (∃ gg', groups c !! gi = Some (Some gg')) ∧ cfg_n c = cfg_n cfg ∧ ctl c = ctl cfg) ok cfg cfg');
    [|done|done|by split; [exists gg|]].
  intros c op c' _ _ _ Hx ((gg' & Hg') & En & Ec). destruct (shard_exec_same _ _ _ Hx) as [-> ->].
  split; [by eapply shard_exec_group|done].
Qed.

(** ** Ends of clerks *)

(** An end that belongs to no server. *)
Record guest (x name : string) cfg : Prop := {
  u_made : is_Some (ends (cfg_net cfg) !! inl x);
  u_connected : connections (cfg_net cfg) !! inl x = Some (Some (inl name));
  u_enabled : enabled (cfg_net cfg) !! inl x = Some true;
  u_free : ¬ rows cfg x
}.

Lemma guest_step x name op cfg cfg' : shard_exec op cfg = Ok cfg' → guest x name cfg → guest x name cfg'.
Proof.
  intros Hx [Hm Hc He Hf]. destruct (shard_exec_keeps _ _ _ Hx x Hm) as (Hm' & Hc' & He'). split; [done|by rewrite Hc'|by rewrite He'|].
  intros Hr. destruct (shard_exec_rows _ _ _ x Hx Hr) as [|Hn]; [done|]. rewrite Hn in Hm. by destruct Hm.
Qed.

Lemma guest_made x name cfg cfg' : harness_ok cfg → make_end x name cfg = Ok cfg' → guest x name cfg'.
Proof.
  intros Hok Hx. destruct (make_end_apart _ _ _ _ Hx) as ([(_ & Eg & _) _ _ _] & _ & Hc & He & Hn & Hm).
  split; [done..|]. intros Hr%(rows_groups _ _ _ Eg). apply (s_rows _ _ _ Hok) in Hr. rewrite Hn in Hr. by destruct Hr.
Qed.

Lemma joinm_groups_spec gis cfg m g names :
  joinm_groups gis cfg = Ok m → m !! g = Some names →
  ∃ gi gg, gi ∈ gis ∧ groups cfg !! gi = Some (Some gg) ∧ gid gg = g ∧ names = servername g <$> seq 0 (cfg_n cfg).
Proof.
  unfold joinm_groups. intros Hx Hm.
  assert (∀ gis m0, for_each (λ g m, gg ← group_at g cfg; let servernames := servername (gid gg) <$> seq 0 (cfg_n cfg) in
    Ok (<[gid gg := servernames]> m)) gis m0 = Ok m → m0 !! g = Some names ∨
    ∃ gi gg, gi ∈ gis ∧ groups cfg !! gi = Some (Some gg) ∧ gid gg = g ∧ names = servername g <$> seq 0 (cfg_n cfg)) as Hall.
  { clear gis Hx. induction gis as [|gi gis IH]; intros m0 Hx; cbn in Hx; [injection Hx as <-; by left|].
    apply bind_Ok in Hx as (m1 & (gg & Hg%group_at_Ok & [= <-])%bind_Ok & Hx).
    destruct (IH _ Hx) as [Hi|(gi' & gg' & Hin & Hrest)]; [|right; exists gi', gg'; split; [by right|done]].
    apply lookup_insert_Some in Hi as [[Hgid Hn]|[_ Hi]]; [|by left]. right. exists gi, gg. split; [by left|].
    subst. done. }
  destruct (Hall _ _ Hx) as [Hi|?]; [by rewrite lookup_empty in Hi|done].
Qed.

(** C40: Clerks find the servers by the names in a configuration.  Whatever the test
    does after a group joins, a clerk that makes an end to the [i]-th name of the
    group has an end that stays on for the rest of the test and that always leads
    to the instance that runs as server [i] of that group then, or to nobody while
    that server is down. *)
Theorem join_names_reach cfg0 gis m g names i name cfg1 x cfg2 cfg :
  shard_reach cfg0 → joinm_groups gis cfg0 = Ok m → m !! g = Some names → names !! i = Some name →
  later anything cfg0 cfg1 → make_end x name cfg1 = Ok cfg2 → later anything cfg2 cfg →
  i_enabled (readEndnameInfo (inl x) (cfg_net cfg)) = true ∧
  i_servername (readEndnameInfo (inl x) (cfg_net cfg)) = Some (inl name) ∧
  ∃ gi gg inst, gi ∈ gis ∧ groups cfg !! gi = Some (Some gg) ∧ gid gg = g ∧ servers gg !! i = Some inst ∧
    match inst with
    | Some o => ∃ ptr, i_server (readEndnameInfo (inl x) (cfg_net cfg)) = Some ptr ∧ heap cfg !! ptr = Some (service_of o)
    | None => i_server (readEndnameInfo (inl x) (cfg_net cfg)) = None
    end.
Proof.
  intros Hok0%shard_reach_ok Hj Hm Hn Hl1 Hx Hl2. destruct (joinm_groups_spec _ _ _ _ _ Hj Hm) as (gi & gg0 & Hin & Hg0 & Hgid & ->).
  destruct (later_group _ _ _ gi gg0 Hl1 Hok0 Hg0) as (Hok1 & (gg1 & Hg1) & En1 & _).
  assert (shard_exec (HMakeEnd x name) cfg1 = Ok cfg2) as Hx' by done.
  assert (harness_ok cfg2) as Hok2 by (by eapply shard_exec_ok; [exact Hok1| |exact Hx']).
  destruct (shard_exec_group _ _ _ gi gg1 Hx' Hg1) as (gg2 & Hg2). destruct (shard_exec_same _ _ _ Hx') as [En2 _].
  destruct (later_group _ _ _ gi gg2 Hl2 Hok2 Hg2) as (Hok & (gg & Hg) & En & _).
  destruct (later_ind_ok (guest x name) anything cfg2 cfg) as [_ [_ Hc He _]];
    [by intros c op c' _ _ _ ?; apply (guest_step x name op)|done|done|exact (guest_made _ _ _ _ Hok1 Hx)|].
  pose proof (s_group _ _ _ Hok _ _ Hg) as Hgg. unfold readEndnameInfo. cbn. rewrite Hc, He. split; [done|]. split; [done|].
  rewrite list_lookup_fmap in Hn. apply fmap_Some in Hn as (k & Hk & ->). apply lookup_seq in Hk as [-> Hk]. cbn in *.
  destruct (lookup_lt_is_Some_2 (servers gg) i) as [inst Hinst]; [rewrite (proj1 (g_len _ _ _ _ _ Hgg)); lia|].
  assert (gid gg = g) as Eg by (rewrite (g_gid _ _ _ _ _ Hgg), <- Hgid; symmetry; apply (g_gid _ _ _ _ _ (s_group _ _ _ Hok0 _ _ Hg0))).
  exists gi, gg, inst. split; [done|]. split; [done|]. split; [done|]. split; [done|].
  pose proof (g_runs _ _ _ _ _ Hgg _ _ Hinst) as Hr. rewrite Eg in Hr. by destruct inst.
Qed.
(** ** Restarts *)

(** Server [i] of a group is down and [ps] waits for its next instance. *)
Definition parked gi i (ps : Persister) cfg : Prop := ∃ gg,
  groups cfg !! gi = Some (Some gg) ∧ servers gg !! i = Some None ∧ saved gg !! i = Some (Some (Owned ps)) ∧
  (i < length (endnames gg))%nat ∧ (i < length (mendnames gg))%nat.

(** Steps that do not start it. *)
Definition unless_start gi i (op : ShardOp) : Prop := ∀ names mnames now, op ≠ HStart gi i names mnames now.

Lemma parked_step gi i ps op cfg cfg' :
  unless_start gi i op → shard_exec op cfg = Ok cfg' → parked gi i ps cfg → parked gi i ps cfg'.
Proof.
  intros Hu Hx (gg & Hg & Hd & Hs & He & Hm). apply shard_exec_groups in Hx
    as [Eg|[(gi0 & i0 & gg0 & _ & Hg0 & Hsh)|(gi0 & i0 & names & mnames & now & gg0 & ps0 & s & -> & Hg0 & Hst)]].
  - exists gg. by rewrite Eg.
  - destruct (sh_group _ _ _ _ _ Hsh) as (sv & E & Hsv). unfold parked. rewrite E.
    destruct (decide (gi0 = gi)) as [->|Hne]; [|exists gg; by rewrite list_lookup_insert_ne].
    rewrite Hg in Hg0. injection Hg0 as <-. eexists. rewrite list_lookup_insert_eq by (by eapply lookup_lt_Some).
    split; [done|]. split; [|split; [|by split]]; cbn.
    + destruct (decide (i0 = i)) as [->|Hn]; [apply list_lookup_insert_eq; by eapply lookup_lt_Some|by rewrite list_lookup_insert_ne].
    + destruct Hsv as [[_ ->]|(ref & ps' & Hr & Hps & ->)]; [done|].
      destruct (decide (i0 = i)) as [->|Hn]; [|by rewrite list_lookup_insert_ne].
      rewrite Hs in Hr. injection Hr as <-. injection Hps as <-. apply list_lookup_insert_eq. by eapply lookup_lt_Some.
  - destruct (st_group _ _ _ _ _ _ _ _ _ _ _ _ Hst) as (gg' & E & _ & Esv & Esa & Een & Emn). unfold parked. rewrite E.
    destruct (decide (gi0 = gi)) as [->|Hne]; [|exists gg; by rewrite list_lookup_insert_ne].
    assert (i0 ≠ i) as Hn by (intros ->; by eapply Hu). rewrite Hg in Hg0. injection Hg0 as <-. exists gg'.
    rewrite list_lookup_insert_eq by (by eapply lookup_lt_Some). rewrite Esv, Esa, Een, Emn, !length_insert, !list_lookup_insert_ne by done.
    done.
Qed.

Lemma parked_restarts gi i ps names mnames now cfg :
  harness_ok cfg → parked gi i ps cfg → length names = cfg_n cfg →
  (length mnames <= length (ctl_names (ctl cfg)))%nat →
  NoDup (names ++ mnames) → (∀ x, x ∈ names ++ mnames → ends (cfg_net cfg) !! inl x = None) →
  ∃ cfg' gg' o' s', StartServer gi i names mnames now cfg = Ok cfg' ∧ groups cfg' !! gi = Some (Some gg') ∧
    servers gg' !! i = Some (Some o') ∧ kv_objects cfg' !! o' = Some s' ∧ stored ps = Some (persistentState (kv_rf s')) ∧
    snapshot (kv_rf s') = ps_snapshot ps ∧ status (kv_rf s') = Follower ∧ kv_gid s' = gid gg'.
Proof.
  intros Hok (gg & Hg & Hd & Hs & He & Hm) Hl Hml Hnd Hf. pose proof (g_len _ _ _ _ _ (s_group _ _ _ Hok _ _ Hg)) as [L1 L2].
  assert (i < cfg_n cfg)%nat as Hi by (rewrite <- L1; by eapply lookup_lt_Some).
  destruct (StartServer_runs kv_rcvr kv_rf_rcvr gi i gg names mnames now cfg) as [cfg' Hx]; [done..|].
  destruct (StartServer_inv _ _ _ _ _ _ _ _ _ Hx) as (gx & ps' & s & Hg' & Hst). rewrite Hg in Hg'. injection Hg' as <-.
  destruct (st_group _ _ _ _ _ _ _ _ _ _ _ _ Hst) as (gg' & E & Egid & Esv & _).
  destruct (st_restored _ _ _ _ _ _ _ _ _ _ _ _ Hst) as [[? _]|(ref & Hr & Hps)]; [congruence|].
  rewrite Hs in Hr. injection Hr as <-. injection Hps as <-.
  destruct (kv_StartServer_Make _ _ _ _ _ _ _ _ (st_instance _ _ _ _ _ _ _ _ _ _ _ _ Hst)) as (_ & Hsto & Hsn & Hro & Hgid).
  { apply (g_stored _ _ _ _ _ (s_group _ _ _ Hok _ _ Hg) _ _ Hs). }
  exists cfg', gg', (length (kv_objects cfg)), s. rewrite E, Esv, (st_objects _ _ _ _ _ _ _ _ _ _ _ _ Hst), Egid.
  rewrite !list_lookup_insert_eq by (try lia; by eapply lookup_lt_Some). split; [done|]. split; [done|]. split; [done|].
  split; [by apply list_lookup_middle|done].
Qed.

(** Shutting down a running server of a group never fails: the instance is
    killed, nobody reaches it, and its ends are off.  Whatever the test and all
    servers do then, short of starting it, [StartServer] with new names succeeds,
    and the new instance, a follower of the same group, has the term, vote, log
    and snapshot the old one had when it was shut down. *)
Theorem shard_restart cfg gi gg i o s :
  shard_reach cfg → groups cfg !! gi = Some (Some gg) → servers gg !! i = Some (Some o) → kv_objects cfg !! o = Some s →
  ∃ cfg1, ShutdownServer gi i cfg = Ok cfg1 ∧ kv_objects cfg1 !! o = Some (kv_Kill s) ∧
    server_at (cfg_net cfg1) (inl (servername (gid gg) i)) = None ∧
    (∀ y, row_of gg i y → enabled (cfg_net cfg1) !! inl y = Some false) ∧
    ∀ cfg2 names mnames now, later (unless_start gi i) cfg1 cfg2 →
    length names = cfg_n cfg → length mnames = ctl_n (ctl cfg) → NoDup (names ++ mnames) →
    (∀ x, x ∈ names ++ mnames → ends (cfg_net cfg2) !! inl x = None) →
    ∃ cfg3 gg' o' s', StartServer gi i names mnames now cfg2 = Ok cfg3 ∧ groups cfg3 !! gi = Some (Some gg') ∧
      servers gg' !! i = Some (Some o') ∧ kv_objects cfg3 !! o' = Some s' ∧
      persistentState (kv_rf s') = persistentState (kv_rf s) ∧ snapshot (kv_rf s') = snapshot (kv_rf s) ∧
      status (kv_rf s') = Follower ∧ kv_gid s' = gid gg.
Proof.
  intros Hok%shard_reach_ok Hg Ho Hs. pose proof (s_group _ _ _ Hok _ _ Hg) as Hgg. destruct (g_len _ _ _ _ _ Hgg) as [L1 L2].
  destruct (g_rows _ _ _ _ _ Hgg _ _ Ho) as ((row & Hrow & Hrl) & [mrow Hmrow]).
  destruct (ShutdownServer_runs kv_rcvr kv_rf_rcvr gi i gg o cfg Hok Hg Ho) as [cfg1 Hx]. exists cfg1. split; [done|].
  destruct (ShutdownServer_inv _ _ _ _ Hx) as (gx & Hg' & Hsh). rewrite Hg in Hg'. injection Hg' as <-.
  split; [rewrite (sh_objects _ _ _ _ _ Hsh), Ho; by rewrite list_lookup_alter_eq, Hs|].
  split; [rewrite (server_at_net _ _ _ (sh_servers _ _ _ _ _ Hsh)); unfold server_at; cbn; by rewrite lookup_insert_eq|].
  split; [intros y Hy; apply (sh_off _ _ _ _ _ Hsh); [|done]; intros r Hr; rewrite Hrow in Hr; injection Hr as <-; lia|].
  intros cfg2 names mnames now Hl Hln Hlm Hnd Hf.
  destruct (sh_group _ _ _ _ _ Hsh) as (sv & E & Hsv).
  assert (harness_ok cfg1) as Hok1 by (by eapply (shard_exec_ok _ _ (HShutdown gi i))).
  assert (gi < length (groups cfg))%nat as Hgi by (by eapply lookup_lt_Some).
  destruct (g_saved _ _ _ _ _ Hgg _ _ Ho) as [Hsa _].
  assert (parked gi i (persister (kv_rf s)) cfg1) as Hp.
  { eexists. rewrite E, list_lookup_insert_eq by done. split; [done|]. cbn.
    split; [apply list_lookup_insert_eq; by eapply lookup_lt_Some|]. split; [|split; by eapply lookup_lt_Some].
    destruct Hsv as [[? _]|(ref & ps & Hr & Hps & ->)]; [congruence|]. rewrite Hsa in Hr. injection Hr as <-.
    cbn in Hps. rewrite Hs in Hps. injection Hps as <-. apply list_lookup_insert_eq. by eapply lookup_lt_Some. }
  destruct (later_ind_ok (parked gi i (persister (kv_rf s))) (unless_start gi i) cfg1 cfg2) as [Hok2 Hp2];
    [intros c op c' _ Hu _ ?; by apply (parked_step gi i _ op)|done..|].
  destruct (later_group _ _ _ gi (gg <| saved := sv |> <| servers := <[i := None]> (servers gg) |>) Hl Hok1) as (_ & _ & En & Ec);
    [rewrite E; by apply list_lookup_insert_eq|].
  destruct (shard_exec_same (HShutdown gi i) _ _ Hx) as [En1 Ec1].
  destruct (parked_restarts gi i (persister (kv_rf s)) names mnames now cfg2) as (cfg3 & gg' & o' & s' & Hst & Hg3 & Ho3 & Hs3 & Hsto & Hsn & Hro & Hgid);
    [done|done|congruence|rewrite (s_ctl _ _ _ Hok2), Ec, Ec1; lia|done|done|].
  exists cfg3, gg', o', s'. destruct (s_object _ _ _ Hok _ _ Hs) as [D1 D2]. split; [done|]. split; [done|]. split; [done|]. split; [done|].
  split; [congruence|]. split; [congruence|]. split; [done|]. rewrite Hgid.
  assert (harness_ok cfg3) as Hok3 by (eapply (shard_exec_ok _ _ (HStart gi i names mnames now)); [exact Hok2|cbn; congruence|exact Hst]).
  rewrite (g_gid _ _ _ _ _ Hgg). apply (g_gid _ _ _ _ _ (s_group _ _ _ Hok3 _ _ Hg3)).
Qed.
End ShardTests.
