(* ===== verification/ShardRuns.v ===== *)
(** * ShardRuns: a test of the sharded service on three groups of three servers

    The state [make_config] makes and a few steps from it, as instances of the
    theorems of [ShardTests], and what the harness does with more servers in a
    group than there are controllers, or fewer. *)
From stdpp Require Import base gmap strings pretty list_numbers option list countable.
From Stdlib Require Import ZArith Lia.
From S2P Require Import Prelude Labgob GoStrings Labrpc RaftTypes Raft RaftNode RaftRuns ShardCtrler ShardKv RaftHarness RaftHarnessNet ServiceHarness ServiceNet ServiceRuns ShardHarness ShardLife ShardTests.
#[local] Open Scope Z_scope.
#[local] Open Scope go_scope.

#[local] Instance unit_codec : GobStream (PersistentState unit) := countable_stream.
#[local] Instance unit_codec_laws : GobLaws (PersistentState unit) := countable_stream_laws.

Definition shard_rcvr (o : nat) : Rcvr unit := mkRcvr _ o "ShardKV" [handler "Get"; other "Kill"; handler "PutAppend"].
Definition ctrl_rcvr (o : nat) : Rcvr unit :=
  mkRcvr _ o "ShardCtrler" [handler "Join"; other "Kill"; handler "Leave"; handler "Move"; handler "Query"; other "Raft"].

Notation config := (config unit).
Notation run_config := (make_config shard_rcvr raft_rcvr ctrl_rcvr raft_rcvr).

(** Names for [m] ends. *)
Definition names_for (who : string) (m : nat) : list string := (λ j, who +:+ pretty j) <$> seq 0 m.

Definition group_draws (n m gi : nat) : list (list string * list string * Z) :=
  (λ i, let who := "g" +:+ pretty gi +:+ "s" +:+ pretty i in (names_for (who +:+ "e") n, names_for (who +:+ "m") m, 0))
    <$> seq 0 n.

Definition controller_draws : list (list string * Z) := (λ i, (names_for ("c" +:+ pretty i +:+ "e") 3, 0)) <$> seq 0 3.

Definition run (n : nat) : result config :=
  run_config n false (-1) 0 ["x"; "y"; "z"] controller_draws (names_for "ck" 3) (group_draws n 3 <$> seq 0 3).

Definition nothing : config := mkConfig MakeNetwork [] [] [] 0 (mkCtrler 0 [] [] None) 0 0 [] [] ∅ 0 0.
Definition begun : config := match run 3 with Ok cfg => cfg | _ => nothing end.

Definition is_Ok {A} (r : result A) : bool := match r with Ok _ => true | _ => false end.

Lemma is_Ok_eq {A} (r : result A) (a : A) : is_Ok r = true → r = Ok (match r with Ok v => v | _ => a end).
Proof. by destruct r. Qed.

Lemma run_begun : run 3 = Ok begun.
Proof. apply is_Ok_eq. vm_compute. reflexivity. Qed.

Lemma begun_reach : shard_reach shard_rcvr raft_rcvr ctrl_rcvr raft_rcvr begun.
Proof.
  eapply shard_new; [| |exact run_begun]; [reflexivity|].
  apply (bool_decide_unpack _). vm_compute. exact I.
Qed.

(** ** A clerk and a server that restarts *)
Definition or_nothing (r : result config) : config := match r with Ok cfg => cfg | _ => nothing end.

Definition joined : gmap Z (list string) := match joinm_groups [1]%nat begun with Ok m => m | _ => ∅ end.
Definition with_end : config := or_nothing (make_end "k" "server-101-2" begun).
Definition without : config := or_nothing (ShutdownServer 1 2 with_end).
Definition again : config := or_nothing (StartServer shard_rcvr raft_rcvr 1 2 (names_for "n" 3) (names_for "o" 3) 0 without).

Notation later := (later shard_rcvr raft_rcvr).

Lemma joined_Ok : joinm_groups [1]%nat begun = Ok joined.
Proof. apply is_Ok_eq. vm_compute. reflexivity. Qed.

Lemma with_end_Ok : make_end "k" "server-101-2" begun = Ok with_end.
Proof. apply is_Ok_eq. vm_compute. reflexivity. Qed.

Lemma later_without : later anything with_end without.
Proof.
  eapply (later_step _ _ _ _ (HShutdown 1 2)); [exact I|exact I| |apply later_now].
  apply is_Ok_eq. vm_compute. reflexivity.
Qed.

Lemma later_again : later anything with_end again.
Proof.
  eapply (later_step _ _ _ _ (HShutdown 1 2) without); [exact I|exact I|apply is_Ok_eq; vm_compute; reflexivity|].
  eapply (later_step _ _ _ _ (HStart 1 2 (names_for "n" 3) (names_for "o" 3) 0)); [exact I|vm_compute; reflexivity| |apply later_now].
  apply is_Ok_eq. vm_compute. reflexivity.
Qed.

Definition instance_at (cfg : config) (gi i : nat) : option (option nat) :=
  gg ← groups cfg !! gi; gg ← gg; servers gg !! i.

Lemma instance_at_eq cfg gi gg i inst :
  groups cfg !! gi = Some (Some gg) → servers gg !! i = Some inst → instance_at cfg gi i = Some inst.
Proof. intros Hg Hi. unfold instance_at. by rewrite Hg. Qed.

(** Group 101 joins, a clerk makes an end to its last server; the server is shut
    down and started again, and the end leads to the tenth server of the test. *)
Lemma join_names_reach_witness :
  i_server (readEndnameInfo (inl "k") (cfg_net without)) = None ∧
  i_enabled (readEndnameInfo (inl "k") (cfg_net again)) = true ∧
  ∃ ptr, i_server (readEndnameInfo (inl "k") (cfg_net again)) = Some ptr ∧
    heap again !! ptr = Some (service_of shard_rcvr raft_rcvr 9).
Proof.
  assert (joined !! 101 = Some (servername 101 <$> seq 0 3)) as Hj by (vm_compute; reflexivity).
  assert ((servername 101 <$> seq 0 3) !! 2%nat = Some "server-101-2") as Hn by (vm_compute; reflexivity).
  destruct (join_names_reach shard_rcvr raft_rcvr ctrl_rcvr raft_rcvr begun [1]%nat joined 101 _ 2 "server-101-2" begun "k" with_end _
      begun_reach joined_Ok Hj Hn (later_now _ _ _ _) with_end_Ok later_without)
    as (_ & _ & gi & gg & inst & ->%list_elem_of_singleton & Hg & _ & Hi & Hinst).
  assert (inst = None) as ->.
  { pose proof (instance_at_eq _ _ _ _ _ Hg Hi) as E. vm_compute in E. injection E as <-. reflexivity. }
  split; [exact Hinst|].
  destruct (join_names_reach shard_rcvr raft_rcvr ctrl_rcvr raft_rcvr begun [1]%nat joined 101 _ 2 "server-101-2" begun "k" with_end _
      begun_reach joined_Ok Hj Hn (later_now _ _ _ _) with_end_Ok later_again)
    as (He & _ & gi' & gg' & inst' & ->%list_elem_of_singleton & Hg' & _ & Hi' & Hinst').
  split; [exact He|].
  assert (inst' = Some 9%nat) as ->.
  { pose proof (instance_at_eq _ _ _ _ _ Hg' Hi') as E. vm_compute in E. injection E as <-. reflexivity. }
  exact Hinst'.
Defined.

(** ** A server that votes for itself and restarts *)
Definition votes (s : ShardKV) : ShardKV :=
  mkShardKV (kv_me s) (fst (fst (ticker (1000 * millisecond) 0 (200 * millisecond) (kv_rf s)))) (kv_gid s) (kv_ctrlers s)
    (kv_maxraftstate s).

Definition voted : config := begun <| kv_objects := alter votes 0%nat (kv_objects begun) |>.

Lemma ballot_reach : shard_reach shard_rcvr raft_rcvr ctrl_rcvr raft_rcvr voted.
Proof.
  assert (is_Some (kv_objects begun !! 0%nat)) as [s Hs].
  { apply lookup_lt_is_Some_2. vm_compute. apply (bool_decide_unpack _). reflexivity. }
  eapply (shard_do _ _ _ _ begun (HServe 0 (votes s))); [exact begun_reach| |].
  - exists s, (OpTicker (1000 * millisecond) 0 (200 * millisecond)). eexists. split; [exact Hs|]. split; reflexivity.
  - cbn [shard_exec]. rewrite Hs. cbn [or_panic mbind result_bind]. unfold voted.
    by rewrite (insert_alter_at votes _ _ s Hs).
Qed.

Definition voted_down : config := or_nothing (ShutdownServer 0 0 voted).

(** The new instance of server 0 of group 100 has the vote it gave. *)
Lemma shard_restart_witness :
  ∃ cfg gg' o' s', StartServer shard_rcvr raft_rcvr 0 0 (names_for "n" 3) (names_for "o" 3) 0 voted_down = Ok cfg ∧
    groups cfg !! 0%nat = Some (Some gg') ∧ servers gg' !! 0%nat = Some (Some o') ∧ kv_objects cfg !! o' = Some s' ∧
    CurrentTerm (kv_rf s') = 1 ∧ VotedFor (kv_rf s') = 0.
Proof.
  assert (instance_at voted 0 0 = Some (Some 0%nat)) as Hi by (vm_compute; reflexivity).
  unfold instance_at in Hi. destruct (groups voted !! 0%nat) as [[gg|]|] eqn:Hg; [|discriminate Hi..]. cbn in Hi.
  assert ((λ s, (CurrentTerm (kv_rf s), VotedFor (kv_rf s))) <$> kv_objects voted !! 0%nat = Some (1, 0)) as Hv
    by (vm_compute; reflexivity).
  destruct (kv_objects voted !! 0%nat) as [s|] eqn:Hs; [|discriminate Hv]. cbn in Hv. injection Hv as Ht Hv.
  destruct (shard_restart shard_rcvr raft_rcvr ctrl_rcvr raft_rcvr voted 0 gg 0 0 s ballot_reach Hg Hi Hs)
    as (cfg1 & Hx & _ & _ & _ & Hre).
  assert (cfg1 = voted_down) as -> by (unfold voted_down; by rewrite Hx).
  destruct (Hre voted_down (names_for "n" 3) (names_for "o" 3) 0 (later_now _ _ _ _))
    as (cfg3 & gg' & o' & s' & Hst & Hg3 & Ho3 & Hs3 & Hps & _).
  - vm_compute. reflexivity.
  - vm_compute. reflexivity.
  - apply (bool_decide_unpack _). vm_compute. exact I.
  - assert (forallb (λ x, match ends (cfg_net voted_down) !! inl x with None => true | _ => false end)
      (names_for "n" 3 ++ names_for "o" 3) = true) as Hf by (vm_compute; reflexivity).
    intros x Hin%list_elem_of_In. rewrite forallb_forall in Hf. apply Hf in Hin. by destruct (ends _ !! inl x).
  - exists cfg3, gg', o', s'. split; [exact Hst|]. split; [exact Hg3|]. split; [exact Ho3|]. split; [exact Hs3|].
    unfold persistentState in Hps. injection Hps as -> -> _ _ _. split; assumption.
Defined.

(** ** Sizes *)

(** [makeClient] keeps the names of the ends to the controllers in a slice with
    a slot for each server of a group. *)
Example client_of_one : ∀ cfg, run 1 = Ok cfg → is_Ok (makeClient (names_for "q" 3) (ctl cfg) cfg) = false.
Proof.
  intros cfg Hr. assert (match run 1 with Ok c => is_Ok (makeClient (names_for "q" 3) (ctl c) c) | _ => true end = false) as E
    by (vm_compute; reflexivity). by rewrite Hr in E.
Qed.

(** A group keeps the names of its servers' ends to the controllers in a slice
    with a slot for each controller. *)
Example groups_of_four : run 4 = Panic.
Proof. vm_compute. reflexivity. Qed.

Example groups_of_three : is_Ok (run 3) = true.
Proof. vm_compute. reflexivity. Qed.
