(* ===== verification/MrCoordinator.v ===== *)
(** * MrCoordinator: the MapReduce coordinator of [src/src/mr/coordinator.go]

    [Coordinator] with its RPC handlers [RequestTask] and [TaskDone] and the
    [Done] poll of the main program.  Times are nanoseconds; each handler takes
    the mutex of the tasks it touches, so a run is a sequence of handler calls. *)
From stdpp Require Import base list gmap strings option.
From Stdlib Require Import ZArith Lia.
From S2P Require Import Prelude.
#[local] Open Scope Z_scope.
#[local] Open Scope string_scope.
#[local] Open Scope list_scope.

Inductive Status := Unassigned | Assigned | Complete.
#[export] Instance Status_eq_dec : EqDecision Status.
Proof. solve_decision. Defined.

Record Task := mkTask { filename : string; status : Status; startTime : Z }.

#[export] Instance Upd_status : Upd status := λ v t, mkTask (filename t) v (startTime t).
#[export] Instance Upd_startTime : Upd startTime := λ v t, mkTask (filename t) (status t) v.

Record RequestTaskResponse := mkRequestTaskResponse {
  rt_Filename : string;
  rt_TaskType : string;
  rt_N : Z;
  rt_TaskNumber : Z
}.
Definition zeroResponse := mkRequestTaskResponse "" "" 0 0.

Record TaskDoneArgs := mkTaskDoneArgs { td_TaskType : string; td_TaskNumber : Z }.

Record Coordinator := mkCoordinator {
  mapTasks : list Task;
  reduceTasks : list Task;
  nReduce : Z;
  mapTasksCompleted : Z;
  reduceTasksCompleted : Z;
  mapDone : bool;
  reduceDone : bool
}.

#[export] Instance Upd_mapTasks : Upd mapTasks := λ v c,
  mkCoordinator v (reduceTasks c) (nReduce c) (mapTasksCompleted c) (reduceTasksCompleted c)
    (mapDone c) (reduceDone c).
#[export] Instance Upd_reduceTasks : Upd reduceTasks := λ v c,
  mkCoordinator (mapTasks c) v (nReduce c) (mapTasksCompleted c) (reduceTasksCompleted c)
    (mapDone c) (reduceDone c).
#[export] Instance Upd_mapTasksCompleted : Upd mapTasksCompleted := λ v c,
  mkCoordinator (mapTasks c) (reduceTasks c) (nReduce c) v (reduceTasksCompleted c)
    (mapDone c) (reduceDone c).
#[export] Instance Upd_reduceTasksCompleted : Upd reduceTasksCompleted := λ v c,
  mkCoordinator (mapTasks c) (reduceTasks c) (nReduce c) (mapTasksCompleted c) v
    (mapDone c) (reduceDone c).
#[export] Instance Upd_mapDone : Upd mapDone := λ v c,
  mkCoordinator (mapTasks c) (reduceTasks c) (nReduce c) (mapTasksCompleted c)
    (reduceTasksCompleted c) v (reduceDone c).
#[export] Instance Upd_reduceDone : Upd reduceDone := λ v c,
  mkCoordinator (mapTasks c) (reduceTasks c) (nReduce c) (mapTasksCompleted c)
    (reduceTasksCompleted c) (mapDone c) v.

(** ** The operations *)

(** [for i, task := range tasks]: the first unassigned task, from index [i]. *)
Fixpoint assignLoop (now i : Z) (tasks : list Task) (taskType : string) (n : Z)
    (reply : RequestTaskResponse) : option (list Task * RequestTaskResponse) :=
  match tasks with
  | [] => None
  | task :: rest =>
      if decide (status task = Unassigned) then
        Some (task <| status := Assigned |> <| startTime := now |> :: rest,
              mkRequestTaskResponse (filename task) taskType n i)
      else
        '(rest, reply) ← assignLoop now (i + 1) rest taskType n reply;
        Some (task :: rest, reply)
  end.

(** [None] is the result [false]: nothing was assigned. *)
Definition assignTask (now : Z) (tasks : list Task) (taskType : string) (n : Z)
    (reply : RequestTaskResponse) : option (list Task * RequestTaskResponse) :=
  assignLoop now 0 tasks taskType n reply.

Definition set_TaskType (t : string) (r : RequestTaskResponse) : RequestTaskResponse :=
  mkRequestTaskResponse (rt_Filename r) t (rt_N r) (rt_TaskNumber r).

Definition RequestTask (now : Z) (reply : RequestTaskResponse) (c : Coordinator)
  : Coordinator * RequestTaskResponse :=
  if negb (mapDone c) then
    match assignTask now (mapTasks c) "map" (nReduce c) reply with
    | Some (tasks, reply) => (c <| mapTasks := tasks |>, reply)
    | None => (c, set_TaskType "none" reply)
    end
  else if negb (reduceDone c) then
    match assignTask now (reduceTasks c) "reduce" (len (mapTasks c)) reply with
    | Some (tasks, reply) => (c <| reduceTasks := tasks |>, reply)
    | None => (c, set_TaskType "none" reply)
    end
  else (c, reply).

(** [tasks[i].status = Complete], in range. *)
Definition complete (i : Z) (tasks : list Task) : list Task :=
  alter (λ t, t <| status := Complete |>) (Z.to_nat i) tasks.

(** The error of [TaskDone]. *)
Inductive TaskError := InvalidType | InvalidNumber.

Definition TaskDone (args : TaskDoneArgs) (c : Coordinator) : Coordinator * option TaskError :=
  let i := td_TaskNumber args in
  if decide (td_TaskType args = "map" ∧ 0 <= i ∧ i < len (mapTasks c)) then
    let c := c <| mapTasks := complete i (mapTasks c) |> in
    let c := c <| mapTasksCompleted := mapTasksCompleted c + 1 |> in
    let c := if decide (mapTasksCompleted c >= len (mapTasks c))
             then c <| mapDone := true |> else c in
    (c, None)
  else if decide (td_TaskType args = "reduce" ∧ 0 <= i ∧ i < len (reduceTasks c)) then
    let c := c <| reduceTasks := complete i (reduceTasks c) |> in
    let c := c <| reduceTasksCompleted := reduceTasksCompleted c + 1 |> in
    let c := if decide (reduceTasksCompleted c >= len (reduceTasks c))
             then c <| reduceDone := true |> else c in
    (c, None)
  else if decide (td_TaskType args ≠ "map" ∧ td_TaskType args ≠ "reduce")
  then (c, Some InvalidType)
  else (c, Some InvalidNumber).

Definition second : Z := 1000000000.

(** A task that was assigned ten seconds ago is up for assignment again. *)
Definition updateTasks (now : Z) (tasks : list Task) : list Task :=
  (λ t, if decide (status t = Assigned ∧ now - startTime t >= 10 * second)
        then t <| status := Unassigned |> else t) <$> tasks.

Definition Done (now : Z) (c : Coordinator) : Coordinator * bool :=
  let c := if negb (mapDone c) then c <| mapTasks := updateTasks now (mapTasks c) |>
           else if negb (reduceDone c)
           then c <| reduceTasks := updateTasks now (reduceTasks c) |>
           else c in
  (c, mapDone c && reduceDone c).

Definition MakeCoordinator (files : list string) (nReduce : nat) : Coordinator :=
  mkCoordinator ((λ f, mkTask f Unassigned 0) <$> files)
    (replicate nReduce (mkTask "" Unassigned 0)) (Z.of_nat nReduce) 0 0 false false.

(** ** Runs *)
Inductive Event :=
  | ERequest (now : Z)
  | ETaskDone (args : TaskDoneArgs)
  | EDone (now : Z).

Definition exec (e : Event) (c : Coordinator) : Coordinator :=
  match e with
  | ERequest now => fst (RequestTask now zeroResponse c)
  | ETaskDone args => fst (TaskDone args c)
  | EDone now => fst (Done now c)
  end.

Definition run (es : list Event) (c : Coordinator) : Coordinator := foldl (flip exec) c es.

(** ** The two phases, alike *)
Inductive Phase := MapPhase | ReducePhase.
#[export] Instance Phase_eq_dec : EqDecision Phase.
Proof. solve_decision. Defined.

Definition tasks (p : Phase) (c : Coordinator) : list Task :=
  match p with MapPhase => mapTasks c | ReducePhase => reduceTasks c end.
Definition completed (p : Phase) (c : Coordinator) : Z :=
  match p with MapPhase => mapTasksCompleted c | ReducePhase => reduceTasksCompleted c end.
Definition done_flag (p : Phase) (c : Coordinator) : bool :=
  match p with MapPhase => mapDone c | ReducePhase => reduceDone c end.
Definition type_name (p : Phase) : string :=
  match p with MapPhase => "map" | ReducePhase => "reduce" end.

(** The tasks of a phase reported done, in order. *)
Definition reported (p : Phase) (e : Event) : option Z :=
  match e with
  | ETaskDone args => if decide (td_TaskType args = type_name p) then Some (td_TaskNumber args) else None
  | _ => None
  end.
Definition reports (p : Phase) (es : list Event) : list Z := omap (reported p) es.

Definition complete_tasks (l : list Task) : list Task := filter (λ t, status t = Complete) l.

Definition all_complete (p : Phase) (c : Coordinator) : Prop :=
  Forall (λ t, status t = Complete) (tasks p c).
