(* ===== verification/MrScheduling.v ===== *)
(** * MrScheduling: what the coordinator guarantees

    Who gets which task, that a task is not handed out twice within ten
    seconds, that reduce tasks wait for the maps and that [Done] means done, as
    long as no task is reported twice. *)
From stdpp Require Import base list list_numbers gmap strings option sets.
From Stdlib Require Import ZArith Lia.
From S2P Require Import Prelude MrCoordinator.
#[local] Open Scope Z_scope.
#[local] Open Scope string_scope.
#[local] Open Scope list_scope.

Implicit Types (c : Coordinator) (p : Phase) (e : Event) (l : list Task).

(** ** Assigning *)

(** The first unassigned task is at [k]. *)
Definition first_unassigned l (k : nat) (t : Task) : Prop :=
  l !! k = Some t ∧ status t = Unassigned ∧
  ∀ j t', (j < k)%nat → l !! j = Some t' → status t' ≠ Unassigned.

Definition assigned_at (now : Z) (t : Task) : Task :=
  t <| status := Assigned |> <| startTime := now |>.

Lemma assignLoop_spec now i l ty n reply :
  (∃ k t, first_unassigned l k t ∧ assignLoop now i l ty n reply
     = Some (<[k := assigned_at now t]> l,
             mkRequestTaskResponse (filename t) ty n (i + Z.of_nat k)))
  ∨ (Forall (λ t, status t ≠ Unassigned) l ∧ assignLoop now i l ty n reply = None).
Proof.
  revert i. induction l as [|t l IH]; intros i; [by right|]. cbn [assignLoop].
  case_decide as Hs.
  - left. exists 0%nat, t. split; [split_and!; [done|done|lia]|]. cbn. do 3 f_equal. lia.
  - destruct (IH (i + 1)) as [(k & t' & (Hk & Hu & Hf) & ->)|[Hn ->]].
    + left. exists (S k), t'. split.
      * split_and!; [done|done|]. intros [|j] t'' Hj Hl; [by injection Hl as <-|].
        eapply (Hf j); [lia|done].
      * cbn. do 3 f_equal. lia.
    + right. split; [by constructor|done].
Qed.

(** The phase [RequestTask] serves. *)
Definition phase_of c : option Phase :=
  if negb (mapDone c) then Some MapPhase
  else if negb (reduceDone c) then Some ReducePhase else None.

(** What a worker needs to know besides its task: the number of partitions, or
    of map tasks. *)
Definition other_count p c : Z :=
  match p with MapPhase => nReduce c | ReducePhase => len (mapTasks c) end.

Definition set_tasks p l c : Coordinator :=
  match p with MapPhase => c <| mapTasks := l |> | ReducePhase => c <| reduceTasks := l |> end.

Lemma RequestTask_cases now c :
  match phase_of c with
  | Some p =>
      (∃ k t, first_unassigned (tasks p c) k t ∧ RequestTask now zeroResponse c
         = (set_tasks p (<[k := assigned_at now t]> (tasks p c)) c,
            mkRequestTaskResponse (filename t) (type_name p) (other_count p c) (Z.of_nat k)))
      ∨ (Forall (λ t, status t ≠ Unassigned) (tasks p c)
         ∧ RequestTask now zeroResponse c = (c, mkRequestTaskResponse "" "none" 0 0))
  | None => RequestTask now zeroResponse c = (c, zeroResponse)
  end.
Proof.
  unfold RequestTask, phase_of, assignTask.
  destruct (mapDone c); cbn [negb]; [destruct (reduceDone c); cbn [negb]; [done|]|].
  - destruct (assignLoop_spec now 0 (reduceTasks c) "reduce" (len (mapTasks c)) zeroResponse)
      as [(k & t & Hf & ->)|[Hn ->]]; [left; by exists k, t|by right].
  - destruct (assignLoop_spec now 0 (mapTasks c) "map" (nReduce c) zeroResponse)
      as [(k & t & Hf & ->)|[Hn ->]]; [left; by exists k, t|by right].
Qed.

(** [RequestTask], on every branch: the first unassigned task of the phase that
    is running, with the name of its input and the number of partners; "none"
    when all are taken; the zero reply when the job is over. *)
Theorem RequestTask_spec now c :
  let '(c', reply) := RequestTask now zeroResponse c in
  match phase_of c with
  | Some p =>
      (∃ k t, first_unassigned (tasks p c) k t
         ∧ reply = mkRequestTaskResponse (filename t) (type_name p) (other_count p c) (Z.of_nat k)
         ∧ c' = set_tasks p (<[k := assigned_at now t]> (tasks p c)) c)
      ∨ (Forall (λ t, status t ≠ Unassigned) (tasks p c) ∧ rt_TaskType reply = "none" ∧ c' = c)
  | None => reply = zeroResponse ∧ c' = c
  end.
Proof.
  pose proof (RequestTask_cases now c) as Hc. destruct (phase_of c) as [p|].
  - destruct Hc as [(k & t & Hf & ->)|[Hn ->]]; [left; by exists k, t|by right].
  - by rewrite Hc.
Qed.

(** ** Task by task *)

Lemma tasks_set p p' l c :
  tasks p' (set_tasks p l c) = match p, p' with
    | MapPhase, MapPhase | ReducePhase, ReducePhase => l | _, _ => tasks p' c end.
Proof. by destruct p, p'. Qed.

(** A phase advances by one report in range. *)
Definition report p (i : Z) c : Coordinator :=
  match p with
  | MapPhase =>
      let c := c <| mapTasks := complete i (mapTasks c) |>
                 <| mapTasksCompleted := mapTasksCompleted c + 1 |> in
      if decide (mapTasksCompleted c >= len (mapTasks c)) then c <| mapDone := true |> else c
  | ReducePhase =>
      let c := c <| reduceTasks := complete i (reduceTasks c) |>
                 <| reduceTasksCompleted := reduceTasksCompleted c + 1 |> in
      if decide (reduceTasksCompleted c >= len (reduceTasks c))
      then c <| reduceDone := true |> else c
  end.

Lemma TaskDone_cases args c :
  (∃ p, td_TaskType args = type_name p ∧ 0 <= td_TaskNumber args < len (tasks p c)
     ∧ TaskDone args c = (report p (td_TaskNumber args) c, None))
  ∨ (∃ err, TaskDone args c = (c, Some err)
     ∧ ∀ p, td_TaskType args = type_name p → ¬ (0 <= td_TaskNumber args < len (tasks p c))).
Proof.
  unfold TaskDone. case_decide as Hm.
  { left. exists MapPhase. cbn. split_and!; [tauto|lia|lia|]. done. }
  case_decide as Hr.
  { left. exists ReducePhase. cbn. split_and!; [tauto|lia|lia|]. done. }
  right. case_decide; eexists; (split; [reflexivity|]); intros [] Ht; cbn in *; intros ?;
    [apply Hm|apply Hr|apply Hm|apply Hr]; split_and!; done || lia.
Qed.

Lemma length_complete i l : length (complete i l) = length l.
Proof. apply length_alter. Qed.

Lemma report_tasks p p' i c :
  tasks p' (report p i c) = match p, p' with
    | MapPhase, MapPhase | ReducePhase, ReducePhase => complete i (tasks p' c)
    | _, _ => tasks p' c end.
Proof. by destruct p, p'; cbn; case_decide. Qed.

Lemma report_completed p p' i c :
  completed p' (report p i c) = match p, p' with
    | MapPhase, MapPhase | ReducePhase, ReducePhase => completed p' c + 1
    | _, _ => completed p' c end.
Proof. by destruct p, p'; cbn; case_decide. Qed.

Lemma report_done p p' i c :
  done_flag p' (report p i c) = match p, p' with
    | MapPhase, MapPhase | ReducePhase, ReducePhase =>
        bool_decide (completed p' c + 1 >= len (tasks p' c)) || done_flag p' c
    | _, _ => done_flag p' c end.
Proof.
  assert (∀ l, len (complete i l) = len l) as Hl by (intros l; unfold len; by rewrite length_complete).
  destruct p, p'; cbn; rewrite ?Hl; case_decide as Hd; cbn; try done.
  - by rewrite bool_decide_eq_true_2 by done.
  - by rewrite bool_decide_eq_false_2 by done.
  - by rewrite bool_decide_eq_true_2 by done.
  - by rewrite bool_decide_eq_false_2 by done.
Qed.

Lemma Done_cases now c :
  Done now c = (match phase_of c with
                | Some p => set_tasks p (updateTasks now (tasks p c)) c
                | None => c end, mapDone c && reduceDone c).
Proof.
  unfold Done, phase_of. destruct c as [mt rt nr mc rc md rd]; cbn.
  by destruct md; cbn; [destruct rd|].
Qed.

(** ** What the flags mean *)

Definition in_range (n : nat) (i : Z) : Prop := 0 <= i < Z.of_nat n.

(** The state of one phase of [n] tasks after the events [es]. *)
Record phase_inv p (es : list Event) (n : nat) c : Prop := {
  pi_len : length (tasks p c) = n;
  pi_complete : ∀ k t, tasks p c !! k = Some t →
    (status t = Complete ↔ Z.of_nat k ∈ reports p es);
  pi_count : completed p c = len (filter (in_range n) (reports p es));
  pi_done : done_flag p c = true ↔ 0 < completed p c ∧ Z.of_nat n <= completed p c
}.

Lemma reports_snoc p es e :
  reports p (es ++ [e]) = reports p es ++ match reported p e with Some i => [i] | None => [] end.
Proof. unfold reports. rewrite omap_app. cbn. by destruct (reported p e). Qed.

(** A step that neither reports nor completes. *)
Lemma phase_inv_tasks p es e n c c' :
  phase_inv p es n c → reported p e = None →
  length (tasks p c') = length (tasks p c) →
  completed p c' = completed p c → done_flag p c' = done_flag p c →
  (∀ k t', tasks p c' !! k = Some t' →
     ∃ t, tasks p c !! k = Some t ∧ (status t' = Complete ↔ status t = Complete)) →
  phase_inv p (es ++ [e]) n c'.
Proof.
  intros [Hl Hc Hn Hd] Hr Hlen Hcnt Hdone Hs.
  split; rewrite ?reports_snoc, ?Hr, ?app_nil_r, ?Hcnt, ?Hdone; try done; [congruence|].
  intros k t' Ht'. destruct (Hs k t' Ht') as (t & Ht & Hiff). rewrite Hiff. by apply Hc.
Qed.

Lemma phase_inv_same p es e n c :
  phase_inv p es n c → reported p e = None → phase_inv p (es ++ [e]) n c.
Proof. intros Hi Hr. eapply phase_inv_tasks; try done. intros k t Ht. by exists t. Qed.

Lemma phase_inv_set p p' es e n c l :
  phase_inv p es n c → reported p e = None → length l = length (tasks p' c) →
  (∀ k t', l !! k = Some t' →
     ∃ t, tasks p' c !! k = Some t ∧ (status t' = Complete ↔ status t = Complete)) →
  phase_inv p (es ++ [e]) n (set_tasks p' l c).
Proof.
  intros Hi Hr Hlen Hs. eapply phase_inv_tasks; [done|done|..]; rewrite ?tasks_set.
  - by destruct p, p'.
  - by destruct p, p'.
  - by destruct p, p'.
  - intros k t' Ht'. destruct p, p'; try (by apply Hs); by exists t'.
Qed.

Lemma phase_inv_request p es n c now :
  phase_inv p es n c → phase_inv p (es ++ [ERequest now]) n (exec (ERequest now) c).
Proof.
  intros Hi. cbn [exec]. pose proof (RequestTask_cases now c) as Hc.
  destruct (phase_of c) as [p'|]; [|rewrite Hc; by apply phase_inv_same].
  destruct Hc as [(k & t & (Hk & Hu & _) & ->)|[_ ->]]; [|by apply phase_inv_same].
  cbn [fst]. apply phase_inv_set; [done|done|apply length_insert|].
  intros j t' Hj. destruct (decide (j = k)) as [->|Hne].
  - rewrite list_lookup_insert_eq in Hj by (by eapply lookup_lt_Some). injection Hj as <-.
    exists t. split; [done|]. cbn. rewrite Hu. done.
  - rewrite list_lookup_insert_ne in Hj by done. by exists t'.
Qed.

Lemma phase_inv_poll p es n c now :
  phase_inv p es n c → phase_inv p (es ++ [EDone now]) n (exec (EDone now) c).
Proof.
  intros Hi. cbn [exec]. rewrite Done_cases. cbn [fst].
  destruct (phase_of c) as [p'|]; [|by apply phase_inv_same].
  apply phase_inv_set; [done|done|apply length_fmap|].
  intros j t' Hj. unfold updateTasks in Hj. rewrite list_lookup_fmap in Hj.
  apply fmap_Some in Hj as (t & Ht & ->). exists t. split; [done|].
  case_decide as Ha; [|done]. cbn. destruct Ha as [-> _]. done.
Qed.

Lemma lookup_complete i l k t :
  complete i l !! k = Some t →
  ∃ t0, l !! k = Some t0 ∧ status t = if decide (Z.to_nat i = k) then Complete else status t0.
Proof.
  unfold complete. case_decide as Hk.
  - subst k. rewrite list_lookup_alter_eq. intros (t0 & H0 & ->)%fmap_Some. by exists t0.
  - rewrite list_lookup_alter_ne by done. by exists t.
Qed.

Lemma phase_inv_report p es n c args :
  phase_inv p es n c → phase_inv p (es ++ [ETaskDone args]) n (exec (ETaskDone args) c).
Proof.
  intros Hi. cbn [exec].
  destruct (TaskDone_cases args c) as [(p' & Hty & Hin & ->)|(err & -> & Hout)]; cbn [fst].
  - assert (p = p' ∨ p ≠ p') as [->|Hne] by (destruct p, p'; auto).
    2: { assert (reported p (ETaskDone args) = None) as Hr.
         { cbn. rewrite Hty. by destruct p, p'. }
         eapply phase_inv_tasks; [done|done|..]; rewrite ?report_tasks, ?report_completed, ?report_done;
           destruct p, p'; try done; intros k t Ht; by exists t. }
    destruct Hi as [Hl Hc Hn Hd].
    assert (reports p' (es ++ [ETaskDone args]) = reports p' es ++ [td_TaskNumber args]) as Hrep.
    { rewrite reports_snoc. cbn. by rewrite decide_True. }
    assert (in_range n (td_TaskNumber args)) as Hr by (unfold in_range, len in *; lia).
    assert (completed p' (report p' (td_TaskNumber args) c) = completed p' c + 1) as Hcnt
      by (rewrite report_completed; by destruct p').
    split; rewrite ?Hrep, ?Hcnt.
    + rewrite report_tasks. destruct p'; by rewrite length_complete.
    + intros k t Ht. rewrite report_tasks in Ht.
      assert (complete (td_TaskNumber args) (tasks p' c) !! k = Some t) as Ht' by (by destruct p').
      apply lookup_complete in Ht' as (t0 & Ht0 & Hst). rewrite Hst, elem_of_app, list_elem_of_singleton.
      case_decide; [split; [intros _; right; unfold in_range in *; lia|done]|].
      rewrite (Hc _ _ Ht0). split; [by left|intros [?|?]; [done|unfold in_range in *; lia]].
    + rewrite filter_app, len_app, <-Hn. cbn. rewrite decide_True by done. done.
    + rewrite report_done.
      assert ((bool_decide (completed p' c + 1 >= len (tasks p' c)) || done_flag p' c) = true ↔
        0 < completed p' c + 1 ∧ Z.of_nat n <= completed p' c + 1) as Hgoal.
      { rewrite orb_true_iff, bool_decide_eq_true, Hd. unfold len. rewrite Hl.
        pose proof (len_nonneg (filter (in_range n) (reports p' es))). lia. }
      by destruct p'.
  - destruct (decide (td_TaskType args = type_name p)) as [Hty|Hty].
    2: { apply phase_inv_same; [done|]. cbn. by rewrite decide_False. }
    destruct Hi as [Hl Hc Hn Hd].
    assert (reports p (es ++ [ETaskDone args]) = reports p es ++ [td_TaskNumber args]) as Hrep.
    { rewrite reports_snoc. cbn. by rewrite decide_True. }
    specialize (Hout _ Hty). split; rewrite ?Hrep; [done| | |done].
    + intros k t Ht. rewrite elem_of_app, list_elem_of_singleton, (Hc _ _ Ht).
      split; [by left|intros [?|Heq]; [done|]]. exfalso. apply Hout.
      apply lookup_lt_Some in Ht. unfold len. lia.
    + rewrite filter_app, len_app, Hn. cbn. rewrite decide_False; [unfold len; cbn; lia|].
      unfold in_range. unfold len in Hout. by rewrite Hl in Hout.
Qed.

Definition phase_size (files : list string) (nReduce : nat) p : nat :=
  match p with MapPhase => length files | ReducePhase => nReduce end.

Lemma phase_inv_boot files nR p :
  phase_inv p [] (phase_size files nR p) (MakeCoordinator files nR).
Proof.
  split; destruct p; cbn; try done.
  - apply length_fmap.
  - apply length_replicate.
  - intros k t Ht. rewrite list_lookup_fmap in Ht. apply fmap_Some in Ht as (f & _ & ->). cbn. split; [done|by intros ?%elem_of_nil].
  - intros k t Ht. apply lookup_replicate in Ht as [-> _]. cbn. split; [done|by intros ?%elem_of_nil].
  - split; [done|lia].
  - split; [done|lia].
Qed.

Lemma run_snoc es e c : run (es ++ [e]) c = exec e (run es c).
Proof. unfold run. by rewrite foldl_app. Qed.

Lemma phase_inv_run files nR p es :
  phase_inv p es (phase_size files nR p) (run es (MakeCoordinator files nR)).
Proof.
  induction es as [|e es IH] using rev_ind; [apply phase_inv_boot|]. rewrite run_snoc.
  destruct e; [by apply phase_inv_request|by apply phase_inv_report|by apply phase_inv_poll].
Qed.

(** Distinct reports of [n] tasks, [n] of them: every task was reported. *)
Lemma all_reported n (rs : list Z) (k : nat) :
  NoDup rs → Z.of_nat n <= len (filter (in_range n) rs) → (k < n)%nat → Z.of_nat k ∈ rs.
Proof.
  intros Hnd Hlen Hk. set (f := filter (in_range n) rs) in *.
  assert (f ⊆+ seqZ 0 (Z.of_nat n)) as Hsub.
  { apply NoDup_submseteq; [by apply NoDup_filter|]. intros i Hi.
    apply list_elem_of_filter in Hi as [Hr _]. apply elem_of_seqZ. unfold in_range in Hr. lia. }
  apply submseteq_length_Permutation in Hsub; [|rewrite length_seqZ; unfold len in Hlen; lia].
  assert (Z.of_nat k ∈ f) as Hin by (rewrite Hsub; apply elem_of_seqZ; lia).
  by apply list_elem_of_filter in Hin as [_ ?].
Qed.

Lemma done_all_complete files nR p es :
  NoDup (reports p es) →
  let c := run es (MakeCoordinator files nR) in
  done_flag p c = true → all_complete p c.
Proof.
  intros Hnd c Hd. destruct (phase_inv_run files nR p es) as [Hl Hc Hn Hdf]. fold c in Hl, Hc, Hn, Hdf.
  apply Hdf in Hd as [_ Hle]. apply Forall_lookup. intros k t Ht. apply (Hc k t Ht).
  eapply all_reported; [done|by rewrite <-Hn|]. rewrite <-Hl. by eapply lookup_lt_Some.
Qed.

Lemma all_complete_done files nR p es :
  (0 < phase_size files nR p)%nat →
  let c := run es (MakeCoordinator files nR) in
  all_complete p c → done_flag p c = true.
Proof.
  intros Hpos c Ha. destruct (phase_inv_run files nR p es) as [Hl Hc Hn Hdf]. fold c in Hl, Hc, Hn, Hdf.
  set (n := phase_size files nR p) in *.
  assert (seqZ 0 (Z.of_nat n) ⊆+ filter (in_range n) (reports p es)) as Hsub.
  { apply NoDup_submseteq; [apply NoDup_seqZ|]. intros i Hi%elem_of_seqZ.
    apply list_elem_of_filter. split; [unfold in_range; lia|].
    destruct (lookup_lt_is_Some_2 (tasks p c) (Z.to_nat i)) as [t Ht]; [lia|].
    replace i with (Z.of_nat (Z.to_nat i)) by lia. apply (Hc _ t Ht).
    exact (proj1 (Forall_lookup (λ t, status t = Complete) _) Ha _ _ Ht). }
  apply submseteq_length in Hsub. rewrite length_seqZ in Hsub.
  apply Hdf. rewrite Hn. unfold len. lia.
Qed.

(** C22: When no task is reported twice, a reduce task is handed out only after
    every map task is complete. *)
Theorem reduce_after_maps files nR es now :
  NoDup (reports MapPhase es) →
  let c := run es (MakeCoordinator files nR) in
  rt_TaskType (snd (RequestTask now zeroResponse c)) = "reduce" → all_complete MapPhase c.
Proof.
  intros Hnd c Hty. apply (done_all_complete files nR MapPhase es Hnd). fold c.
  pose proof (RequestTask_cases now c) as Hc. unfold phase_of in Hc. cbn [done_flag].
  destruct (mapDone c); [done|]. cbn [negb] in Hc.
  destruct Hc as [(k & t & _ & Hr)|[_ Hr]]; rewrite Hr in Hty; cbn in Hty; discriminate.
Qed.

(** [Done] reports the end of the job exactly when every task is complete, for
    a job that has tasks of both kinds. *)
Theorem Done_spec files nR es now :
  files ≠ [] → (0 < nR)%nat → NoDup (reports MapPhase es) → NoDup (reports ReducePhase es) →
  let c := run es (MakeCoordinator files nR) in
  snd (Done now c) = true ↔ all_complete MapPhase c ∧ all_complete ReducePhase c.
Proof.
  intros Hf Hn Hm Hr c. rewrite Done_cases. cbn [snd]. rewrite andb_true_iff.
  assert (0 < length files)%nat by (destruct files; [done|cbn; lia]).
  split; intros [H1 H2]; split.
  - by apply (done_all_complete files nR MapPhase es).
  - by apply (done_all_complete files nR ReducePhase es).
  - by apply (all_complete_done files nR MapPhase es).
  - by apply (all_complete_done files nR ReducePhase es).
Qed.

(** ** One worker at a time *)

(** Task [k] was handed out at [t] or later, or is complete. *)
Definition busy p (k : nat) (t : Z) c : Prop :=
  ∃ task, tasks p c !! k = Some task
    ∧ (status task = Complete ∨ (status task = Assigned ∧ t <= startTime task)).

(** The event happens before [t], and after [t0]. *)
Definition within (t0 t : Z) e : Prop :=
  match e with ERequest now | EDone now => t0 <= now < t | ETaskDone _ => True end.

Lemma busy_set p p' k t l c :
  busy p k t c → (p = p' → ∀ task, tasks p c !! k = Some task →
    (status task = Complete ∨ (status task = Assigned ∧ t <= startTime task)) →
    ∃ task', l !! k = Some task'
      ∧ (status task' = Complete ∨ (status task' = Assigned ∧ t <= startTime task'))) →
  busy p k t (set_tasks p' l c).
Proof.
  intros (task & Ht & Hb) Hl. unfold busy. rewrite tasks_set.
  destruct p, p'; try (by apply (Hl eq_refl task)); by exists task.
Qed.

Lemma busy_exec p k t e c :
  within t (t + 10 * second) e → busy p k t c → busy p k t (exec e c).
Proof.
  intros Hw Hb. destruct e as [now|args|now]; cbn [exec].
  - pose proof (RequestTask_cases now c) as Hc. destruct (phase_of c) as [p'|]; [|by rewrite Hc].
    destruct Hc as [(j & tj & (Hj & Hu & _) & ->)|[_ ->]]; [|done]. cbn [fst].
    apply busy_set; [done|]. intros <- task Ht Hs. exists task. split; [|done].
    rewrite list_lookup_insert_ne; [done|]. intros ->. rewrite Hj in Ht. injection Ht as ->.
    rewrite Hu in Hs. destruct Hs as [?|[? _]]; done.
  - destruct (TaskDone_cases args c) as [(p' & _ & _ & ->)|(err & -> & _)]; [|done]. cbn [fst].
    destruct Hb as (task & Ht & Hs). unfold busy. rewrite report_tasks.
    assert (∃ task', complete (td_TaskNumber args) (tasks p c) !! k = Some task'
      ∧ (status task' = Complete ∨ (status task' = Assigned ∧ t <= startTime task'))).
    { unfold complete. destruct (decide (Z.to_nat (td_TaskNumber args) = k)) as [<-|Hne].
      - rewrite list_lookup_alter_eq, Ht. eexists. split; [reflexivity|]. by left.
      - rewrite list_lookup_alter_ne by done. by exists task. }
    destruct p, p'; try done; by exists task.
  - rewrite Done_cases. cbn [fst]. destruct (phase_of c) as [p'|]; [|done].
    apply busy_set; [done|]. intros <- task Ht Hs. unfold updateTasks.
    rewrite list_lookup_fmap, Ht. eexists. split; [reflexivity|].
    case_decide as Ha; [|done]. destruct Ha as [Has Hold], Hs as [?|[_ ?]]; [congruence|].
    cbn in Hw. lia.
Qed.

(** A task that was handed out is not handed out again in the next ten seconds,
    whatever requests, reports and polls happen. *)
Theorem no_double_assignment c t p k es t' :
  let '(c1, reply) := RequestTask t zeroResponse c in
  rt_TaskType reply = type_name p → rt_TaskNumber reply = Z.of_nat k →
  Forall (within t (t + 10 * second)) es →
  let reply' := snd (RequestTask t' zeroResponse (run es c1)) in
  ¬ (rt_TaskType reply' = type_name p ∧ rt_TaskNumber reply' = Z.of_nat k).
Proof.
  pose proof (RequestTask_cases t c) as Hc. destruct (RequestTask t zeroResponse c) as [c1 reply].
  intros Hty Hk Hes.
  assert (busy p k t c1) as Hb.
  { destruct (phase_of c) as [p'|].
    - destruct Hc as [(j & tj & (Hj & _) & [= -> ->])|[_ [= -> ->]]];
        cbn [rt_TaskType rt_TaskNumber] in Hty, Hk;
        [|by destruct p].
      assert (p = p') as <- by (by destruct p, p'). assert (j = k) as -> by lia.
      exists (assigned_at t tj). rewrite tasks_set. split; [|right; split; [done|cbn; lia]].
      assert (k < length (tasks p c))%nat by (by eapply lookup_lt_Some).
      destruct p; by apply list_lookup_insert_eq.
    - injection Hc as -> ->. by destruct p. }
  clear Hc Hty Hk reply.
  assert (busy p k t (run es c1)) as Hb'.
  { clear -Hb Hes. revert c1 Hb. induction Hes as [|e es Hw _ IH]; intros c1 Hb; [done|].
    apply IH. by apply busy_exec. }
  clear Hb. generalize dependent (run es c1). clear c1. intros c1 (task & Ht & Hs) reply'.
  subst reply'. intros [Hty Hk]. pose proof (RequestTask_cases t' c1) as Hc.
  destruct (phase_of c1) as [p'|]; [|rewrite Hc in Hty; by destruct p].
  destruct Hc as [(j & tj & (Hj & Hu & _) & Hr)|[_ Hr]]; rewrite Hr in Hty, Hk;
    cbn [snd rt_TaskType rt_TaskNumber] in Hty, Hk;
    [|by destruct p].
  assert (p = p') as <- by (by destruct p, p'). assert (j = k) as -> by lia.
  rewrite Hj in Ht. injection Ht as ->. rewrite Hu in Hs. destruct Hs as [?|[? _]]; done.
Qed.

(** ** Concrete jobs *)

Definition job : Coordinator := MakeCoordinator ["a"; "b"] 1.
Definition map_done (i : Z) : Event := ETaskDone (mkTaskDoneArgs "map" i).

(** Two maps, one taken over after its worker was silent for ten seconds. *)
Definition maps : list Event :=
  [ERequest 0; ERequest 1; map_done 0; EDone (11 * second); ERequest (12 * second); map_done 1].

Lemma reduce_after_maps_witness :
  all_complete MapPhase (run maps (MakeCoordinator ["a"; "b"] 1)).
Proof.
  apply (reduce_after_maps ["a"; "b"] 1 maps (13 * second)); [|vm_compute; reflexivity].
  change (NoDup [0; 1]). repeat constructor; set_solver.
Defined.

Lemma Done_spec_witness :
  all_complete ReducePhase (run (maps ++ [ERequest 13; ETaskDone (mkTaskDoneArgs "reduce" 0)])
                              (MakeCoordinator ["a"; "b"] 1)).
Proof.
  destruct (Done_spec ["a"; "b"] 1
    (maps ++ [ERequest 13; ETaskDone (mkTaskDoneArgs "reduce" 0)]) 14) as [Hd _].
  - discriminate.
  - lia.
  - change (NoDup [0; 1]). repeat constructor; set_solver.
  - change (NoDup [0]). repeat constructor; set_solver.
  - destruct (Hd ltac:(vm_compute; reflexivity)) as [_ Hr]. exact Hr.
Defined.

Lemma no_double_assignment_witness :
  let c1 := fst (RequestTask 0 zeroResponse job) in
  let reply' := snd (RequestTask (9 * second) zeroResponse (run [EDone (9 * second)] c1)) in
  ¬ (rt_TaskType reply' = "map" ∧ rt_TaskNumber reply' = 0).
Proof.
  intros c1 reply'.
  pose proof (no_double_assignment job 0 MapPhase 0 [EDone (9 * second)] (9 * second)) as Hn.
  destruct (RequestTask 0 zeroResponse job) as [c1' reply] eqn:E.
  assert (rt_TaskType reply = "map" ∧ rt_TaskNumber reply = 0) as [Hty Hk]
    by (change reply with (snd (c1', reply)); rewrite <-E; vm_compute; split; reflexivity).
  apply (Hn Hty Hk). repeat constructor; vm_compute; try discriminate; reflexivity.
Defined.

(** A slow worker and the one that took over both report task 0: the counter
    reaches two and the reduce phase starts although task 1 was never done. *)
Definition reported_twice : list Event := [ERequest 0; ERequest 1; map_done 0; map_done 0].

Example reduce_too_early :
  rt_TaskType (snd (RequestTask 2 zeroResponse (run reported_twice job))) = "reduce"
  ∧ status <$> mapTasks (run reported_twice job) = [Complete; Assigned].
Proof. vm_compute. split; reflexivity. Qed.

(** A job without files never ends: no report can set [mapDone]. *)
Lemma no_files_never_done es nR now :
  snd (Done now (run es (MakeCoordinator [] nR))) = false.
Proof.
  rewrite Done_cases. cbn [snd]. destruct (mapDone _) eqn:Hd; [|done]. exfalso.
  destruct (phase_inv_run [] nR MapPhase es) as [Hl Hc Hn Hdf]. cbn [done_flag] in Hdf.
  rewrite Hd in Hdf. destruct (proj1 Hdf eq_refl) as [Hpos _]. rewrite Hn in Hpos.
  change (phase_size [] nR MapPhase) with 0%nat in *.
  assert (filter (in_range 0) (reports MapPhase es) = []) as Hnil.
  { destruct (filter (in_range 0) (reports MapPhase es)) as [|i l] eqn:Hf; [done|].
    assert (i ∈ filter (in_range 0) (reports MapPhase es)) as Hi by (rewrite Hf; by left).
    apply list_elem_of_filter in Hi as [Hr _]. unfold in_range in Hr. lia. }
  rewrite Hnil in Hpos. done.
Qed.
