(* ===== verification/MrWorker.v ===== *)
(** * MrWorker: the MapReduce worker of [src/src/mr/worker.go]

    The hash that partitions the keys, the intermediate files, the grouping of
    the reduce tasks, and the sequential program [src/src/main/mrsequential.go]
    they are compared with.  [encoding/json] and [sort.Sort] are parameters with
    the documented behaviour the worker relies on.  The file [mr-X-i.txt] is the
    entry [(X, i)] of the store; an output file is the list of its lines. *)
From stdpp Require Import base list list_numbers gmap strings option sorting.
From Stdlib Require Import ZArith Lia.
From Stdlib Require Import Strings.Byte.
From Stdlib Require Import Ascii.
From S2P Require Import Prelude.
#[local] Open Scope Z_scope.
#[local] Open Scope string_scope.
#[local] Open Scope list_scope.

Record KeyValue := mkKeyValue { Key : string; Value : string }.

(** ** Hashing *)

(** [hash/fnv]'s 32-bit FNV-1a. *)
Definition fnv32a_prime : Z := 16777619.
Definition fnv32a_basis : Z := 2166136261.

Fixpoint fnv32a (h : Z) (s : string) : Z :=
  match s with
  | EmptyString => h
  | String c s =>
      fnv32a ((Z.lxor h (Z.of_N (N_of_ascii c)) * fnv32a_prime) mod 2 ^ 32) s
  end.

Definition ihash (key : string) : Z := Z.land (fnv32a fnv32a_basis key) 0x7fffffff.

(** ** JSON streams *)

(** [json.Encoder.Encode] and [json.Decoder.Decode]: a value leaves the rest of
    the stream.  Text that is not valid UTF-8 does not survive the trip, so the
    law is about the pairs [json_ok]. *)
Class JsonCodec := {
  json_encode : KeyValue → bytes;
  json_decode : bytes → option (KeyValue * bytes);
  json_ok : KeyValue → Prop
}.

Class JsonLaws `{JsonCodec} : Prop := {
  json_decode_encode : ∀ kv rest, json_ok kv → json_decode (json_encode kv ++ rest) = Some (kv, rest);
  json_decode_nil : json_decode [] = None;
  json_encode_nonempty : ∀ kv, json_encode kv ≠ []
}.

(** ** Sorting by key *)

(** [Less] compares the keys byte by byte. *)
Definition key_le (a b : KeyValue) : Prop := String.le (Key a) (Key b).

(** [sort.Sort(ByKey(kva))]: the same pairs, in the order of their keys; the
    order of equal keys is left open. *)
Class Sorter := sort_ByKey : list KeyValue → list KeyValue.
Class SorterLaws `{Sorter} : Prop := {
  sort_Permutation : ∀ l, sort_ByKey l ≡ₚ l;
  sort_Sorted : ∀ l, StronglySorted key_le (sort_ByKey l)
}.

(** ** The worker *)
Abbreviation Store := (gmap (Z * Z) bytes).

Section MrWorker.
Context `{JsonCodec} `{Sorter}.
Implicit Types (fs : Store) (kva l : list KeyValue).

(** [os.Create] of the [nReduce] files of map task [X]. *)
Definition create_files (nReduce : nat) (X : Z) fs : Store :=
  foldl (λ fs i, <[(X, Z.of_nat i) := []]> fs) fs (seq 0 nReduce).

(** [encoders[partition].Encode(&kv)]; dividing by zero panics. *)
Definition emit (nReduce : nat) (X : Z) (kv : KeyValue) fs : option Store :=
  if decide (nReduce = 0%nat) then None
  else
    let partition := Z.rem (ihash (Key kv)) (Z.of_nat nReduce) in
    file ← fs !! (X, partition);
    Some (<[(X, partition) := file ++ json_encode kv]> fs).

Fixpoint emit_all (nReduce : nat) (X : Z) kva fs : option Store :=
  match kva with
  | [] => Some fs
  | kv :: kva => fs ← emit nReduce X kv fs; emit_all nReduce X kva fs
  end.

Definition storeIntermediate kva (nReduce : nat) (X : Z) fs : option Store :=
  emit_all nReduce X kva (create_files nReduce X fs).

(** [for { if err := dec.Decode(&kv); err != nil { break }; ... }] *)
Fixpoint decode_all (fuel : nat) (file : bytes) : list KeyValue :=
  match fuel with
  | O => []
  | S fuel =>
      match json_decode file with
      | None => []
      | Some (kv, rest) => kv :: decode_all fuel rest
      end
  end.

(** A missing file is fatal. *)
Fixpoint read_files (xs : list nat) (partition : Z) (intermediate : list KeyValue) fs
  : option (list KeyValue) :=
  match xs with
  | [] => Some intermediate
  | i :: xs =>
      file ← fs !! (Z.of_nat i, partition);
      read_files xs partition (intermediate ++ decode_all (S (length file)) file) fs
  end.

Definition getIntermediate (numMapTasks : nat) (partition : Z) fs : option (list KeyValue) :=
  read_files (seq 0 numMapTasks) partition [] fs.

(** [for j < len(intermediate) && intermediate[j].Key == key { j++ }] *)
Fixpoint split_key (key : string) l : list KeyValue * list KeyValue :=
  match l with
  | kv :: l' =>
      if decide (Key kv = key) then let '(same, rest) := split_key key l' in (kv :: same, rest)
      else ([], l)
  | [] => ([], [])
  end.

(** The groups of neighbours with one key, each with its values. *)
Fixpoint groups (fuel : nat) l : list (string * list string) :=
  match fuel, l with
  | S fuel, kv :: l' =>
      let '(same, rest) := split_key (Key kv) l' in
      (Key kv, Value kv :: (Value <$> same)) :: groups fuel rest
  | _, _ => []
  end.

Definition newline : string := String "010" "".

(** [fmt.Fprintf(ofile, "%v %v\n", key, output)] *)
Definition output_line (key output : string) : string := key +:+ " " +:+ output +:+ newline.

Definition performReduce l (reducef : string → list string → string) : list string :=
  (λ '(key, values), output_line key (reducef key values)) <$> groups (length l) l.

(** The two branches of the loop of [Worker].  [inputs] are the input files
    by map task, name and content. *)
Definition map_task (mapf : string → string → list KeyValue) (inputs : list (string * string))
    (nReduce X : nat) fs : option Store :=
  '(filename, content) ← inputs !! X;
  storeIntermediate (mapf filename content) nReduce (Z.of_nat X) fs.

Definition reduce_task (reducef : string → list string → string) (numMapTasks : nat) (tn : nat) fs
  : option (list string) :=
  intermediate ← getIntermediate numMapTasks (Z.of_nat tn) fs;
  Some (performReduce (sort_ByKey intermediate) reducef).

(** ** [mrsequential.go] *)
Definition sequential (mapf : string → string → list KeyValue)
    (reducef : string → list string → string) (inputs : list (string * string)) : list string :=
  let intermediate := List.concat (map (λ '(f, c), mapf f c) inputs) in
  performReduce (sort_ByKey intermediate) reducef.
End MrWorker.
