(* ===== verification/MrResult.v ===== *)
(** * MrResult: a distributed job computes what the sequential program does

    The files the map tasks leave, however often they are run, hold each pair
    once; a reduce task groups all values of its keys; and together the reduce
    tasks print the lines of [mrsequential], if the reduce function does not
    depend on the order of its values. *)
From stdpp Require Import base list list_numbers gmap strings option sorting sets.
From Stdlib Require Import ZArith Lia.
From Stdlib Require Import Strings.Byte.
From S2P Require Import Prelude MrWorker.
#[local] Open Scope Z_scope.
#[local] Open Scope string_scope.
#[local] Open Scope list_scope.

(** ** The hash *)

Lemma ihash_range key : 0 <= ihash key < 2 ^ 31.
Proof.
  unfold ihash. change 0x7fffffff with (Z.ones 31). rewrite Z.land_ones by lia.
  apply Z.mod_pos_bound. lia.
Qed.

(** The partition of a key. *)
Definition partition_of (nReduce : nat) (key : string) : nat :=
  Z.to_nat (Z.rem (ihash key) (Z.of_nat nReduce)).

Lemma partition_of_lt n key : (0 < n)%nat → (partition_of n key < n)%nat.
Proof.
  intros Hn. unfold partition_of. pose proof (ihash_range key).
  pose proof (Z.rem_bound_pos (ihash key) (Z.of_nat n)). lia.
Qed.

Lemma partition_of_Z n key :
  (0 < n)%nat → Z.rem (ihash key) (Z.of_nat n) = Z.of_nat (partition_of n key).
Proof.
  intros Hn. unfold partition_of. pose proof (ihash_range key).
  pose proof (Z.rem_bound_pos (ihash key) (Z.of_nat n)). lia.
Qed.

(** ** Grouping *)

(** The values of a key, in order. *)
Definition values_of (key : string) (l : list KeyValue) : list string :=
  Value <$> filter (λ kv, Key kv = key) l.

Lemma values_of_app key l1 l2 : values_of key (l1 ++ l2) = values_of key l1 ++ values_of key l2.
Proof. unfold values_of. by rewrite filter_app, fmap_app. Qed.

Lemma values_of_none key l : (∀ kv, kv ∈ l → Key kv ≠ key) → values_of key l = [].
Proof.
  intros Hl. unfold values_of. destruct (filter _ l) as [|kv l'] eqn:Hf; [done|].
  assert (kv ∈ filter (λ kv, Key kv = key) l) as Hin by (rewrite Hf; by left).
  apply list_elem_of_filter in Hin as [? ?]. by destruct (Hl kv).
Qed.

Lemma values_of_all key l : Forall (λ kv, Key kv = key) l → values_of key l = Value <$> l.
Proof.
  induction 1 as [|kv l Hk _ IH]; [done|]. unfold values_of in *.
  rewrite filter_cons_True by done. cbn. by rewrite IH.
Qed.

(** [split_key] takes the whole run of the key off a sorted list. *)
Lemma split_key_spec key l :
  StronglySorted key_le l → Forall (λ kv, String.le key (Key kv)) l →
  let '(same, rest) := split_key key l in
  l = same ++ rest ∧ Forall (λ kv, Key kv = key) same ∧ (∀ kv, kv ∈ rest → Key kv ≠ key)
  ∧ StronglySorted key_le rest.
Proof.
  induction l as [|kv l IH]; intros Hs Hle; cbn [split_key].
  { split_and!; try done. by intros kv ?%elem_of_nil. }
  apply StronglySorted_inv in Hs as [Hs Hkv]. apply Forall_cons_1 in Hle as [Hle1 Hle2].
  case_decide as Hk.
  - specialize (IH Hs Hle2). destruct (split_key key l) as [same rest].
    destruct IH as (-> & Hsame & Hrest & Hsr). split_and!; [done|by constructor|done|done].
  - split_and!; [done|done| |by constructor]. intros kv' [->|Hin]%elem_of_cons; [done|].
    intros Hk'. rewrite Forall_forall in Hkv. specialize (Hkv _ Hin). unfold key_le in Hkv.
    rewrite Hk' in Hkv. apply Hk. by apply (anti_symm String.le).
Qed.

(** The groups of a sorted list: its keys, once each, with all their values. *)
Lemma groups_spec fuel l :
  StronglySorted key_le l → (length l <= fuel)%nat →
  NoDup (fst <$> groups fuel l) ∧ (∀ k, k ∈ fst <$> groups fuel l ↔ k ∈ Key <$> l)
  ∧ groups fuel l = (λ k, (k, values_of k l)) <$> (fst <$> groups fuel l).
Proof.
  revert l. induction fuel as [|fuel IH]; intros [|kv l] Hs Hf; cbn [groups]; cbn in Hf;
    try (split_and!; [constructor|set_solver|done]); [lia|].
  apply StronglySorted_inv in Hs as [Hs Hkv].
  pose proof (split_key_spec (Key kv) l Hs Hkv) as Hsplit.
  destruct (split_key (Key kv) l) as [same rest]. destruct Hsplit as (-> & Hsame & Hrest & Hsr).
  rewrite length_app in Hf. destruct (IH rest Hsr) as (Hnd & Hin & Hg); [lia|].
  assert (Key kv ∉ fst <$> groups fuel rest) as Hnin.
  { rewrite Hin. intros (kv' & Hk & Hin')%list_elem_of_fmap. by destruct (Hrest kv'). }
  rewrite !fmap_cons. cbn [fst]. split_and!.
  - by constructor.
  - intros k. rewrite fmap_app, !elem_of_cons, elem_of_app, Hin. split; [tauto|].
    intros [?|[Hin'|?]]; [by left| |by right]. left.
    apply list_elem_of_fmap in Hin' as (kv' & -> & Hin'). rewrite Forall_forall in Hsame.
    by apply Hsame.
  - f_equal.
    + f_equal. rewrite <-(values_of_all (Key kv) same) by done. unfold values_of at 2.
      rewrite filter_cons_True by done. rewrite fmap_cons. f_equal.
      change (values_of (Key kv) same = values_of (Key kv) (same ++ rest)).
      by rewrite values_of_app, (values_of_none _ rest), app_nil_r.
    + rewrite Hg at 1. apply list_fmap_ext. intros i k Hk.
      apply list_elem_of_lookup_2 in Hk. f_equal.
      assert (k ≠ Key kv) as Hne by (intros ->; done).
      unfold values_of. rewrite filter_cons_False by done.
      change (values_of k rest = values_of k (same ++ rest)).
      rewrite values_of_app, (values_of_none _ same); [done|].
      intros kv' Hin' <-. rewrite Forall_forall in Hsame. by rewrite (Hsame kv') in Hne.
Qed.

Section Result.
Context `{JsonLaws} `{SorterLaws}.
Implicit Types (l kva : list KeyValue) (fs : Store).
Variable reducef : string → list string → string.

(** The result for a key does not depend on the order of its values. *)
Definition order_insensitive : Prop :=
  ∀ key vs1 vs2, vs1 ≡ₚ vs2 → reducef key vs1 = reducef key vs2.

(** ** The lines of a reduce task *)

Definition line_of l (key : string) : string := output_line key (reducef key (values_of key l)).
Definition keys_of l : list string := fst <$> groups (length l) l.

Lemma performReduce_lines l :
  StronglySorted key_le l → performReduce l reducef = line_of l <$> keys_of l.
Proof.
  intros Hs. destruct (groups_spec (length l) l Hs) as (_ & _ & Hg); [done|].
  unfold performReduce, keys_of. rewrite Hg at 1. by rewrite <-list_fmap_compose.
Qed.

Lemma keys_of_NoDup l : StronglySorted key_le l → NoDup (keys_of l).
Proof. intros Hs. by apply groups_spec. Qed.

Lemma elem_of_keys_of l k : StronglySorted key_le l → k ∈ keys_of l ↔ k ∈ Key <$> l.
Proof. intros Hs. by apply groups_spec. Qed.

Lemma values_of_Permutation k l1 l2 : l1 ≡ₚ l2 → values_of k l1 ≡ₚ values_of k l2.
Proof. intros Hp. unfold values_of. by rewrite Hp. Qed.

(** The pairs of partition [p]. *)
Definition bucket (n p : nat) l : list KeyValue :=
  filter (λ kv, partition_of n (Key kv) = p) l.

Lemma bucket_app n p l1 l2 : bucket n p (l1 ++ l2) = bucket n p l1 ++ bucket n p l2.
Proof. apply filter_app. Qed.

Lemma values_of_bucket n k l : values_of k (bucket n (partition_of n k) l) = values_of k l.
Proof.
  unfold values_of, bucket. f_equal. rewrite list_filter_filter.
  apply list_filter_iff. intros kv. naive_solver.
Qed.

Lemma elem_of_bucket_keys n p l k :
  k ∈ Key <$> bucket n p l ↔ k ∈ Key <$> l ∧ partition_of n k = p.
Proof.
  unfold bucket. rewrite !list_elem_of_fmap. setoid_rewrite list_elem_of_filter. naive_solver.
Qed.

Lemma NoDup_concat_map {A B} (f : A → list B) (xs : list A) :
  NoDup xs → (∀ x, NoDup (f x)) →
  (∀ x y b, x ∈ xs → y ∈ xs → b ∈ f x → b ∈ f y → x = y) →
  NoDup (List.concat (map f xs)).
Proof.
  induction 1 as [|x xs Hx _ IH]; intros Hf Hd; cbn; [constructor|].
  apply NoDup_app. split_and!; [done| |apply IH; [done|]].
  - intros b Hb Hin. apply list_elem_of_In, in_concat in Hin as (l & Hl & Hin).
    apply in_map_iff in Hl as (y & <- & Hy). apply list_elem_of_In in Hy, Hin.
    assert (x = y) as <- by (eapply Hd; [by left|by right|done|done]). done.
  - intros y z b Hy Hz. apply Hd; by right.
Qed.

Lemma elem_of_concat_map {A B} (f : A → list B) (xs : list A) b :
  b ∈ List.concat (map f xs) ↔ ∃ x, x ∈ xs ∧ b ∈ f x.
Proof.
  rewrite list_elem_of_In, in_concat. setoid_rewrite in_map_iff. split.
  - intros (l & (x & <- & Hx) & Hb). exists x. by rewrite !list_elem_of_In.
  - intros (x & Hx & Hb). exists (f x). apply list_elem_of_In in Hx. apply list_elem_of_In in Hb. eauto.
Qed.

(** Reducing the buckets apart gives the lines of reducing all at once. *)
Lemma buckets_lines n l :
  (0 < n)%nat → order_insensitive →
  List.concat (map (λ p, performReduce (sort_ByKey (bucket n p l)) reducef) (seq 0 n))
  ≡ₚ performReduce (sort_ByKey l) reducef.
Proof.
  intros Hn Hoi. set (ks p := keys_of (sort_ByKey (bucket n p l))).
  assert (∀ p k, k ∈ ks p ↔ k ∈ Key <$> l ∧ partition_of n k = p) as Hks.
  { intros p k. unfold ks. rewrite elem_of_keys_of by apply sort_Sorted.
    by rewrite (sort_Permutation (bucket n p l)), elem_of_bucket_keys. }
  assert (∀ p, performReduce (sort_ByKey (bucket n p l)) reducef
    = line_of (sort_ByKey l) <$> ks p) as Hlines.
  { intros p. rewrite performReduce_lines by apply sort_Sorted. apply list_fmap_ext.
    intros i k Hk%list_elem_of_lookup_2. apply Hks in Hk as [_ <-]. unfold line_of. f_equal.
    apply Hoi. rewrite (values_of_Permutation k _ _ (sort_Permutation _)), values_of_bucket.
    symmetry. apply values_of_Permutation, sort_Permutation. }
  rewrite (map_ext _ _ Hlines), performReduce_lines by apply sort_Sorted.
  transitivity (line_of (sort_ByKey l) <$> List.concat (map ks (seq 0 n))).
  { change (line_of (sort_ByKey l) <$> List.concat (map ks (seq 0 n)))
      with (map (line_of (sort_ByKey l)) (List.concat (map ks (seq 0 n)))).
    by rewrite concat_map, map_map. }
  apply fmap_Permutation. apply NoDup_Permutation.
  - apply NoDup_concat_map; [apply NoDup_seq|intros p; apply keys_of_NoDup, sort_Sorted|].
    intros p q k _ _ [_ <-]%Hks [_ ?]%Hks. done.
  - apply keys_of_NoDup, sort_Sorted.
  - intros k. rewrite elem_of_concat_map, elem_of_keys_of by apply sort_Sorted.
    rewrite (sort_Permutation l). setoid_rewrite Hks. split; [naive_solver|].
    intros Hk. exists (partition_of n k). split; [|done]. apply elem_of_seq.
    pose proof (partition_of_lt n k Hn). lia.
Qed.

(** ** The intermediate files *)

Definition encode_all kva : bytes := List.concat (map json_encode kva).

Lemma decode_all_encode kva fuel :
  Forall json_ok kva → (length kva < fuel)%nat → decode_all fuel (encode_all kva) = kva.
Proof.
  intros Hok. revert fuel. induction Hok as [|kv kva Hkv _ IH]; intros [|fuel] Hf; cbn in *; try lia.
  - by rewrite json_decode_nil.
  - rewrite json_decode_encode by done. f_equal. apply IH. lia.
Qed.

Lemma encode_all_length kva : (length kva <= length (encode_all kva))%nat.
Proof.
  induction kva as [|kv kva IH]; [done|]. cbn. rewrite length_app.
  pose proof (json_encode_nonempty kv) as Hne. unfold encode_all in IH.
  destruct (json_encode kv); [done|]. cbn. lia.
Qed.

Lemma encode_all_app kva1 kva2 : encode_all (kva1 ++ kva2) = encode_all kva1 ++ encode_all kva2.
Proof. unfold encode_all. by rewrite map_app, concat_app. Qed.

(** The files of map task [X] hold what [content i] says. *)
Definition files_are (n : nat) (X : Z) (content : nat → list KeyValue) fs : Prop :=
  ∀ i, (i < n)%nat → fs !! (X, Z.of_nat i) = Some (encode_all (content i)).

(** Only the files of map task [X] differ. *)
Definition others_kept (X : Z) fs fs' : Prop := ∀ Y i, Y ≠ X → fs' !! (Y, i) = fs !! (Y, i).

Lemma emit_all_spec n X kva fs content :
  (0 < n)%nat → files_are n X content fs →
  ∃ fs', emit_all n X kva fs = Some fs'
    ∧ files_are n X (λ i, content i ++ bucket n i kva) fs' ∧ others_kept X fs fs'.
Proof.
  intros Hn. revert fs content. induction kva as [|kv kva IH]; intros fs content Hc.
  { exists fs. split_and!; [done| |done]. intros i Hi. cbn. by rewrite app_nil_r, Hc. }
  pose proof (partition_of_lt n (Key kv) Hn) as Hp. cbn [emit_all]. unfold emit.
  rewrite decide_False by lia. rewrite partition_of_Z, (Hc _ Hp) by done.
  cbn [mbind option_bind]. set (p := partition_of n (Key kv)) in *.
  destruct (IH (<[(X, Z.of_nat p) := encode_all (content p) ++ json_encode kv]> fs)
    (λ i, content i ++ bucket n i [kv])) as (fs' & He & Hf & Ho).
  { intros i Hi. unfold bucket. destruct (decide (p = i)) as [<-|Hne].
    - rewrite lookup_insert_eq, filter_cons_True by done.
      rewrite encode_all_app. unfold encode_all at 3. cbn. by rewrite app_nil_r.
    - rewrite lookup_insert_ne by (intros [= ?]; lia).
      rewrite filter_cons_False by done. cbn. by rewrite app_nil_r, Hc. }
  exists fs'. split_and!; [exact He| |].
  - intros i Hi. rewrite (Hf i Hi), <-app_assoc. unfold bucket. by rewrite <-filter_app.
  - intros Y i HY. rewrite (Ho Y i HY), lookup_insert_ne by congruence. done.
Qed.

Lemma create_files_spec n X fs :
  files_are n X (λ _, []) (create_files n X fs) ∧ others_kept X fs (create_files n X fs).
Proof.
  unfold create_files. induction n as [|n [IH1 IH2]].
  { split; [intros i Hi; lia|done]. }
  rewrite seq_S, foldl_app. cbn. split.
  - intros i Hi. destruct (decide (i = n)) as [->|Hne]; [by rewrite lookup_insert_eq|].
    rewrite lookup_insert_ne by (intros [= ?]; lia). apply IH1. lia.
  - intros Y i HY. rewrite lookup_insert_ne by congruence. by apply IH2.
Qed.

(** A map task writes the buckets of its pairs, whatever the files held. *)
Lemma storeIntermediate_spec n X kva fs :
  (0 < n)%nat →
  ∃ fs', storeIntermediate kva n X fs = Some fs'
    ∧ files_are n X (λ i, bucket n i kva) fs' ∧ others_kept X fs fs'.
Proof.
  intros Hn. destruct (create_files_spec n X fs) as [Hc Ho].
  destruct (emit_all_spec n X kva _ _ Hn Hc) as (fs' & He & Hf & Ho').
  exists fs'. split_and!; [exact He|exact Hf|]. intros Y i HY. by rewrite Ho', Ho.
Qed.

(** ** The whole job *)

(** Map tasks in the order in which workers finish them, repeats included. *)
Fixpoint run_maps (mapf : string → string → list KeyValue) (inputs : list (string * string))
    (nReduce : nat) (order : list nat) fs : option Store :=
  match order with
  | [] => Some fs
  | X :: order => fs ← map_task mapf inputs nReduce X fs; run_maps mapf inputs nReduce order fs
  end.

Definition pairs_of (mapf : string → string → list KeyValue) (input : string * string) :=
  mapf (fst input) (snd input).

Definition all_pairs (mapf : string → string → list KeyValue) (inputs : list (string * string)) :=
  List.concat (map (pairs_of mapf) inputs).

Lemma run_maps_spec mapf inputs n order fs :
  (0 < n)%nat → Forall (λ X, (X < length inputs)%nat) order →
  ∃ fs', run_maps mapf inputs n order fs = Some fs'
    ∧ (∀ X input, X ∈ order → inputs !! X = Some input →
         files_are n (Z.of_nat X) (λ i, bucket n i (pairs_of mapf input)) fs')
    ∧ (∀ X i, X ∉ order → fs' !! (Z.of_nat X, i) = fs !! (Z.of_nat X, i)).
Proof.
  intros Hn. revert fs. induction order as [|X order IH]; intros fs Ho.
  { exists fs. split_and!; [done|by intros X input ?%elem_of_nil|done]. }
  apply Forall_cons_1 in Ho as [HX Ho]. cbn [run_maps]. unfold map_task.
  apply lookup_lt_is_Some in HX as [[f c] HX]. rewrite HX. cbn [mbind option_bind].
  destruct (storeIntermediate_spec n (Z.of_nat X) (mapf f c) fs Hn) as (fs1 & Hs & Hf1 & Hk1).
  rewrite Hs. cbn [mbind option_bind]. destruct (IH fs1 Ho) as (fs' & Hr & Hf' & Hk').
  exists fs'. split_and!; [exact Hr| |].
  - intros Y input HY Hin. destruct (decide (Y ∈ order)) as [HYo|HYo]; [by apply Hf'|].
    apply elem_of_cons in HY as [->|HY]; [|done]. rewrite HX in Hin. injection Hin as <-.
    intros i Hi. rewrite Hk' by done. by apply Hf1.
  - intros Y i HY. apply not_elem_of_cons in HY as [HYX HYo].
    rewrite (Hk' Y i HYo). apply Hk1. lia.
Qed.

Lemma read_files_spec mapf inputs n p m acc fs :
  (p < n)%nat → (m <= length inputs)%nat → Forall json_ok (all_pairs mapf inputs) →
  (∀ X input, inputs !! X = Some input →
     files_are n (Z.of_nat X) (λ i, bucket n i (pairs_of mapf input)) fs) →
  read_files (seq (length inputs - m) m) (Z.of_nat p) acc fs
  = Some (acc ++ bucket n p (all_pairs mapf (drop (length inputs - m) inputs))).
Proof.
  intros Hp. revert acc. induction m as [|m IH]; intros acc Hm Hok Hf.
  { cbn. rewrite Nat.sub_0_r, drop_all. cbn. by rewrite app_nil_r. }
  cbn [seq read_files]. set (X := (length inputs - S m)%nat).
  destruct (lookup_lt_is_Some_2 inputs X) as [input HX]; [lia|].
  rewrite (Hf X input HX p Hp). cbn [mbind option_bind].
  replace (S X) with (length inputs - m)%nat by lia.
  rewrite IH by (done || lia). rewrite (drop_S _ _ _ HX), <-app_assoc.
  unfold all_pairs at 2. cbn [map List.concat]. rewrite bucket_app.
  replace (S X) with (length inputs - m)%nat by lia. do 2 f_equal.
  rewrite decode_all_encode; [done| |].
  - apply Forall_forall. intros kv [_ Hkv]%list_elem_of_filter.
    rewrite Forall_forall in Hok. apply Hok. apply elem_of_concat_map. exists input.
    split; [by eapply list_elem_of_lookup_2|done].
  - pose proof (encode_all_length (bucket n p (pairs_of mapf input))). lia.
Qed.

(** The output files, bucket by bucket. *)
Definition bucket_outputs n l : list (list string) :=
  map (λ p, performReduce (sort_ByKey (bucket n p l)) reducef) (seq 0 n).

Lemma job_outputs mapf inputs n order fs :
  (0 < n)%nat → Forall json_ok (all_pairs mapf inputs) →
  (∀ X, X ∈ order ↔ (X < length inputs)%nat) →
  ∃ fs', run_maps mapf inputs n order fs = Some fs'
    ∧ mapM (λ p, reduce_task reducef (length inputs) p fs') (seq 0 n)
      = Some (bucket_outputs n (all_pairs mapf inputs)).
Proof.
  intros Hn Hok Hord.
  destruct (run_maps_spec mapf inputs n order fs Hn) as (fs' & Hr & Hf & _).
  { apply Forall_forall. intros X HX. by apply Hord. }
  assert (∀ X input, inputs !! X = Some input →
    files_are n (Z.of_nat X) (λ i, bucket n i (pairs_of mapf input)) fs') as Hall.
  { intros X input HX. apply Hf; [|done]. apply Hord. by eapply lookup_lt_Some. }
  exists fs'. split; [exact Hr|].
  apply mapM_Some. apply Forall2_fmap_r, Forall_Forall2_diag, Forall_forall.
  intros p Hp%elem_of_seq. unfold reduce_task, getIntermediate.
  pose proof (read_files_spec mapf inputs n p (length inputs) [] fs') as Hrf.
  rewrite Nat.sub_diag, drop_0 in Hrf. rewrite Hrf by (done || lia). done.
Qed.

Lemma outputs_sequential mapf inputs n :
  (0 < n)%nat → order_insensitive →
  List.concat (bucket_outputs n (all_pairs mapf inputs)) ≡ₚ sequential mapf reducef inputs.
Proof.
  intros Hn Hoi. unfold bucket_outputs, sequential. rewrite (buckets_lines n _ Hn Hoi).
  apply reflexive_eq. do 3 f_equal. unfold all_pairs. f_equal. apply map_ext. by intros [].
Qed.

(** Run the map tasks on any number of workers, in any order, each at least
    once, then every reduce task: the lines of all output files together are
    the lines [mrsequential] prints.  Where the order starts does not matter,
    nor do files left by an earlier job. *)
Theorem distributed_equals_sequential mapf inputs n order1 order2 fs1 fs2 :
  (0 < n)%nat → order_insensitive → Forall json_ok (all_pairs mapf inputs) →
  (∀ X, X ∈ order1 ↔ (X < length inputs)%nat) → (∀ X, X ∈ order2 ↔ (X < length inputs)%nat) →
  ∃ fs1' fs2' outs, run_maps mapf inputs n order1 fs1 = Some fs1'
    ∧ run_maps mapf inputs n order2 fs2 = Some fs2'
    ∧ mapM (λ p, reduce_task reducef (length inputs) p fs1') (seq 0 n) = Some outs
    ∧ mapM (λ p, reduce_task reducef (length inputs) p fs2') (seq 0 n) = Some outs
    ∧ List.concat outs ≡ₚ sequential mapf reducef inputs.
Proof.
  intros Hn Hoi Hok Ho1 Ho2.
  destruct (job_outputs mapf inputs n order1 fs1 Hn Hok Ho1) as (fs1' & Hr1 & Hm1).
  destruct (job_outputs mapf inputs n order2 fs2 Hn Hok Ho2) as (fs2' & Hr2 & Hm2).
  exists fs1', fs2', (bucket_outputs n (all_pairs mapf inputs)).
  split_and!; [done|done|done|done|by apply outputs_sequential].
Qed.
End Result.
