(* ===== verification/MrApps.v ===== *)
(** * MrApps: MapReduce applications of [src/src/mrapps]

    Word count, the indexer, and the test applications whose output is a
    function of their input, with what they make of a job.  [unicode.IsLetter]
    is a parameter; the order in which Go ranges over a map is one, too. *)
From stdpp Require Import base list list_numbers gmap strings option sorting sets pretty.
From Stdlib Require Import ZArith Lia.
From Stdlib Require Import Strings.Byte.
From Stdlib Require Import Ascii.
From S2P Require Import Prelude Labgob MrWorker MrResult.
#[local] Open Scope Z_scope.
#[local] Open Scope string_scope.
#[local] Open Scope list_scope.

(** ** Runes *)

Definition byte_at (s : string) (n : nat) : Z :=
  match String.get n s with Some c => Z.of_N (N_of_ascii c) | None => -1 end.

(** Is byte [n] a continuation byte, from [lo] to [hi]? *)
Definition cont (s : string) (n : nat) (lo hi : Z) : bool :=
  bool_decide (lo <= byte_at s n <= hi).

(** The first rune of a string and its width: UTF-8, or [RuneError] of width 1. *)
Definition RuneError : Z := 0xFFFD.
Definition decode_rune (s : string) : Z * nat :=
  let b0 := byte_at s 0 in
  let low n := Z.land (byte_at s n) 0x3F in
  if decide (b0 < 0x80) then (b0, 1%nat)
  else if bool_decide (0xC2 <= b0 <= 0xDF) && cont s 1 0x80 0xBF then
    (Z.lor (Z.shiftl (Z.land b0 0x1F) 6) (low 1%nat), 2%nat)
  else if bool_decide (0xE0 <= b0 <= 0xEF)
       && cont s 1 (if decide (b0 = 0xE0) then 0xA0 else 0x80)
                   (if decide (b0 = 0xED) then 0x9F else 0xBF)
       && cont s 2 0x80 0xBF then
    (Z.lor (Z.shiftl (Z.land b0 0x0F) 12) (Z.lor (Z.shiftl (low 1%nat) 6) (low 2%nat)), 3%nat)
  else if bool_decide (0xF0 <= b0 <= 0xF4)
       && cont s 1 (if decide (b0 = 0xF0) then 0x90 else 0x80)
                   (if decide (b0 = 0xF4) then 0x8F else 0xBF)
       && cont s 2 0x80 0xBF && cont s 3 0x80 0xBF then
    (Z.lor (Z.shiftl (Z.land b0 0x07) 18)
       (Z.lor (Z.shiftl (low 1%nat) 12) (Z.lor (Z.shiftl (low 2%nat) 6) (low 3%nat))), 4%nat)
  else (RuneError, 1%nat).

Definition take_str (n : nat) (s : string) : string := String.substring 0 n s.
Definition drop_str (n : nat) (s : string) : string :=
  String.substring n (String.length s - n) s.

(** [strings.FieldsFunc]: the maximal runs of runes that [f] does not hold of;
    [field] is the run being read. *)
Fixpoint fields_loop (fuel : nat) (f : Z → bool) (field s : string) : list string :=
  let flush := if decide (field = "") then [] else [field] in
  match fuel with
  | O => flush
  | S fuel =>
      if decide (s = "") then flush
      else
        let '(r, width) := decode_rune s in
        if f r then flush ++ fields_loop fuel f "" (drop_str width s)
        else fields_loop fuel f (field +:+ take_str width s) (drop_str width s)
  end.

Definition FieldsFunc (s : string) (f : Z → bool) : list string :=
  fields_loop (String.length s) f "" s.

Class UnicodeTables := IsLetter : Z → bool.

(** [strconv.Itoa(len(values))] *)
Definition Itoa_len {A} (l : list A) : string := pretty (Z.of_nat (length l)).

(** [sort.Strings]; the order is total, so the result is unique. *)
Definition sort_Strings (values : list string) : list string := merge_sort String.le values.

(** [strings.Join] *)
Fixpoint Join (values : list string) (sep : string) : string :=
  match values with
  | [] => ""
  | [v] => v
  | v :: vs => v +:+ sep +:+ Join vs sep
  end.

(** ** wc.go *)
Section WordCount.
Context `{UnicodeTables}.

Definition words_of (contents : string) : list string :=
  FieldsFunc contents (λ r, negb (IsLetter r)).

Definition wc_Map (filename contents : string) : list KeyValue :=
  (λ w, mkKeyValue w "1") <$> words_of contents.

Definition wc_Reduce (key : string) (values : list string) : string := Itoa_len values.

(** ** indexer.go *)

(** The keys of a map, in the order [range] meets them. *)
Class RangeOrder := range_keys : gset string → list string.
Class RangeLaws `{RangeOrder} : Prop := range_Permutation : ∀ m, range_keys m ≡ₚ elements m.
Context `{RangeOrder}.

Definition indexer_Map (document value : string) : list KeyValue :=
  (λ w, mkKeyValue w document) <$> range_keys (list_to_set (words_of value)).

Definition indexer_Reduce (key : string) (values : list string) : string :=
  Itoa_len values +:+ " " +:+ Join (sort_Strings values) ",".
End WordCount.

(** ** early_exit.go, crash.go and nocrash.go *)

Definition early_exit_Map (filename contents : string) : list KeyValue :=
  [mkKeyValue filename "1"].

Definition early_exit_Reduce (key : string) (values : list string) : string := Itoa_len values.

Definition nocrash_Map (filename contents : string) : list KeyValue :=
  [mkKeyValue "a" filename;
   mkKeyValue "b" (pretty (Z.of_nat (String.length filename)));
   mkKeyValue "c" (pretty (Z.of_nat (String.length contents)));
   mkKeyValue "d" "xyzzy"].

Definition nocrash_Reduce (key : string) (values : list string) : string :=
  Join (sort_Strings values) " ".

(** [maybeCrash] of crash.go with the number drawn below 1000: [false] is an
    exit of the worker. *)
Definition maybeCrash (rr : Z) : bool := negb (bool_decide (rr < 330)).

Definition crash_Map (rr : Z) (filename contents : string) : option (list KeyValue) :=
  if maybeCrash rr then Some (nocrash_Map filename contents) else None.

Definition crash_Reduce (rr : Z) (key : string) (values : list string) : option string :=
  if maybeCrash rr then Some (nocrash_Reduce key values) else None.

(** ** The order of the values does not matter *)

Lemma sort_Strings_Permutation vs1 vs2 : vs1 ≡ₚ vs2 → sort_Strings vs1 = sort_Strings vs2.
Proof.
  intros Hp. unfold sort_Strings. apply (StronglySorted_unique String.le).
  - apply (StronglySorted_merge_sort String.le).
  - apply (StronglySorted_merge_sort String.le).
  - by rewrite !merge_sort_Permutation.
Qed.

Lemma Itoa_len_Permutation {A} (l1 l2 : list A) : l1 ≡ₚ l2 → Itoa_len l1 = Itoa_len l2.
Proof. intros Hp. unfold Itoa_len. by rewrite Hp. Qed.

#[export] Hint Resolve sort_Strings_Permutation Itoa_len_Permutation : go.

Lemma wc_order_insensitive : order_insensitive wc_Reduce.
Proof. intros k vs1 vs2 Hp. by apply Itoa_len_Permutation. Qed.

Lemma indexer_order_insensitive : order_insensitive indexer_Reduce.
Proof.
  intros k vs1 vs2 Hp. unfold indexer_Reduce.
  by rewrite (Itoa_len_Permutation _ _ Hp), (sort_Strings_Permutation _ _ Hp).
Qed.

Lemma nocrash_order_insensitive : order_insensitive nocrash_Reduce.
Proof. intros k vs1 vs2 Hp. unfold nocrash_Reduce. by rewrite (sort_Strings_Permutation _ _ Hp). Qed.

(** ** What the jobs compute *)
Section Jobs.
Context `{JsonLaws} `{SorterLaws} `{UnicodeTables} `{RangeLaws}.

(** The words of all inputs, with repetitions. *)
Definition all_words (inputs : list (string * string)) : list string :=
  List.concat (map (λ i, words_of (snd i)) inputs).

Lemma wc_pairs inputs :
  all_pairs wc_Map inputs = (λ w, mkKeyValue w "1") <$> all_words inputs.
Proof.
  unfold all_pairs, all_words. induction inputs as [|[f c] inputs IH]; [done|].
  cbn. by rewrite fmap_app, <-IH.
Qed.

Lemma wc_keys (ws : list string) : Key <$> ((λ w, mkKeyValue w "1") <$> ws) = ws.
Proof. induction ws as [|w ws IH]; [done|]. cbn. by rewrite IH. Qed.

Lemma wc_values w (ws : list string) :
  length (values_of w ((λ w, mkKeyValue w "1") <$> ws)) = length (filter (λ w', w' = w) ws).
Proof.
  unfold values_of. rewrite length_fmap. induction ws as [|w' ws IH]; [done|].
  rewrite fmap_cons, !filter_cons. cbn [Key].
  repeat case_decide; try done. cbn [length]. by rewrite IH.
Qed.

(** [mrsequential] with the word count: one line for each word that occurs,
    with the number of its occurrences in all inputs. *)
Lemma wc_sequential inputs :
  ∃ ws, NoDup ws ∧ (∀ w, w ∈ ws ↔ w ∈ all_words inputs)
    ∧ sequential wc_Map wc_Reduce inputs
      = (λ w, output_line w (Itoa_len (filter (λ w', w' = w) (all_words inputs)))) <$> ws.
Proof.
  set (l := all_pairs wc_Map inputs).
  pose proof (sort_Sorted l) as Hs. exists (keys_of (sort_ByKey l)). split_and!.
  - by apply keys_of_NoDup.
  - intros w. rewrite elem_of_keys_of, (sort_Permutation l) by done.
    unfold l. by rewrite wc_pairs, wc_keys.
  - unfold sequential.
    replace (List.concat _) with l.
    2: { unfold l, all_pairs. f_equal. apply map_ext. by intros []. }
    rewrite performReduce_lines by done. apply list_fmap_ext. intros i w _.
    unfold line_of. f_equal. unfold wc_Reduce, Itoa_len. do 2 f_equal.
    rewrite (Permutation_length (values_of_Permutation w _ _ (sort_Permutation l))).
    unfold l. rewrite wc_pairs. apply wc_values.
Qed.

(** A distributed word count prints, for each word of the inputs, one line with
    the number of its occurrences, whatever the number of partitions and however
    the map tasks are repeated. *)
Theorem word_count inputs n order fs :
  (0 < n)%nat → Forall json_ok (all_pairs wc_Map inputs) →
  (∀ X, X ∈ order ↔ (X < length inputs)%nat) →
  ∃ fs' outs ws, run_maps wc_Map inputs n order fs = Some fs'
    ∧ mapM (λ p, reduce_task wc_Reduce (length inputs) p fs') (seq 0 n) = Some outs
    ∧ NoDup ws ∧ (∀ w, w ∈ ws ↔ w ∈ all_words inputs)
    ∧ List.concat outs ≡ₚ
      (λ w, output_line w (Itoa_len (filter (λ w', w' = w) (all_words inputs)))) <$> ws.
Proof.
  intros Hn Hok Hord.
  destruct (job_outputs wc_Reduce wc_Map inputs n order fs Hn Hok Hord) as (fs' & Hr & Hm).
  pose proof (outputs_sequential wc_Reduce wc_Map inputs n Hn wc_order_insensitive) as Hp.
  destruct (wc_sequential inputs) as (ws & Hnd & Hin & Hs).
  eexists fs', _, ws. rewrite <-Hs. done.
Qed.
End Jobs.
