(* ===== verification/MrProbes.v ===== *)
(** * MrProbes: the applications that watch the workers

    [mtiming.go], [rtiming.go] and [jobcount.go] of [src/src/mrapps] leave files in
    the directory that all workers share and count them: the first two to see how
    many tasks run at the same time, the last to see how often [Map] was called.
    The model is a directory, of which only the names matter, and the processes
    with their place in [nparallel], whose loop is one step per name, so that others
    come, go and are killed meanwhile; [Readdirnames] reads the directory at one
    moment.  What is counted is bounded from both sides. *)
From stdpp Require Import base list list_numbers gmap fin_maps strings option sets pretty.
From Stdlib Require Import ZArith Lia Ascii.
From S2P Require Import Prelude GoStrings Labgob MrWorker MrApps.
#[local] Open Scope Z_scope.
#[local] Open Scope string_scope.
#[local] Open Scope list_scope.

(** ** Scanning a name *)

Definition digit_of (c : ascii) : option Z :=
  let n := Z.of_N (N_of_ascii c) in
  if decide (48 <= n <= 57) then Some (n - 48) else None.

Definition is_space (c : ascii) : bool :=
  let n := N_of_ascii c in bool_decide (n = 32 ∨ 9 <= n <= 13)%N && negb (bool_decide (n = 10))%N.

Fixpoint skip_spaces (s : string) : string :=
  match s with
  | String c s' => if is_space c then skip_spaces s' else s
  | EmptyString => s
  end.

(** The number at the start of a string, and what follows it. *)
Fixpoint take_digits (s : string) (acc : Z) : Z * string :=
  match s with
  | String c s' =>
      match digit_of c with Some d => take_digits s' (acc * 10 + d) | None => (acc, s) end
  | EmptyString => (acc, s)
  end.

(** [%d] of [fmt.Sscanf], into an [int]: what follows the number is not looked at. *)
Definition scan_int (s : string) : option Z :=
  let s := skip_spaces s in
  let '(sgn, s) := match s with
    | String c s' => if decide (c = "+"%char) then (1, s') else if decide (c = "-"%char) then (-1, s') else (1, s)
    | EmptyString => (1, s)
    end in
  match s with
  | String c _ =>
      match digit_of c with
      | Some _ =>
          let v := sgn * fst (take_digits s 0) in
          if decide (- 2 ^ 63 <= v < 2 ^ 63) then Some v else None
      | None => None
      end
  | EmptyString => None
  end.

Fixpoint strip_prefix (p s : string) : option string :=
  match p, s with
  | EmptyString, _ => Some s
  | String c p', String c' s' => if decide (c = c') then strip_prefix p' s' else None
  | String _ _, EmptyString => None
  end.

Inductive Phase := map_phase | reduce_phase.
#[export] Instance Phase_eq_dec : EqDecision Phase.
Proof. solve_decision. Defined.

Definition probe_prefix (phase : Phase) : string :=
  match phase with map_phase => "mr-worker-map-" | reduce_phase => "mr-worker-reduce-" end.

(** [fmt.Sprintf("mr-worker-%s-%d", phase, pid)], and the scan of such a name. *)
Definition probe_name (phase : Phase) (pid : Z) : string := probe_prefix phase +:+ pretty pid.
Definition scan_probe (phase : Phase) (name : string) : option Z := strip_prefix (probe_prefix phase) name ≫= scan_int.

(** ** [nparallel] *)

(** The names of a directory in the order [Readdirnames] gives them. *)
Class DirOrder := Readdirnames : gset string → list string.
Class DirLaws `{DirOrder} : Prop := Readdirnames_Permutation : ∀ d, Readdirnames d ≡ₚ elements d.

(** [syscall.Kill(xpid, 0)] for a number that is not one of a process, which means a
    group of them: whether it finds somebody. *)
Class KillGroup := kill_group : Z → bool.

(** Where a process is: between two calls, after it wrote its file, in the loop over
    [names] with [ret].  When no names are left it sleeps and then removes its file. *)
Inductive Stage := Outside | Wrote (phase : Phase) | Scanning (phase : Phase) (names : list string) (ret : nat).

(** The directory and the processes that live. *)
Record Probes := mkProbes { files : gset string; procs : gmap Z Stage }.

(** A process ends when its number is free again ([PKill]); until then one that was
    killed takes no step.  The numbers are those of the processes [Kill] may signal. *)
Inductive ProbeEvent :=
  | PSpawn (pid : Z)
  | PKill (pid : Z)
  | PWrite (pid : Z) (phase : Phase)
  | PRead (pid : Z)
  | PAsk (pid : Z)
  | PRemove (pid : Z).

#[export] Instance ProbeEvent_eq_dec : EqDecision ProbeEvent.
Proof. solve_decision. Defined.

Implicit Types (w : Probes) (pid p : Z) (phase : Phase) (name : string) (e : ProbeEvent) (es : list ProbeEvent) (n : nat).

Definition stage_phase (st : Stage) : option Phase :=
  match st with Outside => None | Wrote phase | Scanning phase _ _ => Some phase end.

Section Probes.
Context `{DirOrder, KillGroup}.

(** [syscall.Kill(xpid, 0)] *)
Definition alive w pid : bool := if decide (0 < pid) then bool_decide (is_Some (procs w !! pid)) else kill_group pid.

(** One turn of the loop: is the name one of this phase, with a number that lives? *)
Definition is_probe phase w name : bool :=
  match scan_probe phase name with Some p => alive w p | None => false end.

Definition probe_exec w e : option Probes :=
  match e with
  | PSpawn pid =>
      match procs w !! pid with
      | None => if decide (0 < pid < 2 ^ 63) then Some (mkProbes (files w) (<[pid := Outside]> (procs w))) else None
      | Some _ => None
      end
  | PKill pid => st ← procs w !! pid; Some (mkProbes (files w) (delete pid (procs w)))
  | PWrite pid phase =>
      match procs w !! pid with
      | Some Outside => Some (mkProbes ({[probe_name phase pid]} ∪ files w) (<[pid := Wrote phase]> (procs w)))
      | _ => None
      end
  | PRead pid =>
      match procs w !! pid with
      | Some (Wrote phase) =>
          let names := take (Z.to_nat 1000000) (Readdirnames (files w)) in
          Some (mkProbes (files w) (<[pid := Scanning phase names 0]> (procs w)))
      | _ => None
      end
  | PAsk pid =>
      match procs w !! pid with
      | Some (Scanning phase (name :: names) ret) =>
          let ret := if is_probe phase w name then S ret else ret in
          Some (mkProbes (files w) (<[pid := Scanning phase names ret]> (procs w)))
      | _ => None
      end
  | PRemove pid =>
      match procs w !! pid with
      | Some (Scanning phase [] ret) =>
          if decide (probe_name phase pid ∈ files w) then
            Some (mkProbes (files w ∖ {[probe_name phase pid]}) (<[pid := Outside]> (procs w)))
          else None
      | _ => None
      end
  end.

(** What [nparallel] returns to a process that may remove its file. *)
Definition counted w pid : option nat :=
  match procs w !! pid with Some (Scanning _ [] n) => Some n | _ => None end.

Fixpoint probe_run es w : option Probes :=
  match es with [] => Some w | e :: es => w ← probe_exec w e; probe_run es w end.

(** From a directory with any files in it. *)
Inductive probe_reach : Probes → Prop :=
  | probe_start d : probe_reach (mkProbes d ∅)
  | probe_step w e w' : probe_reach w → probe_exec w e = Some w' → probe_reach w'.
End Probes.

(** ** The applications *)

(** [mtiming.go]: [ts] is the time, printed with [%.1f]. *)
Definition mtiming_Map (pid n : Z) (ts : string) : list KeyValue :=
  [mkKeyValue ("times-" +:+ pretty pid) ts; mkKeyValue ("parallel-" +:+ pretty pid) (pretty n)].
Definition mtiming_Reduce (key : string) (values : list string) : string := Join (sort_Strings values) " ".

(** [rtiming.go] *)
Definition rtiming_Map (filename contents : string) : list KeyValue :=
  (λ k, mkKeyValue k "1") <$> ["a"; "b"; "c"; "d"; "e"; "f"; "g"; "h"; "i"; "j"].
Definition rtiming_Reduce (n : Z) : string := pretty n.

(** [jobcount.go]: [count] of each process. *)
Record JobCount := mkJobCount { job_files : gset string; counts : gmap Z nat }.

Definition job_name (pid : Z) (count : nat) : string :=
  "mr-worker-jobcount-" +:+ pretty pid +:+ "-" +:+ pretty (Z.of_nat count).

Definition jobcount_Map (pid : Z) (w : JobCount) : option (JobCount * list KeyValue) :=
  count ← counts w !! pid;
  Some (mkJobCount ({[job_name pid count]} ∪ job_files w) (<[pid := S count]> (counts w)), [mkKeyValue "a" "x"]).

Definition is_job (name : string) : bool := String.prefix "mr-worker-jobcount" name.

Definition jobcount_Reduce (w : JobCount) : string :=
  pretty (Z.of_nat (size (filter (λ name, is_job name = true) (job_files w)))).

(** ** Numbers in names *)

Lemma append_empty (a : string) : a +:+ "" = a.
Proof. induction a as [|x a IH]; [done|]. change (String x (a +:+ "") = String x a). by rewrite IH. Qed.

Lemma append_assoc (a b c : string) : (a +:+ b) +:+ c = a +:+ (b +:+ c).
Proof. induction a as [|x a IH]; [done|]. change (String x ((a +:+ b) +:+ c) = String x (a +:+ (b +:+ c))). by rewrite IH. Qed.

Lemma digit_of_pretty (x : N) : (x < 10)%N → digit_of (pretty_N_char x) = Some (Z.of_N x).
Proof.
  intros Hx. assert (x = 0 ∨ x = 1 ∨ x = 2 ∨ x = 3 ∨ x = 4 ∨ x = 5 ∨ x = 6 ∨ x = 7 ∨ x = 8 ∨ x = 9)%N as Hc by lia.
  by repeat (destruct Hc as [->|Hc]); [..|subst].
Qed.

Lemma pretty_go_app (x : N) (s r : string) : pretty_N_go x s +:+ r = pretty_N_go x (s +:+ r).
Proof.
  revert s. induction (N.lt_wf_0 x) as [x _ IH]; intros s.
  assert (x = 0 ∨ 0 < x)%N as [->|?] by lia; [by rewrite !pretty_N_go_0|].
  rewrite !(pretty_N_go_step x) by done. rewrite IH by (by apply N.div_lt). done.
Qed.

Lemma take_digits_go (x : N) (s : string) : take_digits (pretty_N_go x s) 0 = take_digits s (Z.of_N x).
Proof.
  revert s. induction (N.lt_wf_0 x) as [x _ IH]; intros s.
  assert (x = 0 ∨ 0 < x)%N as [->|?] by lia; [by rewrite pretty_N_go_0|].
  rewrite pretty_N_go_step by done. rewrite IH by (by apply N.div_lt). cbn [take_digits].
  rewrite digit_of_pretty by (by apply N.mod_lt). f_equal. rewrite N2Z.inj_div, N2Z.inj_mod.
  pose proof (Z.div_mod (Z.of_N x) 10). lia.
Qed.

Lemma take_digits_pretty (z : Z) (s : string) : 0 <= z → take_digits (pretty z +:+ s) 0 = take_digits s z.
Proof.
  intros Hz. destruct z as [|z|z]; [done| |lia]. change (pretty (Z.pos z)) with (pretty_N_go (N.pos z) "").
  rewrite pretty_go_app, take_digits_go. done.
Qed.

Lemma pretty_go_digit (x : N) (c : ascii) (s : string) :
  is_Some (digit_of c) → ∃ c' s', pretty_N_go x (String c s) = String c' s' ∧ is_Some (digit_of c').
Proof.
  revert c s. induction (N.lt_wf_0 x) as [x _ IH]; intros c s Hc.
  assert (x = 0 ∨ 0 < x)%N as [->|?] by lia; [rewrite pretty_N_go_0; eauto|].
  rewrite pretty_N_go_step by done. apply IH; [by apply N.div_lt|]. rewrite digit_of_pretty; [eauto|]. by apply N.mod_lt.
Qed.

Lemma pretty_digit (z : Z) : 0 <= z → ∃ c s, pretty z = String c s ∧ is_Some (digit_of c).
Proof.
  intros Hz. destruct z as [|z|z]; [by eexists _, _| |lia]. change (pretty (Z.pos z)) with (pretty_N_go (N.pos z) "").
  rewrite pretty_N_go_step by done. apply pretty_go_digit. rewrite digit_of_pretty; [eauto|]. by apply N.mod_lt.
Qed.

Lemma digit_plain (c : ascii) : is_Some (digit_of c) → is_space c = false ∧ c ≠ "+"%char ∧ c ≠ "-"%char.
Proof.
  unfold digit_of, is_space. intros [d Hd]. case_decide as Hr; [|done].
  split; [|split; intros ->; vm_compute in Hr; destruct Hr as [Hr _]; by apply Hr].
  rewrite bool_decide_eq_false_2; [done|]. lia.
Qed.

Lemma scan_int_pretty (z : Z) : 0 <= z < 2 ^ 63 → scan_int (pretty z) = Some z.
Proof.
  intros Hz. destruct (pretty_digit z) as (c & s & E & Hc); [lia|]. destruct (digit_plain c Hc) as (Hs & Hp & Hm).
  assert (fst (take_digits (pretty z) 0) = z) as Hv.
  { rewrite <- (append_empty (pretty z)), take_digits_pretty by lia. done. }
  unfold scan_int. rewrite E in *. cbn [skip_spaces]. rewrite Hs, decide_False, decide_False by done.
  destruct Hc as [d ->]. rewrite Hv, Z.mul_1_l, decide_True by lia. done.
Qed.

Lemma strip_prefix_app (p s : string) : strip_prefix p (p +:+ s) = Some s.
Proof.
  induction p as [|c p IH]; [by destruct s|]. change (String c p +:+ s) with (String c (p +:+ s)).
  cbn. by destruct (decide (c = c)).
Qed.

Lemma scan_probe_name phase phase' pid :
  0 <= pid < 2 ^ 63 → scan_probe phase (probe_name phase' pid) = if decide (phase = phase') then Some pid else None.
Proof.
  intros Hp. case_decide as E; [subst|by destruct phase, phase'].
  unfold scan_probe, probe_name. rewrite strip_prefix_app. by apply scan_int_pretty.
Qed.

Lemma probe_name_inj phase p p' : probe_name phase p = probe_name phase p' → p = p'.
Proof.
  unfold probe_name. intros E. apply (inj pretty).
  pose proof (strip_prefix_app (probe_prefix phase) (pretty p)) as H1. rewrite E, strip_prefix_app in H1. by injection H1.
Qed.

(** ** What is counted *)
Section Count.
Context `{DirLaws, KillGroup}.

Record probe_inv w : Prop := {
  pr_own pid st phase : procs w !! pid = Some st → stage_phase st = Some phase → probe_name phase pid ∈ files w;
  pr_pid pid st : procs w !! pid = Some st → 0 < pid < 2 ^ 63
}.

(** A process moves within its phase. *)
Lemma inv_same_stage w pid st st' :
  probe_inv w → procs w !! pid = Some st → stage_phase st' = stage_phase st →
  probe_inv (mkProbes (files w) (<[pid := st']> (procs w))).
Proof.
  intros [Ho Hp] Hst E. split; cbn.
  - intros p st1 phase [[-> <-]|[? ?]]%lookup_insert_Some Hph; [|by eapply Ho]. eapply Ho; [done|]. congruence.
  - intros p st1 [[-> <-]|[? ?]]%lookup_insert_Some; eauto.
Qed.

Lemma probe_name_other phase phase' p p' :
  0 < p < 2 ^ 63 → 0 < p' < 2 ^ 63 → probe_name phase p = probe_name phase' p' → phase = phase' ∧ p = p'.
Proof.
  intros Hp Hp' E. pose proof (scan_probe_name phase phase p ltac:(lia)) as Hs.
  rewrite E, scan_probe_name, (decide_True (P := phase = phase)) in Hs by (done || lia). case_decide; [|done]. simplify_eq. done.
Qed.

Lemma probe_exec_inv w e w' : probe_inv w → probe_exec w e = Some w' → probe_inv w'.
Proof.
  intros Hinv Hx. pose proof Hinv as [Ho Hp]. destruct e as [pid|pid|pid phase|pid|pid|pid]; cbn in Hx.
  - destruct (procs w !! pid) eqn:Hn; [done|]. case_decide as Hr; [|done]. injection Hx as <-. split; cbn.
    + intros p st phase [[-> <-]|[_ ?]]%lookup_insert_Some Hph; [done|by eapply Ho].
    + intros p st [[-> <-]|[_ ?]]%lookup_insert_Some; [done|by eapply Hp].
  - apply bind_Some in Hx as (st & Hst & [= <-]). split; cbn.
    + intros p st1 phase [_ ?]%lookup_delete_Some; by eapply Ho.
    + intros p st1 [_ ?]%lookup_delete_Some; by eapply Hp.
  - destruct (procs w !! pid) as [[]|] eqn:Hst; try done. injection Hx as <-. split; cbn.
    + intros p st phase' [[-> <-]|[_ ?]]%lookup_insert_Some Hph; [|apply elem_of_union; right; by eapply Ho].
      injection Hph as <-. set_solver.
    + intros p st [[-> <-]|[_ ?]]%lookup_insert_Some; by eapply Hp.
  - destruct (procs w !! pid) as [[| |]|] eqn:Hst; try done. injection Hx as <-. by eapply inv_same_stage.
  - destruct (procs w !! pid) as [[| |? [|]]|] eqn:Hst; try done. injection Hx as <-. by eapply inv_same_stage.
  - destruct (procs w !! pid) as [[| |phase [|]]|] eqn:Hst; try done. case_decide as Hown; [|done]. injection Hx as <-. split; cbn.
    + intros p st phase' [[-> <-]|[Hne Hl]]%lookup_insert_Some Hph; [done|]. apply elem_of_difference.
      split; [by eapply Ho|]. intros E%elem_of_singleton. by apply probe_name_other in E as [_ ->]; [|eapply Hp..].
    + intros p st [[-> <-]|[_ ?]]%lookup_insert_Some; by eapply Hp.
Qed.

Lemma probe_reach_inv w : probe_reach w → probe_inv w.
Proof.
  induction 1 as [d|w e w' _ IH Hx]; [|by eapply probe_exec_inv]. split; cbn; intros pid st; by rewrite lookup_empty.
Qed.

Lemma probe_run_reach es w w' : probe_reach w → probe_run es w = Some w' → probe_reach w'.
Proof.
  revert w. induction es as [|e es IH]; intros w Hr Hx; [by injection Hx as <-|].
  apply bind_Some in Hx as (w1 & He & Hx). eapply IH; [by eapply probe_step|done].
Qed.

(** Who lives after an event. *)
Lemma probe_exec_lives w e w' p :
  probe_exec w e = Some w' →
  (is_Some (procs w !! p) → e ≠ PKill p → is_Some (procs w' !! p)) ∧
  (is_Some (procs w' !! p) → is_Some (procs w !! p) ∨ e = PSpawn p).
Proof.
  intros Hx. assert (∀ pid st, is_Some (procs w !! pid) → procs w' = <[pid := st]> (procs w) →
    (is_Some (procs w !! p) → is_Some (procs w' !! p)) ∧ (is_Some (procs w' !! p) → is_Some (procs w !! p))) as Hsame.
  { intros pid st Hpid ->. destruct (decide (p = pid)) as [->|Hne]; [by rewrite lookup_insert_eq|].
    by rewrite lookup_insert_ne. }
  destruct e as [pid|pid|pid phase|pid|pid|pid]; cbn in Hx.
  - destruct (procs w !! pid); [done|]. case_decide; [|done]. injection Hx as <-. cbn.
    destruct (decide (p = pid)) as [->|Hne]; [rewrite lookup_insert_eq; split; auto|]. rewrite lookup_insert_ne by done. auto.
  - apply bind_Some in Hx as (st & Hst & [= <-]). cbn. destruct (decide (p = pid)) as [->|Hne].
    + rewrite lookup_delete_eq. split; [done|by intros []].
    + rewrite lookup_delete_ne by done. auto.
  - destruct (procs w !! pid) as [[]|] eqn:E; try done. injection Hx as <-.
    destruct (Hsame pid (Wrote phase)) as [Hto Hback]; [by rewrite E|done|]. split; [by intros ? _; apply Hto|left; by apply Hback].
  - destruct (procs w !! pid) as [[]|] eqn:E; try done. injection Hx as <-.
    edestruct (Hsame pid) as [Hto Hback]; [by rewrite E|reflexivity|]. split; [by intros ? _; apply Hto|left; by apply Hback].
  - destruct (procs w !! pid) as [[| |? [|]]|] eqn:E; try done. injection Hx as <-.
    edestruct (Hsame pid) as [Hto Hback]; [by rewrite E|reflexivity|]. split; [by intros ? _; apply Hto|left; by apply Hback].
  - destruct (procs w !! pid) as [[| |? [|]]|] eqn:E; try done. case_decide; [|done]. injection Hx as <-.
    edestruct (Hsame pid) as [Hto Hback]; [by rewrite E|reflexivity|]. split; [by intros ? _; apply Hto|left; by apply Hback].
Qed.

(** A name whose process lives and is not killed, and one that may be counted. *)
Definition sure phase es w name : bool :=
  match scan_probe phase name with
  | Some p => bool_decide (0 < p ∧ is_Some (procs w !! p) ∧ PKill p ∉ es)
  | None => false
  end.
Definition may phase es w name : bool :=
  match scan_probe phase name with
  | Some p => bool_decide (p <= 0 ∨ is_Some (procs w !! p) ∨ PSpawn p ∈ es)
  | None => false
  end.

Lemma sure_probe phase es w name : sure phase es w name = true → is_probe phase w name = true.
Proof.
  unfold sure, is_probe, alive. destruct (scan_probe _ _); [|done]. intros (? & ? & _)%bool_decide_eq_true.
  rewrite decide_True by done. by apply bool_decide_eq_true.
Qed.

Lemma probe_may phase es w name : is_probe phase w name = true → may phase es w name = true.
Proof.
  unfold may, is_probe, alive. destruct (scan_probe _ _); [|done]. case_decide.
  - intros ?%bool_decide_eq_true. apply bool_decide_eq_true. auto.
  - intros _. apply bool_decide_eq_true. left. lia.
Qed.

Lemma sure_after phase e es w w' name :
  probe_exec w e = Some w' → sure phase (e :: es) w name = true → sure phase es w' name = true.
Proof.
  unfold sure. intros Hx. destruct (scan_probe _ _) as [p|]; [|done]. intros (? & Hl & Hk)%bool_decide_eq_true.
  apply bool_decide_eq_true. apply not_elem_of_cons in Hk as [Hk ?]. split; [done|]. split; [|done].
  apply (probe_exec_lives _ _ _ p Hx); [done|congruence].
Qed.

Lemma may_before phase e es w w' name :
  probe_exec w e = Some w' → may phase es w' name = true → may phase (e :: es) w name = true.
Proof.
  unfold may. intros Hx. destruct (scan_probe _ _) as [p|]; [|done]. intros Hm%bool_decide_eq_true.
  apply bool_decide_eq_true. rewrite elem_of_cons. destruct Hm as [?|[Hl|?]]; auto.
  apply (probe_exec_lives _ _ _ p Hx) in Hl as [?| ->]; auto.
Qed.

Definition number (f : string → bool) (names : list string) : nat := length (filter (λ name, f name = true) names).

Lemma number_mono (f g : string → bool) names :
  (∀ name, f name = true → g name = true) → (number f names <= number g names)%nat.
Proof.
  intros Hfg. unfold number. induction names as [|name names IH]; [done|]. rewrite !filter_cons.
  repeat case_decide; cbn; try lia. by destruct (Hfg name).
Qed.

Definition asks pid es : nat := length (filter (λ e, e = PAsk pid) es).

(** The loop along a run in which the process is not killed. *)
Lemma scan_bounds es w w' pid phase names ret :
  procs w !! pid = Some (Scanning phase names ret) → probe_run es w = Some w' →
  PKill pid ∉ es → PRemove pid ∉ es →
  ∃ ret', procs w' !! pid = Some (Scanning phase (drop (asks pid es) names) ret') ∧
    (ret + number (sure phase es w) (take (asks pid es) names) <= ret')%nat ∧
    (ret' <= ret + number (may phase es w) (take (asks pid es) names))%nat.
Proof.
  revert w names ret. induction es as [|e es IH]; intros w names ret Hst Hx Hk Hr.
  { injection Hx as <-. exists ret. change (asks pid []) with 0%nat. rewrite drop_0, take_0. split; [done|].
    change (number (sure phase [] w) []) with 0%nat. change (number (may phase [] w) []) with 0%nat. lia. }
  apply bind_Some in Hx as (w1 & He & Hx). apply not_elem_of_cons in Hk as [Hk0 Hk], Hr as [Hr0 Hr].
  assert (∀ ns, (number (sure phase (e :: es) w) ns <= number (sure phase es w1) ns)%nat) as Hsure
    by (intros ns; apply number_mono; intros name; by apply sure_after).
  assert (∀ ns, (number (may phase es w1) ns <= number (may phase (e :: es) w) ns)%nat) as Hmay
    by (intros ns; apply number_mono; intros name; by apply may_before).
  unfold asks. rewrite filter_cons. destruct (decide (e = PAsk pid)) as [->|Hne].
  - cbn in He. rewrite Hst in He. destruct names as [|name names]; [done|]. injection He as E.
    assert (procs w1 !! pid = Some (Scanning phase names (if is_probe phase w name then S ret else ret))) as Hst1
      by (rewrite <- E; cbn; by rewrite lookup_insert_eq).
    destruct (IH w1 names (if is_probe phase w name then S ret else ret) Hst1 Hx Hk Hr) as (ret' & Hst' & Hlo & Hup).
    exists ret'. cbn [length drop take]. split; [exact Hst'|].
    specialize (Hsure (take (asks pid es) names)). specialize (Hmay (take (asks pid es) names)).
    unfold number in *. rewrite !filter_cons. unfold asks in *.
    pose proof (sure_probe phase (PAsk pid :: es) w name). pose proof (probe_may phase (PAsk pid :: es) w name).
    destruct (is_probe phase w name) eqn:Hp; repeat case_decide; cbn [length];
      first [lia|exfalso; naive_solver].
  - assert (procs w1 !! pid = Some (Scanning phase names ret)) as Hst1.
    { destruct e as [p|p|p phase'|p|p|p]; cbn in He; (destruct (decide (p = pid)) as [->|Hp];
        [rewrite Hst in He; cbn in He; try done; by destruct Hne, Hk0, Hr0|]).
      - destruct (procs w !! p); [done|]. case_decide; [|done]. injection He as <-. cbn. by rewrite lookup_insert_ne.
      - apply bind_Some in He as (st & _ & [= <-]). cbn. by rewrite lookup_delete_ne.
      - destruct (procs w !! p) as [[]|]; try done. injection He as <-. cbn. by rewrite lookup_insert_ne.
      - destruct (procs w !! p) as [[]|]; try done. injection He as <-. cbn. by rewrite lookup_insert_ne.
      - destruct (procs w !! p) as [[| |? [|]]|]; try done. injection He as <-. cbn. by rewrite lookup_insert_ne.
      - destruct (procs w !! p) as [[| |? [|]]|]; try done. case_decide; [|done]. injection He as <-. cbn. by rewrite lookup_insert_ne. }
    destruct (IH _ _ _ Hst1 Hx Hk Hr) as (ret' & Hst' & Hlo & Hup). exists ret'. split; [exact Hst'|].
    specialize (Hsure (take (asks pid es) names)). specialize (Hmay (take (asks pid es) names)).
    unfold asks in *. lia.
Qed.
(** The processes that are in [nparallel] with this phase, and those of them that are
    not killed. *)
Definition running phase w : gmap Z Stage := filter (λ x, stage_phase x.2 = Some phase) (procs w).
Definition staying phase es w : gmap Z Stage := filter (λ x, stage_phase x.2 = Some phase ∧ PKill x.1 ∉ es) (procs w).

(** Every file of the phase is that of a worker in [nparallel], or its number is that
    of no process, before and during the loop: nobody has the number of a worker that
    was killed and left its file. *)
Definition no_leftover phase es w : Prop :=
  ∀ name p, name ∈ files w → scan_probe phase name = Some p →
    name = probe_name phase p ∧ (∃ st, procs w !! p = Some st ∧ stage_phase st = Some phase) ∨
    0 < p ∧ procs w !! p = None ∧ PSpawn p ∉ es.

Lemma names_NoDup phase (m : gmap Z Stage) : NoDup (probe_name phase <$> (map_to_list m).*1).
Proof. apply NoDup_fmap_2_strong; [intros p p' _ _; apply probe_name_inj|]. apply NoDup_fst_map_to_list. Qed.

Lemma elem_of_names phase (m : gmap Z Stage) name :
  name ∈ probe_name phase <$> (map_to_list m).*1 ↔ ∃ p, name = probe_name phase p ∧ is_Some (m !! p).
Proof.
  rewrite list_elem_of_fmap. setoid_rewrite list_elem_of_fmap. split.
  - intros (p & -> & ([p' st] & -> & Hin%elem_of_map_to_list)). exists p'. split; [done|]. by exists st.
  - intros (p & -> & [st Hst]). exists p. split; [done|]. exists (p, st). split; [done|]. by apply elem_of_map_to_list.
Qed.

Lemma staying_counted phase es w names :
  probe_inv w → names ≡ₚ elements (files w) → (size (staying phase es w) <= number (sure phase es w) names)%nat.
Proof.
  intros [Ho Hp] Hn. unfold number. rewrite <- length_map_to_list, <- (length_fmap fst), <- (length_fmap (probe_name phase)).
  apply submseteq_length, NoDup_submseteq; [apply names_NoDup|].
  intros name (p & -> & [st (Hst & Hph & Hk)%map_lookup_filter_Some])%elem_of_names. apply list_elem_of_filter.
  rewrite Hn, elem_of_elements. split; [|by eapply Ho]. pose proof (Hp _ _ Hst). unfold sure.
  rewrite scan_probe_name, decide_True by (done || lia). apply bool_decide_eq_true. split; [lia|]. split; [by rewrite Hst|done].
Qed.

Lemma counted_running phase es w names :
  names ≡ₚ elements (files w) → no_leftover phase es w → (number (may phase es w) names <= size (running phase w))%nat.
Proof.
  intros Hn Hno. unfold number. rewrite <- length_map_to_list, <- (length_fmap fst), <- (length_fmap (probe_name phase)).
  apply submseteq_length, NoDup_submseteq.
  { apply NoDup_filter. rewrite Hn. apply NoDup_elements. }
  intros name [Hm Hin]%list_elem_of_filter. rewrite Hn, elem_of_elements in Hin. apply elem_of_names.
  unfold may in Hm. destruct (scan_probe phase name) as [p|] eqn:Hs; [|done]. apply bool_decide_eq_true in Hm.
  destruct (Hno name p Hin Hs) as [[-> (st & Hst & Hph)]|(? & Hnone & ?)].
  - exists p. split; [done|]. exists st. by apply map_lookup_filter_Some.
  - rewrite Hnone in Hm. destruct Hm as [?|[[? ?]|?]]; [lia|done|done].
Qed.

End Count.

(** ** [jobcount.go] *)
Implicit Types j : JobCount.

Inductive JobEvent := JSpawn (pid : Z) | JKill (pid : Z) | JMap (pid : Z).

(** The files of a process begin with this. *)
Definition job_prefix (pid : Z) : string := "mr-worker-jobcount-" +:+ pretty pid +:+ "-".

(** No file of an earlier process with this number is left. *)
Definition fresh_job (e : JobEvent) (j : JobCount) : Prop :=
  match e with JSpawn pid => ∀ name, name ∈ job_files j → String.prefix (job_prefix pid) name = false | _ => True end.

Definition job_exec (j : JobCount) (e : JobEvent) : option JobCount :=
  match e with
  | JSpawn pid =>
      match counts j !! pid with
      | None => if decide (0 < pid) then Some (mkJobCount (job_files j) (<[pid := 0%nat]> (counts j))) else None
      | Some _ => None
      end
  | JKill pid => Some (mkJobCount (job_files j) (delete pid (counts j)))
  | JMap pid => fst <$> jobcount_Map pid j
  end.

(** Runs with the number of calls of [Map] so far, from a directory without such files,
    in which no process number comes back. *)
Inductive job_reach : nat → JobCount → Prop :=
  | job_start d : (∀ name, name ∈ d → is_job name = false) → job_reach 0 (mkJobCount d ∅)
  | job_step n j (e : JobEvent) j' :
      job_reach n j → fresh_job e j → job_exec j e = Some j' → job_reach (match e with JMap _ => S n | _ => n end) j'.

Lemma prefix_app (p s : string) : String.prefix p (p +:+ s) = true.
Proof.
  induction p as [|c p IH]; [by destruct s|]. change (String c p +:+ s) with (String c (p +:+ s)).
  cbn. by destruct (ascii_dec c c).
Qed.

Lemma job_name_prefix pid (c : nat) : job_name pid c = job_prefix pid +:+ pretty (Z.of_nat c).
Proof. unfold job_name, job_prefix. by rewrite !append_assoc. Qed.

Lemma job_name_is_job pid (c : nat) : is_job (job_name pid c) = true.
Proof. apply (prefix_app "mr-worker-jobcount"). Qed.

Lemma job_name_inj pid pid' (c c' : nat) :
  0 <= pid → 0 <= pid' → job_name pid c = job_name pid' c' → pid = pid' ∧ c = c'.
Proof.
  intros Hp Hp' E. unfold job_name in E. apply (inj (String.append "mr-worker-jobcount-")) in E.
  assert (∀ z s, 0 <= z → take_digits (pretty z +:+ "-" +:+ s) 0 = (z, "-" +:+ s)) as Hd
    by (intros z s Hz; by rewrite take_digits_pretty).
  pose proof (f_equal (λ s, take_digits s 0) E) as Ed. cbn beta in Ed. rewrite !Hd in Ed by done.
  injection Ed as -> Ec. split; [done|]. apply pretty_Z_inj in Ec. lia.
Qed.

Record job_inv (n : nat) (j : JobCount) : Prop := {
  jb_size : size (filter (λ name, is_job name = true) (job_files j)) = n;
  jb_pid pid c : counts j !! pid = Some c → 0 <= pid;
  jb_names pid (c c' : nat) : counts j !! pid = Some c → job_name pid c' ∈ job_files j → (c' < c)%nat
}.

Lemma job_exec_inv n j (e : JobEvent) j' :
  job_inv n j → fresh_job e j → job_exec j e = Some j' → job_inv (match e with JMap _ => S n | _ => n end) j'.
Proof.
  intros [Hs Hp Hn] Hf Hx. destruct e as [pid|pid|pid]; cbn in Hx, Hf.
  - destruct (counts j !! pid); [done|]. case_decide; [|done]. injection Hx as <-. split; cbn; [done| |].
    + intros p c [[-> _]|[_ ?]]%lookup_insert_Some; [lia|eauto].
    + intros p c c' [[-> <-]|[_ ?]]%lookup_insert_Some Hin; [|by eapply Hn].
      specialize (Hf _ Hin). by rewrite job_name_prefix, prefix_app in Hf.
  - injection Hx as <-. split; cbn; [done| |].
    + intros p c [_ ?]%lookup_delete_Some. eauto.
    + intros p c c' [_ ?]%lookup_delete_Some. eauto.
  - unfold jobcount_Map in Hx. destruct (counts j !! pid) as [c|] eqn:Hc; [|done]. cbn in Hx. injection Hx as <-.
    pose proof (Hp _ _ Hc) as H0. split; cbn.
    + assert (job_name pid c ∉ job_files j) as Hno by (intros Hin; specialize (Hn _ _ _ Hc Hin); lia).
      assert (filter (λ name, is_job name = true) ({[job_name pid c]} ∪ job_files j)
        = {[job_name pid c]} ∪ filter (λ name, is_job name = true) (job_files j)) as ->.
      { apply set_eq. intros name. pose proof (job_name_is_job pid c). set_solver. }
      rewrite size_union by (apply disjoint_singleton_l; set_solver). rewrite size_singleton. by rewrite Hs.
    + intros p c1 [[-> _]|[_ ?]]%lookup_insert_Some; eauto.
    + intros p c1 c' [[-> <-]|[Hne Hl]]%lookup_insert_Some [E%elem_of_singleton|Hin]%elem_of_union.
      * apply job_name_inj in E as [_ ->]; [lia|done|done].
      * specialize (Hn _ _ _ Hc Hin). lia.
      * apply job_name_inj in E as [-> _]; [done|by eapply Hp|done].
      * by eapply Hn.
Qed.

(** [Reduce] of the job counter prints how often [Map] was called, by all processes
    together, those that were killed included, as long as no process gets the number of
    one that left a file. *)
Theorem jobcount_exact n j : job_reach n j → jobcount_Reduce j = pretty (Z.of_nat n).
Proof.
  intros Hr. assert (job_inv n j) as [Hs _ _]; [|unfold jobcount_Reduce; by rewrite Hs].
  induction Hr as [d Hd|n j e j' _ IH Hf Hx]; [|by eapply job_exec_inv]. split; cbn.
  - apply size_empty_iff. intros name. rewrite elem_of_filter. split; [|set_solver]. intros [Hj Hin]. by rewrite Hd in Hj.
  - intros pid c. by rewrite lookup_empty.
  - intros pid c c'. by rewrite lookup_empty.
Qed.

(** ** Runs *)

(** The names in the order of the set. *)
#[export] Instance elements_order : DirOrder := elements.
#[export] Instance elements_order_laws : DirLaws.
Proof. intros d. reflexivity. Qed.

#[export] Instance nobody : KillGroup := λ _, false.

(** Three workers are in the map phase, one of them is killed before; a fourth is in the
    other phase. *)
Definition three_workers : list ProbeEvent :=
  [PSpawn 11; PSpawn 12; PSpawn 13; PWrite 11 map_phase; PKill 11; PSpawn 14; PSpawn 15; PWrite 12 map_phase;
   PWrite 13 reduce_phase; PWrite 14 map_phase; PWrite 15 map_phase].
Definition three_running : Probes := default (mkProbes ∅ ∅) (probe_run three_workers (mkProbes {["mr-out-0"]} ∅)).

(** While worker 12 reads the directory, which has six names, worker 14 is killed and
    worker 15 leaves. *)
Definition while_12_reads : list ProbeEvent :=
  [PKill 14; PAsk 12; PRead 15; PAsk 12; PAsk 15; PAsk 15; PAsk 15; PAsk 15; PAsk 15; PAsk 15; PRemove 15;
   PAsk 12; PAsk 12; PAsk 12; PAsk 12].
Definition after_12 : option Probes := probe_run (PRead 12 :: while_12_reads) three_running.

(** The file of worker 11 is left; the others are of workers in the map phase. *)
Definition three_file (name : string) : bool :=
  match scan_probe map_phase name with
  | Some p =>
      match stage_phase <$> procs three_running !! p with
      | None => bool_decide (p = 11)
      | Some (Some map_phase) => bool_decide (name = probe_name map_phase p)
      | Some _ => false
      end
  | None => true
  end.

Lemma three_files name p :
  name ∈ files three_running → scan_probe map_phase name = Some p →
  p = 11 ∧ procs three_running !! p = None ∨
  name = probe_name map_phase p ∧ (stage_phase <$> procs three_running !! p) = Some (Some map_phase).
Proof.
  assert (forallb three_file (elements (files three_running)) = true) as Hall by (vm_compute; reflexivity).
  intros Hin Hs. rewrite List.forallb_forall in Hall.
  specialize (Hall name (proj1 (list_elem_of_In _ _) (proj2 (elem_of_elements _ _) Hin))).
  unfold three_file in Hall. rewrite Hs in Hall. destruct (procs three_running !! p) as [st|]; cbn in *.
  - right. destruct (stage_phase st) as [[]|]; [|done..]. by apply bool_decide_eq_true in Hall.
  - left. by apply bool_decide_eq_true in Hall.
Qed.


(** A number that comes back: worker 11 was killed in the map phase and left its file,
    and is now a process that is outside; it is counted all the same. *)
Definition number_again : list ProbeEvent :=
  [PSpawn 11; PSpawn 12; PWrite 11 map_phase; PKill 11; PSpawn 11; PWrite 12 map_phase; PRead 12; PAsk 12; PAsk 12].

Example reused_number_counted :
  (λ w, counted w 12) <$> probe_run number_again (mkProbes ∅ ∅) = Some (Some 2%nat).
Proof. vm_compute. reflexivity. Qed.

Definition fresh_jobb (e : JobEvent) (j : JobCount) : bool :=
  match e with
  | JSpawn pid => forallb (λ name, negb (String.prefix (job_prefix pid) name)) (elements (job_files j))
  | _ => true
  end.

Lemma fresh_jobb_spec (e : JobEvent) j : fresh_jobb e j = true → fresh_job e j.
Proof.
  destruct e as [pid| |]; cbn; try done. rewrite List.forallb_forall. intros Hf name Hin%elem_of_elements%list_elem_of_In.
  by apply negb_true_iff, Hf.
Qed.

Fixpoint count_run (es : list JobEvent) (n : nat) j : option (nat * JobCount) :=
  match es with
  | [] => Some (n, j)
  | e :: es =>
      j' ← job_exec j e;
      if fresh_jobb e j then count_run es (match e with JMap _ => S n | _ => n end) j' else None
  end.

Lemma count_run_reach (es : list JobEvent) n n' j j' : job_reach n j → count_run es n j = Some (n', j') → job_reach n' j'.
Proof.
  revert n j. induction es as [|e es IH]; intros n j Hr Hx; [by injection Hx as <- <-|].
  apply bind_Some in Hx as (j1 & H1 & Hx). destruct (fresh_jobb e j) eqn:Hf; [|done].
  eapply IH; [eapply job_step; [done|by apply fresh_jobb_spec|done]|done].
Qed.

(** Two workers, three calls; the first is killed. *)
Definition three_jobs : nat * JobCount :=
  default (0%nat, mkJobCount ∅ ∅)
    (count_run [JSpawn 5; JMap 5; JKill 5; JSpawn 6; JMap 6; JMap 6] 0 (mkJobCount {["pg-grimm.txt"]} ∅)).

Lemma jobcount_exact_witness : job_reach 3 (snd three_jobs) ∧ jobcount_Reduce (snd three_jobs) = "3".
Proof.
  assert (job_reach 3 (snd three_jobs)) as Hr.
  { apply (count_run_reach [JSpawn 5; JMap 5; JKill 5; JSpawn 6; JMap 6; JMap 6] 0 3 (mkJobCount {["pg-grimm.txt"]} ∅));
      [|vm_compute; reflexivity].
    apply job_start. intros name ->%elem_of_singleton. vm_compute. reflexivity. }
  split; [exact Hr|]. exact (jobcount_exact 3 _ Hr).
Defined.
