(* ===== verification/MrJob.v ===== *)
(** * MrJob: a MapReduce job, step by step

    The worker processes of [src/src/mr/worker.go] with the coordinator of
    [src/src/mr/coordinator.go].  [work] is the next step of the loop of
    [Worker]: a call to the coordinator, a file that is created, a pair or a line
    that is written, a file that is read.  Workers take their steps in any order,
    may be killed between two steps and started at any time; the main program
    polls the coordinator with [Done].

    Files are lists of bytes that all processes see.  [os.Create] empties a file
    without a new one taking its place, and a process goes on writing where its
    last write ended, whatever others did to the file.  The calls of [net/rpc] and
    the operations on files may fail, as the step says. *)
From stdpp Require Import base list list_numbers gmap strings option.
From Stdlib Require Import ZArith Lia.
From Stdlib Require Import Strings.Byte.
From S2P Require Import Prelude MrCoordinator MrWorker.
#[local] Open Scope Z_scope.
#[local] Open Scope string_scope.
#[local] Open Scope list_scope.

(** What becomes of a call: the coordinator answers; it handles the call but the
    answer is lost; it does not handle the call; nobody listens. *)
Inductive CallOutcome := Served | ReplyLost | Refused | NoDial.

(** [call] ends the process with [log.Fatal] if it cannot dial: [None]. *)
Definition CallRequestTask (now : Z) (o : CallOutcome) (c : Coordinator)
    : Coordinator * option RequestTaskResponse :=
  match o with
  | Served => let '(c, reply) := RequestTask now zeroResponse c in (c, Some reply)
  | ReplyLost => (fst (RequestTask now zeroResponse c), Some (set_TaskType "done" zeroResponse))
  | Refused => (c, Some (set_TaskType "done" zeroResponse))
  | NoDial => (c, None)
  end.

(** The worker does not look at the reply, nor whether there was one; the
    boolean says that the process goes on. *)
Definition CallTaskDone (taskType : string) (taskNumber : Z) (o : CallOutcome) (c : Coordinator)
    : Coordinator * bool :=
  match o with
  | Served | ReplyLost => (fst (TaskDone (mkTaskDoneArgs taskType taskNumber) c), true)
  | Refused => (c, true)
  | NoDial => (c, false)
  end.

(** A write at an offset; what lies between the end and the offset is zero. *)
Definition write_at (off : nat) (data file : bytes) : bytes :=
  take off file ++ replicate (off - length file) Byte.x00 ++ data ++ drop (off + length data) file.

(** Where a worker is in its loop.  The offsets are those of its open files. *)
Inductive Proc :=
  | Asking
  | Creating (X : Z) (nReduce i : nat) (kva : list KeyValue) (offs : gmap Z nat)
  | Encoding (X : Z) (nReduce : nat) (kva : list KeyValue) (offs : gmap Z nat)
  | Reading (tn : Z) (numMapTasks i : nat) (intermediate : list KeyValue)
  | CreatingOut (tn : Z) (lines : list string)
  | Writing (tn : Z) (lines : list string) (off : nat)
  | Reporting (taskType : string) (tn : Z)
  | Exited.

Record Job := mkJob {
  coord : Coordinator;
  store : Store;                 (* the file mr-X-i.txt is at (X, i) *)
  outs : gmap Z bytes;           (* the file mr-out-tn is at tn *)
  workers : list Proc
}.

#[export] Instance Upd_coord : Upd coord := λ v j, mkJob v (store j) (outs j) (workers j).
#[export] Instance Upd_store : Upd store := λ v j, mkJob (coord j) v (outs j) (workers j).
#[export] Instance Upd_outs : Upd outs := λ v j, mkJob (coord j) (store j) v (workers j).
#[export] Instance Upd_workers : Upd workers := λ v j, mkJob (coord j) (store j) (outs j) v.

Section MrJob.
Context `{JsonCodec} `{Sorter}.
Variable mapf : string → string → list KeyValue.
Variable reducef : string → list string → string.
Variable inputs : gmap string string.     (* the input files *)
Implicit Types (p : Proc) (j : Job).

(** [None] is fatal. *)
Definition performMap (filename : string) : option (list KeyValue) :=
  content ← inputs !! filename;
  Some (mapf filename content).

Definition take_task (response : RequestTaskResponse) : Proc :=
  if decide (rt_TaskType response = "done") then Exited
  else if decide (rt_TaskType response = "map") then
    match performMap (rt_Filename response) with
    | Some kva => Creating (rt_TaskNumber response) (Z.to_nat (rt_N response)) 0 kva ∅
    | None => Exited
    end
  else if decide (rt_TaskType response = "reduce") then
    Reading (rt_TaskNumber response) (Z.to_nat (rt_N response)) 0 []
  else Asking.

(** The next step.  [io] says whether the operation on a file succeeds; the error
    of [storeIntermediate] is dropped by [Worker], a failed [Fprintf] is not
    noticed, the other failures are fatal. *)
Definition work (now : Z) (o : CallOutcome) (io : bool) p j : Proc * Job :=
  match p with
  | Asking =>
      let '(c, response) := CallRequestTask now o (coord j) in
      (match response with Some r => take_task r | None => Exited end, j <| coord := c |>)
  | Creating X n i kva offs =>
      if decide (i < n)%nat then
        if io then
          (Creating X n (S i) kva (<[Z.of_nat i := 0%nat]> offs),
           j <| store := <[(X, Z.of_nat i) := []]> (store j) |>)
        else (Reporting "map" X, j)
      else (Encoding X n kva offs, j)
  | Encoding X n [] offs => (Reporting "map" X, j)
  | Encoding X n (kv :: kva) offs =>
      if decide (n = 0%nat) then (Exited, j)
      else
        let partition := Z.rem (ihash (Key kv)) (Z.of_nat n) in
        match offs !! partition, store j !! (X, partition) with
        | Some off, Some file =>
            if io then
              (Encoding X n kva (<[partition := (off + length (json_encode kv))%nat]> offs),
               j <| store := <[(X, partition) := write_at off (json_encode kv) file]> (store j) |>)
            else (Reporting "map" X, j)
        | _, _ => (Exited, j)
        end
  | Reading tn numMapTasks i intermediate =>
      if decide (i < numMapTasks)%nat then
        match store j !! (Z.of_nat i, tn) with
        | Some file =>
            if io then (Reading tn numMapTasks (S i) (intermediate ++ decode_all (S (length file)) file), j)
            else (Exited, j)
        | None => (Exited, j)
        end
      else (CreatingOut tn (performReduce (sort_ByKey intermediate) reducef), j)
  | CreatingOut tn lines =>
      if io then (Writing tn lines 0, j <| outs := <[tn := []]> (outs j) |>) else (Exited, j)
  | Writing tn [] off => (Reporting "reduce" tn, j)
  | Writing tn (line :: lines) off =>
      let data := String.list_byte_of_string line in
      match outs j !! tn with
      | Some file =>
          if io then (Writing tn lines (off + length data), j <| outs := <[tn := write_at off data file]> (outs j) |>)
          else (Writing tn lines off, j)
      | None => (Exited, j)
      end
  | Reporting taskType tn =>
      let '(c, alive) := CallTaskDone taskType tn o (coord j) in
      (if alive then Asking else Exited, j <| coord := c |>)
  | Exited => (Exited, j)
  end.

(** What happens in a job: worker [w] takes a step, is killed, a worker starts,
    the main program polls. *)
Inductive JobEvent :=
  | Work (w : nat) (now : Z) (o : CallOutcome) (io : bool)
  | KillWorker (w : nat)
  | Launch
  | Poll (now : Z).

Definition job_exec (e : JobEvent) j : Job :=
  match e with
  | Work w now o io =>
      match workers j !! w with
      | Some p => let '(p, j) := work now o io p j in j <| workers := <[w := p]> (workers j) |>
      | None => j
      end
  | KillWorker w => j <| workers := alter (λ _, Exited) w (workers j) |>
  | Launch => j <| workers := workers j ++ [Asking] |>
  | Poll now => j <| coord := fst (Done now (coord j)) |>
  end.

Definition job_run (es : list JobEvent) j : Job := foldl (flip job_exec) j es.

(** A job starts among files left by others. *)
Definition new_job (files : list string) (nReduce : nat) (fs : Store) (os : gmap Z bytes) : Job :=
  mkJob (MakeCoordinator files nReduce) fs os [].
End MrJob.
