(* ===== verification/MrJobResult.v ===== *)
(** * MrJobResult: what a MapReduce job leaves behind

    Along a job of [MrJob] in which no file operation fails and a task is handed
    out again only after the worker that had it is gone, the files of a complete
    map task hold its pairs, and the files of a complete reduce task its lines,
    whatever workers were killed in the middle and however the others took turns.
    When [Done] says so, the output files have the lines of [mrsequential]. *)
From stdpp Require Import base list list_numbers gmap strings option sorting sets.
From Stdlib Require Import ZArith Lia.
From Stdlib Require Import Strings.Byte.
From S2P Require Import Prelude MrCoordinator MrScheduling MrWorker MrResult MrJob.
#[local] Open Scope Z_scope.
#[local] Open Scope string_scope.
#[local] Open Scope list_scope.

(** ** Tasks that are open and closed *)
Implicit Types (c : Coordinator) (k : nat) (t : Task) (proc : Proc).

Definition open (p : Phase) k c : Prop := ∃ t, tasks p c !! k = Some t ∧ status t ≠ Complete.
Definition closed (p : Phase) k c : Prop := ∃ t, tasks p c !! k = Some t ∧ status t = Complete.

Lemma open_not_closed p k c : open p k c → ¬ closed p k c.
Proof. intros (t & Ht & Hs) (t' & Ht' & Hs'). rewrite Ht in Ht'. injection Ht' as <-. done. Qed.

(** At most the task [x] gets complete. *)
Record evolves (x : option (Phase * nat)) c c' : Prop := {
  e_open p k : open p k c → x ≠ Some (p, k) → open p k c';
  e_closed p k : closed p k c → closed p k c';
  e_new p k : closed p k c' → closed p k c ∨ x = Some (p, k);
  e_files : filename <$> mapTasks c' = filename <$> mapTasks c;
  e_reduces : length (reduceTasks c') = length (reduceTasks c);
  e_nReduce : nReduce c' = nReduce c
}.

Lemma evolves_tasks x c c' :
  (∀ p, length (tasks p c') = length (tasks p c)) →
  (∀ p k t', tasks p c' !! k = Some t' → ∃ t, tasks p c !! k = Some t ∧ filename t' = filename t ∧
     (status t' = Complete ↔ status t = Complete ∨ x = Some (p, k))) →
  nReduce c' = nReduce c → evolves x c c'.
Proof.
  intros Hl Ht Hn.
  assert (∀ p k t, tasks p c !! k = Some t → ∃ t', tasks p c' !! k = Some t' ∧ filename t' = filename t ∧
     (status t' = Complete ↔ status t = Complete ∨ x = Some (p, k))) as Ht'.
  { intros p k t Hk. destruct (lookup_lt_is_Some_2 (tasks p c') k) as [t' Hk']; [rewrite Hl; by eapply lookup_lt_Some|].
    destruct (Ht p k t' Hk') as (t0 & Hle & ? & ?). rewrite Hk in Hle. injection Hle as <-. by exists t'. }
  split; [| | | |apply (Hl ReducePhase)|done].
  - intros p k (t & Hk & Hs) Hx. destruct (Ht' _ _ _ Hk) as (t' & Hk' & _ & Hiff). exists t'. split; [done|]. tauto.
  - intros p k (t & Hk & Hs). destruct (Ht' _ _ _ Hk) as (t' & Hk' & _ & Hiff). exists t'. split; [done|]. tauto.
  - intros p k (t' & Hk & Hs). destruct (Ht _ _ _ Hk) as (t & Hk' & _ & Hiff). rewrite Hiff in Hs.
    destruct Hs; [left; by exists t|by right].
  - apply list_eq. intros k. rewrite !list_lookup_fmap. destruct (mapTasks c' !! k) as [t'|] eqn:Hk.
    + destruct (Ht MapPhase k t' Hk) as (t & Hk' & E & _). cbn in Hk'. rewrite Hk'. cbn. by rewrite E.
    + apply lookup_ge_None in Hk. specialize (Hl MapPhase). cbn in Hl. rewrite Hl in Hk.
      apply lookup_ge_None in Hk. by rewrite Hk.
Qed.

Lemma coord_evolves_refl x c : x = None → evolves x c c.
Proof. intros ->. apply evolves_tasks; [done| |done]. intros p k t Hk. exists t. split; [done|]. split; [done|]. naive_solver. Qed.

Lemma nReduce_set p l c : nReduce (set_tasks p l c) = nReduce c.
Proof. by destruct p. Qed.

(** A list of tasks in which none gets complete. *)
Lemma evolves_set p l c :
  length l = length (tasks p c) →
  (∀ k t', l !! k = Some t' → ∃ t, tasks p c !! k = Some t ∧ filename t' = filename t ∧
     (status t' = Complete ↔ status t = Complete)) →
  evolves None c (set_tasks p l c).
Proof.
  intros Hl Hs. apply evolves_tasks; [|intros p' k t'; rewrite tasks_set|apply nReduce_set].
  - intros p'. rewrite tasks_set. by destruct p, p'.
  - assert (tasks p' c !! k = Some t' → ∃ t, tasks p' c !! k = Some t ∧ filename t' = filename t ∧
      (status t' = Complete ↔ status t = Complete ∨ None = Some (p', k))) as Hsame.
    { intros Hk. exists t'. split; [done|]. split; [done|]. naive_solver. }
    destruct p, p'; try done; intros Hk; destruct (Hs _ _ Hk) as (t & ? & ? & Hiff); exists t; naive_solver.
Qed.

Lemma evolves_request now c : evolves None c (fst (RequestTask now zeroResponse c)).
Proof.
  pose proof (RequestTask_cases now c) as Hc. destruct (phase_of c) as [p|]; [|rewrite Hc; by apply coord_evolves_refl].
  destruct Hc as [(k & t & (Hk & Hu & _) & ->)|[_ ->]]; [|by apply coord_evolves_refl]. cbn [fst].
  apply evolves_set; [apply length_insert|]. intros k' t' [(<- & <- & _)|[_ Hk']]%list_lookup_insert_Some.
  - exists t. split; [done|]. split; [done|]. cbn. by rewrite Hu.
  - by exists t'.
Qed.

Lemma evolves_poll now c : evolves None c (fst (Done now c)).
Proof.
  rewrite Done_cases. cbn [fst]. destruct (phase_of c) as [p|]; [|by apply coord_evolves_refl].
  apply evolves_set; [apply length_fmap|]. intros k t' Hk. unfold updateTasks in Hk. rewrite list_lookup_fmap in Hk.
  apply fmap_Some in Hk as (t & Ht & ->). exists t. split; [done|]. case_decide as Ha; [|done]. cbn. by destruct Ha as [-> _].
Qed.

Lemma nReduce_report p i c : nReduce (report p i c) = nReduce c.
Proof. by destruct p; cbn; case_decide. Qed.

Lemma evolves_report p k c :
  (k < length (tasks p c))%nat →
  evolves (Some (p, k)) c (fst (TaskDone (mkTaskDoneArgs (type_name p) (Z.of_nat k)) c)).
Proof.
  intros Hk. destruct (TaskDone_cases (mkTaskDoneArgs (type_name p) (Z.of_nat k)) c) as [(p' & Hty & _ & ->)|(err & _ & Hout)].
  2: { exfalso. apply (Hout p); [done|]. unfold len. cbn. lia. }
  assert (p' = p) as -> by (by destruct p, p'). cbn [fst td_TaskNumber].
  apply evolves_tasks; [| |apply nReduce_report].
  - intros p'. rewrite report_tasks. destruct p, p'; rewrite ?length_complete; done.
  - intros p' j t' Hj. rewrite report_tasks in Hj. destruct (decide (p' = p ∧ j = k)) as [[-> ->]|Hne].
    + assert (complete (Z.of_nat k) (tasks p c) !! k = Some t') as Hj' by (by destruct p).
      unfold complete in Hj'. rewrite Nat2Z.id, list_lookup_alter_eq in Hj'. apply fmap_Some in Hj' as (t & Ht & ->).
      exists t. split; [done|]. split; [done|]. cbn. tauto.
    + assert (tasks p' c !! j = Some t') as Hj'.
      { destruct p, p'; try done; unfold complete in Hj; rewrite Nat2Z.id, list_lookup_alter_ne in Hj; try done; naive_solver. }
      exists t'. split; [done|]. split; [done|]. naive_solver.
Qed.

(** ** Who has which task *)
Definition holds (p : Phase) k proc : Prop :=
  match proc with
  | Creating X _ _ _ _ | Encoding X _ _ _ => p = MapPhase ∧ X = Z.of_nat k
  | Reading tn _ _ _ | CreatingOut tn _ | Writing tn _ _ => p = ReducePhase ∧ tn = Z.of_nat k
  | Reporting taskType tn => taskType = type_name p ∧ tn = Z.of_nat k
  | Asking | Exited => False
  end.

(** A request now is answered with this task. *)
Definition gives (now : Z) c (p : Phase) k : Prop :=
  let reply := snd (RequestTask now zeroResponse c) in
  rt_TaskType reply = type_name p ∧ rt_TaskNumber reply = Z.of_nat k.

Lemma type_name_inj p p' : type_name p = type_name p' → p = p'.
Proof. by destruct p, p'. Qed.

Lemma gives_open now c p k : gives now c p k → open p k c.
Proof.
  intros [Hty Hn]. pose proof (RequestTask_cases now c) as Hc.
  destruct (phase_of c) as [p'|]; [|rewrite Hc in Hty; by destruct p].
  destruct Hc as [(k' & t & (Hk & Hu & _) & Hr)|[_ Hr]]; rewrite Hr in Hty, Hn; cbn in Hty, Hn; [|by destruct p].
  apply type_name_inj in Hty as ->. replace k' with k in Hk by lia. exists t. split; [done|]. by rewrite Hu.
Qed.

(** Texts written line by line. *)
Definition text (lines : list string) : bytes := List.concat (map String.list_byte_of_string lines).

Lemma text_app l1 l2 : text (l1 ++ l2) = text l1 ++ text l2.
Proof. unfold text. by rewrite map_app, concat_app. Qed.

Lemma write_at_end data file : write_at (length file) data file = file ++ data.
Proof.
  unfold write_at. rewrite take_ge by done. rewrite Nat.sub_diag. cbn.
  by rewrite drop_ge, app_nil_r by lia.
Qed.

Section JobResult.
Context `{JsonLaws} `{SorterLaws}.
Variable mapf : string → string → list KeyValue.
Variable reducef : string → list string → string.
Variable inputs : gmap string string.
Variable files : list string.
Variable n : nat.

(** The inputs of the sequential program. *)
Definition job_inputs : list (string * string) := (λ f, (f, default "" (inputs !! f))) <$> files.

Hypothesis n_pos : (0 < n)%nat.
Hypothesis files_exist : Forall (λ f, is_Some (inputs !! f)) files.
Hypothesis pairs_ok : Forall json_ok (all_pairs mapf job_inputs).

Definition pairs k : list KeyValue := default [] (pairs_of mapf <$> job_inputs !! k).
Definition lines_of k : list string := performReduce (sort_ByKey (bucket n k (all_pairs mapf job_inputs))) reducef.

Notation job_exec := (job_exec mapf reducef inputs).
Notation work := (work mapf reducef inputs).
Implicit Types (j : Job) (fs : Store) (os : gmap Z bytes) (e : JobEvent) (w : nat).

(** No file operation fails, and a task is handed out only while no other worker
    has it: those that had it earlier are gone, or done and not heard. *)
Definition timely e j : Prop :=
  match e with
  | Work w now o io =>
      io = true ∧
      (workers j !! w = Some Asking → o = Served →
       ∀ p k w' proc, gives now (coord j) p k → workers j !! w' = Some proc → ¬ holds p k proc)
  | _ => True
  end.

Inductive job_reach : Job → Prop :=
  | job_new fs os : job_reach (new_job files n fs os)
  | job_step e j : job_reach j → timely e j → job_reach (job_exec e j).

(** ** Invariant *)
Definition maps_done c : Prop := ∀ k, (k < length files)%nat → closed MapPhase k c.

(** The files of a task that is complete. *)
Definition finished (p : Phase) k fs os : Prop :=
  match p with
  | MapPhase => files_are n (Z.of_nat k) (λ i, bucket n i (pairs k)) fs
  | ReducePhase => os !! Z.of_nat k = Some (text (lines_of k))
  end.

Definition proc_ok c fs os proc : Prop :=
  match proc with
  | Asking | Exited => True
  | Creating X m i kva offs => ∃ k, X = Z.of_nat k ∧ m = n ∧ open MapPhase k c ∧ kva = pairs k ∧ (i <= n)%nat ∧
      ∀ i', (i' < i)%nat → fs !! (X, Z.of_nat i') = Some [] ∧ offs !! Z.of_nat i' = Some 0%nat
  | Encoding X m kva offs => ∃ k done, X = Z.of_nat k ∧ m = n ∧ open MapPhase k c ∧ pairs k = done ++ kva ∧
      ∀ i, (i < n)%nat → fs !! (X, Z.of_nat i) = Some (encode_all (bucket n i done)) ∧
        offs !! Z.of_nat i = Some (length (encode_all (bucket n i done)))
  | Reading tn m i acc => ∃ k, tn = Z.of_nat k ∧ (k < n)%nat ∧ open ReducePhase k c ∧ maps_done c ∧ m = length files ∧
      (i <= m)%nat ∧ acc = bucket n k (all_pairs mapf (take i job_inputs))
  | CreatingOut tn lines => ∃ k, tn = Z.of_nat k ∧ open ReducePhase k c ∧ lines = lines_of k
  | Writing tn lines off => ∃ k done, tn = Z.of_nat k ∧ open ReducePhase k c ∧ lines_of k = done ++ lines ∧
      os !! tn = Some (text done) ∧ off = length (text done)
  | Reporting taskType tn => ∃ p k, taskType = type_name p ∧ tn = Z.of_nat k ∧ open p k c ∧ finished p k fs os
  end.

Record job_ok j : Prop := {
  v_events : ∃ es, coord j = run es (MakeCoordinator files n) ∧ ∀ p, NoDup (reports p es);
  v_sizes : filename <$> mapTasks (coord j) = files ∧ length (reduceTasks (coord j)) = n ∧ nReduce (coord j) = Z.of_nat n;
  v_finished p k : closed p k (coord j) → finished p k (store j) (outs j);
  v_proc w proc : workers j !! w = Some proc → proc_ok (coord j) (store j) (outs j) proc;
  v_one p k w w' proc proc' : workers j !! w = Some proc → workers j !! w' = Some proc' →
    holds p k proc → holds p k proc' → w = w'
}.

Lemma holds_open p k c fs os proc : proc_ok c fs os proc → holds p k proc → open p k c.
Proof.
  destruct proc; cbn; try done.
  - intros (k' & -> & _ & Ho & _) [-> ?]. by replace k with k' by lia.
  - intros (k' & d & -> & _ & Ho & _) [-> ?]. by replace k with k' by lia.
  - intros (k' & -> & _ & Ho & _) [-> ?]. by replace k with k' by lia.
  - intros (k' & -> & Ho & _) [-> ?]. by replace k with k' by lia.
  - intros (k' & d & -> & Ho & _) [-> ?]. by replace k with k' by lia.
  - intros (p' & k' & -> & -> & Ho & _) [->%type_name_inj ?]. by replace k with k' by lia.
Qed.

(** What a worker relies on is not touched by the others. *)
Lemma finished_frame p k fs os fs' os' :
  (p = MapPhase → ∀ i, fs' !! (Z.of_nat k, i) = fs !! (Z.of_nat k, i)) →
  (p = ReducePhase → os' !! Z.of_nat k = os !! Z.of_nat k) →
  finished p k fs os → finished p k fs' os'.
Proof.
  intros Hf Ho. destruct p; cbn; [|by rewrite Ho]. intros Hfin i Hi. by rewrite Hf, Hfin.
Qed.

Lemma proc_frame c fs os c' fs' os' proc :
  (∀ p k, holds p k proc → open p k c → open p k c') → (maps_done c → maps_done c') →
  (∀ k i, holds MapPhase k proc → fs' !! (Z.of_nat k, i) = fs !! (Z.of_nat k, i)) →
  (∀ k, holds ReducePhase k proc → os' !! Z.of_nat k = os !! Z.of_nat k) →
  proc_ok c fs os proc → proc_ok c' fs' os' proc.
Proof.
  intros Ho Hm Hf Hos. destruct proc; cbn in *; try done.
  - intros (k & -> & ? & Hk & ? & ? & Hi). exists k. split_and!; try done; [by apply Ho|]. intros i' ?. rewrite Hf by done. by apply Hi.
  - intros (k & d & -> & ? & Hk & ? & Hi). exists k, d. split_and!; try done; [by apply Ho|]. intros i' ?. rewrite Hf by done. by apply Hi.
  - intros (k & -> & ? & Hk & ? & ?). exists k. split_and!; try done; [by apply Ho|by apply Hm|tauto..].
  - intros (k & -> & Hk & ?). exists k. split_and!; try done. by apply Ho.
  - intros (k & d & -> & Hk & ? & ? & ?). exists k, d. split_and!; try done; [by apply Ho|]. by rewrite Hos.
  - intros (p & k & -> & -> & Hk & Hfin). exists p, k. split_and!; try done; [by apply Ho|].
    eapply finished_frame; [| |exact Hfin]; intros ->; [intros i; by apply Hf|by apply Hos].
Qed.

(** Worker [w] goes from [proc] to [proc']; only what it holds changes. *)
Record acts w proc proc' (x : option (Phase * nat)) j j' : Prop := {
  a_workers : workers j !! w = Some proc ∧ workers j' = <[w := proc']> (workers j);
  a_evolves : evolves x (coord j) (coord j');
  a_done p k : x = Some (p, k) → holds p k proc ∧ finished p k (store j) (outs j);
  a_store k i : ¬ holds MapPhase k proc → store j' !! (Z.of_nat k, i) = store j !! (Z.of_nat k, i);
  a_outs k : ¬ holds ReducePhase k proc → outs j' !! Z.of_nat k = outs j !! Z.of_nat k;
  a_same : x = None ∨ store j' = store j ∧ outs j' = outs j;
  a_proc : proc_ok (coord j') (store j') (outs j') proc';
  a_takes p k : holds p k proc' → holds p k proc ∨ ∀ w' proc0, workers j !! w' = Some proc0 → ¬ holds p k proc0;
  a_events es : coord j = run es (MakeCoordinator files n) → (∀ p, NoDup (reports p es)) →
    ∃ es', coord j' = run es' (MakeCoordinator files n) ∧ ∀ p, NoDup (reports p es')
}.

Lemma acts_ok w proc proc' x j j' : job_ok j → acts w proc proc' x j j' → job_ok j'.
Proof.
  intros Hj [[Hw Hws] Hev Hdone Hst Hos Hsame Hp Htk Hes]. pose proof (v_proc _ Hj _ _ Hw) as Hpw.
  assert (∀ p k, holds p k proc → closed p k (coord j) → False) as Hopen.
  { intros p k Hh Hc. by apply (open_not_closed p k (coord j)); [eapply holds_open|]. }
  split.
  - destruct (v_events _ Hj) as (es & He & Hnd). by eapply Hes.
  - destruct (v_sizes _ Hj) as (? & ? & ?). by rewrite (e_files _ _ _ Hev), (e_reduces _ _ _ Hev), (e_nReduce _ _ _ Hev).
  - intros p k [Hc|Hx]%(e_new _ _ _ Hev).
    + eapply finished_frame; [| |by apply (v_finished _ Hj)]; intros ->; [intros i; apply Hst|apply Hos]; intros Hh; by eapply Hopen.
    + destruct (Hdone p k Hx) as [_ Hfin]. destruct Hsame as [?|[-> ->]]; [congruence|done].
  - rewrite Hws. intros w' proc0 [(<- & <- & _)|[Hne Hw']]%list_lookup_insert_Some; [done|].
    assert (∀ p k, holds p k proc → holds p k proc0 → False) as Hdis.
    { intros p k Hh Hh'. apply Hne. by eapply (v_one _ Hj p k w w'). }
    eapply proc_frame; [| | | |by eapply v_proc].
    + intros p k Hh Ho. apply (e_open _ _ _ Hev); [done|]. intros Hx. destruct (Hdone p k Hx) as [Hh' _]. by eapply Hdis.
    + intros Hm k Hk. by apply (e_closed _ _ _ Hev), Hm.
    + intros k i Hh. apply Hst. intros Hh'. by eapply Hdis.
    + intros k Hh. apply Hos. intros Hh'. by eapply Hdis.
  - rewrite Hws. intros p k w1 w2 p1 p2 [(<- & <- & _)|[Hn1 H1']]%list_lookup_insert_Some
      [(<- & <- & _)|[Hn2 H2']]%list_lookup_insert_Some Hh1 Hh2; try done.
    + destruct (Htk p k Hh1) as [Hh|Hno]; [by eapply (v_one _ Hj p k)|by apply Hno in H2'].
    + destruct (Htk p k Hh2) as [Hh|Hno]; [by eapply (v_one _ Hj p k)|by apply Hno in H1'].
    + by eapply (v_one _ Hj p k).
Qed.

(** ** The steps of a worker *)
Definition after w (r : Proc * Job) : Job := r.2 <| workers := <[w := r.1]> (workers r.2) |>.

(** Steps in which the coordinator has no part. *)
Lemma acts_alone w proc proc' j fs' os' :
  workers j !! w = Some proc →
  (∀ k i, ¬ holds MapPhase k proc → fs' !! (Z.of_nat k, i) = store j !! (Z.of_nat k, i)) →
  (∀ k, ¬ holds ReducePhase k proc → os' !! Z.of_nat k = outs j !! Z.of_nat k) →
  proc_ok (coord j) fs' os' proc' → (∀ p k, holds p k proc' → holds p k proc) →
  acts w proc proc' None j (after w (proc', mkJob (coord j) fs' os' (workers j))).
Proof.
  intros Hw Hf Ho Hp Ht. split; cbn; try done; [by apply coord_evolves_refl|by left|intros p k Hh; left; by apply Ht|].
  intros es He Hn. by exists es.
Qed.

Lemma acts_nothing w proc proc' j :
  workers j !! w = Some proc → proc_ok (coord j) (store j) (outs j) proc' →
  (∀ p k, holds p k proc' → holds p k proc) → acts w proc proc' None j (after w (proc', j)).
Proof. intros Hw Hp Ht. destruct j. by apply acts_alone. Qed.

Lemma pairs_lookup k f : files !! k = Some f → ∃ content, inputs !! f = Some content ∧ pairs k = mapf f content.
Proof.
  intros Hk. pose proof (proj1 (Forall_lookup _ _) files_exist _ _ Hk) as [content Hc]. exists content. split; [done|].
  unfold pairs, job_inputs. rewrite list_lookup_fmap, Hk. cbn. unfold pairs_of. cbn. by rewrite Hc.
Qed.

Lemma coord_done p es c :
  c = run es (MakeCoordinator files n) → (∀ p, NoDup (reports p es)) → done_flag p c = true →
  ∀ k, (k < length (tasks p c))%nat → closed p k c.
Proof.
  intros -> Hnd Hd k Hk. pose proof (done_all_complete files n p es (Hnd p) Hd) as Ha.
  destruct (lookup_lt_is_Some_2 _ _ Hk) as [t Ht]. exists t. split; [done|].
  exact (proj1 (Forall_lookup (λ t, status t = Complete) _) Ha _ _ Ht).
Qed.

Lemma events_request now es j :
  coord j = run es (MakeCoordinator files n) → (∀ p, NoDup (reports p es)) →
  ∃ es', fst (RequestTask now zeroResponse (coord j)) = run es' (MakeCoordinator files n) ∧ ∀ p, NoDup (reports p es').
Proof.
  intros He Hn. exists (es ++ [ERequest now]). rewrite run_snoc, <- He. split; [done|].
  intros p. by rewrite reports_snoc, app_nil_r.
Qed.

(** What a worker does with the answer. *)
Lemma take_task_ok now j :
  job_ok j → let '(c, reply) := RequestTask now zeroResponse (coord j) in
  proc_ok c (store j) (outs j) (take_task mapf inputs reply) ∧
  ∀ p k, holds p k (take_task mapf inputs reply) → gives now (coord j) p k.
Proof.
  intros Hj. destruct (v_sizes _ Hj) as (Hfn & Hrl & HnR). pose proof (RequestTask_cases now (coord j)) as Hc.
  pose proof (evolves_request now (coord j)) as Hev. unfold gives.
  destruct (phase_of (coord j)) as [p|] eqn:Hph; [|by rewrite Hc].
  destruct Hc as [(k & t & (Hk & Hu & _) & Hr)|[_ Hr]]; rewrite Hr in Hev |- *; [|done]. cbn [fst snd] in Hev |- *.
  assert (open p k (set_tasks p (<[k:=assigned_at now t]> (tasks p (coord j))) (coord j))) as Hop.
  { apply (e_open _ _ _ Hev); [|done]. exists t. by rewrite Hu. }
  unfold take_task. destruct p; cbn [rt_TaskType rt_Filename rt_TaskNumber rt_N type_name other_count]; cbn [tasks] in Hk.
  - assert (files !! k = Some (filename t)) as Hf by (rewrite <- Hfn, list_lookup_fmap, Hk; done).
    destruct (pairs_lookup k _ Hf) as (content & Hin & Hp). unfold performMap. rewrite Hin. cbn.
    rewrite HnR, Nat2Z.id. split; [|by intros p' k' [-> ->]].
    exists k. split_and!; try done; [lia|]. intros i' ?. lia.
  - cbn. split; [|by intros p' k' [-> ->]]. unfold len. rewrite Nat2Z.id. exists k.
    assert (length (mapTasks (coord j)) = length files) as Hml by (rewrite <- Hfn; by rewrite length_fmap).
    split_and!; try done; [rewrite <- Hrl; by eapply lookup_lt_Some| |lia].
    intros k' Hk'. apply (e_closed _ _ _ Hev). destruct (v_events _ Hj) as (es & He & Hnd).
    eapply coord_done; [exact He|exact Hnd| |cbn; lia]. cbn. unfold phase_of in Hph.
    destruct (mapDone (coord j)); [done|]. by destruct (reduceDone (coord j)).
Qed.

Lemma asking_acts w now o j :
  job_ok j → workers j !! w = Some Asking → timely (Work w now o true) j →
  acts w Asking (work now o true Asking j).1 None j (after w (work now o true Asking j)).
Proof.
  intros Hj Hw [_ Ht]. specialize (Ht Hw). cbn [MrJob.work]. pose proof (evolves_request now (coord j)) as Hev.
  pose proof (events_request now) as Hes. destruct o; cbn [CallRequestTask].
  - pose proof (take_task_ok now j Hj) as Htk. destruct (RequestTask now zeroResponse (coord j)) as [c reply] eqn:Hr.
    destruct Htk as [Hp Hh]. split; cbn; try done; [by left|intros p k Hhk; right|].
    + intros w' proc0 Hw'. by eapply (Ht eq_refl p k w' proc0); [apply Hh|].
    + intros es He Hn. destruct (Hes es j He Hn) as (es' & He' & ?). exists es'. by rewrite Hr in He'.
  - split; cbn; try done; [by left|]. intros es He Hn. by apply Hes with (es := es).
  - split; cbn; try done; [by apply coord_evolves_refl|by left|]. intros es He Hn. by exists es.
  - split; cbn; try done; [by apply coord_evolves_refl|by left|]. intros es He Hn. by exists es.
Qed.

Lemma reporting_acts w now o taskType tn j :
  job_ok j → workers j !! w = Some (Reporting taskType tn) →
  ∃ x, acts w (Reporting taskType tn) (work now o true (Reporting taskType tn) j).1 x j
    (after w (work now o true (Reporting taskType tn) j)).
Proof.
  intros Hj Hw. destruct (v_proc _ Hj _ _ Hw) as (p & k & -> & -> & Ho & Hf). cbn [MrJob.work].
  assert (k < length (tasks p (coord j)))%nat as Hk by (destruct Ho as (t & Ht & _); by eapply lookup_lt_Some).
  assert (acts w (Reporting (type_name p) (Z.of_nat k)) Asking (Some (p, k)) j
    (after w (Asking, j <| coord := fst (TaskDone (mkTaskDoneArgs (type_name p) (Z.of_nat k)) (coord j)) |>))) as Hacts.
  { split; cbn; try done; [by apply evolves_report|by intros p' k' [= <- <-]|by right|].
    intros es He Hn. exists (es ++ [ETaskDone (mkTaskDoneArgs (type_name p) (Z.of_nat k))]). rewrite run_snoc, <- He.
    split; [done|]. intros p'. rewrite reports_snoc. cbn. case_decide as Hty; [|by rewrite app_nil_r].
    apply type_name_inj in Hty as <-. apply NoDup_app. split_and!; [done| |apply NoDup_singleton].
    intros i Hi ->%list_elem_of_singleton. destruct Ho as (t & Ht & Hs). apply Hs.
    pose proof (phase_inv_run files n p es) as Hinv. rewrite <- He in Hinv. by apply (pi_complete _ _ _ _ Hinv k t Ht). }
  assert (∀ proc', proc_ok (coord j) (store j) (outs j) proc' → (∀ p k, ¬ holds p k proc') →
    acts w (Reporting (type_name p) (Z.of_nat k)) proc' None j (after w (proc', j <| coord := coord j |>))) as Hno.
  { intros proc' Hp Hh. destruct j. apply acts_alone; try done.
    intros p' k' Hh'. by destruct (Hh p' k'). }
  destruct o; cbn [CallTaskDone]; [by exists (Some (p, k))|by exists (Some (p, k))|exists None; apply Hno..]; cbn; tauto.
Qed.

(** Writing a file of map task [k] leaves the others. *)
Lemma store_other k (i : Z) (b : bytes) fs k' i' proc :
  holds MapPhase k proc → ¬ holds MapPhase k' proc →
  (<[(Z.of_nat k, i) := b]> fs : Store) !! (Z.of_nat k', i') = fs !! (Z.of_nat k', i').
Proof. intros Hh Hn. rewrite lookup_insert_ne; [done|]. intros [= E _]. apply Hn. by replace k' with k by lia. Qed.

Lemma creating_acts w now o X m i kva offs j :
  job_ok j → workers j !! w = Some (Creating X m i kva offs) →
  acts w (Creating X m i kva offs) (work now o true (Creating X m i kva offs) j).1 None j
    (after w (work now o true (Creating X m i kva offs) j)).
Proof.
  intros Hj Hw. destruct (v_proc _ Hj _ _ Hw) as (k & -> & -> & Ho & -> & Hi & Hf). cbn [MrJob.work]. case_decide as Hlt.
  - apply acts_alone; try done.
    + intros k' i' Hn. eapply store_other; [|exact Hn]. done.
    + exists k. split_and!; try done. intros i' Hi'. destruct (decide (i' = i)) as [->|Hne].
      * by rewrite !lookup_insert_eq.
      * rewrite !lookup_insert_ne by (try intros [= ?]; lia). apply Hf. lia.
  - apply acts_nothing; [done| |done]. exists k, []. split_and!; try done. intros i' Hi'. apply Hf. lia.
Qed.

Lemma bucket_one i kv : bucket n i [kv] = if decide (partition_of n (Key kv) = i) then [kv] else [].
Proof. done. Qed.

Lemma encode_all_one kv : encode_all [kv] = json_encode kv.
Proof. unfold encode_all. cbn. apply app_nil_r. Qed.

Lemma encoding_acts w now o X m kva offs j :
  job_ok j → workers j !! w = Some (Encoding X m kva offs) →
  acts w (Encoding X m kva offs) (work now o true (Encoding X m kva offs) j).1 None j
    (after w (work now o true (Encoding X m kva offs) j)).
Proof.
  intros Hj Hw. destruct (v_proc _ Hj _ _ Hw) as (k & d & -> & -> & Ho & Hp & Hf). destruct kva as [|kv kva]; cbn [MrJob.work].
  - apply acts_nothing; [done| |by intros [] k' [? ?]]. exists MapPhase, k. split_and!; try done.
    intros i Hi. rewrite Hp, app_nil_r. by apply Hf.
  - rewrite decide_False by lia. rewrite partition_of_Z by done. set (q := partition_of n (Key kv)).
    destruct (Hf q) as [Hfq Hoq]; [by apply partition_of_lt|]. rewrite Hoq, Hfq, write_at_end.
    apply acts_alone; try done.
    + intros k' i' Hn. eapply store_other; [|exact Hn]. done.
    + exists k, (d ++ [kv]). split_and!; try done; [by rewrite <- app_assoc|]. intros i Hi. rewrite bucket_app, encode_all_app.
      rewrite (bucket_one i kv). fold q. destruct (decide (q = i)) as [<-|Hne].
      * rewrite !lookup_insert_eq, encode_all_one, length_app. done.
      * rewrite !lookup_insert_ne by (try intros [= ?]; lia). cbn. rewrite app_nil_r. by apply Hf.
Qed.

(** What is decoded from a file that holds a bucket. *)
Lemma decode_bucket k i input :
  job_inputs !! i = Some input →
  decode_all (S (length (encode_all (bucket n k (pairs_of mapf input))))) (encode_all (bucket n k (pairs_of mapf input)))
  = bucket n k (pairs_of mapf input).
Proof.
  intros Hi. apply decode_all_encode.
  - apply Forall_forall. intros kv [_ Hkv]%list_elem_of_filter. rewrite Forall_forall in pairs_ok. apply pairs_ok.
    apply elem_of_concat_map. exists input. split; [by eapply list_elem_of_lookup_2|done].
  - pose proof (encode_all_length (bucket n k (pairs_of mapf input))). lia.
Qed.

Lemma length_job_inputs : length job_inputs = length files.
Proof. apply length_fmap. Qed.

Lemma reading_acts w now o tn m i acc j :
  job_ok j → workers j !! w = Some (Reading tn m i acc) →
  acts w (Reading tn m i acc) (work now o true (Reading tn m i acc) j).1 None j
    (after w (work now o true (Reading tn m i acc) j)).
Proof.
  intros Hj Hw. destruct (v_proc _ Hj _ _ Hw) as (k & -> & Hk & Ho & Hm & -> & Hi & ->). cbn [MrJob.work]. case_decide as Hlt.
  - destruct (lookup_lt_is_Some_2 job_inputs i) as [input Hin]; [by rewrite length_job_inputs|].
    assert (pairs i = pairs_of mapf input) as Hpi by (unfold pairs; by rewrite Hin).
    pose proof (v_finished _ Hj MapPhase i (Hm i Hlt) k Hk) as Hfile. cbn beta in Hfile. rewrite Hpi in Hfile. rewrite Hfile.
    apply acts_nothing; [done| |done]. exists k. split_and!; try done. rewrite (decode_bucket k i input Hin).
    rewrite (take_S_r _ _ _ Hin). unfold all_pairs. rewrite map_app, concat_app, bucket_app. cbn. by rewrite app_nil_r.
  - apply acts_nothing; [done| |done]. exists k. split_and!; try done. unfold lines_of.
    by rewrite take_ge by (rewrite length_job_inputs; lia).
Qed.

Lemma outs_other k (b : bytes) os k' proc :
  holds ReducePhase k proc → ¬ holds ReducePhase k' proc → (<[Z.of_nat k := b]> os : gmap Z bytes) !! Z.of_nat k' = os !! Z.of_nat k'.
Proof. intros Hh Hn. rewrite lookup_insert_ne; [done|]. intros E. apply Hn. by replace k' with k by lia. Qed.

Lemma creating_out_acts w now o tn lines j :
  job_ok j → workers j !! w = Some (CreatingOut tn lines) →
  acts w (CreatingOut tn lines) (work now o true (CreatingOut tn lines) j).1 None j
    (after w (work now o true (CreatingOut tn lines) j)).
Proof.
  intros Hj Hw. destruct (v_proc _ Hj _ _ Hw) as (k & -> & Ho & ->). cbn [MrJob.work]. apply acts_alone; try done.
  - intros k' Hn. eapply outs_other; [|exact Hn]. done.
  - exists k, []. split_and!; try done. by rewrite lookup_insert_eq.
Qed.

Lemma writing_acts w now o tn lines off j :
  job_ok j → workers j !! w = Some (Writing tn lines off) →
  acts w (Writing tn lines off) (work now o true (Writing tn lines off) j).1 None j
    (after w (work now o true (Writing tn lines off) j)).
Proof.
  intros Hj Hw. destruct (v_proc _ Hj _ _ Hw) as (k & d & -> & Ho & Hl & Hf & ->). destruct lines as [|line lines]; cbn [MrJob.work].
  - apply acts_nothing; [done| |by intros [] k' [? ?]]. exists ReducePhase, k. split_and!; try done.
    cbn. by rewrite Hl, app_nil_r.
  - rewrite Hf, write_at_end. apply acts_alone; try done.
    + intros k' Hn. eapply outs_other; [|exact Hn]. done.
    + exists k, (d ++ [line]). rewrite text_app, length_app. unfold text at 2 4. cbn. rewrite app_nil_r.
      split_and!; try done; [by rewrite <- app_assoc|by rewrite lookup_insert_eq].
Qed.

Lemma work_acts w now o proc j :
  job_ok j → workers j !! w = Some proc → timely (Work w now o true) j →
  ∃ x, acts w proc (work now o true proc j).1 x j (after w (work now o true proc j)).
Proof.
  intros Hj Hw Ht. destruct proc.
  - exists None. by apply asking_acts.
  - exists None. by apply creating_acts.
  - exists None. by apply encoding_acts.
  - exists None. by apply reading_acts.
  - exists None. by apply creating_out_acts.
  - exists None. by apply writing_acts.
  - by apply reporting_acts.
  - exists None. by apply acts_nothing.
Qed.

(** ** The whole job *)
Lemma job_ok_coord c' es j :
  job_ok j → evolves None (coord j) c' → c' = run es (MakeCoordinator files n) → (∀ p, NoDup (reports p es)) →
  job_ok (j <| coord := c' |>).
Proof.
  intros Hj Hev He Hn. split; cbn; [by exists es| | | |].
  - destruct (v_sizes _ Hj) as (? & ? & ?). by rewrite (e_files _ _ _ Hev), (e_reduces _ _ _ Hev), (e_nReduce _ _ _ Hev).
  - intros p k [Hc|?]%(e_new _ _ _ Hev); [by apply (v_finished _ Hj)|done].
  - intros w proc Hw. eapply proc_frame; [| |done|done|by eapply v_proc].
    + intros p k _ Ho. by apply (e_open _ _ _ Hev).
    + intros Hm k Hk. by apply (e_closed _ _ _ Hev), Hm.
  - intros p k w w' proc proc'. apply (v_one _ Hj).
Qed.

Lemma job_ok_poll now j : job_ok j → job_ok (j <| coord := fst (Done now (coord j)) |>).
Proof.
  intros Hj. destruct (v_events _ Hj) as (es & He & Hn).
  apply (job_ok_coord _ (es ++ [EDone now])); [done|apply evolves_poll|by rewrite run_snoc, <- He|].
  intros p. by rewrite reports_snoc, app_nil_r.
Qed.

Lemma killed_lookup (l : list Proc) w w' proc :
  alter (λ _, Exited) w l !! w' = Some proc → proc = Exited ∧ w' = w ∨ w' ≠ w ∧ l !! w' = Some proc.
Proof.
  rewrite list_lookup_alter. destruct (decide (w = w')) as [<-|]; [|by right].
  intros (? & _ & ->)%fmap_Some. by left.
Qed.

Lemma job_exec_ok e j : job_ok j → timely e j → job_ok (job_exec e j).
Proof.
  intros Hj Ht. destruct e as [w now o io|w| |now]; cbn [MrJob.job_exec].
  - destruct Ht as [-> Ht]. destruct (workers j !! w) as [proc|] eqn:Hw; [|done].
    destruct (work_acts w now o proc j Hj Hw) as [x Hx]; [split; [done|by rewrite Hw]|]. pose proof (acts_ok _ _ _ _ _ _ Hj Hx) as Hok.
    unfold after in Hok. by destruct (work now o true proc j).
  - destruct (v_events _ Hj) as (es & He & Hn). destruct Hj as [_ Hs Hf Hp Ho]. split; cbn; try done; [by exists es|..].
    + intros w' proc [[-> _]|[_ Hw']]%killed_lookup; [done|by eapply Hp].
    + intros p k w1 w2 p1 p2 [[-> _]|[_ Hw1]]%killed_lookup [[-> _]|[_ Hw2]]%killed_lookup; try done. by apply (Ho p k w1 w2).
  - destruct (v_events _ Hj) as (es & He & Hn). destruct Hj as [_ Hs Hf Hp Ho]. split; cbn; try done; [by exists es|..].
    + intros w' proc [[_ Hw']|[_ [= <-]]]%lookup_snoc_Some; [by eapply Hp|done].
    + intros p k w1 w2 p1 p2 [[_ Hw1]|[_ [= <-]]]%lookup_snoc_Some [[_ Hw2]|[_ [= <-]]]%lookup_snoc_Some Hh1 Hh2; try done.
      by eapply Ho.
  - by apply job_ok_poll.
Qed.

Lemma job_reach_ok j : job_reach j → job_ok j.
Proof.
  induction 1 as [fs os|e j _ IH Ht]; [|by apply job_exec_ok]. split; cbn.
  - exists []. split; [done|]. intros p. constructor.
  - rewrite length_replicate. split_and!; [|done|done]. apply list_eq. intros k. rewrite !list_lookup_fmap. by destruct (files !! k).
  - intros p k (t & Ht & Hs). exfalso. destruct p; cbn in Ht.
    + rewrite list_lookup_fmap in Ht. by apply fmap_Some in Ht as (f & _ & ->).
    + by apply lookup_replicate in Ht as [-> _].
  - done.
  - done.
Qed.

(** C17: The end of a job.  When [Done] tells the main program that the job is over,
    the output files hold, bucket by bucket, the lines that [mrsequential] prints
    for the same inputs, if the result of a key does not depend on the order of
    its values: whatever the files held before, however the workers took turns,
    and whichever of them were killed at any point, half-written files included.
    The input files exist, there is a reduce task, and JSON gives the pairs of [mapf]
    back (the hypotheses of the section). *)
Theorem job_output j now :
  job_reach j → order_insensitive reducef → snd (Done now (coord j)) = true →
  ∃ outputs : list (list string), length outputs = n ∧
    (∀ k lines, outputs !! k = Some lines → outs j !! Z.of_nat k = Some (text lines)) ∧
    List.concat outputs ≡ₚ sequential mapf reducef job_inputs.
Proof.
  intros Hj%job_reach_ok Hoi Hd. exists (bucket_outputs reducef n (all_pairs mapf job_inputs)).
  split; [unfold bucket_outputs; by rewrite length_map, length_seq|]. split; [|by apply outputs_sequential].
  intros k lines Hk. unfold bucket_outputs in Hk. change (map ?f ?l) with (f <$> l) in Hk. rewrite list_lookup_fmap in Hk.
  apply fmap_Some in Hk as (k' & Hk & ->). apply lookup_seq in Hk as [-> Hk]. cbn.
  rewrite Done_cases in Hd. cbn [snd] in Hd. apply andb_true_iff in Hd as [_ Hr].
  destruct (v_events _ Hj) as (es & He & Hn). destruct (v_sizes _ Hj) as (_ & Hrl & _).
  apply (v_finished _ Hj ReducePhase). eapply (coord_done ReducePhase es); [exact He|exact Hn|exact Hr|cbn; lia].
Qed.

(** ** A job can always be finished *)
Fixpoint timely_run (es : list JobEvent) j : Prop :=
  match es with
  | [] => True
  | e :: es => timely e j ∧ timely_run es (job_exec e j)
  end.

Notation job_run := (job_run mapf reducef inputs).

Lemma timely_run_app es1 es2 j : timely_run (es1 ++ es2) j ↔ timely_run es1 j ∧ timely_run es2 (job_run es1 j).
Proof. revert j. induction es1 as [|e es1 IH]; intros j; cbn; [naive_solver|]. rewrite IH. unfold MrJob.job_run. cbn. tauto. Qed.

Lemma job_run_app es1 es2 j : job_run (es1 ++ es2) j = job_run es2 (job_run es1 j).
Proof. unfold MrJob.job_run. apply foldl_app. Qed.

Lemma job_run_reach es j : job_reach j → timely_run es j → job_reach (job_run es j).
Proof.
  revert j. induction es as [|e es IH]; intros j Hj Ht; [done|]. destruct Ht as [He Ht].
  apply (IH (job_exec e j)); [by constructor|done].
Qed.

(** Only worker [w] is there, and it is at [proc]. *)
Definition alone w proc j : Prop :=
  workers j !! w = Some proc ∧ ∀ w' p, w' ≠ w → workers j !! w' = Some p → p = Exited.

(** The steps it has left before it reports. *)
Definition steps_left proc : nat :=
  match proc with
  | Creating _ m i kva _ => m - i + length kva + 2
  | Encoding _ _ kva _ => length kva + 1
  | Reading tn m i _ => m - i + length (lines_of (Z.to_nat tn)) + 3
  | CreatingOut _ lines => length lines + 2
  | Writing _ lines _ => length lines + 1
  | _ => 0
  end.

Lemma alone_exec w now o proc j :
  alone w proc j → job_exec (Work w now o true) j = after w (work now o true proc j) ∧
  alone w (work now o true proc j).1 (job_exec (Work w now o true) j).
Proof.
  intros [Hw Ho]. cbn. rewrite Hw. unfold after.
  assert (workers (work now o true proc j).2 = workers j) as Hws.
  { destruct proc as [|X m i kva offs|X m [|kv kva] offs|tn m i acc|tn lines|tn [|line lines] off|ty tn|]; cbn; try done.
    - destruct o; cbn; try done. by destruct (RequestTask _ _ _).
    - by repeat case_match.
    - by repeat case_match.
    - by repeat case_match.
    - by repeat case_match.
    - by destruct o. }
  destruct (work now o true proc j) as [proc' j']. cbn in *. split; [done|]. split; cbn; rewrite Hws.
  - apply list_lookup_insert_eq. by eapply lookup_lt_Some.
  - intros w' p Hne. rewrite list_lookup_insert_ne by done. by apply Ho.
Qed.

Lemma alone_timely w now proc j : alone w proc j → timely (Work w now Served true) j.
Proof.
  intros [Hw Ho]. split; [done|]. intros Ha _ p k w' proc' _ Hw' Hh. destruct (decide (w' = w)) as [->|Hne].
  - rewrite Hw' in Ha. injection Ha as ->. done.
  - by apply Ho in Hw' as ->.
Qed.

(** A worker that has a task and is not done with it goes on with it. *)
Lemma work_on w (now : Z) proc p k j :
  job_ok j → workers j !! w = Some proc → holds p k proc → proc ≠ Reporting (type_name p) (Z.of_nat k) →
  holds p k (work now Served true proc j).1 ∧ (steps_left (work now Served true proc j).1 < steps_left proc)%nat.
Proof.
  intros Hj Hw Hh Hne. pose proof (v_proc _ Hj _ _ Hw) as Hp. destruct proc as [|X m i kva offs|X m kva offs|tn m i acc|tn lines|tn lines off|ty tn|]; try done.
  - destruct Hp as (k' & -> & -> & _). destruct Hh as [-> Hk]. cbn. case_decide; cbn; split; [done|lia|done|lia].
  - destruct Hp as (k' & d & -> & -> & _ & _ & Hf). destruct Hh as [-> Hk]. destruct kva as [|kv kva]; cbn; [split; [done|lia]|].
    rewrite decide_False by lia. rewrite partition_of_Z by done.
    destruct (Hf (partition_of n (Key kv))) as [-> ->]; [by apply partition_of_lt|]. cbn. split; [done|lia].
  - destruct Hp as (k' & -> & Hk' & _ & Hm & -> & Hi & ->). destruct Hh as [-> Hk]. cbn. case_decide.
    + rewrite (v_finished _ Hj MapPhase i (Hm i ltac:(done)) k' Hk'). cbn. split; [done|lia].
    + cbn. split; [done|]. rewrite Nat2Z.id. unfold lines_of.
      rewrite take_ge by (rewrite length_job_inputs; lia). lia.
  - destruct Hp as (k' & -> & _). destruct Hh as [-> Hk]. cbn. split; [done|lia].
  - destruct Hp as (k' & d & -> & _ & _ & Hf & _). destruct Hh as [-> Hk]. destruct lines as [|line lines]; cbn; [split; [done|lia]|].
    rewrite Hf. cbn. split; [done|lia].
  - destruct Hh as [-> ->]. done.
Qed.

Lemma closed_exec e j p k : job_ok j → timely e j → closed p k (coord j) → closed p k (coord (job_exec e j)).
Proof.
  intros Hj Ht Hc. destruct e as [w now o io|w| |now]; cbn [MrJob.job_exec]; try done.
  - destruct Ht as [-> Ht]. destruct (workers j !! w) as [proc|] eqn:Hw; [|done].
    destruct (work_acts w now o proc j Hj Hw) as [x Hx]; [split; [done|by rewrite Hw]|].
    pose proof (e_closed _ _ _ (a_evolves _ _ _ _ _ _ Hx) p k Hc) as Hc'. unfold after in Hc'.
    by destruct (work now o true proc j).
  - by apply (e_closed _ _ _ (evolves_poll now (coord j))).
Qed.

Lemma closed_run es j p k : job_reach j → timely_run es j → closed p k (coord j) → closed p k (coord (job_run es j)).
Proof.
  revert j. induction es as [|e es IH]; intros j Hj Ht Hc; [done|]. destruct Ht as [He Ht].
  apply (IH (job_exec e j)); [by constructor|done|]. apply closed_exec; [by apply job_reach_ok|done|done].
Qed.

#[local] Instance Reporting_dec proc ty tn : Decision (proc = Reporting ty tn).
Proof. destruct proc; try (by right). destruct (decide (taskType = ty)) as [->|]; [|right; congruence].
  destruct (decide (tn0 = tn)) as [->|]; [by left|right; congruence]. Defined.

(** What worker [w] and the polls of the main program do from [t] on, in the order of the
    times; no call and no operation on a file fails. *)
Inductive only_worker w : Z → list JobEvent → Prop :=
  | only_nil (t : Z) : only_worker w t []
  | only_poll (t now : Z) es : t <= now → only_worker w now es → only_worker w t (Poll now :: es)
  | only_work (t now : Z) es : t <= now → only_worker w now es → only_worker w t (Work w now Served true :: es).

Lemma only_worker_works w (now : Z) (m : nat) es :
  only_worker w now es → only_worker w now (replicate m (Work w now Served true) ++ es).
Proof. intros Hes. induction m as [|m IH]; [done|]. cbn. by apply only_work. Qed.

Lemma finish_task w (now : Z) proc p k j :
  job_reach j → alone w proc j → holds p k proc →
  ∃ m : nat, let es := replicate m (Work w now Served true) in timely_run es j ∧ alone w (Reporting (type_name p) (Z.of_nat k)) (job_run es j).
Proof.
  remember (steps_left proc) as m eqn:Hm. revert proc Hm j. induction (lt_wf m) as [m _ IH]; intros proc -> j Hj Ha Hh.
  destruct (decide (proc = Reporting (type_name p) (Z.of_nat k))) as [->|Hne]; [by exists 0%nat|].
  pose proof (job_reach_ok _ Hj) as Hok. destruct (work_on w now proc p k j Hok (proj1 Ha) Hh Hne) as [Hh' Hlt].
  destruct (alone_exec w now Served proc j Ha) as [Hx Ha']. pose proof (alone_timely w now proc j Ha) as Ht.
  destruct (IH _ Hlt _ eq_refl (job_exec (Work w now Served true) j)) as (m & Hes & Hal); [by constructor|done|done|].
  by exists (S m).
Qed.

(** ... and reports it. *)
Lemma report_task w (now : Z) p k j :
  job_reach j → alone w (Reporting (type_name p) (Z.of_nat k)) j →
  timely (Work w now Served true) j ∧ alone w Asking (job_exec (Work w now Served true) j) ∧
  closed p k (coord (job_exec (Work w now Served true) j)).
Proof.
  intros Hj%job_reach_ok Ha. split; [by eapply alone_timely|]. destruct (alone_exec w now Served _ j Ha) as [Hx Ha'].
  split; [exact Ha'|]. rewrite Hx. cbn [after MrJob.work CallTaskDone fst snd].
  assert (open p k (coord j)) as (t & Ht & _) by (eapply holds_open; [eapply v_proc; [done|apply Ha]|done]).
  assert (k < length (tasks p (coord j)))%nat as Hk by (by eapply lookup_lt_Some).
  destruct (TaskDone_cases (mkTaskDoneArgs (type_name p) (Z.of_nat k)) (coord j)) as [(p' & Hty & _ & Hr)|(err & _ & Hout)].
  2: { exfalso. apply (Hout p); [done|]. unfold len. cbn. lia. }
  cbn in Hty. apply type_name_inj in Hty as <-. cbn. rewrite Hr. cbn. unfold closed. rewrite report_tasks.
  exists (t <| status := Complete |>). split; [|done]. assert (complete (Z.of_nat k) (tasks p (coord j)) !! k = Some (t <| status := Complete |>)) as Hl.
  { unfold complete. by rewrite Nat2Z.id, list_lookup_alter_eq, Ht. }
  by destruct p.
Qed.

(** Ten seconds after the last task was handed out. *)
Lemma all_overdue (t0 : Z) (l : list Task) : ∃ now, t0 <= now ∧ ∀ t, t ∈ l → now - startTime t >= 10 * second.
Proof.
  induction l as [|t l (now & Hle & IH)]; [exists t0; split; [done|]; by intros t ?%elem_of_nil|].
  exists (Z.max now (startTime t + 10 * second)). split; [lia|]. intros t' [->|Hin]%elem_of_cons; [lia|]. specialize (IH t' Hin). lia.
Qed.

Lemma phase_of_poll now c : phase_of (fst (Done now c)) = phase_of c.
Proof. rewrite Done_cases. cbn [fst]. unfold phase_of. by destruct c as [mt rt nr mc rc [] []]. Qed.

Lemma phase_open es c p :
  files ≠ [] → c = run es (MakeCoordinator files n) → phase_of c = Some p → ∃ k, open p k c.
Proof.
  intros Hf -> Hp. destruct (decide (Forall (λ t, status t = Complete) (tasks p (run es (MakeCoordinator files n))))) as [Ha|Hn].
  - apply (all_complete_done files n p es) in Ha; [|destruct p; cbn; [destruct files; [done|cbn; lia]|done]].
    unfold phase_of in Hp. destruct p; cbn in Ha; rewrite Ha in Hp; cbn in Hp; [by destruct (reduceDone _)|by destruct (mapDone _)].
  - apply not_Forall_Exists, Exists_exists in Hn as (t & Hin & Hs); [|apply _].
    apply list_elem_of_lookup_1 in Hin as [k Hk]. by exists k, t.
Qed.

(** After a poll late enough a request is answered with a task. *)
Lemma late_request (t0 : Z) j :
  job_ok j → files ≠ [] → snd (Done 0 (coord j)) = false →
  ∃ now p k, t0 <= now ∧ gives now (fst (Done now (coord j))) p k.
Proof.
  intros Hj Hf Hd. destruct (v_events _ Hj) as (es & He & _). rewrite Done_cases in Hd. cbn [snd] in Hd.
  assert (∃ p, phase_of (coord j) = Some p) as [p Hp].
  { unfold phase_of. destruct (mapDone (coord j)), (reduceDone (coord j)); try done; by eexists. }
  destruct (phase_open es _ p Hf He Hp) as (k & t & Hk & Hs). destruct (all_overdue t0 (tasks p (coord j))) as (now & Hle & Hnow).
  exists now, p. pose proof (RequestTask_cases now (fst (Done now (coord j)))) as Hc. rewrite phase_of_poll, Hp in Hc.
  destruct Hc as [(k' & t' & _ & Hr)|[Hall _]]; [exists k'; split; [done|]; unfold gives; by rewrite Hr|]. exfalso.
  rewrite Done_cases, Hp in Hall. cbn [fst] in Hall. rewrite tasks_set in Hall.
  assert (Forall (λ t, status t ≠ Unassigned) (updateTasks now (tasks p (coord j)))) as Hall' by (by destruct p).
  unfold updateTasks in Hall'. rewrite Forall_fmap in Hall'. pose proof (proj1 (Forall_lookup _ _) Hall' _ _ Hk) as Hu. cbn in Hu.
  specialize (Hnow t ltac:(by eapply list_elem_of_lookup_2)). case_decide as Ha; cbn in Hu; [done|].
  destruct (status t) eqn:Est; [done| |done]. apply Ha. split; [done|lia].
Qed.

Lemma take_holds now j p k :
  job_ok j → gives now (coord j) p k → holds p k (take_task mapf inputs (snd (RequestTask now zeroResponse (coord j)))).
Proof.
  intros Hj [Hty Hn]. destruct (v_sizes _ Hj) as (Hfn & _ & _). pose proof (RequestTask_cases now (coord j)) as Hc.
  destruct (phase_of (coord j)) as [p'|]; [|rewrite Hc in Hty; by destruct p].
  destruct Hc as [(k' & t & (Hk & Hu & _) & Hr)|[_ Hr]]; rewrite Hr in Hty, Hn |- *; cbn in Hty, Hn; [|by destruct p].
  apply type_name_inj in Hty as ->. unfold take_task. destruct p; cbn; cbn in Hk; [|done].
  assert (files !! k' = Some (filename t)) as Hf by (rewrite <- Hfn, list_lookup_fmap, Hk; done).
  destruct (pairs_lookup k' _ Hf) as (content & Hin & _). unfold performMap. rewrite Hin. by cbn.
Qed.

(** One more task gets complete. *)
Lemma next_task w (t0 : Z) j :
  job_reach j → alone w Asking j → files ≠ [] → snd (Done 0 (coord j)) = false →
  ∃ es p k, (∃ t1 : Z, t0 <= t1 ∧ ∀ es', only_worker w t1 es' → only_worker w t0 (es ++ es')) ∧
    timely_run es j ∧ alone w Asking (job_run es j) ∧ open p k (coord j) ∧ closed p k (coord (job_run es j)).
Proof.
  intros Hj Ha Hf Hd. pose proof (job_reach_ok _ Hj) as Hok. destruct (late_request t0 j Hok Hf Hd) as (now & p & k & Hle & Hg).
  set (j1 := job_exec (Poll now) j). assert (job_reach j1) as Hj1 by (by apply job_step).
  assert (alone w Asking j1) as Ha1 by done. assert (gives now (coord j1) p k) as Hg1 by done.
  destruct (alone_exec w now Served Asking j1 Ha1) as [Hx Ha2]. set (j2 := job_exec (Work w now Served true) j1) in *.
  assert (job_reach j2) as Hj2 by (apply job_step; [done|by eapply alone_timely]).
  assert (holds p k (work now Served true Asking j1).1) as Hh.
  { pose proof (take_holds now j1 p k (job_reach_ok _ Hj1) Hg1) as Hh. cbn [MrJob.work CallRequestTask].
    by destruct (RequestTask now zeroResponse (coord j1)). }
  destruct (finish_task w now _ p k j2 Hj2 Ha2 Hh) as (m & Hes & Ha3). set (es := replicate m _) in *.
  assert (job_reach (job_run es j2)) as Hj3 by (by apply job_run_reach).
  destruct (report_task w now p k _ Hj3 Ha3) as (Ht4 & Ha4 & Hc4).
  exists (Poll now :: Work w now Served true :: es ++ [Work w now Served true]), p, k.
  split.
  { exists now. split; [done|]. intros es' Hes'. cbn. apply only_poll; [done|]. apply only_work; [done|].
    rewrite <- app_assoc. apply only_worker_works. by apply only_work. }
  split.
  { split; [done|]. split; [by eapply alone_timely|]. apply timely_run_app. split; [exact Hes|]. by split. }
  change (job_run (Poll now :: Work w now Served true :: es ++ [Work w now Served true]) j)
    with (job_run (es ++ [Work w now Served true]) j2). rewrite job_run_app. split; [exact Ha4|]. split; [|exact Hc4].
  apply gives_open in Hg. destruct Hg as (t & Ht & Hs). pose proof (evolves_poll now (coord j)) as Hev.
  assert (k < length (tasks p (coord j)))%nat as Hlt.
  { apply lookup_lt_Some in Ht. rewrite Done_cases in Ht. cbn [fst] in Ht. destruct (phase_of (coord j)) as [p'|]; [|done].
    rewrite tasks_set in Ht. destruct p, p'; try done; unfold updateTasks in Ht; by rewrite length_fmap in Ht. }
  destruct (lookup_lt_is_Some_2 _ _ Hlt) as [t2 Ht0]. exists t2. split; [done|]. intros Hc0.
  destruct (e_closed _ _ _ Hev p k) as (t1 & Ht1 & Hs1); [by exists t2|]. rewrite Ht in Ht1. by injection Ht1 as <-.
Qed.

Lemma open_back es j p k :
  job_reach j → timely_run es j → open p k (coord (job_run es j)) → open p k (coord j).
Proof.
  intros Hj Ht Ho. pose proof (job_run_reach es j Hj Ht) as Hj'.
  assert (length (tasks p (coord (job_run es j))) = length (tasks p (coord j))) as Hl.
  { destruct (v_sizes _ (job_reach_ok _ Hj)) as (E1 & E2 & _), (v_sizes _ (job_reach_ok _ Hj')) as (F1 & F2 & _).
    destruct p; cbn; [|congruence]. rewrite <- (length_fmap filename), F1, <- (length_fmap filename), E1. done. }
  destruct Ho as (t & Hk & Hs). destruct (lookup_lt_is_Some_2 (tasks p (coord j)) k) as [t0 Ht0]; [rewrite <- Hl; by eapply lookup_lt_Some|].
  exists t0. split; [done|]. intros Hc. destruct (closed_run es j p k Hj Ht) as (t1 & Ht1 & Hs1); [by exists t0|].
  rewrite Hk in Ht1. by injection Ht1 as <-.
Qed.

Lemma finish_from w (t0 : Z) (l : list (Phase * nat)) j :
  job_reach j → alone w Asking j → files ≠ [] → (∀ p k, open p k (coord j) → (p, k) ∈ l) →
  ∃ es, only_worker w t0 es ∧ timely_run es j ∧ snd (Done 0 (coord (job_run es j))) = true.
Proof.
  remember (length l) as m eqn:Hm. revert t0 l Hm j. induction (lt_wf m) as [m _ IH]; intros t0 l -> j Hj Ha Hf Hl.
  destruct (snd (Done 0 (coord j))) eqn:Hd; [exists []; split; [constructor|done]|].
  destruct (next_task w t0 j Hj Ha Hf Hd) as (es & p & k & (t1 & _ & Honly) & Ht & Ha' & Ho & Hc).
  destruct (IH (length (filter (λ x, x ≠ (p, k)) l))) with (t0 := t1) (l := filter (λ x, x ≠ (p, k)) l) (j := job_run es j)
    as (es' & Ho' & Ht' & Hd'); [|done|by apply job_run_reach|done|done| |].
  - apply length_filter_lt with (x := (p, k)); [by apply Hl|by intros []].
  - intros p' k' Ho'. apply list_elem_of_filter. split; [|apply Hl; by eapply open_back].
    intros [= -> ->]. by eapply open_not_closed.
  - exists (es ++ es'). rewrite timely_run_app, job_run_app. auto.
Qed.

Lemma kill_some m j :
  timely_run (KillWorker <$> seq 0 m) j ∧
  coord (job_run (KillWorker <$> seq 0 m) j) = coord j ∧
  length (workers (job_run (KillWorker <$> seq 0 m) j)) = length (workers j) ∧
  ∀ w p, (w < m)%nat → workers (job_run (KillWorker <$> seq 0 m) j) !! w = Some p → p = Exited.
Proof.
  induction m as [|m (IH1 & IH2 & IH3 & IH4)]; [split; [done|]; split; [done|]; split; [done|]; intros; lia|].
  rewrite seq_S, fmap_app, timely_run_app, job_run_app. cbn. split; [done|]. split; [done|].
  split; [by rewrite length_alter|]. intros w p Hw [[-> _]|[Hne Hl]]%killed_lookup; [done|].
  apply (IH4 w p); [lia|done].
Qed.

(** C18: Whatever happened in a job with some input file, it can still be brought to its
    end, from any time [t0] on: kill the workers, start one, and let it work, with the
    main program polling, at times late enough for the tasks of the others to be free
    again.  No other worker takes part. *)
Theorem job_can_finish j (t0 : Z) :
  job_reach j → files ≠ [] →
  ∃ es, let w := length (workers j) in let all := (KillWorker <$> seq 0 w) ++ Launch :: es in
    only_worker w t0 es ∧ timely_run all j ∧ job_reach (job_run all j) ∧ snd (Done 0 (coord (job_run all j))) = true.
Proof.
  intros Hj Hf. set (w := length (workers j)). destruct (kill_some w j) as (Ht & _ & Hlen & Hk).
  set (j1 := job_run (KillWorker <$> seq 0 w) j) in *. assert (job_reach j1) as Hj1 by (by apply job_run_reach).
  assert (alone w Asking (job_exec Launch j1)) as Ha.
  { split; cbn; [by apply list_lookup_middle|]. intros w' p Hne [[_ Hl]|[-> _]]%lookup_snoc_Some; [|by rewrite Hlen in Hne].
    apply (Hk w' p); [|done]. apply lookup_lt_Some in Hl. by rewrite Hlen in Hl. }
  set (all := ((MapPhase,.) <$> seq 0 (length files)) ++ ((ReducePhase,.) <$> seq 0 n)).
  destruct (finish_from w t0 all (job_exec Launch j1)) as (es & Ho & Hes & Hd); [by apply job_step|done|done| |].
  - intros p k (t & Hl%lookup_lt_Some & _). destruct (v_sizes _ (job_reach_ok _ Hj1)) as (E1 & E2 & _).
    change (k < length (tasks p (coord j1)))%nat in Hl. unfold all. apply elem_of_app.
    destruct p; [left|right]; apply list_elem_of_fmap; exists k; (split; [done|apply elem_of_seq]); cbn in Hl; [|lia].
    rewrite <- (length_fmap filename), E1 in Hl. lia.
  - exists es. cbv zeta. fold w. split; [exact Ho|].
    assert (timely_run ((KillWorker <$> seq 0 w) ++ Launch :: es) j) as Hall by (apply timely_run_app; by split).
    split; [done|]. split; [by apply job_run_reach|]. by rewrite job_run_app.
Qed.
End JobResult.
