(* ===== verification/MrJobRuns.v ===== *)
(** * MrJobRuns: MapReduce jobs on concrete inputs

    A codec and a sorter with the laws of [MrWorker], and jobs that run: tasks one
    after the other, a job of two map and two reduce tasks whose first worker is
    killed while it writes, and runs outside the assumptions of [MrJobResult]: a
    slow worker that goes on after its task was given to another, and a file that
    cannot be created. *)
From stdpp Require Import base list list_numbers gmap strings option sorting countable sets.
From Stdlib Require Import ZArith Lia.
From Stdlib Require Import Strings.Byte Ascii.
From S2P Require Import Prelude Labgob MrWorker MrResult MrApps.
#[local] Open Scope Z_scope.
#[local] Open Scope string_scope.
#[local] Open Scope list_scope.

(** ** A codec: the binary digits of the pair, and an end mark *)

Fixpoint until_mark (b : bytes) : option (bytes * bytes) :=
  match b with
  | [] => None
  | Byte.x02 :: b => Some ([], b)
  | x :: b => '(d, rest) ← until_mark b; Some (x :: d, rest)
  end.

#[export] Instance digit_codec : JsonCodec := {|
  json_encode kv := pos_to_bytes (encode (Key kv, Value kv)) ++ [Byte.x02];
  json_decode b :=
    '(d, rest) ← until_mark b;
    '(k, v) ← (decode (bytes_to_pos d) : option (string * string));
    Some (mkKeyValue k v, rest);
  json_ok _ := True
|}.

Lemma until_mark_digits p rest :
  until_mark (pos_to_bytes p ++ Byte.x02 :: rest) = Some (pos_to_bytes p, rest).
Proof. induction p as [p IH|p IH|]; cbn; rewrite ?IH; done. Qed.

#[export] Instance digit_laws : JsonLaws.
Proof.
  split.
  - intros [k v] rest _. cbn [json_encode json_decode digit_codec].
    rewrite <-app_assoc. cbn [app]. rewrite until_mark_digits. cbn [mbind option_bind].
    by rewrite bytes_pos_roundtrip, decode_encode.
  - done.
  - intros kv. cbn. intros [_ ?]%app_eq_nil. done.
Qed.

(** ** A sorter *)

#[export] Instance key_le_dec : RelDecision key_le.
Proof. intros a b. unfold key_le. apply _. Defined.
#[export] Instance key_le_trans : Transitive key_le.
Proof. intros a b c. unfold key_le. by etrans. Qed.
#[export] Instance key_le_total : Total key_le.
Proof. intros a b. unfold key_le. apply (total String.le). Qed.

#[export] Instance merge_sorter : Sorter := merge_sort key_le.
#[export] Instance merge_laws : SorterLaws.
Proof.
  split; [apply merge_sort_Permutation|]. intros l. by apply (StronglySorted_merge_sort key_le).
Qed.

(** ** Jobs *)

#[export] Instance ascii_letters : UnicodeTables := λ r,
  bool_decide (65 <= r <= 90 ∨ 97 <= r <= 122).
#[export] Instance sorted_range : RangeOrder := elements.
#[export] Instance sorted_range_laws : RangeLaws.
Proof. intros m. done. Qed.

Definition small_inputs : list (string * string) := [("f", "a bc, a"); ("g", "bc-d")].

(** Map task 1 is run twice. *)
Lemma order_covers X : X ∈ [1%nat; 0%nat; 1%nat] ↔ (X < length small_inputs)%nat.
Proof.
  cbn. rewrite !elem_of_cons, elem_of_nil. lia.
Qed.

Lemma order_plain X : X ∈ [0%nat; 1%nat] ↔ (X < length small_inputs)%nat.
Proof. cbn. rewrite !elem_of_cons, elem_of_nil. lia. Qed.

Lemma distributed_equals_sequential_witness :
  ∃ fs1 fs2 outs, run_maps indexer_Map small_inputs 2 [1%nat; 0%nat; 1%nat] ∅ = Some fs1
    ∧ run_maps indexer_Map small_inputs 2 [0%nat; 1%nat] {[(0, 0) := [Byte.x07]]} = Some fs2
    ∧ mapM (λ p, reduce_task indexer_Reduce 2 p fs1) (seq 0 2) = Some outs
    ∧ mapM (λ p, reduce_task indexer_Reduce 2 p fs2) (seq 0 2) = Some outs
    ∧ List.concat outs ≡ₚ sequential indexer_Map indexer_Reduce small_inputs.
Proof.
  refine (distributed_equals_sequential indexer_Reduce indexer_Map small_inputs 2 [1%nat; 0%nat; 1%nat]
    [0%nat; 1%nat] ∅ {[(0, 0) := [Byte.x07]]} _ indexer_order_insensitive _ order_covers order_plain).
  - lia.
  - apply Forall_true. intros kv. exact I.
Defined.

Example indexer_lines :
  sequential indexer_Map indexer_Reduce small_inputs
  = [output_line "a" "1 f"; output_line "bc" "2 f,g"; output_line "d" "1 g"].
Proof. vm_compute. reflexivity. Qed.

Lemma word_count_witness :
  ∃ fs' outs ws, run_maps wc_Map small_inputs 3 [1%nat; 0%nat; 1%nat] ∅ = Some fs'
    ∧ mapM (λ p, reduce_task wc_Reduce 2 p fs') (seq 0 3) = Some outs
    ∧ NoDup ws ∧ (∀ w, w ∈ ws ↔ w ∈ all_words small_inputs)
    ∧ List.concat outs ≡ₚ
      (λ w, output_line w (Itoa_len (filter (λ w', w' = w) (all_words small_inputs)))) <$> ws.
Proof.
  refine (word_count small_inputs 3 [1%nat; 0%nat; 1%nat] ∅ _ _ order_covers).
  - lia.
  - apply Forall_true. intros kv. exact I.
Defined.

Example all_words_of_inputs : all_words small_inputs = ["a"; "bc"; "a"; "bc"; "d"].
Proof. vm_compute. reflexivity. Qed.

(** A word of letters outside ASCII is one field, and invalid bytes separate. *)
Example fields_utf8 :
  FieldsFunc (String "195"%char (String "169"%char (String "120"%char (String "255"%char "y"))))
    (λ r, negb (bool_decide (r = 0xE9) || bool_decide (97 <= r <= 122)))
  = [String "195"%char (String "169"%char "x"); "y"].
Proof. vm_compute. reflexivity. Qed.

(** The hash of the empty key is FNV's offset basis without its sign bit. *)
Example ihash_values : ihash "" = 18652613 ∧ ihash "a" = 1678518572.
Proof. vm_compute. split; reflexivity. Qed.

(** ** Workers that stop, and what goes wrong when they do not *)
From S2P Require Import MrCoordinator MrScheduling MrJob MrJobResult.

Definition texts : gmap string string := list_to_map small_inputs.
Definition names : list string := ["f"; "g"].

Notation exec1 := (job_exec indexer_Map indexer_Reduce texts).
Notation run := (MrJob.job_run indexer_Map indexer_Reduce texts).
Notation reached := (job_reach indexer_Map indexer_Reduce texts names 2).

(** [timely], as a test. *)
Definition has_task (reply : RequestTaskResponse) (proc : Proc) : bool :=
  match proc with
  | Creating X _ _ _ _ | Encoding X _ _ _ => bool_decide (rt_TaskType reply = "map" ∧ rt_TaskNumber reply = X)
  | Reading tn _ _ _ | CreatingOut tn _ | Writing tn _ _ =>
      bool_decide (rt_TaskType reply = "reduce" ∧ rt_TaskNumber reply = tn)
  | Reporting ty tn => bool_decide (rt_TaskType reply = ty ∧ rt_TaskNumber reply = tn)
  | Asking | Exited => false
  end.

Definition timely_b (e : JobEvent) (j : Job) : bool :=
  match e with
  | Work w now o io =>
      io && match workers j !! w, o with
            | Some Asking, Served => negb (existsb (has_task (snd (RequestTask now zeroResponse (coord j)))) (workers j))
            | _, _ => true
            end
  | _ => true
  end.

Lemma has_task_holds now c p k proc :
  gives now c p k → holds p k proc → has_task (snd (RequestTask now zeroResponse c)) proc = true.
Proof.
  intros [Hty Hn] Hh. destruct proc; cbn in *; try done; destruct Hh as [E1 E2]; apply bool_decide_eq_true; subst; naive_solver.
Qed.

Lemma timely_b_sound e j : timely_b e j = true → timely e j.
Proof.
  destruct e as [w now o io|w| |now]; cbn; try done. intros [-> Hb]%andb_true_iff. split; [done|].
  intros Hw -> p k w' proc Hg Hw' Hh. rewrite Hw in Hb. apply negb_true_iff in Hb.
  assert (existsb (has_task (snd (RequestTask now zeroResponse (coord j)))) (workers j) = true) as E; [|congruence].
  apply existsb_exists. exists proc. split; [apply list_elem_of_In; by eapply list_elem_of_lookup_2|by eapply has_task_holds].
Qed.

Fixpoint timely_all (es : list JobEvent) (j : Job) : bool :=
  match es with [] => true | e :: es => timely_b e j && timely_all es (exec1 e j) end.

Lemma reached_run es j : reached j → timely_all es j = true → reached (run es j).
Proof.
  revert j. induction es as [|e es IH]; intros j Hj Ht; [done|]. apply andb_true_iff in Ht as [Hb Ht].
  apply (IH (exec1 e j)); [|done]. apply job_step; [done|by apply timely_b_sound].
Qed.

(** ** A worker that is killed *)
Definition works (w : nat) (now : Z) (m : nat) : list JobEvent := replicate m (Work w now Served true).

(** Worker 0 creates the files of map task 0 and writes a pair; eleven seconds
    later worker 1 does everything, over files of an earlier job. *)
Definition with_kill : list JobEvent :=
  Launch :: works 0 0 5 ++ [KillWorker 0; Launch; Poll (11 * second)] ++ works 1 (11 * second) 60.

Definition old_files : Store := {[(0, 0) := [Byte.x07]; (1, 1) := [Byte.x02]]}.

Definition after_kill : Job := run with_kill (new_job names 2 old_files ∅).

Lemma after_kill_reached : reached after_kill.
Proof. apply reached_run; [constructor|]. vm_compute. reflexivity. Qed.

Lemma names_exist : Forall (λ f, is_Some (texts !! f)) names.
Proof. repeat constructor; vm_compute; by eexists. Qed.

Lemma job_output_witness :
  ∃ outputs : list (list string), length outputs = 2%nat ∧
    (∀ k lines, outputs !! k = Some lines → outs after_kill !! Z.of_nat k = Some (text lines)) ∧
    List.concat outputs ≡ₚ sequential indexer_Map indexer_Reduce (job_inputs texts names).
Proof.
  apply (job_output indexer_Map indexer_Reduce texts names 2) with (now := 0).
  - lia.
  - exact names_exist.
  - apply Forall_true. intros kv. exact I.
  - exact after_kill_reached.
  - exact indexer_order_insensitive.
  - vm_compute. reflexivity.
Defined.

(** A worker is in the middle of a map task. *)
Definition started : Job := run (Launch :: works 0 0 4) (new_job names 2 ∅ ∅).

Lemma started_reached : reached started.
Proof. apply reached_run; [constructor|]. vm_compute. reflexivity. Qed.

Lemma job_can_finish_witness :
  snd (Done 0 (coord started)) = false ∧
  ∃ es, only_worker 1 (1000 * second) es ∧
    snd (Done 0 (coord (run (KillWorker 0 :: Launch :: es) started))) = true.
Proof.
  split; [vm_compute; reflexivity|].
  destruct (job_can_finish indexer_Map indexer_Reduce texts names 2 ltac:(lia) names_exist
    ltac:(apply Forall_true; intros kv; exact I) started (1000 * second) started_reached ltac:(discriminate))
    as (es & Ho & _ & _ & Hd).
  assert (length (workers started) = 1%nat) as El by (vm_compute; reflexivity).
  cbv zeta in Ho, Hd. rewrite El in Ho, Hd. exists es. split; [exact Ho|exact Hd].
Defined.

(** ** A worker that is slow *)

(** Worker 0 gets map task 0 and stops for eleven seconds.  Worker 1 does all map
    tasks; then worker 0 goes on and empties the files of the task, which worker 1
    reads. *)
Definition with_slow : list JobEvent :=
  Launch :: works 0 0 1 ++ [Launch; Poll (11 * second)] ++ works 1 (11 * second) 17
    ++ works 0 (12 * second) 2 ++ works 1 (12 * second) 40.

Definition after_slow : Job := run with_slow (new_job names 2 ∅ ∅).

Definition all_lines (j : Job) : list (option string) :=
  (λ k, String.string_of_list_byte <$> outs j !! Z.of_nat k) <$> seq 0 2.

Example kill_keeps_words :
  snd (Done 0 (coord after_kill)) = true ∧
  all_lines after_kill = [Some (output_line "a" "1 f" +:+ output_line "bc" "2 f,g"); Some (output_line "d" "1 g")].
Proof. vm_compute. split; reflexivity. Qed.

(** The job is over, and the words of the first file are missing. *)
Example slow_worker_loses_words :
  snd (Done 0 (coord after_slow)) = true ∧
  all_lines after_slow = [Some (output_line "bc" "1 g"); Some (output_line "d" "1 g")].
Proof. vm_compute. split; reflexivity. Qed.

(** ** A file that cannot be created *)

(** The error of [storeIntermediate] is dropped: the task is reported complete
    without its files. *)
Definition no_file : Job :=
  run [Launch; Work 0 0 Served true; Work 0 0 Served false; Work 0 0 Served true] (new_job names 2 ∅ ∅).

Example failed_map_complete :
  (status <$> mapTasks (coord no_file)) = [Complete; Unassigned] ∧ store no_file = ∅.
Proof. vm_compute. split; reflexivity. Qed.

(** Workers then die on the missing file, one after the other. *)
Example failed_map_kills_workers :
  workers (run (works 0 0 10) no_file) = [Exited].
Proof. vm_compute. reflexivity. Qed.
