(* ===== verification/Bitset.v ===== *)
(** * Bitset: the bit sets of [src/src/porcupine/bitset.go]

    A [bitset] is a slice of 64-bit words that the checker shares, copies with
    [clone] and updates in place; an operation here returns the new contents,
    and [None] is an index out of range.  The file shows that the operations
    implement a finite set of positions. *)
From stdpp Require Import base list list_numbers option.
From Stdlib Require Import ZArith Lia.
From S2P Require Import Prelude.
#[local] Open Scope Z_scope.

Abbreviation bitset := (list Z).

Definition newBitset (bits : Z) : bitset :=
  let extra := if decide (bits mod 64 ≠ 0) then 1 else 0 in
  let chunks := bits / 64 + extra in
  replicate (Z.to_nat chunks) 0.

Definition clone (b : bitset) : bitset := b.

Definition bitsetIndex (pos : Z) : Z * Z := (pos / 64, pos mod 64).

(** [b[major] |= (1 << minor)] *)
Definition set (pos : Z) (b : bitset) : option bitset :=
  let '(major, minor) := bitsetIndex pos in
  w ← at_index b major;
  Some (<[Z.to_nat major := Z.lor w (Z.shiftl 1 minor)]> b).

(** [b[major] &^= (1 << minor)] *)
Definition clear (pos : Z) (b : bitset) : option bitset :=
  let '(major, minor) := bitsetIndex pos in
  w ← at_index b major;
  Some (<[Z.to_nat major := Z.ldiff w (Z.shiftl 1 minor)]> b).

Definition get (pos : Z) (b : bitset) : option bool :=
  let '(major, minor) := bitsetIndex pos in
  w ← at_index b major;
  Some (bool_decide (Z.land w (Z.shiftl 1 minor) ≠ 0)).

(** [bits.OnesCount64] *)
Definition OnesCount64 (v : Z) : Z :=
  Z.of_nat (length (filter (λ i, Z.testbit v (Z.of_nat i) = true) (seq 0 64))).

Definition popcnt (b : bitset) : Z := foldl (λ total v, total + OnesCount64 v) 0 b.

Definition hash (b : bitset) : Z := foldl (λ hash v, Z.lxor hash v) (popcnt b) b.

Fixpoint equals_from (b b2 : bitset) : bool :=
  match b, b2 with
  | v :: b, v2 :: b2 => if decide (v ≠ v2) then false else equals_from b b2
  | _, _ => true
  end.

Definition equals (b b2 : bitset) : bool :=
  if decide (len b ≠ len b2) then false else equals_from b b2.

(** ** The set it stands for *)

(** Words are 64 bits wide. *)
Definition word (w : Z) : Prop := 0 <= w < 2 ^ 64.
Definition wf (b : bitset) : Prop := Forall word b.

(** The positions a bitset has room for, and those in it. *)
Definition room (b : bitset) (pos : Z) : Prop := 0 <= pos < 64 * len b.

Definition member (b : bitset) (pos : Z) : bool :=
  match b !! Z.to_nat (pos / 64) with
  | Some w => Z.testbit w (pos mod 64)
  | None => false
  end.

Lemma word_testbit w : word w ↔ 0 <= w ∧ ∀ i, 64 <= i → Z.testbit w i = false.
Proof.
  unfold word. split.
  - intros [H0 H1]. split; [done|]. intros i Hi. destruct (decide (w = 0)) as [->|].
    + apply Z.testbit_0_l.
    + apply Z.bits_above_log2; [done|]. assert (Z.log2 w < 64); [|lia].
      apply Z.log2_lt_pow2; lia.
  - intros [H0 H1]. split; [done|].
    destruct (decide (w < 2 ^ 64)) as [|Hge]; [done|]. exfalso.
    assert (64 <= Z.log2 w) as Hl by (apply Z.log2_le_pow2; lia).
    specialize (H1 _ Hl). rewrite Z.bit_log2 in H1 by lia. done.
Qed.

Lemma shiftl_1_testbit k i : 0 <= k → 0 <= i → Z.testbit (Z.shiftl 1 k) i = bool_decide (i = k).
Proof.
  intros Hk Hi. rewrite Z.shiftl_1_l, Z.pow2_bits_eqb by done.
  case_bool_decide as He; [subst; apply Z.eqb_refl|apply Z.eqb_neq; lia].
Qed.

Lemma room_index b pos :
  room b pos → ∃ w, at_index b (pos / 64) = Some w ∧ b !! Z.to_nat (pos / 64) = Some w.
Proof.
  unfold room. intros Hr. pose proof (Z.div_mod pos 64 ltac:(lia)).
  pose proof (Z.mod_pos_bound pos 64 ltac:(lia)).
  destruct (at_index_lt b (pos / 64)) as [w Hw]; [lia|].
  exists w. split; [done|]. by apply at_index_Some in Hw as [_ ?].
Qed.

Lemma bit_range pos : 0 <= pos mod 64 < 64.
Proof. apply Z.mod_pos_bound. lia. Qed.

(** Two positions are equal if word and bit are. *)
Lemma pos_eq pos pos' :
  0 <= pos → 0 <= pos' →
  pos = pos' ↔ Z.to_nat (pos / 64) = Z.to_nat (pos' / 64) ∧ pos mod 64 = pos' mod 64.
Proof.
  intros H1 H2. pose proof (Z.div_mod pos 64 ltac:(lia)). pose proof (Z.div_mod pos' 64 ltac:(lia)).
  pose proof (Z.div_pos pos 64 H1 ltac:(lia)). pose proof (Z.div_pos pos' 64 H2 ltac:(lia)).
  split; [by intros ->|]. intros [? ?]. lia.
Qed.

(** Writing one word, at a position of the set. *)
Lemma member_insert b pos w w' pos' :
  b !! Z.to_nat (pos / 64) = Some w → 0 <= pos → 0 <= pos' →
  member (<[Z.to_nat (pos / 64) := w']> b) pos'
  = if decide (Z.to_nat (pos' / 64) = Z.to_nat (pos / 64)) then Z.testbit w' (pos' mod 64)
    else member b pos'.
Proof.
  intros Hw H1 H2. unfold member. case_decide as He.
  - rewrite He, list_lookup_insert_eq; [done|]. by eapply lookup_lt_Some.
  - by rewrite list_lookup_insert_ne.
Qed.

Lemma wf_insert b k w : wf b → word w → wf (<[k := w]> b).
Proof. intros Hb Hw. by apply Forall_insert. Qed.

Lemma wf_lookup b k w : wf b → b !! k = Some w → word w.
Proof. intros Hb Hw. by eapply Forall_lookup_1. Qed.

Lemma set_spec b pos :
  wf b → room b pos →
  ∃ b', set pos b = Some b' ∧ wf b' ∧ length b' = length b
    ∧ ∀ pos', room b pos' → member b' pos' = bool_decide (pos' = pos) || member b pos'.
Proof.
  intros Hb Hr. destruct (room_index _ _ Hr) as (w & Ha & Hw). unfold set, bitsetIndex. rewrite Ha.
  eexists. split; [reflexivity|]. pose proof (bit_range pos) as Hbit.
  pose proof (wf_lookup _ _ _ Hb Hw) as [Hw0 Hwb]%word_testbit. split_and!.
  - apply wf_insert; [done|]. apply word_testbit. split.
    + apply Z.lor_nonneg. split; [done|]. apply Z.shiftl_nonneg. lia.
    + intros i Hi. rewrite Z.lor_spec, Hwb, shiftl_1_testbit by lia.
      by rewrite bool_decide_eq_false_2 by lia.
  - apply length_insert.
  - intros pos' Hr'. unfold room in Hr, Hr'. pose proof (bit_range pos') as Hbit'.
    rewrite (member_insert b pos w) by (done || lia). case_decide as He.
    + rewrite Z.lor_spec, shiftl_1_testbit, orb_comm by lia. unfold member at 1. rewrite He, Hw.
      f_equal. apply bool_decide_ext. rewrite (pos_eq pos' pos) by lia. tauto.
    + rewrite (bool_decide_eq_false_2 (pos' = pos)); [done|]. by intros ->.
Qed.

Lemma clear_spec b pos :
  wf b → room b pos →
  ∃ b', clear pos b = Some b' ∧ wf b' ∧ length b' = length b
    ∧ ∀ pos', room b pos' → member b' pos' = negb (bool_decide (pos' = pos)) && member b pos'.
Proof.
  intros Hb Hr. destruct (room_index _ _ Hr) as (w & Ha & Hw). unfold clear, bitsetIndex. rewrite Ha.
  eexists. split; [reflexivity|]. pose proof (bit_range pos) as Hbit.
  pose proof (wf_lookup _ _ _ Hb Hw) as [Hw0 Hwb]%word_testbit. split_and!.
  - apply wf_insert; [done|]. apply word_testbit. split.
    + apply Z.ldiff_nonneg. by left.
    + intros i Hi. by rewrite Z.ldiff_spec, Hwb by lia.
  - apply length_insert.
  - intros pos' Hr'. unfold room in Hr, Hr'. pose proof (bit_range pos') as Hbit'.
    rewrite (member_insert b pos w) by (done || lia). case_decide as He.
    + rewrite Z.ldiff_spec, shiftl_1_testbit, andb_comm by lia. unfold member. rewrite He, Hw.
      f_equal. f_equal. apply bool_decide_ext. rewrite (pos_eq pos' pos) by lia. tauto.
    + rewrite (bool_decide_eq_false_2 (pos' = pos)); [done|]. by intros ->.
Qed.

Lemma get_member b pos : room b pos → get pos b = Some (member b pos).
Proof.
  intros Hr. destruct (room_index _ _ Hr) as (w & Ha & Hw). unfold get, bitsetIndex, member.
  rewrite Ha, Hw. cbn. f_equal. pose proof (bit_range pos) as Hbit.
  destruct (Z.testbit w (pos mod 64)) eqn:Ht.
  - apply bool_decide_eq_true. intros H0.
    assert (Z.testbit (Z.land w (Z.shiftl 1 (pos mod 64))) (pos mod 64) = false) as Hf
      by (rewrite H0; apply Z.testbit_0_l).
    rewrite Z.land_spec, Ht, shiftl_1_testbit, bool_decide_eq_true_2 in Hf by lia. done.
  - apply bool_decide_eq_false. intros Hn. apply Hn. apply Z.bits_inj'. intros i Hi.
    rewrite Z.land_spec, Z.testbit_0_l, shiftl_1_testbit by lia.
    case_bool_decide; [subst; by rewrite Ht|apply andb_false_r].
Qed.

(** ** The promises *)

(** [set], [clear] and [get] are insertion, removal and membership of a finite
    set of positions, at every position the bitset has room for. *)
Theorem bitset_is_set b pos :
  wf b → room b pos →
  (∃ b', set pos b = Some b' ∧ wf b' ∧ length b' = length b ∧
     ∀ pos', room b pos' → get pos' b' = Some (bool_decide (pos' = pos) || member b pos')) ∧
  (∃ b', clear pos b = Some b' ∧ wf b' ∧ length b' = length b ∧
     ∀ pos', room b pos' → get pos' b' = Some (negb (bool_decide (pos' = pos)) && member b pos')) ∧
  get pos b = Some (member b pos).
Proof.
  intros Hb Hr.
  assert (∀ b' pos', length b' = length b → room b pos' → room b' pos') as Hroom
    by (unfold room, len; intros b' pos' ->; done).
  split_and!; [| |by apply get_member].
  - destruct (set_spec b pos Hb Hr) as (b' & Hs & Hw & Hl & Hm). exists b'.
    split_and!; try done. intros pos' Hr'. rewrite get_member by auto. by rewrite Hm.
  - destruct (clear_spec b pos Hb Hr) as (b' & Hs & Hw & Hl & Hm). exists b'.
    split_and!; try done. intros pos' Hr'. rewrite get_member by auto. by rewrite Hm.
Qed.

(** Two bitsets of one size with the same members are the same words. *)
Lemma member_ext b1 b2 :
  wf b1 → wf b2 → length b1 = length b2 →
  (∀ pos, room b1 pos → member b1 pos = member b2 pos) → b1 = b2.
Proof.
  intros H1 H2 Hl Hm. apply list_eq_same_length with (n := length b1); [done..|].
  intros k w1 w2 Hk Hw1 Hw2.
  pose proof (wf_lookup _ _ _ H1 Hw1) as [_ Hb1]%word_testbit.
  pose proof (wf_lookup _ _ _ H2 Hw2) as [_ Hb2]%word_testbit.
  apply Z.bits_inj'. intros i Hi. destruct (decide (64 <= i)); [by rewrite Hb1, Hb2|].
  assert (room b1 (64 * Z.of_nat k + i)) as Hr by (unfold room, len; lia).
  specialize (Hm _ Hr). unfold member in Hm.
  assert ((64 * Z.of_nat k + i) / 64 = Z.of_nat k) as Hd
    by (rewrite Z.mul_comm, Z.div_add_l, Z.div_small by lia; lia).
  assert ((64 * Z.of_nat k + i) mod 64 = i) as Hmod
    by (rewrite Z.mul_comm, Z.add_comm, Z.mod_add, Z.mod_small by lia; lia).
  rewrite Hd, Hmod, Nat2Z.id, Hw1, Hw2 in Hm. done.
Qed.

Lemma equals_from_spec b1 b2 : length b1 = length b2 → equals_from b1 b2 = true ↔ b1 = b2.
Proof.
  revert b2. induction b1 as [|v1 b1 IH]; intros [|v2 b2] Hl; cbn in *; try done; try lia.
  case_decide as Hv; [split; [done|congruence]|].
  rewrite IH by lia. split; [|by intros [= -> ->]].
  intros ->. by f_equal.
Qed.

(** [equals] compares the sets: same size and same members. *)
Theorem equals_spec b1 b2 :
  wf b1 → wf b2 →
  equals b1 b2 = true
  ↔ length b1 = length b2 ∧ ∀ pos, room b1 pos → member b1 pos = member b2 pos.
Proof.
  intros H1 H2. unfold equals. case_decide as Hl; unfold len in Hl.
  - split; [done|]. intros [? _]. lia.
  - rewrite equals_from_spec by lia. split; [by intros ->|].
    intros [? ?]. by apply member_ext.
Qed.

(** Backtracking: clearing a bit that was set afresh gives the bitset back. *)
Theorem clear_undoes_set b pos :
  wf b → room b pos → member b pos = false → set pos b ≫= clear pos = Some b.
Proof.
  intros Hb Hr Hm. destruct (set_spec b pos Hb Hr) as (b1 & Hs & Hb1 & Hl1 & Hm1).
  rewrite Hs. cbn [mbind option_bind].
  assert (∀ p, room b p ↔ room b1 p) as Hroom by (unfold room, len; by rewrite Hl1).
  destruct (clear_spec b1 pos Hb1) as (b2 & Hc & Hb2 & Hl2 & Hm2); [by apply Hroom|].
  rewrite Hc. f_equal. apply member_ext; [done|done|congruence|].
  intros p Hp. assert (room b p) as Hp' by (unfold room, len in *; by rewrite Hl2, Hl1 in Hp).
  rewrite Hm2, Hm1 by (done || by apply Hroom).
  case_bool_decide as He; [by subst|done].
Qed.

Lemma newBitset_wf bits : wf (newBitset bits).
Proof. apply Forall_replicate. split; lia. Qed.

(** A new bitset is empty and has room for the positions asked for. *)
Theorem newBitset_spec bits :
  0 <= bits →
  wf (newBitset bits) ∧ (∀ pos, 0 <= pos < bits → room (newBitset bits) pos)
  ∧ ∀ pos, member (newBitset bits) pos = false.
Proof.
  intros Hb. split; [apply newBitset_wf|]. unfold newBitset.
  set (chunks := bits / 64 + _). split.
  - intros pos Hp. unfold room, len. rewrite length_replicate.
    pose proof (Z.div_mod bits 64 ltac:(lia)). pose proof (bit_range bits).
    subst chunks. case_decide; lia.
  - intros pos. unfold member. destruct (replicate _ _ !! _) as [w|] eqn:Hw; [|done].
    apply lookup_replicate in Hw as [-> _]. apply Z.testbit_0_l.
Qed.

(** ** A concrete set *)
Definition nine : bitset := default [] (set 70 (newBitset 100) ≫= set 9).

Lemma nine_wf : wf nine.
Proof.
  assert (nine = [512; 64]) as -> by (vm_compute; reflexivity).
  repeat apply Forall_cons_2; [split; lia|split; lia|apply Forall_nil_2].
Qed.

Lemma hundred_wf : wf (newBitset 100).
Proof. apply newBitset_wf. Qed.

Lemma bitset_is_set_witness : get 9 nine = Some (member nine 9).
Proof.
  assert (room nine 9) as Hr by (vm_compute; split; [discriminate|reflexivity]).
  destruct (bitset_is_set nine 9 nine_wf Hr) as (_ & _ & Hg). exact Hg.
Defined.

Lemma equals_spec_witness : equals nine (newBitset 100) = false.
Proof.
  destruct (equals nine (newBitset 100)) eqn:He; [|reflexivity]. exfalso.
  destruct (equals_spec nine (newBitset 100) nine_wf hundred_wf) as [Hs _].
  destruct (Hs He) as [_ Hm].
  specialize (Hm 70 ltac:(vm_compute; split; [discriminate|reflexivity])). discriminate Hm.
Defined.

Lemma clear_undoes_set_witness : set 10 nine ≫= clear 10 = Some nine.
Proof.
  apply (clear_undoes_set nine 10 nine_wf); [|reflexivity].
  vm_compute. split; [discriminate|reflexivity].
Defined.

Lemma newBitset_spec_witness : room (newBitset 65) 64.
Proof. destruct (newBitset_spec 65 ltac:(lia)) as (_ & Hr & _). apply Hr. lia. Defined.
