(* ===== verification/Porcupine.v ===== *)
(** * Porcupine: the linearizability checker of [src/src/porcupine/]

    [checker.go], [model.go] and [porcupine.go].  The linked list of entries is
    a heap of nodes: a pointer is the index of its node, [None] is [nil], and
    dereferencing [nil] is the panic [None].  A value of type [interface{}] is a
    [V], a state a [State]; [Step] may panic on a value of the wrong type.

    The nondeterminism of the program is an argument: what each load of [kill]
    reads, in which order the results and the timer arrive, and the order in
    which a map is ranged over. *)
From Stdlib Require Import ZArith Lia.
From stdpp Require Import base gmap strings sorting option list.
From S2P Require Import Prelude Bitset.
#[local] Open Scope Z_scope.

(** [fmt.Sprintf("%v", x)] *)
Class Printable (A : Type) := Sprintf_v : A → string.

(** [interface{}] has the value [nil]. *)
Class Interface (V : Type) := nil_value : V.

(** ** [model.go] *)
Record Operation (V : Type) := mkOperation {
  op_ClientId : Z; Input : V; Call : Z; Output : V; Return : Z
}.
Arguments mkOperation {V}.
Arguments op_ClientId {V}.
Arguments Input {V}.
Arguments Call {V}.
Arguments Output {V}.
Arguments Return {V}.

Inductive EventKind := CallEvent | ReturnEvent.

Record Event (V : Type) := mkEvent {
  ev_ClientId : Z; Kind : EventKind; Value : V; Id : Z
}.
Arguments mkEvent {V}.
Arguments ev_ClientId {V}.
Arguments Kind {V}.
Arguments Value {V}.
Arguments Id {V}.

(** A field of function type may be [nil]. *)
Record Model (V State : Type) := mkModel {
  Partition : option (list (Operation V) → option (list (list (Operation V))));
  PartitionEvent : option (list (Event V) → option (list (list (Event V))));
  Init : State;
  Step : State → V → V → option (bool * State);
  Equal : option (State → State → bool);
  DescribeOperation : option (V → V → option string);
  DescribeState : option (State → option string)
}.
Arguments mkModel {V State}.
Arguments Partition {V State}.
Arguments PartitionEvent {V State}.
Arguments Init {V State}.
Arguments Step {V State}.
Arguments Equal {V State}.
Arguments DescribeOperation {V State}.
Arguments DescribeState {V State}.

Definition NoPartition {V} (history : list (Operation V)) : option (list (list (Operation V))) :=
  Some [history].

Definition NoPartitionEvent {V} (history : list (Event V)) : option (list (list (Event V))) :=
  Some [history].

(** Go's [==], for states of a comparable type. *)
Definition ShallowEqual {State} `{EqDecision State} (state1 state2 : State) : bool :=
  bool_decide (state1 = state2).

Definition DefaultDescribeOperation {V} `{Printable V} (input output : V) : option string :=
  Some (Sprintf_v input +:+ " -> " +:+ Sprintf_v output)%string.

Definition DefaultDescribeState {State} `{Printable State} (state : State) : option string :=
  Some (Sprintf_v state).

Inductive CheckResult := Unknown | Ok | Illegal.
#[export] Instance CheckResult_eq_dec : EqDecision CheckResult.
Proof. solve_decision. Defined.

(** ** Entries *)
Inductive entryKind := callEntry | returnEntry.
#[export] Instance entryKind_eq_dec : EqDecision entryKind.
Proof. solve_decision. Defined.

Record entry (V : Type) := mkEntry {
  kind : entryKind; value : V; id : Z; time : Z; clientId : Z
}.
Arguments mkEntry {V}.
Arguments kind {V}.
Arguments value {V}.
Arguments id {V}.
Arguments time {V}.
Arguments clientId {V}.

(** [byTime.Less] *)
Definition Less {V} (a b : entry V) : bool :=
  if decide (time a ≠ time b) then bool_decide (time a < time b)
  else bool_decide (kind a = callEntry ∧ kind b = returnEntry).

(** [sort.Sort(byTime(entries))]: the same entries in an order in which none
    is [Less] than one before it; which such order is left open. *)
Class TimeSorter (V : Type) := sort_byTime : list (entry V) → list (entry V).
Class TimeSorterLaws (V : Type) `{TimeSorter V} : Prop := {
  sort_byTime_Permutation : ∀ l, sort_byTime l ≡ₚ l;
  sort_byTime_sorted : ∀ l, StronglySorted (λ a b, Less b a = false) (sort_byTime l)
}.

(** The two entries of each operation, numbered in the order of the history. *)
Fixpoint entries_of {V} (history : list (Operation V)) (i : Z) : list (entry V) :=
  match history with
  | [] => []
  | elem :: history =>
      mkEntry callEntry (Input elem) i (Call elem) (op_ClientId elem)
      :: mkEntry returnEntry (Output elem) i (Return elem) (op_ClientId elem)
      :: entries_of history (i + 1)
  end.

Definition makeEntries {V} `{TimeSorter V} (history : list (Operation V)) : list (entry V) :=
  sort_byTime (entries_of history 0).

(** [m] maps the ids of the events to their new numbers. *)
Fixpoint renumber_loop {V} (events : list (Event V)) (m : gmap Z Z) (i : Z) : list (Event V) :=
  match events with
  | [] => []
  | v :: events =>
      match m !! Id v with
      | Some r => mkEvent (ev_ClientId v) (Kind v) (Value v) r :: renumber_loop events m i
      | None => mkEvent (ev_ClientId v) (Kind v) (Value v) i
                :: renumber_loop events (<[Id v := i]> m) (i + 1)
      end
  end.

Definition renumber {V} (events : list (Event V)) : list (Event V) := renumber_loop events ∅ 0.

Definition convertEntry {V} (i : nat) (elem : Event V) : entry V :=
  let k := match Kind elem with ReturnEvent => returnEntry | CallEvent => callEntry end in
  mkEntry k (Value elem) (Id elem) (Z.of_nat i) (ev_ClientId elem).

(** The index is used as the time. *)
Definition convertEntries {V} (events : list (Event V)) : list (entry V) :=
  imap convertEntry events.

(** ** Linked entries *)
Record node (V : Type) := mkNode {
  nvalue : V;
  match_ : option nat; (* call if match is nil, otherwise return *)
  nid : Z;
  next : option nat;
  prev : option nat
}.
Arguments mkNode {V}.
Arguments nvalue {V}.
Arguments match_ {V}.
Arguments nid {V}.
Arguments next {V}.
Arguments prev {V}.

#[export] Instance upd_next V : Upd (@next V) := λ v n, mkNode (nvalue n) (match_ n) (nid n) v (prev n).
#[export] Instance upd_prev V : Upd (@prev V) := λ v n, mkNode (nvalue n) (match_ n) (nid n) (next n) v.

Abbreviation heap V := (list (node V)).

Section LinkedEntries.
Context {V : Type} `{Interface V}.
Implicit Types (h : heap V) (p mark : option nat).

Definition load h p : option (node V) := q ← p; h !! q.

Definition store_next p v h : option (heap V) :=
  q ← p; n ← h !! q; Some (<[q := n <| next := v |>]> h).

Definition store_prev p v h : option (heap V) :=
  q ← p; n ← h !! q; Some (<[q := n <| prev := v |>]> h).

Definition insertBefore (n : nat) mark h : option (heap V) :=
  match mark with
  | None => Some h
  | Some _ =>
      m ← load h mark;
      let beforeMark := prev m in
      h ← store_prev mark (Some n) h;
      h ← store_next (Some n) mark h;
      match beforeMark with
      | None => Some h
      | Some _ => h ← store_prev (Some n) beforeMark h; store_next beforeMark (Some n) h
      end
  end.

(** [length(n)]; the fuel bounds the walk over the nodes. *)
Fixpoint node_length (fuel : nat) h p (l : Z) : outcome Z :=
  match p with
  | None => Returned l
  | Some q =>
      match fuel with
      | O => Running
      | S fuel =>
          match h !! q with
          | None => Panicked
          | Some n => node_length fuel h (next n) (l + 1)
          end
      end
  end.

(** One pass of [makeLinkedEntries]: [root], the nodes and [match]. *)
Definition link (elem : entry V) (acc : option nat * heap V * gmap Z nat)
  : option (option nat * heap V * gmap Z nat) :=
  let '(root, h, matches) := acc in
  let new := length h in
  match kind elem with
  | returnEntry =>
      let h := h ++ [mkNode (value elem) None (id elem) None None] in
      h ← insertBefore new root h;
      Some (Some new, h, <[id elem := new]> matches)
  | callEntry =>
      let h := h ++ [mkNode (value elem) (matches !! id elem) (id elem) None None] in
      h ← insertBefore new root h;
      Some (Some new, h, matches)
  end.

(** From the last entry to the first. *)
Fixpoint link_all (entries : list (entry V)) : option (option nat * heap V * gmap Z nat) :=
  match entries with
  | [] => Some (None, [], ∅)
  | elem :: entries => acc ← link_all entries; link elem acc
  end.

Definition makeLinkedEntries (entries : list (entry V)) : option (option nat * heap V) :=
  '(root, h, _) ← link_all entries; Some (root, h).

Definition lift (e : nat) h : option (heap V) :=
  n ← h !! e; h ← store_next (prev n) (next n) h;
  n ← h !! e; h ← store_prev (next n) (prev n) h;
  n ← h !! e;
  m ← load h (match_ n); h ← store_next (prev m) (next m) h;
  m ← load h (match_ n);
  match next m with
  | None => Some h
  | Some _ => store_prev (next m) (prev m) h
  end.

Definition unlift (e : nat) h : option (heap V) :=
  n ← h !! e;
  m ← load h (match_ n); h ← store_next (prev m) (match_ n) h;
  m ← load h (match_ n);
  h ← match next m with
      | None => Some h
      | Some _ => store_prev (next m) (match_ n) h
      end;
  n ← h !! e; h ← store_next (prev n) (Some e) h;
  n ← h !! e; store_prev (next n) (Some e) h.
End LinkedEntries.

(** ** The search *)
Record cacheEntry (State : Type) := mkCacheEntry { ce_linearized : bitset; ce_state : State }.
Arguments mkCacheEntry {State}.
Arguments ce_linearized {State}.
Arguments ce_state {State}.

Record callsEntry (State : Type) := mkCallsEntry { c_entry : nat; c_state : State }.
Arguments mkCallsEntry {State}.
Arguments c_entry {State}.
Arguments c_state {State}.

Abbreviation Cache State := (gmap Z (list (cacheEntry State))).

Definition cache_at {State} (cache : Cache State) (h : Z) : list (cacheEntry State) := default [] (cache !! h).

(** The variables of [checkSingle].  A [*[]int] of [longest] points to one of
    [seqs], the slices whose address was taken. *)
Record search (V State : Type) := mkSearch {
  nodes : heap V;
  cur : option nat; (* entry *)
  linearized : bitset;
  cache : Cache State;
  calls : list (callsEntry State);
  state : State;
  seqs : list (list Z);
  longest : list (option nat)
}.
Arguments mkSearch {V State}.
Arguments nodes {V State}.
Arguments cur {V State}.
Arguments linearized {V State}.
Arguments cache {V State}.
Arguments calls {V State}.
Arguments state {V State}.
Arguments seqs {V State}.
Arguments longest {V State}.

#[export] Instance upd_nodes V State : Upd (@nodes V State) := λ v s,
  mkSearch v (cur s) (linearized s) (cache s) (calls s) (state s) (seqs s) (longest s).
#[export] Instance upd_cur V State : Upd (@cur V State) := λ v s,
  mkSearch (nodes s) v (linearized s) (cache s) (calls s) (state s) (seqs s) (longest s).
#[export] Instance upd_linearized V State : Upd (@linearized V State) := λ v s,
  mkSearch (nodes s) (cur s) v (cache s) (calls s) (state s) (seqs s) (longest s).
#[export] Instance upd_cache V State : Upd (@cache V State) := λ v s,
  mkSearch (nodes s) (cur s) (linearized s) v (calls s) (state s) (seqs s) (longest s).
#[export] Instance upd_calls V State : Upd (@calls V State) := λ v s,
  mkSearch (nodes s) (cur s) (linearized s) (cache s) v (state s) (seqs s) (longest s).
#[export] Instance upd_state V State : Upd (@state V State) := λ v s,
  mkSearch (nodes s) (cur s) (linearized s) (cache s) (calls s) v (seqs s) (longest s).
#[export] Instance upd_seqs V State : Upd (@seqs V State) := λ v s,
  mkSearch (nodes s) (cur s) (linearized s) (cache s) (calls s) (state s) v (longest s).
#[export] Instance upd_longest V State : Upd (@longest V State) := λ v s,
  mkSearch (nodes s) (cur s) (linearized s) (cache s) (calls s) (state s) (seqs s) v.

Section Checker.
Context {V State : Type} `{Interface V, Printable V, Printable State, EqDecision State, TimeSorter V}.
Implicit Types (s : search V State) (model : Model V State).

(** [model.Equal(a, b)]; calling a [nil] function panics. *)
Definition call_Equal model (a b : State) : option bool := f ← Equal model; Some (f a b).

Fixpoint cacheContains_loop model (elems : list (cacheEntry State)) (e : cacheEntry State) : option bool :=
  match elems with
  | [] => Some false
  | elem :: elems =>
      if equals (ce_linearized e) (ce_linearized elem)
      then b ← call_Equal model (ce_state e) (ce_state elem);
           if b : bool then Some true else cacheContains_loop model elems e
      else cacheContains_loop model elems e
  end.

Definition cacheContains model (cache : Cache State) (e : cacheEntry State) : option bool :=
  cacheContains_loop model (cache_at cache (hash (ce_linearized e))) e.

(** The ids of the calls made. *)
Definition call_ids (h : heap V) (calls : list (callsEntry State)) : option (list Z) :=
  mapM (λ v, n ← h !! c_entry v; Some (nid n)) calls.

(** The loop that records the current calls as the longest linearization of
    each operation in them; [seq] is created once, when first needed. *)
Fixpoint record_longest (h : heap V) (all todo : list (callsEntry State)) (seq : option nat)
    (sq : list (list Z)) (lg : list (option nat)) : option (list (list Z) * list (option nat)) :=
  match todo with
  | [] => Some (sq, lg)
  | v :: todo =>
      n ← h !! c_entry v;
      old ← at_index lg (nid n);
      better ← match old with
               | None => Some true
               | Some q => l ← sq !! q; Some (bool_decide (len l < len all))
               end;
      if better : bool then
        '(q, sq) ← match seq with
                   | Some q => Some (q, sq)
                   | None => ids ← call_ids h all; Some (length sq, sq ++ [ids])
                   end;
        record_longest h all todo (Some q) sq (<[Z.to_nat (nid n) := Some q]> lg)
      else record_longest h all todo seq sq lg
  end.

(** The code after the loop. *)
Definition finish s : option (search V State) :=
  ids ← call_ids (nodes s) (calls s);
  let q := length (seqs s) in
  Some (s <| seqs := seqs s ++ [ids] |> <| longest := replicate (length (longest s)) (Some q) |>).

(** [entry = entry.next] *)
Definition advance s : option (search V State) :=
  n ← load (nodes s) (cur s); Some (s <| cur := next n |>).

(** The branch of a call entry. *)
Definition try_call model (headEntry : nat) (e m : nat) s : option (search V State) :=
  n ← nodes s !! e;
  matching ← nodes s !! m;
  '(ok, newState) ← Step model (state s) (nvalue n) (nvalue matching);
  if ok : bool then
    newLinearized ← set (nid n) (clone (linearized s));
    let newCacheEntry := mkCacheEntry newLinearized newState in
    found ← cacheContains model (cache s) newCacheEntry;
    if found : bool then advance s
    else
      let hh := hash newLinearized in
      let s := s <| cache := <[hh := cache_at (cache s) hh ++ [newCacheEntry]]> (cache s) |> in
      let s := s <| calls := calls s ++ [mkCallsEntry e (state s)] |> in
      let s := s <| state := newState |> in
      lin ← set (nid n) (linearized s);
      let s := s <| linearized := lin |> in
      h ← lift e (nodes s);
      hd ← h !! headEntry;
      Some (s <| nodes := h |> <| cur := next hd |>)
  else advance s.

(** The branch of a return entry, when some call was made. *)
Definition backtrack (computePartial : bool) (callsTop : callsEntry State) s : option (search V State) :=
  s ← (if computePartial then
         '(sq, lg) ← record_longest (nodes s) (calls s) (calls s) None (seqs s) (longest s);
         Some (s <| seqs := sq |> <| longest := lg |>)
       else Some s);
  let e := c_entry callsTop in
  let s := s <| cur := Some e |> <| state := c_state callsTop |> in
  n ← nodes s !! e;
  lin ← clear (nid n) (linearized s);
  let s := s <| linearized := lin |> <| calls := removelast (calls s) |> in
  h ← unlift e (nodes s);
  advance (s <| nodes := h |>).

(** One test of the loop condition and pass through its body: the loop goes on,
    or [checkSingle] returns. *)
Inductive progress := Continue (s : search V State) | Return_ (ok : bool) (s : search V State).

Definition iteration model (headEntry : nat) (computePartial killed : bool) s : option progress :=
  hd ← nodes s !! headEntry;
  match next hd with
  | None => s ← finish s; Some (Return_ true s)
  | Some _ =>
      if killed then Some (Return_ false s)
      else
        e ← cur s;
        n ← nodes s !! e;
        match match_ n with
        | Some m => s ← try_call model headEntry e m s; Some (Continue s)
        | None =>
            match last (calls s) with
            | None => Some (Return_ false s)
            | Some callsTop => s ← backtrack computePartial callsTop s; Some (Continue s)
            end
        end
  end.

(** [kill i] is what the [i]-th load of [kill] reads. *)
Fixpoint checkLoop model (headEntry : nat) (computePartial : bool) (kill : nat → bool)
    (fuel i : nat) s : outcome (bool * search V State) :=
  match fuel with
  | O => Running
  | S fuel =>
      match iteration model headEntry computePartial (kill i) s with
      | None => Panicked
      | Some (Return_ ok s) => Returned (ok, s)
      | Some (Continue s) => checkLoop model headEntry computePartial kill fuel (i + 1)%nat s
      end
  end.

(** The declarations before the loop; [headEntry] is the last node made. *)
Definition init_search model (history : list (entry V)) : outcome (nat * search V State) :=
  match makeLinkedEntries history with
  | None => Panicked
  | Some (root, h) =>
      outcome_bind (node_length (length h) h root 0) (λ l,
        let n := Z.quot l 2 in
        let headEntry := length h in
        let h := h ++ [mkNode nil_value None (-1) None None] in
        match insertBefore headEntry root h with
        | None => Panicked
        | Some h =>
            Returned (headEntry,
              mkSearch h root (newBitset n) ∅ [] (Init model) [] (replicate (Z.to_nat n) None))
        end)
  end.

Definition checkSingle model (history : list (entry V)) (computePartial : bool)
    (kill : nat → bool) (fuel : nat) : outcome (bool * search V State) :=
  outcome_bind (init_search model history) (λ '(headEntry, s),
    checkLoop model headEntry computePartial kill fuel 0 s).

(** ** The entry points *)
Definition fillDefault model : Model V State := {|
  Partition := match Partition model with None => Some NoPartition | f => f end;
  PartitionEvent := match PartitionEvent model with None => Some NoPartitionEvent | f => f end;
  Init := Init model;
  Step := Step model;
  Equal := match Equal model with None => Some ShallowEqual | f => f end;
  DescribeOperation :=
    match DescribeOperation model with None => Some DefaultDescribeOperation | f => f end;
  DescribeState := match DescribeState model with None => Some DefaultDescribeState | f => f end
|}.

(** What reaches the [select] of [checkParallel]: the result of the goroutine of
    one partition, or the timer. *)
Inductive Arrival := Result (i : nat) | Timer.

(** A schedule of the goroutines: the order of arrivals, what goroutine [i]
    reads from [kill] once it was stored, the order of ranging over a set. *)
Record Schedule := mkSchedule {
  arrivals : list Arrival;
  kills : nat → nat → bool;
  range_set : gset nat → list nat
}.

Definition never_killed : nat → bool := λ _, false.

(** The loop around [select]: [ok], [timedOut] and the goroutines whose result was
    not received.  A goroutine sends one result; without a timeout the timer
    channel is [nil]. *)
Fixpoint select_loop (results : nat → outcome bool) (computeInfo : bool) (timeout : Z)
    (arr : list Arrival) (ok : bool) (pending : list nat) : outcome (bool * bool * list nat) :=
  match arr with
  | [] => Running
  | Timer :: arr =>
      if decide (0 < timeout) then Returned (ok, true, pending)
      else select_loop results computeInfo timeout arr ok pending
  | Result i :: arr =>
      if decide (i ∈ pending) then
        outcome_bind (results i) (λ result,
          let pending := filter (λ j, j ≠ i) pending in
          let ok := ok && result in
          if negb ok && negb computeInfo then Returned (ok, false, pending)
          else if decide (pending = []) then Returned (ok, false, pending)
          else select_loop results computeInfo timeout arr ok pending)
      else select_loop results computeInfo timeout arr ok pending
  end.

Record linearizationInfo := mkInfo {
  info_history : list (list (entry V));
  partialLinearizations : list (list (list Z))
}.

(** The set of the slices that [longest] points to, copied. *)
Definition partials_of (range : gset nat → list nat) s : option (list (list Z)) :=
  mapM (λ q, seqs s !! q) (range (list_to_set (omap (λ p, p) (longest s)))).

(** The information about all partitions, once every goroutine has finished. *)
Fixpoint collect (range : gset nat → list nat) (runs : list (outcome (bool * search V State)))
  : outcome (list (list (list Z))) :=
  match runs with
  | [] => Returned []
  | r :: runs =>
      outcome_bind r (λ '(_, s),
        outcome_bind (or_panic (partials_of range s)) (λ p,
          outcome_bind (collect range runs) (λ ps, Returned (p :: ps))))
  end.

Definition checkParallel model (history : list (list (entry V))) (computeInfo : bool)
    (timeout : Z) (sched : Schedule) (fuel : nat) : outcome (CheckResult * linearizationInfo) :=
  let run kill i := checkSingle model (default [] (history !! i)) computeInfo kill fuel in
  let results i := outcome_bind (run never_killed i) (λ '(ok, _), Returned ok) in
  let all := seq 0 (length history) in
  outcome_bind (select_loop results computeInfo timeout (arrivals sched) true all)
    (λ '(ok, timedOut, pending),
      outcome_bind
        (if computeInfo then
           outcome_bind
             (collect (range_set sched)
                ((λ i, run (if decide (i ∈ pending) then kills sched i else never_killed) i) <$> all))
             (λ partials, Returned (mkInfo history partials))
         else Returned (mkInfo [] []))
        (λ info,
          let result := if negb ok then Illegal else if timedOut then Unknown else Ok in
          Returned (result, info))).

(** Calling a [nil] partition function panics. *)
Definition checkEvents model (history : list (Event V)) (verbose : bool) (timeout : Z)
    (sched : Schedule) (fuel : nat) : outcome (CheckResult * linearizationInfo) :=
  let model := fillDefault model in
  outcome_bind (or_panic (f ← PartitionEvent model; f history)) (λ partitions,
    let l := (λ subhistory, convertEntries (renumber subhistory)) <$> partitions in
    checkParallel model l verbose timeout sched fuel).

Definition checkOperations model (history : list (Operation V)) (verbose : bool) (timeout : Z)
    (sched : Schedule) (fuel : nat) : outcome (CheckResult * linearizationInfo) :=
  let model := fillDefault model in
  outcome_bind (or_panic (f ← Partition model; f history)) (λ partitions,
    let l := makeEntries <$> partitions in
    checkParallel model l verbose timeout sched fuel).

(** ** [porcupine.go] *)
Definition CheckOperations model history sched fuel : outcome bool :=
  outcome_bind (checkOperations model history false 0 sched fuel)
    (λ '(res, _), Returned (bool_decide (res = Ok))).

Definition CheckOperationsTimeout model history timeout sched fuel : outcome CheckResult :=
  outcome_bind (checkOperations model history false timeout sched fuel)
    (λ '(res, _), Returned res).

Definition CheckOperationsVerbose model history timeout sched fuel :=
  checkOperations model history true timeout sched fuel.

Definition CheckEvents model history sched fuel : outcome bool :=
  outcome_bind (checkEvents model history false 0 sched fuel)
    (λ '(res, _), Returned (bool_decide (res = Ok))).

Definition CheckEventsTimeout model history timeout sched fuel : outcome CheckResult :=
  outcome_bind (checkEvents model history false timeout sched fuel)
    (λ '(res, _), Returned res).

Definition CheckEventsVerbose model history timeout sched fuel :=
  checkEvents model history true timeout sched fuel.
End Checker.
