(* ===== verification/PorcupineHeap.v ===== *)
(** * PorcupineHeap: the doubly linked entries of the checker

    [linked h l] says that the nodes of heap [h] at the addresses [l] form a
    doubly linked list.  The file shows that [makeLinkedEntries] builds such a
    list, that [lift] takes a call and its return out of it, and that [unlift]
    puts them back exactly. *)
From Stdlib Require Import ZArith Lia.
From stdpp Require Import base gmap option list.
From S2P Require Import Prelude Bitset Porcupine.
#[local] Open Scope Z_scope.

Section Linked.
Context {V : Type} `{Interface V}.
Implicit Types (h : heap V) (l a b c : list nat) (p q x e m : nat) (n : node V).

(** ** Lists in the heap *)

(** What the links never change. *)
Definition data n : V * option nat * Z := (nvalue n, match_ n, nid n).

Definition linked h l : Prop :=
  NoDup l ∧ ∀ i p, l !! i = Some p →
    ∃ n, h !! p = Some n ∧ next n = l !! S i ∧ (∀ j, i = S j → prev n = l !! j).

Lemma linked_NoDup h l : linked h l → NoDup l.
Proof. by intros []. Qed.

Lemma linked_next h a p b :
  linked h (a ++ p :: b) → ∃ n, h !! p = Some n ∧ next n = head b.
Proof.
  intros [_ Hl]. destruct (Hl (length a) p) as (n & Hn & Hx & _); [by apply list_lookup_middle|].
  exists n. split; [done|]. rewrite Hx, lookup_app_r by lia.
  replace (S (length a) - length a)%nat with 1%nat by lia. by destruct b.
Qed.

Lemma linked_middle h a x p b :
  linked h (a ++ x :: p :: b) → ∃ n, h !! p = Some n ∧ next n = head b ∧ prev n = Some x.
Proof.
  intros [_ Hl]. destruct (Hl (S (length a)) p) as (n & Hn & Hx & Hp).
  { rewrite lookup_app_r by lia. by replace (S (length a) - length a)%nat with 1%nat by lia. }
  exists n. split_and!; [done| |].
  - rewrite Hx, lookup_app_r by lia.
    replace (S (S (length a)) - length a)%nat with 2%nat by lia. by destruct b.
  - rewrite (Hp (length a)) by done. by apply list_lookup_middle.
Qed.

(** ** Writing to nodes *)
Lemma lookup_alter_dec (f : node V → node V) p q h :
  alter f p h !! q = if decide (p = q) then f <$> h !! q else h !! q.
Proof.
  case_decide as Hpq; [subst; apply list_lookup_alter_eq|by apply list_lookup_alter_ne].
Qed.

Lemma insert_alter (f : node V → node V) p n h :
  h !! p = Some n → <[p := f n]> h = alter f p h.
Proof.
  intros Hp. apply list_eq. intros q. rewrite lookup_alter_dec. case_decide as Hpq.
  - subst. rewrite Hp, list_lookup_insert_eq; [done|]. by eapply lookup_lt_Some.
  - by rewrite list_lookup_insert_ne.
Qed.

Lemma store_next_alter p v h :
  is_Some (h !! p) → store_next (Some p) v h = Some (alter (upd next v) p h).
Proof.
  intros [n Hn]. unfold store_next. cbn. rewrite Hn. cbn. f_equal.
  apply (insert_alter (upd next v) _ _ _ Hn).
Qed.

Lemma store_prev_alter p v h :
  is_Some (h !! p) → store_prev (Some p) v h = Some (alter (upd prev v) p h).
Proof.
  intros [n Hn]. unfold store_prev. cbn. rewrite Hn. cbn. f_equal.
  apply (insert_alter (upd prev v) _ _ _ Hn).
Qed.

(** Joining [x] with what follows, as seen from both sides. *)
Definition join x (y : option nat) h : heap V :=
  let h := alter (upd next y) x h in
  match y with None => h | Some y => alter (upd prev (Some x)) y h end.

(** Putting [p] between [x] and what follows, its own links being right. *)
Definition rejoin x p (y : option nat) h : heap V :=
  let h := alter (upd next (Some p)) x h in
  match y with None => h | Some y => alter (upd prev (Some p)) y h end.

Ltac node_cases :=
  repeat (rewrite lookup_alter_dec; case_decide); subst; try done.

Lemma join_data x (y : option nat) h : data <$> join x y h = data <$> h.
Proof.
  unfold join. apply list_eq. intros q. rewrite !list_lookup_fmap.
  destruct y; node_cases; by destruct (h !! _).
Qed.

Lemma join_ne x (y : option nat) h q : q ≠ x → y ≠ Some q → join x y h !! q = h !! q.
Proof. intros Hx Hy. unfold join. destruct y; node_cases. Qed.

Lemma length_join x (y : option nat) h : length (join x y h) = length h.
Proof. unfold join. destruct y; by rewrite ?length_alter. Qed.

(** The addresses of a list that lacks its element [p]. *)
Lemma lookup_without a x p b i q :
  (a ++ x :: b) !! i = Some q →
  (i <= length a)%nat ∧ (a ++ x :: p :: b) !! i = Some q
  ∨ (length a < i)%nat ∧ (a ++ x :: p :: b) !! S i = Some q.
Proof.
  intros Hi. destruct (decide (i <= length a)%nat) as [Hle|Hlt].
  - left. split; [done|]. destruct (decide (i = length a)) as [->|].
    + rewrite list_lookup_middle in Hi |- *; done.
    + rewrite lookup_app_l in Hi |- * by lia. done.
  - right. split; [lia|]. rewrite lookup_app_r in Hi |- * by lia.
    replace (i - length a)%nat with (S (i - length a - 1)) in Hi by lia.
    by replace (S i - length a)%nat with (S (S (i - length a - 1))) by lia.
Qed.

Lemma NoDup_without a x p b : NoDup (a ++ x :: p :: b) → NoDup (a ++ x :: b).
Proof.
  intros Hd. eapply sublist_NoDup; [exact Hd|].
  apply sublist_app; [done|]. apply sublist_skip, sublist_cons, reflexivity.
Qed.

(** Distinct neighbours. *)
Lemma NoDup_neighbours a x p b :
  NoDup (a ++ x :: p :: b) → x ≠ p ∧ head b ≠ Some p ∧ head b ≠ Some x.
Proof.
  intros Hd. apply NoDup_app in Hd as (_ & _ & Hd).
  apply NoDup_cons in Hd as [Hx Hd]. apply NoDup_cons in Hd as [Hp _].
  split_and!; destruct b; set_solver.
Qed.

Lemma NoDup_lookup_eq l i j q : NoDup l → l !! i = Some q → l !! j = Some q → i = j.
Proof. intros. by eapply NoDup_lookup. Qed.

(** The element after [x] in the shorter list. *)
Lemma lookup_after a x b : (a ++ x :: b) !! S (length a) = head b.
Proof.
  rewrite lookup_app_r by lia. replace (S (length a) - length a)%nat with 1%nat by lia. by destruct b.
Qed.

(** Joining, for the elements up to [x] and for those after it. *)
Lemma join_links_before h a x p b i q :
  linked h (a ++ x :: p :: b) → (i <= length a)%nat → (a ++ x :: b) !! i = Some q →
  ∃ n, join x (head b) h !! q = Some n ∧ next n = (a ++ x :: b) !! S i
    ∧ ∀ j, i = S j → prev n = (a ++ x :: b) !! j.
Proof.
  intros Hl Hle Hi. pose proof (linked_NoDup _ _ Hl) as Hd.
  pose proof (NoDup_neighbours _ _ _ _ Hd) as (Hxp & Hyp & Hyx).
  pose proof (NoDup_without _ _ _ _ Hd) as Hd'. pose proof (lookup_after a x b) as Hy. destruct Hl as [_ Hl].
  assert ((a ++ x :: b) !! length a = Some x) as Hx by by apply list_lookup_middle.
  destruct (lookup_without _ _ p _ _ _ Hi) as [[_ Hi']|[? _]]; [|lia].
  destruct (Hl _ _ Hi') as (n & Hn & Hnext & Hprev). destruct (decide (i = length a)) as [->|Hne].
  - assert (q = x) as -> by congruence.
    exists (n <| next := head b |>). split_and!.
    + unfold join. destruct (head b) as [y|]; node_cases; rewrite ?Hn; done || congruence.
    + cbn. by rewrite Hy.
    + intros j Hj. cbn. rewrite (Hprev _ Hj). rewrite !lookup_app_l by lia. done.
  - exists n. split_and!.
    + rewrite join_ne; [done| |].
      * intros ->. apply Hne. by eapply NoDup_lookup_eq.
      * rewrite <- Hy. intros Hq. assert (i = S (length a)); [|lia]. by eapply NoDup_lookup_eq.
    + rewrite Hnext. destruct (decide (S i = length a)) as [->|].
      * by rewrite Hx, list_lookup_middle.
      * rewrite !lookup_app_l by lia. done.
    + intros j Hj. rewrite (Hprev _ Hj), !lookup_app_l by lia. done.
Qed.

Lemma join_links_after h a x p b i q :
  linked h (a ++ x :: p :: b) → (length a < i)%nat → (a ++ x :: b) !! i = Some q →
  ∃ n, join x (head b) h !! q = Some n ∧ next n = (a ++ x :: b) !! S i
    ∧ ∀ j, i = S j → prev n = (a ++ x :: b) !! j.
Proof.
  intros Hl Hlt Hi. pose proof (linked_NoDup _ _ Hl) as Hd.
  pose proof (NoDup_neighbours _ _ _ _ Hd) as (Hxp & Hyp & Hyx).
  pose proof (NoDup_without _ _ _ _ Hd) as Hd'. pose proof (lookup_after a x b) as Hy. destruct Hl as [_ Hl].
  assert ((a ++ x :: b) !! length a = Some x) as Hx by by apply list_lookup_middle.
  destruct (lookup_without _ _ p _ _ _ Hi) as [[? _]|[_ Hi']]; [lia|].
  destruct (Hl _ _ Hi') as (n & Hn & Hnext & Hprev). destruct (decide (i = S (length a))) as [->|Hne].
  - rewrite Hy in Hi. exists (n <| prev := Some x |>). split_and!.
    + rewrite Hi. unfold join. node_cases; first [congruence|by rewrite Hn].
    + cbn. rewrite Hnext. rewrite !lookup_app_r by lia.
      replace (S (S (S (length a))) - length a)%nat with 3%nat by lia.
      by replace (S (S (length a)) - length a)%nat with 2%nat by lia.
    + intros j [= <-]. cbn. by rewrite Hx.
  - exists n. split_and!.
    + rewrite join_ne; [done| |].
      * intros ->. assert (i = length a); [|lia]. by eapply NoDup_lookup_eq.
      * rewrite <- Hy. intros Hq. apply Hne. by eapply NoDup_lookup_eq.
    + rewrite Hnext, !lookup_app_r by lia.
      replace (S (S i) - length a)%nat with (S (S (S (i - length a - 1)))) by lia.
      by replace (S i - length a)%nat with (S (S (i - length a - 1))) by lia.
    + intros j ->. rewrite (Hprev (S j)) by done.
      assert (∃ k, j = (length a + S k)%nat) as [k ->] by (exists (j - length a - 1)%nat; lia).
      rewrite !lookup_app_r by lia.
      replace (S (length a + S k) - length a)%nat with (S (S k)) by lia.
      by replace (length a + S k - length a)%nat with (S k) by lia.
Qed.

(** Joining over an element takes it out of the list. *)
Lemma linked_join h a x p b :
  linked h (a ++ x :: p :: b) → linked (join x (head b) h) (a ++ x :: b).
Proof.
  intros Hl. split; [by eapply NoDup_without, linked_NoDup|]. intros i q Hi.
  destruct (decide (i <= length a)%nat); [by eapply join_links_before|]. eapply join_links_after; [done|lia|done].
Qed.

(** Its own links still say where it was, so it can be put back exactly. *)
Lemma rejoin_join h a x p b :
  linked h (a ++ x :: p :: b) → rejoin x p (head b) (join x (head b) h) = h.
Proof.
  intros Hl. pose proof (linked_NoDup _ _ Hl) as Hd.
  pose proof (NoDup_neighbours _ _ _ _ Hd) as (Hxp & Hyp & Hyx).
  destruct (linked_next _ _ _ _ Hl) as (nx & Hnx & Hnext). cbn in Hnext.
  assert (∀ y, head b = Some y → ∃ ny, h !! y = Some ny ∧ prev ny = Some p) as Hy.
  { intros y Hy. destruct b as [|y' b]; [done|]. cbn in Hy. injection Hy as ->.
    destruct (linked_middle h (a ++ [x]) p y b) as (ny & ? & _ & ?); [by rewrite <- app_assoc|].
    by exists ny. }
  apply list_eq. intros q. unfold rejoin, join. destruct (head b) as [y|].
  - destruct (Hy y eq_refl) as (ny & Hny & Hprev). node_cases.
    + rewrite Hny. cbn. f_equal. destruct ny; cbn in *. by subst.
    + rewrite Hnx. cbn. f_equal. destruct nx; cbn in *. by subst.
  - node_cases. rewrite Hnx. cbn. f_equal. destruct nx; cbn in *. by subst.
Qed.

(** ** Lifting a call *)

(** Writing the neighbours of [p] so that they skip it. *)
Lemma unlink_run h a x p b n :
  linked h (a ++ x :: p :: b) → h !! p = Some n →
  ∃ h1, prev n = Some x ∧ next n = head b ∧ store_next (Some x) (head b) h = Some h1
    ∧ h1 !! p = Some n
    ∧ match head b with None => Some h1 | Some _ => store_prev (head b) (Some x) h1 end
      = Some (join x (head b) h)
    ∧ join x (head b) h !! p = Some n.
Proof.
  intros Hl Hn. pose proof (NoDup_neighbours _ _ _ _ (linked_NoDup _ _ Hl)) as (Hxp & Hyp & Hyx).
  destruct (linked_middle _ _ _ _ _ Hl) as (n0 & Hn0 & Hnext & Hprev).
  assert (n0 = n) as -> by congruence.
  assert (is_Some (h !! x)) as Hx by (destruct (linked_next _ _ _ _ Hl) as (? & ? & _); eauto).
  exists (alter (upd next (head b)) x h). split_and!; [done|done|by apply store_next_alter| | |].
  - by rewrite lookup_alter_dec, decide_False.
  - unfold join. destruct b as [|y b]; [done|]. cbn [head] in *.
    destruct (linked_middle h (a ++ [x]) p y b) as (ny & Hny & _); [by rewrite <- app_assoc|].
    rewrite store_prev_alter; [done|]. rewrite lookup_alter_dec, decide_False; [eauto|congruence].
  - by rewrite join_ne.
Qed.

(** Writing them back. *)
Lemma relink_run h a x p b n :
  linked h (a ++ x :: p :: b) → h !! p = Some n →
  ∃ h1, store_next (Some x) (Some p) (join x (head b) h) = Some h1 ∧ h1 !! p = Some n
    ∧ match head b with None => Some h1 | Some _ => store_prev (head b) (Some p) h1 end = Some h.
Proof.
  intros Hl Hn. pose proof (NoDup_neighbours _ _ _ _ (linked_NoDup _ _ Hl)) as (Hxp & Hyp & Hyx).
  pose proof (linked_join _ _ _ _ _ Hl) as Hl'.
  destruct (linked_next _ _ _ _ Hl') as (nx & Hnx & _).
  exists (alter (upd next (Some p)) x (join x (head b) h)). split_and!.
  - apply store_next_alter. eauto.
  - rewrite lookup_alter_dec, decide_False by done. by rewrite join_ne.
  - pose proof (rejoin_join _ _ _ _ _ Hl) as Hr. unfold rejoin in Hr.
    destruct b as [|y b]; cbn [head] in *; [by rewrite Hr|].
    destruct (linked_middle _ _ _ _ _ Hl') as (ny & Hny & _).
    rewrite store_prev_alter; [by rewrite Hr|]. rewrite lookup_alter_dec, decide_False; [eauto|congruence].
Qed.

(** The same list, seen from the element before the return [m]. *)
Lemma split_before_return a x c m b :
  ∃ a' x', a ++ x :: c ++ m :: b = a' ++ x' :: m :: b ∧ a' ++ x' :: b = a ++ x :: c ++ b.
Proof.
  destruct (exists_last (l := a ++ x :: c)) as (a' & x' & Ha'); [by destruct a|].
  exists a', x'. rewrite !app_comm_cons, !app_assoc. 
  change (a' ++ x' :: m :: b) with (a' ++ [x'] ++ m :: b). change (a' ++ x' :: b) with (a' ++ [x'] ++ b).
  by rewrite !app_assoc, <- Ha'.
Qed.

(** [entry] at [e], its return at [m] later in the list: [lift] takes both out,
    and [unlift] gives the heap back. *)
Lemma lift_unlift h a x e c m b n :
  linked h (a ++ x :: e :: c ++ m :: b) →
  h !! e = Some n → match_ n = Some m →
  ∃ h', lift e h = Some h' ∧ linked h' (a ++ x :: c ++ b)
    ∧ data <$> h' = data <$> h ∧ unlift e h' = Some h.
Proof.
  intros Hl Hn Hm. pose proof (linked_NoDup _ _ Hl) as Hd.
  assert (e ∉ a ++ x :: c ++ m :: b) as Hnotin.
  { apply NoDup_app in Hd as (_ & Ha & Hd). intros [He|He]%elem_of_app.
    - apply (Ha e He). rewrite !elem_of_cons. auto.
    - apply NoDup_cons in Hd as [Hx Hd]. apply NoDup_cons in Hd as [Hd _].
      apply elem_of_cons in He as [->|He]; [|done]. apply Hx. by left. }
  destruct (unlink_run _ _ _ _ _ _ Hl Hn) as (g1 & Hprev & Hnext & Hs1 & Hg1 & Hs2 & Hn1).
  destruct (relink_run _ _ _ _ _ _ Hl Hn) as (k1 & Hr1 & Hk1 & Hr2).
  pose proof (linked_join _ _ _ _ _ Hl) as Hl1.
  set (y := head (c ++ m :: b)) in *. set (h1 := join x y h) in *.
  assert (∃ y', y = Some y') as [y' Hy'] by (subst y; destruct c; cbn; eauto).
  destruct (split_before_return a x c m b) as (a' & x' & Heq1 & Heq2). rewrite Heq1 in Hl1, Hnotin.
  destruct (linked_middle _ _ _ _ _ Hl1) as (nm & Hnm & _).
  destruct (unlink_run _ _ _ _ _ _ Hl1 Hnm) as (g2 & Hmprev & Hmnext & Hs3 & Hg2 & Hs4 & Hnm2).
  destruct (relink_run _ _ _ _ _ _ Hl1 Hnm) as (k2 & Hr3 & Hk2 & Hr4).
  pose proof (linked_join _ _ _ _ _ Hl1) as Hl2. rewrite Heq2 in Hl2.
  set (h2 := join x' (head b) h1) in *.
  assert (h2 !! e = Some n) as Hn2.
  { unfold h2. rewrite join_ne; [done| |]; clear - Hnotin; [set_solver|]. destruct b; set_solver. }
  exists h2. split_and!; [|done| |].
  - unfold lift, load. rewrite Hn. cbn [mbind option_bind]. rewrite Hprev, Hnext, Hs1. cbn [mbind option_bind].
    rewrite Hg1. cbn [mbind option_bind]. rewrite Hprev, Hnext. rewrite Hy' in Hs2 |- *. rewrite Hs2.
    cbn [mbind option_bind]. rewrite Hn1. cbn [mbind option_bind]. rewrite Hm. cbn [mbind option_bind].
    rewrite Hnm. cbn [mbind option_bind]. rewrite Hmprev, Hmnext, Hs3. cbn [mbind option_bind].
    rewrite Hg2. cbn [mbind option_bind]. rewrite Hmnext, Hmprev. exact Hs4.
  - unfold h2, h1. by rewrite !join_data.
  - unfold unlift, load. rewrite Hn2. cbn [mbind option_bind]. rewrite Hm. cbn [mbind option_bind].
    rewrite Hnm2. cbn [mbind option_bind]. rewrite Hmprev, Hr3. cbn [mbind option_bind].
    rewrite Hk2. cbn [mbind option_bind]. rewrite Hmnext, Hr4. cbn [mbind option_bind].
    rewrite Hn1. cbn [mbind option_bind]. rewrite Hprev, Hr1. cbn [mbind option_bind].
    rewrite Hk1. cbn [mbind option_bind]. rewrite Hnext. by rewrite Hy' in Hr2 |- *.
Qed.

(** ** Building the list *)

(** A list whose first node has no predecessor. *)
Definition front h l : Prop :=
  linked h l ∧ ∀ r n, head l = Some r → h !! r = Some n → prev n = None.

Lemma linked_lt h l p : linked h l → p ∈ l → (p < length h)%nat.
Proof.
  intros [_ Hl] [i Hi]%list_elem_of_lookup. destruct (Hl _ _ Hi) as (n & Hn & _).
  by eapply lookup_lt_Some.
Qed.

Lemma insertBefore_front h l n :
  front h l → next n = None → prev n = None →
  ∃ h', insertBefore (length h) (head l) (h ++ [n]) = Some h' ∧ front h' (length h :: l)
    ∧ data <$> h' = (data <$> h) ++ [data n].
Proof.
  intros [Hl Hf] Hnext Hprev. assert (length h ∉ l) as Hnew.
  { intros Hin%(linked_lt _ _ _ Hl). lia. }
  assert ((h ++ [n]) !! length h = Some n) as Hn by by apply list_lookup_middle.
  destruct l as [|r l]; cbn [head].
  { exists (h ++ [n]). split_and!; [done| |by rewrite fmap_app].
    split; [|intros ? ? [= <-]; congruence]. split; [apply NoDup_singleton|].
    intros [|i] p Hp; [|done]. injection Hp as <-. exists n. split_and!; [done..|]. by intros j. }
  destruct (linked_next h [] r l Hl) as (nr & Hnr & Hnr').
  pose proof (lookup_lt_Some _ _ _ Hnr) as Hlt.
  assert (r ≠ length h) as Hne by lia.
  assert ((h ++ [n]) !! r = Some nr) as Hnr1 by by rewrite lookup_app_l.
  set (h' := alter (upd next (Some r)) (length h) (alter (upd prev (Some (length h))) r (h ++ [n]))).
  exists h'. split_and!.
  - unfold insertBefore, load. cbn [mbind option_bind]. rewrite Hnr1. cbn [mbind option_bind]. rewrite (Hf r nr) by done.
    rewrite store_prev_alter by done. cbn [mbind option_bind].
    rewrite store_next_alter; [done|]. rewrite lookup_alter_dec, decide_False; done.
  - split; [split|].
    + apply NoDup_cons. split; [done|]. by eapply linked_NoDup.
    + intros [|i] p Hp; cbn in Hp.
      * injection Hp as <-. exists (n <| next := Some r |>). split_and!; [|done|by intros j].
        unfold h'. rewrite !lookup_alter_dec, decide_True, decide_False, Hn by done. done.
      * destruct Hl as [Hd Hl]. destruct (Hl i p Hp) as (np & Hnp & Hnp1 & Hnp2).
        pose proof (lookup_lt_Some _ _ _ Hnp) as Hltp.
        assert ((h ++ [n]) !! p = Some np) as Hnp' by by rewrite lookup_app_l.
        destruct (decide (r = p)) as [<-|Hrp].
        -- assert (i = 0%nat) as -> by (eapply NoDup_lookup; [exact Hd|exact Hp|done]).
           exists (np <| prev := Some (length h) |>). split_and!; [|done|].
           ++ unfold h'. rewrite !lookup_alter_dec, decide_False, decide_True, Hnp' by (done || lia). done.
           ++ by intros j [= <-].
        -- exists np. split_and!; [|done|].
           ++ unfold h'. rewrite !lookup_alter_dec, !decide_False by (done || lia). done.
           ++ intros j [= <-]. destruct i as [|i]; [|by apply Hnp2].
              cbn in Hp. congruence.
    + intros ? n' [= <-]. unfold h'. rewrite !lookup_alter_dec, decide_True, decide_False, Hn by done.
      cbn. by intros [= <-].
  - change [data n] with (data <$> [n]). rewrite <- (fmap_app data h [n]). unfold h'. apply list_eq. intros q.
    rewrite !list_lookup_fmap, !lookup_alter_dec. repeat case_decide; try done; by destruct ((h ++ [n]) !! q).
Qed.

(** The address of entry [i] of [k]: they are made from the last to the first. *)
Fixpoint addresses (k : nat) : list nat :=
  match k with O => [] | S k => k :: addresses k end.

(** [match] after the entries [es]: the first return of each id. *)
Fixpoint matches_of (es : list (entry V)) : gmap Z nat :=
  match es with
  | [] => ∅
  | e :: es =>
      match kind e with
      | returnEntry => <[id e := length es]> (matches_of es)
      | callEntry => matches_of es
      end
  end.

(** What the nodes of the entries [es] hold, by address. *)
Fixpoint datas_of (es : list (entry V)) : list (V * option nat * Z) :=
  match es with
  | [] => []
  | e :: es =>
      datas_of es ++ [(value e, match kind e with
                                | returnEntry => None
                                | callEntry => matches_of es !! id e end, id e)]
  end.

Lemma length_datas_of es : length (datas_of es) = length es.
Proof. induction es as [|e es IH]; [done|]. cbn. rewrite length_app, IH. cbn. lia. Qed.

Lemma link_all_spec (es : list (entry V)) :
  ∃ h, link_all es = Some (head (addresses (length es)), h, matches_of es)
    ∧ front h (addresses (length es)) ∧ data <$> h = datas_of es.
Proof.
  induction es as [|e es (h & IH & Hf & Hd)].
  { exists []. split_and!; [done| |done]. split; [|done]. split; [apply NoDup_nil_2|done]. }
  assert (length h = length es) as Hlen.
  { rewrite <- (length_datas_of es), <- Hd. by rewrite length_fmap. }
  cbn [link_all]. rewrite IH. cbn [mbind option_bind]. unfold link.
  destruct (kind e) eqn:Hk.
  - destruct (insertBefore_front h _ (mkNode (value e) (matches_of es !! id e) (id e) None None) Hf)
      as (h' & Hi & Hf' & Hd'); [done..|].
    rewrite Hi. cbn. rewrite Hk, Hlen in *. exists h'. split_and!; [done|done|].
    rewrite Hd', Hd. done.
  - destruct (insertBefore_front h _ (mkNode (value e) None (id e) None None) Hf)
      as (h' & Hi & Hf' & Hd'); [done..|].
    rewrite Hi. cbn. rewrite Hk, Hlen in *. exists h'. split_and!; [done|done|].
    rewrite Hd', Hd. done.
Qed.

(** [length] counts the nodes. *)
Lemma node_length_spec h l a k :
  linked h (a ++ l) → (length l <= k)%nat →
  ∀ z, node_length k h (head l) z = Returned (z + len l).
Proof.
  revert a k. induction l as [|p l IH]; intros a k Hl Hk z.
  { destruct k; cbn; f_equal; unfold len; cbn; lia. }
  destruct k as [|k]; cbn in Hk; [lia|]. destruct (linked_next _ _ _ _ Hl) as (n & Hn & Hnext).
  cbn. rewrite Hn, Hnext. rewrite (IH (a ++ [p])).
  - f_equal. rewrite len_cons. lia.
  - by rewrite <- app_assoc.
  - lia.
Qed.

Lemma length_addresses k : length (addresses k) = k.
Proof. induction k; cbn; congruence. Qed.
End Linked.
