(* ===== verification/PorcupinePaths.v ===== *)
(** * PorcupinePaths: what the checker searches for

    An item is an entry with the address of its node.  [completable rs st] says
    that the operations whose entries are the items [rs] can be executed from
    state [st], each one before the first return of the rest; [path] is the same
    from the other end.  The file relates both to [makeLinkedEntries]. *)
From Stdlib Require Import ZArith Lia.
From stdpp Require Import base gmap option list.
From S2P Require Import Prelude Bitset Porcupine PorcupineHeap.
#[local] Open Scope Z_scope.

Section Items.
Context {V : Type} `{Interface V}.
Abbreviation item := (nat * entry V)%type.
Implicit Types (rs a b : list item) (x y c r : item).

Definition is_call x : Prop := kind x.2 = callEntry.
Definition is_return x : Prop := kind x.2 = returnEntry.
#[export] Instance is_call_dec x : Decision (is_call x) := decide (kind x.2 = callEntry).

Lemma is_call_or_return x : is_call x ∨ is_return x.
Proof. unfold is_call, is_return. destruct (kind x.2); auto. Qed.

Lemma not_call_and_return x : is_call x → is_return x → False.
Proof. unfold is_call, is_return. congruence. Qed.

(** The entries of the other operations. *)
Definition without (i : Z) rs : list item := filter (λ x, id x.2 ≠ i) rs.

(** Every operation has one call and, later, one return. *)
Record paired rs : Prop := {
  paired_keys : NoDup ((λ x, (id x.2, kind x.2)) <$> rs);
  paired_call : ∀ a c b, rs = a ++ c :: b → is_call c →
    ∃ r, r ∈ b ∧ id r.2 = id c.2 ∧ is_return r;
  paired_return : ∀ a r b, rs = a ++ r :: b → is_return r →
    ∃ c, c ∈ a ∧ id c.2 = id r.2 ∧ is_call c
}.

Lemma filter_split (P : item → Prop) `{∀ x, Decision (P x)} rs a x b :
  filter P rs = a ++ x :: b →
  ∃ a1 b1, rs = a1 ++ x :: b1 ∧ filter P a1 = a ∧ filter P b1 = b ∧ P x.
Proof.
  revert a. induction rs as [|y rs IH]; intros a Hf; [by destruct a|].
  rewrite filter_cons in Hf. case_decide as Hy.
  - destruct a as [|y' a]; cbn in Hf.
    + injection Hf as -> Hf. exists [], rs. done.
    + injection Hf as -> Hf. destruct (IH _ Hf) as (a1 & b1 & -> & Ha & Hb & Hx).
      exists (y' :: a1), b1. split_and!; [done| |done|done].
      rewrite filter_cons, decide_True by done. by rewrite Ha.
  - destruct (IH _ Hf) as (a1 & b1 & -> & Ha & Hb & Hx).
    exists (y :: a1), b1. split_and!; [done| |done|done].
    by rewrite filter_cons, decide_False.
Qed.

Lemma paired_without i rs : paired rs → paired (without i rs).
Proof.
  intros [Hk Hc Hr]. split.
  - eapply sublist_NoDup; [exact Hk|]. apply fmap_sublist. apply sublist_filter.
  - intros a c b (a1 & b1 & Heq & <- & <- & Hi)%filter_split Hcall.
    destruct (Hc _ _ _ Heq Hcall) as (r & Hin & He & Hret). exists r. split; [|done].
    apply list_elem_of_filter. by rewrite He.
  - intros a r b (a1 & b1 & Heq & <- & <- & Hi)%filter_split Hret.
    destruct (Hr _ _ _ Heq Hret) as (c & Hin & He & Hcall). exists c. split; [|done].
    apply list_elem_of_filter. by rewrite He.
Qed.

Lemma paired_inj rs x y :
  paired rs → x ∈ rs → y ∈ rs → id x.2 = id y.2 → kind x.2 = kind y.2 → x = y.
Proof.
  intros [Hk _ _] [i Hi]%list_elem_of_lookup [j Hj]%list_elem_of_lookup He Hkd.
  assert (i = j) as ->; [|congruence].
  eapply NoDup_lookup; [exact Hk|rewrite list_lookup_fmap, Hi; reflexivity|].
  rewrite list_lookup_fmap, Hj. cbn. by rewrite He, Hkd.
Qed.

Lemma without_id i rs : (∀ x, x ∈ rs → id x.2 ≠ i) → without i rs = rs.
Proof.
  intros Hi. unfold without. induction rs as [|x rs IH]; [done|].
  rewrite filter_cons, decide_True by (apply Hi; left). f_equal. apply IH.
  intros y Hy. apply Hi. by right.
Qed.

(** Taking a call and its return out. *)
Lemma paired_split rs a c b :
  paired rs → rs = a ++ c :: b → is_call c →
  ∃ b1 r b2, b = b1 ++ r :: b2 ∧ id r.2 = id c.2 ∧ is_return r
    ∧ without (id c.2) rs = a ++ b1 ++ b2.
Proof.
  intros Hp -> Hc. destruct (paired_call _ Hp _ _ _ eq_refl Hc) as (r & Hin & He & Hr).
  apply list_elem_of_split in Hin as (b1 & b2 & ->). exists b1, r, b2. split_and!; [done..|].
  pose proof (NoDup_fmap_1 _ _ (paired_keys _ Hp)) as Hd.
  assert (∀ x, x ∈ a ∨ x ∈ b1 ∨ x ∈ b2 → id x.2 ≠ id c.2) as Hother.
  { intros x Hx Heq.
    assert (x ∈ a ++ c :: b1 ++ r :: b2) as Hx' by (rewrite !elem_of_app, !elem_of_cons, elem_of_app, elem_of_cons; tauto).
    assert (c ∈ a ++ c :: b1 ++ r :: b2) as Hc' by (rewrite elem_of_app, elem_of_cons; tauto).
    assert (r ∈ a ++ c :: b1 ++ r :: b2) as Hr'
      by (rewrite elem_of_app, elem_of_cons, elem_of_app, elem_of_cons; tauto).
    assert (x = c ∨ x = r) as Hxc.
    { destruct (is_call_or_return x) as [Hx1|Hx1]; [left|right];
        eapply paired_inj; eauto; unfold is_call, is_return in *; congruence. }
    apply NoDup_app in Hd as (_ & Ha & Hd). apply NoDup_cons in Hd as [Hcn Hd].
    apply NoDup_app in Hd as (_ & Hb1 & Hd). apply NoDup_cons in Hd as [Hrn _].
    set_solver. }
  unfold without. rewrite !filter_app, !filter_cons, decide_False by (intros Hn; by apply Hn).
  rewrite filter_app, filter_cons, decide_False by (intros Hn; by apply Hn).
  f_equal; [|f_equal]; apply without_id; intros x Hx; apply Hother; auto.
Qed.

(** ** Complete and partial linearizations *)
Context {State : Type} (model : Model V State).

(** The operation of [c] may be executed next: no return is before its call. *)
Inductive takes rs (st : State) (i : Z) (st' : State) : Prop :=
  takes_intro a c b r :
    rs = a ++ c :: b → Forall is_call a → is_call c → id c.2 = i →
    r ∈ rs → id r.2 = i → is_return r →
    Step model st (value c.2) (value r.2) = Some (true, st') →
    takes rs st i st'.

Inductive completable : list item → State → Prop :=
  | completable_nil st : completable [] st
  | completable_cons rs st i st' :
      takes rs st i st' → completable (without i rs) st' → completable rs st.

(** Executing the operations [ids], in this order, leaves the items [rs]. *)
Inductive path (all : list item) : list Z → list item → State → Prop :=
  | path_nil : path all [] all (Init model)
  | path_snoc ids rs st i st' :
      path all ids rs st → takes rs st i st' → path all (ids ++ [i]) (without i rs) st'.

Lemma path_paired all ids rs st : paired all → path all ids rs st → paired rs.
Proof. intros Hp. induction 1; [done|]. by apply paired_without. Qed.

Lemma path_sub all ids rs st x : path all ids rs st → x ∈ rs → x ∈ all.
Proof.
  induction 1 as [|ids rs st i st' Hp IH Ht]; [done|].
  intros [_ Hx]%list_elem_of_filter. auto.
Qed.

(** States the model cannot tell apart by [Equal]. *)
Class EqualLaws (same : State → State → bool) : Prop := {
  Equal_field : Equal model = Some same;
  Equal_step : ∀ s t i o s', same s t = true → Step model s i o = Some (true, s') →
    ∃ t', Step model t i o = Some (true, t') ∧ same s' t' = true
}.

Lemma completable_Equal `{!EqualLaws same} rs s t :
  completable rs s → same s t = true → completable rs t.
Proof.
  intros Hc. revert t. induction Hc as [|rs s i s' Ht _ IH]; intros t He; [constructor|].
  destruct Ht as [a c b r Hrs Ha Hcall Hi Hr Hri Hret Hstep].
  destruct (Equal_step _ _ _ _ _ He Hstep) as (t' & Hstep' & He').
  econstructor; [by econstructor|]. by apply IH.
Qed.

Lemma without_length i rs x : x ∈ rs → id x.2 = i → (length (without i rs) < length rs)%nat.
Proof.
  intros Hx Hi. unfold without. induction rs as [|y rs IH]; [by apply not_elem_of_nil in Hx|].
  rewrite filter_cons. pose proof (length_filter (λ z : item, id z.2 ≠ i) rs) as Hl.
  case_decide as Hy; cbn; [|lia]. apply elem_of_cons in Hx as [<-|Hx]; [done|].
  specialize (IH Hx). lia.
Qed.
End Items.

(** ** The items of a history *)
Section Table.
Context {V : Type} `{Interface V}.
Abbreviation item := (nat * entry V)%type.
Implicit Types (es : list (entry V)) (D : list (V * option nat * Z)).

Fixpoint items es : list item :=
  match es with [] => [] | e :: es => (length es, e) :: items es end.

Lemma items_addresses es : (items es).*1 = addresses (length es).
Proof. induction es; cbn; congruence. Qed.

Lemma items_entries es : (items es).*2 = es.
Proof. induction es; cbn; congruence. Qed.

(** What each node holds: its value and id, and the return of a call. *)
Record table (all : list item) D : Prop := {
  table_call : ∀ p e, (p, e) ∈ all → kind e = callEntry →
    ∃ q r, (q, r) ∈ all ∧ id r = id e ∧ kind r = returnEntry
      ∧ D !! p = Some (value e, Some q, id e);
  table_return : ∀ p e, (p, e) ∈ all → kind e = returnEntry →
    D !! p = Some (value e, None, id e)
}.

Lemma items_split es p e :
  (p, e) ∈ items es →
  ∃ es1 es2 a, es = es1 ++ e :: es2 ∧ p = length es2 ∧ items es = a ++ (p, e) :: items es2.
Proof.
  induction es as [|e' es IH]; intros Hin; [by apply not_elem_of_nil in Hin|].
  apply elem_of_cons in Hin as [[= -> ->]|Hin].
  - exists [], es, []. done.
  - destruct (IH Hin) as (es1 & es2 & a & -> & -> & Heq).
    exists (e' :: es1), es2, ((length (es1 ++ e :: es2), e') :: a). split_and!; [done|done|].
    cbn. by rewrite Heq.
Qed.

Lemma datas_of_lookup es1 e es2 :
  datas_of (es1 ++ e :: es2) !! length es2
  = Some (value e, match kind e with
                   | returnEntry => None
                   | callEntry => matches_of es2 !! id e end, id e).
Proof.
  induction es1 as [|x es1 IH]; cbn.
  - rewrite lookup_app_r by (rewrite length_datas_of; lia).
    by rewrite length_datas_of, Nat.sub_diag.
  - rewrite lookup_app_l; [done|]. rewrite length_datas_of, length_app. cbn. lia.
Qed.

Lemma matches_of_items es i q :
  matches_of es !! i = Some q → ∃ r, (q, r) ∈ items es ∧ id r = i ∧ kind r = returnEntry.
Proof.
  induction es as [|e es IH]; cbn; [by rewrite lookup_empty|].
  intros Hm. destruct (kind e) eqn:Hk.
  - destruct (IH Hm) as (r & Hr & ?). exists r. split; [by right|done].
  - destruct (decide (id e = i)) as [He|He].
    + subst i. rewrite lookup_insert_eq in Hm. injection Hm as <-. exists e. split; [by left|done].
    + rewrite lookup_insert_ne in Hm by done. destruct (IH Hm) as (r & Hr & ?).
      exists r. split; [by right|done].
Qed.

Lemma matches_of_is_Some es q r :
  (q, r) ∈ items es → kind r = returnEntry → is_Some (matches_of es !! id r).
Proof.
  induction es as [|e es IH]; cbn; [by intros ?%not_elem_of_nil|].
  intros [[= -> ->]|Hin]%elem_of_cons Hr.
  - rewrite Hr, lookup_insert_eq. by eexists.
  - destruct (kind e); [by apply IH|]. destruct (decide (id e = id r)) as [->|He].
    + rewrite lookup_insert_eq. by eexists.
    + rewrite lookup_insert_ne by done. by apply IH.
Qed.

Lemma table_of es d : paired (items es) → table (items es) (datas_of es ++ [d]).
Proof.
  intros Hp. split; intros p e Hin Hk;
    destruct (items_split _ _ _ Hin) as (es1 & es2 & a & Hes & Hpe & Heq).
  - destruct (paired_call _ Hp _ _ _ Heq Hk) as ([q' r'] & Hr & Hid & Hret). cbn in *.
    destruct (matches_of_is_Some _ _ _ Hr Hret) as [q Hq]. rewrite Hid in Hq.
    destruct (matches_of_items _ _ _ Hq) as (r & Hr2 & Hid2 & Hret2).
    exists q, r. split_and!; [|done|done|].
    + rewrite Heq. apply elem_of_app. right. by right.
    + rewrite lookup_app_l.
      * by rewrite Hpe, Hes, datas_of_lookup, Hk, Hq.
      * rewrite length_datas_of, Hpe, Hes, length_app. cbn. lia.
  - rewrite lookup_app_l.
    + by rewrite Hpe, Hes, datas_of_lookup, Hk.
    + rewrite length_datas_of, Hpe, Hes, length_app. cbn. lia.
Qed.
End Table.
