(* ===== verification/PorcupineSearch.v ===== *)
(** * PorcupineSearch: the loop of [checkSingle]

    One pass of the loop either moves on, executes a call or takes the last one
    back.  [explore] shows that from any point of the search the loop reaches
    the empty list of entries, when the rest can be completed, or else the first
    return, with the cache recording only positions from which it cannot. *)
From Stdlib Require Import ZArith Lia.
From stdpp Require Import base gmap option relations list.
From S2P Require Import Prelude Bitset Porcupine PorcupineHeap PorcupinePaths.
#[local] Open Scope Z_scope.

Section Search.
Context {V State : Type} `{Interface V, Printable V, Printable State, EqDecision State, TimeSorter V}.
Context (model : Model V State) (same : State → State → bool) `{!EqualLaws model same}.
Context (all : list (nat * entry V)) (D : list (V * option nat * Z)) (hd n : nat).
Context (computePartial : bool).
Context (Hpaired : paired all) (Htable : table all D).
Context (Hids : ∀ x, x ∈ all → 0 <= id x.2 < Z.of_nat n).
Context (Htotal : ∀ c r, c ∈ all → r ∈ all → id c.2 = id r.2 → is_call c → is_return r →
  ∀ st, is_Some (Step model st (value c.2) (value r.2))).
Implicit Types (s : search V State) (rs : list (nat * entry V)) (L : bitset) (st : State) (ids : list Z) (h : heap V).

(** ** The linearized operations *)

(** The items a bitset leaves. *)
Definition remaining L : list (nat * entry V) := filter (λ x, member L (id x.2) = false) all.

Definition sized L : Prop := wf L ∧ length L = length (newBitset (Z.of_nat n)).

Lemma sized_room L x : sized L → x ∈ all → room L (id x.2).
Proof.
  intros [_ Hl] Hx. destruct (newBitset_spec (Z.of_nat n) ltac:(lia)) as (_ & Hr & _).
  specialize (Hr _ (Hids _ Hx)). unfold room, len in *. by rewrite Hl.
Qed.

Lemma sized_set L x :
  sized L → x ∈ remaining L →
  ∃ L', set (id x.2) L = Some L' ∧ sized L' ∧ clear (id x.2) L' = Some L
    ∧ remaining L' = without (id x.2) (remaining L).
Proof.
  intros HL Hx. apply list_elem_of_filter in Hx as [Hm Hx].
  pose proof (sized_room _ _ HL Hx) as Hr. destruct HL as [Hw Hl].
  destruct (set_spec _ _ Hw Hr) as (L' & Hs & Hw' & Hl' & Hmem).
  exists L'. split_and!; [done|split; [done|congruence]| |].
  - pose proof (clear_undoes_set _ _ Hw Hr Hm) as Hc. by rewrite Hs in Hc.
  - unfold remaining, without. rewrite list_filter_filter. apply filter_ext_in. intros y Hin.
    rewrite Hmem by (apply sized_room; [by split|done]).
    rewrite orb_false_iff, bool_decide_eq_false. naive_solver.
Qed.

(** ** The invariant of the search *)

(** No cached position that is done with can be completed. *)
Definition dead (ce : cacheEntry State) : Prop :=
  ¬ completable model (remaining (ce_linearized ce)) (ce_state ce).

(** The recorded slices are linearizations, each of the operation it is recorded for. *)
Definition seqs_ok (sq : list (list Z)) (lg : list (option nat)) : Prop :=
  length lg = n ∧ (∀ l, l ∈ sq → ∃ rs st, path model all l rs st)
  ∧ ∀ i q, lg !! i = Some (Some q) → ∃ l, sq !! q = Some l ∧ Z.of_nat i ∈ l.

Record ok rs ids (anc : list (cacheEntry State)) s : Prop := {
  ok_linked : linked (nodes s) (hd :: rs.*1);
  ok_data : data <$> nodes s = D;
  ok_sized : sized (linearized s);
  ok_rs : rs = remaining (linearized s);
  ok_calls : call_ids (nodes s) (calls s) = Some ids;
  ok_path : path model all ids rs (state s);
  ok_cache : ∀ k ce, ce ∈ cache_at (cache s) k → dead ce ∨ ce ∈ anc;
  ok_anc : ∀ ce, ce ∈ anc → (length rs <= length (remaining (ce_linearized ce)))%nat;
  ok_seqs : seqs_ok (seqs s) (longest s)
}.

Lemma ok_sub rs ids anc s x : ok rs ids anc s → x ∈ rs → x ∈ all.
Proof. intros Hok. by eapply path_sub, ok_path. Qed.

Lemma ok_paired rs ids anc s : ok rs ids anc s → paired rs.
Proof. intros Hok. eapply path_paired; [done|by eapply ok_path]. Qed.

(** The position of the cursor does not matter. *)
Lemma ok_cur rs ids anc s p : ok rs ids anc s → ok rs ids anc (s <| cur := p |>).
Proof. by intros []. Qed.

(** The node of an item. *)
Lemma node_at h p e :
  data <$> h = D → (p, e) ∈ all →
  ∃ nd, h !! p = Some nd ∧ nvalue nd = value e ∧ nid nd = id e
    ∧ (kind e = returnEntry → match_ nd = None)
    ∧ (kind e = callEntry → ∃ q r, match_ nd = Some q ∧ (q, r) ∈ all ∧ id r = id e ∧ kind r = returnEntry).
Proof.
  intros <- Hin. destruct (kind e) eqn:Hk.
  - destruct (table_call _ _ Htable _ _ Hin Hk) as (q & r & Hq & Hid & Hr & Hd).
    rewrite list_lookup_fmap in Hd. apply fmap_Some in Hd as (nd & Hnd & [= Hv Hm Hi]).
    exists nd. split_and!; [done..|]. intros _. by exists q, r.
  - pose proof (table_return _ _ Htable _ _ Hin Hk) as Hd.
    rewrite list_lookup_fmap in Hd. apply fmap_Some in Hd as (nd & Hnd & [= Hv Hm Hi]).
    exists nd. split_and!; done.
Qed.

Lemma call_ids_data h h' (cs : list (callsEntry State)) : data <$> h = data <$> h' → call_ids h (State := State) cs = call_ids h' cs.
Proof.
  intros Hd. unfold call_ids. apply mapM_ext. intros v.
  assert ((data <$> h) !! c_entry v = (data <$> h') !! c_entry v) as Hv by by rewrite Hd.
  rewrite !list_lookup_fmap in Hv. unfold data in Hv.
  destruct (h !! c_entry v), (h' !! c_entry v); cbn in *; congruence.
Qed.

Lemma call_ids_snoc h (cs : list (callsEntry State)) ids v nd :
  call_ids h cs = Some ids → h !! c_entry v = Some nd →
  call_ids h (cs ++ [v]) = Some (ids ++ [nid nd]).
Proof.
  revert ids. unfold call_ids. induction cs as [|v' cs IH]; intros ids Hc Hv; cbn in *.
  - injection Hc as <-. by rewrite Hv.
  - destruct (h !! c_entry v') as [n'|]; cbn in *; [|done].
    destruct (mapM _ cs) as [ids'|] eqn:Hm; cbn in *; [|done]. injection Hc as <-.
    by rewrite (IH _ eq_refl Hv).
Qed.

Lemma path_ids ids rs st i : path model all ids rs st → i ∈ ids → ∃ x, x ∈ all ∧ id x.2 = i.
Proof.
  induction 1 as [|ids rs st j st' Hp IH Ht]; [by intros ?%not_elem_of_nil|].
  intros [Hi|Hi]%elem_of_app; [by apply IH|]. apply list_elem_of_singleton in Hi as ->.
  destruct Ht as [a c b r Hrs Ha Hc Hci Hr Hri Hret Hs]. exists r. split; [|done].
  by eapply path_sub.
Qed.

(** ** The cache *)
Lemma equals_eq b1 b2 : equals b1 b2 = true ↔ b1 = b2.
Proof.
  unfold equals, len. case_decide as Hl.
  - split; [done|]. intros ->. done.
  - apply equals_from_spec. lia.
Qed.

Lemma cacheContains_spec C ce :
  ∃ found, cacheContains model C ce = Some found ∧
    (found = true → ∃ k ce', ce' ∈ cache_at C k ∧ ce_linearized ce' = ce_linearized ce
                      ∧ same (ce_state ce) (ce_state ce') = true).
Proof.
  unfold cacheContains. set (k := hash (ce_linearized ce)).
  assert (∀ l, l ⊆ cache_at C k → ∃ found, cacheContains_loop model l ce = Some found ∧
    (found = true → ∃ ce', ce' ∈ cache_at C k ∧ ce_linearized ce' = ce_linearized ce
                      ∧ same (ce_state ce) (ce_state ce') = true)) as Hloop.
  { induction l as [|ce' l IH]; intros Hsub; cbn; [by exists false|].
    destruct IH as (found & Hf & Hs); [set_solver|].
    destruct (equals _ _) eqn:He; [|by exists found].
    unfold call_Equal. rewrite (Equal_field model (same := same)). cbn.
    destruct (same _ _) eqn:Hsame; [|by exists found].
    exists true. split; [done|]. intros _. exists ce'. split_and!; [set_solver| |done].
    symmetry. by apply equals_eq. }
  destruct (Hloop (cache_at C k)) as (found & Hf & Hs); [done|].
  exists found. split; [done|]. naive_solver.
Qed.

Lemma cache_at_insert C k ce k' :
  cache_at (<[k := cache_at C k ++ [ce]]> C) k'
  = if decide (k = k') then cache_at C k' ++ [ce] else cache_at C (State := State) k'.
Proof.
  unfold cache_at. case_decide as Hk; [subst; by rewrite lookup_insert_eq|by rewrite lookup_insert_ne].
Qed.

(** ** One pass *)

(** A pass that goes on, to a state whose recorded slices are linearizations. *)
Definition step s s' : Prop :=
  iteration model hd computePartial false s = Some (Continue s') ∧ seqs_ok (seqs s') (longest s').

Lemma head_node rs ids anc s :
  ok rs ids anc s → ∃ nd, nodes s !! hd = Some nd ∧ next nd = head rs.*1.
Proof. intros Hok. by apply (linked_next (nodes s) [] hd (rs.*1)), (ok_linked _ _ _ _ Hok). Qed.

(** An item in the middle of what is left, with what follows it. *)
Lemma item_node rs ids anc s pre p e todo :
  ok rs ids anc s → rs = pre ++ (p, e) :: todo →
  ∃ nd, nodes s !! p = Some nd ∧ next nd = head todo.*1 ∧ nvalue nd = value e ∧ nid nd = id e
    ∧ (kind e = returnEntry → match_ nd = None)
    ∧ (kind e = callEntry → ∃ q r, match_ nd = Some q ∧ (q, r) ∈ all ∧ id r = id e ∧ kind r = returnEntry).
Proof.
  intros Hok ->. pose proof (ok_linked _ _ _ _ Hok) as Hl. rewrite fmap_app in Hl. cbn in Hl.
  destruct (linked_next (nodes s) (hd :: pre.*1) p (todo.*1) Hl) as (nd & Hnd & Hnext).
  destruct (node_at (nodes s) p e) as (nd' & Hnd' & Hrest).
  - by eapply ok_data.
  - eapply ok_sub; [done|]. apply elem_of_app. right. by left.
  - assert (nd' = nd) as -> by congruence. exists nd. tauto.
Qed.

(** The loop goes on as long as something is left. *)
Lemma iteration_open rs ids anc s p nd :
  ok rs ids anc s → rs ≠ [] → cur s = Some p → nodes s !! p = Some nd →
  iteration model hd computePartial false s =
    match match_ nd with
    | Some m => s ← try_call model hd p m s; Some (Continue s)
    | None =>
        match last (calls s) with
        | None => Some (Return_ false s)
        | Some callsTop => s ← backtrack computePartial callsTop s; Some (Continue s)
        end
    end.
Proof.
  intros Hok Hne Hcur Hnd. destruct (head_node _ _ _ _ Hok) as (nh & Hnh & Hnext).
  unfold iteration. rewrite Hnh. cbn. rewrite Hnext. destruct rs as [|x rs]; [done|]. cbn.
  rewrite Hcur. cbn. by rewrite Hnd.
Qed.

Lemma advance_eq s p nd :
  cur s = Some p → nodes s !! p = Some nd → advance s = Some (s <| cur := next nd |>).
Proof. intros Hc Hn. unfold advance, load. rewrite Hc. cbn. by rewrite Hn. Qed.

(** Lifting an item out of what is left. *)
Lemma lift_item rs ids anc s pre p e todo :
  ok rs ids anc s → rs = pre ++ (p, e) :: todo → is_call (p, e) →
  ∃ h nh, lift p (nodes s) = Some h ∧ linked h (hd :: (without (id e) rs).*1)
    ∧ data <$> h = D ∧ unlift p h = Some (nodes s)
    ∧ h !! hd = Some nh ∧ next nh = head (without (id e) rs).*1.
Proof.
  intros Hok Hrs Hc.
  destruct (item_node _ _ _ _ _ _ _ _ Hok Hrs) as (nd & Hnd & _ & _ & _ & _ & Hm).
  destruct (Hm Hc) as (q & r & Hq & Hr & Hrid & Hret).
  destruct (paired_split rs pre (p, e) todo (ok_paired _ _ _ _ Hok) Hrs Hc)
    as (b1 & [q' r'] & b2 & Htodo & Hrid' & Hret' & Hwo). cbn [snd] in *.
  assert ((q', r') ∈ rs) as Hin'.
  { rewrite Hrs, Htodo. apply elem_of_app. right. right. apply elem_of_app. right. by left. }
  assert ((q', r') = (q, r)) as [= -> ->].
  { apply (paired_inj all); [done|by eapply ok_sub|done|cbn; congruence|unfold is_return in *; cbn in *; congruence]. }
  destruct (exists_last (l := hd :: pre.*1)) as (a & x & Hax); [done|].
  pose proof (ok_linked _ _ _ _ Hok) as Hl.
  assert (hd :: rs.*1 = a ++ x :: p :: b1.*1 ++ q :: b2.*1) as Heq.
  { rewrite Hrs, Htodo, fmap_app, fmap_cons, fmap_app, fmap_cons.
    rewrite app_comm_cons, Hax, <- app_assoc. done. }
  assert (hd :: (without (id e) rs).*1 = a ++ x :: b1.*1 ++ b2.*1) as Heq'.
  { rewrite Hwo, !fmap_app, app_comm_cons, Hax, <- app_assoc. done. }
  rewrite Heq in Hl.
  destruct (lift_unlift _ _ _ _ _ _ _ _ Hl Hnd Hq) as (h & Hlift & Hlh & Hdh & Hun).
  rewrite <- Heq' in Hlh. destruct (linked_next h [] _ _ Hlh) as (nh & Hnh & Hnext).
  exists h, nh. split_and!; try done. rewrite Hdh. by eapply ok_data.
Qed.

Lemma takes_step rs st p e q r st' :
  paired rs → (p, e) ∈ rs → (q, r) ∈ rs → is_call (p, e) → is_return (q, r) → id r = id e →
  takes model rs st (id e) st' → Step model st (value e) (value r) = Some (true, st').
Proof.
  intros Hp Hpe Hqr Hc Hr Hid [a c b r2 Hrs Ha Hcall Hci Hr2 Hri Hret Hstep].
  assert (c = (p, e)) as ->.
  { apply (paired_inj rs); [done| |done|done|unfold is_call in *; congruence].
    rewrite Hrs. apply elem_of_app. right. by left. }
  assert (r2 = (q, r)) as ->.
  { apply (paired_inj rs); [done|done|done|cbn; congruence|unfold is_return in *; congruence]. }
  done.
Qed.

(** The state in which the call of [e] at [p] was executed. *)
Definition pushed (p : nat) (e : entry V) st' s1 s : Prop :=
  calls s1 = calls s ++ [mkCallsEntry p (state s)] ∧ state s1 = st'
  ∧ unlift p (nodes s1) = Some (nodes s) ∧ clear (id e) (linearized s1) = Some (linearized s).

(** Executing a call keeps the invariant; the new position joins the ancestors. *)
Lemma push_ok rs ids anc s p e nd L' st' h k :
  ok rs ids anc s → (p, e) ∈ rs → nodes s !! p = Some nd → nid nd = id e →
  takes model rs (state s) (id e) st' →
  sized L' → remaining L' = without (id e) (remaining (linearized s)) →
  linked h (hd :: (without (id e) rs).*1) → data <$> h = D →
  ok (without (id e) rs) (ids ++ [id e]) (mkCacheEntry L' st' :: anc)
    (mkSearch h (head (without (id e) rs).*1) L'
       (<[k := cache_at (cache s) k ++ [mkCacheEntry L' st']]> (cache s))
       (calls s ++ [mkCallsEntry p (state s)]) st' (seqs s) (longest s)).
Proof.
  intros Hok Hpe Hnd Hnid Ht HL' Hrem Hl Hd.
  pose proof (without_length (id e) rs (p, e) Hpe eq_refl) as Hlt.
  split; cbn [nodes cur linearized cache calls state seqs longest]; try done.
  - rewrite Hrem. by rewrite <- (ok_rs _ _ _ _ Hok).
  - rewrite (call_ids_data h (nodes s)) by (by rewrite Hd, (ok_data _ _ _ _ Hok)).
    rewrite <- Hnid. by apply call_ids_snoc; [eapply ok_calls|].
  - econstructor; [|done]. by eapply ok_path.
  - intros k' ce. rewrite cache_at_insert. case_decide.
    + intros [Hin| ->%list_elem_of_singleton]%elem_of_app.
      * destruct (ok_cache _ _ _ _ Hok _ _ Hin); [by left|right; by right].
      * right. by left.
    + intros Hin. destruct (ok_cache _ _ _ _ Hok _ _ Hin); [by left|right; by right].
  - intros ce [->|Hin]%elem_of_cons; cbn.
    + rewrite Hrem, <- (ok_rs _ _ _ _ Hok). lia.
    + pose proof (ok_anc _ _ _ _ Hok _ Hin). lia.
  - by eapply ok_seqs.
Qed.

(** A cached position cannot be completed: it is not one of the ancestors. *)
Lemma cached_dead rs ids anc s p e L' st' k ce :
  ok rs ids anc s → (p, e) ∈ rs →
  remaining L' = without (id e) (remaining (linearized s)) →
  ce ∈ cache_at (cache s) k → ce_linearized ce = L' → same st' (ce_state ce) = true →
  ¬ completable model (without (id e) rs) st'.
Proof.
  intros Hok Hpe Hrem Hin Hlin Hsame Hcomp.
  pose proof (without_length (id e) rs (p, e) Hpe eq_refl) as Hlt.
  rewrite <- (ok_rs _ _ _ _ Hok) in Hrem.
  destruct (ok_cache _ _ _ _ Hok _ _ Hin) as [Hdead|Hanc].
  - apply Hdead. rewrite Hlin, Hrem. by eapply completable_Equal.
  - pose proof (ok_anc _ _ _ _ Hok _ Hanc) as Hle. rewrite Hlin, Hrem in Hle. lia.
Qed.

(** The return of a call that is left is left too. *)
Lemma return_left rs ids anc s pre p e todo q r :
  ok rs ids anc s → rs = pre ++ (p, e) :: todo → is_call (p, e) →
  (q, r) ∈ all → id r = id e → is_return (q, r) → (q, r) ∈ rs.
Proof.
  intros Hok Hrs Hc Hq Hrid Hret. pose proof (ok_paired _ _ _ _ Hok) as Hp.
  destruct (paired_call _ Hp _ _ _ Hrs Hc) as (r' & Hin & Hid' & Hr').
  assert (r' ∈ rs) by (rewrite Hrs; apply elem_of_app; right; by right).
  assert (r' = (q, r)) as <-; [|done].
  apply (paired_inj all); [done|by eapply ok_sub|done|cbn in *; congruence|].
  unfold is_return in *. cbn in *. congruence.
Qed.

(** Trying a call: it is passed over, which is right, or executed. *)
Lemma try_call_spec rs ids anc s pre p e todo :
  ok rs ids anc s → rs = pre ++ (p, e) :: todo → Forall is_call pre → is_call (p, e) →
  cur s = Some p →
  (step s (s <| cur := head todo.*1 |>) ∧
    ∀ st', takes model rs (state s) (id e) st' → ¬ completable model (without (id e) rs) st') ∨
  (∃ st' s1 ce, step s s1 ∧ takes model rs (state s) (id e) st'
    ∧ (∀ st2, takes model rs (state s) (id e) st2 → st2 = st')
    ∧ ok (without (id e) rs) (ids ++ [id e]) (ce :: anc) s1
    ∧ (dead ce ↔ ¬ completable model (without (id e) rs) st')
    ∧ pushed p e st' s1 s ∧ cur s1 = head (without (id e) rs).*1).
Proof.
  intros Hok Hrs Hpre Hc Hcur.
  destruct (item_node _ _ _ _ _ _ _ _ Hok Hrs) as (nd & Hnd & Hnext & Hval & Hid & _ & Hm).
  destruct (Hm Hc) as (q & r & Hq & Hr & Hrid & Hret).
  assert (rs ≠ []) as Hne by (rewrite Hrs; by destruct pre).
  assert ((p, e) ∈ rs) as Hpe by (rewrite Hrs; apply elem_of_app; right; by left).
  pose proof (ok_paired _ _ _ _ Hok) as Hp.
  assert ((q, r) ∈ rs) as Hqr by by eapply return_left.
  destruct (node_at (nodes s) q r (ok_data _ _ _ _ Hok) Hr) as (nq & Hnq & Hvq & _).
  destruct (Htotal (p, e) (q, r)) with (st := state s) as [[b st'] Hstep];
    [by eapply ok_sub|done|done|done|done|]. cbn [snd] in Hstep.
  pose proof (ok_rs _ _ _ _ Hok) as Hrem0.
  destruct (sized_set (linearized s) (p, e)) as (L' & Hset & HL' & Hclear & Hrem);
    [by eapply ok_sized|by rewrite <- Hrem0|]. cbn [snd] in *.
  assert (∀ st2, takes model rs (state s) (id e) st2 → b = true ∧ st2 = st') as Htakes.
  { intros st2 Ht. pose proof (takes_step _ _ _ _ _ _ _ Hp Hpe Hqr Hc Hret Hrid Ht). split; congruence. }
  unfold step. rewrite (iteration_open rs ids anc s p nd) by done. rewrite Hq.
  unfold try_call. rewrite Hnd, Hnq. cbn [mbind option_bind]. rewrite Hval, Hvq, Hstep. cbn [mbind option_bind].
  rewrite (advance_eq s p nd), Hnext by done.
  pose proof (ok_seqs _ _ _ _ Hok) as Hseqs.
  destruct b; [|left; split; [by split|]; intros st2 Ht; by destruct (Htakes _ Ht)].
  rewrite Hid. unfold clone. rewrite Hset. cbn [mbind option_bind].
  destruct (cacheContains_spec (cache s) (mkCacheEntry L' st')) as (found & Hf & Hfound).
  rewrite Hf. cbn [mbind option_bind]. destruct found.
  - left. split; [by split|]. intros st2 Ht. destruct (Htakes _ Ht) as [_ ->].
    destruct (Hfound eq_refl) as (k & ce & Hin & Hlin & Hsame). by eapply cached_dead.
  - right. destruct (lift_item _ _ _ _ _ _ _ _ Hok Hrs Hc)
      as (h & nh & Hlift & Hlh & Hdh & Hun & Hnh & Hhead).
    assert (takes model rs (state s) (id e) st') as Ht by by econstructor.
    exists st', (mkSearch h (head (without (id e) rs).*1) L'
      (<[hash L' := cache_at (cache s) (hash L') ++ [mkCacheEntry L' st']]> (cache s))
      (calls s ++ [mkCallsEntry p (state s)]) st' (seqs s) (longest s)), (mkCacheEntry L' st').
    split_and!; [|done|done| | | | |].
    + change (linearized (_ <| state := st' |>)) with (linearized s). rewrite Hset.
      cbn [mbind option_bind nodes upd upd_linearized upd_state upd_calls upd_cache].
      rewrite Hlift. cbn [mbind option_bind]. rewrite Hnh. cbn [mbind option_bind].
      rewrite Hhead. reflexivity.
    + intros st2 Ht2. by destruct (Htakes _ Ht2).
    + by eapply push_ok.
    + unfold dead. cbn. rewrite Hrem. by rewrite <- Hrem0.
    + by split_and!.
    + done.
Qed.

(** ** Taking a call back *)
Lemma call_ids_elem h cs ids (v : callsEntry State) :
  call_ids h cs = Some ids → v ∈ cs → ∃ nd, h !! c_entry v = Some nd ∧ nid nd ∈ ids.
Proof.
  intros Hc [i Hi]%list_elem_of_lookup. apply mapM_Some_1 in Hc.
  destruct (Forall2_lookup_l _ _ _ _ _ Hc Hi) as (z & Hz & Hv).
  destruct (h !! c_entry v) as [nd|]; [|done]. injection Hv as <-.
  exists nd. split; [done|]. by eapply list_elem_of_lookup_2.
Qed.

Lemma seqs_ok_snoc sq lg ids rs st :
  seqs_ok sq lg → path model all ids rs st → seqs_ok (sq ++ [ids]) lg.
Proof.
  intros (Hl & Hs & Hp) Hpath. split_and!; [done| |].
  - intros l [Hin| ->%list_elem_of_singleton]%elem_of_app; [by apply Hs|by exists rs, st].
  - intros i q Hi. destruct (Hp _ _ Hi) as (l & Hq & Hin). exists l. split; [|done].
    by apply lookup_app_l_Some.
Qed.

Lemma seqs_ok_record sq lg i q ids :
  seqs_ok sq lg → sq !! q = Some ids → i ∈ ids → 0 <= i →
  seqs_ok sq (<[Z.to_nat i := Some q]> lg).
Proof.
  intros (Hl & Hs & Hp) Hq Hi Hpos. split_and!; [by rewrite length_insert|done|].
  intros j q' [(<- & [= <-] & _)|[_ Hj]]%list_lookup_insert_Some; [|by apply Hp].
  exists ids. by rewrite Z2Nat.id.
Qed.

Lemma record_longest_ok h (cs todo : list (callsEntry State)) ids rs st seq sq lg :
  data <$> h = D → call_ids h cs = Some ids → path model all ids rs st →
  (∀ v, v ∈ todo → v ∈ cs) → (∀ q, seq = Some q → sq !! q = Some ids) → seqs_ok sq lg →
  ∃ sq' lg', record_longest h cs todo seq sq lg = Some (sq', lg') ∧ seqs_ok sq' lg'.
Proof.
  intros Hd Hc Hpath. revert seq sq lg.
  induction todo as [|v todo IH]; intros seq sq lg Hsub Hseq Hok; cbn; [by eauto|].
  assert (∀ v, v ∈ todo → v ∈ cs) as Hsub' by (intros; apply Hsub; by right).
  destruct (call_ids_elem _ _ _ v Hc) as (nd & Hnd & Hin); [apply Hsub; left|].
  rewrite Hnd. cbn.
  destruct (path_ids _ _ _ _ Hpath Hin) as (x & Hx & Hxi). pose proof (Hids _ Hx) as Hrange.
  rewrite Hxi in Hrange. pose proof Hok as (Hlen & Hs & Hp).
  destruct (at_index_lt lg (nid nd)) as [old Hold]; [unfold len; lia|]. rewrite Hold. cbn.
  apply at_index_Some in Hold as [_ Hold].
  assert (∃ better : bool, match old with
     | None => Some true
     | Some q => l ← sq !! q; Some (bool_decide (len l < len cs)) end = Some better) as [better Hb].
  { destruct old as [q|]; [|by exists true]. destruct (Hp _ _ Hold) as (l & Hl & _). rewrite Hl. by eexists. }
  rewrite Hb. cbn. destruct better; [|by apply IH].
  destruct seq as [q|]; cbn.
  - apply IH; [done|by intros ? [= <-]; apply Hseq|]. eapply seqs_ok_record; [done|by apply Hseq|done|lia].
  - rewrite Hc. cbn. assert ((sq ++ [ids]) !! length sq = Some ids) as Hq by by apply list_lookup_middle.
    apply IH; [done|by intros ? [= <-]|].
    eapply seqs_ok_record; [by eapply seqs_ok_snoc|done|done|lia].
Qed.

Lemma backtrack_spec rs ids anc s1 p e st cs h0 L0 nd :
  ok rs ids anc s1 → calls s1 = cs ++ [mkCallsEntry p st] →
  unlift p (nodes s1) = Some h0 → clear (id e) (linearized s1) = Some L0 →
  (p, e) ∈ all → h0 !! p = Some nd →
  ∃ sq lg, backtrack computePartial (mkCallsEntry p st) s1
      = Some (mkSearch h0 (next nd) L0 (cache s1) cs st sq lg) ∧ seqs_ok sq lg.
Proof.
  intros Hok Hcs Hun Hcl Hin Hnd.
  assert (∃ sq lg, (if computePartial then
      '(sq, lg) ← record_longest (nodes s1) (calls s1) (calls s1) None (seqs s1) (longest s1);
      Some (s1 <| seqs := sq |> <| longest := lg |>) else Some s1)
      = Some (s1 <| seqs := sq |> <| longest := lg |>) ∧ seqs_ok sq lg) as (sq & lg & Hrec & Hsq).
  { destruct computePartial.
    - destruct (record_longest_ok (nodes s1) (calls s1) (calls s1) ids rs (state s1) None (seqs s1) (longest s1))
        as (sq & lg & Hr & Hsq); [by eapply ok_data|by eapply ok_calls|by eapply ok_path|done|done|by eapply ok_seqs|].
      exists sq, lg. by rewrite Hr.
    - exists (seqs s1), (longest s1). split; [by destruct s1|by eapply ok_seqs]. }
  exists sq, lg. split; [|done]. unfold backtrack. rewrite Hrec. cbn [mbind option_bind].
  destruct (node_at (nodes s1) p e (ok_data _ _ _ _ Hok) Hin) as (n1 & Hn1 & _ & Hid & _).
  change (nodes (_ <| state := _ |>)) with (nodes s1). cbn [c_entry]. rewrite Hn1. cbn [mbind option_bind].
  change (linearized (_ <| state := _ |>)) with (linearized s1). rewrite Hid, Hcl. cbn [mbind option_bind].
  change (nodes (_ <| calls := _ |>)) with (nodes s1). rewrite Hun. cbn [mbind option_bind].
  rewrite (advance_eq _ p nd); [|done|done].
  transitivity (Some (mkSearch h0 (next nd) L0 (cache s1) (removelast (calls s1)) st sq lg)); [done|].
  by rewrite Hcs, removelast_last.
Qed.

(** ** The whole search *)

(** The operations tried so far do not lead to the end. *)
Definition tried rs st (pre : list (nat * entry V)) : Prop :=
  ∀ x st', x ∈ pre → takes model rs st (id x.2) st' → ¬ completable model (without (id x.2) rs) st'.

(** At the first return, nothing is left to try. *)
Lemma stuck rs st pre x todo :
  rs = pre ++ x :: todo → is_return x → tried rs st pre → ¬ completable model rs st.
Proof.
  intros Hrs Hx Ht Hc. inversion Hc as [?|? ? i st' Htakes Hrest]; subst; [by destruct pre|].
  pose proof Htakes as [a c b r Heq Ha Hcall Hci Hr Hri Hret Hs].
  assert (c ∈ pre) as Hin.
  { destruct (decide (length a < length pre)%nat) as [Hlt|Hge].
    - assert ((pre ++ x :: todo) !! length a = Some c) as Hl by (rewrite Heq; by apply list_lookup_middle).
      rewrite lookup_app_l in Hl by done. by eapply list_elem_of_lookup_2.
    - exfalso. assert ((a ++ c :: b) !! length pre = Some x) as Hl by (rewrite <- Heq; by apply list_lookup_middle).
      destruct (decide (length pre = length a)) as [He|].
      + rewrite He, list_lookup_middle in Hl by done. injection Hl as ->. by eapply not_call_and_return.
      + rewrite lookup_app_l in Hl by lia.
        pose proof (Forall_lookup_1 _ _ _ _ Ha Hl). by eapply not_call_and_return. }
  subst i. by eapply Ht.
Qed.

(** Where the loop gets to. *)
Definition succeeds rs st s : Prop :=
  ∃ ids anc s', rtc step s s' ∧ ok [] ids anc s' ∧ completable model rs st.

Definition fails rs ids anc s : Prop :=
  ∃ s' pre x todo, rtc step s s' ∧ ok rs ids anc s' ∧ nodes s' = nodes s ∧ linearized s' = linearized s
    ∧ calls s' = calls s ∧ state s' = state s
    ∧ rs = pre ++ x :: todo ∧ is_return x ∧ cur s' = Some x.1 ∧ ¬ completable model rs (state s).

Lemma succeeds_trans rs st s s1 : rtc step s s1 → succeeds rs st s1 → succeeds rs st s.
Proof.
  intros Hs (ids & anc & s' & Hs' & Hok & Hc). exists ids, anc, s'. split; [by etrans|]. tauto.
Qed.

(** The frame a search returns to. *)
Definition same_frame s1 s : Prop :=
  nodes s1 = nodes s ∧ linearized s1 = linearized s ∧ calls s1 = calls s ∧ state s1 = state s.

Lemma fails_trans rs ids anc s s1 :
  rtc step s s1 → same_frame s1 s → fails rs ids anc s1 → fails rs ids anc s.
Proof.
  intros Hs (H1' & H2' & H3' & H4') (s' & pre & x & todo & Hs' & Hok & Hn & Hl & Hc & Hst & Hrest).
  exists s', pre, x, todo. rewrite <- H1', <- H2', <- H3', <- H4'.
  split; [by etrans|]. tauto.
Qed.

(** Returning from the search below an executed call. *)
Lemma return_from rs ids anc s pre p e todo s1 st' ce :
  ok rs ids anc s → rs = pre ++ (p, e) :: todo → without (id e) rs ≠ [] →
  (dead ce ↔ ¬ completable model (without (id e) rs) st') →
  pushed p e st' s1 s → fails (without (id e) rs) (ids ++ [id e]) (ce :: anc) s1 →
  ∃ s3, rtc step s1 s3 ∧ ok rs ids anc s3 ∧ same_frame s3 s ∧ cur s3 = head todo.*1.
Proof.
  intros Hok Hrs Hne Hdead (Hcalls & Hst & Hun & Hcl)
    (s2 & pre2 & x2 & todo2 & Hs2 & Hok2 & Hn2 & Hl2 & Hc2 & Hst2 & Hrs2 & Hx2 & Hcur2 & Hnot).
  assert ((p, e) ∈ rs) as Hpe by (rewrite Hrs; apply elem_of_app; right; by left).
  destruct (item_node _ _ _ _ _ _ _ _ Hok Hrs) as (nd & Hnd & Hnext & _).
  destruct x2 as [p2 e2].
  destruct (item_node _ _ _ _ _ _ _ _ Hok2 Hrs2) as (nd2 & Hnd2 & _ & _ & _ & Hmatch & _).
  rewrite <- Hn2 in Hun. rewrite <- Hl2 in Hcl. rewrite <- Hc2 in Hcalls.
  destruct (backtrack_spec _ _ _ s2 p e (state s) (calls s) (nodes s) (linearized s) nd Hok2 Hcalls Hun Hcl)
    as (sq & lg & Hback & Hsq); [exact (ok_sub _ _ _ _ _ Hok Hpe)|done|].
  exists (mkSearch (nodes s) (next nd) (linearized s) (cache s2) (calls s) (state s) sq lg).
  split; [|split; [|split; [|exact Hnext]]].
  - etrans; [exact Hs2|]. apply rtc_once. unfold step.
    rewrite (iteration_open _ _ _ s2 p2 nd2 Hok2 Hne Hcur2 Hnd2), Hmatch by done.
    rewrite Hcalls, last_snoc. cbn. rewrite Hback. by split.
  - split; cbn [nodes cur linearized cache calls state seqs longest];
      [by eapply ok_linked|by eapply ok_data|by eapply ok_sized|by eapply ok_rs|by eapply ok_calls
      |by eapply ok_path| |by eapply ok_anc|done].
    intros k ce' Hin. destruct (ok_cache _ _ _ _ Hok2 _ _ Hin) as [?|[->|?]%elem_of_cons];
      [by left|left; apply Hdead; by rewrite <- Hst|by right].
  - done.
Qed.

Lemma tried_snoc rs st pre x :
  tried rs st pre →
  (∀ st', takes model rs st (id x.2) st' → ¬ completable model (without (id x.2) rs) st') →
  tried rs st (pre ++ [x]).
Proof.
  intros Ht Hx y st' [Hy| ->%list_elem_of_singleton]%elem_of_app; [by apply Ht|by apply Hx].
Qed.

Lemma explore_todo rs :
  (∀ rs', (length rs' < length rs)%nat → rs' ≠ [] → ∀ ids anc s, ok rs' ids anc s →
     cur s = head rs'.*1 → succeeds rs' (state s) s ∨ fails rs' ids anc s) →
  rs ≠ [] → ∀ todo pre ids anc s, ok rs ids anc s → rs = pre ++ todo → Forall is_call pre →
  tried rs (state s) pre → cur s = head todo.*1 →
  succeeds rs (state s) s ∨ fails rs ids anc s.
Proof.
  intros IHrs Hne todo. induction todo as [|[p e] todo IH]; intros pre ids anc s Hok Hrs Hpre Htried Hcur.
  { exfalso. rewrite app_nil_r in Hrs. subst pre.
    destruct (exists_last Hne) as (pre & c & Hlast).
    assert (is_call c) as Hc.
    { rewrite Forall_forall in Hpre. apply Hpre. rewrite Hlast. apply elem_of_app. right. by left. }
    destruct (paired_call _ (ok_paired _ _ _ _ Hok) _ _ _ Hlast Hc) as (r & Hr & _).
    by apply not_elem_of_nil in Hr. }
  assert (rs = (pre ++ [(p, e)]) ++ todo) as Hrs' by by rewrite <- app_assoc.
  destruct (is_call_or_return (p, e)) as [Hc|Hr].
  2:{ right. exists s, pre, (p, e), todo. split_and!; try done. by eapply stuck. }
  assert (Forall is_call (pre ++ [(p, e)])) as Hpre' by (apply Forall_app; split; [done|by apply Forall_singleton]).
  destruct (try_call_spec _ _ _ _ _ _ _ _ Hok Hrs Hpre Hc Hcur)
    as [[Hstep Hno]|(st' & s1 & ce & Hstep & Htakes & Huniq & Hok1 & Hdead & Hpushed & Hcur1)].
  - (* passed over *)
    destruct (IH (pre ++ [(p, e)]) ids anc (s <| cur := head todo.*1 |>)) as [Hs|Hf];
      [by apply ok_cur|done|done|by apply tried_snoc|done| |].
    + left. eapply succeeds_trans; [by apply rtc_once|done].
    + right. eapply fails_trans; [by apply rtc_once|done|done].
  - (* executed *)
    assert (state s1 = st') as Hst by apply Hpushed.
    assert (completable model (without (id e) rs) st' → completable model rs (state s)) as Hcomp
      by (intros; by econstructor).
    destruct (decide (without (id e) rs = [])) as [Hw|Hw].
    { left. rewrite Hw in Hok1. eexists _, _, s1. split_and!; [by apply rtc_once|done|].
      apply Hcomp. rewrite Hw. constructor. }
    destruct (IHrs (without (id e) rs)) with (ids := ids ++ [id e]) (anc := ce :: anc) (s := s1)
      as [Hs|Hf]; [|done|done|done| |].
    { apply without_length with (x := (p, e)); [|done]. rewrite Hrs. apply elem_of_app. right. by left. }
    + left. eapply succeeds_trans; [by apply rtc_once|].
      destruct Hs as (ids' & anc' & s' & Hs' & Hok' & Hc'). rewrite Hst in Hc'.
      exists ids', anc', s'. auto.
    + assert (¬ completable model (without (id e) rs) st') as Hnot.
      { destruct Hf as (? & ? & ? & ? & ? & ? & ? & ? & ? & ? & ? & ? & ? & Hn). by rewrite Hst in Hn. }
      destruct (return_from _ _ _ _ _ _ _ _ _ _ _ Hok Hrs Hw Hdead Hpushed Hf)
        as (s3 & Hs3 & Hok3 & Hframe & Hcur3).
      assert (state s3 = state s) as Hst3 by apply Hframe.
      destruct (IH (pre ++ [(p, e)]) ids anc s3) as [Hs|Hf3]; [done|done|done| |done| |].
      { rewrite Hst3. apply tried_snoc; [done|]. cbn. intros st2 Ht2. by rewrite (Huniq _ Ht2). }
      * left. rewrite Hst3 in Hs. eapply succeeds_trans; [|done]. by eapply rtc_l.
      * right. eapply fails_trans; [|exact Hframe|done]. by eapply rtc_l.
Qed.

Lemma explore rs ids anc s :
  rs ≠ [] → ok rs ids anc s → cur s = head rs.*1 →
  succeeds rs (state s) s ∨ fails rs ids anc s.
Proof.
  revert ids anc s. induction rs as [rs IH] using (induction_ltof1 _ length).
  intros ids anc s Hne Hok Hcur. eapply (explore_todo rs) with (pre := []) (todo := rs); try done.
  - intros rs' Hlt Hne' ids' anc' s'. by apply IH.
  - intros x st' Hx. by apply not_elem_of_nil in Hx.
Qed.
End Search.
