(* ===== verification/PorcupineCheck.v ===== *)
(** * PorcupineCheck: [checkSingle] decides whether a history can be completed

    For a history in which every id has one call and, later, one return, the
    checker neither indexes out of range nor follows a [nil] pointer, its search
    ends, and it returns true exactly when the calls can be executed in an order
    that puts none of them after the return of a later one. *)
From Stdlib Require Import ZArith Lia.
From stdpp Require Import base gmap option relations list.
From S2P Require Import Prelude Bitset Porcupine PorcupineHeap PorcupinePaths PorcupineSearch.
#[local] Open Scope Z_scope.

Section Check.
Context {V State : Type} `{Interface V, Printable V, Printable State, EqDecision State, TimeSorter V}.
Implicit Types (model : Model V State) (s : search V State) (es : list (entry V)).

(** ** Fuel *)
Lemma checkLoop_fuel model hd computePartial kill fuel i s r k :
  checkLoop model hd computePartial kill fuel i s = Returned r → (fuel <= k)%nat →
  checkLoop model hd computePartial kill k i s = Returned r.
Proof.
  revert i s k. induction fuel as [|fuel IH]; intros i s k Hr Hk; [done|].
  destruct k as [|k]; [lia|]. cbn in *.
  destruct (iteration _ _ _ _ s) as [[s'|b s']|]; [|done|done]. apply IH; [done|lia].
Qed.

Lemma checkLoop_rtc model all hd n computePartial s s' b s2 :
  rtc (step model all hd n computePartial) s s' →
  iteration model hd computePartial false s' = Some (Return_ b s2) →
  ∃ k, ∀ i, checkLoop model hd computePartial never_killed k i s = Returned (b, s2).
Proof.
  intros Hs Hret. induction Hs as [s|s s1 s' [Hstep _] _ IH].
  - exists 1%nat. intros i. cbn [checkLoop]. change (never_killed i) with false. by rewrite Hret.
  - destruct (IH Hret) as [k Hk]. exists (S k). intros i. cbn [checkLoop].
    change (never_killed i) with false. by rewrite Hstep.
Qed.

Lemma iteration_killed model hd computePartial s b s' :
  iteration model hd computePartial true s = Some (Return_ b s') →
  iteration model hd computePartial false s = Some (Return_ b s') ∨ (b = false ∧ s' = s).
Proof.
  unfold iteration. destruct (nodes s !! hd) as [nh|]; cbn; [|done].
  destruct (next nh); [|by left]. intros [= <- <-]. by right.
Qed.

Lemma iteration_killed_returns model hd computePartial s x :
  iteration model hd computePartial true s = Some x → ∃ b s', x = Return_ b s'.
Proof.
  unfold iteration. destruct (nodes s !! hd) as [nh|]; cbn; [|done].
  destruct (next nh); [intros [= <-]; eauto|]. destruct (finish s); cbn; [intros [= <-]; eauto|done].
Qed.

(** However it is told to stop, the loop ends where it would have, or on the way
    there. *)
Lemma checkLoop_any model all hd n computePartial kill s s' b s2 :
  rtc (step model all hd n computePartial) s s' →
  iteration model hd computePartial false s' = Some (Return_ b s2) →
  seqs_ok model all n (seqs s) (longest s) →
  ∀ fuel i r s3, checkLoop model hd computePartial kill fuel i s = Returned (r, s3) →
    (r = b ∧ s3 = s2) ∨ (r = false ∧ seqs_ok model all n (seqs s3) (longest s3)).
Proof.
  intros Hs Hret. induction Hs as [s|s s1 s' [Hstep Hok1] _ IH]; intros Hok [|fuel] i r s3 Hc; try done;
    cbn [checkLoop] in Hc; destruct (kill i).
  - destruct (iteration _ _ _ true s) as [x|] eqn:Hx; [|done].
    destruct (iteration_killed_returns _ _ _ _ _ Hx) as (b' & s4 & ->). injection Hc as <- <-.
    destruct (iteration_killed _ _ _ _ _ _ Hx) as [Hx'|[-> ->]]; [left|by right].
    rewrite Hret in Hx'. by injection Hx' as <- <-.
  - rewrite Hret in Hc. injection Hc as <- <-. by left.
  - destruct (iteration _ _ _ true s) as [x|] eqn:Hx; [|done].
    destruct (iteration_killed_returns _ _ _ _ _ Hx) as (b' & s4 & ->). injection Hc as <- <-.
    destruct (iteration_killed _ _ _ _ _ _ Hx) as [Hx'|[-> ->]]; [|by right].
    by rewrite Hstep in Hx'.
  - rewrite Hstep in Hc. by eapply IH.
Qed.

(** A goroutine that is told to stop ends no later. *)
Lemma checkLoop_killed model hd computePartial kill fuel i s r :
  checkLoop model hd computePartial never_killed fuel i s = Returned r →
  ∃ r', checkLoop model hd computePartial kill fuel i s = Returned r'.
Proof.
  revert i s. induction fuel as [|fuel IH]; intros i s Hr; [done|]. cbn [checkLoop] in *.
  change (never_killed i) with false in Hr. destruct (kill i); [|destruct (iteration _ _ _ false s) as [[s'|b s']|];
    [by apply IH|by eexists|done]].
  unfold iteration in Hr |- *.
  destruct (nodes s !! hd) as [nh|]; cbn in *; [|done].
  destruct (next nh); [by eexists|]. destruct (finish s); cbn in *; [by eexists|done].
Qed.

(** ** The state before the loop *)

(** A history the checker is meant for. *)
Record well_formed es : Prop := {
  wf_paired : paired (items es);
  wf_ids : ∀ e, e ∈ es → 0 <= id e < Z.quot (len es) 2
}.

(** Step does not panic on what the history holds. *)
Definition steps_on model es : Prop :=
  ∀ c r, c ∈ es → r ∈ es → id c = id r → kind c = callEntry → kind r = returnEntry →
  ∀ st, is_Some (Step model st (value c) (value r)).

Definition bits_of es : nat := Z.to_nat (Z.quot (len es) 2).
Definition table_of_history es : list (V * option nat * Z) := datas_of es ++ [(nil_value, None, -1)].

Lemma remaining_new (all : list (nat * entry V)) k : remaining all (newBitset (Z.of_nat k)) = all.
Proof.
  unfold remaining. destruct (newBitset_spec (Z.of_nat k) ltac:(lia)) as (_ & _ & Hm).
  induction all as [|x all IH]; [done|].
  rewrite filter_cons, decide_True by apply Hm. by rewrite IH.
Qed.

Lemma init_search_spec model es :
  ∃ s, init_search model es = Returned (length es, s)
    ∧ ok model (items es) (table_of_history es) (length es) (bits_of es) (items es) [] [] s
    ∧ cur s = head (items es).*1 ∧ calls s = [] ∧ state s = Init model.
Proof.
  destruct (link_all_spec es) as (h & Hlink & Hf & Hd).
  assert (length h = length es) as Hlen
    by (rewrite <- (length_datas_of es), <- Hd; by rewrite length_fmap).
  unfold init_search, makeLinkedEntries. rewrite Hlink. cbn [mbind option_bind].
  rewrite (node_length_spec h (addresses (length es)) [] (length h)); cbn [outcome_bind];
    [|apply Hf|rewrite length_addresses; lia].
  replace (0 + len (addresses (length es))) with (len es)
    by (unfold len; rewrite length_addresses; lia).
  destruct (insertBefore_front h _ (mkNode nil_value None (-1) None None) Hf)
    as (h' & Hins & [Hl _] & Hd'); [done..|].
  rewrite Hins. rewrite Hlen in *. eexists. split; [reflexivity|].
  assert (Z.of_nat (bits_of es) = Z.quot (len es) 2) as Hbits.
  { unfold bits_of. apply Z2Nat.id. apply Z.quot_pos; [apply len_nonneg|lia]. }
  split; [|by rewrite items_addresses]. rewrite <- Hbits.
  split; cbn [nodes cur linearized cache calls state seqs longest].
  - by rewrite items_addresses.
  - by rewrite Hd', Hd.
  - split; [|done]. apply newBitset_spec. lia.
  - by rewrite remaining_new.
  - done.
  - constructor.
  - intros k ce Hin. unfold cache_at in Hin. rewrite lookup_empty in Hin. by apply not_elem_of_nil in Hin.
  - intros ce Hin. by apply not_elem_of_nil in Hin.
  - unfold seqs_ok. rewrite length_replicate, Nat2Z.id. split_and!; [done| |].
    + intros l Hin. by apply not_elem_of_nil in Hin.
    + intros i q Hq. by apply lookup_replicate in Hq as [? _].
Qed.

(** ** The result *)

(** What [longest] reports: legal executions, each of the operation it is recorded
    for; all operations if [checkSingle] returned true. *)
Definition reports model es (ok : bool) s : Prop :=
  length (longest s) = bits_of es
  ∧ (∀ i q, longest s !! i = Some (Some q) → ∃ ids rs st, seqs s !! q = Some ids
       ∧ path model (items es) ids rs st ∧ (ok = false → Z.of_nat i ∈ ids) ∧ (ok = true → rs = []))
  ∧ (ok = true → ∀ i, (i < bits_of es)%nat → ∃ q, longest s !! i = Some (Some q)).

Lemma finish_spec model es ids anc s :
  ok model (items es) (table_of_history es) (length es) (bits_of es) [] ids anc s →
  ∃ s', finish s = Some s' ∧ reports model es true s'.
Proof.
  intros Hok. unfold finish. rewrite (ok_calls _ _ _ _ _ _ _ _ _ Hok). cbn.
  destruct (ok_seqs _ _ _ _ _ _ _ _ _ Hok) as (Hlen & _ & _).
  eexists. split; [reflexivity|]. split_and!; cbn.
  - by rewrite length_replicate.
  - intros i q [[= ->] _]%lookup_replicate. exists ids, [], (state s).
    split_and!; [by apply list_lookup_middle|by eapply ok_path|done|done].
  - intros _ i Hi. exists (length (seqs s)). apply lookup_replicate. split; [done|]. by rewrite Hlen.
Qed.

(** The slices recorded on the way report what they should. *)
Lemma seqs_ok_reports model es s :
  seqs_ok model (items es) (bits_of es) (seqs s) (longest s) → reports model es false s.
Proof.
  intros (Hlen & Hseqs & Hin). split_and!; [done| |done]. intros i q Hq.
  destruct (Hin _ _ Hq) as (l & Hl & Hil).
  destruct (Hseqs l) as (rs & st & Hpath); [by eapply list_elem_of_lookup_2|]. by exists l, rs, st.
Qed.

Section Spec.
Context (model : Model V State) (same : State → State → bool) `{!EqualLaws model same}.

(** The search: from the state before the loop to the pass that returns. *)
Lemma search_path es computePartial :
  well_formed es → steps_on model es →
  ∃ s s1 b s2, init_search model es = Returned (length es, s)
    ∧ seqs_ok model (items es) (bits_of es) (seqs s) (longest s)
    ∧ rtc (step model (items es) (length es) (bits_of es) computePartial) s s1
    ∧ iteration model (length es) computePartial false s1 = Some (Return_ b s2)
    ∧ (b = true ↔ completable model (items es) (Init model)) ∧ reports model es b s2.
Proof.
  intros [Hp Hi] Hsteps. destruct (init_search_spec model es) as (s & Hinit & Hok & Hcur & Hcalls & Hst).
  exists s.
  assert (succeeds model (items es) (table_of_history es) (length es) (bits_of es) computePartial
            (items es) (Init model) s
    ∨ fails model (items es) (table_of_history es) (length es) (bits_of es) computePartial (items es) [] [] s)
    as [(ids & anc & s1 & Hs1 & Hok1 & Hc)|Hfail].
  { destruct (items es) as [|x rs] eqn:Hrs.
    - left. exists [], [], s. split_and!; [done|done|constructor].
    - rewrite <- Hrs in *. rewrite <- Hst. eapply explore; try done.
      + by apply table_of.
      + intros y Hy. assert (y.2 ∈ es) as Hy2.
        { rewrite <- (items_entries es). by apply list_elem_of_fmap_2. }
        specialize (Hi _ Hy2). unfold bits_of. rewrite Z2Nat.id; lia.
      + intros c r Hc Hr Heq Hcall Hret st.
        apply Hsteps; try done; rewrite <- (items_entries es); by apply list_elem_of_fmap_2.
      + by rewrite Hrs. }
  - destruct (head_node _ _ _ _ _ _ _ _ _ Hok1) as (nh & Hnh & Hnext).
    destruct (finish_spec _ _ _ _ _ Hok1) as (s2 & Hfin & Hrep).
    exists s1, true, s2. split; [done|]. split; [exact (ok_seqs _ _ _ _ _ _ _ _ _ Hok)|]. split; [done|]. split; [|done].
    unfold iteration. rewrite Hnh. cbn. rewrite Hnext. cbn. by rewrite Hfin.
  - destruct Hfail as (s1 & pre & [p e] & todo & Hs1 & Hok1 & _ & _ & Hc1 & _ & Hrs & Hr & Hcur1 & Hnot).
    exists s1, false, s1. split; [done|]. split; [exact (ok_seqs _ _ _ _ _ _ _ _ _ Hok)|]. split; [done|]. split.
    { destruct (item_node model (items es) (table_of_history es) (length es) (bits_of es)) with
        (rs := items es) (ids := @nil Z) (anc := @nil (cacheEntry State)) (s := s1) (pre := pre) (p := p)
        (e := e) (todo := todo) as (nd & Hnd & _ & _ & _ & Hmatch & _); [by apply table_of|done|done|].
      rewrite (iteration_open _ _ _ _ _ _ _ _ _ _ p nd Hok1); [|by rewrite Hrs; destruct pre|done|done].
      by rewrite Hmatch, Hc1, Hcalls by done. }
    split; [split; [done|]; by rewrite Hst in Hnot|].
    exact (seqs_ok_reports _ _ _ (ok_seqs _ _ _ _ _ _ _ _ _ Hok1)).
Qed.

Lemma checkSingle_returns es computePartial :
  well_formed es → steps_on model es →
  ∃ k b s, checkSingle model es computePartial never_killed k = Returned (b, s)
    ∧ (b = true ↔ completable model (items es) (Init model)) ∧ reports model es b s.
Proof.
  intros Hwf Hsteps. destruct (search_path es computePartial Hwf Hsteps)
    as (s & s1 & b & s2 & Hinit & _ & Hs & Hret & Hb & Hrep).
  destruct (checkLoop_rtc _ _ _ _ _ _ _ _ _ Hs Hret) as [k Hk].
  exists k, b, s2. split; [|done]. unfold checkSingle. rewrite Hinit. apply Hk.
Qed.

(** However it is told to stop, what it reports is right. *)
Lemma checkSingle_reports es computePartial kill fuel b s :
  well_formed es → steps_on model es →
  checkSingle model es computePartial kill fuel = Returned (b, s) → reports model es b s.
Proof.
  intros Hwf Hsteps Hc. destruct (search_path es computePartial Hwf Hsteps)
    as (s0 & s1 & b' & s2 & Hinit & Hok & Hs & Hret & _ & Hrep).
  unfold checkSingle in Hc. rewrite Hinit in Hc. cbn [outcome_bind] in Hc.
  destruct (checkLoop_any _ _ _ _ _ _ _ _ _ _ Hs Hret Hok _ _ _ _ Hc) as [[-> ->]|[-> ?]];
    [done|by apply seqs_ok_reports].
Qed.
End Spec.
End Check.
