(* ===== verification/PorcupineCorrect.v ===== *)
(** * PorcupineCorrect: the checker decides linearizability

    A history of operations is linearizable if it can be reordered, keeping the
    order of operations that do not overlap, into one the sequential model
    allows.  The file shows that this is the case exactly when the entries that
    [makeEntries] sorts can be completed. *)
From Stdlib Require Import ZArith Lia.
From stdpp Require Import base gmap option relations sorting list.
From S2P Require Import Prelude Bitset Porcupine PorcupineHeap PorcupinePaths PorcupineSearch PorcupineCheck.
#[local] Open Scope Z_scope.

Section Correct.
Context {V State : Type} `{Interface V, Printable V, Printable State, EqDecision State, TimeSorter V}.
Implicit Types (model : Model V State) (ops : list (Operation V)) (o : Operation V).

(** ** Linearizability *)

(** [a] need not come after [b]: [b] did not return before [a] was called. *)
Definition may_precede (a b : Operation V) : Prop := Call a <= Return b.

Fixpoint legal model (st : State) ops : bool :=
  match ops with
  | [] => true
  | o :: ops =>
      match Step model st (Input o) (Output o) with
      | Some (true, st') => legal model st' ops
      | _ => false
      end
  end.

Definition linearizable model ops : Prop :=
  ∃ σ, σ ≡ₚ ops ∧ StronglySorted may_precede σ ∧ legal model (Init model) σ = true.

(** A call is not later than its return, and the model has an answer for it. *)
Definition timed ops : Prop := ∀ o, o ∈ ops → Call o <= Return o.
Definition answered model ops : Prop := ∀ o, o ∈ ops → ∀ st, is_Some (Step model st (Input o) (Output o)).

(** ** The entries of numbered operations *)
Abbreviation numbered := (list (Z * Operation V)).
Implicit Types (ios : numbered) (rs : list (nat * entry V)).

Definition call_of (i : Z) o : entry V := mkEntry callEntry (Input o) i (Call o) (op_ClientId o).
Definition return_of (i : Z) o : entry V := mkEntry returnEntry (Output o) i (Return o) (op_ClientId o).

Fixpoint ents ios : list (entry V) :=
  match ios with [] => [] | (i, o) :: ios => call_of i o :: return_of i o :: ents ios end.

Fixpoint number ops (i : Z) : numbered :=
  match ops with [] => [] | o :: ops => (i, o) :: number ops (i + 1) end.

Lemma entries_of_ents ops i : entries_of ops i = ents (number ops i).
Proof. revert i. induction ops as [|o ops IH]; intros i; [done|]. cbn. by rewrite IH. Qed.

Lemma number_snd ops i : (number ops i).*2 = ops.
Proof. revert i. induction ops as [|o ops IH]; intros i; [done|]. cbn. by rewrite IH. Qed.

Lemma number_range ops i j o : (j, o) ∈ number ops i → i <= j < i + len ops.
Proof.
  revert i. induction ops as [|o' ops IH]; intros i; cbn; [by intros ?%not_elem_of_nil|].
  rewrite len_cons. pose proof (len_nonneg ops).
  intros [[= -> ->]|Hin]%elem_of_cons; [lia|]. apply IH in Hin. lia.
Qed.

Lemma number_lookup ops i j o : (j, o) ∈ number ops i ↔ at_index ops (j - i) = Some o.
Proof.
  revert i. induction ops as [|o' ops IH]; intros i; cbn [number].
  { split; [by intros ?%not_elem_of_nil|]. by intros [_ ?]%at_index_Some. }
  rewrite elem_of_cons, IH. split.
  - intros [[= -> ->]|Hj]; [by rewrite Z.sub_diag|]. pose proof (at_index_inv _ _ _ Hj) as ?.
    rewrite at_index_cons by lia. rewrite <- Hj. f_equal. lia.
  - intros Hj. pose proof (at_index_inv _ _ _ Hj) as ?. destruct (decide (j = i)) as [->|].
    + left. rewrite Z.sub_diag in Hj. by injection Hj as ->.
    + right. rewrite at_index_cons in Hj by lia. rewrite <- Hj. f_equal. lia.
Qed.

Lemma number_NoDup ops i : NoDup (number ops i).*1.
Proof.
  revert i. induction ops as [|o ops IH]; intros i; cbn; constructor; [|done].
  intros [[j o'] [-> Hin]]%list_elem_of_fmap. apply number_range in Hin. cbn in Hin. lia.
Qed.

Lemma elem_of_ents ios e :
  e ∈ ents ios ↔ ∃ i o, (i, o) ∈ ios ∧ (e = call_of i o ∨ e = return_of i o).
Proof.
  induction ios as [|[i o] ios IH]; cbn.
  - split; [by intros ?%not_elem_of_nil|]. intros (? & ? & []%not_elem_of_nil & _).
  - rewrite !elem_of_cons, IH. split.
    + intros [->|[->|(j & o' & Hin & He)]]; [exists i, o|exists i, o|exists j, o'];
        rewrite elem_of_cons; auto.
    + intros (j & o' & [[= -> ->]|Hin]%elem_of_cons & He); [tauto|]. right. right. by exists j, o'.
Qed.

(** The operations other than [i]. *)
Definition others_of (i : Z) ios : numbered := filter (λ x, x.1 ≠ i) ios.

Lemma ents_others i ios : filter (λ e, id e ≠ i) (ents ios) = ents (others_of i ios).
Proof.
  induction ios as [|[j o] ios IH]; [done|]. cbn [ents].
  unfold others_of. rewrite !filter_cons. cbn [id call_of return_of fst].
  case_decide; cbn [ents]; by rewrite IH.
Qed.

Lemma filter_snd i rs : (without i rs).*2 = filter (λ e, id e ≠ i) rs.*2.
Proof.
  unfold without. induction rs as [|x rs IH]; [done|].
  rewrite fmap_cons, !filter_cons. case_decide; [rewrite fmap_cons|]; by rewrite IH.
Qed.

(** The items [rs] are the entries of [ios] in an order of [byTime]. *)
Record represents rs ios : Prop := {
  rep_ents : rs.*2 ≡ₚ ents ios;
  rep_ids : NoDup ios.*1;
  rep_sorted : StronglySorted (λ x y, Less y.2 x.2 = false) rs;
  rep_timed : timed ios.*2
}.

Lemma StronglySorted_filter {A} (R : A → A → Prop) (P : A → Prop) `{∀ x, Decision (P x)} (l : list A) :
  StronglySorted R l → StronglySorted R (filter P l).
Proof.
  induction 1 as [|x l Hl IH Hx]; [constructor|]. rewrite filter_cons. case_decide; [|done].
  constructor; [done|]. rewrite Forall_forall in Hx |- *. intros y [_ Hy]%list_elem_of_filter. auto.
Qed.

Lemma represents_without i rs ios : represents rs ios → represents (without i rs) (others_of i ios).
Proof.
  intros [He Hd Hs Ht]. split.
  - rewrite filter_snd, <- ents_others. by rewrite He.
  - eapply sublist_NoDup; [exact Hd|]. apply fmap_sublist, sublist_filter.
  - by apply StronglySorted_filter.
  - intros o ([j o'] & -> & [_ Hin]%list_elem_of_filter)%list_elem_of_fmap.
    apply Ht. cbn. by apply (list_elem_of_fmap_2 snd) in Hin.
Qed.

Lemma rep_elem rs ios x :
  represents rs ios → x ∈ rs → ∃ i o, (i, o) ∈ ios ∧ (x.2 = call_of i o ∨ x.2 = return_of i o).
Proof.
  intros Hr Hx. apply elem_of_ents. rewrite <- (rep_ents _ _ Hr). by apply list_elem_of_fmap_2.
Qed.

Lemma rep_in rs ios i o e :
  represents rs ios → (i, o) ∈ ios → e = call_of i o ∨ e = return_of i o → ∃ p, (p, e) ∈ rs.
Proof.
  intros Hr Hio He. assert (e ∈ rs.*2) as Hin.
  { rewrite (rep_ents _ _ Hr). apply elem_of_ents. by exists i, o. }
  apply list_elem_of_fmap in Hin as ([p e'] & -> & Hin). by exists p.
Qed.

Lemma rep_inj rs ios i o o' : represents rs ios → (i, o) ∈ ios → (i, o') ∈ ios → o = o'.
Proof.
  intros Hr [k Hk]%list_elem_of_lookup [k' Hk']%list_elem_of_lookup.
  assert (k = k') as ->; [|congruence].
  eapply NoDup_lookup; [exact (rep_ids _ _ Hr)| |]; rewrite list_lookup_fmap;
    [by rewrite Hk|by rewrite Hk'].
Qed.

(** What the order of the items says about times. *)
Lemma rep_order rs ios a x b y :
  represents rs ios → rs = a ++ x :: b → y ∈ b → Less y.2 x.2 = false.
Proof.
  intros Hr -> Hy. pose proof (rep_sorted _ _ Hr) as Hs. apply StronglySorted_app in Hs as (_ & _ & Hs).
  apply StronglySorted_inv in Hs as [_ Hs]. rewrite Forall_forall in Hs. by apply Hs.
Qed.

Lemma Less_call_return i o j o' : may_precede o o' → Less (call_of i o) (return_of j o') = true.
Proof.
  unfold may_precede, Less, call_of, return_of. cbn. intros Hle.
  case_decide; [apply bool_decide_eq_true; lia|by apply bool_decide_eq_true].
Qed.

(** An item before another, by time. *)
Lemma rep_before rs ios a x b i o j o' y :
  represents rs ios → rs = a ++ x :: b → y ∈ rs →
  y.2 = call_of i o → x.2 = return_of j o' → may_precede o o' → y ∈ a.
Proof.
  intros Hr Hrs Hy Hyc Hxr Hle. rewrite Hrs in Hy.
  apply elem_of_app in Hy as [Hy|[->|Hy]%elem_of_cons]; [done|by rewrite Hyc in Hxr|].
  pose proof (rep_order _ _ _ _ _ _ Hr Hrs Hy) as Hless.
  by rewrite Hyc, Hxr, Less_call_return in Hless.
Qed.

Lemma rep_after rs ios a x b i o j o' y :
  represents rs ios → rs = a ++ x :: b → y ∈ rs →
  x.2 = call_of i o → y.2 = return_of j o' → may_precede o o' → y ∈ b.
Proof.
  intros Hr Hrs Hy Hxc Hyr Hle. pose proof Hy as Hy'. rewrite Hrs in Hy.
  apply elem_of_app in Hy as [Hy|[->|Hy]%elem_of_cons]; [|by rewrite Hxc in Hyr|done].
  exfalso. apply list_elem_of_split in Hy as (a1 & a2 & ->).
  assert (x ∈ a2 ++ x :: b) as Hx by (apply elem_of_app; right; by left).
  rewrite <- app_assoc in Hrs. cbn in Hrs.
  pose proof (rep_order _ _ _ _ _ _ Hr Hrs Hx) as Hless.
  by rewrite Hxc, Hyr, Less_call_return in Hless.
Qed.

Lemma rep_timed_op rs ios i o : represents rs ios → (i, o) ∈ ios → may_precede o o.
Proof. intros Hr Hin. apply (rep_timed _ _ Hr). by apply (list_elem_of_fmap_2 snd) in Hin. Qed.

Lemma ents_keys ios : NoDup ios.*1 → NoDup ((λ e : entry V, (id e, kind e)) <$> ents ios).
Proof.
  induction ios as [|[i o] ios IH]; cbn; [constructor|]. intros [Hi Hd]%NoDup_cons.
  assert (∀ k, (i, k) ∉ (λ e : entry V, (id e, kind e)) <$> ents ios) as Hnot.
  { intros k (e & [= He _] & Hin)%list_elem_of_fmap. apply Hi.
    apply elem_of_ents in Hin as (j & o' & Hin & Hj). apply list_elem_of_fmap.
    exists (j, o'). split; [|done]. destruct Hj as [-> | ->]; done. }
  constructor; [|constructor; [apply Hnot|by apply IH]].
  intros [?|?]%elem_of_cons; [done|by eapply Hnot].
Qed.

Lemma rep_paired rs ios : represents rs ios → paired rs.
Proof.
  intros Hr. split.
  - pose proof (ents_keys _ (rep_ids _ _ Hr)) as Hd. rewrite <- (rep_ents _ _ Hr) in Hd.
    by rewrite <- list_fmap_compose in Hd.
  - intros a c b Hrs Hc. assert (c ∈ rs) as Hin by (rewrite Hrs; apply elem_of_app; right; by left).
    destruct (rep_elem _ _ _ Hr Hin) as (i & o & Hio & [He|He]);
      [|unfold is_call in Hc; by rewrite He in Hc].
    destruct (rep_in _ _ _ _ (return_of i o) Hr Hio) as (q & Hq); [by right|].
    exists (q, return_of i o). split; [|by rewrite He].
    eapply rep_after; [done|exact Hrs|done|exact He|done|by eapply rep_timed_op].
  - intros a r b Hrs Hret. assert (r ∈ rs) as Hin by (rewrite Hrs; apply elem_of_app; right; by left).
    destruct (rep_elem _ _ _ Hr Hin) as (i & o & Hio & [He|He]);
      [unfold is_return in Hret; by rewrite He in Hret|].
    destruct (rep_in _ _ _ _ (call_of i o) Hr Hio) as (q & Hq); [by left|].
    exists (q, call_of i o). split; [|by rewrite He].
    eapply rep_before; [done|exact Hrs|done|done|exact He|by eapply rep_timed_op].
Qed.

(** ** Orders of the operations and of the entries *)
Lemma others_of_notin i ios : i ∉ ios.*1 → others_of i ios = ios.
Proof.
  unfold others_of. induction ios as [|[j o] ios IH]; intros Hi; [done|].
  rewrite fmap_cons, not_elem_of_cons in Hi. destruct Hi as [Hi Hios].
  rewrite filter_cons, decide_True by auto. by rewrite IH.
Qed.

Lemma others_of_perm i o ios :
  NoDup ios.*1 → (i, o) ∈ ios → ios ≡ₚ (i, o) :: others_of i ios.
Proof.
  induction ios as [|[j o'] ios IH]; intros Hd Hin; [by apply not_elem_of_nil in Hin|].
  cbn in Hd. apply NoDup_cons in Hd as [Hj Hd]. unfold others_of. rewrite filter_cons. cbn [fst].
  apply elem_of_cons in Hin as [[= <- <-]|Hin].
  - rewrite decide_False by auto. constructor.
    fold (others_of i ios). by rewrite others_of_notin.
  - assert (i ≠ j) as Hne.
    { intros ->. apply Hj. by apply (list_elem_of_fmap_2 fst) in Hin. }
    rewrite decide_True by auto. rewrite (IH Hd Hin) at 1. apply perm_swap.
Qed.

(** The operation taken first need not come after any other. *)
Lemma takes_first model rs ios st i st' :
  represents rs ios → takes model rs st i st' →
  ∃ o, (i, o) ∈ ios ∧ Step model st (Input o) (Output o) = Some (true, st')
    ∧ ∀ j o', (j, o') ∈ ios → may_precede o o'.
Proof.
  intros Hr [a c b r Hrs Ha Hcall Hci Hrin Hri Hret Hstep].
  assert (c ∈ rs) as Hcin by (rewrite Hrs; apply elem_of_app; right; by left).
  destruct (rep_elem _ _ _ Hr Hcin) as (i1 & o & Hio & [He|He]);
    [|unfold is_call in Hcall; by rewrite He in Hcall].
  destruct (rep_elem _ _ _ Hr Hrin) as (i2 & o2 & Hio2 & [He2|He2]);
    [unfold is_return in Hret; by rewrite He2 in Hret|].
  rewrite He in Hci. rewrite He2 in Hri. cbn in Hci, Hri. subst i1 i2.
  assert (o2 = o) as -> by by eapply rep_inj.
  exists o. split; [done|]. split; [by rewrite He, He2 in Hstep|].
  intros j o1 Hin. unfold may_precede. apply Z.nlt_ge. intros Hlt.
  destruct (rep_in _ _ _ _ (return_of j o1) Hr Hin) as (q & Hq); [by right|].
  rewrite Hrs in Hq. apply elem_of_app in Hq as [Hq|[Hq|Hq]%elem_of_cons].
  - rewrite Forall_forall in Ha. by specialize (Ha _ Hq).
  - by rewrite <- Hq in He.
  - pose proof (rep_order _ _ _ _ _ _ Hr Hrs Hq) as Hless. rewrite He in Hless. cbn in Hless.
    unfold Less, call_of, return_of in Hless. cbn in Hless.
    rewrite decide_True in Hless by lia. apply bool_decide_eq_false in Hless. lia.
Qed.

Lemma completable_legal model rs st :
  completable model rs st → ∀ ios, represents rs ios →
  ∃ σ, σ ≡ₚ ios.*2 ∧ StronglySorted may_precede σ ∧ legal model st σ = true.
Proof.
  induction 1 as [st|rs st i st' Ht Hc IH]; intros ios Hr.
  { destruct ios as [|[i o] ios].
    - exists []. split_and!; [done|constructor|done].
    - pose proof (rep_ents _ _ Hr) as He. by apply Permutation_nil_l in He. }
  destruct (takes_first _ _ _ _ _ _ Hr Ht) as (o & Hio & Hstep & Hfirst).
  destruct (IH (others_of i ios) (represents_without _ _ _ Hr)) as (σ & Hperm & Hs & Hl).
  exists (o :: σ). split_and!.
  - rewrite (others_of_perm i o ios (rep_ids _ _ Hr) Hio). cbn. by constructor.
  - constructor; [done|]. apply Forall_forall. intros o' Hin. rewrite Hperm in Hin.
    apply list_elem_of_fmap in Hin as ([j o1] & -> & [_ Hin]%list_elem_of_filter). by eapply Hfirst.
  - cbn. by rewrite Hstep.
Qed.

Lemma legal_completable model ios : ∀ rs st,
  represents rs ios → StronglySorted may_precede ios.*2 → legal model st ios.*2 = true →
  completable model rs st.
Proof.
  induction ios as [|[i o] ios IH]; intros rs st Hr Hs Hl; cbn in Hs, Hl.
  { assert (rs = []) as ->; [|constructor]. pose proof (rep_ents _ _ Hr) as He. cbn in He.
    apply Permutation_nil_r in He. by destruct rs. }
  destruct (Step model st (Input o) (Output o)) as [[[] st']|] eqn:Hstep; try done.
  apply StronglySorted_inv in Hs as [Hs Hfirst].
  assert ((i, o) ∈ (i, o) :: ios) as Hio by by left.
  destruct (rep_in _ _ _ _ (call_of i o) Hr Hio) as (p & Hp); [by left|].
  destruct (rep_in _ _ _ _ (return_of i o) Hr Hio) as (q & Hq); [by right|].
  pose proof (list_elem_of_split _ _ Hp) as (a & b & Hrs).
  pose proof (rep_ids _ _ Hr) as Hd. cbn in Hd. apply NoDup_cons in Hd as [Hi Hd].
  apply (completable_cons model rs st i st').
  - apply (takes_intro model rs st i st' a (p, call_of i o) b (q, return_of i o)); try done.
    apply Forall_forall. intros x Hx.
    destruct (is_call_or_return x) as [?|Hret]; [done|exfalso].
    assert (x ∈ rs) as Hxr by (rewrite Hrs; apply elem_of_app; by left).
    destruct (rep_elem _ _ _ Hr Hxr) as (j & o' & Hjo & [He|He]);
      [unfold is_return in Hret; by rewrite He in Hret|].
    assert (may_precede o o') as Hle.
    { apply elem_of_cons in Hjo as [[= -> ->]|Hjo]; [by eapply rep_timed_op|].
      rewrite Forall_forall in Hfirst. apply Hfirst. by apply (list_elem_of_fmap_2 snd) in Hjo. }
    apply list_elem_of_split in Hx as (a1 & a2 & ->). rewrite <- app_assoc in Hrs. cbn in Hrs.
    assert ((p, call_of i o) ∈ a2 ++ (p, call_of i o) :: b) as Hin by (apply elem_of_app; right; by left).
    pose proof (rep_order _ _ _ _ _ _ Hr Hrs Hin) as Hless.
    cbn [snd] in Hless. by rewrite He, Less_call_return in Hless.
  - apply IH; [|done|done]. pose proof (represents_without i _ _ Hr) as Hr'.
    replace (others_of i ((i, o) :: ios)) with ios in Hr'; [done|].
    unfold others_of. rewrite filter_cons, decide_False by auto.
    fold (others_of i ios). by rewrite others_of_notin.
Qed.

(** ** One partition *)
Context `{!TimeSorterLaws V}.

Lemma items_sorted (es : list (entry V)) :
  StronglySorted (λ a b, Less b a = false) es →
  StronglySorted (λ x y, Less y.2 x.2 = false) (items es).
Proof.
  induction 1 as [|e es Hs IH He]; cbn; constructor; [done|].
  apply Forall_forall. intros x Hx. apply (proj1 (Forall_forall _ _) He).
  rewrite <- (items_entries es). by apply list_elem_of_fmap_2.
Qed.

Lemma makeEntries_represents ops :
  timed ops → represents (items (makeEntries ops)) (number ops 0).
Proof.
  intros Ht. split.
  - rewrite items_entries, <- entries_of_ents. apply sort_byTime_Permutation.
  - apply number_NoDup.
  - apply items_sorted, sort_byTime_sorted.
  - by rewrite number_snd.
Qed.

Lemma len_ents ios : len (ents ios) = 2 * len ios.
Proof. induction ios as [|[i o] ios IH]; [done|]. cbn [ents]. rewrite !len_cons, IH. lia. Qed.

Lemma len_makeEntries ops : len (makeEntries ops) = 2 * len ops.
Proof.
  unfold makeEntries, len. rewrite (Permutation_length (sort_byTime_Permutation _)), entries_of_ents.
  change (len (ents (number ops 0)) = 2 * len ops). rewrite len_ents. unfold len.
  by rewrite <- (length_fmap snd (number ops 0)), number_snd.
Qed.

Lemma elem_of_makeEntries ops e :
  e ∈ makeEntries ops → ∃ i o, 0 <= i < len ops ∧ (i, o) ∈ number ops 0 ∧ o ∈ ops
    ∧ (e = call_of i o ∨ e = return_of i o).
Proof.
  unfold makeEntries. rewrite sort_byTime_Permutation, entries_of_ents.
  intros (i & o & Hin & He)%elem_of_ents. exists i, o.
  pose proof (number_range _ _ _ _ Hin). split_and!; [lia|lia|done| |done].
  apply (list_elem_of_fmap_2 snd) in Hin. by rewrite number_snd in Hin.
Qed.

(** The entries [es] encode the operations [ops]: they are the entries of some
    numbering of [ops], below half their number, in an order of [byTime]. *)
Definition encodes (es : list (entry V)) ops : Prop :=
  ∃ ios, represents (items es) ios ∧ ios.*2 = ops ∧ ∀ i, i ∈ ios.*1 → 0 <= i < len ops.

Lemma makeEntries_encodes ops : timed ops → encodes (makeEntries ops) ops.
Proof.
  intros Ht. exists (number ops 0). split_and!; [by apply makeEntries_represents|apply number_snd|].
  intros i ([j o] & -> & Hin)%list_elem_of_fmap. apply number_range in Hin. cbn. lia.
Qed.

Lemma encodes_len es ops : encodes es ops → len es = 2 * len ops.
Proof.
  intros (ios & Hr & <- & _). pose proof (rep_ents _ _ Hr) as He. rewrite items_entries in He.
  unfold len. rewrite (Permutation_length He), length_fmap. apply len_ents.
Qed.

Lemma encodes_elem es ops e :
  encodes es ops → e ∈ es → ∃ i o, 0 <= i < len ops ∧ o ∈ ops ∧ (e = call_of i o ∨ e = return_of i o).
Proof.
  intros (ios & Hr & <- & Hids) Hin. pose proof (rep_ents _ _ Hr) as He. rewrite items_entries in He.
  rewrite He in Hin. apply elem_of_ents in Hin as (i & o & Hio & ?). exists i, o.
  assert (0 <= i < len ios.*2) as Hi by (apply Hids; by apply (list_elem_of_fmap_2 fst) in Hio).
  apply (list_elem_of_fmap_2 snd) in Hio. split_and!; [lia..|done|done].
Qed.

Lemma encodes_well_formed es ops : encodes es ops → well_formed es.
Proof.
  intros Henc. pose proof (encodes_len _ _ Henc) as Hlen. split.
  - destruct Henc as (ios & Hr & _). by eapply rep_paired.
  - intros e (i & o & Hi & _ & [-> | ->])%(encodes_elem _ ops); [| |done];
      cbn; rewrite Hlen, Z.mul_comm, Z.quot_mul by lia; done.
Qed.

Lemma encodes_steps_on model es ops : encodes es ops → answered model ops → steps_on model es.
Proof.
  intros (ios & Hr & <- & _) Ha c r Hc Hret Heq Hkc Hkr st.
  pose proof (rep_ents _ _ Hr) as He. rewrite items_entries in He. rewrite He in Hc, Hret.
  apply elem_of_ents in Hc as (i & o & Hi & [-> | ->]); [|done].
  apply elem_of_ents in Hret as (j & o' & Hj & [-> | ->]); [done|]. cbn in Heq. subst j.
  assert (o' = o) as -> by by eapply rep_inj.
  apply Ha. by apply (list_elem_of_fmap_2 snd) in Hi.
Qed.

Lemma represents_perm rs ios ios' : ios ≡ₚ ios' → represents rs ios' → represents rs ios.
Proof.
  intros Hp [He Hd Hsort Htime]. split; [|by rewrite Hp|done|intros o Ho; apply Htime; by rewrite <- Hp].
  rewrite He. clear - Hp. induction Hp as [|[i o]|[i o] [j o']|]; cbn; [done| | |by etrans].
  - by rewrite IHHp.
  - solve_Permutation.
Qed.

Lemma completable_linearizable model es ops :
  encodes es ops → completable model (items es) (Init model) ↔ linearizable model ops.
Proof.
  intros (ios0 & Hr & <- & _). split.
  - intros Hc. by apply (completable_legal _ _ _ Hc).
  - intros (σ & Hp & Hs & Hl). apply Permutation_map_inv in Hp as (ios & -> & Hp).
    eapply (legal_completable model ios); [|done|done]. by eapply represents_perm.
Qed.
End Correct.
