(* ===== verification/PorcupinePoints.v ===== *)
(** * PorcupinePoints: linearizability from points in a log

    How the operations of a replicated state machine are put in an order that
    [src/src/porcupine] accepts.  The state of the machine is [val k] after [k]
    entries of its log.  A write takes effect with one entry, a read sees the
    state after some entries; [since] and [until] bound where, by the length of
    the log when the operation was called and when it returned.  Ordered by these
    points, the operations are a legal execution of the model. *)
From Stdlib Require Import ZArith Lia.
From stdpp Require Import base gmap option relations sorting list.
From S2P Require Import Prelude Bitset Porcupine PorcupineHeap PorcupinePaths PorcupineSearch PorcupineCheck PorcupineCorrect.
#[local] Open Scope nat_scope.

Section Points.
Context {V State : Type} `{Interface V, Printable V, Printable State, EqDecision State, TimeSorter V}.
Context (model : Model V State) (ops : list (Operation V)) (val : nat → State).
(** The operation that takes effect with an entry, if it is one of these. *)
Context (takes : nat → Operation V → Prop) (writes : Operation V → bool).
Context (since until : Operation V → nat).
Implicit Types (o : Operation V) (k h : nat).

Record points : Prop := {
  pt_init : val 0 = Init model;
  pt_step k : val (S k) = val k ∨ ∃ o, o ∈ ops ∧ takes k o;
  pt_takes k o : takes k o → Step model (val k) (Input o) (Output o) = Some (true, val (S k));
  pt_one k o o' : takes k o → takes k o' → o = o';
  pt_once k k' o : takes k o → takes k' o → k = k';
  pt_writes k o : takes k o → writes o = true;
  pt_write o : o ∈ ops → writes o = true → ∃ k, takes k o ∧ since o <= k < until o;
  pt_read o : o ∈ ops → writes o = false →
    ∃ h, Step model (val h) (Input o) (Output o) = Some (true, val h) ∧ since o <= h <= until o;
  pt_timed o : o ∈ ops → (Call o <= Return o)%Z;
  pt_order o o' : o ∈ ops → o' ∈ ops → (Return o < Call o')%Z → until o <= since o'
}.

Context (Hpt : points) (Hnd : NoDup ops).

(** A read after [h] entries has the point [2 h], the write of entry [k] comes between
    [2 k] and [2 k + 2]. *)
Definition at_point (x : nat * Operation V) : Prop :=
  if writes x.2 then ∃ k, x.1 = 2 * k + 1 ∧ takes k x.2 ∧ since x.2 <= k < until x.2
  else ∃ h, x.1 = 2 * h ∧ Step model (val h) (Input x.2) (Output x.2) = Some (true, val h) ∧ since x.2 <= h <= until x.2.

(** By point, and by the time of the call where two are equal. *)
Definition before (x y : nat * Operation V) : Prop := x.1 < y.1 ∨ x.1 = y.1 ∧ (Call x.2 <= Call y.2)%Z.

#[local] Instance before_dec x y : Decision (before x y).
Proof. unfold before. solve_decision. Defined.
#[local] Instance before_trans : Transitive before.
Proof. intros x y z. unfold before. lia. Qed.
#[local] Instance before_total : Total before.
Proof. intros x y. unfold before. lia. Qed.

Lemma points_assigned l :
  (∀ o, o ∈ l → o ∈ ops) → ∃ xs, xs.*2 = l ∧ ∀ x, x ∈ xs → at_point x.
Proof.
  induction l as [|o l IH]; intros Hl; [exists []; split; [done|]; by intros x ?%not_elem_of_nil|].
  destruct IH as (xs & E & Hxs); [intros o' ?; apply Hl; by right|].
  assert (∃ n, at_point (n, o)) as [n Hn].
  { unfold at_point. cbn. assert (o ∈ ops) as Ho by (apply Hl; by left). destruct (writes o) eqn:Hw.
    - destruct (pt_write Hpt o Ho Hw) as (k & ? & ?). by exists (2 * k + 1), k.
    - destruct (pt_read Hpt o Ho Hw) as (h & ? & ?). by exists (2 * h), h. }
  exists ((n, o) :: xs). split; [cbn; by f_equal|]. intros x [->|?]%elem_of_cons; auto.
Qed.

Lemma point_bounds x : at_point x → 2 * since x.2 <= x.1 <= 2 * until x.2.
Proof. unfold at_point. destruct (writes x.2); intros (? & -> & _ & ?); lia. Qed.

(** Nothing changes between two states without a write. *)
Lemma val_same (h h' : nat) :
  h <= h' → (∀ k o, h <= k < h' → o ∈ ops → ¬ takes k o) → val h' = val h.
Proof.
  induction 1 as [|h' Hle IH]; intros Hno; [done|].
  destruct (pt_step Hpt h') as [->|(o & Ho & Ht)]; [|by destruct (Hno h' o ltac:(lia) Ho)].
  apply IH. intros k o Hk. apply Hno. lia.
Qed.

(** From the state after [h] entries on, with all later writes to come. *)
Lemma legal_from xs h :
  StronglySorted before xs → NoDup xs → (∀ x, x ∈ xs → at_point x ∧ 2 * h <= x.1) →
  (∀ k o, h <= k → o ∈ ops → takes k o → (2 * k + 1, o) ∈ xs) →
  legal model (val h) xs.*2 = true.
Proof.
  revert h. induction xs as [|[n o] xs IH]; intros h Hs Hnx Hx Hall; [done|].
  apply StronglySorted_inv in Hs as [Hs Hfirst]. rewrite Forall_forall in Hfirst.
  apply NoDup_cons in Hnx as [Hnin Hnx]. destruct (Hx (n, o) ltac:(left)) as [Hp Hn].
  assert (∀ h', 2 * h' <= n → h <= h' → val h' = val h) as Hsame.
  { intros h' Hh' Hle. apply val_same; [done|]. intros k o' Hk Ho' Ht.
    destruct (proj1 (elem_of_cons _ _ _) (Hall k o' ltac:(lia) Ho' Ht)) as [[= <- _]|Hin]; [lia|].
    specialize (Hfirst _ Hin). unfold before in Hfirst. cbn in Hfirst. lia. }
  cbn [fmap list_fmap snd legal]. unfold at_point in Hp. cbn in Hp. destruct (writes o) eqn:Hw.
  - destruct Hp as (k & -> & Ht & _). cbn in Hn. rewrite <- (Hsame k) by lia.
    rewrite (pt_takes Hpt _ _ Ht). apply IH; [done|done| |].
    + intros [m o'] Hin. destruct (Hx (m, o') ltac:(by right)) as [Hp' _]. split; [done|]. cbn.
      specialize (Hfirst _ Hin). unfold before in Hfirst. cbn in Hfirst.
      unfold at_point in Hp'. cbn in Hp'. destruct (writes o') eqn:Hw'; destruct Hp' as (k' & -> & Ht' & _); [|lia].
      destruct (decide (k = k')) as [<-|]; [|lia]. by rewrite (pt_one Hpt _ _ _ Ht Ht') in Hnin.
    + intros k' o' Hk' Ho' Ht'. destruct (proj1 (elem_of_cons _ _ _) (Hall k' o' ltac:(lia) Ho' Ht')) as [[= ? _]|]; [lia|done].
  - destruct Hp as (h' & -> & Hst & _). cbn in Hn. rewrite <- (Hsame h') by lia. rewrite Hst. apply IH; [done|done| |].
    + intros x Hin. destruct (Hx x ltac:(by right)) as [Hp' _]. split; [done|].
      specialize (Hfirst _ Hin). unfold before in Hfirst. cbn in Hfirst. lia.
    + intros k' o' Hk' Ho' Ht'. destruct (proj1 (elem_of_cons _ _ _) (Hall k' o' ltac:(lia) Ho' Ht')) as [[= ? _]|]; [lia|done].
Qed.

Lemma sorted_real_time xs :
  StronglySorted before xs → (∀ x, x ∈ xs → at_point x ∧ x.2 ∈ ops) → StronglySorted may_precede xs.*2.
Proof.
  induction 1 as [|x xs Hs IH Hfirst]; intros Hx; [constructor|]. cbn. constructor; [apply IH; intros y Hy; apply Hx; by right|].
  rewrite Forall_fmap. rewrite Forall_forall in Hfirst |- *. intros y Hy. specialize (Hfirst _ Hy). cbn.
  destruct (Hx x ltac:(left)) as [Hpx Hox], (Hx y ltac:(by right)) as [Hpy Hoy].
  unfold may_precede. destruct (decide (Call x.2 <= Return y.2)%Z) as [|Hlt]; [done|exfalso].
  pose proof (pt_order Hpt y.2 x.2 Hoy Hox ltac:(lia)). pose proof (pt_timed Hpt _ Hoy).
  pose proof (point_bounds _ Hpx). pose proof (point_bounds _ Hpy). unfold before in Hfirst. lia.
Qed.

(** Operations with points in the log of a state machine are linearizable. *)
Theorem points_linearizable : linearizable model ops.
Proof.
  destruct (points_assigned ops (λ _ Hin, Hin)) as (xs & E & Hxs).
  set (ys := merge_sort before xs). assert (ys ≡ₚ xs) as Hperm by apply merge_sort_Permutation.
  assert (StronglySorted before ys) as Hs by apply (StronglySorted_merge_sort _ _).
  assert (∀ x, x ∈ ys → at_point x ∧ x.2 ∈ ops) as Hys.
  { intros x Hin. rewrite Hperm in Hin. split; [auto|]. rewrite <- E. by apply list_elem_of_fmap_2. }
  exists ys.*2. split; [by rewrite Hperm, E|]. split; [by apply sorted_real_time|].
  rewrite <- (pt_init Hpt). apply legal_from; [done| | |].
  - rewrite Hperm. apply (NoDup_fmap_1 snd). by rewrite E.
  - intros x Hin. split; [by apply Hys|lia].
  - intros k o _ Ho Ht. rewrite Hperm. rewrite <- E in Ho. apply list_elem_of_fmap in Ho as ([n o'] & -> & Hin).
    pose proof (Hxs _ Hin) as Hp. unfold at_point in Hp. cbn in *. rewrite (pt_writes Hpt _ _ Ht) in Hp.
    destruct Hp as (k' & -> & Ht' & _). by rewrite (pt_once Hpt _ _ _ Ht Ht').
Qed.
End Points.
