(* ===== verification/PorcupineOps.v ===== *)
(** * PorcupineOps: what the entry points of the checker answer

    [CheckOperations] runs one search per partition, in goroutines whose results
    arrive in any order.  The file shows that it returns and answers whether
    every partition is linearizable, and that with a timeout its definite
    answers are still right. *)
From Stdlib Require Import ZArith Lia.
From stdpp Require Import base gmap option relations sorting list.
From S2P Require Import Prelude Bitset Porcupine PorcupinePaths PorcupineSearch PorcupineCheck PorcupineCorrect.
#[local] Open Scope Z_scope.

Section Ops.
Context {V State : Type} `{Interface V, Printable V, Printable State, EqDecision State}.
Context `{TimeSorter V, !TimeSorterLaws V}.
Implicit Types (model : Model V State) (ops : list (Operation V)) (parts : list (list (Operation V)))
  (es : list (entry V)) (hist : list (list (entry V))).

(** ** The loop around [select] *)

(** Every goroutine gets to send its result. *)
Definition complete (sched : Schedule) (k : nat) : Prop :=
  ∀ i, (i < k)%nat → Result i ∈ arrivals sched.

Lemma filter_others_length (i : nat) (l : list nat) :
  i ∈ l → (length (filter (λ j, j ≠ i) l) < length l)%nat.
Proof. intros Hi. apply length_filter_lt with i; [done|]. by intros Hn; apply Hn. Qed.

Lemma select_loop_returns results computeInfo timeout arr ok pending :
  timeout <= 0 → pending ≠ [] →
  (∀ i, i ∈ pending → Result i ∈ arr) →
  (∀ i, i ∈ pending → ∃ b, results i = Returned b) →
  ∃ ok' pending', select_loop results computeInfo timeout arr ok pending = Returned (ok', false, pending').
Proof.
  intros Hto. revert ok pending. induction arr as [|[i|] arr IH]; intros ok pending Hne Harr Hres.
  - exfalso. destruct pending as [|i pending]; [done|].
    specialize (Harr i ltac:(left)). by apply not_elem_of_nil in Harr.
  - assert (∀ j, j ∈ pending → j ≠ i → Result j ∈ arr) as Hrest.
    { intros j Hj Hji. specialize (Harr j Hj). apply elem_of_cons in Harr as [[= ->]|?]; done. }
    cbn [select_loop]. case_decide as Hi.
    + destruct (Hres i Hi) as [b Hb]. rewrite Hb. cbn [outcome_bind].
      destruct (negb (ok && b) && negb computeInfo); [by eauto|]. case_decide as Hp; [by eauto|].
      apply IH; [done| |].
      * intros j [? ?]%list_elem_of_filter. by apply Hrest.
      * intros j [? ?]%list_elem_of_filter. by apply Hres.
    + apply IH; [done| |done]. intros j Hj. apply Hrest; [done|]. by intros ->.
  - cbn [select_loop]. rewrite decide_False by lia. apply IH; [done| |done].
    intros j Hj. specialize (Harr j Hj). by apply elem_of_cons in Harr as [?|?].
Qed.

(** Definite answers are right. *)
Lemma select_loop_sound results (P : nat → Prop) computeInfo timeout arr ok pending ok' timedOut pending' :
  (∀ i b, i ∈ pending → results i = Returned b → (b = true ↔ P i)) →
  select_loop results computeInfo timeout arr ok pending = Returned (ok', timedOut, pending') →
  (ok' = true → ok = true ∧ (timedOut = false → ∀ i, i ∈ pending → P i))
  ∧ (ok' = false → ok = false ∨ ∃ i, i ∈ pending ∧ ¬ P i).
Proof.
  revert ok pending. induction arr as [|[i|] arr IH]; intros ok pending Hres Hsel; cbn [select_loop] in Hsel.
  - done.
  - case_decide as Hi; [|by eapply IH].
    destruct (results i) as [b| |] eqn:Hb; cbn [outcome_bind] in Hsel; try done.
    pose proof (Hres i b Hi Hb) as Hbi.
    set (rest := filter (λ j, j ≠ i) pending) in *.
    assert (∀ j, j ∈ pending → j = i ∨ j ∈ rest) as Hsplit.
    { intros j Hj. destruct (decide (j = i)) as [|Hji]; [by left|right]. by apply list_elem_of_filter. }
    assert (∀ j, j ∈ rest → j ∈ pending) as Hsub by (by intros j [_ ?]%list_elem_of_filter).
    destruct (negb (ok && b) && negb computeInfo) eqn:Hstop.
    + injection Hsel as <- <- <-. apply andb_true_iff in Hstop as [Hok _].
      apply negb_true_iff in Hok. rewrite Hok. split; [done|]. intros _.
      apply andb_false_iff in Hok as [->| ->]; [by left|right]. exists i. split; [done|].
      intros ?%Hbi. done.
    + case_decide as Hp.
      * injection Hsel as <- <- <-. split.
        -- intros [-> ->]%andb_true_iff. split; [done|]. intros _ j [->|Hj]%Hsplit; [by apply Hbi|].
           rewrite Hp in Hj. by apply not_elem_of_nil in Hj.
        -- intros [->| ->]%andb_false_iff; [by left|right]. exists i. split; [done|]. intros ?%Hbi. done.
      * destruct (IH (ok && b) rest) as [Ht Hf]; [by intros; apply Hres; [apply Hsub|]|done|]. split.
        -- intros Hok'. destruct (Ht Hok') as [[-> ->]%andb_true_iff Hall]. split; [done|].
           intros Hto j [->|Hj]%Hsplit; [by apply Hbi|by apply Hall].
        -- intros Hok'. destruct (Hf Hok') as [[->| ->]%andb_false_iff|(j & Hj & Hn)]; [by left| |].
           ++ right. exists i. split; [done|]. intros ?%Hbi. done.
           ++ right. exists j. auto.
  - case_decide; [|by eapply IH]. injection Hsel as <- <- <-. split; [|by left].
    intros ->. done.
Qed.

(** ** The search of every partition *)

(** What the checker needs to know of a history of operations. *)
Record checkable model parts : Prop := {
  parts_timed : ∀ ops, ops ∈ parts → timed ops;
  parts_answered : ∀ ops, ops ∈ parts → answered model ops
}.

(** The entries [hist] that are searched are those of the partitions [parts]. *)
Record encoded model hist parts : Prop := {
  enc_parts : Forall2 encodes hist parts;
  enc_answered : ∀ ops, ops ∈ parts → answered model ops
}.

Lemma checkable_encoded model parts : checkable model parts → encoded model (makeEntries <$> parts) parts.
Proof.
  intros [Ht Ha]. split; [|done]. apply Forall2_fmap_l, Forall_Forall2_diag, Forall_forall.
  intros ops Hin. by apply makeEntries_encodes, Ht.
Qed.

Definition verdict model es ops (computeInfo : bool) (fuel : nat) : Prop :=
  ∃ b s, checkSingle model es computeInfo never_killed fuel = Returned (b, s)
    ∧ (b = true ↔ linearizable model ops) ∧ reports model es b s.

Lemma checkSingle_mono model es computeInfo kill k fuel r :
  checkSingle model es computeInfo kill k = Returned r → (k <= fuel)%nat →
  checkSingle model es computeInfo kill fuel = Returned r.
Proof.
  unfold checkSingle. destruct (init_search model es) as [[hd s]| |]; cbn [outcome_bind]; [|done..].
  intros. by eapply checkLoop_fuel.
Qed.

Section Laws.
Context model `{!EqualLaws model same}.

(** [checkSingle] on the entries of a history: with enough fuel it returns whether
    the history is linearizable, with executions to show for it. *)
Lemma checkSingle_decides es ops computeInfo :
  encodes es ops → answered model ops → ∃ k, ∀ fuel, (k <= fuel)%nat → verdict model es ops computeInfo fuel.
Proof.
  intros He Ha.
  destruct (checkSingle_returns model same es computeInfo) as (k & b & s & Hc & Hb & Hrep);
    [by eapply encodes_well_formed|by eapply encodes_steps_on|].
  exists k. intros fuel Hf. exists b, s. split_and!; [by eapply checkSingle_mono| |done].
  by rewrite Hb, (completable_linearizable _ _ ops).
Qed.

Lemma verdicts hist parts computeInfo :
  encoded model hist parts →
  ∃ k, ∀ fuel, (k <= fuel)%nat → Forall2 (λ es ops, verdict model es ops computeInfo fuel) hist parts.
Proof.
  intros [He Ha]. induction He as [|es ops hist parts He _ IH]; [by exists 0%nat|].
  destruct IH as [k1 Hk1]; [by intros; apply Ha; right|].
  destruct (checkSingle_decides es ops computeInfo He) as [k2 Hk2]; [apply Ha; left|].
  exists (k1 + k2)%nat. intros fuel Hf. constructor; [apply Hk2; lia|apply Hk1; lia].
Qed.

(** One result, whatever the fuel. *)
Lemma checkSingle_sound es ops computeInfo fuel b s :
  encodes es ops → answered model ops →
  checkSingle model es computeInfo never_killed fuel = Returned (b, s) →
  (b = true ↔ linearizable model ops).
Proof.
  intros He Ha Hc. destruct (checkSingle_decides es ops computeInfo He Ha) as [k Hk].
  destruct (Hk (k + fuel)%nat ltac:(lia)) as (b' & s' & Hc' & Hb & _).
  rewrite (checkSingle_mono _ _ _ _ _ _ _ Hc) in Hc' by lia. by injection Hc' as <- <-.
Qed.

Definition results_of hist computeInfo fuel (i : nat) : outcome bool :=
  outcome_bind (checkSingle model (default [] (hist !! i)) computeInfo never_killed fuel)
    (λ '(ok, _), Returned ok).

Lemma results_of_sound hist parts computeInfo fuel i b :
  encoded model hist parts → i ∈ seq 0 (length hist) → results_of hist computeInfo fuel i = Returned b →
  (b = true ↔ ∀ ops, parts !! i = Some ops → linearizable model ops).
Proof.
  intros [He Ha] Hi Hres. apply elem_of_seq in Hi.
  destruct (lookup_lt_is_Some_2 hist i) as [es Hes]; [lia|].
  destruct (Forall2_lookup_l _ _ _ _ _ He Hes) as (ops & Hops & Heo).
  unfold results_of in Hres. rewrite Hes in Hres. cbn in Hres.
  destruct (checkSingle _ _ _ _ _) as [[b' s]| |] eqn:Hc; cbn in Hres; try done. injection Hres as ->.
  rewrite (checkSingle_sound es ops computeInfo fuel b s Heo); [|by apply Ha; eapply list_elem_of_lookup_2|done].
  split; [intros ? ? Heq; congruence|auto].
Qed.

Lemma all_parts (P : list (Operation V) → Prop) parts :
  (∀ i, i ∈ seq 0 (length parts) → ∀ ops, parts !! i = Some ops → P ops) ↔ ∀ ops, ops ∈ parts → P ops.
Proof.
  split.
  - intros Hi ops [i Hl]%list_elem_of_lookup. apply (Hi i); [|done].
    apply elem_of_seq. apply lookup_lt_Some in Hl. lia.
  - intros Hp i _ ops Hl. apply Hp. by eapply list_elem_of_lookup_2.
Qed.

(** The result of [checkParallel], of any run that has one. *)
Lemma checkParallel_sound hist parts computeInfo timeout sched fuel res info :
  encoded model hist parts →
  checkParallel model hist computeInfo timeout sched fuel = Returned (res, info) →
  (res = Ok → ∀ ops, ops ∈ parts → linearizable model ops)
  ∧ (res = Illegal → ∃ ops, ops ∈ parts ∧ ¬ linearizable model ops).
Proof.
  intros Hc Hrun. unfold checkParallel in Hrun. pose proof (Forall2_length _ _ _ (enc_parts _ _ _ Hc)) as Hlen.
  change (λ i, outcome_bind _ _) with (results_of hist computeInfo fuel) in Hrun.
  destruct (select_loop _ _ _ _ _ _) as [[[ok' timedOut] pending]| |] eqn:Hsel; cbn [outcome_bind] in Hrun; try done.
  destruct (select_loop_sound _ (λ i, ∀ ops, parts !! i = Some ops → linearizable model ops)
    _ _ _ _ _ _ _ _ (λ i b, results_of_sound hist parts computeInfo fuel i b Hc) Hsel) as [Ht Hf].
  destruct (if computeInfo then _ else _) as [info'| |]; cbn [outcome_bind] in Hrun; try done.
  injection Hrun as <- _. rewrite Hlen in *. split.
  - destruct ok', timedOut; cbn; try done. intros _. apply all_parts. by apply Ht.
  - destruct ok', timedOut; cbn; try done; intros _;
      (destruct (Hf eq_refl) as [?|(i & Hi & Hn)]; [done|]);
      apply elem_of_seq in Hi; destruct (lookup_lt_is_Some_2 parts i) as [ops Hops]; try lia;
      exists ops; (split; [by eapply list_elem_of_lookup_2|]); intros Hlin; apply Hn; intros; congruence.
Qed.

(** Without a timeout there is a definite result. *)
Lemma checkParallel_decides hist parts :
  parts ≠ [] → encoded model hist parts →
  ∃ k, ∀ fuel sched, (k <= fuel)%nat → complete sched (length parts) →
    ∃ res info, checkParallel model hist false 0 sched fuel = Returned (res, info)
      ∧ (res = Ok ↔ ∀ ops, ops ∈ parts → linearizable model ops).
Proof.
  intros Hne Hc. destruct (verdicts hist parts false Hc) as [k Hk].
  pose proof (Forall2_length _ _ _ (enc_parts _ _ _ Hc)) as Hlen.
  exists k. intros fuel sched Hf Hsched. specialize (Hk fuel Hf).
  assert (∃ res info, checkParallel model hist false 0 sched fuel = Returned (res, info)
    ∧ res ≠ Unknown) as (res & info & Hrun & Hres).
  { unfold checkParallel.
    change (λ i, outcome_bind _ _) with (results_of hist false fuel).
    destruct (select_loop_returns (results_of hist false fuel) false 0 (arrivals sched)
      true (seq 0 (length hist))) as (ok' & pending' & Hsel).
    - done.
    - by destruct hist, parts.
    - intros i Hi%elem_of_seq. apply Hsched. lia.
    - intros i Hi%elem_of_seq. destruct (lookup_lt_is_Some_2 hist i) as [es Hes]; [lia|].
      destruct (Forall2_lookup_l _ _ _ _ _ Hk Hes) as (ops & _ & b & s & Hcs & _).
      exists b. unfold results_of. rewrite Hes. cbn. by rewrite Hcs.
    - rewrite Hsel. cbn. eexists _, _. split; [reflexivity|]. by destruct ok'. }
  exists res, info. split; [done|].
  destruct (checkParallel_sound _ _ _ _ _ _ _ _ Hc Hrun) as [Hok Hill].
  split; [done|]. intros Hall. destruct res; [done|done|].
  destruct (Hill eq_refl) as (ops & Hin & Hn). by destruct Hn; apply Hall.
Qed.
End Laws.

(** ** The entry points *)
Definition partition_of model history : option (list (list (Operation V))) :=
  f ← Partition (fillDefault model); f history.

Lemma legal_fillDefault model st ops : legal (fillDefault model) st ops = legal model st ops.
Proof.
  revert st. induction ops as [|o ops IH]; intros st; [done|]. cbn.
  destruct (Step model st (Input o) (Output o)) as [[[] st']|]; [apply IH|done..].
Qed.

Lemma linearizable_fillDefault model ops : linearizable (fillDefault model) ops ↔ linearizable model ops.
Proof. unfold linearizable. by setoid_rewrite legal_fillDefault. Qed.

Lemma encoded_fillDefault model hist parts : encoded model hist parts → encoded (fillDefault model) hist parts.
Proof. by intros []. Qed.

Lemma checkable_fillDefault model parts : checkable model parts → checkable (fillDefault model) parts.
Proof. by intros []. Qed.

(** [Equal] left out of the model is [ShallowEqual], which satisfies the laws. *)
#[export] Instance ShallowEqual_laws model :
  Equal model = None → EqualLaws (fillDefault model) ShallowEqual.
Proof.
  intros He. split; [cbn; by rewrite He|].
  intros s t i o s' Hst Hstep. apply bool_decide_eq_true in Hst as ->. exists s'.
  split; [done|]. by apply bool_decide_eq_true.
Qed.

(** C12: On a history of at least one partition, whose operations return no earlier
    than they were called, [CheckOperations] returns, in whatever order the goroutines
    finish, and returns true exactly when every partition is linearizable.  Without
    partitions it waits for ever ([empty_history_never_returns] of [PorcupineRuns]). *)
Theorem CheckOperations_correct model same history parts :
  EqualLaws (fillDefault model) same →
  partition_of model history = Some parts → parts ≠ [] → checkable model parts →
  ∃ k, ∀ fuel sched, (k <= fuel)%nat → complete sched (length parts) →
    ∃ b, CheckOperations model history sched fuel = Returned b
      ∧ (b = true ↔ ∀ ops, ops ∈ parts → linearizable model ops).
Proof.
  intros Hlaws Hpart Hne Hc%checkable_encoded%encoded_fillDefault.
  destruct (checkParallel_decides (fillDefault model) (same := same) _ parts Hne Hc) as [k Hk].
  exists k. intros fuel sched Hf Hsched. destruct (Hk fuel sched Hf Hsched) as (res & info & Hrun & Hres).
  exists (bool_decide (res = Ok)). split.
  - unfold CheckOperations, checkOperations. fold (partition_of model history). rewrite Hpart.
    cbn [or_panic outcome_bind]. by rewrite Hrun.
  - rewrite bool_decide_eq_true, Hres. by setoid_rewrite linearizable_fillDefault.
Qed.

(** C20: With any timeout, verbosity, schedule and amount of work done, [Ok] and
    [Illegal] are right; only [Unknown] says nothing. *)
Theorem checkOperations_sound model same history parts verbose timeout sched fuel res info :
  EqualLaws (fillDefault model) same →
  partition_of model history = Some parts → checkable model parts →
  checkOperations model history verbose timeout sched fuel = Returned (res, info) →
  (res = Ok → ∀ ops, ops ∈ parts → linearizable model ops)
  ∧ (res = Illegal → ∃ ops, ops ∈ parts ∧ ¬ linearizable model ops).
Proof.
  intros Hlaws Hpart Hc%checkable_encoded%encoded_fillDefault Hrun.
  unfold checkOperations in Hrun. fold (partition_of model history) in Hrun. rewrite Hpart in Hrun.
  cbn [or_panic outcome_bind] in Hrun.
  destruct (checkParallel_sound (fillDefault model) (same := same) _ _ _ _ _ _ _ _ Hc Hrun) as [Hok Hill].
  setoid_rewrite linearizable_fillDefault in Hok. by setoid_rewrite linearizable_fillDefault in Hill.
Qed.
End Ops.
