(* ===== verification/PorcupineEvents.v ===== *)
(** * PorcupineEvents: what the checker answers for histories of events

    [CheckEvents] is given calls and returns in the order in which they happened,
    with ids of the client's choice.  It renumbers the ids and takes the index of
    an event for its time.  The file shows that the entries it searches are those
    of the operations the events stand for, so the answer is whether these are
    linearizable. *)
From Stdlib Require Import ZArith Lia.
From stdpp Require Import base gmap fin_maps option relations sorting list.
From S2P Require Import Prelude Bitset Porcupine PorcupinePaths PorcupineSearch PorcupineCheck PorcupineCorrect PorcupineOps.
#[local] Open Scope Z_scope.

#[export] Instance EventKind_eq_dec : EqDecision EventKind.
Proof. solve_decision. Defined.

Section Events.
Context {V State : Type} `{Interface V, Printable V, Printable State, EqDecision State}.
Context `{TimeSorter V, !TimeSorterLaws V}.
Implicit Types (model : Model V State) (events todo : list (Event V)) (e c r : Event V) (m : gmap Z Z).

(** ** The operations of a history of events *)

(** Every id has one call and, later, one return by the same client. *)
Record matched events : Prop := {
  ev_once : NoDup ((λ e, (Id e, Kind e)) <$> events);
  ev_returned : ∀ k c, events !! k = Some c → Kind c = CallEvent →
    ∃ j r, (k < j)%nat ∧ events !! j = Some r ∧ Kind r = ReturnEvent ∧ Id r = Id c ∧ ev_ClientId r = ev_ClientId c;
  ev_called : ∀ j r, events !! j = Some r → Kind r = ReturnEvent →
    ∃ k c, events !! k = Some c ∧ Kind c = CallEvent ∧ Id c = Id r
}.

Definition returns (i : Z) e : Prop := Kind e = ReturnEvent ∧ Id e = i.
#[local] Instance returns_dec i e : Decision (returns i e) := decide (Kind e = ReturnEvent ∧ Id e = i).

(** An operation for each call: it lasts from the index of the call to that of
    the return of its id. *)
Fixpoint operations_from events (k : nat) todo : list (Z * Operation V) :=
  match todo with
  | [] => []
  | c :: todo =>
      match Kind c, list_find (returns (Id c)) events with
      | CallEvent, Some (j, r) =>
          (Id c, mkOperation (ev_ClientId c) (Value c) (Z.of_nat k) (Value r) (Z.of_nat j))
          :: operations_from events (S k) todo
      | _, _ => operations_from events (S k) todo
      end
  end.

Definition operations_of events : list (Operation V) := (operations_from events 0 events).*2.

Lemma elem_of_operations_from events todo k i o :
  (i, o) ∈ operations_from events k todo ↔ ∃ d c j r, todo !! d = Some c ∧ Kind c = CallEvent ∧ i = Id c ∧
    list_find (returns (Id c)) events = Some (j, r) ∧
    o = mkOperation (ev_ClientId c) (Value c) (Z.of_nat (k + d)) (Value r) (Z.of_nat j).
Proof.
  revert k. induction todo as [|c todo IH]; intros k; cbn [operations_from].
  { split; [by intros ?%not_elem_of_nil|]. by intros (d & c & j & r & ? & _). }
  assert ((i, o) ∈ operations_from events (S k) todo ↔
    ∃ d c' j r, (c :: todo) !! S d = Some c' ∧ Kind c' = CallEvent ∧ i = Id c' ∧
    list_find (returns (Id c')) events = Some (j, r) ∧
    o = mkOperation (ev_ClientId c') (Value c') (Z.of_nat (k + S d)) (Value r) (Z.of_nat j)) as Htail.
  { rewrite IH. cbn [lookup list_lookup]. by setoid_rewrite Nat.add_succ_r. }
  destruct (Kind c) eqn:Hk; [destruct (list_find _ events) as [[j r]|] eqn:Hf|];
    rewrite ?elem_of_cons, Htail; split.
  - intros [[= -> ->]|(d & ?)]; [|by exists (S d)]. exists 0%nat, c, j, r. by rewrite Nat.add_0_r.
  - intros ([|d] & c' & j' & r' & Hd & ? & ? & Hf' & ->); [left|right; by exists d, c', j', r'].
    injection Hd as <-. rewrite Hf in Hf'. injection Hf' as <- <-. rewrite Nat.add_0_r. congruence.
  - intros (d & ?); by exists (S d).
  - intros ([|d] & c' & j' & r' & Hd & ? & ? & Hf' & ->); [|by exists d, c', j', r'].
    injection Hd as <-. congruence.
  - intros (d & ?); by exists (S d).
  - intros ([|d] & c' & j' & r' & Hd & ? & ? & Hf' & ->); [|by exists d, c', j', r'].
    injection Hd as <-. congruence.
Qed.

Lemma operations_from_ids events k todo :
  (operations_from events k todo).*1 `sublist_of` (Id <$> filter (λ e, Kind e = CallEvent) todo).
Proof.
  revert k. induction todo as [|c todo IH]; intros k; [done|]. cbn [operations_from]. rewrite filter_cons.
  destruct (Kind c) eqn:Hk; [rewrite decide_True by done|by rewrite decide_False by done].
  destruct (list_find _ _) as [[j r]|]; cbn; [by apply sublist_skip|by apply sublist_cons].
Qed.

Lemma call_ids_NoDup events :
  NoDup ((λ e, (Id e, Kind e)) <$> events) → NoDup (Id <$> filter (λ e, Kind e = CallEvent) events).
Proof.
  induction events as [|e events IH]; [constructor|]. rewrite fmap_cons, filter_cons.
  intros [He Hn]%NoDup_cons. case_decide as Hk; [|by apply IH]. constructor; [|by apply IH].
  intros (e' & Hid & [Hk' Hin]%list_elem_of_filter)%list_elem_of_fmap. apply He.
  rewrite Hid, Hk, <- Hk'. by apply (list_elem_of_fmap_2 (λ e, (Id e, Kind e))).
Qed.

Lemma operations_ids_NoDup events : matched events → NoDup (operations_from events 0 events).*1.
Proof.
  intros Hm. eapply sublist_NoDup; [|apply operations_from_ids]. by apply call_ids_NoDup, ev_once.
Qed.

(** Two events of the same id and kind are the same. *)
Lemma matched_once events j j' r r' :
  matched events → events !! j = Some r → events !! j' = Some r' → Id r = Id r' → Kind r = Kind r' →
  j = j' ∧ r = r'.
Proof.
  intros Hm Hj Hj' Hid Hk. assert (j = j') as ->; [|split; congruence].
  eapply NoDup_lookup; [by apply ev_once| |]; rewrite list_lookup_fmap; [by rewrite Hj|].
  rewrite Hj'. cbn. by rewrite Hid, Hk.
Qed.

Lemma find_return events c k :
  matched events → events !! k = Some c → Kind c = CallEvent →
  ∃ j r, list_find (returns (Id c)) events = Some (j, r) ∧ events !! j = Some r ∧ Kind r = ReturnEvent ∧
    Id r = Id c ∧ (k < j)%nat ∧ ev_ClientId r = ev_ClientId c.
Proof.
  intros Hm Hk Hc. destruct (ev_returned _ Hm _ _ Hk Hc) as (j & r & Hlt & Hj & Hr & Hid & Hcl).
  destruct (list_find_elem_of (returns (Id c)) events r) as [[j' r'] Hf];
    [by eapply list_elem_of_lookup_2|done|].
  pose proof Hf as (Hj' & [Hr' Hid'] & _)%list_find_Some.
  destruct (matched_once _ _ _ _ _ Hm Hj Hj') as [-> ->]; [congruence..|]. by exists j', r'.
Qed.

(** With the ids of the client, the operations. *)
Lemma elem_of_operations events i o :
  matched events →
  (i, o) ∈ operations_from events 0 events ↔ ∃ k c j r,
    events !! k = Some c ∧ Kind c = CallEvent ∧ events !! j = Some r ∧ Kind r = ReturnEvent ∧
    Id c = i ∧ Id r = i ∧ (k < j)%nat ∧ ev_ClientId r = ev_ClientId c ∧
    o = mkOperation (ev_ClientId c) (Value c) (Z.of_nat k) (Value r) (Z.of_nat j).
Proof.
  intros Hm. rewrite elem_of_operations_from. split.
  - intros (k & c & j & r & Hk & Hc & -> & Hf & ->).
    destruct (find_return _ _ _ Hm Hk Hc) as (j' & r' & Hf' & ?). rewrite Hf in Hf'. injection Hf' as <- <-.
    exists k, c, j, r. naive_solver.
  - intros (k & c & j & r & Hk & Hc & Hj & Hr & <- & Hid & Hlt & Hcl & ->).
    destruct (find_return _ _ _ Hm Hk Hc) as (j' & r' & Hf & Hj' & Hr' & Hid' & _).
    destruct (matched_once _ _ _ _ _ Hm Hj Hj') as [<- <-]; [congruence..|]. by exists k, c, j, r.
Qed.

(** ** Renumbering *)
Definition rename (f : Z → Z) e : Event V := mkEvent (ev_ClientId e) (Kind e) (Value e) (f (Id e)).

Definition name_in m (i : Z) : Z := default 0 (m !! i).

(** [m] gives the numbers below [n], each once. *)
Record numbering m (n : Z) : Prop := {
  num_inj : ∀ a b i, m !! a = Some i → m !! b = Some i → a = b;
  num_range : ∀ i, (∃ a, m !! a = Some i) ↔ 0 <= i < n
}.

Lemma numbering_insert m n a : numbering m n → m !! a = None → 0 <= n → numbering (<[a := n]> m) (n + 1).
Proof.
  intros [Hinj Hrange] Ha Hn. assert (∀ b, m !! b ≠ Some n) as Hfresh.
  { intros b Hb. assert (0 <= n < n) by (apply Hrange; by exists b). lia. }
  split.
  - intros b c i Hb%lookup_insert_Some Hc%lookup_insert_Some. naive_solver.
  - intros i. split.
    + intros [b [[_ <-]|[_ Hb]]%lookup_insert_Some]; [lia|].
      assert (0 <= i < n) by (apply Hrange; by exists b). lia.
    + intros Hi. destruct (decide (i = n)) as [->|]; [exists a; apply lookup_insert_eq|].
      destruct (proj2 (Hrange i)) as [b Hb]; [lia|]. exists b. rewrite lookup_insert_ne; [done|congruence].
Qed.

Lemma renumber_loop_spec events m i :
  numbering m i → 0 <= i →
  ∃ m' n, renumber_loop events m i = rename (name_in m') <$> events ∧ numbering m' n ∧ m ⊆ m' ∧
    ∀ a, is_Some (m' !! a) ↔ is_Some (m !! a) ∨ a ∈ Id <$> events.
Proof.
  revert m i. induction events as [|e events IH]; intros m i Hm Hi; cbn [renumber_loop].
  { exists m, i. split_and!; [done..|]. intros a. rewrite elem_of_nil. tauto. }
  assert (∀ m0 j k, m0 !! Id e = Some j → numbering m0 k → 0 <= k → m ⊆ m0 →
    (∀ a, is_Some (m0 !! a) ↔ is_Some (m !! a) ∨ a = Id e) →
    ∃ m' n, mkEvent (ev_ClientId e) (Kind e) (Value e) j :: renumber_loop events m0 k
      = rename (name_in m') <$> e :: events ∧ numbering m' n ∧ m ⊆ m' ∧
      ∀ a, is_Some (m' !! a) ↔ is_Some (m !! a) ∨ a ∈ Id <$> e :: events) as Hstep.
  { intros m0 j k Hj Hk Hpos Hsub Hdom. destruct (IH m0 k Hk Hpos) as (m' & n & Heq & Hn & Hsub' & Hdom').
    exists m', n. split_and!; [|done|by etrans|].
    - rewrite Heq. cbn. unfold rename at 2, name_in. by rewrite (lookup_weaken _ _ _ _ Hj Hsub').
    - intros a. rewrite Hdom', Hdom, fmap_cons, elem_of_cons. tauto. }
  destruct (m !! Id e) as [j|] eqn:Hj.
  - apply Hstep; [done..|]. intros a. split; [by left|]. intros [?| ->]; [done|by eexists].
  - apply Hstep; [apply lookup_insert_eq|by apply numbering_insert|lia|by apply insert_subseteq|].
    intros a. rewrite lookup_insert_is_Some'. naive_solver.
Qed.

Lemma renumber_spec events :
  ∃ f n, renumber events = rename f <$> events ∧
    (∀ a b, a ∈ Id <$> events → b ∈ Id <$> events → f a = f b → a = b) ∧
    (∀ i, (∃ a, a ∈ Id <$> events ∧ f a = i) ↔ 0 <= i < n).
Proof.
  destruct (renumber_loop_spec events ∅ 0) as (m & n & Heq & [Hinj Hrange] & _ & Hdom); [|done|].
  { split; [by intros a b i; rewrite lookup_empty|]. intros i. split; [|lia]. intros [a Ha]. by rewrite lookup_empty in Ha. }
  assert (∀ a, a ∈ Id <$> events ↔ is_Some (m !! a)) as Hin.
  { intros a. rewrite Hdom, lookup_empty. split; [by right|]. by intros [[? ?]|?]. }
  exists (name_in m), n. split; [done|]. setoid_rewrite Hin. unfold name_in. split.
  - intros a b [i Ha] [j Hb]. rewrite Ha, Hb. cbn. intros ->. by eapply Hinj.
  - intros i. rewrite <- Hrange. split.
    + intros (a & [j Ha] & Hi). exists a. rewrite Ha in Hi |- *. cbn in Hi. by subst j.
    + intros [a Ha]. exists a. by rewrite Ha.
Qed.

(** ** The entries of events *)
Lemma elem_of_convertEntries events x :
  x ∈ convertEntries events ↔ ∃ k e, events !! k = Some e ∧ x = convertEntry k e.
Proof.
  unfold convertEntries. rewrite list_elem_of_lookup. setoid_rewrite list_lookup_imap. split.
  - intros [k Hk]. apply fmap_Some in Hk as (e & ? & ->). by exists k, e.
  - intros (k & e & He & ->). exists k. by rewrite He.
Qed.

Lemma convertEntries_NoDup events : NoDup (convertEntries events).
Proof.
  apply NoDup_alt. intros i j x. unfold convertEntries. rewrite !list_lookup_imap.
  intros (e & _ & ->)%fmap_Some (e' & _ & Heq)%fmap_Some. apply (f_equal time) in Heq. cbn in Heq. lia.
Qed.

Lemma convertEntries_sorted events : StronglySorted (λ a b, Less b a = false) (convertEntries events).
Proof.
  assert (∀ n, StronglySorted (λ a b, Less b a = false) (imap (λ k, convertEntry (n + k)) events)) as Hall;
    [|exact (Hall 0%nat)].
  induction events as [|e events IH]; intros n; [constructor|]. rewrite imap_cons.
  rewrite (imap_ext _ (λ k, convertEntry (S n + k))) by (intros; cbn; f_equal; lia).
  constructor; [apply IH|]. apply Forall_forall. intros x [k Hk]%list_elem_of_lookup.
  rewrite list_lookup_imap in Hk. apply fmap_Some in Hk as (e' & _ & ->). unfold Less, convertEntry. cbn [time].
  rewrite decide_True by lia. apply bool_decide_eq_false. lia.
Qed.

(** The operations by the numbers that [renumber] gives their ids. *)
Definition renumbered (f : Z → Z) events : list (Z * Operation V) :=
  prod_map f (λ o, o) <$> operations_from events 0 events.

Lemma elem_of_renumbered f events i o :
  (i, o) ∈ renumbered f events ↔ ∃ a, i = f a ∧ (a, o) ∈ operations_from events 0 events.
Proof.
  unfold renumbered. rewrite list_elem_of_fmap. split.
  - intros ([a o'] & [= -> ->] & Hin). by exists a.
  - intros (a & -> & Hin). by exists (a, o).
Qed.

(** An event is the call or the return of an operation, and nothing else is. *)
Lemma entries_renumbered f events x :
  matched events →
  x ∈ convertEntries (rename f <$> events) ↔ x ∈ ents (renumbered f events).
Proof.
  intros Hm. rewrite elem_of_convertEntries, elem_of_ents. setoid_rewrite elem_of_renumbered.
  setoid_rewrite (elem_of_operations _ _ _ Hm). split.
  - intros (k & e' & He & ->). apply list_lookup_fmap_Some in He as (e & -> & He).
    destruct (Kind e) eqn:Hk.
    + destruct (find_return _ _ _ Hm He Hk) as (j & r & _ & Hj & Hr & Hid & Hlt & Hcl).
      eexists (f (Id e)), _. split; [by exists (Id e); split; [|by exists k, e, j, r]|]. left.
      unfold convertEntry, rename, call_of. cbn. by rewrite Hk.
    + destruct (ev_called _ Hm _ _ He Hk) as (k' & c & Hk' & Hc & Hid).
      destruct (ev_returned _ Hm _ _ Hk' Hc) as (j & r & Hlt & Hj & Hr & Hid' & Hcl).
      destruct (matched_once _ _ _ _ _ Hm Hj He) as [-> ->]; [congruence..|].
      eexists (f (Id e)), _. split; [by exists (Id e); split; [|by exists k', c, k, e]|]. right.
      unfold convertEntry, rename, return_of. cbn. by rewrite Hk, Hcl.
  - intros (i & o & (a & -> & k & c & j & r & Hk & Hc & Hj & Hr & <- & Hid & Hlt & Hcl & ->) & [-> | ->]).
    + exists k, (rename f c). rewrite list_lookup_fmap, Hk. split; [done|].
      unfold convertEntry, rename, call_of. cbn. by rewrite Hc.
    + exists j, (rename f r). rewrite list_lookup_fmap, Hj. split; [done|].
      unfold convertEntry, rename, return_of. cbn. by rewrite Hr, Hid, Hcl.
Qed.

Lemma operations_ids events a : matched events → a ∈ (operations_from events 0 events).*1 ↔ a ∈ Id <$> events.
Proof.
  intros Hm. rewrite !list_elem_of_fmap. split.
  - intros ([i o] & -> & (k & c & j & r & Hk & _ & _ & _ & Hc & _)%(elem_of_operations _ _ _ Hm)).
    exists c. split; [done|]. by eapply list_elem_of_lookup_2.
  - intros (e & -> & [k He]%list_elem_of_lookup).
    assert (∃ k c, events !! k = Some c ∧ Kind c = CallEvent ∧ Id c = Id e) as (k' & c & Hk & Hc & Hid).
    { destruct (Kind e) eqn:Hk; [by exists k, e|]. by eapply ev_called. }
    destruct (find_return _ _ _ Hm Hk Hc) as (j & r & _ & Hj & Hr & Hid' & Hlt & Hcl).
    eexists (Id e, _). split; [done|]. apply (elem_of_operations _ _ _ Hm).
    exists k', c, j, r. split_and!; (done || congruence).
Qed.

Lemma operations_timed events : matched events → timed (operations_of events).
Proof.
  intros Hm o ([i o'] & -> & Hin)%list_elem_of_fmap.
  apply (elem_of_operations _ _ _ Hm) in Hin as (k & c & j & r & _ & _ & _ & _ & _ & _ & ? & _ & ->). cbn. lia.
Qed.

(** The entries searched for a history of events are those of its operations. *)
Lemma convertEntries_encodes events :
  matched events → encodes (convertEntries (renumber events)) (operations_of events).
Proof.
  intros Hm. destruct (renumber_spec events) as (f & n & -> & Hinj & Hrange).
  assert (∀ i, i ∈ (renumbered f events).*1 ↔ 0 <= i < n) as Hids.
  { intros i. rewrite <- Hrange. setoid_rewrite <- (operations_ids _ _ Hm). unfold renumbered.
    rewrite <- list_fmap_compose, list_elem_of_fmap. split.
    - intros ([a o] & -> & Hin). exists a. by apply (list_elem_of_fmap_2 fst) in Hin.
    - intros (a & ([a' o] & -> & Hin)%list_elem_of_fmap & <-). by exists (a', o). }
  assert (NoDup (renumbered f events).*1) as Hnd.
  { unfold renumbered. rewrite <- list_fmap_compose. change (NoDup ((f ∘ fst) <$> operations_from events 0 events)).
    rewrite list_fmap_compose. apply NoDup_fmap_2_strong; [|by apply operations_ids_NoDup].
    intros a b Ha Hb. apply Hinj; by apply operations_ids. }
  assert ((renumbered f events).*2 = operations_of events) as Hops
    by (unfold renumbered, operations_of; by rewrite <- list_fmap_compose).
  exists (renumbered f events). split_and!; [|done|].
  - split.
    + rewrite items_entries. apply NoDup_Permutation; [apply convertEntries_NoDup|by eapply NoDup_fmap_1, ents_keys|].
      intros x. by apply entries_renumbered.
    + done.
    + apply items_sorted, convertEntries_sorted.
    + rewrite Hops. by apply operations_timed.
  - intros i Hi. apply Hids in Hi. split; [lia|]. rewrite <- Hops.
    assert (length (seqZ 0 n) <= length (renumbered f events).*1)%nat as Hlen.
    { apply submseteq_length, NoDup_submseteq; [apply NoDup_seqZ|].
      intros j Hj%elem_of_seqZ. apply Hids. lia. }
    rewrite length_seqZ, length_fmap in Hlen. unfold len. rewrite length_fmap. lia.
Qed.

(** ** The entry points *)
Definition partition_events_of model history : option (list (list (Event V))) :=
  f ← PartitionEvent (fillDefault model); f history.

(** What the checker needs to know of a history of events. *)
Record checkable_events model (parts : list (list (Event V))) : Prop := {
  parts_matched : ∀ events, events ∈ parts → matched events;
  events_answered : ∀ events, events ∈ parts → answered model (operations_of events)
}.

Lemma checkable_events_encoded model parts :
  checkable_events model parts →
  encoded (fillDefault model) ((λ events, convertEntries (renumber events)) <$> parts) (operations_of <$> parts).
Proof.
  intros [Hm Ha]. split.
  - apply Forall2_fmap, Forall_Forall2_diag, Forall_forall. intros events Hin. by apply convertEntries_encodes, Hm.
  - intros ops (events & -> & Hin)%list_elem_of_fmap. by apply Ha.
Qed.

Lemma linearizable_parts model (parts : list (list (Event V))) :
  (∀ ops, ops ∈ operations_of <$> parts → linearizable (fillDefault model) ops) ↔
  ∀ events, events ∈ parts → linearizable model (operations_of events).
Proof.
  split.
  - intros Hall events Hin. apply linearizable_fillDefault, Hall. by apply list_elem_of_fmap_2.
  - intros Hall ops (events & -> & Hin)%list_elem_of_fmap. by apply linearizable_fillDefault, Hall.
Qed.

(** C13: On a history of at least one partition, in which every call has its return,
    [CheckEvents] returns, in whatever order the goroutines finish, and returns true
    exactly when the operations that the events of every partition stand for are
    linearizable. *)
Theorem CheckEvents_correct model same history parts :
  EqualLaws (fillDefault model) same →
  partition_events_of model history = Some parts → parts ≠ [] → checkable_events model parts →
  ∃ k, ∀ fuel sched, (k <= fuel)%nat → complete sched (length parts) →
    ∃ b, CheckEvents model history sched fuel = Returned b
      ∧ (b = true ↔ ∀ events, events ∈ parts → linearizable model (operations_of events)).
Proof.
  intros Hlaws Hpart Hne Henc%checkable_events_encoded.
  assert (operations_of <$> parts ≠ []) as Hne' by by destruct parts.
  destruct (checkParallel_decides (fillDefault model) (same := same) _ _ Hne' Henc) as [k Hk].
  exists k. intros fuel sched Hf Hsched. rewrite length_fmap in Hk.
  destruct (Hk fuel sched Hf Hsched) as (res & info & Hrun & Hres).
  exists (bool_decide (res = Ok)). split.
  - unfold CheckEvents, checkEvents. fold (partition_events_of model history). rewrite Hpart.
    cbn [or_panic outcome_bind]. by rewrite Hrun.
  - by rewrite bool_decide_eq_true, Hres, linearizable_parts.
Qed.

(** With any timeout, the definite answers for events are right. *)
Theorem checkEvents_sound model same history parts verbose timeout sched fuel res info :
  EqualLaws (fillDefault model) same →
  partition_events_of model history = Some parts → checkable_events model parts →
  checkEvents model history verbose timeout sched fuel = Returned (res, info) →
  (res = Ok → ∀ events, events ∈ parts → linearizable model (operations_of events))
  ∧ (res = Illegal → ∃ events, events ∈ parts ∧ ¬ linearizable model (operations_of events)).
Proof.
  intros Hlaws Hpart Henc%checkable_events_encoded Hrun.
  unfold checkEvents in Hrun. fold (partition_events_of model history) in Hrun. rewrite Hpart in Hrun.
  cbn [or_panic outcome_bind] in Hrun.
  destruct (checkParallel_sound (fillDefault model) (same := same) _ _ _ _ _ _ _ _ Henc Hrun) as [Hok Hill].
  split; [by rewrite <- linearizable_parts|]. intros Hres.
  destruct (Hill Hres) as (ops & (events & -> & Hin)%list_elem_of_fmap & Hn). exists events.
  split; [done|]. by rewrite <- linearizable_fillDefault.
Qed.
End Events.
