(* ===== verification/PorcupineVis.v ===== *)
(** * PorcupineVis: the data behind the checker's picture

    [computeVisualizationData] of [src/src/porcupine/visualization.go]: for each
    partition the history, one line per operation, and the partial
    linearizations a verbose check found, with the state after each step.  On
    what a verbose check returns it never panics, and what it draws is so.
    [Visualize] puts the data on a page for a writer, [VisualizePath] in a file. *)
From Stdlib Require Import ZArith Lia.
From stdpp Require Import base gmap strings sorting option list.
From S2P Require Import Prelude Bitset Porcupine PorcupinePaths PorcupineSearch PorcupineCheck PorcupineCorrect PorcupineOps.
#[local] Open Scope Z_scope.

Record historyElement := mkHistoryElement {
  he_ClientId : Z; he_Start : Z; he_End : Z; he_Description : string
}.

#[export] Instance upd_he_ClientId : Upd he_ClientId := λ v e,
  mkHistoryElement v (he_Start e) (he_End e) (he_Description e).
#[export] Instance upd_he_Start : Upd he_Start := λ v e,
  mkHistoryElement (he_ClientId e) v (he_End e) (he_Description e).
#[export] Instance upd_he_End : Upd he_End := λ v e,
  mkHistoryElement (he_ClientId e) (he_Start e) v (he_Description e).
#[export] Instance upd_he_Description : Upd he_Description := λ v e,
  mkHistoryElement (he_ClientId e) (he_Start e) (he_End e) v.

Definition zeroHistoryElement : historyElement := mkHistoryElement 0 0 0 "".

Record linearizationStep := mkLinearizationStep { ls_Index : Z; StateDescription : string }.

Abbreviation partialLinearization := (list linearizationStep).

Record partitionVisualizationData := mkPartitionData {
  vis_History : list historyElement;
  PartialLinearizations : list partialLinearization;
  Largest : gmap Z Z
}.

Abbreviation visualizationData := (list partitionVisualizationData).

(** [json.Marshal] on the data, and the constant [html] before and after its one verb. *)
Class Json := {
  Marshal : visualizationData → string + string;
  html_head : string;
  html_tail : string
}.

(** An [io.Writer]: [fmt.Fprintf] hands it the whole text at once. *)
Class Writer (Out : Type) := Write : string → Out → Out * option string.

(** [os.Create], an open file or the error, and [Close]. *)
Class FileSystem (File Files : Type) := {
  Create : string → Files → File + Files * string;
  Close : File → Files
}.

(** [m[key]], with the zero value of the type for a missing key. *)
Definition map_at {A} (zero : A) (m : gmap Z A) (key : Z) : A := default zero (m !! key).

(** [sort.Slice] by decreasing length: some order in which none is longer than
    one before it. *)
Class LongestFirst := sort_longest_first : list (list Z) → list (list Z).
Class LongestFirstLaws `{LongestFirst} : Prop := {
  sort_longest_first_Permutation l : sort_longest_first l ≡ₚ l;
  sort_longest_first_sorted l : StronglySorted (λ a b, len b <= len a) (sort_longest_first l)
}.

(** [largestIndex] and [largestSize]. *)
Abbreviation largest := (gmap Z Z * gmap Z Z)%type.

Section Visualization.
Context {V State : Type} `{Interface V, Printable V, Printable State, EqDecision State}.
Context `{TimeSorter V, LongestFirst}.
Implicit Types (model : Model V State) (partial : list Z).

Definition call_DescribeOperation model (input output : V) : option string :=
  f ← DescribeOperation model; f input output.

Definition call_DescribeState model (st : State) : option string :=
  f ← DescribeState model; f st.

(** The variables [history], [callValue] and [returnValue]. *)
Record gathered := mkGathered {
  g_history : list historyElement;
  callValue : gmap Z V;
  returnValue : gmap Z V
}.

(** One entry of the history; an id out of range panics. *)
Definition gather_one model (g : gathered) (elem : entry V) : option gathered :=
  h ← at_index (g_history g) (id elem);
  match kind elem with
  | callEntry =>
      let h := h <| he_ClientId := clientId elem |> <| he_Start := time elem |> in
      Some (mkGathered (<[Z.to_nat (id elem) := h]> (g_history g))
              (<[id elem := value elem]> (callValue g)) (returnValue g))
  | returnEntry =>
      desc ← call_DescribeOperation model (map_at nil_value (callValue g) (id elem)) (value elem);
      let h := h <| he_End := time elem |> <| he_Description := desc |> in
      Some (mkGathered (<[Z.to_nat (id elem) := h]> (g_history g))
              (callValue g) (<[id elem := value elem]> (returnValue g)))
  end.

Fixpoint gather model (entries : list (entry V)) (g : gathered) : option gathered :=
  match entries with
  | [] => Some g
  | elem :: entries => g ← gather_one model g elem; gather model entries g
  end.

Definition note_largest (i size histId : Z) (lg : largest) : largest :=
  if decide (map_at 0 lg.2 histId < size) then (<[histId := i]> lg.1, <[histId := size]> lg.2) else lg.

(** The steps of partial linearization number [i], of length [size]; a step the
    model refuses panics. *)
Fixpoint draw_steps model (g : gathered) (i size : Z) partial (st : State) (lg : largest)
  : option (partialLinearization * largest) :=
  match partial with
  | [] => Some ([], lg)
  | histId :: partial =>
      '(ok, st) ← Step model st (map_at nil_value (callValue g) histId)
                                (map_at nil_value (returnValue g) histId);
      if ok : bool then
        stateDesc ← call_DescribeState model st;
        '(steps, lg) ← draw_steps model g i size partial st (note_largest i size histId lg);
        Some (mkLinearizationStep histId stateDesc :: steps, lg)
      else None
  end.

Fixpoint draw_partials model (g : gathered) (i : Z) (partials : list (list Z)) (lg : largest)
  : option (list partialLinearization * largest) :=
  match partials with
  | [] => Some ([], lg)
  | partial :: partials =>
      '(lin, lg) ← draw_steps model g i (len partial) partial (Init model) lg;
      '(lins, lg) ← draw_partials model g (i + 1) partials lg;
      Some (lin :: lins, lg)
  end.

(** One partition: its data, and its partial linearizations, which are sorted in
    place. *)
Definition draw_partition model (info : linearizationInfo (V := V)) (partition : nat)
  : option (partitionVisualizationData * list (list Z)) :=
  entries ← info_history info !! partition;
  let n := Z.quot (len entries) 2 in
  g ← gather model entries (mkGathered (replicate (Z.to_nat n) zeroHistoryElement) ∅ ∅);
  partials ← partialLinearizations info !! partition;
  let partials := sort_longest_first partials in
  '(linearizations, lg) ← draw_partials model g 0 partials (∅, ∅);
  Some (mkPartitionData (g_history g) linearizations lg.1, partials).

Definition computeVisualizationData model (info : linearizationInfo (V := V))
  : option (visualizationData * linearizationInfo (V := V)) :=
  let model := fillDefault model in
  ds ← mapM (draw_partition model info) (seq 0 (length (info_history info)));
  Some (ds.*1, mkInfo (info_history info) ds.*2).

(** [Visualize], which panics with [computeVisualizationData]: what the writer
    became, [info] with its partials sorted, and the error. *)
Definition Visualize `{Json, Writer Out} model (info : linearizationInfo (V := V)) (output : Out)
  : option (Out * linearizationInfo (V := V) * option string) :=
  '(data, info) ← computeVisualizationData model info;
  match Marshal data with
  | inr err => Some (output, info, Some err)
  | inl jsonData =>
      let '(output, err) := Write (html_head +:+ jsonData +:+ html_tail) output in Some (output, info, err)
  end.

(** The file is closed also when [Visualize] fails; a panic leaves by it too. *)
Definition VisualizePath `{Json, Writer File, FileSystem File Files} model (info : linearizationInfo (V := V)) (path : string)
    (fs : Files) : option (Files * linearizationInfo (V := V) * option string) :=
  match Create path fs with
  | inr (fs, err) => Some (fs, info, Some err)
  | inl f =>
      '(f, info, err) ← Visualize model info f;
      Some (Close f, info, err)
  end.
End Visualization.
