(* ===== verification/PorcupineDraws.v ===== *)
(** * PorcupineDraws: what a verbose check draws is so

    [computeVisualizationData] on the information of a verbose check: it returns,
    its history elements are the operations, every partial linearization is an
    execution of the model that keeps the order of operations, and [Largest]
    points to a longest one for each operation. *)
From Stdlib Require Import ZArith Lia.
From stdpp Require Import base gmap strings sorting option list.
From S2P Require Import Prelude Bitset Porcupine PorcupineHeap PorcupinePaths PorcupineSearch PorcupineCheck PorcupineCorrect PorcupineOps PorcupineVis.
#[local] Open Scope Z_scope.

Lemma Forall2_in_r {A B} (R : A → B → Prop) (l : list A) (k : list B) y :
  Forall2 R l k → y ∈ k → ∃ x, x ∈ l ∧ R x y.
Proof.
  intros Hlk [i Hi]%list_elem_of_lookup. destruct (Forall2_lookup_r _ _ _ _ _ Hlk Hi) as (x & Hx & HR).
  exists x. split; [by eapply list_elem_of_lookup_2|done].
Qed.

Lemma mapM_seq {A B} (f : nat → option B) (R : A → B → Prop) (l : list A) (k : nat) :
  (∀ p x, l !! p = Some x → ∃ y, f (k + p)%nat = Some y ∧ R x y) →
  ∃ ys, mapM f (seq k (length l)) = Some ys ∧ Forall2 R l ys.
Proof.
  revert k. induction l as [|x l IH]; intros k Hf; [by exists []|].
  destruct (Hf 0%nat x eq_refl) as (y & Hy & HR). rewrite Nat.add_0_r in Hy.
  destruct (IH (S k)) as (ys & Hys & Hl).
  { intros p x' Hp. destruct (Hf (S p) x' Hp) as (y' & Hy' & ?). exists y'. by rewrite Nat.add_succ_r in Hy'. }
  exists (y :: ys). cbn. rewrite Hy. cbn. rewrite Hys. split; [done|]. by constructor.
Qed.

Section Draws.
Context {V State : Type} `{Interface V, Printable V, Printable State, EqDecision State}.
Context `{TimeSorter V, !TimeSorterLaws V, LongestFirst, !LongestFirstLaws}.
Implicit Types (model : Model V State) (ops σ : list (Operation V)) (o : Operation V).
Implicit Types (lin : partialLinearization) (ids : list Z) (i j k : Z).

(** ** Executions *)

(** The states after each operation, if the model allows them all. *)
Fixpoint states_after model (st : State) ops : option (list State) :=
  match ops with
  | [] => Some []
  | o :: ops =>
      match Step model st (Input o) (Output o) with
      | Some (true, st') => sts ← states_after model st' ops; Some (st' :: sts)
      | _ => None
      end
  end.

Definition final (st : State) (sts : list State) : State := default st (last sts).

Lemma final_cons st st' sts : final st (st' :: sts) = final st' sts.
Proof. unfold final. rewrite last_cons. by destruct (last sts). Qed.

Lemma states_after_snoc model st ops o st' sts :
  states_after model st ops = Some sts →
  Step model (final st sts) (Input o) (Output o) = Some (true, st') →
  states_after model st (ops ++ [o]) = Some (sts ++ [st']).
Proof.
  revert st sts. induction ops as [|o1 ops IH]; intros st sts Hs Hstep; cbn in *.
  - injection Hs as <-. cbn in Hstep. by rewrite Hstep.
  - destruct (Step model st (Input o1) (Output o1)) as [[[] st1]|]; try done.
    apply bind_Some in Hs as (sts1 & Hs & [= <-]). rewrite final_cons in Hstep.
    by rewrite (IH _ _ Hs Hstep).
Qed.

(** [ids] numbers operations of [ops] that were executed in this order, the
    others being left; the states after each are [sts]. *)
Record executes model ops ids σ (sts : list State) : Prop := {
  ex_ops : Forall2 (λ i o, at_index ops i = Some o) ids σ;
  ex_ids : NoDup ids;
  ex_order : StronglySorted may_precede σ;
  ex_first o j o' : o ∈ σ → at_index ops j = Some o' → j ∉ ids → may_precede o o';
  ex_states : states_after model (Init model) σ = Some sts
}.

Lemma path_executes model ops ids rs st :
  timed ops → path model (items (makeEntries ops)) ids rs st →
  ∃ σ sts ios, executes model ops ids σ sts ∧ final (Init model) sts = st ∧ represents rs ios ∧
    ∀ j o, (j, o) ∈ ios ↔ at_index ops j = Some o ∧ j ∉ ids.
Proof.
  intros Htime. induction 1 as [|ids rs st i st' Hp IH Ht].
  { exists [], [], (number ops 0). split; [split; try by constructor|split; [done|split]].
    - by intros o j o' ?%not_elem_of_nil.
    - by apply makeEntries_represents.
    - intros j o. rewrite number_lookup, Z.sub_0_r. split; [|tauto]. intros ?. split; [done|]. apply not_elem_of_nil. }
  destruct IH as (σ & sts & ios & [Hops Hnd Hord Hfst Hst] & <- & Hrep & Hios).
  destruct (takes_first _ _ _ _ _ _ Hrep Ht) as (o & Hio & Hstep & Hfirst).
  destruct (proj1 (Hios i o) Hio) as [Hi Hni].
  exists (σ ++ [o]), (sts ++ [st']), (others_of i ios). split; [split|split; [|split]].
  - by apply Forall2_app; [|apply Forall2_cons].
  - apply NoDup_app. split; [done|]. split; [|apply NoDup_singleton].
    intros j Hj ->%list_elem_of_singleton. done.
  - apply StronglySorted_app. split_and!; [|done|by repeat constructor].
    intros o1 o2 Ho1 ->%list_elem_of_singleton. by eapply Hfst.
  - intros o1 j o2 [Ho1| ->%list_elem_of_singleton]%elem_of_app Hj [Hj1 Hj2]%not_elem_of_app.
    + by eapply Hfst.
    + apply (Hfirst j). by apply Hios.
  - by apply states_after_snoc.
  - unfold final. by rewrite last_snoc.
  - by apply represents_without.
  - intros j o'. unfold others_of. rewrite list_elem_of_filter, Hios, not_elem_of_app, list_elem_of_singleton.
    cbn. tauto.
Qed.

(** ** The history *)
Lemma map_at_Some {A} (zero : A) (m : gmap Z A) i x : m !! i = Some x → map_at zero m i = x.
Proof. unfold map_at. by intros ->. Qed.

(** What the description of an operation is. *)
Definition describe model o : option string := call_DescribeOperation model (Input o) (Output o).

Definition describable model ops : Prop := ∀ o, o ∈ ops → is_Some (describe model o).

Record gathers model ops (pre : list (entry V)) (g : gathered) : Prop := {
  ga_len : length (g_history g) = length ops;
  ga_call i o : at_index ops i = Some o → call_of i o ∈ pre →
    callValue g !! i = Some (Input o) ∧
    ∃ h, at_index (g_history g) i = Some h ∧ he_ClientId h = op_ClientId o ∧ he_Start h = Call o;
  ga_return i o : at_index ops i = Some o → return_of i o ∈ pre →
    returnValue g !! i = Some (Output o) ∧
    ∃ h, at_index (g_history g) i = Some h ∧ he_End h = Return o ∧ describe model o = Some (he_Description h)
}.

Lemma at_index_insert {A} (l : list A) i j x y :
  at_index l i = Some x → at_index (<[Z.to_nat i := y]> l) j = if decide (i = j) then Some y else at_index l j.
Proof.
  intros [Hi Hl]%at_index_Some. unfold at_index. repeat case_decide; subst; try done; try lia.
  - apply list_lookup_insert_eq. by eapply lookup_lt_Some.
  - apply list_lookup_insert_ne. lia.
Qed.

Lemma gather_one_spec model ops pre g i o (e : entry V) :
  describable model ops → gathers model ops pre g → at_index ops i = Some o →
  e = call_of i o ∨ (e = return_of i o ∧ call_of i o ∈ pre) →
  ∃ g', gather_one model g e = Some g' ∧ gathers model ops (pre ++ [e]) g'.
Proof.
  intros Hd [Hlen Hcall Hret] Ho He.
  destruct (at_index_lt (g_history g) i) as [h Hh].
  { apply at_index_inv in Ho. unfold len in *. lia. }
  destruct He as [-> |[-> Hin]]; unfold gather_one; cbn [id call_of return_of kind]; rewrite Hh; cbn [mbind option_bind].
  - eexists. split; [reflexivity|]. split; cbn; [by rewrite length_insert| |]; intros j o' Hj;
      rewrite (at_index_insert _ _ _ _ _ Hh), elem_of_app, list_elem_of_singleton.
    + intros Hpre. destruct (decide (i = j)) as [->|Hne].
      * rewrite lookup_insert_eq. replace o' with o by congruence. eauto.
      * rewrite lookup_insert_ne by done. apply Hcall; [done|]. destruct Hpre as [|Heq%(f_equal id)]; [done|cbn in Heq; lia].
    + intros [Hpre|?]; [|done]. destruct (Hret _ _ Hj Hpre) as (? & h' & Hh' & ? & ?). split; [done|].
      case_decide as Heq; [|eauto]. subst j. rewrite Hh in Hh'. injection Hh' as ->. eauto.
  - destruct (Hcall _ _ Ho Hin) as [Hcv _]. rewrite (map_at_Some _ _ _ _ Hcv). cbn [value].
    destruct (Hd o) as [d Hdo]; [by apply at_index_Some in Ho as [_ ?%list_elem_of_lookup_2]|].
    unfold describe in Hdo. cbn. rewrite Hdo. cbn [mbind option_bind].
    eexists. split; [reflexivity|]. split; cbn; [by rewrite length_insert| |]; intros j o' Hj;
      rewrite (at_index_insert _ _ _ _ _ Hh), elem_of_app, list_elem_of_singleton.
    + intros [Hpre|?]; [|done]. destruct (Hcall _ _ Hj Hpre) as (? & h' & Hh' & ? & ?). split; [done|].
      case_decide as Heq; [|eauto]. subst j. rewrite Hh in Hh'. injection Hh' as ->. eauto.
    + intros Hpre. destruct (decide (i = j)) as [->|Hne].
      * rewrite lookup_insert_eq. replace o' with o by congruence. split; [done|]. by eexists.
      * rewrite lookup_insert_ne by done. apply Hret; [done|]. destruct Hpre as [|Heq%(f_equal id)]; [done|cbn in Heq; lia].
Qed.

Lemma items_app (es1 es2 : list (entry V)) : ∃ a, items (es1 ++ es2) = a ++ items es2 ∧ a.*2 = es1.
Proof.
  induction es1 as [|e es1 (a & IH & Ha)]; [by exists []|]. cbn.
  exists ((length (es1 ++ es2), e) :: a). cbn. by rewrite IH, Ha.
Qed.

(** The call of an operation comes before its return. *)
Lemma call_first ops pre i o post :
  timed ops → makeEntries ops = pre ++ return_of i o :: post → at_index ops i = Some o → call_of i o ∈ pre.
Proof.
  intros Ht Hes Ho. pose proof (makeEntries_represents ops Ht) as Hrep.
  assert ((i, o) ∈ number ops 0) as Hio by (rewrite number_lookup, Z.sub_0_r; done).
  destruct (items_app pre (return_of i o :: post)) as (a & Ha & <-). rewrite <- Hes in Ha. cbn in Ha.
  destruct (rep_in _ _ _ _ (call_of i o) Hrep Hio) as [p Hp]; [by left|].
  apply (list_elem_of_fmap_2 snd _ (p, call_of i o)). eapply rep_before; [exact Hrep|exact Ha|exact Hp|done|done|].
  by eapply rep_timed_op.
Qed.

Lemma gather_spec model ops todo pre g :
  timed ops → describable model ops → makeEntries ops = pre ++ todo → gathers model ops pre g →
  ∃ g', gather model todo g = Some g' ∧ gathers model ops (makeEntries ops) g'.
Proof.
  intros Ht Hd. revert pre g. induction todo as [|e todo IH]; intros pre g Hes Hg; cbn [gather].
  { rewrite app_nil_r in Hes. subst pre. by exists g. }
  destruct (elem_of_makeEntries ops e) as (i & o & _ & Hio & _ & He).
  { rewrite Hes. apply elem_of_app. right. by left. }
  rewrite number_lookup, Z.sub_0_r in Hio.
  destruct (gather_one_spec model ops pre g i o e Hd Hg Hio) as (g1 & Hg1 & Hok1).
  { destruct He as [->| ->]; [by left|right]. split; [done|]. by eapply call_first. }
  rewrite Hg1. cbn [mbind option_bind]. eapply IH; [|exact Hok1]. by rewrite Hes, <- app_assoc.
Qed.

(** ** One partial linearization *)

(** What [callValue] and [returnValue] hold at the end. *)
Definition valued ops (g : gathered) : Prop := ∀ i o, at_index ops i = Some o →
  callValue g !! i = Some (Input o) ∧ returnValue g !! i = Some (Output o).

(** [step] describes the state [st]. *)
Definition described model (st : State) (step : linearizationStep) : Prop :=
  call_DescribeState model st = Some (StateDescription step).

Definition drawn model ops lin : Prop :=
  ∃ σ sts, executes model ops (ls_Index <$> lin) σ sts ∧ Forall2 (described model) sts lin.

Lemma draw_steps_spec model ops g n size ids σ st sts lg :
  valued ops g → (∀ st, is_Some (call_DescribeState model st)) →
  Forall2 (λ i o, at_index ops i = Some o) ids σ → states_after model st σ = Some sts →
  ∃ lin, draw_steps model g n size ids st lg
      = Some (lin, foldl (λ lg i, note_largest n size i lg) lg ids)
    ∧ ls_Index <$> lin = ids ∧ Forall2 (described model) sts lin.
Proof.
  intros Hg Hd Hids. revert st sts lg. induction Hids as [|i o ids σ Hi Hids IH]; intros st sts lg Hs; cbn [states_after draw_steps] in Hs |- *.
  { injection Hs as <-. by exists []. }
  destruct (Hg _ _ Hi) as [Hc Hr]. rewrite (map_at_Some _ _ _ _ Hc), (map_at_Some _ _ _ _ Hr).
  destruct (Step model st (Input o) (Output o)) as [[[] st1]|]; try done. cbn [mbind option_bind].
  apply bind_Some in Hs as (sts1 & Hs & [= <-]). destruct (Hd st1) as [d Hd1]. rewrite Hd1. cbn [mbind option_bind].
  destruct (IH st1 sts1 (note_largest n size i lg) Hs) as (lin & Hlin & Hidx & Hdesc). rewrite Hlin. cbn [mbind option_bind].
  eexists. split; [reflexivity|]. cbn. rewrite Hidx. split; [done|]. by constructor.
Qed.

(** ** [largestIndex] and [largestSize] *)

(** [seen] lists number, length and operation of what was drawn. *)
Definition noted (lg : largest) (seen : list (Z * Z * Z)) : Prop := ∀ i,
  match lg.1 !! i, lg.2 !! i with
  | Some n, Some size => (n, size, i) ∈ seen ∧ 0 < size ∧ ∀ n' size', (n', size', i) ∈ seen → size' <= size
  | None, None => ∀ n size, (n, size, i) ∉ seen
  | _, _ => False
  end.

Lemma elem_of_seen (n size i n' size' j : Z) (seen : list (Z * Z * Z)) :
  (n', size', j) ∈ seen ++ [(n, size, i)] ↔ (n', size', j) ∈ seen ∨ (n' = n ∧ size' = size ∧ j = i).
Proof. rewrite elem_of_app, list_elem_of_singleton. naive_solver. Qed.

Lemma note_noted n size i lg seen :
  0 < size → noted lg seen → noted (note_largest n size i lg) (seen ++ [(n, size, i)]).
Proof.
  intros Hsize Hn j. pose proof (Hn j) as Hj. pose proof (Hn i) as Hi. clear Hn.
  destruct lg as [li ls]. unfold note_largest, map_at. cbn [fst snd] in *.
  case_decide as Hlt; cbn [fst snd].
  - destruct (decide (j = i)) as [->|Hne].
    + rewrite !lookup_insert_eq. setoid_rewrite elem_of_seen. split; [by right|]. split; [done|].
      intros n' size' [Hin|(_ & -> & _)]; [|done].
      destruct (li !! i), (ls !! i); try done; cbn in Hlt; [|by apply Hi in Hin].
      destruct Hi as (_ & _ & Hmax). specialize (Hmax _ _ Hin). lia.
    + rewrite !lookup_insert_ne by done.
      destruct (li !! j), (ls !! j); try done; setoid_rewrite elem_of_seen; naive_solver.
  - destruct (decide (j = i)) as [->|Hne].
    + destruct (li !! i), (ls !! i); try done; cbn in Hlt.
      destruct Hi as (Hin & Hpos & Hmax). setoid_rewrite elem_of_seen. split; [by left|]. split; [done|].
      intros n' size' [Hin'|(_ & -> & _)]; [by eapply Hmax|lia].
    + destruct (li !! j), (ls !! j); try done; setoid_rewrite elem_of_seen; naive_solver.
Qed.

Lemma note_all n size ids lg seen :
  0 < size → noted lg seen →
  noted (foldl (λ lg i, note_largest n size i lg) lg ids) (seen ++ ((λ i, (n, size, i)) <$> ids)).
Proof.
  intros Hsize. revert lg seen. induction ids as [|i ids IH]; intros lg seen Hn; cbn; [by rewrite app_nil_r|].
  rewrite (cons_middle _ seen), app_assoc. by apply IH, note_noted.
Qed.

Fixpoint occurrences n (partials : list (list Z)) : list (Z * Z * Z) :=
  match partials with
  | [] => []
  | p :: partials => ((λ i, (n, len p, i)) <$> p) ++ occurrences (n + 1) partials
  end.

Lemma elem_of_occurrences n partials k size i :
  (k, size, i) ∈ occurrences n partials ↔
  ∃ p, at_index partials (k - n) = Some p ∧ size = len p ∧ i ∈ p.
Proof.
  revert n. induction partials as [|p partials IH]; intros n; cbn [occurrences].
  { split; [by intros ?%not_elem_of_nil|]. by intros (p & [_ ?]%at_index_Some & _). }
  rewrite elem_of_app, IH, list_elem_of_fmap. split.
  - intros [(j & [= -> -> ->] & Hj)|(q & Hq & ? & ?)].
    + exists p. by rewrite Z.sub_diag.
    + exists q. pose proof (at_index_inv _ _ _ Hq). rewrite at_index_cons by lia.
      by replace (k - n - 1) with (k - (n + 1)) by lia.
  - intros (q & Hq & -> & Hi). pose proof (at_index_inv _ _ _ Hq). destruct (decide (k = n)) as [->|].
    + left. rewrite Z.sub_diag in Hq. injection Hq as ->. by exists i.
    + right. exists q. rewrite at_index_cons in Hq by lia.
      by replace (k - (n + 1)) with (k - n - 1) by lia.
Qed.

(** ** All partial linearizations *)
Definition is_drawn model ops ids lin : Prop := ls_Index <$> lin = ids ∧ drawn model ops lin.

Lemma draw_partials_spec model ops g n partials lg seen :
  valued ops g → (∀ st, is_Some (call_DescribeState model st)) →
  Forall (λ ids, ∃ σ sts, executes model ops ids σ sts) partials → noted lg seen →
  ∃ lins lg', draw_partials model g n partials lg = Some (lins, lg')
    ∧ Forall2 (is_drawn model ops) partials lins ∧ noted lg' (seen ++ occurrences n partials).
Proof.
  intros Hg Hd Hps. revert n lg seen. induction Hps as [|ids partials (σ & sts & Hex) Hps IH]; intros n lg seen Hn; cbn.
  { exists [], lg. by rewrite app_nil_r. }
  destruct (draw_steps_spec model ops g n (len ids) ids σ (Init model) sts lg Hg Hd)
    as (lin & Hlin & Hidx & Hdesc); [by eapply ex_ops|by eapply ex_states|]. rewrite Hlin. cbn [mbind option_bind].
  assert (noted (foldl (λ lg i, note_largest n (len ids) i lg) lg ids)
    (seen ++ ((λ i, (n, len ids, i)) <$> ids))) as Hn1.
  { destruct ids as [|i ids]; [by cbn; rewrite app_nil_r|]. apply note_all; [|done]. rewrite len_cons.
    pose proof (len_nonneg ids). lia. }
  destruct (IH (n + 1) _ _ Hn1) as (lins & lg' & -> & Hlins & Hn'). cbn [mbind option_bind].
  eexists _, lg'. split; [reflexivity|]. split; [|by rewrite app_assoc].
  constructor; [|done]. split; [done|]. exists σ, sts. by rewrite Hidx.
Qed.

(** ** One partition *)

(** The line of an operation. *)
Definition element_of model o (he : historyElement) : Prop :=
  describe model o = Some (he_Description he) ∧
  he_ClientId he = op_ClientId o ∧ he_Start he = Call o ∧ he_End he = Return o.

(** [pd] is a true picture of the operations [ops]. *)
Record shows model ops (pd : partitionVisualizationData) : Prop := {
  sh_history : Forall2 (element_of model) ops (vis_History pd);
  sh_partials lin : lin ∈ PartialLinearizations pd → drawn model ops lin;
  sh_sorted : StronglySorted (λ a b, len b <= len a) (PartialLinearizations pd);
  sh_largest i :
    match Largest pd !! i with
    | Some k => ∃ lin, at_index (PartialLinearizations pd) k = Some lin ∧ i ∈ ls_Index <$> lin ∧
        ∀ lin', lin' ∈ PartialLinearizations pd → i ∈ ls_Index <$> lin' → len lin' <= len lin
    | None => ∀ lin, lin ∈ PartialLinearizations pd → i ∉ ls_Index <$> lin
    end
}.

Lemma gathered_all model ops g :
  gathers model ops (makeEntries ops) g → valued ops g ∧ Forall2 (element_of model) ops (g_history g).
Proof.
  intros Hg. assert (∀ i o, at_index ops i = Some o → call_of i o ∈ makeEntries ops ∧ return_of i o ∈ makeEntries ops) as Hin.
  { intros i o Ho. assert ((i, o) ∈ number ops 0) by (by rewrite number_lookup, Z.sub_0_r).
    unfold makeEntries. split; rewrite sort_byTime_Permutation, entries_of_ents; apply elem_of_ents; eauto. }
  split.
  - intros i o Ho. destruct (Hin _ _ Ho). split; [by eapply ga_call|by eapply ga_return].
  - apply Forall2_same_length_lookup. split; [symmetry; apply Hg|]. intros i o he Ho Hhe.
    assert (at_index ops (Z.of_nat i) = Some o) as Ho' by (apply at_index_Some; rewrite Nat2Z.id; split; [lia|done]).
    assert (at_index (g_history g) (Z.of_nat i) = Some he) as Hhe'
      by (apply at_index_Some; rewrite Nat2Z.id; split; [lia|done]).
    destruct (Hin _ _ Ho') as [H1' H2'].
    destruct (ga_call _ _ _ _ Hg _ _ Ho' H1') as (_ & h & Hh & ? & ?).
    destruct (ga_return _ _ _ _ Hg _ _ Ho' H2') as (_ & h' & Hh' & ? & ?).
    assert (h = he ∧ h' = he) as [-> ->] by (split; congruence). by split.
Qed.

Lemma indices_len lin ids : ls_Index <$> lin = ids → len ids = len lin.
Proof. intros <-. unfold len. by rewrite length_fmap. Qed.

Lemma is_drawn_sorted model ops partials lins :
  Forall2 (is_drawn model ops) partials lins →
  StronglySorted (λ a b, len b <= len a) partials → StronglySorted (λ a b, len b <= len a) lins.
Proof.
  induction 1 as [|ids lin partials lins [Hids _] Hps IH]; [constructor|].
  intros [Hs Hall]%StronglySorted_inv. constructor; [by apply IH|].
  apply Forall_forall. intros lin' Hin. pose proof (proj1 (Forall_forall _ _) Hall) as Hall'.
  destruct (Forall2_in_r _ _ _ lin' Hps Hin) as (ids' & Hin' & Hids' & _).
  rewrite <- (indices_len _ _ Hids), <- (indices_len _ _ Hids'). by apply Hall'.
Qed.

Lemma noted_largest model ops partials lins lg :
  Forall2 (is_drawn model ops) partials lins → noted lg (occurrences 0 partials) → ∀ i,
  match lg.1 !! i with
  | Some k => ∃ lin, at_index lins k = Some lin ∧ i ∈ ls_Index <$> lin ∧
      ∀ lin', lin' ∈ lins → i ∈ ls_Index <$> lin' → len lin' <= len lin
  | None => ∀ lin, lin ∈ lins → i ∉ ls_Index <$> lin
  end.
Proof.
  intros Hps Hn i. specialize (Hn i).
  assert (∀ lin, lin ∈ lins → i ∈ ls_Index <$> lin → ∃ k, (k, len lin, i) ∈ occurrences 0 partials) as Hocc.
  { intros lin [k Hk]%list_elem_of_lookup Hi. destruct (Forall2_lookup_r _ _ _ _ _ Hps Hk) as (ids & Hids & Hd & _).
    exists (Z.of_nat k). apply elem_of_occurrences. exists ids. rewrite Z.sub_0_r, at_index_Some, Nat2Z.id.
    split; [split; [lia|done]|]. rewrite (indices_len _ _ Hd). by rewrite <- Hd. }
  destruct (lg.1 !! i) as [k|], (lg.2 !! i) as [size|]; try done.
  - destruct Hn as (Hin & _ & Hmax). apply elem_of_occurrences in Hin as (ids & Hk & -> & Hi).
    rewrite Z.sub_0_r in Hk. apply at_index_Some in Hk as [H0k Hk].
    destruct (Forall2_lookup_l _ _ _ _ _ Hps Hk) as (lin & Hlin & Hd & _).
    exists lin. split; [by apply at_index_Some|]. split; [by rewrite Hd|].
    intros lin' Hin' Hi'. destruct (Hocc _ Hin' Hi') as [k' Hk']. rewrite <- (indices_len _ _ Hd). by eapply Hmax.
  - intros lin Hin Hi. destruct (Hocc _ Hin Hi) as [k Hk]. by eapply Hn.
Qed.

Lemma draw_partition_spec model info (p : nat) ops partials :
  timed ops → describable model ops → (∀ st, is_Some (call_DescribeState model st)) →
  info_history info !! p = Some (makeEntries ops) → partialLinearizations info !! p = Some partials →
  Forall (λ ids, ∃ σ sts, executes model ops ids σ sts) partials →
  ∃ pd, draw_partition model info p = Some (pd, sort_longest_first partials) ∧ shows model ops pd ∧
    Forall2 (is_drawn model ops) (sort_longest_first partials) (PartialLinearizations pd).
Proof.
  intros Ht Hd Hs Hh Hp Hex. unfold draw_partition. rewrite Hh. cbn [mbind option_bind].
  rewrite len_makeEntries, Z.mul_comm, Z.quot_mul by lia.
  destruct (gather_spec model ops (makeEntries ops) []
    (mkGathered (replicate (Z.to_nat (len ops)) zeroHistoryElement) ∅ ∅) Ht Hd eq_refl) as (g & Hg & Hok).
  { split; cbn; [rewrite length_replicate; unfold len; lia| |]; by intros i o _ ?%not_elem_of_nil. }
  rewrite Hg, Hp. cbn [mbind option_bind]. destruct (gathered_all _ _ _ Hok) as [Hval Hhist].
  destruct (draw_partials_spec model ops g 0 (sort_longest_first partials) (∅, ∅) [] Hval Hs)
    as (lins & lg & -> & Hlins & Hn).
  - rewrite Forall_forall in Hex |- *. intros ids. rewrite sort_longest_first_Permutation. apply Hex.
  - intros i. cbn. rewrite lookup_empty. intros n size. apply not_elem_of_nil.
  - eexists. split; [reflexivity|]. split; [|exact Hlins]. split; [exact Hhist| | |]; cbn [PartialLinearizations Largest].
    + intros lin Hin. by destruct (Forall2_in_r _ _ _ lin Hlins Hin) as (ids & _ & _ & ?).
    + eapply is_drawn_sorted; [exact Hlins|apply sort_longest_first_sorted].
    + by eapply noted_largest.
Qed.

(** ** What a verbose check returns *)

(** Ranging over a set meets each element once. *)
Definition fair_range (sched : Schedule) : Prop := ∀ X, range_set sched X ≡ₚ elements X.

(** Numbers of operations executed one after the other. *)
Definition executed model ops ids : Prop := ∃ σ sts, executes model ops ids σ sts.

Lemma all_executed model ops ids st :
  timed ops → path model (items (makeEntries ops)) ids [] st → ids ≡ₚ seqZ 0 (len ops).
Proof.
  intros Ht Hp. destruct (path_executes _ _ _ _ _ Ht Hp) as (σ & sts & ios & Hex & _ & Hrep & Hios).
  apply NoDup_Permutation; [by eapply ex_ids|apply NoDup_seqZ|]. intros i. rewrite elem_of_seqZ. split.
  - intros [k Hk]%list_elem_of_lookup. destruct (Forall2_lookup_l _ _ _ _ _ (ex_ops _ _ _ _ _ Hex) Hk) as (o & _ & Ho).
    apply at_index_inv in Ho. lia.
  - intros Hi. destruct (at_index_lt ops i) as [o Ho]; [lia|].
    destruct (decide (i ∈ ids)) as [|Hn]; [done|]. exfalso.
    assert ((i, o) ∈ ios) as Hio by (by apply Hios).
    destruct (rep_in _ _ _ _ _ Hrep Hio (or_introl eq_refl)) as [q Hq]. by apply elem_of_nil in Hq.
Qed.

(** What one goroutine reports. *)
Lemma partials_executed model ops range b s partials :
  timed ops → (∀ X, range X ≡ₚ elements X) →
  reports model (makeEntries ops) b s → partials_of range s = Some partials →
  Forall (λ ids, executed model ops ids ∧ (b = true → ids ≡ₚ seqZ 0 (len ops))) partials.
Proof.
  intros Ht Hrange (_ & Hrep & _) Hp. apply Forall_forall. intros ids [k Hk]%list_elem_of_lookup.
  apply mapM_Some_1 in Hp. destruct (Forall2_lookup_r _ _ _ _ _ Hp Hk) as (q & Hq & Hids).
  apply list_elem_of_lookup_2 in Hq. rewrite Hrange in Hq.
  apply elem_of_elements, elem_of_list_to_set, list_elem_of_omap in Hq as (x & Hx & ->).
  apply list_elem_of_lookup in Hx as [i Hi]. destruct (Hrep _ _ Hi) as (ids' & rs & st & Hids' & Hpath & _ & Hall).
  assert (ids' = ids) as -> by congruence. split.
  - destruct (path_executes _ _ _ _ _ Ht Hpath) as (σ & sts & _ & Hex & _). by exists σ, sts.
  - intros Hb. rewrite (Hall Hb) in Hpath. by eapply all_executed.
Qed.

Lemma collect_spec range runs (partials : list (list (list Z))) :
  collect (V := V) (State := State) range runs = Returned partials →
  Forall2 (λ r p, ∃ b s, r = Returned (b, s) ∧ partials_of range s = Some p) runs partials.
Proof.
  revert partials. induction runs as [|r runs IH]; intros partials; cbn [collect]; [by intros [= <-]|].
  destruct r as [[b s]| |]; cbn [outcome_bind]; try done.
  destruct (partials_of range s) as [p|] eqn:Hp; cbn [or_panic outcome_bind]; try done.
  destruct (collect range runs) as [ps| |] eqn:Hc; cbn [outcome_bind]; try done.
  intros [= <-]. constructor; [|by apply IH]. by exists b, s.
Qed.

(** A check that computes information and does not time out waits for everyone. *)
Lemma select_loop_waits results timeout arr ok pending ok' pending' :
  select_loop results true timeout arr ok pending = Returned (ok', false, pending') → pending' = [].
Proof.
  revert ok pending. induction arr as [|[i|] arr IH]; intros ok pending; cbn [select_loop]; [done| |].
  - case_decide; [|by apply IH]. destruct (results i); cbn [outcome_bind]; try done.
    rewrite andb_false_r. case_decide as Hp; [|by apply IH]. by intros [= _ <-].
  - case_decide; [done|by apply IH].
Qed.

Section Verbose.
Context model `{!EqualLaws model same}.

Lemma checkParallel_info parts timeout sched fuel res info :
  checkable model parts → fair_range sched →
  checkParallel model (makeEntries <$> parts) true timeout sched fuel = Returned (res, info) →
  info_history info = makeEntries <$> parts ∧
  Forall2 (λ ops, Forall (λ ids, executed model ops ids ∧ (res = Ok → ids ≡ₚ seqZ 0 (len ops))))
    parts (partialLinearizations info).
Proof.
  intros Hc Hfair Hrun. unfold checkParallel in Hrun. rewrite (length_fmap makeEntries) in Hrun.
  change (λ i, outcome_bind _ _) with (results_of model (makeEntries <$> parts) true fuel) in Hrun.
  destruct (select_loop _ _ _ _ _ _) as [[[ok' timedOut] pending]| |] eqn:Hsel; cbn [outcome_bind] in Hrun; try done.
  destruct (collect _ _) as [partials| |] eqn:Hcol; cbn [outcome_bind] in Hrun; try done.
  injection Hrun as Hres <-. split; [done|]. cbn [partialLinearizations].
  apply collect_spec in Hcol. apply Forall2_same_length_lookup. split.
  { apply Forall2_length in Hcol. by rewrite length_fmap, length_seq in Hcol. }
  intros i ops p Hops Hp. destruct (Forall2_lookup_r _ _ _ _ _ Hcol Hp) as (r & Hr & b & s & -> & Hps).
  apply list_lookup_fmap_Some in Hr as (i' & Hr & Hi). apply lookup_seq in Hi as [-> Hi]. cbn in Hr.
  rewrite list_lookup_fmap, Hops in Hr. cbn [fmap option_fmap option_map default] in Hr. symmetry in Hr.
  assert (timed ops ∧ answered model ops) as [Ht Ha]
    by (split; [apply Hc|apply Hc]; by eapply list_elem_of_lookup_2).
  assert (reports model (makeEntries ops) b s) as Hrep
    by (eapply (checkSingle_reports model same); [by eapply encodes_well_formed, makeEntries_encodes|by eapply encodes_steps_on; [apply makeEntries_encodes|]|exact Hr]).
  eapply Forall_impl; [by eapply partials_executed|]. cbn. intros ids [Hex Hall]. split; [done|].
  intros ->. apply Hall. destruct ok'; [|done]. destruct timedOut; [done|].
  pose proof (select_loop_waits _ _ _ _ _ _ _ Hsel) as ->. rewrite decide_False in Hr by apply not_elem_of_nil.
  assert (results_of model (makeEntries <$> parts) true fuel i = Returned b) as Hb.
  { unfold results_of. rewrite list_lookup_fmap, Hops. cbn [fmap option_fmap option_map default]. by rewrite Hr. }
  destruct (select_loop_sound (results_of model (makeEntries <$> parts) true fuel)
    (λ i : nat, results_of model (makeEntries <$> parts) true fuel i = Returned true) _ _ _ _ _ _ _ _ ltac:(intros j c _ Hj; cbn beta; rewrite Hj; split; [by intros ->|by intros [= ->]]) Hsel) as [Hok _].
  destruct (Hok eq_refl) as [_ Hall']. specialize (Hall' eq_refl i).
  rewrite Hall' in Hb by (apply elem_of_seq; lia). by injection Hb.
Qed.
End Verbose.

(** C21: Whatever a verbose check returns, with a timeout or without, the picture of
    it can be computed, [Visualize] hands the page with it to the writer, whichever
    that is, and it is true: its lines are the operations, each
    partial linearization is an execution the model allows in an order the times
    allow, a longest one is noted for each operation, and if the check answered
    [Ok] each is an execution of the whole partition. *)
Theorem visualization_true `{Json, Writer Out} model same history parts timeout sched fuel res info :
  EqualLaws (fillDefault model) same →
  partition_of model history = Some parts → checkable model parts → fair_range sched →
  (∀ ops, ops ∈ parts → describable (fillDefault model) ops) →
  (∀ st, is_Some (call_DescribeState (fillDefault model) st)) →
  CheckOperationsVerbose model history timeout sched fuel = Returned (res, info) →
  ∃ data info', computeVisualizationData model info = Some (data, info') ∧
    (∀ output : Out, Visualize model info output = Some
      match Marshal data with
      | inr err => (output, info', Some err)
      | inl json => let '(o, err) := Write (html_head +:+ json +:+ html_tail) output in (o, info', err)
      end) ∧
    Forall2 (λ ops pd, shows (fillDefault model) ops pd ∧
      (res = Ok → ∀ lin, lin ∈ PartialLinearizations pd → ls_Index <$> lin ≡ₚ seqZ 0 (len ops))) parts data.
Proof.
  intros Hlaws Hpart Hc%checkable_fillDefault Hfair Hdo Hds Hrun.
  unfold CheckOperationsVerbose, checkOperations in Hrun. fold (partition_of model history) in Hrun.
  rewrite Hpart in Hrun. cbn [or_panic outcome_bind] in Hrun.
  destruct (checkParallel_info (fillDefault model) (same := same) _ _ _ _ _ _ Hc Hfair Hrun) as [Hh Hp].
  clear Hrun Hpart. unfold Visualize, computeVisualizationData. rewrite Hh, length_fmap.
  destruct (mapM_seq (draw_partition (fillDefault model) info)
    (λ ops d, shows (fillDefault model) ops d.1 ∧
      (res = Ok → ∀ lin, lin ∈ PartialLinearizations d.1 → ls_Index <$> lin ≡ₚ seqZ 0 (len ops))) parts 0)
    as (ds & -> & Hds').
  2: { eexists _, _. split; [reflexivity|]. split; [|by apply Forall2_fmap_r].
       intros output. cbn [mbind option_bind]. destruct (Marshal _); [|done]. by destruct (Write _ _). }
  intros p ops Hops. destruct (Forall2_lookup_l _ _ _ _ _ Hp Hops) as (partials & Hpp & Hex).
  assert (ops ∈ parts) as Hin by by eapply list_elem_of_lookup_2.
  destruct (draw_partition_spec (fillDefault model) info p ops partials) as (pd & Hd & Hshow & Hdr);
    [by apply Hc|by apply Hdo|done|by rewrite Hh, list_lookup_fmap, Hops|done| |].
  { eapply Forall_impl; [exact Hex|]. by intros ids [? _]. }
  exists (pd, sort_longest_first partials). split; [done|]. split; [done|]. cbn. intros Hok lin Hlin.
  destruct (Forall2_in_r _ _ _ lin Hdr Hlin) as (ids & Hids & -> & _).
  rewrite sort_longest_first_Permutation in Hids.
  by apply (proj1 (Forall_forall _ _) Hex ids Hids).
Qed.
End Draws.
