(* ===== verification/KvModel.v ===== *)
(** * KvModel: the key/value model of [src/src/models/kv.go]

    The model the tests of both key/value servers hand to the checker: one
    string per key, with get, put, append and an append that returns the old
    value.  The file shows how it partitions a history and what
    [CheckOperations] answers with it. *)
From Stdlib Require Import ZArith Lia.
From stdpp Require Import base gmap strings option sorting list.
From S2P Require Import Prelude Bitset Porcupine PorcupinePaths PorcupineCheck PorcupineCorrect PorcupineOps.
#[local] Open Scope Z_scope.

Record KvInput := mkKvInput {
  in_Op : Z; (* 0 => get, 1 => put, 2 => append *)
  in_Key : string;
  in_Value : string
}.

Record KvOutput := mkKvOutput { out_Value : string }.

(** The dynamic types that reach the model through [interface{}]. *)
Inductive KvValue := KvIn (inp : KvInput) | KvOut (out : KvOutput) | KvNil.
#[export] Instance KvValue_interface : Interface KvValue := KvNil.

(** [v.(KvInput)], [v.(KvOutput)]: another type panics. *)
Definition as_KvInput (v : KvValue) : option KvInput :=
  match v with KvIn inp => Some inp | _ => None end.
Definition as_KvOutput (v : KvValue) : option KvOutput :=
  match v with KvOut out => Some out | _ => None end.

Implicit Types (history ops : list (Operation KvValue)) (k : string).

(** [m[key] = append(m[key], v)] *)
Fixpoint group_by_key history (m : gmap string (list (Operation KvValue)))
  : option (gmap string (list (Operation KvValue))) :=
  match history with
  | [] => Some m
  | v :: history =>
      inp ← as_KvInput (Input v);
      group_by_key history (<[in_Key inp := default [] (m !! in_Key inp) ++ [v]]> m)
  end.

(** The keys are sorted by [sort.Strings]. *)
Definition kv_Partition history : option (list (list (Operation KvValue))) :=
  m ← group_by_key history ∅;
  Some ((λ k, default [] (m !! k)) <$> merge_sort String.le (map_to_list m).*1).

Definition kv_Step (st : string) (input output : KvValue) : option (bool * string) :=
  inp ← as_KvInput input;
  out ← as_KvOutput output;
  Some (if decide (in_Op inp = 0) then (bool_decide (out_Value out = st), st)
        else if decide (in_Op inp = 1) then (true, in_Value inp)
        else if decide (in_Op inp = 2) then (true, st +:+ in_Value inp)
        else (bool_decide (out_Value out = st), st +:+ in_Value inp)).

Definition kv_DescribeOperation (input output : KvValue) : option string :=
  inp ← as_KvInput input;
  out ← as_KvOutput output;
  Some
    (if decide (in_Op inp = 0) then "get('" +:+ in_Key inp +:+ "') -> '" +:+ out_Value out +:+ "'"
     else if decide (in_Op inp = 1) then "put('" +:+ in_Key inp +:+ "', '" +:+ in_Value inp +:+ "')"
     else if decide (in_Op inp = 2) then "append('" +:+ in_Key inp +:+ "', '" +:+ in_Value inp +:+ "')"
     else "<invalid>")%string.

Definition KvModel : Model KvValue string := {|
  Partition := Some kv_Partition;
  PartitionEvent := None;
  Init := ""%string;
  Step := kv_Step;
  Equal := None;
  DescribeOperation := Some kv_DescribeOperation;
  DescribeState := None
|}.

(** ** The partition *)

(** The operations of the tests: an input with an output. *)
Definition typed history : Prop :=
  ∀ o, o ∈ history → ∃ inp out, Input o = KvIn inp ∧ Output o = KvOut out.

Definition on_key k (o : Operation KvValue) : bool :=
  match Input o with KvIn inp => bool_decide (in_Key inp = k) | _ => false end.

(** The operations on one key, in the order of the history. *)
Definition ops_on k history : list (Operation KvValue) := filter (λ o, on_key k o = true) history.

Lemma group_by_key_spec history m :
  typed history →
  ∃ m', group_by_key history m = Some m'
    ∧ ∀ k, default [] (m' !! k) = default [] (m !! k) ++ ops_on k history
         ∧ (is_Some (m' !! k) ↔ is_Some (m !! k) ∨ ops_on k history ≠ []).
Proof.
  revert m. induction history as [|o history IH]; intros m Ht; cbn [group_by_key].
  { exists m. split; [done|]. intros k. cbn. rewrite app_nil_r. split; [done|tauto]. }
  destruct (Ht o ltac:(left)) as (inp & out & Hi & Ho). rewrite Hi. cbn [as_KvInput mbind option_bind].
  destruct (IH (<[in_Key inp := default [] (m !! in_Key inp) ++ [o]]> m)) as (m' & Hm' & Hspec);
    [by intros o' Ho'; apply Ht; right|].
  exists m'. split; [done|]. intros k. destruct (Hspec k) as [Hd Hs]. rewrite Hd, Hs.
  unfold ops_on. rewrite filter_cons.
  assert (on_key k o = true ↔ in_Key inp = k) as Hon by (unfold on_key; rewrite Hi; apply bool_decide_eq_true).
  destruct (decide (in_Key inp = k)) as [Hk|Hk].
  - rewrite decide_True by by apply Hon. rewrite Hk, lookup_insert_eq.
    split; [cbn; by rewrite <- app_assoc|]. split; [by right|]. intros _. left. by eexists.
  - rewrite decide_False by by rewrite Hon. by rewrite lookup_insert_ne.
Qed.

(** [Partition] has one class per key, in the order of the keys, with the
    operations of that key in the order of the history. *)
Lemma kv_Partition_spec history :
  typed history →
  ∃ keys, kv_Partition history = Some ((λ k, ops_on k history) <$> keys)
    ∧ StronglySorted String.le keys ∧ NoDup keys ∧ ∀ k, k ∈ keys ↔ ops_on k history ≠ [].
Proof.
  intros Ht. destruct (group_by_key_spec history ∅ Ht) as (m & Hm & Hspec).
  unfold kv_Partition. rewrite Hm. cbn [mbind option_bind].
  exists (merge_sort String.le (map_to_list m).*1). split_and!.
  - f_equal. apply list_fmap_ext. intros i k _. destruct (Hspec k) as [Hd _].
    by rewrite Hd, lookup_empty.
  - apply (StronglySorted_merge_sort _ _).
  - rewrite merge_sort_Permutation. apply NoDup_fst_map_to_list.
  - intros k. rewrite merge_sort_Permutation. destruct (Hspec k) as [_ Hs].
    rewrite lookup_empty in Hs. rewrite list_elem_of_fmap. split.
    + intros ([k' v] & -> & Hin%elem_of_map_to_list).
      by destruct (proj1 Hs) as [[? ?]|Hne]; [cbn; eexists| |].
    + intros Hne. destruct (proj2 Hs) as [v Hv]; [by right|]. exists (k, v).
      split; [done|]. by apply elem_of_map_to_list.
Qed.

(** There are no more keys than operations. *)
Lemma keys_length history keys :
  NoDup keys → (∀ k, k ∈ keys → ops_on k history ≠ []) → (length keys <= length history)%nat.
Proof.
  intros Hnd Hk.
  set (key_of := λ o : Operation KvValue, match Input o with KvIn inp => in_Key inp | _ => ""%string end).
  rewrite <- (length_fmap key_of history). apply submseteq_length, NoDup_submseteq; [done|].
  intros k Hin. apply Hk in Hin. destruct (ops_on k history) as [|o l] eqn:Ho; [done|].
  assert (o ∈ ops_on k history) as Hop by (rewrite Ho; by left).
  apply list_elem_of_filter in Hop as [Hon Hop]. apply list_elem_of_fmap. exists o. split; [|done].
  unfold on_key in Hon. unfold key_of. destruct (Input o); try done. by apply bool_decide_eq_true in Hon.
Qed.

Lemma elem_of_ops_on k history o : o ∈ ops_on k history → o ∈ history.
Proof. by intros [_ ?]%list_elem_of_filter. Qed.

Lemma typed_answered history ops : typed history → (∀ o, o ∈ ops → o ∈ history) → answered KvModel ops.
Proof.
  intros Ht Hsub o Ho st. destruct (Ht o (Hsub o Ho)) as (inp & out & Hi & Hout).
  cbn. unfold kv_Step. rewrite Hi, Hout. by eexists.
Qed.

Section Check.
Context `{Printable KvValue, Printable string, TimeSorter KvValue, !TimeSorterLaws KvValue}.

(** What [CheckOperations] answers, by the keys of the history. *)
Lemma check_keys history :
  typed history → timed history → history ≠ [] →
  ∃ (keys : list string) fuel0, (∀ k, k ∈ keys ↔ ops_on k history ≠ []) ∧
  ∀ fuel sched, (fuel0 <= fuel)%nat → complete sched (length history) →
    ∃ b, CheckOperations KvModel history sched fuel = Returned b
      ∧ (b = true ↔ ∀ k, k ∈ keys → linearizable KvModel (ops_on k history)).
Proof.
  intros Ht Htime Hne. destruct (kv_Partition_spec history Ht) as (keys & Hpart & _ & Hnd & Hkeys).
  set (parts := (λ k, ops_on k history) <$> keys) in *.
  assert (parts ≠ []) as Hparts.
  { destruct history as [|o history]; [done|]. destruct (Ht o ltac:(left)) as (inp & out & Hi & _).
    assert (in_Key inp ∈ keys) as Hin; [|by subst parts; destruct keys; [apply not_elem_of_nil in Hin|]].
    apply Hkeys. unfold ops_on. rewrite filter_cons, decide_True; [done|].
    unfold on_key. rewrite Hi. by apply bool_decide_eq_true. }
  assert (checkable (fillDefault KvModel) parts) as Hc.
  { apply checkable_fillDefault. split; intros ops (k & -> & _)%list_elem_of_fmap.
    - intros o Ho. by eapply Htime, elem_of_ops_on.
    - eapply typed_answered; [done|]. by intros o; apply elem_of_ops_on. }
  pose proof (ShallowEqual_laws KvModel eq_refl) as Hlaws.
  destruct (checkParallel_decides (fillDefault KvModel) (same := ShallowEqual) _ parts Hparts
    (checkable_encoded _ _ Hc))
    as [fuel0 Hrun].
  exists keys, fuel0. split; [exact Hkeys|]. intros fuel sched Hf Hsched.
  destruct (Hrun fuel sched Hf) as (res & info & Hres & Hlin).
  { intros i Hi. apply Hsched. unfold parts in Hi. rewrite length_fmap in Hi.
    pose proof (keys_length history keys Hnd (λ k, proj1 (Hkeys k))). lia. }
  exists (bool_decide (res = Ok)). split.
  { unfold CheckOperations, checkOperations. cbn [Partition fillDefault KvModel mbind option_bind].
    rewrite Hpart. cbn [or_panic outcome_bind]. by rewrite Hres. }
  rewrite bool_decide_eq_true, Hlin. setoid_rewrite linearizable_fillDefault. split.
  - intros Hall k Hk. apply Hall, list_elem_of_fmap. by exists k.
  - intros Hall ops (k & -> & Hk)%list_elem_of_fmap. by apply Hall.
Qed.

(** C19: For a history of calls with their outcomes, [CheckOperations KvModel] returns,
    and returns true exactly when the operations on each key, by themselves, are
    linearizable for one string. *)
Theorem check_kv history :
  typed history → timed history → history ≠ [] →
  ∃ fuel0, ∀ fuel sched, (fuel0 <= fuel)%nat → complete sched (length history) →
    ∃ b, CheckOperations KvModel history sched fuel = Returned b
      ∧ (b = true ↔ ∀ k, linearizable KvModel (ops_on k history)).
Proof.
  intros Ht Htime Hne. destruct (check_keys history Ht Htime Hne) as (keys & fuel0 & Hkeys & Hrun).
  exists fuel0. intros fuel sched Hf Hsched. destruct (Hrun fuel sched Hf Hsched) as (b & Hb & Hlin).
  exists b. split; [done|]. rewrite Hlin. split; [|auto].
  intros Hall k. destruct (decide (ops_on k history = [])) as [->|Hk]; [|by apply Hall, Hkeys].
  exists []. split_and!; [done|constructor|done].
Qed.
End Check.
