(* ===== verification/KvLinear.v ===== *)
(** * KvLinear: histories that a log explains pass the checker

    [operations] is the history of a run as the tests of [src/src/kvraft] record
    it, one [porcupine.Operation] per request, with the moments of its start and
    its return.  If a log explains the history, every request has returned and
    the key never holds the text of [ErrNoKey], then the operations on the key are
    linearizable for [models.KvModel]: writes are ordered by their first place in
    the log, reads between two entries. *)
From Stdlib Require Import ZArith Lia Ascii.
From stdpp Require Import base gmap strings option relations sorting list.
From S2P Require Import Prelude RaftDelivery Bitset Porcupine PorcupineCheck PorcupineCorrect PorcupineOps PorcupinePoints KvModel Dedup KvRaft KvReplica KvHistory.
#[local] Open Scope Z_scope.

Implicit Types (r : Request) (hist : list Obs) (L : list Op) (marks : list nat) (t m h k : nat) (v key : string)
  (o : Operation KvValue).

(** ** The recorded operations *)
Definition input_of r : KvInput :=
  match r with
  | RGet args => mkKvInput 0 (ga_Key args) ""
  | RPut args => mkKvInput 1 (pa_Key args) (pa_Value args)
  | RAppend args => mkKvInput 2 (pa_Key args) (pa_Value args)
  end.

(** The tests number the clients; here the number is that of the clerk, and the
    times are places in the history. *)
Definition recorded r (t t' : nat) v : Operation KvValue :=
  mkOperation (client_of r) (KvIn (input_of r)) (Z.of_nat t) (KvOut (mkKvOutput v)) (Z.of_nat t').

Fixpoint returned r (t : nat) hist : option (nat * string) :=
  match hist with
  | [] => None
  | Done r' v :: hist => if decide (r' = r) then Some (t, v) else returned r (S t) hist
  | Invoke _ :: hist => returned r (S t) hist
  end.

Fixpoint operations_from (t : nat) hist : list (Operation KvValue) :=
  match hist with
  | [] => []
  | Invoke r :: hist =>
      match returned r (S t) hist with
      | Some (t', v) => recorded r t t' v :: operations_from (S t) hist
      | None => operations_from (S t) hist
      end
  | Done _ _ :: hist => operations_from (S t) hist
  end.

Definition operations hist : list (Operation KvValue) := operations_from 0 hist.

(** Every request has returned. *)
Definition all_done hist : Prop := ∀ r, Invoke r ∈ hist → ∃ v, Done r v ∈ hist.

Lemma returned_spec r (t t' : nat) hist v :
  returned r t hist = Some (t', v) → (t <= t')%nat ∧ hist !! (t' - t)%nat = Some (Done r v).
Proof.
  revert t. induction hist as [|[r'|r' v'] hist IH]; intros t; cbn [returned]; [done| |case_decide as Hr].
  - intros [Hle Hl]%IH. split; [lia|]. by replace (t' - t)%nat with (S (t' - S t))%nat by lia.
  - intros [= <- <-]. subst r'. split; [done|]. by rewrite Nat.sub_diag.
  - intros [Hle Hl]%IH. split; [lia|]. by replace (t' - t)%nat with (S (t' - S t))%nat by lia.
Qed.

Lemma returned_Some r (t i : nat) hist v :
  hist !! i = Some (Done r v) → is_Some (returned r t hist).
Proof.
  revert t i. induction hist as [|[r'|r' v'] hist IH]; intros t [|i] Hi; cbn [returned]; simplify_eq/=; eauto.
  - rewrite decide_True by done. by eexists.
  - case_decide; [by eexists|eauto].
Qed.

Lemma operations_from_spec (t : nat) hist o :
  o ∈ operations_from t hist ↔
  ∃ r i t' v, hist !! i = Some (Invoke r) ∧ returned r (S t + i) (drop (S i) hist) = Some (t', v) ∧
    o = recorded r (t + i) t' v.
Proof.
  revert t. induction hist as [|[r'|r' v'] hist IH]; intros t; cbn [operations_from].
  - split; [by intros ?%not_elem_of_nil|]. by intros (? & [|i] & ? & ? & ? & _).
  - assert (o ∈ operations_from (S t) hist ↔ ∃ r i t' v, (Invoke r' :: hist) !! S i = Some (Invoke r) ∧
      returned r (S t + S i) (drop (S (S i)) (Invoke r' :: hist)) = Some (t', v) ∧ o = recorded r (t + S i) t' v) as E.
    { rewrite IH. cbn [lookup list_lookup drop]. by setoid_rewrite Nat.add_succ_r. }
    destruct (returned r' (S t) hist) as [[t1 v1]|] eqn:Hret; [rewrite elem_of_cons|]; rewrite E; split.
    + intros [->|(r & i & t' & v & ?)]; [|by exists r, (S i), t', v].
      exists r', 0%nat, t1, v1. rewrite !Nat.add_0_r. done.
    + intros (r & [|i] & t' & v & Hi & Hr & ->); [left|right; by exists r, i, t', v].
      cbn in Hi, Hr. injection Hi as <-. rewrite !Nat.add_0_r in *. rewrite drop_0, Hret in Hr. by injection Hr as <- <-.
    + intros (r & i & t' & v & ?). by exists r, (S i), t', v.
    + intros (r & [|i] & t' & v & Hi & Hr & ->); [|by exists r, i, t', v].
      cbn in Hi, Hr. injection Hi as <-. by rewrite Nat.add_0_r, drop_0, Hret in Hr.
  - rewrite IH. split.
    + intros (r & i & t' & v & Hi & Hr & ->). exists r, (S i), t', v. cbn. by rewrite !Nat.add_succ_r.
    + intros (r & [|i] & t' & v & Hi & Hr & ->); [done|]. exists r, i, t', v. cbn in Hr. by rewrite !Nat.add_succ_r in *.
Qed.

Lemma operations_from_calls (t : nat) hist o : o ∈ operations_from t hist → Z.of_nat t <= Call o.
Proof. intros (r & i & t' & v & _ & _ & ->)%operations_from_spec. cbn. lia. Qed.

Lemma operations_from_NoDup (t : nat) hist : NoDup (operations_from t hist).
Proof.
  revert t. induction hist as [|[r|r v] hist IH]; intros t; cbn; [constructor| |done].
  destruct (returned r (S t) hist) as [[t' v]|]; [|done]. constructor; [|done].
  intros Hin%operations_from_calls. cbn in Hin. lia.
Qed.

(** A clerk returns from a request once, after it started it. *)
Lemma done_once hist r (t t' : nat) v v' :
  well_formed hist → hist !! t = Some (Done r v) → hist !! t' = Some (Done r v') → t = t'.
Proof.
  intros Hwf Ht Ht'.
  assert (∀ i j u1 u2, hist !! i = Some (Done r u1) → hist !! j = Some (Done r u2) → ¬ (i < j)%nat) as Hone.
  { intros i j u1 u2 H1 H2 Hij. destruct (wf_done _ Hwf _ _ _ H2) as [_ Hd].
    assert (is_done r (take j hist) = true); [|congruence]. apply is_done_spec. exists u1. by eapply elem_take. }
  pose proof (Hone _ _ _ _ Ht Ht'). pose proof (Hone _ _ _ _ Ht' Ht). lia.
Qed.

Lemma done_after hist r (t t' : nat) v :
  well_formed hist → hist !! t = Some (Invoke r) → hist !! t' = Some (Done r v) → (t < t')%nat.
Proof.
  intros Hwf Ht Ht'. destruct (wf_done _ Hwf _ _ _ Ht') as [[i Hi]%list_elem_of_lookup _].
  apply lookup_take_Some in Hi as [Hi Hlt]. by destruct (invoked_once _ _ _ _ _ Hwf Ht Hi) as [-> _].
Qed.

(** The operations of a complete history are its requests. *)
Lemma operations_spec hist o :
  well_formed hist →
  o ∈ operations hist ↔
  ∃ r t t' v, hist !! t = Some (Invoke r) ∧ hist !! t' = Some (Done r v) ∧ (t < t')%nat ∧ o = recorded r t t' v.
Proof.
  intros Hwf. unfold operations. rewrite operations_from_spec. split.
  - intros (r & i & t' & v & Hi & Hr & ->). apply returned_spec in Hr as [Hle Hl]. rewrite lookup_drop in Hl.
    exists r, i, t', v. replace (S i + (t' - (1 + i)))%nat with t' in Hl by lia. split_and!; [done..|lia|done].
  - intros (r & t & t' & v & Ht & Ht' & Hlt & ->). exists r, t.
    destruct (returned_Some r (S t) (t' - S t) (drop (S t) hist) v) as [[t1 v1] Hr].
    { rewrite lookup_drop. by replace (S t + (t' - S t))%nat with t' by lia. }
    exists t1, v1. split; [done|]. split; [done|].
    apply returned_spec in Hr as [Hle Hl]. rewrite lookup_drop in Hl. replace (S t + (t1 - S t))%nat with t1 in Hl by lia.
    assert (t1 = t') as -> by (by eapply done_once). by simplify_eq.
Qed.

(** ** Points in the log *)
Section Linear.
Context (hist : list Obs) (L : list Op) (marks : list nat) (key : string).
Context (Hex : explained hist L marks) (Hcomplete : all_done hist).
(** No state of the key looks like a missing key. *)
Context (Hplain : ∀ k, (state_at (take k L)).1 !! key ≠ Some ErrNoKey).

Let Hwf : well_formed hist := ex_wf _ _ _ Hex.

Definition val (k : nat) : string := default ""%string ((state_at (take k L)).1 !! key).
Definition is_write r : bool := match r with RGet _ => false | _ => true end.

(** Entry [k] executes the request. *)
Definition in_effect (k : nat) r : Prop :=
  L !! k = Some (request_op r) ∧ duplicate (state_at (take k L)).2 (client_of r) (seq_of r) = false.

Definition record_of r o : Prop :=
  ∃ t t' v, hist !! t = Some (Invoke r) ∧ hist !! t' = Some (Done r v) ∧ o = recorded r t t' v.

Definition takes (k : nat) o : Prop :=
  ∃ r, record_of r o ∧ op_Key (request_op r) = key ∧ is_write r = true ∧ in_effect k r.

Definition writes o : bool :=
  match Input o with KvIn inp => negb (bool_decide (in_Op inp = 0)) | _ => false end.

Definition mark (z : Z) : nat := default 0%nat (marks !! Z.to_nat z).

Lemma record_of_once r o o' : record_of r o → record_of r o' → o = o'.
Proof.
  intros (t & t' & v & Ht & Ht' & ->) (t1 & t1' & v1 & Ht1 & Ht1' & ->).
  destruct (invoked_once _ _ _ _ _ Hwf Ht Ht1 eq_refl eq_refl) as [<- _].
  pose proof (done_once _ _ _ _ _ _ Hwf Ht' Ht1') as <-. by simplify_eq.
Qed.

Lemma record_of_request r r' o : record_of r o → record_of r' o → r = r'.
Proof.
  intros (t & t' & v & Ht & Ht' & ->) (t1 & t1' & v1 & Ht1 & Ht1' & E). injection E as _ _ Et _ _.
  assert (t = t1) as <- by lia. congruence.
Qed.

Lemma record_of_exists r : Invoke r ∈ hist → ∃ o, record_of r o.
Proof.
  intros Hin. destruct (Hcomplete _ Hin) as [v [t' Ht']%list_elem_of_lookup].
  apply list_elem_of_lookup in Hin as [t Ht]. by exists (recorded r t t' v), t, t', v.
Qed.

Lemma elem_of_key_ops o :
  o ∈ ops_on key (operations hist) ↔ ∃ r, record_of r o ∧ op_Key (request_op r) = key.
Proof.
  unfold ops_on. rewrite list_elem_of_filter, operations_spec by done.
  assert (∀ r t t' v, on_key key (recorded r t t' v) = true ↔ op_Key (request_op r) = key) as Hon.
  { intros r t t' v. unfold on_key. cbn. rewrite bool_decide_eq_true. by destruct r. }
  split.
  - intros (Hk & r & t & t' & v & Ht & Ht' & _ & ->). exists r. apply Hon in Hk. split; [|done]. by exists t, t', v.
  - intros (r & (t & t' & v & Ht & Ht' & ->) & Hk). split; [by apply Hon|].
    exists r, t, t', v. split_and!; [done..|by eapply done_after|done].
Qed.

(** How long the log was when the request started and when it returned. *)
Lemma record_marks r o :
  record_of r o → Call o < Return o ∧ (mark (Return o) <= length L)%nat ∧
  request_op r ∉ take (mark (Call o)) L ∧ ∃ v, Output o = KvOut (mkKvOutput v) ∧ effective L (mark (Return o)) r v.
Proof.
  intros (t & t' & v & Ht & Ht' & ->). cbn [Call Return Output recorded]. unfold mark. rewrite !Nat2Z.id.
  assert (is_Some (marks !! t) ∧ is_Some (marks !! t')) as [[m Hm] [m' Hm']].
  { rewrite !lookup_lt_is_Some, (ex_len _ _ _ Hex). split; by eapply lookup_lt_Some. }
  rewrite Hm, Hm'. cbn. pose proof (done_after _ _ _ _ _ Hwf Ht Ht'). split; [lia|].
  split; [by eapply ex_bound|]. split; [by eapply ex_invoke|]. exists v. split; [done|by eapply ex_done].
Qed.

Lemma since_le r o k : record_of r o → L !! k = Some (request_op r) → (mark (Call o) <= k)%nat.
Proof.
  intros (_ & _ & Hno & _)%record_marks Hk. destruct (decide (k < mark (Call o))%nat) as [Hlt|]; [|lia].
  destruct Hno. by eapply elem_take.
Qed.

(** What comes first of a request is executed: no later request of its client can be
    before it in the log, because the clerk waited. *)
Lemma first_in_effect r o :
  record_of r o → ∃ k, (k < mark (Return o))%nat ∧ in_effect k r.
Proof.
  intros Hr. pose proof (record_marks _ _ Hr) as (_ & Hm & _ & v & _ & Hin & _).
  destruct (list_find_elem_of (λ op, op = request_op r) _ _ Hin eq_refl) as [[k op] (Hk & -> & Hfirst)%list_find_Some].
  apply lookup_take_Some in Hk as [Hk Hlt]. exists k. split; [done|]. split; [done|].
  rewrite (state_at_cache (take k L)). apply negb_false_iff, fresh_for_spec.
  intros op s Hop [= Hc <-]. apply list_elem_of_lookup in Hop as [j Hj]. apply lookup_take_Some in Hj as [Hj Hjk].
  destruct (ex_ops _ _ _ Hex op (list_elem_of_lookup_2 _ _ _ Hj)) as (r' & [t1 Ht1]%list_elem_of_lookup & ->).
  change (seq_of r' < seq_of r). change (client_of r' = client_of r) in Hc. apply Z.nle_gt. intros Hle.
  destruct Hr as (t & t' & v' & Ht & Ht' & ->).
  assert (r' ≠ r) as Hne.
  { intros ->. eapply (Hfirst j); [by rewrite lookup_take_lt by lia|lia|done]. }
  destruct (decide (t1 <= t)%nat) as [Hle1|Hgt].
  - assert (t1 ≠ t) by (intros ->; congruence).
    pose proof (wf_invoke _ Hwf _ _ Ht) as Hmay. rewrite may_invoke_spec in Hmay.
    destruct (Hmay r' (elem_take _ _ t _ Ht1 ltac:(lia)) Hc). lia.
  - pose proof (wf_invoke _ Hwf _ _ Ht1) as Hmay. rewrite may_invoke_spec in Hmay.
    destruct (Hmay r (elem_take _ _ t1 _ Ht ltac:(lia)) (eq_sym Hc)) as [_ [u [t2 Ht2]%list_elem_of_lookup]].
    apply lookup_take_Some in Ht2 as [Ht2 Hlt2].
    assert (is_Some (marks !! t1) ∧ is_Some (marks !! t2)) as [[m1 Hm1] [m2 Hm2]].
    { rewrite !lookup_lt_is_Some, (ex_len _ _ _ Hex). split; by eapply lookup_lt_Some. }
    destruct (ex_done _ _ _ Hex _ _ _ _ Ht2 Hm2) as [[i Hi]%list_elem_of_lookup _].
    apply lookup_take_Some in Hi as [Hi Hi2]. pose proof (ex_sorted _ _ _ Hex t2 t1 m2 m1 ltac:(lia) Hm2 Hm1).
    assert (¬ (i < k)%nat) by (intros ?; eapply (Hfirst i); [by rewrite lookup_take_lt by lia|lia|done]).
    destruct (ex_invoke _ _ _ Hex _ _ _ Ht1 Hm1). eapply elem_take; [exact Hj|lia].
Qed.

Lemma val_step k op :
  L !! k = Some op →
  val (S k) = default ""%string ((step_op (state_at (take k L)) op).1 !! key).
Proof. intros Hk. unfold val. by rewrite (take_S_r _ _ _ Hk), state_at_snoc. Qed.

Lemma val_same_or_taken k : val (S k) = val k ∨ ∃ o, o ∈ ops_on key (operations hist) ∧ takes k o.
Proof.
  destruct (L !! k) as [op|] eqn:Hk.
  2: { left. unfold val. apply lookup_ge_None in Hk. by rewrite !take_ge by lia. }
  rewrite (val_step _ _ Hk). unfold step_op.
  destruct (ex_ops _ _ _ Hex op (list_elem_of_lookup_2 _ _ _ Hk)) as (r & Hin & ->).
  destruct (duplicate _ _ _) eqn:Hd; [by left|]. destruct (is_write r) eqn:Hw; [|left; by destruct r].
  destruct (decide (op_Key (request_op r) = key)) as [Hkey|Hkey].
  - right. destruct (record_of_exists _ Hin) as [o Ho]. exists o.
    split; [apply elem_of_key_ops; by exists r|]. by exists r.
  - left. cbn [fst]. unfold op_effect. by destruct r; cbn in *; rewrite ?lookup_insert_ne.
Qed.

Lemma taken_step k o :
  takes k o → kv_Step (val k) (Input o) (Output o) = Some (true, val (S k)).
Proof.
  intros (r & (t & t' & v & _ & _ & ->) & Hkey & Hw & Hk & Hd). rewrite (val_step _ _ Hk). unfold step_op.
  unfold client_of, seq_of in Hd. rewrite Hd. cbn [fst]. unfold kv_Step, op_effect, val.
  destruct r as [args|args|args]; [done| |]; cbn in *; by rewrite Hkey, lookup_insert_eq.
Qed.

Lemma read_plain k : read (state_at (take k L)).1 key = val k.
Proof.
  unfold read, val. specialize (Hplain k). destruct (_ !! key) as [x|]; [|done]. cbn.
  rewrite decide_False; [done|congruence].
Qed.

Lemma in_effect_once k k' r : in_effect k r → in_effect k' r → k = k'.
Proof.
  assert (∀ i j, in_effect i r → in_effect j r → ¬ (i < j)%nat) as Hno.
  { intros i j [Hi _] [_ Hj] Hlt. pose proof (state_at_duplicate (take j L) (request_op r) (elem_take _ _ j _ Hi Hlt)) as Hd.
    unfold client_of, seq_of in Hj. congruence. }
  intros H1 H2. pose proof (Hno _ _ H1 H2). pose proof (Hno _ _ H2 H1). lia.
Qed.

Lemma kv_points :
  points KvModel (ops_on key (operations hist)) val takes writes (λ o, mark (Call o)) (λ o, mark (Return o)).
Proof.
  split.
  - done.
  - apply val_same_or_taken.
  - apply taken_step.
  - intros k o o' (r & Hr & _ & _ & Hk & _) (r' & Hr' & _ & _ & Hk' & _). rewrite Hk in Hk'.
    injection Hk' as <-%request_op_inj. by eapply record_of_once.
  - intros k k' o (r & Hr & _ & _ & Hk) (r' & Hr' & _ & _ & Hk').
    pose proof (record_of_request _ _ _ Hr Hr') as <-. by eapply in_effect_once.
  - intros k o (r & (t & t' & v & _ & _ & ->) & _ & Hw & _). by destruct r.
  - intros o (r & Hr & Hkey)%elem_of_key_ops Hw. destruct (first_in_effect _ _ Hr) as (k & Hlt & Hk).
    exists k. split; [|split; [by eapply since_le; [|apply Hk]|done]]. exists r. split_and!; [done..| |done].
    destruct Hr as (t & t' & v & _ & _ & ->). by destruct r.
  - intros o (r & Hr & Hkey)%elem_of_key_ops Hw.
    destruct (record_marks _ _ Hr) as (_ & _ & _ & v & Hout & _ & Heff).
    pose proof (λ k, since_le r o k Hr) as Hsince. destruct Hr as (t & t' & v' & _ & _ & ->).
    destruct r as [args|args|args]; [|done..]. destruct Heff as (k & h & Hk & Hh & ->). exists h.
    specialize (Hsince _ Hk). split; [|lia]. cbn in Hout, Hkey. injection Hout as ->.
    cbn. unfold kv_Step. cbn. rewrite Hkey, read_plain. by rewrite bool_decide_eq_true_2.
  - intros o (r & Hr & _)%elem_of_key_ops. apply record_marks in Hr as [? _]. lia.
  - intros o o' (r & Hr & _)%elem_of_key_ops (r' & Hr' & _)%elem_of_key_ops Hlt.
    destruct Hr as (t & t' & v & _ & Ht' & ->), Hr' as (t1 & t1' & v1 & Ht1 & _ & ->). cbn in Hlt |- *.
    unfold mark. rewrite !Nat2Z.id.
    assert (is_Some (marks !! t') ∧ is_Some (marks !! t1)) as [[m Hm] [m1 Hm1]].
    { rewrite !lookup_lt_is_Some, (ex_len _ _ _ Hex). split; by eapply lookup_lt_Some. }
    rewrite Hm, Hm1. cbn. eapply (ex_sorted _ _ _ Hex t' t1); [lia|done|done].
Qed.

Lemma key_linearizable : linearizable KvModel (ops_on key (operations hist)).
Proof.
  eapply points_linearizable; [apply kv_points|]. apply NoDup_filter, operations_from_NoDup.
Qed.
End Linear.
