(* ===== verification/KvClusterLinear.v ===== *)
(** * KvClusterLinear: the key/value cluster is linearizable

    The composition of [src/src/raft], [src/src/kvraft], [src/src/models] and
    [src/src/porcupine]: whatever the network does, whichever servers crash and
    restart, and whatever snapshots they take, the history that the clerks of a
    cluster record passes the checker of the tests, once every clerk has returned. *)
From Stdlib Require Import ZArith Lia Ascii.
From stdpp Require Import base gmap strings option list.
From S2P Require Import Prelude GoStrings Labgob RaftTypes Raft RaftNode RaftCluster RaftDelivery Bitset Porcupine PorcupineCheck PorcupineCorrect PorcupineOps KvModel Dedup KvRaft KvReplica KvHistory KvLinear KvCluster KvClusterSteps.
#[local] Open Scope Z_scope.

(** ** Values that are not taken for an error *)

(** A value some [Put] or [Append] of the key was called with. *)
Definition written (hist : list Obs) (key v : string) : Prop :=
  ∃ r, Invoke r ∈ hist ∧ is_write r = true ∧ op_Key (request_op r) = key ∧ op_Value (request_op r) = v.

(** No values of the key together spell what the servers store for a missing key. *)
Definition never_ErrNoKey (hist : list Obs) (key : string) : Prop :=
  ∀ vs : list string, (∀ v, v ∈ vs → written hist key v) → concat_all vs ≠ ErrNoKey.

(** What is stored for a key are values of the key, one after the other. *)
Lemma state_at_written hist (L : list Op) (key v : string) :
  (∀ op, op ∈ L → ∃ r, Invoke r ∈ hist ∧ op = request_op r) → (state_at L).1 !! key = Some v →
  ∃ vs : list string, v = concat_all vs ∧ ∀ u, u ∈ vs → written hist key u.
Proof.
  revert v. induction L as [|op L IH] using rev_ind; intros v Hops Hv.
  { cbn in Hv. by rewrite lookup_empty in Hv. }
  assert (∀ v, (state_at L).1 !! key = Some v → ∃ vs : list string, v = concat_all vs ∧ ∀ u, u ∈ vs → written hist key u) as HL
    by (intros; eapply IH; [intros op' ?; apply Hops, elem_of_app; by left|done]).
  destruct (Hops op) as (r & Hr & ->); [apply elem_of_app; right; by left|].
  assert (∀ a : string, a +:+ "" = a) as Hnil
    by (intros a; apply list_ascii_inj; by rewrite list_ascii_app, app_nil_r).
  rewrite state_at_snoc in Hv. unfold step_op in Hv. destruct (duplicate _ _ _); [by eapply HL|].
  cbn [fst] in Hv. unfold op_effect in Hv. destruct r as [args|args|args]; cbn in Hv; [by eapply HL|..];
    (apply lookup_insert_Some in Hv as [[Hkey <-]|[_ ?]]; [|by eapply HL]).
  - exists [pa_Value args]. split; [cbn; by rewrite Hnil|]. intros u ->%list_elem_of_singleton. by exists (RPut args).
  - assert (∃ vs : list string, default "" ((state_at L).1 !! pa_Key args) = concat_all vs ∧ ∀ u, u ∈ vs → written hist key u)
      as (vs & E & Hvs).
    { rewrite Hkey. destruct ((state_at L).1 !! key) as [x|] eqn:Hx; [by apply HL|]. exists []. split; [done|].
      by intros u ?%not_elem_of_nil. }
    exists (vs ++ [pa_Value args]). split.
    + apply list_ascii_inj. rewrite E, list_ascii_app, !list_ascii_concat, fmap_app, join_app.
      cbn [fmap list_fmap mjoin list_join]. by rewrite app_nil_r.
    + intros u [Hu|Hu%list_elem_of_singleton]%elem_of_app; [auto|]. subst u. by exists (RAppend args).
Qed.

(** ** The history as the checker gets it *)
Lemma recorded_typed hist : typed (operations hist).
Proof. intros o (r & i & t' & v & _ & _ & ->)%operations_from_spec. by exists (input_of r), (mkKvOutput v). Qed.

Lemma recorded_timed hist : timed (operations hist).
Proof.
  intros o (r & i & t' & v & _ & [Hle _]%returned_spec & ->)%operations_from_spec. cbn. lia.
Qed.

Section KvClusterLinear.
Context `{GobLaws (PersistentState Op)} `{GobLaws SnapshotState}.
Implicit Types (W : KvWorld) (n : nat) (size : Z).

Lemma reach_linearizable n size b W key :
  kv_reach n size b W → all_done (history W) → never_ErrNoKey (history W) key →
  linearizable KvModel (ops_on key (operations (history W))).
Proof.
  intros (g & L & marks & Hinv)%kv_reach_inv Hdone Hnever.
  pose proof (ki_explained _ _ _ _ _ _ Hinv) as Hex.
  eapply key_linearizable; [exact Hex|done|]. intros k Hk.
  destruct (state_at_written (history W) (take k L) key ErrNoKey) as (vs & E & Hvs); [|exact Hk|by eapply Hnever].
  intros op Hin%elem_of_take_sub. by eapply (ex_ops _ _ _ Hex).
Qed.

Context `{Printable KvValue, Printable string, TimeSorter KvValue, !TimeSorterLaws KvValue}.

(** C1: Every run of the cluster in which no peer votes twice in a term and no leader
    sends its dummy entry is linearizable, once every clerk has returned: reordered
    within the times of the calls, what the clerks saw of a key is an execution of one
    string, unless values written to the key spell "ErrNoKey" together, which the
    servers and clerks take for a missing key.  If that is so for no key and there is
    some operation, the checker that the tests call returns true. *)
Theorem cluster_linearizable n size b W :
  kv_reach n size b W → all_done (history W) →
  (∀ key, never_ErrNoKey (history W) key → linearizable KvModel (ops_on key (operations (history W)))) ∧
  ((∀ key, never_ErrNoKey (history W) key) → operations (history W) ≠ [] → ∃ fuel0, ∀ fuel sched, (fuel0 <= fuel)%nat →
    complete sched (length (operations (history W))) →
    CheckOperations KvModel (operations (history W)) sched fuel = Returned true).
Proof.
  intros Hr Hdone. split; [intros key Hkey; by eapply reach_linearizable|]. intros Hnever Hne.
  destruct (check_keys _ (recorded_typed (history W)) (recorded_timed (history W)) Hne) as (keys & fuel0 & _ & Hrun).
  exists fuel0. intros fuel sched Hf Hsched. destruct (Hrun fuel sched Hf Hsched) as (ok & -> & Hok).
  by rewrite (proj2 Hok) by (intros key _; by eapply reach_linearizable).
Qed.
End KvClusterLinear.
