(* ===== verification/PorcupineRuns.v ===== *)
(** * PorcupineRuns: the checker on concrete histories

    An instance of the sorter, runs of the model of the checker, and the
    theorems about it applied to them. *)
From Stdlib Require Import ZArith Lia.
From stdpp Require Import base gmap strings pretty option sorting list.
From S2P Require Import Prelude Bitset Porcupine PorcupinePaths PorcupineCheck PorcupineCorrect PorcupineOps PorcupineEvents PorcupineVis PorcupineDraws KvModel.
#[local] Open Scope Z_scope.

(** ** Sorting by time *)
Section TimeSort.
Context {V : Type}.

Definition time_le (a b : entry V) : Prop := Less b a = false.
#[export] Instance time_le_dec a b : Decision (time_le a b) := decide (Less b a = false).

Lemma time_le_alt a b :
  time_le a b ↔ time a < time b ∨ time a = time b ∧ ¬ (kind b = callEntry ∧ kind a = returnEntry).
Proof.
  unfold time_le, Less. case_decide as Ht; rewrite bool_decide_eq_false; split.
  - intros. left. lia.
  - intros [?|[? _]]; lia.
  - intros Hk. right. split; [lia|done].
  - intros [?|[_ Hk]]; [lia|done].
Qed.

#[export] Instance time_le_trans : Transitive time_le.
Proof.
  intros a b c. rewrite !time_le_alt. intros [?|[? Hab]] [?|[? Hbc]]; try (left; lia).
  right. split; [lia|]. intros [? ?]. destruct (kind b); tauto.
Qed.

#[export] Instance time_le_total : Total time_le.
Proof.
  intros a b. rewrite !time_le_alt.
  destruct (Z.lt_total (time a) (time b)) as [?|[?|?]]; [auto| |auto].
  destruct (kind a), (kind b); try (left; right; split; [done|]; naive_solver);
    right; right; split; [done|]; naive_solver.
Qed.

#[export] Instance time_sort : TimeSorter V := merge_sort time_le.
#[export] Instance time_sort_laws : TimeSorterLaws V.
Proof.
  split.
  - intros l. apply merge_sort_Permutation.
  - intros l. apply (StronglySorted_merge_sort time_le).
Qed.
End TimeSort.

#[export] Instance string_printable : Printable string := λ s, s.
#[export] Instance KvValue_printable : Printable KvValue := λ v,
  match v with KvIn inp => in_Key inp | KvOut out => out_Value out | KvNil => "<nil>"%string end.

(** ** Histories *)
Definition put (client : Z) (k v : string) (call return_ : Z) : Operation KvValue :=
  mkOperation client (KvIn (mkKvInput 1 k v)) call (KvOut (mkKvOutput "")) return_.
Definition get (client : Z) (k v : string) (call return_ : Z) : Operation KvValue :=
  mkOperation client (KvIn (mkKvInput 0 k "")) call (KvOut (mkKvOutput v)) return_.

(** Two reads overlap a write; one of them still sees the old value. *)
Definition overlapping : list (Operation KvValue) :=
  [put 0 "x" "a" 1 6; get 1 "x" "a" 2 8; get 2 "x" "" 3 5; put 0 "y" "b" 7 9].

(** The old value is read after the new one was. *)
Definition stale : list (Operation KvValue) :=
  [put 0 "x" "a" 1 6; get 1 "x" "a" 2 3; get 2 "x" "" 4 5].

Definition in_order (k : nat) : Schedule :=
  mkSchedule (Result <$> seq 0 k) (λ _ _, true) elements.

Lemma in_order_complete k : complete (in_order k) k.
Proof. intros i Hi. apply list_elem_of_fmap_2. apply elem_of_seq. lia. Qed.

Example overlapping_accepted : CheckOperations KvModel overlapping (in_order 4) 40 = Returned true.
Proof. vm_compute. reflexivity. Qed.

Example stale_rejected : CheckOperations KvModel stale (in_order 3) 40 = Returned false.
Proof. vm_compute. reflexivity. Qed.

(** With an empty history the partition is empty: no goroutine ever sends a
    result, and [CheckOperations] waits for one forever. *)
Lemma empty_history_never_returns sched fuel : CheckOperations KvModel [] sched fuel = Running.
Proof.
  assert (∀ results arr, select_loop results false 0 arr true [] = Running) as Hsel.
  { intros results arr. induction arr as [|[i|] arr IH]; [done|exact IH|exact IH]. }
  unfold CheckOperations, checkOperations, checkParallel.
  assert (or_panic (f ← Partition (fillDefault KvModel); f []) = Returned []) as -> by (vm_compute; reflexivity).
  cbn [outcome_bind length fmap list_fmap seq]. by rewrite Hsel.
Qed.

(** ** The theorems at these histories *)
Lemma overlapping_typed : typed overlapping.
Proof. intros o Ho. repeat (apply elem_of_cons in Ho as [->|Ho]; [by eexists _, _|]). by apply not_elem_of_nil in Ho. Qed.

Lemma overlapping_timed : timed overlapping.
Proof. intros o Ho. repeat (apply elem_of_cons in Ho as [->|Ho]; [cbn; lia|]). by apply not_elem_of_nil in Ho. Qed.

Lemma stale_typed : typed stale.
Proof. intros o Ho. repeat (apply elem_of_cons in Ho as [->|Ho]; [by eexists _, _|]). by apply not_elem_of_nil in Ho. Qed.

Lemma stale_timed : timed stale.
Proof. intros o Ho. repeat (apply elem_of_cons in Ho as [->|Ho]; [cbn; lia|]). by apply not_elem_of_nil in Ho. Qed.

Lemma kv_Partition_spec_witness :
  ∃ keys, kv_Partition overlapping = Some ((λ k, ops_on k overlapping) <$> keys) ∧ NoDup keys.
Proof.
  destruct (kv_Partition_spec overlapping overlapping_typed) as (keys & Hp & _ & Hd & _).
  exists keys. split; assumption.
Defined.

Lemma check_kv_witness :
  ∃ fuel b, CheckOperations KvModel overlapping (in_order 4) fuel = Returned b
    ∧ (b = true ↔ ∀ k, linearizable KvModel (ops_on k overlapping)).
Proof.
  destruct (check_kv overlapping overlapping_typed overlapping_timed ltac:(discriminate)) as [fuel0 Hrun].
  exists fuel0. exact (Hrun fuel0 (in_order 4) (le_n _) (in_order_complete 4)).
Defined.

(** The same model without a partition function, as one register. *)
Definition RegisterModel : Model KvValue string := {|
  Partition := None; PartitionEvent := None; Init := ""%string; Step := kv_Step; Equal := None;
  DescribeOperation := None; DescribeState := None
|}.

Lemma RegisterModel_checkable history : typed history → timed history → checkable RegisterModel [history].
Proof.
  intros Ht Htime. split; intros ops Ho%list_elem_of_singleton; subst ops; [done|].
  intros o Ho st. destruct (Ht o Ho) as (inp & out & Hi & Hout).
  cbn. unfold kv_Step. rewrite Hi, Hout. by eexists.
Qed.

Lemma CheckOperations_correct_witness :
  ∃ fuel b, CheckOperations RegisterModel stale (in_order 1) fuel = Returned b
    ∧ (b = true ↔ ∀ ops, ops ∈ [stale] → linearizable RegisterModel ops).
Proof.
  destruct (CheckOperations_correct RegisterModel ShallowEqual stale [stale]
    (ShallowEqual_laws RegisterModel eq_refl) eq_refl ltac:(discriminate)
    (RegisterModel_checkable _ stale_typed stale_timed)) as [fuel0 Hrun].
  exists fuel0. exact (Hrun fuel0 (in_order 1) (le_n _) (in_order_complete 1)).
Defined.

Lemma checkOperations_sound_witness :
  ¬ linearizable RegisterModel stale.
Proof.
  destruct (checkOperations RegisterModel stale true 0 (in_order 1) 40) as [[res info]| |] eqn:Hrun;
    [|vm_compute in Hrun; discriminate Hrun..].
  assert (res = Illegal) as Hres by (vm_compute in Hrun; injection Hrun as <- _; reflexivity).
  destruct (checkOperations_sound RegisterModel ShallowEqual stale [stale] true 0 (in_order 1) 40 res info
    (ShallowEqual_laws RegisterModel eq_refl) eq_refl (RegisterModel_checkable _ stale_typed stale_timed) Hrun)
    as [_ Hill].
  destruct (Hill Hres) as (ops & Hin & Hn). apply list_elem_of_singleton in Hin. subst ops. exact Hn.
Defined.

Lemma checkSingle_decides_witness :
  ∃ k, verdict (fillDefault RegisterModel) (makeEntries overlapping) overlapping true k.
Proof.
  pose proof (ShallowEqual_laws RegisterModel eq_refl) as Hlaws.
  destruct (checkSingle_decides (fillDefault RegisterModel) (same := ShallowEqual)
    (makeEntries overlapping) overlapping true) as [k Hk].
  - apply makeEntries_encodes. exact overlapping_timed.
  - apply (parts_answered _ _ (checkable_fillDefault _ _
      (RegisterModel_checkable _ overlapping_typed overlapping_timed))). left.
  - exists k. exact (Hk k (le_n k)).
Defined.

(** ** Events *)
Definition call_event (client i op : Z) (k v : string) : Event KvValue :=
  mkEvent client CallEvent (KvIn (mkKvInput op k v)) i.
Definition return_event (client i : Z) (v : string) : Event KvValue :=
  mkEvent client ReturnEvent (KvOut (mkKvOutput v)) i.

(** The history [stale] as events, with ids that are not numbers from 0. *)
Definition stale_events : list (Event KvValue) :=
  [call_event 0 70 1 "x" "a"; call_event 1 (-3) 0 "x" ""; return_event 1 (-3) "a";
   call_event 2 12 0 "x" ""; return_event 2 12 ""; return_event 0 70 ""].

Lemma stale_events_matched : matched stale_events.
Proof.
  split.
  - apply (bool_decide_unpack _). vm_compute. exact I.
  - intros k c Hk Hc. destruct k as [|[|[|[|[|[|k]]]]]]; try discriminate Hk; injection Hk as <-; try discriminate Hc.
    + exists 5%nat. eexists. split; [lia|repeat split].
    + exists 2%nat. eexists. split; [lia|repeat split].
    + exists 4%nat. eexists. split; [lia|repeat split].
  - intros j r Hj Hr. destruct j as [|[|[|[|[|[|j]]]]]]; try discriminate Hj; injection Hj as <-; try discriminate Hr.
    + exists 1%nat. eexists. repeat split.
    + exists 3%nat. eexists. repeat split.
    + exists 0%nat. eexists. repeat split.
Qed.

Example stale_events_operations :
  operations_of stale_events = [put 0 "x" "a" 0 5; get 1 "x" "a" 1 2; get 2 "x" "" 3 4].
Proof. vm_compute. reflexivity. Qed.

Lemma stale_events_checkable : checkable_events RegisterModel [stale_events].
Proof.
  split; intros events He%list_elem_of_singleton; subst events; [exact stale_events_matched|].
  intros o Ho st. rewrite stale_events_operations in Ho.
  repeat (apply elem_of_cons in Ho as [->|Ho]; [by eexists|]). by apply not_elem_of_nil in Ho.
Qed.

Example stale_events_rejected : CheckEvents RegisterModel stale_events (in_order 1) 40 = Returned false.
Proof. vm_compute. reflexivity. Qed.

Lemma CheckEvents_correct_witness :
  ∃ fuel b, CheckEvents RegisterModel stale_events (in_order 1) fuel = Returned b
    ∧ (b = true ↔ ∀ events, events ∈ [stale_events] → linearizable RegisterModel (operations_of events)).
Proof.
  destruct (CheckEvents_correct RegisterModel ShallowEqual stale_events [stale_events]
    (ShallowEqual_laws RegisterModel eq_refl) eq_refl ltac:(discriminate) stale_events_checkable) as [fuel0 Hrun].
  exists fuel0. exact (Hrun fuel0 (in_order 1) (le_n _) (in_order_complete 1)).
Defined.

Lemma checkEvents_sound_witness : ¬ linearizable RegisterModel (operations_of stale_events).
Proof.
  destruct (checkEvents RegisterModel stale_events true 0 (in_order 1) 40) as [[res info]| |] eqn:Hrun;
    [|vm_compute in Hrun; discriminate Hrun..].
  assert (res = Illegal) as Hres by (vm_compute in Hrun; injection Hrun as <- _; reflexivity).
  destruct (checkEvents_sound RegisterModel ShallowEqual stale_events [stale_events] true 0 (in_order 1) 40 res info
    (ShallowEqual_laws RegisterModel eq_refl) eq_refl stale_events_checkable Hrun) as [_ Hill].
  destruct (Hill Hres) as (events & Hin & Hn). apply list_elem_of_singleton in Hin. subst events. exact Hn.
Defined.

(** ** The picture of a check *)
Definition longer_first (a b : list Z) : Prop := len b <= len a.
#[export] Instance longer_first_dec a b : Decision (longer_first a b) := decide (len b <= len a).
#[export] Instance longer_first_trans : Transitive longer_first.
Proof. intros a b c. unfold longer_first. lia. Qed.
#[export] Instance longer_first_total : Total longer_first.
Proof. intros a b. unfold longer_first. lia. Qed.

#[export] Instance longest_first : LongestFirst := merge_sort longer_first.
#[export] Instance longest_first_laws : LongestFirstLaws.
Proof.
  split; intros l; [apply merge_sort_Permutation|apply (StronglySorted_merge_sort longer_first)].
Qed.

Definition stale_picture : option (list Z * list (list Z) * gmap Z Z) :=
  match CheckOperationsVerbose RegisterModel stale 0 (in_order 1) 40 with
  | Returned (_, info) =>
      '(data, _) ← computeVisualizationData RegisterModel info;
      pd ← head data;
      Some (he_Start <$> vis_History pd, (λ lin : partialLinearization, ls_Index <$> lin) <$> PartialLinearizations pd, Largest pd)
  | _ => None
  end.

(** The stale read is in no partial linearization. *)
Example stale_picture_drawn :
  ∃ lins largest, stale_picture = Some ([1; 2; 4], lins, largest) ∧ lins = [[0; 1]] ∧
    largest !! 0 = Some 0 ∧ largest !! 1 = Some 0 ∧ largest !! 2 = None.
Proof. eexists _, _. vm_compute. split_and!; reflexivity. Qed.

(** A page that shows how many partitions there are, and a writer that keeps all
    it is given. *)
#[local] Instance count_page : Json := {|
  Marshal data := inl (pretty (len data));
  html_head := "const data = ";
  html_tail := ";"
|}.
#[local] Instance keep_all : Writer string := λ text out, (out +:+ text, None).

Lemma visualization_true_witness :
  ∃ info data info', computeVisualizationData RegisterModel info = Some (data, info') ∧
    Visualize RegisterModel info "" = Some ("const data = 1;", info', None) ∧
    Forall2 (λ ops pd, shows (fillDefault RegisterModel) ops pd) [stale] data.
Proof.
  destruct (CheckOperationsVerbose RegisterModel stale 0 (in_order 1) 40) as [[res info]| |] eqn:Hrun;
    [|vm_compute in Hrun; discriminate Hrun..].
  destruct (visualization_true RegisterModel ShallowEqual stale [stale] 0 (in_order 1) 40 res info
    (ShallowEqual_laws RegisterModel eq_refl) eq_refl (RegisterModel_checkable _ stale_typed stale_timed))
    as (data & info' & Hd & Hv & Hs).
  - intros X. reflexivity.
  - intros ops _ o _. by eexists.
  - intros st. by eexists.
  - exact Hrun.
  - exists info, data, info'. split; [exact Hd|]. split.
    { rewrite (Hv ""). apply Forall2_length in Hs. cbn [Marshal count_page].
      assert (len data = 1) as -> by (unfold len; by rewrite <- Hs). vm_compute. reflexivity. }
    eapply Forall2_impl; [exact Hs|]. by intros ops pd [? _].
Defined.
