(* ===== verification/KvClusterRuns.v ===== *)
(** * KvClusterRuns: a run of the key/value cluster

    Three servers that take a snapshot after each command.  A clerk writes at
    server 0, after server 2 sent it away; another appends; server 2 catches up
    from a snapshot; server 0 is killed and restarts; server 2 is elected, and the
    first clerk reads there what both wrote.  The theorems about the cluster are
    applied to this run. *)
From Stdlib Require Import ZArith Lia Ascii.
From stdpp Require Import base gmap list_numbers strings option countable list.
From S2P Require Import Prelude Labgob RaftTypes Raft RaftNode RaftDelivery Bitset Porcupine PorcupineCheck PorcupineCorrect PorcupineOps KvModel PorcupineRuns Dedup KvRaft KvReplica KvRuns RaftCluster RaftRuns RaftAgreeRuns KvHistory KvLinear KvCluster KvClusterSteps KvClusterLinear.
#[local] Open Scope Z_scope.

(** ** Checking a run *)
Definition kv_sends_dummyb (W : KvWorld) (e : KvEvent) : bool :=
  match e with KRaft e => sends_dummyb (rafts W) e | _ => false end.

Fixpoint kv_run (es : list KvEvent) (b : Ballots) (W : KvWorld) : option (Ballots * KvWorld) :=
  match es with
  | [] => Some (b, W)
  | e :: es =>
      W' ← kv_exec W e;
      if kv_sends_dummyb W e || revotesb b (rafts W') then None
      else kv_run es (record_votes (rafts W') b) W'
  end.

Lemma kv_run_reach n size es b W b' W' :
  kv_reach n size b W → kv_run es b W = Some (b', W') → kv_reach n size b' W'.
Proof.
  revert b W. induction es as [|e es IH]; intros b W Hr Hk; cbn [kv_run] in Hk; [by injection Hk as <- <-|].
  apply bind_Some in Hk as (W1 & Hx & Hk). destruct (_ || _) eqn:Hb; [done|].
  apply orb_false_iff in Hb as [Hd Hv]. eapply IH; [|exact Hk].
  eapply kv_reach_exec; [exact Hr| |exact Hx|by apply revotesb_spec].
  destruct e; cbn in *; try (by intros []). by apply sends_dummyb_spec.
Qed.

Definition no_kv_world : KvWorld := mkKvWorld (mkWorld [] [] ∅) [] [] [] [].

Definition kv_after (es : list KvEvent) : Ballots * KvWorld :=
  default (∅, no_kv_world) (W ← kv_boot 3 1; kv_run es ∅ W).

(** ** The run *)
Definition put_x : Request := RPut (mkPutAppendArgs "x" "1" 0 7).
Definition append_x : Request := RAppend (mkPutAppendArgs "x" "2" 0 8).
Definition get_x : Request := RGet (mkGetArgs "x" 1 7).

Definition kv_timeout (i : nat) (t : Z) : KvEvent := KRaft (ETick i (ms t) 0 (ms 200)).
Definition kv_deliver (k : nat) (t : Z) : KvEvent := KRaft (EDeliver k (ms t)).

Definition kv_elect0 : list KvEvent :=
  [kv_timeout 0 1000; kv_deliver 0 1001; kv_deliver 1 1002; KRaft (EDrop 0)].

Definition kv_put : list KvEvent :=
  [KInvoke put_x; KRequest 2 put_x; KRequest 0 put_x;
   KRaft (EWorker 0 1); kv_deliver 0 1003; kv_deliver 0 1004; kv_deliver 0 1005;
   KRaft (EApply 0); KUpdate 0; KReceive 0].

Definition kv_append : list KvEvent :=
  [KInvoke append_x; KRequest 0 append_x; KReturn 1;
   KRaft (EWorker 0 1); kv_deliver 0 1006; kv_deliver 0 1007; kv_deliver 0 1008;
   KRaft (EApply 0); KUpdate 0; KReceive 0; KReturn 2].

(** Server 2 has nothing of this; it gets the snapshot. *)
Definition kv_catch_up : list KvEvent :=
  [KRaft (EWorker 0 2); kv_deliver 0 1010; kv_deliver 0 1011; KRaft (EApply 2); KUpdate 2; kv_deliver 0 1012; kv_deliver 0 1013].

(** Server 0 crashes with a read it has not replicated, and starts again. *)
Definition kv_crash : list KvEvent :=
  [KInvoke get_x; KRequest 0 get_x; KKill 0; KRestart 0 (ms 2000)].

(** The clerk asks server 2, the leader of term 2. *)
Definition kv_read : list KvEvent :=
  [kv_timeout 2 3000; kv_deliver 1 3001; kv_deliver 1 3002; KRaft (EDrop 0); KRequest 2 get_x;
   KRaft (EWorker 2 1); kv_deliver 0 3003; kv_deliver 0 3004; kv_deliver 0 3005;
   KRaft (EApply 2); KUpdate 2; KReceive 0; KReturn 3].

Definition kv_events : list KvEvent :=
  kv_elect0 ++ kv_put ++ kv_append ++ kv_catch_up ++ kv_crash ++ kv_read.
Definition kv_world : KvWorld := snd (kv_after kv_events).

Lemma kv_world_reach : kv_reach 3 1 (fst (kv_after kv_events)) kv_world.
Proof.
  assert (∃ W0, kv_boot 3 1 = Some W0 ∧ is_Some (kv_run kv_events ∅ W0)) as (W0 & Hb & [[b W] Hr]).
  { destruct (kv_boot 3 1) as [W0|] eqn:Hb; [|vm_compute in Hb; discriminate]. exists W0. split; [done|].
    vm_compute in Hb. injection Hb as <-. vm_compute. by eexists. }
  assert (kv_after kv_events = (b, W)) as E.
  { unfold kv_after. rewrite Hb. cbn [mbind option_bind]. by rewrite Hr. }
  unfold kv_world. rewrite E. eapply kv_run_reach; [by apply kv_reach_boot|exact Hr].
Qed.

(** The append started before the put had returned. *)
Definition kv_history : list Obs :=
  [Invoke put_x; Invoke append_x; Done put_x ""; Done append_x ""; Invoke get_x; Done get_x "12"].

Lemma kv_world_history : history kv_world = kv_history.
Proof. vm_compute. reflexivity. Qed.

Lemma kv_world_done : all_done (history kv_world).
Proof.
  rewrite kv_world_history. intros r Hin. exists (if decide (r = get_x) then "12" else ""). unfold kv_history in *.
  repeat (apply elem_of_cons in Hin as [E|Hin]; [first [discriminate E|injection E as ->; vm_compute; set_solver]|]).
  by apply elem_of_nil in Hin.
Qed.

(** The values are "1" and "2", and begin no error. *)
Lemma kv_world_never key : never_ErrNoKey (history kv_world) key.
Proof.
  rewrite kv_world_history. intros vs Hvs E. destruct vs as [|v vs]; [discriminate E|].
  destruct (Hvs v ltac:(left)) as (r & Hr & Hw & _ & Hv). unfold kv_history in Hr.
  repeat (apply elem_of_cons in Hr as [Er|Hr]; [first [discriminate Er|injection Er as ->; first [discriminate Hw|cbn in Hv; subst v; discriminate E]]|]).
  by apply elem_of_nil in Hr.
Qed.

(** Server 2, which started from the snapshot, holds what both clerks wrote. *)
Definition kv_server2 : option KVServer := server_of kv_world 2.

Lemma servers_follow_one_log_witness :
  ∃ s L, kv_server2 = Some s ∧ kv s !! "x" = Some "12" ∧ kv_dead s = false ∧
    (∀ op, op ∈ L → ∃ r, Invoke r ∈ history kv_world ∧ op = request_op r) ∧
    ∃ j : nat, kv_lastApplied s <= Z.of_nat j ∧ (kv s, requestCache s) = state_at (take j L).
Proof.
  destruct (servers_follow_one_log 3 1 _ _ kv_world_reach) as (L & HL & Hs).
  assert ((λ s, (kv s !! "x", kv_dead s)) <$> kv_server2 = Some (Some "12", false)) as Ev by (vm_compute; reflexivity).
  apply fmap_Some in Ev as (s & E & Ev).
  assert (kv s !! "x" = Some "12") as Hx by exact (eq_sym (f_equal fst Ev)).
  assert (kv_dead s = false) as Hd by exact (eq_sym (f_equal snd Ev)).
  destruct (Hs 2%nat s E) as [Hstate _]. destruct (Hstate Hd) as (j & Hj & _ & Hst).
  exists s, L. split; [exact E|]. split; [exact Hx|]. split; [exact Hd|]. split; [exact HL|].
  exists j. split; [exact Hj|exact Hst].
Defined.

Lemma cluster_linearizable_witness :
  linearizable KvModel (ops_on "x" (operations kv_history)) ∧
  ∃ fuel, CheckOperations KvModel (operations kv_history) (in_order 3) fuel = Returned true.
Proof.
  destruct (cluster_linearizable 3 1 _ _ kv_world_reach kv_world_done) as [Hlin Hcheck].
  pose proof kv_world_never as Hnever. rewrite kv_world_history in Hlin, Hcheck, Hnever. split; [exact (Hlin "x" (Hnever "x"))|].
  destruct (Hcheck Hnever) as [fuel0 Hrun]; [vm_compute; discriminate|].
  exists fuel0. exact (Hrun fuel0 (in_order 3) (le_n _) (in_order_complete 3)).
Defined.
