(* ===== verification/KvSrvLinear.v ===== *)
(** * KvSrvLinear: the single key/value server is linearizable

    Any number of clerks of [src/src/kvsrv] and their server, with a network that
    loses, delays and repeats: each clerk has one call at a time, which holds its
    [seqMu]; a copy of the request of a call may reach the server at any moment
    from then on, also long after the clerk returned, and any number of times;
    the clerk returns with one of the replies.  [srv_exec] runs one such event on
    the handlers and the clerks of [KvSrv].  The requests the server handled,
    in their order, tell where each call takes effect; so what the clerks saw is
    linearizable for [models.KvModel], and the checker accepts it. *)
From Stdlib Require Import ZArith Lia Ascii.
From stdpp Require Import base gmap strings option relations sorting list.
From S2P Require Import Prelude Bitset Porcupine PorcupineCheck PorcupineCorrect PorcupineOps PorcupinePoints KvModel GoStrings Dedup KvSrv.
#[local] Open Scope Z_scope.

(** ** Clerks, calls and replies under way *)

(** What a test asks of a clerk. *)
Inductive Request := QGet (key : string) | QPut (key value : string) | QAppend (key value : string).

(** A call, with the moments it began and returned. *)
Record CallRecord := mkCallRecord {
  c_clerk : nat; c_rpc : Rpc; c_start : nat; c_return : option (nat * string)
}.

Record SrvWorld := mkSrvWorld {
  server : KVServer;
  clerks : list Clerk;
  srv_calls : list CallRecord;
  replies : list (nat * string);
  clock : nat
}.

Inductive SrvEvent := SCall (i : nat) (q : Request) | SServe (c : nat) | SReturn (k : nat).

Implicit Types (w : SrvWorld) (ck : Clerk) (call : CallRecord) (i c k h m t n : nat) (q : Request) (r : Rpc) (L : list (nat * Rpc))
  (marks : list nat) (s : KVServer) (v key : string) (o : Operation KvValue).

Definition request_rpc ck q : Rpc :=
  match q with
  | QGet key => RGet (mkGetArgs key)
  | QPut key value => RWrite OpPut (mkPutAppendArgs key value (ck_id ck) (ck_seq ck))
  | QAppend key value => RWrite OpAppend (mkPutAppendArgs key value (ck_id ck) (ck_seq ck))
  end.

(** The handler of a request, with the value of its reply. *)
Definition serve_reply r s : option (KVServer * string) :=
  match r with
  | RGet args => let '(s, reply) := Get args s in Some (s, gr_Value reply)
  | RWrite op args => '(s, reply) ← write op args s; Some (s, par_Value reply)
  end.

(** [seqMu] is held. *)
Definition busy i w : bool :=
  existsb (λ call, bool_decide (c_clerk call = i ∧ c_return call = None)) (srv_calls w).

Definition srv_exec w (e : SrvEvent) : option SrvWorld :=
  match e with
  | SCall i q =>
      ck ← clerks w !! i;
      if busy i w then None
      else Some (mkSrvWorld (server w) (clerks w)
        (srv_calls w ++ [mkCallRecord i (request_rpc ck q) (clock w) None]) (replies w) (S (clock w)))
  | SServe c =>
      call ← srv_calls w !! c;
      '(s, v) ← serve_reply (c_rpc call) (server w);
      Some (mkSrvWorld s (clerks w) (srv_calls w) (replies w ++ [(c, v)]) (S (clock w)))
  | SReturn k =>
      '(c, v) ← replies w !! k;
      call ← srv_calls w !! c;
      ck ← clerks w !! c_clerk call;
      match c_return call with
      | Some _ => None
      | None =>
          Some (mkSrvWorld (server w) (<[c_clerk call := mkClerk (ck_id ck) (ck_seq ck + 1)]> (clerks w))
            (<[c := mkCallRecord (c_clerk call) (c_rpc call) (c_start call) (Some (clock w, v))]> (srv_calls w))
            (replies w) (S (clock w)))
      end
  end.

(** The draws of the clerks are different numbers. *)
Definition srv_init (draws : list Z) : SrvWorld :=
  mkSrvWorld StartKVServer (MakeClerk <$> draws) [] [] 0.

Inductive srv_reach (draws : list Z) : SrvWorld → Prop :=
  | srv_start : NoDup (ck_id <$> (MakeClerk <$> draws)) → srv_reach draws (srv_init draws)
  | srv_step w e w' : srv_reach draws w → srv_exec w e = Some w' → srv_reach draws w'.

(** ** The history the tests record *)
Definition input_of r : KvInput :=
  match r with
  | RGet args => mkKvInput 0 (ga_Key args) ""
  | RWrite OpPut args => mkKvInput 1 (pa_Key args) (pa_Value args)
  | RWrite OpAppend args => mkKvInput 3 (pa_Key args) (pa_Value args)
  end.

Definition operation_of call : option (Operation KvValue) :=
  '(t, v) ← c_return call;
  Some (mkOperation (Z.of_nat (c_clerk call)) (KvIn (input_of (c_rpc call))) (Z.of_nat (c_start call))
    (KvOut (mkKvOutput v)) (Z.of_nat t)).

Definition operations w : list (Operation KvValue) := omap operation_of (srv_calls w).

Definition all_returned w : Prop := ∀ call, call ∈ srv_calls w → is_Some (c_return call).

(** *** Appends whose replies can be found again

    The server makes up the reply to a repeated append from the last place of the
    appended text.  That is right when all writes of the key that overlap the append
    are appends too, with texts such as those of the tests, and other ones. *)
Definition overlap o o' : Prop := Call o' < Return o ∧ Call o < Return o'.

Definition safe_appends (ops : list (Operation KvValue)) key : Prop :=
  ∀ o o' v inp, o ∈ ops_on key ops → o' ∈ ops_on key ops → o ≠ o' →
    Input o = KvIn (mkKvInput 3 key v) → Input o' = KvIn inp → in_Op inp ≠ 0 → overlap o o' →
    in_Op inp = 3 ∧ marker v ∧ marker (in_Value inp) ∧ in_Value inp ≠ v.

(** ** The server after a sequence of requests *)
Definition next s r : KVServer := default s (serve1 r s).
Definition after (rs : list Rpc) : KVServer := foldl next StartKVServer rs.

Lemma after_snoc rs r : after (rs ++ [r]) = next (after rs) r.
Proof. apply foldl_snoc. Qed.

Lemma after_good (rs : list Rpc) : idle (after rs) ∧ cache_of rs (requestCache (after rs)).
Proof.
  induction rs as [|r rs [Hi Hc]] using rev_ind; [split; [done|apply cache_of_nil]|]. rewrite after_snoc. unfold next.
  destruct r as [args|op args]; cbn [serve1 default Get fst]; [split; [done|by apply cache_of_anonymous]|].
  destruct (write_cases op args (after rs) Hi) as (s' & reply & -> & Hi' & Hcase). cbn. split; [done|].
  destruct (seen args (after rs)) eqn:Hs; [subst s'; by eapply cache_of_duplicate|].
  destruct Hcase as (_ & -> & _). by apply cache_of_note.
Qed.

(** One more request, and its reply. *)
Lemma serve_reply_after r (rs : list Rpc) :
  ∃ v, serve_reply r (after rs) = Some (after (rs ++ [r]), v).
Proof.
  rewrite after_snoc. unfold next, serve_reply, serve1. destruct r as [args|op args]; [by eexists|].
  destruct (write_cases op args (after rs) (proj1 (after_good rs))) as (s' & reply & -> & _). by eexists.
Qed.

Lemma value_of_next rs r key :
  value_of (next (after rs) r) key =
  match r with
  | RWrite op args =>
      if seen args (after rs) then value_of (after rs) key
      else default ""%string (apply_write op args (kv (after rs)) !! key)
  | RGet _ => value_of (after rs) key
  end.
Proof.
  unfold next. destruct r as [args|op args]; [done|]. cbn [serve1].
  destruct (write_cases op args (after rs) (proj1 (after_good rs))) as (s' & reply & -> & _ & Hcase). cbn.
  destruct (seen args (after rs)); [by subst|]. unfold value_of. by destruct Hcase as (-> & _).
Qed.

(** A request is seen exactly when one of its client with no smaller number came before. *)
Lemma seen_after args (rs : list Rpc) :
  seen args (after rs) = true ↔
  ∃ op' args', RWrite op' args' ∈ rs ∧ pa_ClientId args' = pa_ClientId args ∧ pa_Seq args <= pa_Seq args'.
Proof.
  unfold seen. rewrite (proj2 (after_good rs)). destruct (fresh_for rs _ _) eqn:Hf; cbn; (split; [try done|]).
  - intros (op' & args' & Hin & Hc & Hle). rewrite fresh_for_spec in Hf.
    specialize (Hf _ (pa_Seq args') Hin). cbn in Hf. rewrite Hc in Hf. specialize (Hf eq_refl). lia.
  - intros _. destruct (decide (Exists (λ r, match ident r with
      | None => false | Some (c', n') => bool_decide (c' = pa_ClientId args ∧ pa_Seq args <= n') end = true) rs)) as [Hex|Hno].
    + apply Exists_exists in Hex as ([?|op' args'] & Hin & Hx); [done|]. exists op', args'.
      apply bool_decide_eq_true in Hx. naive_solver.
    + rewrite <- not_true_iff_false, fresh_for_spec in Hf. destruct Hf. intros r n' Hin Hr.
      apply Z.nle_gt. intros Hle. apply Hno, Exists_exists. exists r. split; [done|].
      rewrite Hr. by apply bool_decide_eq_true.
  - done.
Qed.

(** ** What holds along a run *)

(** The request of call [c] was among the first [m] that were handled, and [v] is an
    answer to it. *)
Definition answers L m c r v : Prop :=
  ∃ k, L !! k = Some (c, r) ∧ (k < m)%nat ∧ snd <$> serve_reply r (after (take k L).*2) = Some v.

(** The number of a call, against the number its clerk is at. *)
Definition numbered (clerks : list Clerk) call : Prop :=
  ∃ ck, clerks !! c_clerk call = Some ck ∧
    match c_rpc call with
    | RGet _ => True
    | RWrite _ args => pa_ClientId args = ck_id ck ∧
        match c_return call with None => pa_Seq args = ck_seq ck | Some _ => pa_Seq args < ck_seq ck end
    end.

(** One call of a clerk after the other. *)
Definition in_turn call call' : Prop :=
  c_clerk call = c_clerk call' → (c_start call < c_start call')%nat →
  (∃ t v, c_return call = Some (t, v) ∧ (t < c_start call')%nat) ∧
  ∀ op args op' args', c_rpc call = RWrite op args → c_rpc call' = RWrite op' args' → pa_Seq args < pa_Seq args'.

(** [L] are the handled requests with their calls, and [marks] how many there were at
    each moment. *)
Record srv_inv (ids : list Z) w L marks : Prop := {
  v_len : length marks = clock w;
  v_sorted t t' m m' : (t <= t')%nat → marks !! t = Some m → marks !! t' = Some m' → (m <= m')%nat;
  v_bound t m : marks !! t = Some m → (m <= length L)%nat;
  v_server : server w = after L.*2;
  v_ids : ck_id <$> clerks w = ids;
  v_log c r : (c, r) ∈ L → ∃ call, srv_calls w !! c = Some call ∧ c_rpc call = r;
  v_reply c v : (c, v) ∈ replies w → ∃ call, srv_calls w !! c = Some call ∧ answers L (length L) c (c_rpc call) v;
  v_starts : NoDup (c_start <$> srv_calls w);
  v_start c call : srv_calls w !! c = Some call → (c_start call < clock w)%nat;
  v_since c call m k r : srv_calls w !! c = Some call → marks !! c_start call = Some m → L !! k = Some (c, r) → (m <= k)%nat;
  v_return c call t v : srv_calls w !! c = Some call → c_return call = Some (t, v) →
    (c_start call < t < clock w)%nat ∧ ∀ m, marks !! t = Some m → answers L m c (c_rpc call) v;
  v_numbered c call : srv_calls w !! c = Some call → numbered (clerks w) call;
  v_turn c c' call call' : srv_calls w !! c = Some call → srv_calls w !! c' = Some call' → in_turn call call'
}.

Lemma answers_grow L x m c r v : (m <= length L)%nat → answers L m c r v → answers (L ++ [x]) m c r v.
Proof.
  intros Hm (k & Hk & Hlt & Hr). exists k. split; [by apply lookup_app_l_Some|]. split; [done|].
  by rewrite take_app_le by lia.
Qed.

(** The marks with one more moment. *)
Lemma marks_snoc marks n t m :
  (marks ++ [n]) !! t = Some m → marks !! t = Some m ∨ t = length marks ∧ m = n.
Proof.
  intros [?|[Hge Hm]]%lookup_app_Some; [by left|]. apply list_lookup_singleton_Some in Hm as [? ->]. right. split; [lia|done].
Qed.

Section Marks.
Context (marks : list nat) (n : nat).
Context (Hs : ∀ t t' m m', (t <= t')%nat → marks !! t = Some m → marks !! t' = Some m' → (m <= m')%nat).
Context (Hb : ∀ t m, marks !! t = Some m → (m <= n)%nat).

Lemma marks_snoc_sorted t t' m m' :
  (t <= t')%nat → (marks ++ [n]) !! t = Some m → (marks ++ [n]) !! t' = Some m' → (m <= m')%nat.
Proof.
  intros Hle [Hm|[-> ->]]%marks_snoc [Hm'|[-> ->]]%marks_snoc; [by eapply Hs|by eapply Hb| |done].
  apply lookup_lt_Some in Hm'. lia.
Qed.

Lemma marks_snoc_bound n' t m : (n <= n')%nat → (marks ++ [n]) !! t = Some m → (m <= n')%nat.
Proof. intros Hle [Hm|[_ ->]]%marks_snoc; [specialize (Hb _ _ Hm); lia|done]. Qed.
End Marks.

Lemma marks_old marks n t m : (t < length marks)%nat → (marks ++ [n]) !! t = Some m → marks !! t = Some m.
Proof. intros Ht [?|[-> _]]%marks_snoc; [done|lia]. Qed.

Section Steps.
Context (ids : list Z) (Hids : NoDup ids).
Context w L marks (Hinv : srv_inv ids w L marks).

Lemma call_inv i q ck :
  clerks w !! i = Some ck → busy i w = false →
  srv_inv ids (mkSrvWorld (server w) (clerks w)
    (srv_calls w ++ [mkCallRecord i (request_rpc ck q) (clock w) None]) (replies w) (S (clock w))) L (marks ++ [length L]).
Proof.
  intros Hck Hbusy. pose proof (v_len _ _ _ _ Hinv) as Hlen.
  set (new := mkCallRecord _ _ _ _).
  assert (∀ c call, (srv_calls w ++ [new]) !! c = Some call →
    srv_calls w !! c = Some call ∨ c = length (srv_calls w) ∧ call = new) as Hcalls.
  { intros c call [?|[Hge Hc]]%lookup_app_Some; [by left|]. apply list_lookup_singleton_Some in Hc as [? <-]. right. split; [lia|done]. }
  assert (∀ call, call ∈ srv_calls w → c_clerk call = i → is_Some (c_return call)) as Hfree.
  { intros call Hin Hi. destruct (c_return call) eqn:E; [done|]. unfold busy in Hbusy.
    apply not_true_iff_false in Hbusy. destruct Hbusy. apply List.existsb_exists. exists call.
    split; [by apply list_elem_of_In|]. by apply bool_decide_eq_true. }
  split; cbn.
  - rewrite length_app. cbn. lia.
  - intros t t' m m'. apply (marks_snoc_sorted marks); [eapply v_sorted|eapply v_bound]; exact Hinv.
  - intros t m. apply (marks_snoc_bound marks (length L)); [eapply v_bound; exact Hinv|done].
  - apply Hinv.
  - apply Hinv.
  - intros c r Hin. destruct (v_log _ _ _ _ Hinv _ _ Hin) as (call & Hc & <-). exists call.
    split; [by apply lookup_app_l_Some|done].
  - intros c v Hin. destruct (v_reply _ _ _ _ Hinv _ _ Hin) as (call & Hc & Ha). exists call.
    split; [by apply lookup_app_l_Some|done].
  - rewrite fmap_app, NoDup_app. split; [apply Hinv|]. split; [|apply NoDup_singleton].
    intros t Ht ->%list_elem_of_singleton. apply list_elem_of_fmap in Ht as (call & E & [c Hc]%list_elem_of_lookup).
    pose proof (v_start _ _ _ _ Hinv _ _ Hc). cbn in E. lia.
  - intros c call [Hc|[_ ->]]%Hcalls; [pose proof (v_start _ _ _ _ Hinv _ _ Hc); lia|cbn; lia].
  - intros c call m k r [Hc|[-> ->]]%Hcalls Hm Hk.
    + apply marks_old in Hm; [by eapply v_since|]. rewrite Hlen. by eapply v_start.
    + destruct (v_log _ _ _ _ Hinv _ _ (list_elem_of_lookup_2 _ _ _ Hk)) as (call & Hc & _).
      apply lookup_lt_Some in Hc. lia.
  - intros c call t v [Hc|[_ ->]]%Hcalls Hr; [|done]. destruct (v_return _ _ _ _ Hinv _ _ _ _ Hc Hr) as [Ht Ha].
    split; [lia|]. intros m Hm%marks_old; [auto|lia].
  - intros c call [Hc|[_ ->]]%Hcalls; [by eapply v_numbered|]. exists ck. split; [done|]. by destruct q.
  - intros c c' call call' [Hc|[_ ->]]%Hcalls [Hc'|[_ ->]]%Hcalls Hi Hlt; cbn in Hi, Hlt; [by eapply (v_turn _ _ _ _ Hinv)| | |lia].
    + destruct (Hfree call (list_elem_of_lookup_2 _ _ _ Hc) Hi) as [[t v] Hr].
      destruct (v_return _ _ _ _ Hinv _ _ _ _ Hc Hr) as [Ht _]. split; [exists t, v; split; [done|cbn; lia]|].
      intros op args op' args' E E'. destruct (v_numbered _ _ _ _ Hinv _ _ Hc) as (ck' & Hck' & Hn).
      rewrite E, Hr, Hi, Hck in *. injection Hck' as <-. destruct Hn as [_ Hn]. cbn in E'. by destruct q; simplify_eq/=.
    + pose proof (v_start _ _ _ _ Hinv _ _ Hc'). lia.
Qed.

Lemma serve_inv c call :
  srv_calls w !! c = Some call →
  ∃ s v, serve_reply (c_rpc call) (server w) = Some (s, v) ∧
    srv_inv ids (mkSrvWorld s (clerks w) (srv_calls w) (replies w ++ [(c, v)]) (S (clock w)))
      (L ++ [(c, c_rpc call)]) (marks ++ [length L]).
Proof.
  intros Hc. rewrite (v_server _ _ _ _ Hinv). destruct (serve_reply_after (c_rpc call) L.*2) as (v & Hv).
  pose proof (v_len _ _ _ _ Hinv) as Hlen. eexists _, v. split; [exact Hv|].
  split; cbn; rewrite ?length_app; cbn.
  - lia.
  - intros t t' m m'. apply (marks_snoc_sorted marks); [eapply v_sorted|eapply v_bound]; exact Hinv.
  - intros t m. apply (marks_snoc_bound marks (length L)); [eapply v_bound; exact Hinv|lia].
  - by rewrite fmap_app.
  - apply Hinv.
  - intros c' r [Hin|[= -> ->]%list_elem_of_singleton]%elem_of_app; [by eapply v_log|by exists call].
  - intros c' v' [Hin|[= -> ->]%list_elem_of_singleton]%elem_of_app.
    + destruct (v_reply _ _ _ _ Hinv _ _ Hin) as (call' & Hc' & (k & Hk & Hlt & Hr)). exists call'. split; [done|].
      exists k. split; [by apply lookup_app_l_Some|]. split; [lia|]. by rewrite take_app_le by lia.
    + exists call. split; [done|]. exists (length L). split; [by apply list_lookup_middle|]. split; [lia|].
      by rewrite take_app_length, Hv.
  - apply Hinv.
  - intros c' call' Hc'. pose proof (v_start _ _ _ _ Hinv _ _ Hc'). lia.
  - intros c' call' m k r Hc' Hm Hk. apply marks_old in Hm; [|rewrite Hlen; by eapply v_start].
    apply lookup_app_Some in Hk as [Hk|[Hge _]]; [by eapply v_since|]. pose proof (v_bound _ _ _ _ Hinv _ _ Hm). lia.
  - intros c' call' t v' Hc' Hr. destruct (v_return _ _ _ _ Hinv _ _ _ _ Hc' Hr) as [Ht Hans].
    split; [lia|]. intros m Hm%marks_old; [|lia]. apply answers_grow; [by eapply v_bound|auto].
  - apply Hinv.
  - apply Hinv.
Qed.

(** While a call waits, its clerk has no other that does. *)
Lemma waits_alone c c' call call' :
  srv_calls w !! c = Some call → srv_calls w !! c' = Some call' → c_clerk call = c_clerk call' →
  c_return call = None → c_return call' = None → c = c'.
Proof.
  intros Hc Hc' Hi Hr Hr'. destruct (decide (c_start call = c_start call')) as [E|Hne].
  - eapply NoDup_lookup; [apply Hinv|..]; rewrite list_lookup_fmap; [by rewrite Hc|by rewrite Hc', E].
  - destruct (decide (c_start call < c_start call')%nat) as [Hlt|].
    + destruct (v_turn _ _ _ _ Hinv _ _ _ _ Hc Hc' Hi Hlt) as [(t & v & E & _) _]. congruence.
    + destruct (v_turn _ _ _ _ Hinv _ _ _ _ Hc' Hc (eq_sym Hi)) as [(t & v & E & _) _]; [lia|congruence].
Qed.

Lemma return_inv c v call ck :
  (c, v) ∈ replies w → srv_calls w !! c = Some call → clerks w !! c_clerk call = Some ck → c_return call = None →
  srv_inv ids (mkSrvWorld (server w) (<[c_clerk call := mkClerk (ck_id ck) (ck_seq ck + 1)]> (clerks w))
    (<[c := mkCallRecord (c_clerk call) (c_rpc call) (c_start call) (Some (clock w, v))]> (srv_calls w))
    (replies w) (S (clock w))) L (marks ++ [length L]).
Proof.
  intros Hrep Hc Hck Hnone. pose proof (v_len _ _ _ _ Hinv) as Hlen.
  set (call1 := mkCallRecord _ _ _ _).
  assert (∀ c' call', <[c := call1]> (srv_calls w) !! c' = Some call' →
    ∃ call0, srv_calls w !! c' = Some call0 ∧ c_clerk call' = c_clerk call0 ∧ c_rpc call' = c_rpc call0 ∧
      c_start call' = c_start call0 ∧ (call' = call0 ∧ c' ≠ c ∨ call' = call1 ∧ c' = c ∧ call0 = call)) as Hcalls.
  { intros c' call' [(<- & <- & _)|[Hne Hc']]%list_lookup_insert_Some; [exists call; split_and!; auto|].
    exists call'. split_and!; auto. }
  assert (∀ c' call0, srv_calls w !! c' = Some call0 → ∃ call', <[c := call1]> (srv_calls w) !! c' = Some call' ∧
    c_rpc call' = c_rpc call0) as Hback.
  { intros c' call0 H0. destruct (decide (c' = c)) as [->|Hne].
    - exists call1. rewrite list_lookup_insert_eq by (by eapply lookup_lt_Some). simplify_eq. done.
    - exists call0. by rewrite list_lookup_insert_ne. }
  split; cbn.
  - rewrite length_app. cbn. lia.
  - intros t t' m m'. apply (marks_snoc_sorted marks); [eapply v_sorted|eapply v_bound]; exact Hinv.
  - intros t m. apply (marks_snoc_bound marks (length L)); [eapply v_bound; exact Hinv|done].
  - apply Hinv.
  - rewrite list_fmap_insert, list_insert_id; [apply Hinv|]. by rewrite list_lookup_fmap, Hck.
  - intros c' r Hin. destruct (v_log _ _ _ _ Hinv _ _ Hin) as (call0 & H0 & <-). by apply Hback.
  - intros c' v' Hin. destruct (v_reply _ _ _ _ Hinv _ _ Hin) as (call0 & H0 & Ha).
    destruct (Hback _ _ H0) as (call' & H' & E). exists call'. split; [done|]. by rewrite E.
  - rewrite list_fmap_insert, list_insert_id; [apply Hinv|]. by rewrite list_lookup_fmap, Hc.
  - intros c' call' (call0 & H0 & _ & _ & -> & _)%Hcalls. pose proof (v_start _ _ _ _ Hinv _ _ H0). lia.
  - intros c' call' m k r (call0 & H0 & _ & _ & -> & _)%Hcalls Hm Hk.
    apply marks_old in Hm; [by eapply v_since|]. rewrite Hlen. by eapply v_start.
  - intros c' call' t v' (call0 & H0 & _ & -> & -> & Hcase)%Hcalls Hr. destruct Hcase as [[-> _]|(-> & -> & ->)].
    + destruct (v_return _ _ _ _ Hinv _ _ _ _ H0 Hr) as [Ht Ha]. split; [lia|]. intros m Hm%marks_old; [auto|lia].
    + injection Hr as <- <-. pose proof (v_start _ _ _ _ Hinv _ _ H0). split; [lia|].
      intros m [Hm|[_ ->]]%marks_snoc; [apply lookup_lt_Some in Hm; lia|].
      destruct (v_reply _ _ _ _ Hinv _ _ Hrep) as (call' & Hc' & Ha). by simplify_eq.
  - intros c' call' (call0 & H0 & Ei & Er & _ & Hcase)%Hcalls. destruct (v_numbered _ _ _ _ Hinv _ _ H0) as (ck0 & Hck0 & Hn).
    unfold numbered. rewrite Ei, Er. destruct (decide (c_clerk call0 = c_clerk call)) as [E|Hne].
    + rewrite E in *. simplify_eq. rewrite list_lookup_insert_eq by (by eapply lookup_lt_Some).
      eexists. split; [reflexivity|]. destruct (c_rpc call0); [done|]. destruct Hn as [Hid Hn]. split; [done|]. cbn.
      destruct Hcase as [[-> Hne]|(-> & -> & ->)]; [|rewrite Hnone in Hn; cbn; lia].
      destruct (c_return call0) eqn:Hr; [lia|]. by destruct Hne; eapply waits_alone.
    + rewrite list_lookup_insert_ne by done. exists ck0. split; [done|].
      destruct (c_rpc call0); [done|]. by destruct Hcase as [[-> _]|(-> & -> & ->)].
  - intros c1 c2 call1' call2' (call01 & H1 & Ei & Er & Es & Hcase)%Hcalls (call02 & H2 & Ei2 & Er2 & Es2 & _)%Hcalls.
    unfold in_turn. rewrite Ei, Ei2, Er, Er2, Es, Es2. intros Hi Hlt.
    destruct (v_turn _ _ _ _ Hinv _ _ _ _ H1 H2 Hi Hlt) as [(t & v' & E & Ht) Hseq]. split; [|done].
    destruct Hcase as [[-> _]|(-> & -> & ->)]; [by exists t, v'|congruence].
Qed.
End Steps.

Lemma srv_exec_inv ids w L marks e w' :
  srv_inv ids w L marks → srv_exec w e = Some w' → ∃ L' marks', srv_inv ids w' L' marks'.
Proof.
  intros Hinv Hx. destruct e as [i q|c|k]; cbn in Hx.
  - apply bind_Some in Hx as (ck & Hck & Hx). destruct (busy i w) eqn:Hb; [done|]. injection Hx as <-.
    eexists _, _. by apply call_inv.
  - apply bind_Some in Hx as (call & Hc & Hx). destruct (serve_inv _ _ _ _ Hinv c call Hc) as (s & v & E & Hinv').
    rewrite E in Hx. injection Hx as <-. by eexists _, _.
  - apply bind_Some in Hx as ([c v] & Hr%list_elem_of_lookup_2 & Hx). apply bind_Some in Hx as (call & Hc & Hx).
    apply bind_Some in Hx as (ck & Hck & Hx). destruct (c_return call) eqn:Hret; [done|]. injection Hx as <-.
    eexists _, _. by apply return_inv.
Qed.

Lemma srv_reach_inv draws w :
  srv_reach draws w → ∃ L marks, srv_inv (ck_id <$> (MakeClerk <$> draws)) w L marks.
Proof.
  induction 1 as [Hnd|w e w' _ (L & marks & Hinv) Hx]; [|by eapply srv_exec_inv].
  exists [], []. split; cbn; try done; try (by intros * ?%not_elem_of_nil). constructor.
Qed.

Lemma srv_reach_ids draws w : srv_reach draws w → NoDup (ck_id <$> (MakeClerk <$> draws)).
Proof. by induction 1. Qed.

(** ** Where each call takes effect *)
Section Linear.
Context (ids : list Z) w L marks (key : string).
Context (Hids : NoDup ids) (Hinv : srv_inv ids w L marks) (Hdone : all_returned w).

Definition val k : string := value_of (after (take k L).*2) key.

(** Request [k] is executed, not answered from the cache. *)
Definition in_effect k c op args : Prop :=
  L !! k = Some (c, RWrite op args) ∧ seen args (after (take k L).*2) = false.

Definition record_of c call o : Prop := srv_calls w !! c = Some call ∧ operation_of call = Some o.

Definition takes k o : Prop :=
  ∃ c call op args, record_of c call o ∧ c_rpc call = RWrite op args ∧ pa_Key args = key ∧ in_effect k c op args.

Definition writes o : bool :=
  match Input o with KvIn inp => negb (bool_decide (in_Op inp = 0)) | _ => false end.

Definition mark (z : Z) : nat := default 0%nat (marks !! Z.to_nat z).

Definition rpc_target r : string := match r with RGet args => ga_Key args | RWrite _ args => pa_Key args end.

Lemma record_of_parts c call o :
  record_of c call o → ∃ t v, c_return call = Some (t, v) ∧
    o = mkOperation (Z.of_nat (c_clerk call)) (KvIn (input_of (c_rpc call))) (Z.of_nat (c_start call))
      (KvOut (mkKvOutput v)) (Z.of_nat t).
Proof. intros [_ Ho]. unfold operation_of in Ho. destruct (c_return call) as [[t v]|]; [|done]. injection Ho as <-. eauto. Qed.

Lemma record_of_call c call c' call' o : record_of c call o → record_of c' call' o → c = c' ∧ call = call'.
Proof.
  intros Hr Hr'. pose proof Hr as [Hc _]. pose proof Hr' as [Hc' _].
  apply record_of_parts in Hr as (t & v & _ & ->). apply record_of_parts in Hr' as (t' & v' & _ & E).
  assert (c_start call = c_start call') as Es by (injection E; lia).
  assert (c = c') as ->; [|by simplify_eq].
  eapply NoDup_lookup; [apply (v_starts _ _ _ _ Hinv)|..]; rewrite list_lookup_fmap; [by rewrite Hc|by rewrite Hc', Es].
Qed.

Lemma srv_record_exists c call : srv_calls w !! c = Some call → ∃ o, record_of c call o.
Proof.
  intros Hc. destruct (Hdone call (list_elem_of_lookup_2 _ _ _ Hc)) as [[t v] Hr].
  eexists. split; [exact Hc|]. unfold operation_of. by rewrite Hr.
Qed.

Lemma srv_key_ops o :
  o ∈ ops_on key (operations w) ↔ ∃ c call, record_of c call o ∧ rpc_target (c_rpc call) = key.
Proof.
  unfold ops_on, operations. rewrite list_elem_of_filter, list_elem_of_omap.
  assert (∀ call, operation_of call = Some o → on_key key o = true ↔ rpc_target (c_rpc call) = key) as Hon.
  { intros call Ho. unfold operation_of in Ho. destruct (c_return call) as [[t v]|]; [|done]. injection Ho as <-.
    unfold on_key. cbn. rewrite bool_decide_eq_true. by destruct (c_rpc call) as [|[]]. }
  split.
  - intros (Hk & call & [c Hc]%list_elem_of_lookup & Ho). exists c, call. split; [by split|]. by apply Hon.
  - intros (c & call & [Hc Ho] & Hk). split; [by eapply Hon|]. exists call. split; [by eapply list_elem_of_lookup_2|done].
Qed.

(** When a call began and returned, and what it returned. *)
Lemma srv_record_marks c call o :
  record_of c call o → Call o < Return o ∧
    (∀ k r, L !! k = Some (c, r) → (mark (Call o) <= k)%nat) ∧
    ∃ v, Output o = KvOut (mkKvOutput v) ∧ answers L (mark (Return o)) c (c_rpc call) v.
Proof.
  intros Hrec. pose proof Hrec as [Hc _]. destruct (record_of_parts _ _ _ Hrec) as (t & v & Hr & ->).
  destruct (v_return _ _ _ _ Hinv _ _ _ _ Hc Hr) as [Ht Ha]. cbn [Call Return Output]. unfold mark. rewrite !Nat2Z.id.
  assert (is_Some (marks !! c_start call) ∧ is_Some (marks !! t)) as [[m Hm] [m' Hm']]
    by (rewrite !lookup_lt_is_Some, (v_len _ _ _ _ Hinv); lia).
  rewrite Hm, Hm'. cbn. split; [lia|]. split; [intros k r; by eapply v_since|]. exists v. auto.
Qed.

Lemma fst_take_lookup k j r : (take k L).*2 !! j = Some r → (j < k)%nat ∧ ∃ c, L !! j = Some (c, r).
Proof.
  intros Hj. apply list_lookup_fmap_Some in Hj as ([c' r'] & -> & Hj).
  apply lookup_take_Some in Hj as [Hj Hlt]. split; [done|]. by exists c'.
Qed.

Lemma before_seen j k c op args :
  L !! j = Some (c, RWrite op args) → (j < k)%nat → seen args (after (take k L).*2) = true.
Proof.
  intros Hj Hlt. apply seen_after. exists op, args. split; [|done]. apply list_elem_of_fmap.
  exists (c, RWrite op args). split; [done|]. apply (list_elem_of_lookup_2 _ j). by rewrite lookup_take_lt.
Qed.

(** Two writes with the identity of one client are of one clerk. *)
Lemma same_clerk c call op args c' call' op' args' :
  srv_calls w !! c = Some call → srv_calls w !! c' = Some call' →
  c_rpc call = RWrite op args → c_rpc call' = RWrite op' args' → pa_ClientId args = pa_ClientId args' →
  c_clerk call = c_clerk call'.
Proof.
  intros Hc Hc' Er Er' E. destruct (v_numbered _ _ _ _ Hinv _ _ Hc) as (ck & Hck & Hn).
  destruct (v_numbered _ _ _ _ Hinv _ _ Hc') as (ck' & Hck' & Hn'). rewrite Er in Hn. rewrite Er' in Hn'.
  pose proof (v_ids _ _ _ _ Hinv) as Hi.
  eapply NoDup_lookup; [exact Hids|..]; rewrite <- Hi, list_lookup_fmap; [by rewrite Hck|]. rewrite Hck'. cbn.
  f_equal. destruct Hn, Hn'. congruence.
Qed.

(** The first copy of a request that arrives is executed: the clerk had no later number
    before it returned. *)
Lemma srv_first_in_effect c call o op args :
  record_of c call o → c_rpc call = RWrite op args → ∃ k, (k < mark (Return o))%nat ∧ in_effect k c op args.
Proof.
  intros Hrec Er. pose proof Hrec as [Hc _]. destruct (srv_record_marks _ _ _ Hrec) as (_ & _ & v & _ & (k0 & Hk0 & Hlt0 & _)).
  rewrite Er in Hk0. assert ((c, RWrite op args) ∈ L) as Hin by by eapply list_elem_of_lookup_2.
  destruct (list_find_elem_of (λ x, x.1 = c) L _ Hin eq_refl) as [[k [c' r]] (Hk & Ec & Hfirst)%list_find_Some].
  cbn in Ec. subst c'. destruct (v_log _ _ _ _ Hinv _ _ (list_elem_of_lookup_2 _ _ _ Hk)) as (call' & Hc' & <-). simplify_eq.
  assert (k <= k0)%nat as Hle by (apply Nat.nlt_ge; intros Hlt; by eapply (Hfirst k0)).
  exists k. split; [lia|]. rewrite Er in Hk. split; [done|]. apply not_true_iff_false. rewrite seen_after.
  intros (op' & args' & [j Hj]%list_elem_of_lookup & Hid & Hseq). apply fst_take_lookup in Hj as (Hlt & c' & Hj).
  assert (c' ≠ c) as Hne by (intros ->; by eapply (Hfirst j)).
  destruct (v_log _ _ _ _ Hinv _ _ (list_elem_of_lookup_2 _ _ _ Hj)) as (call' & Hc' & Er').
  pose proof (same_clerk _ _ _ _ _ _ _ _ Hc' Hc Er' Er Hid) as Hi.
  destruct (decide (c_start call' < c_start call)%nat) as [Hbef|Hnb].
  - destruct (v_turn _ _ _ _ Hinv _ _ _ _ Hc' Hc Hi Hbef) as [_ Hs]. specialize (Hs _ _ _ _ Er' Er). lia.
  - assert (c_start call ≠ c_start call') as Hns.
    { intros E. apply Hne. eapply NoDup_lookup; [apply (v_starts _ _ _ _ Hinv)|..]; rewrite list_lookup_fmap;
        [by rewrite Hc'|rewrite Hc; cbn; by rewrite E]. }
    destruct (v_turn _ _ _ _ Hinv _ _ _ _ Hc Hc' (eq_sym Hi) ltac:(lia)) as [(t & u & Hr & Ht) _].
    destruct (v_return _ _ _ _ Hinv _ _ _ _ Hc Hr) as [Htc Ha].
    pose proof (v_start _ _ _ _ Hinv _ _ Hc') as Hst.
    assert (is_Some (marks !! t) ∧ is_Some (marks !! c_start call')) as [[m Hm] [m' Hm']]
      by (rewrite !lookup_lt_is_Some, (v_len _ _ _ _ Hinv); lia).
    destruct (Ha _ Hm) as (i & Hi' & Him & _). pose proof (v_sorted _ _ _ _ Hinv t (c_start call') _ _ ltac:(lia) Hm Hm').
    pose proof (v_since _ _ _ _ Hinv _ _ _ _ _ Hc' Hm' Hj).
    eapply (Hfirst i); [exact Hi'|lia|done].
Qed.

Lemma srv_in_effect_once k k' c op args : in_effect k c op args → in_effect k' c op args → k = k'.
Proof.
  assert (∀ i j, in_effect i c op args → in_effect j c op args → ¬ (i < j)%nat) as Hno.
  { intros i j [Hi _] [_ Hj] Hlt. by rewrite (before_seen _ _ _ _ _ Hi Hlt) in Hj. }
  intros H1 H2. pose proof (Hno _ _ H1 H2). pose proof (Hno _ _ H2 H1). lia.
Qed.

Lemma val_next k c r : L !! k = Some (c, r) → val (S k) = value_of (next (after (take k L).*2) r) key.
Proof. intros Hk. unfold val. rewrite (take_S_r _ _ _ Hk), fmap_app. cbn [fmap list_fmap snd]. by rewrite after_snoc. Qed.

Lemma srv_val_step k : val (S k) = val k ∨ ∃ o, o ∈ ops_on key (operations w) ∧ takes k o.
Proof.
  destruct (L !! k) as [[c r]|] eqn:Hk.
  2: { left. unfold val. apply lookup_ge_None in Hk. by rewrite !take_ge by lia. }
  rewrite (val_next _ _ _ Hk), value_of_next. destruct r as [args|op args]; [by left|].
  destruct (seen args _) eqn:Hs; [by left|].
  destruct (v_log _ _ _ _ Hinv _ _ (list_elem_of_lookup_2 _ _ _ Hk)) as (call & Hc & Er).
  destruct (decide (pa_Key args = key)) as [Hkey|Hkey].
  - right. destruct (srv_record_exists _ _ Hc) as [o Ho]. exists o. split.
    + apply srv_key_ops. exists c, call. by rewrite Er.
    + by exists c, call, op, args.
  - left. unfold val, value_of. by rewrite apply_write_other.
Qed.

(** The texts that were appended between two entries. *)
Lemma val_between v (k j : nat) :
  (S k <= j)%nat →
  (∀ i c op args, (k < i < j)%nat → in_effect i c op args → pa_Key args = key →
    op = OpAppend ∧ marker v ∧ marker (pa_Value args) ∧ pa_Value args ≠ v) →
  ∃ us, val j = val (S k) +:+ concat_all us ∧ ∀ u, u ∈ us → marker v ∧ marker u ∧ u ≠ v.
Proof.
  assert (∀ a : string, a +:+ "" = a) as Hnil
    by (intros a; apply list_ascii_inj; by rewrite list_ascii_app, app_nil_r).
  induction 1 as [|j Hle IH]; intros Hall; [exists []; split; [by rewrite Hnil|]; by intros u ?%not_elem_of_nil|].
  destruct IH as (us & Ev & Hus); [intros i c op args Hi; apply Hall; lia|].
  destruct (srv_val_step j) as [->|(o & _ & c & call & op & args & _ & _ & Hkey & Hk & Hs)]; [by exists us|].
  destruct (Hall j c op args ltac:(lia) (conj Hk Hs) Hkey) as (-> & Hm).
  exists (us ++ [pa_Value args]). split; [|intros u [Hu|Hu%list_elem_of_singleton]%elem_of_app; [by apply Hus|by subst u]].
  rewrite (val_next _ _ _ Hk), value_of_next, Hs. cbn. rewrite Hkey, lookup_insert_eq. cbn.
  change (default _ _) with (val j). rewrite Ev. apply list_ascii_inj.
  rewrite !list_ascii_app, !list_ascii_concat, fmap_app, join_app, <- app_assoc. cbn [fmap list_fmap mjoin list_join].
  by rewrite app_nil_r.
Qed.

Lemma marks_order c call o c' call' o' :
  record_of c call o → record_of c' call' o' → Return o <= Call o' → (mark (Return o) <= mark (Call o'))%nat.
Proof.
  intros Hr Hr' Hle. pose proof Hr' as [Hc' _]. pose proof Hr as [Hc _].
  apply record_of_parts in Hr as (t & v & Ht & ->). apply record_of_parts in Hr' as (t' & v' & _ & ->). cbn in Hle |- *.
  unfold mark. rewrite !Nat2Z.id. pose proof (v_start _ _ _ _ Hinv _ _ Hc').
  assert (is_Some (marks !! t) ∧ is_Some (marks !! c_start call')) as [[m Hm] [m' Hm']]
    by (rewrite !lookup_lt_is_Some, (v_len _ _ _ _ Hinv); lia).
  rewrite Hm, Hm'. cbn. eapply (v_sorted _ _ _ _ Hinv t (c_start call')); [lia|done|done].
Qed.

(** A call whose effect is between two copies of another overlaps that one. *)
Lemma between_overlaps c call o k k' i c' call' o' op args :
  record_of c call o → record_of c' call' o' → L !! k = Some (c, c_rpc call) → (k < i < k')%nat →
  (k' < mark (Return o))%nat → in_effect i c' op args → overlap o o'.
Proof.
  intros Hr Hr' Hk Hi Hk' Hin. pose proof Hr' as [Hc' _].
  destruct (srv_record_marks _ _ _ Hr) as (_ & Hs & _), (srv_record_marks _ _ _ Hr') as (_ & Hs' & v' & _ & (i' & Hi' & Hlt & _)).
  pose proof (Hs _ _ Hk). pose proof (Hs' _ _ (proj1 Hin)).
  assert (i <= i')%nat as Hle.
  { apply Nat.nlt_ge. intros Hlt'. destruct Hin as [Hin Hseen].
    destruct (v_log _ _ _ _ Hinv _ _ (list_elem_of_lookup_2 _ _ _ Hin)) as (call1 & Hc1 & E).
    simplify_eq. rewrite E in Hi'. by rewrite (before_seen _ _ _ _ _ Hi' Hlt') in Hseen. }
  split; apply Z.nle_gt; intros Hbad.
  - pose proof (marks_order _ _ _ _ _ _ Hr Hr' Hbad). lia.
  - pose proof (marks_order _ _ _ _ _ _ Hr' Hr Hbad). lia.
Qed.

Context (Hsafe : safe_appends (operations w) key).

(** An append returns what the key had when it was executed. *)
Lemma append_reply c call o k args :
  record_of c call o → c_rpc call = RWrite OpAppend args → pa_Key args = key → in_effect k c OpAppend args →
  Output o = KvOut (mkKvOutput (val k)).
Proof.
  intros Hr Er Hkey Hk. destruct (srv_record_marks _ _ _ Hr) as (_ & _ & v & -> & (k' & Hk' & Hlt & Hrep)). do 2 f_equal.
  rewrite Er in Hk', Hrep. pose proof (proj1 (after_good (take k' L).*2)) as Hidle. cbn [serve_reply write] in Hrep.
  destruct (decide (k' < k)%nat) as [Hbad|]; [destruct Hk as [_ Hn]; by rewrite (before_seen _ _ _ _ _ Hk' Hbad) in Hn|].
  destruct (decide (k = k')) as [<-|Hne].
  - destruct (write_cases OpAppend args _ Hidle) as (s' & reply & E & _ & Hcase). cbn [write] in E. rewrite E in Hrep.
    rewrite (proj2 Hk) in Hcase. destruct Hcase as (_ & _ & Hv). cbn in Hrep. injection Hrep as <-. rewrite Hv. cbn.
    by rewrite Hkey.
  - pose proof (write_dup OpAppend args _ Hidle (before_seen k k' _ _ _ (proj1 Hk) ltac:(lia))) as E. cbn [write] in E.
    rewrite E in Hrep. cbn [snd fmap option_fmap option_map mbind option_bind par_Value] in Hrep. injection Hrep as <-.
    rewrite Hkey. change (value_of _ key) with (val k').
    destruct (val_between (pa_Value args) k k') as (us & Ev & Hus); [lia| |].
    + intros i c' op' args' Hi Hin Hkey'.
      destruct (v_log _ _ _ _ Hinv _ _ (list_elem_of_lookup_2 _ _ _ (proj1 Hin))) as (call' & Hc' & Er').
      destruct (srv_record_exists _ _ Hc') as [o' Ho'].
      assert (o ≠ o') as Hoo.
      { intros <-. destruct (record_of_call _ _ _ _ _ Hr Ho') as [<- <-]. rewrite Er in Er'. injection Er' as <- <-.
        pose proof (srv_in_effect_once _ _ _ _ _ Hk Hin). lia. }
      pose proof (between_overlaps c call o k k' i c' call' o' op' args' Hr Ho') as Hov. rewrite Er in Hov.
      specialize (Hov (proj1 Hk) Hi Hlt Hin).
      destruct (Hsafe o o' (pa_Value args) (input_of (RWrite op' args'))) as (Ho3 & Hm);
        [apply srv_key_ops; exists c, call; by rewrite Er|apply srv_key_ops; exists c', call'; by rewrite Er'
        |done| | |by destruct op'|done|].
      * destruct (record_of_parts _ _ _ Hr) as (t & u & _ & ->). cbn. by rewrite Er, <- Hkey.
      * destruct (record_of_parts _ _ _ Ho') as (t & u & _ & ->). cbn. by rewrite Er'.
      * by destruct op'.
    + assert (val (S k) = val k +:+ pa_Value args) as ES.
      { rewrite (val_next _ _ _ (proj1 Hk)), value_of_next, (proj2 Hk). cbn. by rewrite Hkey, lookup_insert_eq. }
      assert (val k' = val k +:+ (pa_Value args +:+ concat_all us)) as Ek.
      { rewrite Ev, ES. apply list_ascii_inj. by rewrite !list_ascii_app, <- app_assoc. }
      unfold dup_reply. rewrite Ek, LastIndex_marker by done. rewrite decide_True by lia. by rewrite Nat2Z.id, substring_app.
Qed.

Lemma srv_takes_step k o : takes k o → kv_Step (val k) (Input o) (Output o) = Some (true, val (S k)).
Proof.
  intros (c & call & op & args & Hrec & Er & Hkey & Hk).
  assert (val (S k) = default ""%string (apply_write op args (kv (after (take k L).*2)) !! key)) as E.
  { rewrite (val_next _ _ _ (proj1 Hk)), value_of_next. by rewrite (proj2 Hk). }
  rewrite E. destruct op.
  - destruct (record_of_parts _ _ _ Hrec) as (t & v & _ & ->). cbn. rewrite Er. unfold kv_Step. cbn.
    by rewrite Hkey, lookup_insert_eq.
  - rewrite (append_reply _ _ _ _ _ Hrec Er Hkey Hk). destruct (record_of_parts _ _ _ Hrec) as (t & v & _ & ->).
    cbn. rewrite Er. unfold kv_Step. cbn. rewrite bool_decide_eq_true_2 by done. by rewrite Hkey, lookup_insert_eq.
Qed.

Lemma srv_points :
  points KvModel (ops_on key (operations w)) val takes writes (λ o, mark (Call o)) (λ o, mark (Return o)).
Proof.
  split.
  - done.
  - apply srv_val_step.
  - apply srv_takes_step.
  - intros k o o' (c & call & op & args & [Hc Ho] & Er & _ & Hk & _) (c' & call' & op' & args' & [Hc' Ho'] & Er' & _ & Hk' & _).
    simplify_eq. congruence.
  - intros k k' o (c & call & op & args & Hr & Er & _ & Hk) (c' & call' & op' & args' & Hr' & Er' & _ & Hk').
    destruct (record_of_call _ _ _ _ _ Hr Hr') as [<- <-]. rewrite Er in Er'. injection Er' as <- <-.
    by eapply srv_in_effect_once.
  - intros k o (c & call & op & args & Hr & Er & _). apply record_of_parts in Hr as (t & v & _ & ->).
    unfold writes. cbn. rewrite Er. by destruct op.
  - intros o (c & call & Hr & Hkey)%srv_key_ops Hw. destruct (c_rpc call) as [args|op args] eqn:Er.
    { apply record_of_parts in Hr as (t & v & _ & ->). unfold writes in Hw. cbn in Hw. by rewrite Er in Hw. }
    destruct (srv_first_in_effect _ _ _ _ _ Hr Er) as (k & Hlt & Hk). exists k. split; [by exists c, call, op, args|].
    split; [|done]. destruct (srv_record_marks _ _ _ Hr) as (_ & Hs & _). by eapply Hs, Hk.
  - intros o (c & call & Hr & Hkey)%srv_key_ops Hw.
    destruct (srv_record_marks _ _ _ Hr) as (_ & Hs & v & Hout & (k & Hk & Hlt & Hv)).
    exists k. specialize (Hs _ _ Hk). split; [|lia].
    apply record_of_parts in Hr as (t & v' & _ & ->). cbn in Hout. injection Hout as ->. unfold writes in Hw. cbn in Hw.
    destruct (c_rpc call) as [args|[] args]; [|done..]. cbn in Hkey, Hv |- *. injection Hv as <-.
    unfold kv_Step. cbn. rewrite Hkey. by rewrite bool_decide_eq_true_2.
  - intros o (c & call & Hr & _)%srv_key_ops. apply srv_record_marks in Hr as [? _]. lia.
  - intros o o' (c & call & Hr & _)%srv_key_ops (c' & call' & Hr' & _)%srv_key_ops Hlt.
    eapply marks_order; [exact Hr|exact Hr'|lia].
Qed.

Lemma operations_NoDup : NoDup (operations w).
Proof.
  pose proof (v_starts _ _ _ _ Hinv) as Hnd. unfold operations.
  induction (srv_calls w) as [|call calls IH]; [constructor|]. rewrite fmap_cons, NoDup_cons in Hnd. destruct Hnd as [Hnot Hnd].
  cbn. destruct (operation_of call) as [o|] eqn:Ho; [|by apply IH]. constructor; [|by apply IH].
  intros (call' & Hin & Ho')%list_elem_of_omap. apply Hnot, list_elem_of_fmap. exists call'. split; [|done].
  unfold operation_of in Ho, Ho'. destruct (c_return call) as [[t v]|], (c_return call') as [[t' v']|]; try done.
  cbn in Ho, Ho'. injection Ho as <-. injection Ho'. lia.
Qed.

Lemma server_key_linearizable : linearizable KvModel (ops_on key (operations w)).
Proof. eapply points_linearizable; [apply srv_points|]. apply NoDup_filter, operations_NoDup. Qed.
End Linear.

Lemma operations_typed w : typed (operations w).
Proof.
  intros o (call & _ & Ho)%list_elem_of_omap. unfold operation_of in Ho.
  destruct (c_return call) as [[t v]|]; [|done]. injection Ho as <-. by eexists _, _.
Qed.

Lemma srv_operations_timed ids w L marks : srv_inv ids w L marks → timed (operations w).
Proof.
  intros Hinv o (call & [c Hc]%list_elem_of_lookup & Ho)%list_elem_of_omap. unfold operation_of in Ho.
  destruct (c_return call) as [[t v]|] eqn:Hr; [|done]. injection Ho as <-. cbn.
  destruct (v_return _ _ _ _ Hinv _ _ _ _ Hc Hr). lia.
Qed.

Section Checked.
Context `{Printable KvValue, Printable string, TimeSorter KvValue, !TimeSorterLaws KvValue}.

(** C29: Whatever the network does to the requests and replies of any number of clerks,
    whose drawn ids are different, once all have returned the calls on a key are linearizable, with the values that
    appends return, if writes that overlap an append of it are appends of other texts
    of the kind the tests use; if that is so for all keys the checker that the tests
    call returns true.  Retries and copies that arrive late change nothing. *)
Theorem server_linearizable draws w :
  srv_reach draws w → all_returned w →
  (∀ key, safe_appends (operations w) key → linearizable KvModel (ops_on key (operations w))) ∧
  ((∀ key, safe_appends (operations w) key) → operations w ≠ [] → ∃ fuel0, ∀ fuel sched, (fuel0 <= fuel)%nat →
    complete sched (length (operations w)) → CheckOperations KvModel (operations w) sched fuel = Returned true).
Proof.
  intros Hr Hdone. pose proof (srv_reach_ids _ _ Hr) as Hids. apply srv_reach_inv in Hr as (L & marks & Hinv).
  assert (∀ key, safe_appends (operations w) key → linearizable KvModel (ops_on key (operations w))) as Hlin
    by (intros key Hsafe; by eapply server_key_linearizable).
  split; [exact Hlin|]. intros Hsafe Hne.
  destruct (check_keys _ (operations_typed w) (srv_operations_timed _ _ _ _ Hinv) Hne) as (keys & fuel0 & _ & Hrun).
  exists fuel0. intros fuel sched Hf Hsched. destruct (Hrun fuel sched Hf Hsched) as (ok & -> & Hok).
  by rewrite (proj2 Hok) by auto.
Qed.
End Checked.

(** ** A run with retries and a late copy *)
From S2P Require Import PorcupineRuns.

Fixpoint srv_run (es : list SrvEvent) w : option SrvWorld :=
  match es with [] => Some w | e :: es => w ← srv_exec w e; srv_run es w end.

Lemma srv_run_reach draws es w w' : srv_reach draws w → srv_run es w = Some w' → srv_reach draws w'.
Proof.
  revert w. induction es as [|e es IH]; intros w Hr Hx; [by injection Hx as <-|].
  apply bind_Some in Hx as (w1 & H1 & Hx). eapply IH; [by eapply srv_step|done].
Qed.

Definition run_two (es : list SrvEvent) : SrvWorld := default (srv_init []) (srv_run es (srv_init [7; 8])).

Lemma two_reach es : is_Some (srv_run es (srv_init [7; 8])) → srv_reach [7; 8] (run_two es).
Proof.
  intros [w Hw]. unfold run_two. rewrite Hw. eapply srv_run_reach; [|exact Hw].
  apply srv_start. apply (bool_decide_unpack _). vm_compute. exact I.
Qed.

(** The reply to the first append is lost and it is sent again while another clerk
    appends; a third copy arrives after that clerk has put another value. *)
Definition late_copy : list SrvEvent :=
  [SCall 0 (QAppend "x" "x 0 0 y"); SServe 0; SCall 1 (QAppend "x" "x 1 0 y"); SServe 1; SReturn 1; SServe 0; SReturn 2;
   SCall 1 (QPut "x" "c"); SServe 2; SReturn 3; SServe 0; SCall 0 (QGet "x"); SServe 3; SReturn 5].

Definition late_history : list (Operation KvValue) :=
  [mkOperation 0 (KvIn (mkKvInput 3 "x" "x 0 0 y")) 0 (KvOut (mkKvOutput "")) 6;
   mkOperation 1 (KvIn (mkKvInput 3 "x" "x 1 0 y")) 2 (KvOut (mkKvOutput "x 0 0 y")) 4;
   mkOperation 1 (KvIn (mkKvInput 1 "x" "c")) 7 (KvOut (mkKvOutput "")) 9;
   mkOperation 0 (KvIn (mkKvInput 0 "x" "")) 11 (KvOut (mkKvOutput "c")) 13].

Lemma late_copy_history : operations (run_two late_copy) = late_history.
Proof. vm_compute. reflexivity. Qed.

Lemma late_history_safe key : safe_appends late_history key.
Proof.
  assert (marker "x 0 0 y" ∧ marker "x 1 0 y") as [H0 H1].
  { split; [exists [" "; "0"; " "; "0"; " "]%char|exists [" "; "1"; " "; "0"; " "]%char];
      (split; [reflexivity|]); split; apply (bool_decide_unpack _); vm_compute; exact I. }
  intros o o' v inp Ho%elem_of_ops_on Ho'%elem_of_ops_on Hne Hv Hinp Hop Hov. unfold late_history in *.
  repeat (apply elem_of_cons in Ho as [->|Ho]; [|]); [..|by apply elem_of_nil in Ho]; try discriminate Hv; injection Hv as <- <-;
    (repeat (apply elem_of_cons in Ho' as [->|Ho']; [|]); [..|by apply elem_of_nil in Ho']);
    try done; injection Hinp as <-; try done; try (by split_and!); unfold overlap in Hov; cbn in Hov; lia.
Qed.

Lemma server_linearizable_witness :
  linearizable KvModel (ops_on "x" late_history) ∧
  ∃ fuel, CheckOperations KvModel late_history (in_order 4) fuel = Returned true.
Proof.
  assert (srv_reach [7; 8] (run_two late_copy)) as Hr by (apply two_reach; vm_compute; by eexists).
  assert (all_returned (run_two late_copy)) as Hdone.
  { intros call Hin. assert (Forall (λ call, is_Some (c_return call)) (srv_calls (run_two late_copy))) as Hall
      by (apply (bool_decide_unpack _); vm_compute; exact I).
    exact (proj1 (Forall_forall _ _) Hall call Hin). }
  destruct (server_linearizable [7; 8] (run_two late_copy) Hr Hdone) as [Hlin Hcheck].
  rewrite late_copy_history in Hlin, Hcheck. split; [exact (Hlin "x"%string (late_history_safe "x"))|].
  destruct (Hcheck late_history_safe) as [fuel0 Hrun]; [discriminate|].
  exists fuel0. exact (Hrun fuel0 (in_order 4) (le_n _) (in_order_complete 4)).
Defined.

(** ** Histories that the checker rejects

    The texts are the same: the clerk of the first append gets "a", which nobody
    wrote before it. *)
Definition twin_run : list SrvEvent :=
  [SCall 0 (QAppend "x" "a"); SServe 0; SCall 1 (QAppend "x" "a"); SServe 1; SReturn 1; SServe 0; SReturn 2].

Example twin_run_rejected :
  is_Some (srv_run twin_run (srv_init [7; 8])) ∧
  CheckOperations KvModel (operations (run_two twin_run)) (in_order 2) 40 = Returned false.
Proof. split; [vm_compute; by eexists|vm_compute; reflexivity]. Qed.

(** The texts differ, but a put comes between: the first clerk gets the new value. *)
Definition put_between : list SrvEvent :=
  [SCall 0 (QAppend "x" "x 0 0 y"); SServe 0; SCall 1 (QPut "x" "x 1 0 y"); SServe 1; SReturn 1; SServe 0; SReturn 2;
   SCall 0 (QGet "x"); SServe 2; SReturn 3].

Example put_between_history :
  is_Some (srv_run put_between (srv_init [7; 8])) ∧
  CheckOperations KvModel (operations (run_two put_between)) (in_order 3) 60 = Returned false.
Proof. split; [vm_compute; by eexists|vm_compute; reflexivity]. Qed.
